(* ===== verification/_CoqProject ===== *)
-Q . S2P
Prelude.v
Crc32c.v
Glib.v
Rangeset.v
State.v
Strings.v
Ownership.v
CloudLog.v
Lru.v
Inodes.v
Fetch.v
File.v
FileOps.v
FileFlush.v
Dir.v
Imap.v
Serialize.v
Roundtrip.v
RoundtripItem.v
Journal.v
Crypto.v
CacheFiles.v
JournalFetch.v
LogThread.v
Names.v
LogAppend.v
Upload.v
UploadPlace.v
InodeSync.v
Store.v
StoreProtocol.v
StoreThreads.v
SimpleStore.v
SimpleSockets.v
SimpleServer.v
SimpleServe.v
SimpleProtocol.v
ItemTable.v
Replay.v
NameOrder.v
Cache.v
CacheGC.v
Recovery.v
JournalRecovery.v
Cleaner.v
CleanItems.v
CleanFormat.v
CleanStore.v
CleanRun.v
CleanView.v
CleanLog.v
CleanBuild.v
CleanCopy.v
CleanDone.v
CleanMain.v
CleanExample.v
CleanMerge.v
Xdr.v
NfsTypes.v
Rpc.v
Nfs.v
NfsOps.v
Mount.v
