(* ===== verification/Prelude.v ===== *)
(** * BlueSky: a verification development

    BlueSky is a file server that keeps its data in cloud storage.  The sources are
    under src/bluesky (the library), src/nfs3 (the NFS front end), src/simplestore
    (a storage server) and src/cleaner (the segment cleaner).

    ** The program

    A client mounts the file system (src/nfs3/mount.c) and sends NFS calls.
    src/nfs3/rpc.c puts messages together from the
    stream and dispatches them, src/nfs3/nfs3_prot_xdr.c decodes arguments and
    encodes results, and src/nfs3/nfs3.c carries the procedures out on inodes in
    memory.  Files (file.c) are arrays of blocks that are holes, references to
    items of the log, or dirty data; directories (dir.c) are three views of the same
    entries.  The flush daemon (cache.c) serializes dirty inodes (serialize.c,
    inode.c) to items that go to the journal on local disk (log.c) and later, in
    encrypted segments (crypto.c, cloudlog.c), to the storage service: store.c
    passes requests to a back end, such as store-s3.c, or store-simple.c, which
    talks to the server src/simplestore/server.c over a socket.  The inode map (imap.c) says which item holds which inode, and
    checkpoints of it go to the cloud too.  Items whose data is not in memory are
    mapped from journal files or fetched segments.  After a crash the last
    checkpoint is loaded and the journal replayed (log.c).  A separate
    program in Python, src/cleaner/cleaner, deletes segments that are not in use and
    moves what is left of those that are mostly garbage; cleaner.c takes over its
    results.

    ** How it is modelled

    Code that uses memory is a function of the monad [M S A] of this file: it maps
    a state to a result and a state, or to a [fault] (an assertion that fails, a
    null or dangling pointer, an access out of bounds, a deadlock, an exception of
    Python, or a recursion bound that was reached).  [wp m s Q] says that [m] started in [s] ends without
    fault in a state with [Q], so that every theorem about it includes the absence
    of faults and termination.  Bytes are integers, memory blocks are lists of them,
    and integers of fixed width are integers with [u32], [s32], [u64] and so on
    where the code wraps around.  Objects shared by pointers live in the heaps of
    [State.State]; freeing one takes it out of its heap.

    Threads other than those of the storage layer are scheduled where it matters
    to the code: the log thread takes turns, uploads and fetches complete, and the
    daemon runs when another thread waits for them.  For the storage layer all
    interleavings of calls are covered (StoreThreads).

    ** The files

    - Prelude: notations, the hint databases, record update, integers and bytes, the
      monad with its rules.  Glib: the sorted sequences of GLib, a parameter.
    - Crc32c (crc32c.c), Rangeset and Lru (util.c), Strings (util.c).
    - State: the structures of bluesky.h and bluesky-private.h.  Ownership: the
      references each object holds, and the invariant [heap_ok] that no count is
      too small.
    - CloudLog (cloudlog.c), Inodes (inode.c), Fetch: the interface through which the
      file code reads items, with its laws.
    - File (file.c) with FileOps and FileFlush, its correctness.  Dir (dir.c).
      Imap (imap.c).  Serialize (serialize.c) with Roundtrip and RoundtripItem.
    - Journal: the record format of log.c and its validation.  Crypto (crypto.c and
      segments of cloudlog.c).  CacheFiles: the cache files of log.c; JournalFetch:
      CacheFiles implements the interface of Fetch for items in the journal.
    - LogThread: the thread that writes the journal; LogAppend: its correctness.
      Names: the numbers in the names of journal files.
      Upload: writing segments (cloudlog.c); UploadPlace: its correctness.
    - InodeSync (inode.c): loading and writing back inodes.  Replay (log.c, imap.c,
      inode.c): starting a file system.  ItemTable: the table of items by identifier;
      NameOrder: the order of the names of journal files; Recovery and
      JournalRecovery: what replaying the journal restores.  Cache
      (cache.c): the daemon; CacheGC: reclaiming files is safe.  Cleaner (cleaner.c).
    - The segment cleaner (src/cleaner/cleaner).  CleanItems: items and their format;
      CleanFormat: between the cleaner and the file system.  CleanStore: its storage,
      an interface with two implementations.  CleanRun: the program.  CleanView: the
      state of the program up to the storage, and when a storage holds a file system
      ([store_ok]); CleanLog, CleanBuild, CleanCopy, CleanDone, CleanMain: its
      correctness, part by part; CleanExample: a run.  CleanMerge: what cleaner.c does
      with the result.
    - Store (store.c, store-s3.c) with StoreProtocol and StoreThreads.
    - SimpleStore (store-simple.c) and SimpleServer (server.c): the client and the
      server of the simple store.  SimpleSockets: what the transfers over a socket
      do.  SimpleServe: the server is correct; SimpleProtocol: client and server
      together.
    - Xdr and NfsTypes (nfs3_prot_xdr.c, nfs3_prot.h, common.c), Rpc (rpc.c), Nfs
      (nfs3.c) with NfsOps, its correctness.  Mount (mount.c, mount_prot_xdr.c).

    Definitions have the names of the C functions.  A loop or a block of a long
    function has a definition of its own where a lemma is about it.

    ** What the theorems show

    - Files: write, truncate, read and flush refine a byte array
      (FileOps.file_write_refines and the others): the contents are what a client
      expects, log items and other files keep theirs, references and the count of
      dirty blocks are right.
    - Directories refine a finite map from names to inodes: insert, remove, lookup
      and rename; a walk by cookies lists all entries.
    - The inode map refines a finite map; sections of it, inodes and log items survive
      writing and reading.
    - The journal: a turn of the log thread appends one record and keeps everything
      that could be read (LogAppend.log_thread_appends); a scan finds all complete
      records after a crash in the middle of one, rejects damaged ones and stays in
      bounds; data fetched from the journal is the data written
      (JournalFetch.cloudlog_fetch_refines).  CRC-32C by tables is the bitwise one.
      Replaying the journal from its last commit point restores the last version of
      every inode, with its blocks linked to the items written with it
      (JournalRecovery.replay_restores); that the data of these items can then not be
      read is JournalRecovery.replayed_data_unreadable.
    - The cloud log: an item is where its location says, after encryption and
      decryption (UploadPlace.serialize_item_places); segments survive a round trip;
      an accepted block carries a valid authentication code.
    - The cache: reclaiming files removes nothing that is in use or that recovery
      may need (CacheGC.cachefile_gc_safe).  Range sets and LRU lists behave as sets
      and lists.
    - The segment cleaner: whatever storage it runs on, the program ends without
      exception and the storage again holds a checkpoint with the same files, nothing
      of which is in a segment that was to be cleaned
      (CleanMain.cleaner_preserves_files).  Although the cleaner has no keys, the file
      system accepts and reads the items it has moved
      (CleanFormat.relocated_item_authentic), and a file keeps its contents when the
      places of its moved blocks are taken over (CleanMerge.merge_keeps_contents).
    - The storage layer: for every interleaving, calls are free of faults, each
      notifier is called once, and requests finish; what was put is gotten; ranges
      are exact.
    - The simple store: a PUT or a GET that goes through client, sockets and server
      refines an update or a lookup of a map, however the network cuts the messages
      (SimpleProtocol.simplestore_put_refines, simplestore_get_refines), and whatever
      the network does, a task ends and completes its request.
    - NFS: all argument and result types survive encoding and decoding; messages
      come together however the stream is cut; no message breaks the dispatcher;
      READ, WRITE, LOOKUP and READDIR refine the byte arrays and maps above, and for
      READ this holds from the bytes of the call to the bytes of the answer
      (NfsOps.nfs_read_over_wire).  Mounting gives the handle of the root
      (Mount.mount_leads_to_root).

    Examples at the ends of the files show behaviour that deviates from what the
    code means to do, such as NfsOps.large_count_overruns_buffer.

    ** Parameters

    The clock, random numbers and uninitialised memory ([Env]), the search in sorted
    sequences ([GSequenceLib]), the cipher and hash functions ([Gcrypt]), the disk
    space of a file ([DiskUsage]), the files of the file store ([FileSystem]), the
    validation of UTF-8, the files of the simple server ([ServerOS]), the random
    identifiers of the segment cleaner, what reads, writes and S3 requests return and
    where a stream of bytes is cut.  Each class
    has an instance that shows its laws can hold and that the witnesses use.

    ** Recursion bounds

    Loops over data consume at least one byte or element in a turn and get the
    length as their bound: copying loops the number of bytes, scans the length of
    the buffer, walks and recursions over heaps the number of objects.  The theorems
    show that these suffice.  Two bounds are arguments because the code has no
    bound: the tries for an unused directory cookie (the theorems assume one of the
    tries succeeds) and the turns of the daemon that a delayed request waits for
    (the theorems about NFS assume no delay).

    ** Not modelled

    The other back ends (store-azure.c, store-bdb.c, store-kv.cc, store-multi.c),
    which are clients of further libraries behind the interface of
    store.c; debugging output, statistics and profiles; the main programs and the
    event loop; accepting connections and forking in the simple server; what the
    segment cleaner prints, how it repeats failed requests to S3, and its SimpleBackend,
    whose constructor raises an exception; the
    key-value server, benchmarks and trace tools, which are separate programs.  Locks
    are not part of the state: they appear only where one would be taken twice.
    Freeing of XDR data and of whole file systems is left out. *)

From Stdlib Require Import ZArith Lia Bool.
From stdpp Require Import base numbers gmap option list.

Open Scope Z_scope.

(** ** Notations, databases, tactics *)

Declare Scope bluesky_scope.
Delimit Scope bluesky_scope with bluesky.

Create HintDb bluesky.
Create Rewrite HintDb bluesky_rw.

(** Raw memory: a byte is an integer in [0, 256). *)
Abbreviation bytes := (list Z).
Abbreviation zlen l := (Z.of_nat (length l)).

(** ** Record update

    [x <| field := v |>] and [x <| field ::= f |>].  A record declares its
    eta-expansion once ([Eta]); setters are then found by instance search. *)
Class Eta (R : Type) := eta : R -> R.
Class Setter {R T : Type} (proj : R -> T) := setf : (T -> T) -> R -> R.
Arguments setf {_ _} proj {_} _ _.

Ltac solve_setter :=
  lazymatch goal with
  | |- @Setter ?R ?T ?proj =>
    let f := fresh "f" in
    let x := fresh "x" in
    refine (fun (f : T -> T) (x : R) => _);
    let inst := constr:(_ : Eta R) in
    let e := eval red in (@eta R inst x) in
    let e := eval hnf in e in
    let e := eval pattern (proj x) in e in
    lazymatch e with
    | ?k _ => let b := eval cbv beta in (k (f (proj x))) in exact b
    end
  end.
#[export] Hint Extern 1 (Setter _) => solve_setter : typeclass_instances.

Notation "x <| proj := v |>" := (setf proj (fun _ => v) x)
  (at level 1, left associativity, proj at next level, v at level 200)
  : bluesky_scope.
Notation "x <| proj ::= f |>" := (setf proj f x)
  (at level 1, left associativity, proj at next level, f at level 200)
  : bluesky_scope.
Open Scope bluesky_scope.

(** ** Machine integers

    C integers are kept in [Z]; these are the conversions to a type of the
    given width. *)
Definition u8 (x : Z) : Z := x mod 2 ^ 8.
Definition u32 (x : Z) : Z := x mod 2 ^ 32.
Definition u64 (x : Z) : Z := x mod 2 ^ 64.
Definition s32 (x : Z) : Z := (x + 2 ^ 31) mod 2 ^ 32 - 2 ^ 31.
Definition s64 (x : Z) : Z := (x + 2 ^ 63) mod 2 ^ 64 - 2 ^ 63.

Lemma u32_id x : 0 <= x < 2 ^ 32 -> u32 x = x.
Proof. apply Z.mod_small. Qed.

Lemma u64_id x : 0 <= x < 2 ^ 64 -> u64 x = x.
Proof. apply Z.mod_small. Qed.

Lemma s32_id x : - 2 ^ 31 <= x < 2 ^ 31 -> s32 x = x.
Proof. intros. unfold s32. rewrite Z.mod_small; lia. Qed.

Lemma s64_id x : - 2 ^ 63 <= x < 2 ^ 63 -> s64 x = x.
Proof. intros. unfold s64. rewrite Z.mod_small; lia. Qed.

Lemma u32_range x : 0 <= u32 x < 2 ^ 32.
Proof. apply Z.mod_pos_bound. lia. Qed.

Lemma u64_range x : 0 <= u64 x < 2 ^ 64.
Proof. apply Z.mod_pos_bound. lia. Qed.

Lemma u8_range x : 0 <= u8 x < 2 ^ 8.
Proof. apply Z.mod_pos_bound. lia. Qed.

Lemma s64_u64 x : - 2 ^ 63 <= x < 2 ^ 63 -> s64 (u64 x) = x.
Proof.
  intros. unfold s64, u64. rewrite Z.add_mod_idemp_l by lia. by apply s64_id.
Qed.

#[export] Hint Resolve u32_range u64_range u8_range : bluesky.
#[export] Hint Rewrite u32_id u64_id s32_id s64_id using lia : bluesky_rw.

(** ** Bytes and little-endian integers *)
Definition is_byte (b : Z) : Prop := 0 <= b < 256.
Abbreviation are_bytes := (Forall is_byte).

#[export] Instance is_byte_dec b : Decision (is_byte b).
Proof. unfold is_byte. apply _. Defined.

Fixpoint le_bytes (n : nat) (x : Z) : bytes :=
  match n with
  | O => []
  | S n => x mod 256 :: le_bytes n (x / 256)
  end.

Fixpoint le_val (l : bytes) : Z :=
  match l with
  | [] => 0
  | b :: l => b + 256 * le_val l
  end.

Lemma length_le_bytes n x : length (le_bytes n x) = n.
Proof. revert x; induction n; intros; simpl; auto. Qed.

Lemma le_bytes_are_bytes n x : are_bytes (le_bytes n x).
Proof.
  revert x; induction n as [|n IH]; intros x; simpl; constructor; auto.
  apply Z.mod_pos_bound. lia.
Qed.

Lemma le_val_le_bytes n x : le_val (le_bytes n x) = x mod 256 ^ Z.of_nat n.
Proof.
  revert x; induction n as [|n IH]; intros x; simpl le_val.
  { by rewrite Z.mod_1_r. }
  rewrite IH, Nat2Z.inj_succ, Z.pow_succ_r by lia.
  rewrite Z.rem_mul_r by lia. lia.
Qed.

Lemma le_bytes_le_val l : are_bytes l -> le_bytes (length l) (le_val l) = l.
Proof.
  induction 1 as [|b l Hb Hl IH]; simpl; auto.
  unfold is_byte in Hb. f_equal.
  - rewrite Z.mul_comm, Z_mod_plus_full, Z.mod_small; lia.
  - rewrite Z.mul_comm, Z.div_add, Z.div_small, Z.add_0_l by lia. apply IH.
Qed.

Lemma le_val_range l : are_bytes l -> 0 <= le_val l < 256 ^ zlen l.
Proof.
  induction 1 as [|b l Hb Hl IH]; simpl length; simpl le_val; [lia|].
  unfold is_byte in Hb.
  rewrite Nat2Z.inj_succ, Z.pow_succ_r by lia. nia.
Qed.

Lemma le_val_le_bytes4 x : 0 <= x < 2 ^ 32 -> le_val (le_bytes 4 x) = x.
Proof. intros. rewrite le_val_le_bytes. apply Z.mod_small. lia. Qed.

Lemma le_val_le_bytes8 x : 0 <= x < 2 ^ 64 -> le_val (le_bytes 8 x) = x.
Proof. intros. rewrite le_val_le_bytes. apply Z.mod_small. lia. Qed.

Lemma le_bytes_inj n x y :
  0 <= x < 256 ^ Z.of_nat n -> 0 <= y < 256 ^ Z.of_nat n ->
  le_bytes n x = le_bytes n y -> x = y.
Proof.
  intros Hx Hy H. apply (f_equal le_val) in H.
  rewrite !le_val_le_bytes, !Z.mod_small in H by lia. done.
Qed.

#[export] Hint Resolve le_bytes_are_bytes : bluesky.
#[export] Hint Rewrite length_le_bytes : bluesky_rw.

(** Big-endian (network order) encodings. *)
Definition be_bytes (n : nat) (x : Z) : bytes := rev (le_bytes n x).
Definition be_val (l : bytes) : Z := le_val (rev l).

Lemma be_val_be_bytes n x : be_val (be_bytes n x) = x mod 256 ^ Z.of_nat n.
Proof. unfold be_val, be_bytes. rewrite rev_involutive. apply le_val_le_bytes. Qed.

Lemma length_be_bytes n x : length (be_bytes n x) = n.
Proof. unfold be_bytes. rewrite length_rev. apply length_le_bytes. Qed.

#[export] Hint Rewrite length_be_bytes : bluesky_rw.

(** ** Sub-ranges of a buffer

    [slice buf off len] is the [len] bytes at [buf + off], or [None] if some of
    them lie outside the buffer. *)
Definition slice (buf : bytes) (off len : Z) : option bytes :=
  if (0 <=? off) && (0 <=? len) && (off + len <=? zlen buf)
  then Some (take (Z.to_nat len) (drop (Z.to_nat off) buf))
  else None.

Lemma slice_mid p x q off len :
  off = zlen p -> len = zlen x -> slice (p ++ x ++ q) off len = Some x.
Proof.
  intros -> ->. unfold slice. rewrite !length_app.
  rewrite (proj2 (Z.leb_le _ _)), (proj2 (Z.leb_le _ _)), (proj2 (Z.leb_le _ _)) by lia.
  simpl. rewrite !Nat2Z.id, drop_app_length, take_app_length. done.
Qed.

Lemma slice_Some buf off len x :
  slice buf off len = Some x ->
  0 <= off /\ 0 <= len /\ off + len <= zlen buf /\ zlen x = len /\
  exists p q, buf = p ++ x ++ q /\ zlen p = off.
Proof.
  unfold slice. intros H.
  destruct (0 <=? off) eqn:H1, (0 <=? len) eqn:H2, (off + len <=? zlen buf) eqn:H3;
    simpl in H; try discriminate.
  apply Z.leb_le in H1, H2, H3. injection H as <-.
  rewrite length_take, length_drop.
  split_and!; try lia.
  exists (take (Z.to_nat off) buf), (drop (Z.to_nat len) (drop (Z.to_nat off) buf)).
  split; [by rewrite !take_drop|]. rewrite length_take. lia.
Qed.

Lemma slice_is_Some buf off len :
  0 <= off -> 0 <= len -> off + len <= zlen buf -> is_Some (slice buf off len).
Proof.
  intros. unfold slice.
  rewrite (proj2 (Z.leb_le _ _)), (proj2 (Z.leb_le _ _)), (proj2 (Z.leb_le _ _)) by lia.
  eauto.
Qed.

Lemma slice_head a b len : len = zlen a -> slice (a ++ b) 0 len = Some a.
Proof. intros ->. by apply (slice_mid [] a b). Qed.

Lemma slice_head_at a b off len : off = 0 -> len = zlen a -> slice (a ++ b) off len = Some a.
Proof. intros ->. apply slice_head. Qed.

Lemma slice_skip a b off len :
  zlen a <= off -> slice (a ++ b) off len = slice b (off - zlen a) len.
Proof.
  intros Hoff. unfold slice. rewrite length_app, Nat2Z.inj_add, drop_app_ge by lia.
  replace (Z.to_nat off - length a)%nat with (Z.to_nat (off - zlen a)) by lia.
  destruct (0 <=? len); [|by rewrite !andb_false_r].
  by rewrite (proj2 (Z.leb_le 0 off)), (proj2 (Z.leb_le 0 (off - zlen a))),
    (eq_true_iff_eq (off + len <=? zlen a + zlen b) (off - zlen a + len <=? zlen b))
    by (rewrite ?Z.leb_le; lia).
Qed.

(** ** Overwriting part of a list *)
Definition write_at {A} (l : list A) (off : nat) (w : list A) : list A :=
  take off l ++ w ++ drop (off + length w) l.

Section write_at.
Context {A : Type}.
Implicit Types (l w : list A).

Lemma length_write_at l off w :
  (off + length w <= length l)%nat -> length (write_at l off w) = length l.
Proof. intros. unfold write_at. rewrite !length_app, length_take, length_drop. lia. Qed.

Lemma lookup_write_at l off w j :
  (off + length w <= length l)%nat ->
  write_at l off w !! j
  = if decide (off <= j < off + length w)%nat then w !! (j - off)%nat else l !! j.
Proof.
  intros Hlen. unfold write_at. rewrite !lookup_app. destruct (decide (j < off)%nat).
  - rewrite lookup_take_lt by lia. rewrite decide_False by lia.
    destruct (l !! j) eqn:E; [done|]. apply lookup_ge_None in E. lia.
  - rewrite lookup_take_ge, length_take by lia.
    replace (j - off `min` length l)%nat with (j - off)%nat by lia.
    destruct (decide (j < off + length w)%nat).
    + rewrite decide_True by lia. destruct (w !! (j - off)%nat) eqn:E; [done|].
      apply lookup_ge_None in E. lia.
    + rewrite decide_False by lia. rewrite lookup_ge_None_2 by lia.
      rewrite lookup_drop. f_equal. lia.
Qed.

Lemma write_at_app l off w1 w2 :
  (off + length w1 + length w2 <= length l)%nat ->
  write_at (write_at l off w1) (off + length w1) w2 = write_at l off (w1 ++ w2).
Proof.
  intros Hlen. apply list_eq. intros j.
  rewrite !lookup_write_at by (rewrite ?length_write_at, ?length_app; lia).
  rewrite length_app, lookup_app.
  destruct (decide (off + length w1 <= j < off + length w1 + length w2)%nat).
  - rewrite decide_True by lia. rewrite (lookup_ge_None_2 w1) by lia. f_equal. lia.
  - destruct (decide (off <= j < off + length w1)%nat).
    + rewrite decide_True by lia. destruct (w1 !! _) eqn:E; [done|].
      apply lookup_ge_None in E. lia.
    + by rewrite decide_False by lia.
Qed.

Lemma write_at_nil l off : (off <= length l)%nat -> write_at l off [] = l.
Proof. intros. unfold write_at. simpl. rewrite Nat.add_0_r. apply take_drop. Qed.

Lemma write_at_all l w : length w = length l -> write_at l 0 w = w.
Proof.
  intros Hl. unfold write_at. simpl. rewrite drop_ge by lia. apply app_nil_r.
Qed.
End write_at.

(** ** A state monad with aborts

    The result of running code: it returns, leaving a new state, or it stops
    the process (assertion, [g_error]) or touches memory it must not touch. *)
Inductive fault :=
  | Assertion     (* g_assert *)
  | Fatal         (* g_error *)
  | NullPointer   (* dereference of NULL *)
  | Dangling      (* access to freed memory *)
  | OutOfBounds   (* access outside a buffer *)
  | Blocked       (* a wait for what only another thread can do *)
  | Exception     (* a Python exception that is not caught *)
  | OutOfFuel.    (* the model's recursion bound was reached *)

Inductive outcome (S A : Type) :=
  | Ok (a : A) (s : S)
  | Stop (e : fault).
Arguments Ok {_ _} _ _.
Arguments Stop {_ _} _.

Definition M (S A : Type) : Type := S -> outcome S A.

#[export] Instance M_ret {S} : MRet (M S) := fun A a s => Ok a s.
#[export] Instance M_bind {S} : MBind (M S) :=
  fun A B k m s => match m s with Ok a s' => k a s' | Stop e => Stop e end.

Definition get {S} : M S S := fun s => Ok s s.
Definition gets {S A} (f : S -> A) : M S A := fun s => Ok (f s) s.
Definition modify {S} (f : S -> S) : M S unit := fun s => Ok tt (f s).
Definition stop {S A} (e : fault) : M S A := fun _ => Stop e.
Definition assume {S A} (e : fault) (o : option A) : M S A :=
  match o with Some a => mret a | None => stop e end.
Definition check {S} (e : fault) (b : bool) : M S unit :=
  if b then mret tt else stop e.
Definition when {S} (b : bool) (m : M S unit) : M S unit :=
  if b then m else mret tt.

(** [for x in l do f x]. *)
Fixpoint for_each {S A} (l : list A) (f : A -> M S unit) : M S unit :=
  match l with
  | [] => mret tt
  | x :: l => f x ;; for_each l f
  end.

(** Weakest precondition: [m] started in [s] returns, and its result and final
    state satisfy [Q]. *)
Definition wp {S A} (m : M S A) (s : S) (Q : A -> S -> Prop) : Prop :=
  match m s with Ok a s' => Q a s' | Stop _ => False end.

Section wp.
Context {S A B : Type}.
Implicit Types (s : S).

Lemma wp_ret (a : A) s (Q : A -> S -> Prop) : Q a s -> wp (mret a) s Q.
Proof. done. Qed.

Lemma wp_bind (m : M S A) (k : A -> M S B) s (Q : B -> S -> Prop) :
  wp m s (fun a s' => wp (k a) s' Q) -> wp (m ≫= k) s Q.
Proof. unfold wp, mbind, M_bind. destruct (m s); done. Qed.

Lemma wp_bind_inv (m : M S A) (k : A -> M S B) s (Q : B -> S -> Prop) :
  wp (m ≫= k) s Q -> wp m s (fun a s' => wp (k a) s' Q).
Proof. unfold wp, mbind, M_bind. destruct (m s); done. Qed.

Lemma wp_mono (m : M S A) s (P Q : A -> S -> Prop) :
  wp m s P -> (forall a s', P a s' -> Q a s') -> wp m s Q.
Proof. unfold wp. destruct (m s); auto. Qed.

Lemma wp_ok (m : M S A) s (Q : A -> S -> Prop) :
  wp m s Q -> exists a s', m s = Ok a s' /\ Q a s'.
Proof. unfold wp. destruct (m s); [eauto|done]. Qed.

Lemma wp_of_ok (m : M S A) s a s' (Q : A -> S -> Prop) :
  m s = Ok a s' -> Q a s' -> wp m s Q.
Proof. unfold wp. by intros ->. Qed.

Lemma wp_gets (f : S -> A) s (Q : A -> S -> Prop) : Q (f s) s -> wp (gets f) s Q.
Proof. done. Qed.

Lemma wp_modify (f : S -> S) s (Q : unit -> S -> Prop) :
  Q tt (f s) -> wp (modify f) s Q.
Proof. done. Qed.

Lemma wp_assume e (o : option A) a s (Q : A -> S -> Prop) :
  o = Some a -> Q a s -> wp (assume e o) s Q.
Proof. by intros ->. Qed.

Lemma wp_check e b s (Q : unit -> S -> Prop) :
  b = true -> Q tt s -> wp (check e b) s Q.
Proof. by intros ->. Qed.

End wp.

(** One step of symbolic execution of a monadic program. *)
Ltac wp_step :=
  lazymatch goal with
  | |- wp (_ ≫= _) _ _ => apply wp_bind
  | |- wp (mret _) _ _ => apply wp_ret
  | |- wp (gets _) _ _ => apply wp_gets
  | |- wp get _ _ => apply (wp_gets (fun s => s))
  | |- wp (modify _) _ _ => apply wp_modify
  | |- wp (assume _ _) _ _ => eapply wp_assume
  | |- wp (check _ _) _ _ => apply wp_check
  end.

(** ** Sums over lists and finite maps *)
Definition lsum {A} (f : A -> Z) (l : list A) : Z := foldr (fun a n => f a + n) 0 l.
Definition msum {K V} `{Countable K} (f : V -> Z) (m : gmap K V) : Z :=
  map_fold (fun _ v n => f v + n) 0 m.

(** 1 for a pointer to [p], 0 otherwise. *)
Definition points (p : positive) (o : option positive) : Z :=
  if decide (o = Some p) then 1 else 0.

Section sums.
Context {A : Type}.
Implicit Types (f g : A -> Z) (l : list A).

Lemma lsum_app f l1 l2 : lsum f (l1 ++ l2) = lsum f l1 + lsum f l2.
Proof. induction l1 as [|a l1 IH]; simpl; [done|]. rewrite IH. lia. Qed.

Lemma lsum_fmap {B C} (f : C -> Z) (g : B -> C) (k : list B) :
  lsum f (g <$> k) = lsum (fun a => f (g a)) k.
Proof. induction k as [|a k IH]; simpl; [done|]. f_equal. exact IH. Qed.

Lemma lsum_nonneg f l : (forall a, 0 <= f a) -> 0 <= lsum f l.
Proof. intros Hf. induction l as [|a l IH]; simpl; [lia|]. specialize (Hf a). lia. Qed.

Lemma lsum_zero f l : (forall a, a ∈ l -> f a = 0) -> lsum f l = 0.
Proof.
  induction l as [|a l IH]; intros Hf; [done|]. simpl. rewrite Hf by (by left).
  apply IH. intros b Hb. apply Hf. by right.
Qed.

Lemma lsum_ext f g l : (forall a, a ∈ l -> f a = g a) -> lsum f l = lsum g l.
Proof.
  induction l as [|a l IH]; intros Hf; simpl; [done|].
  rewrite IH, (Hf a); [done|by left|]. intros; apply Hf; by right.
Qed.

Lemma lsum_add f g l :
  lsum (fun a => f a + g a) l = lsum f l + lsum g l.
Proof. induction l as [|a l IH]; simpl; [done|]. rewrite IH. lia. Qed.

Lemma lsum_elem f l a : (forall a, 0 <= f a) -> a ∈ l -> f a <= lsum f l.
Proof.
  intros Hf (l1 & l2 & ->)%list_elem_of_split. rewrite lsum_app. simpl.
  pose proof (lsum_nonneg f l1 Hf). pose proof (lsum_nonneg f l2 Hf). lia.
Qed.

Lemma lsum_two f l i j a b :
  (forall a, 0 <= f a) -> i <> j -> l !! i = Some a -> l !! j = Some b ->
  f a + f b <= lsum f l.
Proof.
  intros Hf Hij Hi Hj. rewrite <- (take_drop_middle l i a Hi), lsum_app. simpl.
  pose proof (lsum_nonneg f (take i l) Hf). pose proof (lsum_nonneg f (drop (S i) l) Hf).
  destruct (decide (j < i)%nat).
  - pose proof (lsum_elem f (take i l) b Hf
      ltac:(apply (list_elem_of_lookup_2 _ j); by rewrite lookup_take_lt)). lia.
  - pose proof (lsum_elem f (drop (S i) l) b Hf
      ltac:(apply (list_elem_of_lookup_2 _ (j - S i)); rewrite lookup_drop, <- Hj; f_equal; lia)). lia.
Qed.

Lemma lsum_insert f l i a b :
  l !! i = Some a -> lsum f (<[i := b]> l) = lsum f l - f a + f b.
Proof.
  intros Hi. rewrite insert_take_drop by (by eapply lookup_lt_Some).
  rewrite <- (take_drop_middle l i a Hi) at 3. rewrite !lsum_app. simpl. lia.
Qed.

Lemma lsum_Permutation f l1 l2 : l1 ≡ₚ l2 -> lsum f l1 = lsum f l2.
Proof. induction 1; simpl; lia. Qed.

Context {K : Type} `{Countable K}.
Implicit Types (m : gmap K A).

Lemma msum_empty f : msum f (∅ : gmap K A) = 0.
Proof. unfold msum. by rewrite map_fold_empty. Qed.

Lemma msum_insert_fresh f m k a :
  m !! k = None -> msum f (<[k := a]> m) = f a + msum f m.
Proof.
  intros Hk. unfold msum. rewrite map_fold_insert_L; [done| |done]. intros; lia.
Qed.

Lemma msum_delete f m k a :
  m !! k = Some a -> msum f (delete k m) = msum f m - f a.
Proof.
  intros Hk. rewrite <- (insert_delete_id m k a Hk) at 2.
  rewrite msum_insert_fresh by (by rewrite lookup_delete_eq). lia.
Qed.

Lemma msum_insert f m k a b :
  m !! k = Some a -> msum f (<[k := b]> m) = msum f m - f a + f b.
Proof.
  intros Hk. rewrite <- insert_delete_eq.
  rewrite msum_insert_fresh by (by rewrite lookup_delete_eq).
  rewrite (msum_delete _ _ _ _ Hk). lia.
Qed.

Lemma msum_nonneg f m : (forall a, 0 <= f a) -> 0 <= msum f m.
Proof.
  intros Hf. induction m as [|k a m Hk IH] using map_ind; [by rewrite msum_empty|].
  rewrite msum_insert_fresh by done. specialize (Hf a). lia.
Qed.

Lemma msum_elem f m k a : (forall a, 0 <= f a) -> m !! k = Some a -> f a <= msum f m.
Proof.
  intros Hf Hk. pose proof (msum_delete f m k a Hk).
  pose proof (msum_nonneg f (delete k m) Hf). lia.
Qed.

Lemma msum_two f m k k' a b :
  (forall a, 0 <= f a) -> k <> k' -> m !! k = Some a -> m !! k' = Some b ->
  f a + f b <= msum f m.
Proof.
  intros Hf Hne Hk Hk'. pose proof (msum_delete f m k a Hk).
  pose proof (msum_elem f (delete k m) k' b Hf ltac:(by rewrite lookup_delete_ne)). lia.
Qed.

Lemma msum_zero f m : (forall k a, m !! k = Some a -> f a = 0) -> msum f m = 0.
Proof.
  induction m as [|k a m Hk IH] using map_ind; intros Hf; [by rewrite msum_empty|].
  rewrite msum_insert_fresh by done.
  rewrite (Hf k a) by (by rewrite lookup_insert_eq). rewrite IH; [done|].
  intros k' a' Hk'. apply (Hf k'). rewrite lookup_insert_ne; [done|]. congruence.
Qed.

Lemma msum_le f g m :
  (forall k a, m !! k = Some a -> f a <= g a) -> msum f m <= msum g m.
Proof.
  induction m as [|k a m Hk IH] using map_ind; intros Hf; [by rewrite !msum_empty|].
  rewrite !msum_insert_fresh by done.
  pose proof (Hf k a ltac:(by rewrite lookup_insert_eq)).
  enough (msum f m <= msum g m) by lia.
  apply IH. intros k' a' Hk'. apply (Hf k'). rewrite lookup_insert_ne; [done|]. congruence.
Qed.

End sums.

Lemma points_nonneg p o : 0 <= points p o.
Proof. unfold points. destruct (decide _); lia. Qed.

Lemma points_self p : points p (Some p) = 1.
Proof. unfold points. by rewrite decide_True. Qed.

Lemma points_None p : points p None = 0.
Proof. unfold points. by rewrite decide_False. Qed.

Lemma points_ne p q : p <> q -> points p (Some q) = 0.
Proof. intros. unfold points. rewrite decide_False; [done|]. congruence. Qed.

#[export] Hint Resolve points_nonneg lsum_nonneg msum_nonneg : bluesky.
#[export] Hint Rewrite points_self points_None : bluesky_rw.

(** [H] is about a prefix of the program of the goal: go through one statement
    of both. *)
Ltac wp_along H :=
  apply wp_bind; apply wp_bind_inv in H;
  eapply wp_mono; [exact H|]; clear H; cbv beta; intros ? ? H.

(** Membership in concatenations. *)
Ltac list_in :=
  intros;
  repeat match goal with
  | H : _ ∈ [] |- _ => by apply not_elem_of_nil in H
  | H : _ /\ _ |- _ => destruct H
  | H : _ ∈ _ ++ _ |- _ => rewrite elem_of_app in H
  | H : _ ∈ _ :: _ |- _ => rewrite elem_of_cons in H
  end;
  repeat first [rewrite elem_of_app | rewrite elem_of_cons | rewrite list_elem_of_singleton];
  tauto.
