(* ===== verification/Crc32c.v ===== *)
(** * Checksums of the journal (src/bluesky/crc32c.c)

    The table-driven CRC-32C of the journal, its equivalence with the bitwise
    definition of the code, the residue that journal validation relies on, and
    the errors it is guaranteed to detect. *)

From S2P Require Import Prelude.
From Stdlib Require Import ZArith Lia Bool.
From stdpp Require Import base numbers list option.

Open Scope Z_scope.

(** The table of src/bluesky/crc32c.c, entry for entry. *)
Definition crc32c_table : list Z :=
  [0x00000000; 0xF26B8303; 0xE13B70F7; 0x1350F3F4;
   0xC79A971F; 0x35F1141C; 0x26A1E7E8; 0xD4CA64EB;
   0x8AD958CF; 0x78B2DBCC; 0x6BE22838; 0x9989AB3B;
   0x4D43CFD0; 0xBF284CD3; 0xAC78BF27; 0x5E133C24;
   0x105EC76F; 0xE235446C; 0xF165B798; 0x030E349B;
   0xD7C45070; 0x25AFD373; 0x36FF2087; 0xC494A384;
   0x9A879FA0; 0x68EC1CA3; 0x7BBCEF57; 0x89D76C54;
   0x5D1D08BF; 0xAF768BBC; 0xBC267848; 0x4E4DFB4B;
   0x20BD8EDE; 0xD2D60DDD; 0xC186FE29; 0x33ED7D2A;
   0xE72719C1; 0x154C9AC2; 0x061C6936; 0xF477EA35;
   0xAA64D611; 0x580F5512; 0x4B5FA6E6; 0xB93425E5;
   0x6DFE410E; 0x9F95C20D; 0x8CC531F9; 0x7EAEB2FA;
   0x30E349B1; 0xC288CAB2; 0xD1D83946; 0x23B3BA45;
   0xF779DEAE; 0x05125DAD; 0x1642AE59; 0xE4292D5A;
   0xBA3A117E; 0x4851927D; 0x5B016189; 0xA96AE28A;
   0x7DA08661; 0x8FCB0562; 0x9C9BF696; 0x6EF07595;
   0x417B1DBC; 0xB3109EBF; 0xA0406D4B; 0x522BEE48;
   0x86E18AA3; 0x748A09A0; 0x67DAFA54; 0x95B17957;
   0xCBA24573; 0x39C9C670; 0x2A993584; 0xD8F2B687;
   0x0C38D26C; 0xFE53516F; 0xED03A29B; 0x1F682198;
   0x5125DAD3; 0xA34E59D0; 0xB01EAA24; 0x42752927;
   0x96BF4DCC; 0x64D4CECF; 0x77843D3B; 0x85EFBE38;
   0xDBFC821C; 0x2997011F; 0x3AC7F2EB; 0xC8AC71E8;
   0x1C661503; 0xEE0D9600; 0xFD5D65F4; 0x0F36E6F7;
   0x61C69362; 0x93AD1061; 0x80FDE395; 0x72966096;
   0xA65C047D; 0x5437877E; 0x4767748A; 0xB50CF789;
   0xEB1FCBAD; 0x197448AE; 0x0A24BB5A; 0xF84F3859;
   0x2C855CB2; 0xDEEEDFB1; 0xCDBE2C45; 0x3FD5AF46;
   0x7198540D; 0x83F3D70E; 0x90A324FA; 0x62C8A7F9;
   0xB602C312; 0x44694011; 0x5739B3E5; 0xA55230E6;
   0xFB410CC2; 0x092A8FC1; 0x1A7A7C35; 0xE811FF36;
   0x3CDB9BDD; 0xCEB018DE; 0xDDE0EB2A; 0x2F8B6829;
   0x82F63B78; 0x709DB87B; 0x63CD4B8F; 0x91A6C88C;
   0x456CAC67; 0xB7072F64; 0xA457DC90; 0x563C5F93;
   0x082F63B7; 0xFA44E0B4; 0xE9141340; 0x1B7F9043;
   0xCFB5F4A8; 0x3DDE77AB; 0x2E8E845F; 0xDCE5075C;
   0x92A8FC17; 0x60C37F14; 0x73938CE0; 0x81F80FE3;
   0x55326B08; 0xA759E80B; 0xB4091BFF; 0x466298FC;
   0x1871A4D8; 0xEA1A27DB; 0xF94AD42F; 0x0B21572C;
   0xDFEB33C7; 0x2D80B0C4; 0x3ED04330; 0xCCBBC033;
   0xA24BB5A6; 0x502036A5; 0x4370C551; 0xB11B4652;
   0x65D122B9; 0x97BAA1BA; 0x84EA524E; 0x7681D14D;
   0x2892ED69; 0xDAF96E6A; 0xC9A99D9E; 0x3BC21E9D;
   0xEF087A76; 0x1D63F975; 0x0E330A81; 0xFC588982;
   0xB21572C9; 0x407EF1CA; 0x532E023E; 0xA145813D;
   0x758FE5D6; 0x87E466D5; 0x94B49521; 0x66DF1622;
   0x38CC2A06; 0xCAA7A905; 0xD9F75AF1; 0x2B9CD9F2;
   0xFF56BD19; 0x0D3D3E1A; 0x1E6DCDEE; 0xEC064EED;
   0xC38D26C4; 0x31E6A5C7; 0x22B65633; 0xD0DDD530;
   0x0417B1DB; 0xF67C32D8; 0xE52CC12C; 0x1747422F;
   0x49547E0B; 0xBB3FFD08; 0xA86F0EFC; 0x5A048DFF;
   0x8ECEE914; 0x7CA56A17; 0x6FF599E3; 0x9D9E1AE0;
   0xD3D3E1AB; 0x21B862A8; 0x32E8915C; 0xC083125F;
   0x144976B4; 0xE622F5B7; 0xF5720643; 0x07198540;
   0x590AB964; 0xAB613A67; 0xB831C993; 0x4A5A4A90;
   0x9E902E7B; 0x6CFBAD78; 0x7FAB5E8C; 0x8DC0DD8F;
   0xE330A81A; 0x115B2B19; 0x020BD8ED; 0xF0605BEE;
   0x24AA3F05; 0xD6C1BC06; 0xC5914FF2; 0x37FACCF1;
   0x69E9F0D5; 0x9B8273D6; 0x88D28022; 0x7AB90321;
   0xAE7367CA; 0x5C18E4C9; 0x4F48173D; 0xBD23943E;
   0xF36E6F75; 0x0105EC76; 0x12551F82; 0xE03E9C81;
   0x34F4F86A; 0xC69F7B69; 0xD5CF889D; 0x27A40B9E;
   0x79B737BA; 0x8BDCB4B9; 0x988C474D; 0x6AE7C44E;
   0xBE2DA0A5; 0x4C4623A6; 0x5F16D052; 0xAD7D5351].

(** One iteration of the loop of [crc32c]. *)
Definition crc32c_byte (crc b : Z) : Z :=
  Z.lxor (nth (Z.to_nat (Z.land (Z.lxor crc b) 0xFF)) crc32c_table 0)
         (Z.shiftr crc 8).

Definition crc32c (crc : Z) (buf : bytes) : Z := fold_left crc32c_byte buf crc.

(** [~GUINT32_TO_LE(crc)] on a little-endian host, as a 32-bit value. *)
Definition crc32c_finalize (crc : Z) : Z := u32 (Z.lnot crc).

Definition BLUESKY_CRC32C_SEED : Z := 0xFFFFFFFF.
Definition BLUESKY_CRC32C_VALIDATOR : Z := 0xb798b438.

(** ** The bitwise definition

    CRC-32C by definition: a 32-bit shift register fed one bit at a time, least
    significant bit first, with the (reflected) Castagnoli polynomial. *)
Definition crc32c_poly : Z := 0x82F63B78.

Definition shift1 (c : Z) : Z :=
  Z.lxor (Z.shiftr c 1) (if Z.odd c then crc32c_poly else 0).

Definition shift (n : nat) (c : Z) : Z := Nat.iter n shift1 c.

Definition crc32c_bitwise (crc : Z) (buf : bytes) : Z :=
  fold_left (fun c b => shift 8 (Z.lxor c b)) buf crc.

Lemma shift_add n m c : shift (n + m) c = shift n (shift m c).
Proof. unfold shift. apply Nat.iter_add. Qed.

Lemma shift1_lxor x y : shift1 (Z.lxor x y) = Z.lxor (shift1 x) (shift1 y).
Proof.
  unfold shift1. rewrite Z.shiftr_lxor.
  assert (Z.odd (Z.lxor x y) = xorb (Z.odd x) (Z.odd y)) as ->.
  { by rewrite <- !Z.bit0_odd, Z.lxor_spec. }
  apply Z.bits_inj'. intros n Hn. rewrite !Z.lxor_spec.
  destruct (Z.odd x), (Z.odd y); cbv [xorb]; rewrite ?Z.bits_0;
    repeat match goal with |- context [Z.testbit ?a n] => destruct (Z.testbit a n) end;
    done.
Qed.

Lemma shift_lxor n x y : shift n (Z.lxor x y) = Z.lxor (shift n x) (shift n y).
Proof.
  unfold shift. induction n as [|n IH]; simpl; [done|]. by rewrite IH, shift1_lxor.
Qed.

Lemma shift_0 n : shift n 0 = 0.
Proof. unfold shift. induction n as [|n IH]; simpl; [done|]. by rewrite IH. Qed.

(** Shifting in zero bits above the register only moves the register. *)
Lemma shift_high n h : shift n (h * 2 ^ Z.of_nat n) = h.
Proof.
  revert h. induction n as [|n IH]; intros h; [unfold shift; simpl; lia|].
  replace (S n) with (n + 1)%nat by lia. rewrite shift_add.
  assert (shift 1 (h * 2 ^ Z.of_nat (n + 1)) = h * 2 ^ Z.of_nat n) as ->; [|apply IH].
  unfold shift, shift1; simpl.
  replace (h * 2 ^ Z.of_nat (n + 1)) with (2 * (h * 2 ^ Z.of_nat n)).
  - rewrite Z.odd_mul; simpl. rewrite Z.lxor_0_r, Z.shiftr_div_pow2 by lia.
    change (2 ^ 1) with 2. by rewrite Z.mul_comm, Z.div_mul by lia.
  - rewrite Nat2Z.inj_add, Z.pow_add_r by lia. change (2 ^ Z.of_nat 1) with 2. lia.
Qed.

(** The table is exactly eight shifts of each byte value. *)
Lemma crc32c_table_shift i :
  0 <= i < 256 -> nth (Z.to_nat i) crc32c_table 0 = shift 8 i.
Proof.
  intros Hi.
  assert (forallb (fun k => nth k crc32c_table 0 =? shift 8 (Z.of_nat k)) (seq 0 256)
          = true) as H by (vm_compute; reflexivity).
  rewrite forallb_forall in H.
  specialize (H (Z.to_nat i)). rewrite Z2Nat.id in H by lia.
  apply Z.eqb_eq, H. apply in_seq. lia.
Qed.

Lemma land_255_range x : 0 <= Z.land x 0xFF < 256.
Proof. change 0xFF with (Z.ones 8). rewrite Z.land_ones by lia. apply Z.mod_pos_bound. lia. Qed.

Lemma shiftr8_byte b : is_byte b -> Z.shiftr b 8 = 0.
Proof. intros [??]. rewrite Z.shiftr_div_pow2 by lia. apply Z.div_small. lia. Qed.

Lemma split_low_byte x : x = Z.lxor (Z.land x 0xFF) (Z.shiftr x 8 * 2 ^ Z.of_nat 8).
Proof.
  rewrite <- Z.shiftl_mul_pow2 by lia. change 0xFF with (Z.ones 8).
  apply Z.bits_inj'. intros n Hn. rewrite Z.lxor_spec, Z.land_spec, Z.shiftl_spec by lia.
  destruct (decide (n < 8)).
  - rewrite Z.ones_spec_low, (Z.testbit_neg_r _ (n - _)) by lia.
    by rewrite andb_true_r, xorb_false_r.
  - rewrite Z.ones_spec_high, Z.shiftr_spec by lia.
    rewrite andb_false_r, xorb_false_l. f_equal. lia.
Qed.

Lemma crc32c_byte_shift c b :
  is_byte b -> crc32c_byte c b = shift 8 (Z.lxor c b).
Proof.
  intros Hb. unfold crc32c_byte.
  rewrite crc32c_table_shift by apply land_255_range.
  rewrite <- (shift_high 8 (Z.shiftr c 8)), <- shift_lxor. f_equal.
  rewrite (split_low_byte (Z.lxor c b)) at 2.
  by rewrite Z.shiftr_lxor, (shiftr8_byte b), Z.lxor_0_r by done.
Qed.

(** C40: on byte strings the table-driven [crc32c] computes the bitwise
    definition of CRC-32C, from any starting register. *)
Theorem crc32c_is_bitwise (crc : Z) (buf : bytes) :
  are_bytes buf -> crc32c crc buf = crc32c_bitwise crc buf.
Proof.
  intros H. revert crc. induction H as [|b buf Hb _ IH]; intros crc; [done|].
  change (crc32c crc (b :: buf)) with (crc32c (crc32c_byte crc b) buf).
  rewrite crc32c_byte_shift by done. apply IH.
Qed.

Lemma crc32c_is_bitwise_witness :
  crc32c BLUESKY_CRC32C_SEED [49; 50; 51; 52; 53; 54; 55; 56; 57]
  = crc32c_bitwise BLUESKY_CRC32C_SEED [49; 50; 51; 52; 53; 54; 55; 56; 57].
Proof. apply crc32c_is_bitwise. repeat constructor; lia. Defined.

(** The catalogue check value of CRC-32C: the checksum of the ASCII string
    123456789 is 0xE3069283. *)
Example crc32c_check_value :
  crc32c_finalize (crc32c BLUESKY_CRC32C_SEED [49; 50; 51; 52; 53; 54; 55; 56; 57])
  = 0xE3069283.
Proof. reflexivity. Qed.

(** ** Composition *)
Lemma crc32c_app crc a b : crc32c crc (a ++ b) = crc32c (crc32c crc a) b.
Proof. apply fold_left_app. Qed.

(** Feeding a little-endian word is shifting it through the register. *)
Lemma crc32c_le_bytes n crc w :
  0 <= w < 256 ^ Z.of_nat n ->
  crc32c crc (le_bytes n w) = shift (8 * n) (Z.lxor crc w).
Proof.
  revert crc w. induction n as [|n IH]; intros crc w Hw.
  { simpl in Hw. replace w with 0 by lia. unfold crc32c, shift. simpl.
    by rewrite Z.lxor_0_r. }
  assert (Hb : is_byte (w mod 256)) by (apply Z.mod_pos_bound; lia).
  rewrite Nat2Z.inj_succ, Z.pow_succ_r in Hw by lia.
  change (crc32c crc (le_bytes (S n) w))
    with (crc32c (crc32c_byte crc (w mod 256)) (le_bytes n (w / 256))).
  rewrite IH by (split; [apply Z.div_pos | apply Z.div_lt_upper_bound]; lia).
  rewrite crc32c_byte_shift by done.
  replace (8 * S n)%nat with (8 * n + 8)%nat by lia. rewrite shift_add. f_equal.
  assert (w = Z.lxor (w mod 256) (w / 256 * 2 ^ Z.of_nat 8)) as Hs.
  { rewrite (split_low_byte w) at 1. f_equal.
    - change 0xFF with (Z.ones 8). by rewrite Z.land_ones by lia.
    - by rewrite Z.shiftr_div_pow2 by lia. }
  rewrite Hs at 3. by rewrite <- Z.lxor_assoc, (shift_lxor 8 (Z.lxor _ _)), shift_high.
Qed.

(** ** Range of the register *)
Lemma lxor_range n a b :
  0 <= n -> 0 <= a < 2 ^ n -> 0 <= b < 2 ^ n -> 0 <= Z.lxor a b < 2 ^ n.
Proof.
  intros Hn Ha Hb. split; [apply Z.lxor_nonneg; lia|].
  destruct (decide (Z.lxor a b = 0)) as [->|Hne]; [apply Z.pow_pos_nonneg; lia|].
  assert (0 <= Z.lxor a b) by (apply Z.lxor_nonneg; lia).
  apply Z.log2_lt_pow2; [lia|].
  assert (a = 0 \/ 0 < a) as [->|Ha'] by lia; assert (b = 0 \/ 0 < b) as [->|Hb'] by lia;
    rewrite ?Z.lxor_0_l, ?Z.lxor_0_r in *; try lia;
    [apply Z.log2_lt_pow2; lia.. |].
  destruct Ha as [_ Ha], Hb as [_ Hb].
  apply Z.log2_lt_pow2 in Ha; [|lia]. apply Z.log2_lt_pow2 in Hb; [|lia].
  pose proof (Z.log2_lxor a b). lia.
Qed.

Lemma shift1_range c : 0 <= c < 2 ^ 32 -> 0 <= shift1 c < 2 ^ 32.
Proof.
  intros Hc. unfold shift1. apply lxor_range; [lia| |].
  - rewrite Z.shiftr_div_pow2 by lia. split; [apply Z.div_pos; lia|].
    apply Z.div_lt_upper_bound; lia.
  - destruct (Z.odd c); vm_compute; intuition congruence.
Qed.

Lemma shift_range n c : 0 <= c < 2 ^ 32 -> 0 <= shift n c < 2 ^ 32.
Proof. intros. unfold shift. induction n; simpl; auto using shift1_range. Qed.

Lemma crc32c_range crc buf :
  0 <= crc < 2 ^ 32 -> are_bytes buf -> 0 <= crc32c crc buf < 2 ^ 32.
Proof.
  intros Hc H. revert crc Hc. unfold crc32c.
  induction H as [|b buf Hb _ IH]; intros crc Hc; simpl; [done|].
  apply IH. rewrite crc32c_byte_shift by done. apply shift_range.
  apply lxor_range; unfold is_byte in Hb; lia.
Qed.

Lemma crc32c_finalize_eq crc :
  0 <= crc < 2 ^ 32 -> crc32c_finalize crc = Z.lxor crc 0xFFFFFFFF.
Proof.
  intros Hc. unfold crc32c_finalize, u32.
  rewrite <- Z.land_ones by lia. change 0xFFFFFFFF with (Z.ones 32).
  apply Z.bits_inj'. intros n Hn. rewrite Z.land_spec, Z.lxor_spec, Z.lnot_spec by lia.
  destruct (decide (n < 32)).
  - rewrite Z.ones_spec_low by lia. by destruct (Z.testbit crc n).
  - rewrite Z.ones_spec_high by lia.
    rewrite (Z.bits_above_log2 crc n); [done|lia|].
    destruct (decide (crc = 0)) as [->|]; [simpl; lia|].
    apply Z.log2_lt_pow2; [lia|]. apply Z.lt_le_trans with (2 ^ 32); [lia|].
    apply Z.pow_le_mono_r; lia.
Qed.

(** The residue property journal validation uses.  When a record is followed
    by its finalized checksum in little-endian order, running the checksum over
    record and checksum together always gives [BLUESKY_CRC32C_VALIDATOR]. *)
Lemma crc32c_residue (crc : Z) (m : bytes) :
  0 <= crc < 2 ^ 32 -> are_bytes m ->
  crc32c crc (m ++ le_bytes 4 (crc32c_finalize (crc32c crc m)))
  = BLUESKY_CRC32C_VALIDATOR.
Proof.
  intros Hc Hm. rewrite crc32c_app.
  pose proof (crc32c_range _ _ Hc Hm) as Hr. revert Hr.
  generalize (crc32c crc m). intros c Hr.
  rewrite crc32c_le_bytes by apply u32_range.
  rewrite crc32c_finalize_eq, <- Z.lxor_assoc, Z.lxor_nilpotent, Z.lxor_0_l by done.
  vm_compute. reflexivity.
Qed.

(** ** Error detection *)
Lemma shift1_kernel c : 0 <= c < 2 ^ 32 -> shift1 c = 0 -> c = 0.
Proof.
  intros Hc H. unfold shift1 in H. apply Z.lxor_eq in H.
  rewrite Z.shiftr_div_pow2 in H by lia. change (2 ^ 1) with 2 in H.
  assert (c / 2 < 2 ^ 31) by (apply Z.div_lt_upper_bound; lia).
  destruct (Z.odd c) eqn:Ho; [unfold crc32c_poly in H; lia|].
  rewrite <- Z.negb_even, negb_false_iff, Z.even_spec in Ho. destruct Ho as [k ->].
  rewrite Z.mul_comm, Z.div_mul in H; lia.
Qed.

Lemma shift_inj n a b :
  0 <= a < 2 ^ 32 -> 0 <= b < 2 ^ 32 -> shift n a = shift n b -> a = b.
Proof.
  intros Ha Hb H. apply Z.lxor_eq.
  assert (Hx : 0 <= Z.lxor a b < 2 ^ 32) by (apply lxor_range; lia).
  assert (shift n (Z.lxor a b) = 0) as Hk by (rewrite shift_lxor, H; apply Z.lxor_nilpotent).
  clear Ha Hb H. induction n as [|n IH]; [done|].
  apply IH. apply shift1_kernel; [by apply shift_range | done].
Qed.

Lemma crc32c_inj_register a b buf :
  0 <= a < 2 ^ 32 -> 0 <= b < 2 ^ 32 -> are_bytes buf ->
  crc32c a buf = crc32c b buf -> a = b.
Proof.
  intros Ha Hb H. revert a b Ha Hb. unfold crc32c.
  induction H as [|x buf Hx _ IH]; intros a b Ha Hb E; simpl in E; [done|].
  assert (0 <= x < 2 ^ 32) by (unfold is_byte in Hx; lia).
  apply IH in E; rewrite ?crc32c_byte_shift in * by done;
    try (apply shift_range; apply lxor_range; lia).
  apply shift_inj in E; try (apply lxor_range; lia).
  apply (f_equal (fun z => Z.lxor z x)) in E.
  by rewrite !Z.lxor_assoc, !Z.lxor_nilpotent, !Z.lxor_0_r in E.
Qed.

(** Any corruption confined to at most four consecutive bytes of a message
    changes its checksum, whatever precedes and follows the damaged bytes. *)
Lemma crc32c_detects_bursts (crc : Z) (p x y q : bytes) :
  0 <= crc < 2 ^ 32 -> are_bytes p -> are_bytes x -> are_bytes y -> are_bytes q ->
  length x = length y -> (length x <= 4)%nat -> x <> y ->
  crc32c crc (p ++ x ++ q) <> crc32c crc (p ++ y ++ q).
Proof.
  intros Hc Hp Hx Hy Hq Hlen H4 Hne E. apply Hne.
  rewrite !crc32c_app in E.
  pose proof (crc32c_range _ _ Hc Hp) as Hr.
  pose proof (crc32c_range _ _ Hr Hx). pose proof (crc32c_range _ _ Hr Hy).
  apply crc32c_inj_register in E; auto.
  pose proof (le_val_range _ Hx) as Rx. pose proof (le_val_range _ Hy) as Ry.
  rewrite <- Hlen in Ry.
  rewrite <- (le_bytes_le_val x), <- (le_bytes_le_val y), <- Hlen in E by done.
  rewrite !crc32c_le_bytes in E by done.
  assert (256 ^ zlen x <= 2 ^ 32) as Hb.
  { change 256 with (2 ^ 8). rewrite <- Z.pow_mul_r by lia. apply Z.pow_le_mono_r; lia. }
  apply shift_inj in E; try (apply lxor_range; lia).
  apply (f_equal (fun z => Z.lxor (crc32c crc p) z)) in E.
  rewrite <- !Z.lxor_assoc, !Z.lxor_nilpotent, !Z.lxor_0_l in E.
  rewrite <- (le_bytes_le_val x), <- (le_bytes_le_val y), Hlen, E by done. done.
Qed.
