(* ===== verification/Glib.v ===== *)
(** * GLib containers the code relies on

    GLib is not part of the repository.  Its arrays, lists and hash tables are
    used as plain containers and are represented by lists and finite maps where
    they occur.  [GSequence] is used as a sorted container through
    [g_sequence_search], whose position among equal elements the code relies on:
    that function is a parameter ([GSequenceLib]) with its documented behaviour
    as the only assumption.  The remaining operations are determined by their
    documentation: an iterator is a position, the end iterator is the length. *)

From S2P Require Import Prelude.
From Stdlib Require Import ZArith Lia Sorted.
From stdpp Require Import base numbers list option sorting sets.

Open Scope Z_scope.

(** [g_sequence_search c l]: the position at which an element would be inserted
    into [l], where [c e] is the result of comparing [e] with that element.
    On a sequence sorted consistently with [c] it lies after every element that
    compares less or equal and before every element that compares greater. *)
Class GSequenceLib := {
  g_sequence_search : forall {A : Type}, (A -> Z) -> list A -> nat;
  g_sequence_search_spec : forall {A : Type} (c : A -> Z) (l1 l2 : list A),
    Forall (fun e => c e <= 0) l1 -> Forall (fun e => 0 < c e) l2 ->
    g_sequence_search c (l1 ++ l2) = length l1
}.

(** An implementation: linear search. *)
Fixpoint linear_search {A} (c : A -> Z) (l : list A) : nat :=
  match l with
  | [] => O
  | e :: l => if c e <=? 0 then S (linear_search c l) else O
  end.

Lemma linear_search_spec {A} (c : A -> Z) (l1 l2 : list A) :
  Forall (fun e => c e <= 0) l1 -> Forall (fun e => 0 < c e) l2 ->
  linear_search c (l1 ++ l2) = length l1.
Proof.
  intros H1 H2. induction H1 as [|e l1 He _ IH]; simpl.
  - destruct H2; simpl; [done|]. by rewrite (proj2 (Z.leb_gt _ _)).
  - by rewrite (proj2 (Z.leb_le _ _)), IH by done.
Qed.

Definition linear_gsequence : GSequenceLib :=
  {| g_sequence_search := @linear_search;
     g_sequence_search_spec := @linear_search_spec |}.

(** Iterators. *)
Definition g_sequence_iter_prev (i : nat) : nat := pred i.
Definition g_sequence_iter_next {A} (l : list A) (i : nat) : nat :=
  if (i <? length l)%nat then S i else i.
Definition g_sequence_iter_is_end {A} (l : list A) (i : nat) : bool :=
  (length l <=? i)%nat.
Definition g_sequence_iter_is_begin (i : nat) : bool := (i =? 0)%nat.
Definition g_sequence_remove {A} (l : list A) (i : nat) : list A :=
  take i l ++ drop (S i) l.
Definition g_sequence_insert_sorted `{GSequenceLib} {A}
    (c : A -> Z) (x : A) (l : list A) : list A :=
  let i := g_sequence_search c l in take i l ++ x :: drop i l.

(** The comparison functions of the code order by a 64-bit (or 32-bit) key. *)
Definition compare_keys (x y : Z) : Z :=
  if x <? y then -1 else if y <? x then 1 else 0.

Lemma compare_keys_le x y : compare_keys x y <= 0 <-> x <= y.
Proof. unfold compare_keys. destruct (Z.ltb_spec x y), (Z.ltb_spec y x); lia. Qed.

Lemma compare_keys_gt x y : 0 < compare_keys x y <-> y < x.
Proof. unfold compare_keys. destruct (Z.ltb_spec x y), (Z.ltb_spec y x); lia. Qed.

(** ** Sequences sorted by a key *)
Section sorted.
Context `{GSequenceLib} {A : Type} (key : A -> Z).

Definition sorted_le : list A -> Prop := StronglySorted (fun a b => key a <= key b).
Definition sorted_lt : list A -> Prop := StronglySorted (fun a b => key a < key b).

Lemma sorted_lt_le l : sorted_lt l -> sorted_le l.
Proof.
  induction 1 as [|a l _ IH Hl]; constructor; [done|].
  eapply Forall_impl; [done|]. simpl; lia.
Qed.

Lemma StronglySorted_app (R : A -> A -> Prop) l1 l2 :
  StronglySorted R (l1 ++ l2) <->
  StronglySorted R l1 /\ StronglySorted R l2 /\
  (forall x y, x ∈ l1 -> y ∈ l2 -> R x y).
Proof.
  induction l1 as [|a l1 IH]; simpl.
  { split; [intros; split_and!; [constructor|done|set_solver] | tauto]. }
  split.
  - inversion 1 as [|?? Hs Hf]; subst. apply IH in Hs as (? & ? & Hc).
    apply Forall_app in Hf as [Hf1 Hf2]. split_and!; [by constructor|done|].
    intros x y [->|Hx]%elem_of_cons Hy; [|by apply Hc].
    rewrite Forall_forall in Hf2. by apply Hf2.
  - intros (Hs & Hs2 & Hc). inversion Hs as [|?? Hs1 Hf]; subst.
    constructor.
    + apply IH. split_and!; [done|done|]. intros; apply Hc; [by right|done].
    + apply Forall_app. split; [done|]. apply Forall_forall. intros; apply Hc; [by left|done].
Qed.

(** Splitting a sorted sequence at a key. *)
Lemma sorted_le_split l k :
  sorted_le l ->
  exists l1 l2, l = l1 ++ l2 /\ Forall (fun e => key e <= k) l1 /\
                Forall (fun e => k < key e) l2.
Proof.
  induction 1 as [|a l _ IH Hl].
  { exists [], []. done. }
  destruct IH as (l1 & l2 & -> & H1 & H2).
  destruct (decide (key a <= k)).
  - exists (a :: l1), l2. split_and!; [done|by constructor|done].
  - exists [], (a :: l1 ++ l2). split_and!; [done|done|].
    constructor; [lia|]. eapply Forall_impl; [done|]. simpl; lia.
Qed.

Lemma search_split l1 l2 k :
  Forall (fun e => key e <= k) l1 -> Forall (fun e => k < key e) l2 ->
  g_sequence_search (fun e => compare_keys (key e) k) (l1 ++ l2) = length l1.
Proof.
  intros H1 H2. apply g_sequence_search_spec; eapply Forall_impl; eauto; simpl; intros.
  - by apply compare_keys_le.
  - by apply compare_keys_gt.
Qed.

Definition insert_sorted (x : A) (l : list A) : list A :=
  g_sequence_insert_sorted (fun e => compare_keys (key e) (key x)) x l.

Lemma insert_sorted_split l1 l2 x :
  Forall (fun e => key e <= key x) l1 -> Forall (fun e => key x < key e) l2 ->
  insert_sorted x (l1 ++ l2) = l1 ++ x :: l2.
Proof.
  intros. unfold insert_sorted, g_sequence_insert_sorted.
  by rewrite search_split, take_app_length, drop_app_length.
Qed.

Lemma insert_sorted_perm x l : sorted_le l -> insert_sorted x l ≡ₚ x :: l.
Proof.
  intros (l1 & l2 & -> & H1 & H2)%(sorted_le_split _ (key x)).
  rewrite insert_sorted_split by done. symmetry. apply Permutation_middle.
Qed.

Lemma elem_of_insert_sorted x y l :
  sorted_le l -> y ∈ insert_sorted x l <-> y = x \/ y ∈ l.
Proof. intros. rewrite insert_sorted_perm by done. apply elem_of_cons. Qed.

Lemma insert_sorted_le x l : sorted_le l -> sorted_le (insert_sorted x l).
Proof.
  intros Hs. destruct (sorted_le_split _ (key x) Hs) as (l1 & l2 & -> & H1 & H2).
  rewrite insert_sorted_split by done. unfold sorted_le in *.
  apply StronglySorted_app in Hs as (Hs1 & Hs2 & Hc).
  rewrite Forall_forall in H1, H2.
  apply StronglySorted_app. split_and!; [done| |].
  - constructor; [done|]. apply Forall_forall. intros e He. specialize (H2 e He). lia.
  - intros a b Ha [->|Hb]%elem_of_cons; [by apply H1|by apply Hc].
Qed.

Lemma insert_sorted_lt x l :
  sorted_lt l -> (forall y, y ∈ l -> key y <> key x) -> sorted_lt (insert_sorted x l).
Proof.
  intros Hs Hne.
  destruct (sorted_le_split _ (key x) (sorted_lt_le _ Hs)) as (l1 & l2 & -> & H1 & H2).
  rewrite insert_sorted_split by done. unfold sorted_lt in *.
  apply StronglySorted_app in Hs as (Hs1 & Hs2 & Hc).
  rewrite Forall_forall in H1, H2.
  apply StronglySorted_app. split_and!; [done| |].
  - constructor; [done|]. by apply Forall_forall.
  - intros a b Ha [->|Hb]%elem_of_cons; [|by apply Hc].
    specialize (H1 a Ha). assert (key a <> key x) by (apply Hne, elem_of_app; auto). lia.
Qed.

Lemma sorted_lt_inj l x y :
  sorted_lt l -> x ∈ l -> y ∈ l -> key x = key y -> x = y.
Proof.
  induction 1 as [|a l _ IH Hl]; intros Hx Hy E; [set_solver|].
  rewrite Forall_forall in Hl.
  apply elem_of_cons in Hx as [->|Hx], Hy as [->|Hy]; auto.
  - specialize (Hl y Hy). simpl in Hl. lia.
  - specialize (Hl x Hx). simpl in Hl. lia.
Qed.

Lemma sorted_lt_remove l1 x l2 : sorted_lt (l1 ++ x :: l2) -> sorted_lt (l1 ++ l2).
Proof.
  unfold sorted_lt. rewrite !StronglySorted_app. intros (H1 & H2 & Hc).
  inversion H2; subst. split_and!; [done|done|]. intros; apply Hc; [done|by right].
Qed.

(** The element before the search position: the last one whose key is not
    above [k], or the first element if there is none. *)
Lemma prev_search l k :
  sorted_le l ->
  let i := g_sequence_iter_prev (g_sequence_search (fun e => compare_keys (key e) k) l) in
  match l !! i with
  | None => l = []
  | Some e => exists l1 l2, l = l1 ++ e :: l2 /\ i = length l1 /\
                Forall (fun e => k < key e) l2 /\
                (key e <= k \/ k < key e /\ l1 = [])
  end.
Proof.
  intros Hs. destruct (sorted_le_split _ k Hs) as (l1 & l2 & -> & H1 & H2).
  rewrite search_split by done. unfold g_sequence_iter_prev. simpl.
  destruct l1 as [|e l1 _] using rev_ind; simpl.
  - destruct l2 as [|e l2]; simpl; [done|]. exists [], l2.
    inversion H2; subst. split_and!; auto.
  - rewrite length_app; simpl. replace (pred (length l1 + 1)) with (length l1) by lia.
    rewrite <- app_assoc; simpl. rewrite list_lookup_middle by done.
    apply Forall_app in H1 as [_ H1]. inversion H1; subst.
    exists l1, l2. split_and!; auto.
Qed.

(** Changing elements without their keys. *)
Lemma sorted_lt_fmap (f : A -> A) l :
  (forall x, key (f x) = key x) -> sorted_lt l -> sorted_lt (f <$> l).
Proof.
  intros Hf. induction 1 as [|a l _ IH Hl]; simpl; constructor; [done|].
  apply Forall_fmap. eapply Forall_impl; [exact Hl|]. simpl. intros. by rewrite !Hf.
Qed.

End sorted.

#[export] Hint Resolve sorted_lt_le insert_sorted_le : bluesky.
