(* ===== verification/Rangeset.v ===== *)
(** * Range sets (src/bluesky/util.c)

    The set of byte ranges of a log segment that hold valid items, kept sorted by
    starting offset: insertion, the two lookups, the overall extent, and what
    they compute on a set of disjoint ranges. *)

From S2P Require Import Prelude Glib.
From Stdlib Require Import ZArith Lia Sorted.
From stdpp Require Import base numbers list option sets.

Open Scope Z_scope.

Record BlueSkyRangesetItem := mkRange {
  start : Z;
  rlength : Z;
  data : Z;
}.

#[export] Instance BlueSkyRangesetItem_eq_dec : EqDecision BlueSkyRangesetItem.
Proof. solve_decision. Defined.

Section rangeset.
Context `{GSequenceLib}.

Abbreviation BlueSkyRangeset := (list BlueSkyRangesetItem).

(** [compare64] applied to an element and the searched key. *)
Definition compare64 (key : Z) (e : BlueSkyRangesetItem) : Z :=
  compare_keys (start e) key.

Definition bluesky_rangeset_new : BlueSkyRangeset := [].

Definition bluesky_rangeset_insert (rangeset : BlueSkyRangeset)
    (s len d : Z) : bool * BlueSkyRangeset :=
  let item := mkRange s len d in
  (true, g_sequence_insert_sorted (compare64 s) item rangeset).

Definition bluesky_rangeset_lookup (rangeset : BlueSkyRangeset) (offset : Z)
    : option BlueSkyRangesetItem :=
  let i := g_sequence_search (compare64 offset) rangeset in
  let i := g_sequence_iter_prev i in
  if g_sequence_iter_is_end rangeset i then None else
  item ← rangeset !! i;
  if (start item <=? offset) && (offset <? u64 (start item + rlength item))
  then Some item else None.

Definition bluesky_rangeset_lookup_next (rangeset : BlueSkyRangeset) (offset : Z)
    : option BlueSkyRangesetItem :=
  let i := g_sequence_search (compare64 offset) rangeset in
  let i := g_sequence_iter_prev i in
  if g_sequence_iter_is_end rangeset i then None else
  item ← rangeset !! i;
  if start item <? offset then
    let i := g_sequence_iter_next rangeset i in
    if g_sequence_iter_is_end rangeset i then None else rangeset !! i
  else Some item.

(** The pair [( *start, *length )]. *)
Definition bluesky_rangeset_get_extents (rangeset : BlueSkyRangeset) : Z * Z :=
  match rangeset !! 0%nat with
  | None => (0, 0)
  | Some first =>
    match rangeset !! g_sequence_iter_prev (length rangeset) with
    | None => (start first, 0)
    | Some item => (start first, u64 (u64 (start item + rlength item) - start first))
    end
  end.

(** ** Correctness

    Ranges are within the 64-bit space, sorted, and do not overlap. *)
Definition before (a b : BlueSkyRangesetItem) : Prop := start a + rlength a <= start b.

Definition range_ok (r : BlueSkyRangesetItem) : Prop :=
  0 <= start r /\ 0 < rlength r /\ start r + rlength r < 2 ^ 64.

Definition rangeset_ok (rs : BlueSkyRangeset) : Prop :=
  StronglySorted before rs /\ Forall range_ok rs.

Definition contains (r : BlueSkyRangesetItem) (off : Z) : Prop :=
  start r <= off < start r + rlength r.

Lemma rangeset_ok_sorted rs : rangeset_ok rs -> sorted_lt start rs.
Proof.
  intros [Hs Hr]. induction Hs as [|a rs _ IH Ha]; [constructor|].
  inversion Hr as [|?? [? [? ?]] Hr']; subst.
  constructor; [by apply IH|].
  eapply Forall_impl; [exact Ha|]. unfold before. simpl. lia.
Qed.

Lemma lookup_at rs l1 e l2 k i :
  rs = l1 ++ e :: l2 -> i = length l1 ->
  g_sequence_iter_prev (g_sequence_search (compare64 k) rs) = i ->
  bluesky_rangeset_lookup rs k
  = if (start e <=? k) && (k <? u64 (start e + rlength e)) then Some e else None.
Proof.
  intros -> -> Hi. unfold bluesky_rangeset_lookup. rewrite Hi.
  unfold g_sequence_iter_is_end. rewrite length_app; simpl.
  rewrite (proj2 (Nat.leb_gt _ _)) by lia.
  by rewrite list_lookup_middle.
Qed.

(** A lookup returns the range that contains the offset, and only then. *)
Lemma rangeset_lookup_correct rs off r :
  rangeset_ok rs ->
  bluesky_rangeset_lookup rs off = Some r <-> r ∈ rs /\ contains r off.
Proof.
  intros Hok. pose proof (rangeset_ok_sorted _ Hok) as Hs.
  destruct Hok as [Hb Hr]. rewrite Forall_forall in Hr.
  pose proof (prev_search start rs off (sorted_lt_le _ _ Hs)) as Hp. simpl in Hp.
  fold (compare64 off) in Hp.
  destruct (rs !! _) as [e|] eqn:He in Hp.
  2: { subst. split; [|list_in].
       unfold bluesky_rangeset_lookup, g_sequence_iter_is_end. simpl. done. }
  destruct Hp as (l1 & l2 & -> & Hi & Hgt & Hle).
  rewrite (lookup_at _ l1 e l2 off _ eq_refl eq_refl Hi).
  assert (Hre : range_ok e) by (apply Hr; list_in).
  unfold range_ok in Hre. rewrite u64_id by lia.
  split.
  - destruct (Z.leb_spec (start e) off), (Z.ltb_spec off (start e + rlength e));
      simpl; try done. intros [= <-]. split; [list_in|]. unfold contains. lia.
  - intros [Hin Hc]. unfold contains in Hc.
    assert (r = e) as ->; [|destruct (Z.leb_spec (start e) off),
      (Z.ltb_spec off (start e + rlength e)); simpl; done || lia].
    apply elem_of_app in Hin as [Hin|[->|Hin]%elem_of_cons]; [|done|].
    + apply StronglySorted_app in Hb as (_ & _ & Hb).
      assert (Hre' : before r e) by (apply Hb; [done|by left]). unfold before in Hre'.
      destruct Hle as [Hle|[_ ->]]; [lia|list_in].
    + rewrite Forall_forall in Hgt. specialize (Hgt r Hin). simpl in Hgt. lia.
Qed.

(** The iteration step: the first range starting at or after the offset. *)
Lemma rangeset_lookup_next_correct rs off :
  sorted_lt start rs ->
  match bluesky_rangeset_lookup_next rs off with
  | Some r => r ∈ rs /\ off <= start r /\
              forall r', r' ∈ rs -> off <= start r' -> start r <= start r'
  | None => forall r', r' ∈ rs -> start r' < off
  end.
Proof.
  intros Hs. pose proof (prev_search start rs off (sorted_lt_le _ _ Hs)) as Hp.
  simpl in Hp. fold (compare64 off) in Hp.
  unfold bluesky_rangeset_lookup_next.
  destruct (rs !! _) as [e|] eqn:He in Hp.
  2: { subst. unfold g_sequence_iter_is_end. simpl. list_in. }
  destruct Hp as (l1 & l2 & -> & Hi & Hgt & Hle). rewrite Hi.
  unfold g_sequence_iter_is_end, g_sequence_iter_next.
  rewrite length_app; simpl length. rewrite (proj2 (Nat.leb_gt _ _)) by lia.
  rewrite (list_lookup_middle l1 l2 e (length l1)) by done. simpl.
  apply StronglySorted_app in Hs as (Hs1 & Hs2 & Hc).
  inversion Hs2 as [|?? Hs2' Hf]; subst. rewrite Forall_forall in Hf.
  rewrite Forall_forall in Hgt.
  destruct (Z.ltb_spec (start e) off) as [Hlt|Hge].
  - rewrite (proj2 (Nat.ltb_lt _ _)) by lia.
    assert (Hl1 : forall r, r ∈ l1 -> start r < off).
    { intros r Hr. specialize (Hc r e Hr ltac:(by left)). simpl in Hc. lia. }
    destruct l2 as [|e2 l2]; simpl.
    + rewrite (proj2 (Nat.leb_le _ _)) by lia.
      intros r [Hr|[->|Hr]%elem_of_cons]%elem_of_app; [by apply Hl1|done|list_in].
    + rewrite (proj2 (Nat.leb_gt _ _)) by lia.
      replace (l1 ++ e :: e2 :: l2) with ((l1 ++ [e]) ++ e2 :: l2) by by rewrite <- app_assoc.
      rewrite list_lookup_middle by (rewrite length_app; simpl; lia).
      assert (He2 : off < start e2) by (apply Hgt; by left).
      inversion Hs2' as [|?? _ Hf2]; subst. rewrite Forall_forall in Hf2.
      split_and!; [list_in|lia|].
      intros r [[Hr|Hr]%elem_of_app|[->|Hr]%elem_of_cons]%elem_of_app Hoff; [|..].
      * specialize (Hl1 r Hr). lia.
      * apply list_elem_of_singleton in Hr as ->. lia.
      * lia.
      * specialize (Hf2 r Hr). simpl in Hf2. lia.
  - split_and!; [list_in|lia|].
    intros r [Hr|[->|Hr]%elem_of_cons]%elem_of_app Hoff; [|lia|].
    + specialize (Hc r e Hr ltac:(by left)). simpl in Hc.
      destruct Hle as [?|[_ ->]]; [lia|list_in].
    + specialize (Hf r Hr). simpl in Hf. lia.
Qed.

(** Insertion of a range disjoint from those present. *)
Definition disjoint (a b : BlueSkyRangesetItem) : Prop := before a b \/ before b a.

Lemma rangeset_insert_eq rs r :
  snd (bluesky_rangeset_insert rs (start r) (rlength r) (data r))
  = insert_sorted start r rs.
Proof. by destruct r. Qed.

Lemma rangeset_insert_ok rs r :
  rangeset_ok rs -> range_ok r -> Forall (disjoint r) rs ->
  rangeset_ok (insert_sorted start r rs).
Proof.
  intros Hok Hr Hd. pose proof (rangeset_ok_sorted _ Hok) as Hs.
  destruct Hok as [Hb Hrs].
  split; [|by rewrite insert_sorted_perm by (by apply sorted_lt_le); constructor].
  destruct (sorted_le_split start _ (start r) (sorted_lt_le _ _ Hs)) as (l1 & l2 & -> & H1 & H2).
  rewrite insert_sorted_split by done.
  rewrite Forall_forall in Hd, H1, H2, Hrs.
  apply StronglySorted_app in Hb as (Hb1 & Hb2 & Hc).
  destruct Hr as (? & ? & ?).
  apply StronglySorted_app. split_and!; [done| |].
  - constructor; [done|]. apply Forall_forall. intros x Hx. simpl.
    destruct (Hd x) as [Hx'|Hx']; [list_in|done|].
    destruct (Hrs x) as (? & ? & ?); [list_in|].
    specialize (H2 x Hx). unfold before in Hx'. simpl in H2. lia.
  - intros x y Hx [->|Hy]%elem_of_cons; [|by apply Hc].
    destruct (Hd x) as [Hx'|Hx']; [list_in| |done].
    specialize (H1 x Hx). unfold before in *. simpl in H1. lia.
Qed.

(** The enumeration loop of [cloudlog_partial_fetch_complete]
    (src/bluesky/log.c): restart after the item just visited. *)
Fixpoint rangeset_walk (fuel : nat) (items : BlueSkyRangeset) (item_offset : Z)
    : list BlueSkyRangesetItem :=
  match fuel with
  | O => []
  | S fuel =>
    match bluesky_rangeset_lookup_next items item_offset with
    | None => []
    | Some item => item :: rangeset_walk fuel items (u64 (start item + 1))
    end
  end.

Lemma lookup_next_app done todo off :
  sorted_lt start (done ++ todo) ->
  Forall (fun r => start r < off) done -> Forall (fun r => off <= start r) todo ->
  bluesky_rangeset_lookup_next (done ++ todo) off = head todo.
Proof.
  intros Hs Hd Ht. rewrite Forall_forall in Hd, Ht.
  pose proof (rangeset_lookup_next_correct _ off Hs) as Hn.
  destruct (bluesky_rangeset_lookup_next _ off) as [r|].
  - destruct Hn as (Hin & Hoff & Hmin).
    apply elem_of_app in Hin as [Hin|Hin]; [specialize (Hd r Hin); simpl in Hd; lia|].
    destruct todo as [|t todo]; [list_in|]. simpl. f_equal.
    apply (sorted_lt_inj start (done ++ t :: todo)); [done|list_in..|].
    apply elem_of_cons in Hin as [->|Hin]; [done|].
    specialize (Hmin t ltac:(list_in) ltac:(apply Ht; by left)).
    apply StronglySorted_app in Hs as (_ & Hs & _). inversion Hs as [|?? _ Hf]; subst.
    rewrite Forall_forall in Hf. specialize (Hf r Hin). simpl in Hf. lia.
  - destruct todo as [|t todo]; [done|].
    specialize (Ht t ltac:(by left)). specialize (Hn t ltac:(list_in)). simpl in *. lia.
Qed.

Lemma rangeset_walk_app fuel done todo off :
  sorted_lt start (done ++ todo) ->
  Forall (fun r => start r < 2 ^ 64 - 1) todo ->
  Forall (fun r => start r < off) done -> Forall (fun r => off <= start r) todo ->
  0 <= off -> (length todo <= fuel)%nat ->
  rangeset_walk (S fuel) (done ++ todo) off = todo.
Proof.
  revert done todo off. induction fuel as [|fuel IH]; intros done todo off Hs Hm Hd Ht Ho Hl.
  { destruct todo; [|simpl in Hl; lia].
    simpl. by rewrite lookup_next_app. }
  simpl rangeset_walk. rewrite lookup_next_app by done.
  destruct todo as [|t todo]; [done|]. simpl. f_equal.
  inversion Hm; subst. inversion Ht; subst.
  rewrite u64_id by lia.
  change (t :: todo) with ([t] ++ todo). rewrite app_assoc.
  apply StronglySorted_app in Hs as Hs'. destruct Hs' as (Hs1 & Hs2 & Hc).
  inversion Hs2 as [|?? _ Hf]; subst.
  apply IH; try done.
  - by rewrite <- app_assoc.
  - apply Forall_app. split; [|by repeat constructor; lia].
    eapply Forall_impl; [exact Hd|]. simpl. lia.
  - eapply Forall_impl; [exact Hf|]. simpl. lia.
  - lia.
  - simpl in Hl. lia.
Qed.

End rangeset.

(** ** Properties *)

(** inserting a range that overlaps none of the present ones keeps the set
    well formed, and afterwards looking up an offset finds the new range exactly
    for its own offsets and is unchanged elsewhere. *)
Theorem rangeset_insert_lookup `{GSequenceLib} rs s len d :
  rangeset_ok rs -> range_ok (mkRange s len d) ->
  Forall (disjoint (mkRange s len d)) rs ->
  rangeset_ok (snd (bluesky_rangeset_insert rs s len d)) /\
  forall off,
    bluesky_rangeset_lookup (snd (bluesky_rangeset_insert rs s len d)) off
    = if (s <=? off) && (off <? s + len) then Some (mkRange s len d)
      else bluesky_rangeset_lookup rs off.
Proof.
  intros Hok Hr Hd. change s with (start (mkRange s len d)) at 1 2.
  change len with (rlength (mkRange s len d)) at 2 4.
  change d with (data (mkRange s len d)) at 3 6.
  rewrite rangeset_insert_eq.
  pose proof (rangeset_insert_ok _ _ Hok Hr Hd) as Hok'. split; [done|]. intros off.
  pose proof (sorted_lt_le _ _ (rangeset_ok_sorted _ Hok)) as Hs.
  destruct (andb _ _) eqn:E.
  - apply rangeset_lookup_correct; [done|].
    split; [apply elem_of_insert_sorted; auto|]. unfold contains; simpl. lia.
  - apply option_eq. intros x. rewrite !rangeset_lookup_correct by done.
    rewrite elem_of_insert_sorted by done. split; [|tauto].
    intros [[->|?] Hc]; [|done]. unfold contains in Hc. simpl in Hc. lia.
Qed.

Definition two_ranges : list BlueSkyRangesetItem := [mkRange 0 100 7; mkRange 250 50 8].

Lemma two_ranges_ok : rangeset_ok two_ranges.
Proof. split; repeat constructor; unfold before; simpl; lia. Qed.

Lemma rangeset_insert_lookup_witness :
  let ins := @bluesky_rangeset_insert linear_gsequence two_ranges 100 150 9 in
  rangeset_ok (snd ins) /\
  @bluesky_rangeset_lookup linear_gsequence (snd ins) 249 = Some (mkRange 100 150 9).
Proof.
  destruct (@rangeset_insert_lookup linear_gsequence two_ranges 100 150 9) as [Hok Hl].
  - apply two_ranges_ok.
  - repeat split; simpl; lia.
  - repeat constructor; unfold disjoint, before; simpl; lia.
  - split; [exact Hok|]. rewrite Hl. reflexivity.
Defined.

(** The enumeration loop that repeatedly asks for the next range after the
    last one visits every range of the set, in order, and stops. *)
Theorem rangeset_walk_complete `{GSequenceLib} rs :
  rangeset_ok rs -> rangeset_walk (S (length rs)) rs 0 = rs.
Proof.
  intros Hok. apply (rangeset_walk_app (length rs) [] rs 0); [| |done| |lia|done].
  - by apply rangeset_ok_sorted.
  - destruct Hok as [_ Hr]. eapply Forall_impl; [exact Hr|]. unfold range_ok. lia.
  - destruct Hok as [_ Hr]. eapply Forall_impl; [exact Hr|]. unfold range_ok. lia.
Qed.

Lemma rangeset_walk_complete_witness :
  @rangeset_walk linear_gsequence 3 two_ranges 0 = two_ranges.
Proof. apply (@rangeset_walk_complete linear_gsequence two_ranges), two_ranges_ok. Defined.

(** The extents of a non-empty set are the smallest interval that contains
    every range: it starts at the first byte of some range, ends at the last byte
    of some range, and each range lies inside it. *)
Theorem rangeset_extents_tight rs s len :
  rangeset_ok rs -> rs <> [] -> bluesky_rangeset_get_extents rs = (s, len) ->
  (exists r, r ∈ rs /\ start r = s) /\
  (exists r, r ∈ rs /\ start r + rlength r = s + len) /\
  forall r, r ∈ rs -> s <= start r /\ start r + rlength r <= s + len.
Proof.
  intros [Hb Hr] Hne. rewrite Forall_forall in Hr.
  destruct rs as [|a rs]; [done|]. clear Hne.
  unfold bluesky_rangeset_get_extents, g_sequence_iter_prev. rewrite <- last_lookup. simpl.
  inversion Hb as [|?? Hb' Hf]; subst. rewrite Forall_forall in Hf.
  intros E.
  assert (exists z, last (a :: rs) = Some z) as [z Hz] by (rewrite last_cons; destruct (last rs); eauto).
  rewrite Hz in E.
  assert (Hin : z ∈ a :: rs) by by apply last_Some_elem_of.
  assert (Hzr := Hr z Hin). unfold range_ok in Hzr.
  assert (Hle : forall r, r ∈ a :: rs -> start a <= start r /\ start r + rlength r <= start z + rlength z).
  { intros r Hin'. split.
    - apply elem_of_cons in Hin' as [->|Hin']; [lia|].
      specialize (Hf r Hin'). destruct (Hr a ltac:(by left)) as (? & ? & ?).
      unfold before in Hf. lia.
    - apply last_Some in Hz as [l E']. rewrite E' in Hin', Hb.
      apply elem_of_app in Hin' as [Hin'|[->|?]%elem_of_cons]; [|lia|list_in].
      apply StronglySorted_app in Hb as (_ & _ & Hc).
      specialize (Hc r z Hin' ltac:(by left)). unfold before in Hc. lia. }
  destruct (Hle z Hin) as [? _]. destruct (Hr a ltac:(by left)) as (? & ? & ?).
  rewrite (u64_id (start z + _)), u64_id in E by lia.
  injection E as <- <-. split_and!.
  - exists a. split; [by left|done].
  - exists z. split; [done|lia].
  - intros r Hin'. destruct (Hle r Hin'). lia.
Qed.

Lemma rangeset_extents_tight_witness :
  exists r, r ∈ two_ranges /\ start r + rlength r = 0 + 300.
Proof.
  refine (proj1 (proj2 (rangeset_extents_tight two_ranges 0 300 two_ranges_ok _ _))).
  - discriminate.
  - reflexivity.
Defined.
