(* ===== verification/State.v ===== *)
(** * The data model (src/bluesky/bluesky.h, src/bluesky/bluesky-private.h)

    The structures of the proxy as records, and the memory they live in: heaps
    of reference-counted strings, cloud log items, cache files, upload records
    and inodes addressed by pointers, the file system object, the log object and
    the journal directory on disk.  Freed objects leave their heap, so that a
    later access is a [Dangling] fault.  The clock, the random generators and the
    contents of uninitialised memory are functions of an [Env] parameter. *)

From S2P Require Import Prelude Rangeset.
From Stdlib Require Import ZArith Lia.
From stdpp Require Import base numbers gmap option list.

Open Scope Z_scope.

Abbreviation ptr := positive.

(** ** Constants *)
Definition BLUESKY_REGULAR : Z := 1.
Definition BLUESKY_DIRECTORY : Z := 2.
Definition BLUESKY_BLOCK : Z := 3.
Definition BLUESKY_CHARACTER : Z := 4.
Definition BLUESKY_SYMLINK : Z := 5.
Definition BLUESKY_SOCKET : Z := 6.
Definition BLUESKY_FIFO : Z := 7.
Definition BLUESKY_PENDING : Z := 0.
Definition BLUESKY_INVALID : Z := -1.

Definition BLUESKY_ROOT_INUM : Z := 1.
Definition BLUESKY_BLOCK_SIZE : Z := 32768.
Definition BLUESKY_MAX_FILE_SIZE : Z := BLUESKY_BLOCK_SIZE * 2 ^ 24.

Definition LOGTYPE_INVALID : Z := -1.
Definition LOGTYPE_UNKNOWN : Z := 0.
Definition LOGTYPE_DATA : Z := 1.
Definition LOGTYPE_INODE : Z := 2.
Definition LOGTYPE_INODE_MAP : Z := 3.
Definition LOGTYPE_CHECKPOINT : Z := 4.
Definition LOGTYPE_JOURNAL_MARKER : Z := 16.
Definition LOGTYPE_JOURNAL_CHECKPOINT : Z := 17.

Definition CLOUDLOG_JOURNAL : Z := 0x01.
Definition CLOUDLOG_CLOUD : Z := 0x02.
Definition CLOUDLOG_CACHE : Z := 0x04.
Definition CLOUDLOG_UNCOMMITTED : Z := 0x10.

Definition BLUESKY_CLOUD_DIR_PRIMARY : Z := 0.
Definition BLUESKY_CLOUD_DIR_CLEANER : Z := 1.

Definition LOG_SEGMENT_SIZE : Z := 2 ^ 22.

(** [flags & mask] as a C condition. *)
Definition has (flags mask : Z) : bool := negb (Z.land flags mask =? 0).

(** ** Structures *)

(** [data] points to memory of its own, or into the mapping of [mmap] at an
    offset. *)
Module RCStr.
Inductive storage :=
  | Owned (buf : bytes)
  | Mapped (offset : Z).
Record t := mk {
  refcount : Z;
  mmap : option ptr;
  data : storage;
  len : Z;
}.
End RCStr.
#[export] Instance RCStr_eta : Eta RCStr.t := fun x =>
  RCStr.mk (RCStr.refcount x) (RCStr.mmap x) (RCStr.data x) (RCStr.len x).

Module CloudPointer.
Record t := mk {
  directory : Z;
  sequence : Z;
  offset : Z;
  size : Z;
}.
Definition zero : t := mk 0 0 0 0.
End CloudPointer.
#[export] Instance CloudPointer_eta : Eta CloudPointer.t := fun x =>
  CloudPointer.mk (CloudPointer.directory x) (CloudPointer.sequence x)
    (CloudPointer.offset x) (CloudPointer.size x).

(** A [BlueSkyCloudID] is sixteen bytes. *)
Abbreviation BlueSkyCloudID := bytes (only parsing).
Definition id0 : BlueSkyCloudID := replicate 16 0.

Module CloudLog.
Record t := mk {
  refcount : Z;
  type : Z;
  location_flags : Z;
  pending_read : Z;
  pending_write : Z;
  id : BlueSkyCloudID;
  inum : Z;
  inum_offset : Z;
  data_size : Z;
  location : CloudPointer.t;
  log_seq : Z;
  log_offset : Z;
  log_size : Z;
  links : list (option ptr);
  data : option ptr;
  data_lock_count : Z;
}.
End CloudLog.
#[export] Instance CloudLog_eta : Eta CloudLog.t := fun x =>
  CloudLog.mk (CloudLog.refcount x) (CloudLog.type x) (CloudLog.location_flags x)
    (CloudLog.pending_read x) (CloudLog.pending_write x) (CloudLog.id x)
    (CloudLog.inum x) (CloudLog.inum_offset x) (CloudLog.data_size x)
    (CloudLog.location x) (CloudLog.log_seq x) (CloudLog.log_offset x)
    (CloudLog.log_size x) (CloudLog.links x) (CloudLog.data x)
    (CloudLog.data_lock_count x).

Module CacheFile.
Record t := mk {
  refcount : Z;
  type : Z;
  log_dir : Z;
  log_seq : Z;
  filename : bytes;
  mapcount : Z;
  addr : bool;              (* mapped in memory? *)
  len : Z;
  disk_used : Z;
  fetching : bool;
  complete : bool;
  atime : Z;
  items : list BlueSkyRangesetItem;
  prefetches : option (list BlueSkyRangesetItem);
}.
End CacheFile.
#[export] Instance CacheFile_eta : Eta CacheFile.t := fun x =>
  CacheFile.mk (CacheFile.refcount x) (CacheFile.type x) (CacheFile.log_dir x)
    (CacheFile.log_seq x) (CacheFile.filename x) (CacheFile.mapcount x)
    (CacheFile.addr x) (CacheFile.len x) (CacheFile.disk_used x)
    (CacheFile.fetching x) (CacheFile.complete x) (CacheFile.atime x)
    (CacheFile.items x) (CacheFile.prefetches x).

Module Block.
Inductive kind :=
  | ZERO
  | REF
  | DIRTY.
Record t := mk {
  type : kind;
  ref : option ptr;
  dirty : option ptr;
}.
Definition zero : t := mk ZERO None None.
End Block.
#[export] Instance Block_eta : Eta Block.t := fun x =>
  Block.mk (Block.type x) (Block.ref x) (Block.dirty x).
#[export] Instance Block_kind_eq_dec : EqDecision Block.kind.
Proof. solve_decision. Defined.

Module Dirent.
Record t := mk {
  name : bytes;
  name_folded : bytes;
  cookie : Z;
  inum : Z;
}.
End Dirent.
#[export] Instance Dirent_eta : Eta Dirent.t := fun x =>
  Dirent.mk (Dirent.name x) (Dirent.name_folded x) (Dirent.cookie x) (Dirent.inum x).
#[export] Instance Dirent_eq_dec : EqDecision Dirent.t.
Proof. solve_decision. Defined.

Module Inode.
Record t := mk {
  refcount : Z;
  type : Z;
  mode : Z;
  uid : Z;
  gid : Z;
  nlink : Z;
  inum : Z;
  change_count : Z;
  change_commit : Z;
  change_cloud : Z;
  change_time : Z;
  access_time : Z;
  committed_item : option ptr;
  unlogged_list : option ptr;
  accessed_list : option ptr;
  dirty_list : option ptr;
  atime : Z;
  ctime : Z;
  mtime : Z;
  ntime : Z;
  size : Z;
  blocks : option (list Block.t);
  dirents : option (list Dirent.t);
  dirhash : option (gmap bytes Dirent.t);
  dirhash_folded : option (gmap bytes Dirent.t);
  parent_inum : Z;
  symlink_contents : option bytes;
}.
End Inode.
#[export] Instance Inode_eta : Eta Inode.t := fun x =>
  Inode.mk (Inode.refcount x) (Inode.type x) (Inode.mode x) (Inode.uid x)
    (Inode.gid x) (Inode.nlink x) (Inode.inum x) (Inode.change_count x)
    (Inode.change_commit x) (Inode.change_cloud x) (Inode.change_time x)
    (Inode.access_time x) (Inode.committed_item x) (Inode.unlogged_list x)
    (Inode.accessed_list x) (Inode.dirty_list x) (Inode.atime x) (Inode.ctime x)
    (Inode.mtime x) (Inode.ntime x) (Inode.size x) (Inode.blocks x)
    (Inode.dirents x) (Inode.dirhash x) (Inode.dirhash_folded x)
    (Inode.parent_inum x) (Inode.symlink_contents x).

(** A list head: [next] leads to the links (each with the inode it holds),
    [prev] points to the last one. *)
Module ListHead.
Record t := mk {
  next : list (ptr * ptr);
  prev : option ptr;
}.
Definition empty : t := mk [] None.
End ListHead.
#[export] Instance ListHead_eta : Eta ListHead.t := fun x =>
  ListHead.mk (ListHead.next x) (ListHead.prev x).

Module InodeMap.
Record entry := mkEntry {
  inum : Z;
  item : option ptr;
}.
Record range := mkRange {
  start : Z;
  end_ : Z;
  map_entries : list entry;
  serialized : option ptr;
}.
End InodeMap.
#[export] Instance InodeMap_entry_eta : Eta InodeMap.entry := fun x =>
  InodeMap.mkEntry (InodeMap.inum x) (InodeMap.item x).
#[export] Instance InodeMap_entry_eq_dec : EqDecision InodeMap.entry.
Proof. solve_decision. Defined.
#[export] Instance InodeMap_range_eta : Eta InodeMap.range := fun x =>
  InodeMap.mkRange (InodeMap.start x) (InodeMap.end_ x) (InodeMap.map_entries x)
    (InodeMap.serialized x).

Module FS.
Record t := mk {
  inodes : gmap Z ptr;
  next_inum : Z;
  cache_dirty : Z;
  cache_log_dirty : Z;
  cache_log_writeback : Z;
  cache_log_journal : Z;
  cache_log_cloud : Z;
  unlogged_list : ListHead.t;
  dirty_list : ListHead.t;
  accessed_list : ListHead.t;
  locations : gmap BlueSkyCloudID ptr;
  inode_map : list InodeMap.range;
  unref_queue : list ptr;
}.
End FS.
#[export] Instance FS_eta : Eta FS.t := fun x =>
  FS.mk (FS.inodes x) (FS.next_inum x) (FS.cache_dirty x) (FS.cache_log_dirty x)
    (FS.cache_log_writeback x) (FS.cache_log_journal x) (FS.cache_log_cloud x)
    (FS.unlogged_list x) (FS.dirty_list x) (FS.accessed_list x) (FS.locations x)
    (FS.inode_map x) (FS.unref_queue x).

(** An open descriptor: the file it writes and the position in it. *)
Module Fd.
Record t := mk {
  name : bytes;
  pos : Z;
}.
End Fd.

Module Log.
Record t := mk {
  queue : list ptr;
  fd : option Fd.t;
  seq_num : Z;
  committed : list ptr;
  current_log : option ptr;
  mmap_cache : gmap bytes ptr;
  disk_used : Z;
  journal_watermark : Z;
}.
End Log.
#[export] Instance Log_eta : Eta Log.t := fun x =>
  Log.mk (Log.queue x) (Log.fd x) (Log.seq_num x) (Log.committed x)
    (Log.current_log x) (Log.mmap_cache x) (Log.disk_used x) (Log.journal_watermark x).

Module CloudLogState.
Record t := mk {
  data : bytes;
  location : CloudPointer.t;
  writeback_list : list ptr;
  pending_segments : list ptr;
  uploads_pending : Z;
  latest_cleaner_seq_seen : Z;
}.
End CloudLogState.
#[export] Instance CloudLogState_eta : Eta CloudLogState.t := fun x =>
  CloudLogState.mk (CloudLogState.data x) (CloudLogState.location x)
    (CloudLogState.writeback_list x) (CloudLogState.pending_segments x)
    (CloudLogState.uploads_pending x) (CloudLogState.latest_cleaner_seq_seen x).

Module SerializedRecord.
Record t := mk {
  key : bytes;
  raw_data : option bytes;
  data : option ptr;
  items : list ptr;
  complete : bool;
}.
End SerializedRecord.
#[export] Instance SerializedRecord_eta : Eta SerializedRecord.t := fun x =>
  SerializedRecord.mk (SerializedRecord.key x) (SerializedRecord.raw_data x)
    (SerializedRecord.data x) (SerializedRecord.items x) (SerializedRecord.complete x).

(** A file of the journal directory: its first bytes, followed by zeros up to its
    size (the log segments are extended to their full size when created). *)
Module DiskFile.
Record t := mk {
  prefix : bytes;
  size : Z;
}.
Definition empty : t := mk [] 0.
Definition contents (f : t) : bytes :=
  take (Z.to_nat (size f)) (prefix f ++ replicate (Z.to_nat (size f)) 0).
(** [pread]: the bytes at an offset, if they are all inside the file. *)
Definition read (f : t) (off len : Z) : option bytes :=
  if (0 <=? off) && (0 <=? len) && (off + len <=? size f)
  then Some (take (Z.to_nat len)
               (drop (Z.to_nat off) (prefix f) ++ replicate (Z.to_nat len) 0))
  else None.
(** [pwrite]: overwrite or extend. *)
Definition write (f : t) (off : Z) (b : bytes) : t :=
  let p := prefix f ++ replicate (Z.to_nat off - length (prefix f)) 0 in
  mk (take (Z.to_nat off) p ++ b ++ drop (Z.to_nat off + length b) p)
     (Z.max (size f) (off + zlen b)).
Definition truncate (f : t) (n : Z) : t := mk (take (Z.to_nat n) (prefix f)) n.
End DiskFile.

(** ** The whole state *)
Record State := mkState {
  next_ptr : ptr;
  strs : gmap ptr RCStr.t;
  cloudlogs : gmap ptr CloudLog.t;
  cachefiles : gmap ptr CacheFile.t;
  inodes : gmap ptr Inode.t;
  records : gmap ptr SerializedRecord.t;
  fs : FS.t;
  log : Log.t;
  log_state : CloudLogState.t;
  disk : gmap bytes DiskFile.t;
  cloud : gmap bytes bytes;   (* the objects of the storage service *)
  ticks : nat;              (* readings of the clock so far *)
  randoms : nat;            (* numbers drawn so far *)
}.
#[export] Instance State_eta : Eta State := fun x =>
  mkState (next_ptr x) (strs x) (cloudlogs x) (cachefiles x) (inodes x) (records x)
    (fs x) (log x) (log_state x) (disk x) (cloud x) (ticks x) (randoms x).

Lemma State_ext (s t : State) :
  next_ptr s = next_ptr t -> strs s = strs t -> cloudlogs s = cloudlogs t ->
  cachefiles s = cachefiles t -> inodes s = inodes t -> records s = records t ->
  fs s = fs t -> log s = log t -> log_state s = log_state t -> disk s = disk t ->
  cloud s = cloud t -> ticks s = ticks t -> randoms s = randoms t -> s = t.
Proof. destruct s, t. simpl. intros. by subst. Qed.

(** Nothing mounted yet. *)
Definition empty_fs : FS.t :=
  FS.mk ∅ 2 0 0 0 0 0 ListHead.empty ListHead.empty ListHead.empty ∅ [] [].
Definition empty_log : Log.t := Log.mk [] None 0 [] None ∅ 0 0.
Definition empty_log_state : CloudLogState.t :=
  CloudLogState.mk [] CloudPointer.zero [] [] 0 (-1).
Definition empty_state : State :=
  mkState 1 ∅ ∅ ∅ ∅ ∅ empty_fs empty_log empty_log_state ∅ ∅ 0 0.

Module Options.
Record t := mk {
  synchronous_stores : bool;
  writethrough_cache : bool;
  sync_inode_fetches : bool;
  sync_frontends : bool;
  cache_size : Z;
  full_segment_fetches : bool;
  disable_aggregation : bool;
  disable_crypto : bool;
  disable_read_aggregation : bool;
}.
End Options.

(** ** The environment

    Values the code obtains from outside: the settings, the clock
    ([g_get_current_time], in microseconds), [g_random_int], [gcry_randomize]
    and the bytes found in memory that was never written. *)
Class Env := {
  bluesky_options : Options.t;
  clock : nat -> Z;
  g_random : nat -> Z;
  gcry_random : nat -> nat -> bytes;
  uninitialized : nat -> bytes;
}.

(** What their documentation promises. *)
Class EnvSpec (E : Env) := {
  g_random_range : forall n, 0 <= g_random n < 2 ^ 32;
  gcry_random_bytes : forall n len,
    length (gcry_random n len) = len /\ are_bytes (gcry_random n len);
  uninitialized_bytes : forall len,
    length (uninitialized len) = len /\ are_bytes (uninitialized len);
}.

(** A concrete environment: a clock that ticks, counters for random numbers. *)
#[export] Instance counter_env : Env | 100 := {
  bluesky_options := Options.mk false false false false (1024 * 1024) false false false false;
  clock n := 1000000 + Z.of_nat n;
  g_random n := u32 (17 + 1013 * Z.of_nat n);
  gcry_random n len := map (fun i => Z.of_nat (n * 31 + i) mod 256) (seq 1 len);
  uninitialized len := replicate len 0xAA;
}.

#[export] Instance counter_env_spec : EnvSpec counter_env.
Proof.
  split; simpl; intros.
  - apply u32_range.
  - rewrite length_map, length_seq. split; [done|].
    apply Forall_fmap, Forall_true. intros i. apply Z.mod_pos_bound. lia.
  - rewrite length_replicate. split; [done|]. apply Forall_replicate. unfold is_byte; lia.
Qed.

(** ** Access to the heaps *)
Definition load {V} (heap : State -> gmap ptr V) (p : option ptr) : M State V :=
  q ← assume NullPointer p; s ← get; assume Dangling (heap s !! q).

Definition upd {V} (heap : State -> gmap ptr V) `{!Setter heap}
    (p : option ptr) (f : V -> V) : M State unit :=
  q ← assume NullPointer p; v ← load heap (Some q);
  modify (fun s => s <| heap ::= <[q := f v]> |>).

Definition alloc {V} (heap : State -> gmap ptr V) `{!Setter heap} (v : V) : M State ptr :=
  p ← gets next_ptr;
  modify (fun s => (s <| heap ::= <[p := v]> |>) <| next_ptr := Pos.succ p |>);;
  mret p.

(** [g_free] of an object. *)
Definition free {V} (heap : State -> gmap ptr V) `{!Setter heap} (p : ptr) : M State unit :=
  load heap (Some p);; modify (fun s => s <| heap ::= delete p |>).

Section environment.
Context `{Env}.

(** [bluesky_get_current_time] (src/bluesky/inode.c). *)
Definition bluesky_get_current_time : M State Z :=
  n ← gets ticks; modify (fun s => s <| ticks := S n |>);; mret (clock n).

Definition g_random_int : M State Z :=
  n ← gets randoms; modify (fun s => s <| randoms := S n |>);; mret (g_random n).

(** [bluesky_crypt_random_bytes] (src/bluesky/crypto.c). *)
Definition bluesky_crypt_random_bytes (len : nat) : M State bytes :=
  n ← gets randoms; modify (fun s => s <| randoms := S n |>);; mret (gcry_random n len).
End environment.

(** Symbolic execution of the accesses. *)
Lemma wp_load {V} (heap : State -> gmap ptr V) p v s (Q : V -> State -> Prop) :
  heap s !! p = Some v -> Q v s -> wp (load heap (Some p)) s Q.
Proof. intros Hp HQ. unfold load. repeat wp_step; eauto. Qed.

Lemma wp_upd {V} (heap : State -> gmap ptr V) `{!Setter heap} p f v s
    (Q : unit -> State -> Prop) :
  heap s !! p = Some v -> Q tt (s <| heap ::= <[p := f v]> |>) ->
  wp (upd heap (Some p) f) s Q.
Proof.
  intros Hp HQ. unfold upd. repeat wp_step; eauto. eapply wp_load; eauto.
Qed.

Lemma wp_alloc {V} (heap : State -> gmap ptr V) `{!Setter heap} v s (Q : ptr -> State -> Prop) :
  Q (next_ptr s)
    ((s <| heap ::= <[next_ptr s := v]> |>) <| next_ptr := Pos.succ (next_ptr s) |>) ->
  wp (alloc heap v) s Q.
Proof. intros HQ. unfold alloc. repeat wp_step. exact HQ. Qed.

Lemma wp_free {V} (heap : State -> gmap ptr V) `{!Setter heap} p v s
    (Q : unit -> State -> Prop) :
  heap s !! p = Some v -> Q tt (s <| heap ::= delete p |>) -> wp (free heap p) s Q.
Proof. intros Hp HQ. unfold free. wp_step. eapply wp_load; eauto. Qed.

(** Runs straight-line code: heap accesses whose object is found by [simpl] in
    the updated heap or by an assumption, conditionals by cases. *)
Ltac heap_lookup :=
  simpl; first [apply lookup_insert_eq | eassumption
               | rewrite lookup_insert_ne by congruence; heap_lookup].
Ltac wp_heap :=
  lazymatch goal with
  | |- wp (load _ (Some _)) _ _ => eapply wp_load; [heap_lookup|]
  | |- wp (upd _ (Some _) _) _ _ => eapply wp_upd; [heap_lookup|]
  | |- wp (alloc _ _) _ _ => apply wp_alloc
  | |- wp (free _ _) _ _ => eapply wp_free; [heap_lookup|]
  | |- wp (assume _ (Some _)) _ _ => eapply wp_assume; [reflexivity|]
  | |- wp (when _ _) _ _ => unfold when
  | |- wp (if ?b then _ else _) _ _ => destruct b eqn:?
  | |- wp (_ ≫= _) _ _ => apply wp_bind
  | |- wp (mret _) _ _ => apply wp_ret
  | |- wp (gets _) _ _ => apply wp_gets
  | |- wp get _ _ => apply (wp_gets (fun s => s))
  | |- wp (modify _) _ _ => apply wp_modify
  end; cbv beta.
Ltac wp_run := repeat wp_heap.
