(* ===== verification/Strings.v ===== *)
(** * Reference-counted strings (src/bluesky/util.c)

    Creation, sharing, copy-on-write duplication and resizing of
    [BlueSkyRCStr], and the reference counting of the memory mappings that back
    some of them ([bluesky_mmap_unref] of src/bluesky/log.c). *)

From S2P Require Import Prelude State.
From Stdlib Require Import ZArith Lia.
From stdpp Require Import base numbers gmap option list.

Open Scope Z_scope.

(** The bytes a string stands for: its own memory, or the part of the mapped
    cache file. *)
Definition str_bytes (s : State) (str : RCStr.t) : option bytes :=
  match RCStr.data str with
  | RCStr.Owned buf => Some buf
  | RCStr.Mapped off =>
    f ← RCStr.mmap str;
    cf ← cachefiles s !! f;
    file ← disk s !! CacheFile.filename cf;
    DiskFile.read file off (RCStr.len str)
  end.

Definition bluesky_string_new (data : bytes) : M State ptr :=
  alloc strs (RCStr.mk 1 None (RCStr.Owned data) (zlen data)).

Definition bluesky_string_new_from_gstring (s : bytes) : M State ptr :=
  bluesky_string_new s.

Definition bluesky_string_new_from_mmap (mmap : option ptr) (offset len : Z) : M State ptr :=
  m ← load cachefiles mmap;
  let offset := s32 offset in
  check Assertion (u64 (u64 offset + len) <=? CacheFile.len m);;
  check Assertion (CacheFile.addr m);;
  upd cachefiles mmap (fun m => m <| CacheFile.mapcount ::= Z.add 1 |>);;
  alloc strs (RCStr.mk 1 mmap (RCStr.Mapped offset) len).

Definition bluesky_string_ref (string : option ptr) : M State unit :=
  match string with
  | None => mret tt
  | Some _ => upd strs string (fun s => s <| RCStr.refcount ::= Z.add 1 |>)
  end.

Definition bluesky_mmap_unref (mmap : option ptr) : M State unit :=
  match mmap with
  | None => mret tt
  | Some _ =>
    upd cachefiles mmap (fun m => m <| CacheFile.mapcount ::= Z.add (-1) |>);;
    m ← load cachefiles mmap;
    when (CacheFile.mapcount m =? 0)
      (when (CacheFile.addr m && (CacheFile.mapcount m =? 0))
         (upd cachefiles mmap (fun m =>
            m <| CacheFile.addr := false |> <| CacheFile.refcount ::= Z.add (-1) |>)));;
    m ← load cachefiles mmap;
    check Assertion (0 <=? CacheFile.mapcount m)
  end.

Definition bluesky_string_unref (string : option ptr) : M State unit :=
  match string with
  | None => mret tt
  | Some p =>
    upd strs string (fun s => s <| RCStr.refcount ::= Z.add (-1) |>);;
    s ← load strs string;
    when (RCStr.refcount s =? 0)
      (bluesky_mmap_unref (RCStr.mmap s);;
       free strs p)
  end.

(** [g_memdup(string->data, string->len)]. *)
Definition g_memdup (string : RCStr.t) : M State bytes :=
  s ← get; assume OutOfBounds (str_bytes s string).

Definition bluesky_string_dup (string : option ptr) : M State (option ptr) :=
  match string with
  | None => mret None
  | Some p =>
    str ← load strs string;
    match RCStr.mmap str with
    | Some _ =>
      b ← g_memdup str;
      s ← bluesky_string_new b;
      bluesky_string_unref string;;
      mret (Some s)
    | None =>
      upd strs string (fun s => s <| RCStr.refcount ::= Z.add (-1) |>);;
      str ← load strs string;
      if RCStr.refcount str =? 0 then
        upd strs string (fun s => s <| RCStr.refcount ::= Z.add 1 |>);;
        mret (Some p)
      else
        b ← g_memdup str;
        s ← bluesky_string_new b;
        mret (Some s)
    end
  end.

Section strings.
Context `{Env}.

(** [g_realloc]: the old contents as far as they fit, then whatever was there. *)
Definition g_realloc (buf : bytes) (len : Z) : bytes :=
  take (Z.to_nat len) (buf ++ uninitialized (Z.to_nat len - length buf)).

Definition bluesky_string_resize (string : option ptr) (len : Z) : M State unit :=
  str ← load strs string;
  check Assertion (match RCStr.mmap str with None => true | Some _ => false end);;
  if RCStr.len str =? len then mret tt else
  b ← assume NullPointer
        match RCStr.data str with RCStr.Owned buf => Some buf | _ => None end;
  upd strs string (fun s =>
    s <| RCStr.data := RCStr.Owned (g_realloc b len) |> <| RCStr.len := len |>).

End strings.

(** [memcpy(&string->data[off], b, len)] and [memset]: the target must be memory
    of its own (mappings are read-only) and large enough. *)
Definition splice (buf : bytes) (off : Z) (b : bytes) : option bytes :=
  if (0 <=? off) && (off + zlen b <=? zlen buf)
  then Some (write_at buf (Z.to_nat off) b) else None.

Definition str_write (string : option ptr) (off : Z) (b : bytes) : M State unit :=
  str ← load strs string;
  buf ← assume OutOfBounds
          match RCStr.data str with RCStr.Owned buf => splice buf off b | _ => None end;
  upd strs string (fun s => s <| RCStr.data := RCStr.Owned buf |>).

(** [memcpy(buf, &string->data[off], len)]. *)
Definition str_read (string : option ptr) (off len : Z) : M State bytes :=
  str ← load strs string;
  s ← get;
  b ← assume OutOfBounds (str_bytes s str);
  assume OutOfBounds (slice b off len).

