(* ===== verification/Ownership.v ===== *)
(** * Ownership of shared objects

    Strings and cloud log items are shared by reference counts.  This file
    counts the references the data structures hold, states that no count is
    smaller than the number of references ([heap_ok], with the references held
    by running code as an extra argument), and relates states in which surviving
    objects are unchanged ([survive]). *)

From S2P Require Import Prelude State Strings.
From Stdlib Require Import ZArith Lia.
From stdpp Require Import base numbers gmap option list.

Open Scope Z_scope.

Definition blocks_of (i : Inode.t) : list Block.t := default [] (Inode.blocks i).

(** An item that is being destroyed no longer owns anything. *)
Definition dead (l : CloudLog.t) : bool := CloudLog.type l =? LOGTYPE_INVALID.

(** ** References held by the data structures *)
Section owners.
Context (s : State).

Definition inode_strs (q : ptr) (i : Inode.t) : Z :=
  lsum (fun b => points q (Block.dirty b)) (blocks_of i).
Definition log_strs (q : ptr) (l : CloudLog.t) : Z :=
  if dead l then 0 else points q (CloudLog.data l).
Definition record_strs (q : ptr) (r : SerializedRecord.t) : Z :=
  points q (SerializedRecord.data r).
Definition str_owners (q : ptr) : Z :=
  msum (inode_strs q) (inodes s) + msum (log_strs q) (cloudlogs s)
  + msum (record_strs q) (records s).

Definition inode_logs (p : ptr) (i : Inode.t) : Z :=
  points p (Inode.committed_item i)
  + lsum (fun b => points p (Block.ref b)) (blocks_of i).
Definition log_logs (p : ptr) (l : CloudLog.t) : Z :=
  if dead l then 0 else lsum (points p) (CloudLog.links l).
Definition record_logs (p : ptr) (r : SerializedRecord.t) : Z :=
  lsum (fun q => points p (Some q)) (SerializedRecord.items r).
Definition range_logs (p : ptr) (r : InodeMap.range) : Z :=
  points p (InodeMap.serialized r)
  + lsum (fun e => points p (InodeMap.item e)) (InodeMap.map_entries r).
Definition queue_logs (p : ptr) : Z :=
  lsum (fun q => points p (Some q)) (FS.unref_queue (fs s))
  + lsum (fun q => points p (Some q)) (Log.queue (log s))
  + lsum (fun q => points p (Some q)) (Log.committed (log s))
  + lsum (fun q => points p (Some q)) (CloudLogState.writeback_list (log_state s)).
Definition log_owners (p : ptr) : Z :=
  msum (inode_logs p) (inodes s) + msum (log_logs p) (cloudlogs s)
  + msum (record_logs p) (records s)
  + lsum (range_logs p) (FS.inode_map (fs s)) + queue_logs p.

Definition map_owners (f : ptr) : Z :=
  msum (fun str => points f (RCStr.mmap str)) (strs s).

End owners.

(** ** Well-formed heaps *)
Definition str_wf (s : State) (str : RCStr.t) : Prop :=
  match RCStr.mmap str with
  | None => exists buf, RCStr.data str = RCStr.Owned buf /\ RCStr.len str = zlen buf
  | Some _ => exists off b, RCStr.data str = RCStr.Mapped off /\
                str_bytes s str = Some b /\ zlen b = RCStr.len str
  end.

(** A cache file knows of the [n] strings it backs, and stays mapped for them. *)
Definition maps_ok (n : Z) (o : option CacheFile.t) : Prop :=
  match o with
  | Some cf => n <= CacheFile.mapcount cf /\ (0 < n -> CacheFile.addr cf = true)
  | None => n = 0
  end.

(** [xs] and [xl] count the references to strings and items that running code
    holds in its variables. *)
Record heap_ok (xs xl : ptr -> Z) (s : State) : Prop := {
  ho_strs : forall q, 0 < str_owners s q + xs q ->
    exists str, strs s !! q = Some str /\ str_owners s q + xs q <= RCStr.refcount str;
  ho_logs : forall p, 0 < log_owners s p + xl p ->
    exists l, cloudlogs s !! p = Some l /\ log_owners s p + xl p <= CloudLog.refcount l;
  ho_files : forall f, maps_ok (map_owners s f) (cachefiles s !! f);
  ho_wf : forall q str, strs s !! q = Some str -> str_wf s str;
  ho_loc : forall id p, FS.locations (fs s) !! id = Some p ->
    exists l, cloudlogs s !! p = Some l /\ CloudLog.id l = id;
  ho_alive : forall p l, cloudlogs s !! p = Some l -> 0 < CloudLog.refcount l ->
    dead l = false;
  ho_fresh : forall p, Pos.le (next_ptr s) p ->
    strs s !! p = None /\ cloudlogs s !! p = None /\ cachefiles s !! p = None /\
    inodes s !! p = None /\ records s !! p = None;
}.

Lemma ho_maps xs xl s (Hok : heap_ok xs xl s) f : 0 < map_owners s f ->
  exists cf, cachefiles s !! f = Some cf /\ CacheFile.addr cf = true /\
    map_owners s f <= CacheFile.mapcount cf.
Proof.
  intros Hpos. pose proof (ho_files _ _ _ Hok f) as Hm. unfold maps_ok in Hm.
  destruct (cachefiles s !! f) as [cf|]; [|lia]. exists cf. split_and!; [done|apply Hm; lia|apply Hm].
Qed.

(** No references beyond those of the data structures. *)
Definition nox : ptr -> Z := fun _ => 0.
(** One more reference. *)
Definition xadd (x : ptr -> Z) (o : option ptr) : ptr -> Z := fun r => x r + points r o.
(** One reference for each element of a list. *)
Definition xadds (x : ptr -> Z) (l : list (option ptr)) : ptr -> Z :=
  fun r => x r + lsum (points r) l.

(** Two extra-reference counts that agree everywhere. *)
Definition xeq (x y : ptr -> Z) : Prop := forall r, x r = y r.

#[export] Instance xeq_equiv : Equivalence xeq.
Proof.
  split; unfold xeq.
  - done.
  - intros x y Hxy r. by rewrite Hxy.
  - intros x y z Hxy Hyz r. by rewrite Hxy.
Qed.

#[export] Instance heap_ok_proper : Proper (xeq ==> xeq ==> eq ==> iff) heap_ok.
Proof.
  assert (Himp : forall x x' y y' s, xeq x x' -> xeq y y' -> heap_ok x y s -> heap_ok x' y' s).
  { intros x x' y y' s Hx Hy []. split; try done.
    - intros q. rewrite <- Hx. auto.
    - intros p. rewrite <- Hy. auto. }
  intros x x' Hx y y' Hy s ? <-. split; apply Himp; done || by symmetry.
Qed.

Lemma xadd_None x : xeq (xadd x None) x.
Proof. intros r. unfold xadd. rewrite points_None. lia. Qed.

Lemma xadds_nil x : xeq (xadds x []) x.
Proof. intros r. unfold xadds. simpl. lia. Qed.

Lemma xadds_cons x o l : xeq (xadds x (o :: l)) (xadd (xadds x l) o).
Proof. intros r. unfold xadds, xadd. simpl. lia. Qed.

(** A cache file up to the counts of its users and its mapping. *)
Definition cf_view (cf : CacheFile.t) : CacheFile.t :=
  cf <| CacheFile.refcount := 0 |> <| CacheFile.mapcount := 0 |> <| CacheFile.addr := false |>.

(** Every file that is still mapped was mapped. *)
Definition unmaps (s s' : State) : Prop := forall f cf',
  cachefiles s' !! f = Some cf' -> CacheFile.addr cf' = true ->
  exists cf, cachefiles s !! f = Some cf /\ CacheFile.addr cf = true.

Lemma unmaps_same s s' : cachefiles s' = cachefiles s -> unmaps s s'.
Proof. intros E f cf Hf Ha. exists cf. by rewrite <- E. Qed.

#[export] Instance unmaps_preorder : PreOrder unmaps.
Proof.
  split; [intros s; by apply unmaps_same|]. intros s1 s2 s3 H12 H23 f cf3 H3 A3.
  destruct (H23 f cf3 H3 A3) as (cf2 & H2 & A2). by apply (H12 f cf2).
Qed.

(** ** Survivors

    What destroying objects leaves: files, inodes and queues are untouched, and
    every object still there differs at most in its reference count. *)
Record survive (s s' : State) : Prop := {
  sv_strs : forall q str', strs s' !! q = Some str' ->
    exists str, strs s !! q = Some str /\ str' = str <| RCStr.refcount := RCStr.refcount str' |> /\
      RCStr.refcount str' <= RCStr.refcount str;
  sv_logs : forall p l', cloudlogs s' !! p = Some l' ->
    exists l, cloudlogs s !! p = Some l /\ l' = l <| CloudLog.refcount := CloudLog.refcount l' |>;
  sv_zero : forall p l, cloudlogs s !! p = Some l -> CloudLog.refcount l <= 0 ->
    cloudlogs s' !! p = Some l;
  sv_files : forall f, cf_view <$> cachefiles s' !! f = cf_view <$> cachefiles s !! f;
  sv_inodes : inodes s' = inodes s;
  sv_records : records s' = records s;
  sv_log : log s' = log s;
  sv_log_state : log_state s' = log_state s;
  sv_disk : disk s' = disk s;
  sv_cloud : cloud s' = cloud s;
  sv_next : next_ptr s' = next_ptr s;
  sv_loc : forall id p,
    FS.locations (fs s') !! id = Some p -> FS.locations (fs s) !! id = Some p;
  sv_fs : exists loc d w j c, fs s' =
    (fs s) <| FS.locations := loc |> <| FS.cache_log_dirty := d |>
         <| FS.cache_log_writeback := w |> <| FS.cache_log_journal := j |>
         <| FS.cache_log_cloud := c |>;
  sv_addr : unmaps s s';
}.

Lemma RCStr_set_refcount_id (str : RCStr.t) :
  str = str <| RCStr.refcount := RCStr.refcount str |>.
Proof. by destruct str. Qed.

Lemma CloudLog_set_refcount_id (l : CloudLog.t) :
  l = l <| CloudLog.refcount := CloudLog.refcount l |>.
Proof. by destruct l. Qed.

#[export] Instance survive_preorder : PreOrder survive.
Proof.
  split.
  - intros s. split; try done; eauto using RCStr_set_refcount_id, CloudLog_set_refcount_id, Z.le_refl.
    destruct (fs s); simpl. by eexists _, _, _, _, _.
  - intros s1 s2 s3 [] [].
    split; [| | | |congruence..| | |].
    + intros q str3 H3. destruct (sv_strs1 q _ H3) as (str2 & H2 & E3 & L3).
      destruct (sv_strs0 q _ H2) as (str1 & H1 & E2 & L2). exists str1. split_and!; [done| |lia].
      rewrite E3, E2. by destruct str1.
    + intros p l3 H3. destruct (sv_logs1 p _ H3) as (l2 & H2 & E3).
      destruct (sv_logs0 p _ H2) as (l1 & H1 & E2). exists l1. split; [done|].
      rewrite E3, E2. by destruct l1.
    + intros p l H Hz. apply sv_zero1; auto.
    + intros f. by rewrite sv_files1.
    + auto.
    + destruct sv_fs0 as (?&?&?&?&?&E0), sv_fs1 as (l&d&w&j&c&E1).
      exists l, d, w, j, c. rewrite E1, E0. by destruct (fs s1).
    + by etransitivity.
Qed.

(** Surviving strings keep their bytes. *)
Lemma survive_str_bytes s s' str n :
  survive s s' -> str_bytes s' (str <| RCStr.refcount := n |>) = str_bytes s str.
Proof.
  intros Hs. unfold str_bytes. simpl. destruct (RCStr.data str); [done|].
  destruct (RCStr.mmap str) as [f|]; simpl; [|done].
  pose proof (sv_files _ _ Hs f) as Hf. rewrite (sv_disk _ _ Hs).
  destruct (cachefiles s !! f) as [cf|], (cachefiles s' !! f) as [cf'|]; simpl in *;
    try discriminate; [|done].
  injection Hf as Hf. by destruct cf, cf'; simpl in *; simplify_eq.
Qed.

(** ** References are counted from zero *)
Section nonneg.
Context (s : State).

Lemma inode_strs_nonneg q i : 0 <= inode_strs q i.
Proof. apply lsum_nonneg. auto with bluesky. Qed.
Lemma log_strs_nonneg q l : 0 <= log_strs q l.
Proof. unfold log_strs. destruct (dead l); [lia|auto with bluesky]. Qed.
Lemma inode_logs_nonneg p i : 0 <= inode_logs p i.
Proof.
  unfold inode_logs. pose proof (points_nonneg p (Inode.committed_item i)).
  pose proof (lsum_nonneg (fun b => points p (Block.ref b)) (blocks_of i)
                (fun b => points_nonneg _ _)). lia.
Qed.
Lemma log_logs_nonneg p l : 0 <= log_logs p l.
Proof. unfold log_logs. destruct (dead l); [lia|auto with bluesky]. Qed.
Lemma range_logs_nonneg p r : 0 <= range_logs p r.
Proof.
  unfold range_logs. pose proof (points_nonneg p (InodeMap.serialized r)).
  pose proof (lsum_nonneg (fun e => points p (InodeMap.item e)) (InodeMap.map_entries r)
                (fun b => points_nonneg _ _)). lia.
Qed.
Lemma ptrs_nonneg p (l : list ptr) : 0 <= lsum (fun q => points p (Some q)) l.
Proof. auto with bluesky. Qed.

Lemma str_owners_nonneg q : 0 <= str_owners s q.
Proof.
  unfold str_owners. pose proof (msum_nonneg _ (inodes s) (inode_strs_nonneg q)).
  pose proof (msum_nonneg _ (cloudlogs s) (log_strs_nonneg q)).
  pose proof (msum_nonneg _ (records s) (fun r => points_nonneg q (SerializedRecord.data r))).
  unfold record_strs. lia.
Qed.

Lemma log_owners_nonneg p : 0 <= log_owners s p.
Proof.
  unfold log_owners, queue_logs.
  pose proof (msum_nonneg _ (inodes s) (inode_logs_nonneg p)).
  pose proof (msum_nonneg _ (cloudlogs s) (log_logs_nonneg p)).
  pose proof (msum_nonneg _ (records s) (fun r => ptrs_nonneg p (SerializedRecord.items r))).
  pose proof (lsum_nonneg _ (FS.inode_map (fs s)) (range_logs_nonneg p)).
  pose proof (ptrs_nonneg p (FS.unref_queue (fs s))).
  pose proof (ptrs_nonneg p (Log.queue (log s))).
  pose proof (ptrs_nonneg p (Log.committed (log s))).
  pose proof (ptrs_nonneg p (CloudLogState.writeback_list (log_state s))).
  unfold record_logs. lia.
Qed.

Lemma map_owners_nonneg f : 0 <= map_owners s f.
Proof. apply msum_nonneg. auto with bluesky. Qed.

End nonneg.

(** ** Strings *)

Definition xnn (x : ptr -> Z) : Prop := forall r, 0 <= x r.

Lemma xnn_nox : xnn nox.
Proof. done. Qed.

Lemma xnn_xadd x o : xnn x -> xnn (xadd x o).
Proof. intros Hx r. unfold xadd. specialize (Hx r). pose proof (points_nonneg r o). lia. Qed.

Lemma xnn_xadds x l : xnn x -> xnn (xadds x l).
Proof.
  intros Hx r. unfold xadds. specialize (Hx r).
  pose proof (lsum_nonneg (points r) l (points_nonneg r)). lia.
Qed.
#[export] Hint Resolve xnn_nox xnn_xadd xnn_xadds : bluesky.

(** A reference in hand is to an object that is there. *)
Lemma heap_ok_str xs xl s q :
  heap_ok (xadd xs (Some q)) xl s -> xnn xs ->
  exists str, strs s !! q = Some str /\ str_owners s q + xs q + 1 <= RCStr.refcount str.
Proof.
  intros Hok Hx. pose proof (str_owners_nonneg s q). specialize (Hx q).
  destruct (ho_strs _ _ _ Hok q) as (str & Hq & Hle); unfold xadd in *;
    rewrite points_self in *; [lia|]. exists str. split; [done|lia].
Qed.

Lemma heap_ok_log xs xl s p :
  heap_ok xs (xadd xl (Some p)) s -> xnn xl ->
  exists l, cloudlogs s !! p = Some l /\ log_owners s p + xl p + 1 <= CloudLog.refcount l.
Proof.
  intros Hok Hx. pose proof (log_owners_nonneg s p). specialize (Hx p).
  destruct (ho_logs _ _ _ Hok p) as (l & Hp & Hle); unfold xadd in *;
    rewrite points_self in *; [lia|]. exists l. split; [done|lia].
Qed.

Lemma owners_refcount xs xl s p l :
  heap_ok xs xl s -> cloudlogs s !! p = Some l -> 0 < CloudLog.refcount l ->
  log_owners s p + xl p <= CloudLog.refcount l.
Proof.
  intros Hok Hp Hr. destruct (Z.lt_ge_cases 0 (log_owners s p + xl p)) as [Hpos|]; [|lia].
  destruct (ho_logs _ _ _ Hok p Hpos) as (l1 & ? & ?). simplify_eq. lia.
Qed.

(** Changing the reference count of a string. *)
Definition set_str_refcount (q : ptr) (str : RCStr.t) (n : Z) (s : State) : State :=
  s <| strs ::= <[q := str <| RCStr.refcount := n |>]> |>.

Lemma survive_str_refcount s q str n :
  strs s !! q = Some str -> n <= RCStr.refcount str -> survive s (set_str_refcount q str n s).
Proof.
  intros Hq Hn. split; try done.
  - intros r str'. simpl. destruct (decide (r = q)) as [->|Hne].
    + rewrite lookup_insert_eq. intros [= <-]. eauto.
    + rewrite lookup_insert_ne by done. eauto using RCStr_set_refcount_id, Z.le_refl.
  - intros; eauto using CloudLog_set_refcount_id.
  - simpl. destruct (fs s); simpl. by eexists _, _, _, _, _.
  - by apply unmaps_same.
Qed.

Lemma str_wf_survive s s' str n :
  survive s s' -> str_wf s str -> str_wf s' (str <| RCStr.refcount := n |>).
Proof.
  intros Hs. unfold str_wf. rewrite (survive_str_bytes s s') by done. by destruct str.
Qed.

Lemma str_wf_refcount s q str n str0 m :
  str_wf s str -> str_wf (set_str_refcount q str0 n s) (str <| RCStr.refcount := m |>).
Proof. unfold str_wf, str_bytes. by destruct str. Qed.

Lemma heap_ok_str_refcount xs xs' xl s q str n :
  heap_ok xs xl s -> strs s !! q = Some str ->
  (forall r, r <> q -> xs' r = xs r) -> str_owners s q + xs' q <= n ->
  heap_ok xs' xl (set_str_refcount q str n s).
Proof.
  intros Hok Hq Hx Hn. split.
  - intros r Hr. change (str_owners (set_str_refcount q str n s) r) with (str_owners s r) in *.
    simpl. destruct (decide (r = q)) as [->|Hne].
    + rewrite lookup_insert_eq. eexists. split; [done|]. simpl. lia.
    + rewrite lookup_insert_ne by done. rewrite Hx in * by done. by apply (ho_strs xs xl).
  - apply (ho_logs xs xl s Hok).
  - intros f. assert (map_owners (set_str_refcount q str n s) f = map_owners s f) as ->.
    { unfold map_owners. simpl. rewrite (msum_insert _ _ _ _ _ Hq). simpl. lia. }
    apply (ho_files xs xl s Hok).
  - intros r str'. simpl. destruct (decide (r = q)) as [->|Hne].
    + rewrite lookup_insert_eq. intros [= <-]. apply str_wf_refcount.
      by apply (ho_wf xs xl s Hok q).
    + rewrite lookup_insert_ne by done. intros Hr.
      rewrite (RCStr_set_refcount_id str'). apply str_wf_refcount.
      by apply (ho_wf xs xl s Hok r).
  - apply (ho_loc xs xl s Hok).
  - apply (ho_alive xs xl s Hok).
  - intros p Hp. destruct (ho_fresh xs xl s Hok p Hp) as (H1 & H2). split; [|done].
    simpl. rewrite lookup_insert_ne; [done|]. congruence.
Qed.

Lemma bluesky_string_ref_ok xs xl s q :
  heap_ok xs xl s -> is_Some (strs s !! q) -> 0 < str_owners s q + xs q ->
  wp (bluesky_string_ref (Some q)) s (fun _ s' =>
    heap_ok (xadd xs (Some q)) xl s' /\
    exists str n, strs s !! q = Some str /\ s' = set_str_refcount q str n s).
Proof.
  intros Hok [str Hq] Hpos. unfold bluesky_string_ref. eapply wp_upd; [done|].
  destruct (ho_strs _ _ _ Hok q Hpos) as (str' & Hq' & Hle). simplify_eq.
  change (setf strs _ s) with (set_str_refcount q str ((1 + RCStr.refcount str)) s).
  split; [|eauto].
  eapply heap_ok_str_refcount; [done|done| |].
  - intros r Hr. unfold xadd. rewrite points_ne by done. lia.
  - unfold xadd. rewrite points_self. lia.
Qed.

(** Dropping one mapping of a cache file; the last one unmaps it. *)
Definition unmap (cf : CacheFile.t) : CacheFile.t :=
  let cf := cf <| CacheFile.mapcount ::= Z.add (-1) |> in
  if (CacheFile.mapcount cf =? 0) && CacheFile.addr cf
  then cf <| CacheFile.addr := false |> <| CacheFile.refcount ::= Z.add (-1) |> else cf.

Definition set_cachefile (f : ptr) (cf : CacheFile.t) (s : State) : State :=
  s <| cachefiles ::= <[f := cf]> |>.

Lemma wp_mmap_unref s f cf (Q : unit -> State -> Prop) :
  cachefiles s !! f = Some cf -> 1 <= CacheFile.mapcount cf ->
  Q tt (set_cachefile f (unmap cf) s) -> wp (bluesky_mmap_unref (Some f)) s Q.
Proof.
  intros Hf Hc HQ. unfold bluesky_mmap_unref.
  wp_step. eapply wp_upd; [done|].
  wp_step. eapply wp_load; [simpl; apply lookup_insert_eq|]. simpl.
  unfold set_cachefile, unmap in HQ. simpl in HQ.
  rewrite andb_comm in HQ.
  unfold when. destruct ((-1 + CacheFile.mapcount cf) =? 0) eqn:E.
  - rewrite andb_true_r in *. destruct (CacheFile.addr cf).
    + wp_step. eapply wp_upd; [simpl; apply lookup_insert_eq|].
      wp_step. eapply wp_load; [simpl; apply lookup_insert_eq|].
      wp_step; [simpl; lia|].
      match goal with |- Q tt ?t => match type of HQ with Q tt ?u => assert (t = u) as -> end end;
        [|done]. unfold setf; simpl. by rewrite insert_insert_eq.
    + wp_step. wp_step. wp_step. eapply wp_load; [simpl; apply lookup_insert_eq|].
      wp_step; [simpl; lia|]. done.
  - rewrite andb_false_r in HQ. wp_step. wp_step. wp_step.
    eapply wp_load; [simpl; apply lookup_insert_eq|]. wp_step; [simpl; lia|]. done.
Qed.

Lemma map_owners_pos s q str f :
  strs s !! q = Some str -> RCStr.mmap str = Some f -> 1 <= map_owners s f.
Proof.
  intros Hq Hf. rewrite <- (points_self f), <- Hf.
  apply (msum_elem (fun str => points f (RCStr.mmap str)) (strs s) q str);
    auto with bluesky.
Qed.

(** Destroying a string nobody refers to. *)
Definition drop_str (q : ptr) (str : RCStr.t) (s : State) : State :=
  match RCStr.mmap str with
  | None => s <| strs ::= delete q |>
  | Some f => (set_cachefile f (default (CacheFile.mk 0 0 0 0 [] 0 false 0 0 false false 0 [] None)
                                  (unmap <$> cachefiles s !! f)) s) <| strs ::= delete q |>
  end.

Lemma drop_str_survive s q str :
  (forall f, RCStr.mmap str = Some f -> is_Some (cachefiles s !! f)) ->
  survive s (drop_str q str s).
Proof.
  intros Hm. split; try (unfold drop_str; by destruct (RCStr.mmap str)).
  - intros r str' Hr. exists str'. split_and!; [|apply RCStr_set_refcount_id|done].
    assert (strs (drop_str q str s) = delete q (strs s)) as E
      by (unfold drop_str; by destruct (RCStr.mmap str)).
    rewrite E in Hr. by apply lookup_delete_Some in Hr as [_ ?].
  - intros p l Hp. exists l. split; [|apply CloudLog_set_refcount_id].
    unfold drop_str in Hp. by destruct (RCStr.mmap str).
  - intros f. unfold drop_str. destruct (RCStr.mmap str) as [g|] eqn:E; [|done]. simpl.
    destruct (Hm g eq_refl) as [cf Hg]. rewrite Hg. simpl.
    destruct (decide (f = g)) as [->|?]; [|by rewrite lookup_insert_ne].
    rewrite lookup_insert_eq, Hg. simpl. unfold unmap. by destruct (andb _ _).
  - assert (fs (drop_str q str s) = fs s) as -> by (unfold drop_str; by destruct (RCStr.mmap str)).
    destruct (fs s). by eexists _, _, _, _, _.
  - intros f cf' Hf Ha. unfold drop_str in Hf. destruct (RCStr.mmap str) as [g|] eqn:E; [|by exists cf'].
    simpl in Hf. destruct (Hm g eq_refl) as [cf Hg]. rewrite Hg in Hf. simpl in Hf.
    destruct (decide (f = g)) as [->|?]; [|rewrite lookup_insert_ne in Hf by done; by exists cf'].
    rewrite lookup_insert_eq in Hf. injection Hf as <-. exists cf. split; [done|].
    unfold unmap in Ha. by destruct (_ && _).
Qed.

Lemma heap_ok_drop_str xs xl s q str :
  heap_ok xs xl s -> strs s !! q = Some str -> str_owners s q + xs q <= 0 ->
  heap_ok xs xl (drop_str q str s).
Proof.
  intros Hok Hq Hz.
  assert (Hm : forall f, RCStr.mmap str = Some f ->
    0 < map_owners s f /\ is_Some (cachefiles s !! f)).
  { intros f Hf. pose proof (map_owners_pos _ _ _ _ Hq Hf).
    assert (0 < map_owners s f) as Hpos by lia. split; [done|]. destruct (ho_maps _ _ _ Hok f Hpos) as (? & ? & _). eauto. }
  assert (Hsv : survive s (drop_str q str s)).
  { apply drop_str_survive. intros. by apply Hm. }
  assert (Hstrs : strs (drop_str q str s) = delete q (strs s))
    by (unfold drop_str; by destruct (RCStr.mmap str)).
  assert (Hown : forall r, str_owners (drop_str q str s) r = str_owners s r)
    by (intros; unfold drop_str; by destruct (RCStr.mmap str)).
  assert (Hmap : forall f, map_owners (drop_str q str s) f
                           = map_owners s f - points f (RCStr.mmap str)).
  { intros f. unfold map_owners. rewrite Hstrs. by rewrite (msum_delete _ _ _ _ Hq). }
  split.
  - intros r. rewrite Hown, Hstrs. intros Hr. rewrite lookup_delete_ne by (intros ->; lia).
    by apply (ho_strs xs xl s Hok).
  - pose proof (ho_logs xs xl s Hok). unfold drop_str; by destruct (RCStr.mmap str).
  - intros f. rewrite Hmap. pose proof (ho_files xs xl s Hok f) as Hf. unfold drop_str.
    destruct (RCStr.mmap str) as [g|]; [|by rewrite points_None, Z.sub_0_r]. simpl.
    destruct (decide (f = g)) as [->|?].
    + destruct (Hm g eq_refl) as [Hpos [cf Hg]]. rewrite Hg in *. rewrite points_self, lookup_insert_eq.
      destruct Hf as [Hle Ha]. specialize (Ha Hpos). unfold maps_ok, unmap. simpl. rewrite Ha.
      destruct ((-1 + CacheFile.mapcount cf) =? 0) eqn:E; simpl; split; (lia || done).
    + by rewrite lookup_insert_ne, points_ne, Z.sub_0_r by done.
  - intros r str' Hr. rewrite Hstrs in Hr. apply lookup_delete_Some in Hr as [_ Hr].
    rewrite (RCStr_set_refcount_id str'). apply (str_wf_survive s); [done|].
    by apply (ho_wf xs xl s Hok r).
  - pose proof (ho_loc xs xl s Hok). unfold drop_str; by destruct (RCStr.mmap str).
  - pose proof (ho_alive xs xl s Hok). unfold drop_str; by destruct (RCStr.mmap str).
  - intros p Hp. rewrite (sv_next _ _ Hsv) in Hp.
    destruct (ho_fresh xs xl s Hok p Hp) as (H1 & H2 & H3 & H4 & H5).
    rewrite Hstrs, (sv_inodes _ _ Hsv), (sv_records _ _ Hsv). split_and!; try done.
    + by rewrite lookup_delete_None; auto.
    + unfold drop_str; by destruct (RCStr.mmap str).
    + pose proof (sv_files _ _ Hsv p) as Hf. rewrite H3 in Hf. simpl in Hf.
      by apply fmap_None in Hf.
Qed.

(** The reference given up may also be one that a data structure still records. *)
Lemma bluesky_string_unref_gen xs xl s q :
  heap_ok (xadd xs q) xl s -> (forall r, q = Some r -> 0 <= str_owners s r + xs r) ->
  wp (bluesky_string_unref q) s (fun _ s' =>
    heap_ok xs xl s' /\ survive s s' /\ cloudlogs s' = cloudlogs s /\ fs s' = fs s /\
    forall r, q <> Some r -> strs s' !! r = strs s !! r).
Proof.
  intros Hok Hx. destruct q as [q|].
  2: { rewrite xadd_None in Hok. by simpl. }
  specialize (Hx q eq_refl).
  assert (exists str, strs s !! q = Some str /\ str_owners s q + xs q + 1 <= RCStr.refcount str)
    as (str & Hq & Hn).
  { destruct (ho_strs _ _ _ Hok q) as (str & Hq & Hle); unfold xadd in *;
      rewrite points_self in *; [lia|]. exists str. split; [done|lia]. }
  unfold bluesky_string_unref. wp_step. eapply wp_upd; [done|].
  set (s1 := set_str_refcount q str ((-1 + RCStr.refcount str)) s).
  change (setf strs _ s) with s1.
  assert (Hok1 : heap_ok xs xl s1).
  { eapply heap_ok_str_refcount; [done|done| |lia].
    intros r Hr. unfold xadd. rewrite points_ne by done. lia. }
  assert (Hsv1 : survive s s1) by (apply survive_str_refcount; [done|lia]).
  assert (Hq1 : strs s1 !! q = Some (str <| RCStr.refcount := (-1 + RCStr.refcount str) |>))
    by (simpl; apply lookup_insert_eq).
  assert (Hoth1 : forall r, Some q <> Some r -> strs s1 !! r = strs s !! r)
    by (intros r Hr; simpl; rewrite lookup_insert_ne; congruence).
  wp_step. eapply wp_load; [done|]. simpl RCStr.refcount. unfold when.
  destruct ((-1 + RCStr.refcount str) =? 0) eqn:E; [|by wp_step].
  apply Z.eqb_eq in E.
  assert (Hz : str_owners s1 q + xs q <= 0)
    by (change (str_owners s1 q) with (str_owners s q); lia).
  pose proof (heap_ok_drop_str _ _ _ _ _ Hok1 Hq1 Hz) as Hok2.
  assert (Hdone : wp (bluesky_mmap_unref (RCStr.mmap str);; free strs q) s1
                    (fun _ s' => s' = drop_str q (str <| RCStr.refcount := (-1 + RCStr.refcount str) |>) s1)).
  { unfold drop_str. simpl RCStr.mmap. wp_step. destruct (RCStr.mmap str) as [f|] eqn:Ef.
    - pose proof (map_owners_pos _ _ _ f Hq1 Ef).
      destruct (ho_maps _ _ _ Hok1 f) as (cf & Hf & _ & Hle); [lia|].
      eapply wp_mmap_unref; [done|lia|]. rewrite Hf. simpl default.
      eapply wp_free; [exact Hq1|]. done.
    - simpl. eapply wp_free; [exact Hq1|]. done. }
  eapply wp_mono; [exact Hdone|]. intros _ s' ->. split_and!; [done| | | |].
  - etransitivity; [done|]. apply drop_str_survive. simpl RCStr.mmap. intros f Ef.
    pose proof (map_owners_pos _ _ _ f Hq1 Ef).
    destruct (ho_maps _ _ _ Hok1 f) as (cf & Hf & _); [lia|eauto].
  - unfold drop_str; by destruct (RCStr.mmap _).
  - unfold drop_str; by destruct (RCStr.mmap _).
  - intros r Hr. rewrite <- Hoth1 by done.
    transitivity (delete q (strs s1) !! r); [unfold drop_str; by destruct (RCStr.mmap _)|].
    apply lookup_delete_ne. congruence.
Qed.

Lemma bluesky_string_unref_ok xs xl s q :
  heap_ok (xadd xs q) xl s -> xnn xs ->
  wp (bluesky_string_unref q) s (fun _ s' =>
    heap_ok xs xl s' /\ survive s s' /\ cloudlogs s' = cloudlogs s /\ fs s' = fs s /\
    forall r, q <> Some r -> strs s' !! r = strs s !! r).
Proof.
  intros Hok Hx. apply bluesky_string_unref_gen; [done|].
  intros r _. pose proof (str_owners_nonneg s r). specialize (Hx r). lia.
Qed.

(** ** Cloud log items *)
Definition set_log (p : ptr) (l : CloudLog.t) (s : State) : State :=
  s <| cloudlogs ::= <[p := l]> |>.

Lemma str_owners_set_log s p l l' q :
  cloudlogs s !! p = Some l ->
  str_owners (set_log p l' s) q = str_owners s q - log_strs q l + log_strs q l'.
Proof. intros Hp. unfold str_owners. simpl. rewrite (msum_insert _ _ _ _ _ Hp). lia. Qed.

Lemma log_owners_set_log s p l l' r :
  cloudlogs s !! p = Some l ->
  log_owners (set_log p l' s) r = log_owners s r - log_logs r l + log_logs r l'.
Proof.
  intros Hp. unfold log_owners, queue_logs. simpl. rewrite (msum_insert _ _ _ _ _ Hp). lia.
Qed.

(** Replacing an item: the references it gains or loses are taken from or given
    to the running code. *)
Lemma heap_ok_set_log xs xl xs' xl' s p l l' :
  heap_ok xs xl s -> cloudlogs s !! p = Some l -> CloudLog.id l' = CloudLog.id l ->
  (0 < CloudLog.refcount l' -> dead l' = false) ->
  (forall q, xs' q = xs q + log_strs q l - log_strs q l') ->
  (forall r, r <> p -> xl' r = xl r + log_logs r l - log_logs r l') ->
  log_owners s p - log_logs p l + log_logs p l' + xl' p <= CloudLog.refcount l' ->
  heap_ok xs' xl' (set_log p l' s).
Proof.
  intros Hok Hp Hid Hdead Hxs Hxl Hn. split.
  - intros q. rewrite (str_owners_set_log s p l) by done. rewrite Hxs. intros Hq.
    destruct (ho_strs xs xl s Hok q) as (str & ? & ?); [lia|]. exists str. split; [done|lia].
  - intros r. rewrite (log_owners_set_log s p l) by done. intros Hr. simpl.
    destruct (decide (r = p)) as [->|Hne].
    + rewrite lookup_insert_eq. eauto.
    + rewrite lookup_insert_ne by done. rewrite Hxl in * by done.
      destruct (ho_logs xs xl s Hok r) as (l1 & ? & ?); [lia|]. exists l1. split; [done|lia].
  - apply (ho_files xs xl s Hok).
  - apply (ho_wf xs xl s Hok).
  - intros i r Hi. destruct (ho_loc xs xl s Hok i r Hi) as (l1 & Hl1 & <-). simpl.
    destruct (decide (r = p)) as [->|Hne].
    + rewrite lookup_insert_eq. eexists. split; [done|]. congruence.
    + rewrite lookup_insert_ne by done. eauto.
  - intros r l1. simpl. destruct (decide (r = p)) as [->|Hne].
    + rewrite lookup_insert_eq. by intros [= <-].
    + rewrite lookup_insert_ne by done. apply (ho_alive xs xl s Hok).
  - intros r Hr. destruct (ho_fresh xs xl s Hok r Hr) as (? & ? & ?). simpl.
    split_and!; [done| |tauto..]. rewrite lookup_insert_ne; [done|]. congruence.
Qed.

Lemma survive_log_refcount s p l n :
  cloudlogs s !! p = Some l -> 0 < CloudLog.refcount l ->
  survive s (set_log p (l <| CloudLog.refcount := n |>) s).
Proof.
  intros Hp Hpos. split; try done.
  - eauto using RCStr_set_refcount_id, Z.le_refl.
  - intros r l'. simpl. destruct (decide (r = p)) as [->|Hne].
    + rewrite lookup_insert_eq. intros [= <-]. eauto.
    + rewrite lookup_insert_ne by done. eauto using CloudLog_set_refcount_id.
  - intros r l' Hr Hz. simpl. rewrite lookup_insert_ne; [done|]. intros ->.
    simplify_eq. lia.
  - simpl. destruct (fs s); simpl. by eexists _, _, _, _, _.
  - by apply unmaps_same.
Qed.

Lemma heap_ok_log_refcount xs xl xl' s p l n :
  heap_ok xs xl s -> cloudlogs s !! p = Some l -> 0 < CloudLog.refcount l ->
  (forall r, r <> p -> xl' r = xl r) -> log_owners s p + xl' p <= n ->
  heap_ok xs xl' (set_log p (l <| CloudLog.refcount := n |>) s).
Proof.
  intros Hok Hp Hpos Hx Hn. pose proof (ho_alive _ _ _ Hok _ _ Hp Hpos) as Ha.
  eapply heap_ok_set_log; [done|done|done|by intros _| | |];
    unfold log_strs, log_logs; change (dead (l <| CloudLog.refcount := n |>)) with (dead l);
    rewrite Ha; simpl; intros; rewrite ?Hx by done; lia.
Qed.

(** Replacing parts of the file system object that own nothing. *)
Lemma heap_ok_fs xs xl s f :
  heap_ok xs xl s -> FS.inode_map f = FS.inode_map (fs s) ->
  FS.unref_queue f = FS.unref_queue (fs s) ->
  (forall id p, FS.locations f !! id = Some p ->
     exists l, cloudlogs s !! p = Some l /\ CloudLog.id l = id) ->
  heap_ok xs xl (s <| fs := f |>).
Proof.
  intros [] Hm Hu Hl. split; try done. simpl.
  intros p. assert (log_owners (s <| fs := f |>) p = log_owners s p) as ->; [|apply ho_logs0].
  unfold log_owners, queue_logs. simpl. by rewrite Hm, Hu.
Qed.

(** Freeing an item that is being destroyed. *)
Lemma heap_ok_free_log xs xl s p l :
  heap_ok xs xl s -> cloudlogs s !! p = Some l -> dead l = true ->
  log_owners s p + xl p <= 0 ->
  (forall id, FS.locations (fs s) !! id <> Some p) ->
  heap_ok xs xl (s <| cloudlogs ::= delete p |>).
Proof.
  intros Hok Hp Hd Hz Hloc.
  assert (Hs : forall q, str_owners (s <| cloudlogs ::= delete p |>) q = str_owners s q).
  { intros. unfold str_owners. simpl. rewrite (msum_delete _ _ _ _ Hp).
    unfold log_strs at 2. rewrite Hd. lia. }
  assert (Hl : forall r, log_owners (s <| cloudlogs ::= delete p |>) r = log_owners s r).
  { intros. unfold log_owners, queue_logs. simpl. rewrite (msum_delete _ _ _ _ Hp).
    unfold log_logs at 2. rewrite Hd. lia. }
  split.
  - intros q. rewrite Hs. apply (ho_strs xs xl s Hok).
  - intros r. rewrite Hl. intros Hr. simpl. rewrite lookup_delete_ne by (intros ->; lia).
    by apply (ho_logs xs xl s Hok).
  - apply (ho_files xs xl s Hok).
  - apply (ho_wf xs xl s Hok).
  - intros i r Hi. simpl in *. rewrite lookup_delete_ne.
    + by apply (ho_loc xs xl s Hok).
    + intros ->. by eapply Hloc.
  - intros r l1 Hr. simpl in Hr. apply lookup_delete_Some in Hr as [_ Hr]. by apply (ho_alive xs xl s Hok r).
  - intros r Hr. destruct (ho_fresh xs xl s Hok r Hr) as (? & ? & ?). simpl.
    split_and!; [done| |tauto..]. rewrite lookup_delete_None; auto.
Qed.

(** ** Allocation *)
Definition alloc_str (str : RCStr.t) (s : State) : State :=
  (s <| strs ::= <[next_ptr s := str]> |>) <| next_ptr := Pos.succ (next_ptr s) |>.
Definition alloc_log (l : CloudLog.t) (s : State) : State :=
  (s <| cloudlogs ::= <[next_ptr s := l]> |>) <| next_ptr := Pos.succ (next_ptr s) |>.

Lemma fresh_str_owners xs xl s : heap_ok xs xl s -> str_owners s (next_ptr s) + xs (next_ptr s) <= 0.
Proof.
  intros Hok. destruct (Z.le_gt_cases (str_owners s (next_ptr s) + xs (next_ptr s)) 0); [done|].
  destruct (ho_strs _ _ _ Hok (next_ptr s)) as (? & Hs & _); [lia|].
  destruct (ho_fresh _ _ _ Hok (next_ptr s)) as (Hn & _); [lia|]. congruence.
Qed.

Lemma fresh_log_owners xs xl s : heap_ok xs xl s -> log_owners s (next_ptr s) + xl (next_ptr s) <= 0.
Proof.
  intros Hok. destruct (Z.le_gt_cases (log_owners s (next_ptr s) + xl (next_ptr s)) 0); [done|].
  destruct (ho_logs _ _ _ Hok (next_ptr s)) as (? & Hs & _); [lia|].
  destruct (ho_fresh _ _ _ Hok (next_ptr s)) as (_ & Hn & _); [lia|]. congruence.
Qed.

Lemma heap_ok_alloc_str xs xl s buf :
  heap_ok xs xl s ->
  heap_ok (xadd xs (Some (next_ptr s))) xl
    (alloc_str (RCStr.mk 1 None (RCStr.Owned buf) (zlen buf)) s).
Proof.
  intros Hok. pose proof (fresh_str_owners _ _ _ Hok) as Hz.
  destruct (ho_fresh _ _ _ Hok (next_ptr s)) as (Hf & _); [lia|].
  split; simpl.
  - intros q Hq. change (str_owners (alloc_str _ s) q) with (str_owners s q) in *.
    unfold xadd in *. destruct (decide (q = next_ptr s)) as [->|Hne].
    + rewrite points_self in *. rewrite lookup_insert_eq. eexists. split; [done|]. simpl. lia.
    + rewrite points_ne in * by done. rewrite lookup_insert_ne by done.
      destruct (ho_strs _ _ _ Hok q) as (str & ? & ?); [lia|]. exists str. split; [done|lia].
  - apply (ho_logs _ _ _ Hok).
  - intros f. assert (map_owners (alloc_str (RCStr.mk 1 None (RCStr.Owned buf) (zlen buf)) s) f
                      = map_owners s f) as ->.
    { unfold map_owners. simpl. rewrite msum_insert_fresh by done. simpl.
      rewrite points_None. lia. }
    apply (ho_files _ _ _ Hok).
  - intros q str. destruct (decide (q = next_ptr s)) as [->|Hne].
    + rewrite lookup_insert_eq. intros [= <-]. unfold str_wf. simpl. eauto.
    + rewrite lookup_insert_ne by done. apply (ho_wf _ _ _ Hok).
  - apply (ho_loc _ _ _ Hok).
  - apply (ho_alive _ _ _ Hok).
  - intros p Hp. destruct (ho_fresh _ _ _ Hok p) as (? & ?); [lia|]. split; [|done].
    rewrite lookup_insert_ne; [done|]. lia.
Qed.

Lemma heap_ok_alloc_log xs xl s l :
  heap_ok xs xl s -> CloudLog.refcount l = 1 -> CloudLog.links l = [] ->
  CloudLog.data l = None -> dead l = false ->
  heap_ok xs (xadd xl (Some (next_ptr s))) (alloc_log l s).
Proof.
  intros Hok Hr Hl Hd Ha. pose proof (fresh_log_owners _ _ _ Hok) as Hz.
  destruct (ho_fresh _ _ _ Hok (next_ptr s)) as (_ & Hf & _); [lia|].
  assert (Hso : forall q, str_owners (alloc_log l s) q = str_owners s q).
  { intros. unfold str_owners. simpl. rewrite msum_insert_fresh by done.
    unfold log_strs at 1. rewrite Ha, Hd, points_None. lia. }
  assert (Hlo : forall q, log_owners (alloc_log l s) q = log_owners s q).
  { intros. unfold log_owners, queue_logs. simpl. rewrite msum_insert_fresh by done.
    unfold log_logs at 1. rewrite Ha, Hl. simpl. lia. }
  split; simpl.
  - intros q. rewrite Hso. apply (ho_strs _ _ _ Hok).
  - intros q Hq. rewrite Hlo in *.
    unfold xadd in *. destruct (decide (q = next_ptr s)) as [->|Hne].
    + rewrite points_self in *. rewrite lookup_insert_eq. eexists. split; [done|]. lia.
    + rewrite points_ne in * by done. rewrite lookup_insert_ne by done.
      destruct (ho_logs _ _ _ Hok q) as (l' & ? & ?); [lia|]. exists l'. split; [done|lia].
  - apply (ho_files _ _ _ Hok).
  - apply (ho_wf _ _ _ Hok).
  - intros i p Hi. destruct (ho_loc _ _ _ Hok i p Hi) as (l' & Hl' & ?).
    rewrite lookup_insert_ne; [eauto|]. intros <-. congruence.
  - intros q l'. destruct (decide (q = next_ptr s)) as [->|Hne].
    + rewrite lookup_insert_eq. by intros [= <-].
    + rewrite lookup_insert_ne by done. apply (ho_alive _ _ _ Hok).
  - intros p Hp. destruct (ho_fresh _ _ _ Hok p) as (? & ? & ?); [lia|].
    split_and!; [done| |tauto..]. rewrite lookup_insert_ne; [done|]. lia.
Qed.

Lemma bluesky_string_new_ok xs xl s buf :
  heap_ok xs xl s ->
  wp (bluesky_string_new buf) s (fun q s' =>
    q = next_ptr s /\ s' = alloc_str (RCStr.mk 1 None (RCStr.Owned buf) (zlen buf)) s /\
    heap_ok (xadd xs (Some q)) xl s').
Proof.
  intros Hok. unfold bluesky_string_new. apply wp_alloc.
  split_and!; [done|done|by apply heap_ok_alloc_str].
Qed.

(** Moving references between the data structures and running code, with the
    objects themselves untouched. *)
Lemma heap_ok_move xs xl xs' xl' s s' :
  heap_ok xs xl s ->
  strs s' = strs s -> cloudlogs s' = cloudlogs s -> cachefiles s' = cachefiles s ->
  disk s' = disk s -> FS.locations (fs s') = FS.locations (fs s) ->
  (forall q, str_owners s' q + xs' q = str_owners s q + xs q) ->
  (forall p, log_owners s' p + xl' p = log_owners s p + xl p) ->
  Pos.le (next_ptr s) (next_ptr s') ->
  (forall p, Pos.le (next_ptr s') p -> inodes s' !! p = None /\ records s' !! p = None) ->
  heap_ok xs' xl' s'.
Proof.
  intros Hok Es El Ec Ed Ef Hs Hl Hn Hfr. split.
  - intros q. rewrite Hs, Es. apply (ho_strs _ _ _ Hok).
  - intros p. rewrite Hl, El. apply (ho_logs _ _ _ Hok).
  - intros f. unfold map_owners. rewrite Es, Ec. apply (ho_files _ _ _ Hok).
  - intros q str. rewrite Es. intros Hq. pose proof (ho_wf _ _ _ Hok q str Hq) as Hw.
    unfold str_wf, str_bytes in *. by rewrite Ec, Ed.
  - intros i p. rewrite Ef, El. apply (ho_loc _ _ _ Hok).
  - intros p l. rewrite El. apply (ho_alive _ _ _ Hok).
  - intros p Hp. rewrite Es, El, Ec. destruct (Hfr p Hp).
    destruct (ho_fresh _ _ _ Hok p) as (? & ? & ? & _); [lia|]. done.
Qed.

(** Nothing in the heap. *)
Lemma empty_heap_ok : heap_ok nox nox empty_state.
Proof.
  by split.
Qed.
