(* ===== verification/CloudLog.v ===== *)
(** * Cloud log items (src/bluesky/cloudlog.c, first half)

    Identifiers, creation, accounting, reference counting and the table of known
    items, and the submission of items to the journal
    ([bluesky_log_item_submit] of src/bluesky/log.c). *)

From S2P Require Import Prelude State Strings Ownership.
From Stdlib Require Import ZArith Lia.
From stdpp Require Import base numbers gmap option list.

Open Scope Z_scope.

(** ** Identifiers as text *)

(** The digit [sprintf] prints for a value below sixteen with format x. *)
Definition hex_digit (v : Z) : Z := if v <? 10 then v + 48 else v - 10 + 97.

Definition bluesky_cloudlog_id_to_string (id : BlueSkyCloudID) : bytes :=
  flat_map (fun b => [hex_digit (u8 b / 16); hex_digit (u8 b mod 16)]) id.

(** The value of a character; other characters count as 0 (with a warning). *)
Definition hex_value (c : Z) : Z :=
  if (48 <=? c) && (c <=? 57) then c - 48
  else if (97 <=? c) && (c <=? 102) then c - 97 + 10
  else 0.

(** The loop over the string, [i] counting characters: [None] ends the string. *)
Fixpoint id_from_string_loop (n : nat) (i : nat) (idstr : bytes) (id : BlueSkyCloudID)
    : BlueSkyCloudID :=
  match n with
  | O => id
  | S n =>
    match idstr with
    | [] => id
    | c :: idstr =>
      let val := hex_value c in
      let add := Z.shiftl val (if Nat.odd i then 0 else 4) in
      id_from_string_loop n (S i) idstr (alter (fun b => u8 (b + add)) (Nat.div2 i) id)
    end
  end.

Definition bluesky_cloudlog_id_from_string (idstr : bytes) : BlueSkyCloudID :=
  id_from_string_loop 32 0 idstr id0.

Definition bluesky_cloudlog_equal (a b : BlueSkyCloudID) : bool := bool_decide (a = b).

(** The first four bytes as a host integer. *)
Definition bluesky_cloudlog_hash (id : BlueSkyCloudID) : Z := le_val (take 4 id).

(** The three counters: [cache_log_dirty], [cache_log_journal],
    [cache_log_cloud]. *)
Inductive stats_kind :=
  | InMemory
  | InJournal
  | InCloud.
#[export] Instance stats_kind_eq_dec : EqDecision stats_kind.
Proof. solve_decision. Defined.

Section cloudlog.
Context `{Env}.

Definition bluesky_cloudlog_new_id : M State BlueSkyCloudID := bluesky_crypt_random_bytes 16.

Definition bluesky_cloudlog_new (id : option BlueSkyCloudID) : M State ptr :=
  id ← match id with
       | Some id => mret id
       | None => bluesky_cloudlog_new_id
       end;
  alloc cloudlogs
    (CloudLog.mk 1 LOGTYPE_UNKNOWN 0 0 0 id 0 0 0 CloudPointer.zero 0 0 0 [] None 0).

(** The counter an item is accounted under, if any. *)
Definition stats_counter (l : CloudLog.t) : option stats_kind :=
  if has (CloudLog.location_flags l) CLOUDLOG_CLOUD then Some InCloud
  else if has (CloudLog.location_flags l) CLOUDLOG_JOURNAL then Some InJournal
  else if has (CloudLog.pending_write l) CLOUDLOG_JOURNAL then Some InJournal
  else match CloudLog.data l with Some _ => Some InMemory | None => None end.

Definition stats_add (type : Z) (c : option stats_kind) (f : FS.t) : FS.t :=
  match c with
  | Some InCloud => f <| FS.cache_log_cloud ::= Z.add type |>
  | Some InJournal => f <| FS.cache_log_journal ::= Z.add type |>
  | Some InMemory => f <| FS.cache_log_dirty ::= Z.add type |>
  | None => f
  end.

Definition bluesky_cloudlog_stats_update (log : option ptr) (type : Z) : M State unit :=
  l ← load cloudlogs log;
  modify (fun s => s <| fs ::= stats_add type (stats_counter l) |>).

Definition bluesky_cloudlog_ref (log : option ptr) : M State unit :=
  match log with
  | None => mret tt
  | Some _ => upd cloudlogs log (fun l => l <| CloudLog.refcount ::= Z.add 1 |>)
  end.

(** The start of the destruction of an item whose count has reached zero: it
    leaves the table of items and the statistics and is marked invalid. *)
Definition cloudlog_detach (p : ptr) (l : CloudLog.t) : M State unit :=
  modify (fun s => s <| fs ::= (fun f => f <| FS.locations ::= delete (CloudLog.id l) |>) |>);;
  bluesky_cloudlog_stats_update (Some p) (-1);;
  upd cloudlogs (Some p) (fun l => l <| CloudLog.type := LOGTYPE_INVALID |>).

(** [bluesky_cloudlog_unref].  Destroying an item drops its references to
    others, recursively; every level of the recursion has just brought a
    positive count to zero, which bounds the depth by the number of items. *)
Fixpoint cloudlog_unref_rec (fuel : nat) (log : option ptr) : M State unit :=
  match log with
  | None => mret tt
  | Some p =>
    upd cloudlogs log (fun l => l <| CloudLog.refcount ::= Z.add (-1) |>);;
    l ← load cloudlogs log;
    when (CloudLog.refcount l =? 0)
      match fuel with
      | O => stop OutOfFuel
      | S fuel =>
        l ← load cloudlogs log;
        if 0 <? CloudLog.refcount l then mret tt else
        cloudlog_detach p l;;
        for_each (CloudLog.links l) (cloudlog_unref_rec fuel);;
        bluesky_string_unref (CloudLog.data l);;
        free cloudlogs p
      end
  end.

Definition bluesky_cloudlog_unref (log : option ptr) : M State unit :=
  fun s => cloudlog_unref_rec (S (size (cloudlogs s))) log s.

Definition bluesky_cloudlog_unref_delayed (log : option ptr) : M State unit :=
  match log with
  | None => mret tt
  | Some p => modify (fun s => s <| fs ::= (fun f => f <| FS.unref_queue ::= fun q => q ++ [p] |>) |>)
  end.

(** One iteration of [cloudlog_unref_thread]; [false] if it would block. *)
Definition cloudlog_unref_thread : M State bool :=
  s ← get;
  match FS.unref_queue (fs s) with
  | [] => mret false
  | item :: queue =>
    modify (fun s => s <| fs ::= (fun f => f <| FS.unref_queue := queue |>) |>);;
    bluesky_cloudlog_unref (Some item);;
    mret true
  end.

Definition bluesky_cloudlog_erase (log : option ptr) : M State unit :=
  l ← load cloudlogs log;
  check Assertion (CloudLog.data_lock_count l =? 0);;
  if CloudLog.type l =? LOGTYPE_UNKNOWN then mret tt else
  upd cloudlogs log (fun l => l <| CloudLog.type := LOGTYPE_UNKNOWN |> <| CloudLog.data_size := 0 |>);;
  bluesky_string_unref (CloudLog.data l);;
  upd cloudlogs log (fun l => l <| CloudLog.data := None |> <| CloudLog.data_lock_count := 0 |>);;
  for_each (CloudLog.links l) bluesky_cloudlog_unref;;
  upd cloudlogs log (fun l => l <| CloudLog.links := [] |>).

(** [bluesky_log_item_submit] of src/bluesky/log.c. *)
Definition bluesky_log_item_submit (item : option ptr) : M State unit :=
  l ← load cloudlogs item;
  when (negb (has (CloudLog.location_flags l) CLOUDLOG_JOURNAL))
    (bluesky_cloudlog_ref item;;
     upd cloudlogs item (fun l =>
       l <| CloudLog.location_flags ::= fun f => Z.lor f CLOUDLOG_UNCOMMITTED |>
         <| CloudLog.data_lock_count ::= Z.add 1 |>);;
     p ← assume NullPointer item;
     modify (fun s => s <| log ::= (fun g => g <| Log.queue ::= fun q => q ++ [p] |>) |>)).

Definition bluesky_cloudlog_sync (log : option ptr) : M State unit :=
  bluesky_log_item_submit log.

Definition bluesky_cloudlog_insert_locked (log : option ptr) : M State unit :=
  l ← load cloudlogs log;
  p ← assume NullPointer log;
  modify (fun s => s <| fs ::= (fun f => f <| FS.locations ::= <[CloudLog.id l := p]> |>) |>).

Definition bluesky_cloudlog_insert (log : option ptr) : M State unit :=
  bluesky_cloudlog_insert_locked log.

Definition bluesky_cloudlog_get (id : BlueSkyCloudID) : M State (option ptr) :=
  if bool_decide (id = id0) then mret None else
  s ← get;
  match FS.locations (fs s) !! id with
  | None =>
    item ← bluesky_cloudlog_new (Some id);
    bluesky_cloudlog_stats_update (Some item) 1;;
    bluesky_cloudlog_insert_locked (Some item);;
    mret (Some item)
  | Some item =>
    bluesky_cloudlog_ref (Some item);;
    mret (Some item)
  end.

End cloudlog.

(** ** Reference counting is safe *)
Section unref.
Context `{Env}.

(** The number of items with a positive count. *)
Definition live (s : State) : Z :=
  msum (fun l => if 0 <? CloudLog.refcount l then 1 else 0) (cloudlogs s).

Lemma live_nonneg s : 0 <= live s.
Proof. apply msum_nonneg. intros l. destruct (0 <? _); lia. Qed.

Lemma live_set_log s p l l' :
  cloudlogs s !! p = Some l ->
  live (set_log p l' s)
  = live s - (if 0 <? CloudLog.refcount l then 1 else 0)
    + (if 0 <? CloudLog.refcount l' then 1 else 0).
Proof. intros Hp. unfold live. simpl. by rewrite (msum_insert _ _ _ _ _ Hp). Qed.

Lemma live_size s : live s <= Z.of_nat (size (cloudlogs s)).
Proof.
  unfold live. generalize (cloudlogs s). intros m.
  induction m as [|k a m Hk IH] using map_ind; [by rewrite msum_empty, map_size_empty|].
  rewrite msum_insert_fresh, map_size_insert_None by done.
  destruct (0 <? _); lia.
Qed.

(** A state in which only one item, about to be destroyed, has been changed. *)
Record touched (p : ptr) (s s' : State) : Prop := {
  td_strs : strs s' = strs s;
  td_logs : forall r, r <> p -> cloudlogs s' !! r = cloudlogs s !! r;
  td_files : cachefiles s' = cachefiles s;
  td_inodes : inodes s' = inodes s;
  td_records : records s' = records s;
  td_log : log s' = log s;
  td_log_state : log_state s' = log_state s;
  td_disk : disk s' = disk s;
  td_cloud : cloud s' = cloud s;
  td_next : next_ptr s' = next_ptr s;
  td_loc : forall id r,
    FS.locations (fs s') !! id = Some r -> FS.locations (fs s) !! id = Some r;
  td_fs : exists loc d w j c, fs s' =
    (fs s) <| FS.locations := loc |> <| FS.cache_log_dirty := d |>
         <| FS.cache_log_writeback := w |> <| FS.cache_log_journal := j |>
         <| FS.cache_log_cloud := c |>;
}.

Lemma survive_destroyed s s1 s2 p l :
  cloudlogs s !! p = Some l -> 0 < CloudLog.refcount l ->
  touched p s s1 -> survive s1 s2 -> survive s (s2 <| cloudlogs ::= delete p |>).
Proof.
  intros Hp Hpos Ht Hs. split; simpl.
  - intros q str'. rewrite <- (td_strs _ _ _ Ht). apply (sv_strs _ _ Hs).
  - intros r l' Hr. apply lookup_delete_Some in Hr as [Hne Hr].
    rewrite <- (td_logs _ _ _ Ht) by done. by apply (sv_logs _ _ Hs).
  - intros r l' Hr Hz. assert (r <> p) by (intros ->; simplify_eq; lia).
    rewrite lookup_delete_ne by done. apply (sv_zero _ _ Hs); [|done].
    by rewrite (td_logs _ _ _ Ht).
  - intros f. by rewrite (sv_files _ _ Hs), (td_files _ _ _ Ht).
  - by rewrite (sv_inodes _ _ Hs), (td_inodes _ _ _ Ht).
  - by rewrite (sv_records _ _ Hs), (td_records _ _ _ Ht).
  - by rewrite (sv_log _ _ Hs), (td_log _ _ _ Ht).
  - by rewrite (sv_log_state _ _ Hs), (td_log_state _ _ _ Ht).
  - by rewrite (sv_disk _ _ Hs), (td_disk _ _ _ Ht).
  - by rewrite (sv_cloud _ _ Hs), (td_cloud _ _ _ Ht).
  - by rewrite (sv_next _ _ Hs), (td_next _ _ _ Ht).
  - intros i r Hi. by apply (td_loc _ _ _ Ht), (sv_loc _ _ Hs).
  - destruct (sv_fs _ _ Hs) as (l0&d&w&j&c&E1), (td_fs _ _ _ Ht) as (?&?&?&?&?&E0).
    exists l0, d, w, j, c. rewrite E1, E0. by destruct (fs s).
  - etransitivity; [apply unmaps_same, (td_files _ _ _ Ht)|]. exact (sv_addr _ _ Hs).
Qed.

Lemma stats_add_fs type c f :
  exists d j cl, stats_add type c f =
    f <| FS.cache_log_dirty := d |> <| FS.cache_log_journal := j |> <| FS.cache_log_cloud := cl |>.
Proof.
  exists (FS.cache_log_dirty (stats_add type c f)), (FS.cache_log_journal (stats_add type c f)),
    (FS.cache_log_cloud (stats_add type c f)).
  by destruct f, c as [[]|].
Qed.

Lemma stats_update_ok xs xl s p l type :
  heap_ok xs xl s -> cloudlogs s !! p = Some l ->
  wp (bluesky_cloudlog_stats_update (Some p) type) s (fun _ s' =>
    heap_ok xs xl s' /\ s' = s <| fs ::= stats_add type (stats_counter l) |>).
Proof.
  intros Hok Hp. unfold bluesky_cloudlog_stats_update. wp_step.
  eapply wp_load; [done|]. wp_step. split; [|done].
  change (heap_ok xs xl (s <| fs := stats_add type (stats_counter l) (fs s) |>)).
  destruct (stats_add_fs type (stats_counter l) (fs s)) as (d & j & cl & ->).
  apply heap_ok_fs; try done. apply (ho_loc _ _ _ Hok).
Qed.

Lemma mark_dead_ok xs xl s p l :
  heap_ok xs xl s -> cloudlogs s !! p = Some l -> CloudLog.refcount l = 0 ->
  dead l = false -> log_owners s p + xl p <= 0 ->
  xnn xl ->
  heap_ok (xadd xs (CloudLog.data l)) (xadds xl (CloudLog.links l))
    (set_log p (l <| CloudLog.type := LOGTYPE_INVALID |>) s).
Proof.
  intros Hok Hp Hr Hd Hz Hx. pose proof (log_owners_nonneg s p) as Hnn.
  pose proof (Hx p) as Hxp.
  assert (Hself : log_logs p l = 0).
  { pose proof (msum_elem (log_logs p) (cloudlogs s) p l (log_logs_nonneg p) Hp) as Hle.
    pose proof (log_logs_nonneg p l).
    pose proof (msum_nonneg _ (inodes s) (inode_logs_nonneg p)).
    pose proof (msum_nonneg _ (records s) (fun r => ptrs_nonneg p (SerializedRecord.items r))).
    pose proof (lsum_nonneg _ (FS.inode_map (fs s)) (range_logs_nonneg p)).
    pose proof (ptrs_nonneg p (FS.unref_queue (fs s))).
    pose proof (ptrs_nonneg p (Log.queue (log s))).
    pose proof (ptrs_nonneg p (Log.committed (log s))).
    pose proof (ptrs_nonneg p (CloudLogState.writeback_list (log_state s))).
    unfold log_owners, queue_logs, record_logs in *. lia. }
  eapply heap_ok_set_log; [done|done|done|simpl; lia| | |].
  - intros q. unfold xadd, log_strs. rewrite Hd. simpl. lia.
  - intros r Hne. unfold xadds, log_logs. rewrite Hd. simpl. lia.
  - simpl CloudLog.refcount. rewrite Hr, Hself. unfold xadds. unfold log_logs in *.
    rewrite Hd in Hself. simpl. lia.
Qed.

Lemma cloudlog_unrefs_ok fuel xs :
  (forall xl s p, heap_ok xs (xadd xl p) s -> xnn xl -> live s < Z.of_nat fuel ->
     wp (cloudlog_unref_rec fuel p) s (fun _ s' =>
       heap_ok xs xl s' /\ survive s s' /\ live s' <= live s)) ->
  forall links xl s,
    heap_ok xs (xadds xl links) s -> xnn xl -> live s < Z.of_nat fuel ->
    wp (for_each links (cloudlog_unref_rec fuel)) s (fun _ s' =>
      heap_ok xs xl s' /\ survive s s' /\ live s' <= live s).
Proof.
  intros IH links. induction links as [|o links IHl]; intros xl s Hok Hx Hlive; simpl.
  { rewrite xadds_nil in Hok. done. }
  wp_step. rewrite xadds_cons in Hok.
  eapply wp_mono; [apply IH; [exact Hok|auto with bluesky|done]|].
  intros _ s1 (Hok1 & Hsv1 & Hl1). simpl.
  eapply wp_mono; [apply IHl; [exact Hok1|done|lia]|].
  intros _ s2 (Hok2 & Hsv2 & Hl2). split_and!; [done|by etransitivity|lia].
Qed.

Lemma cloudlog_detach_ok xs xl s p l :
  heap_ok xs xl s -> xnn xl -> cloudlogs s !! p = Some l -> CloudLog.refcount l = 0 ->
  dead l = false ->
  wp (cloudlog_detach p l) s (fun _ s' =>
    heap_ok (xadd xs (CloudLog.data l)) (xadds xl (CloudLog.links l)) s' /\
    cloudlogs s' = <[p := l <| CloudLog.type := LOGTYPE_INVALID |>]> (cloudlogs s) /\
    (forall id, FS.locations (fs s') !! id <> Some p) /\ touched p s s').
Proof.
  intros Hok Hx Hp Hr Hd. unfold cloudlog_detach. wp_step. wp_step. wp_step.
  set (s2 := s <| fs := (fs s) <| FS.locations ::= delete (CloudLog.id l) |> |>).
  change (setf fs _ s) with s2.
  assert (Hok2 : heap_ok xs xl s2).
  { apply heap_ok_fs; [done..|]. intros i r Hi. simpl in Hi.
    apply lookup_delete_Some in Hi as [_ Hi]. by apply (ho_loc _ _ _ Hok). }
  eapply wp_mono; [apply (stats_update_ok xs xl s2 p l); [exact Hok2|exact Hp]|].
  intros _ s3 (Hok3 & Hs3). simpl.
  destruct (stats_add_fs (-1) (stats_counter l) (fs s2)) as (d & j & cl & E). simpl in E.
  assert (Hp3 : cloudlogs s3 !! p = Some l) by (by rewrite Hs3).
  assert (Hz : log_owners s3 p + xl p <= 0).
  { destruct (Z.le_gt_cases (log_owners s3 p + xl p) 0) as [|Hgt]; [done|].
    destruct (ho_logs _ _ _ Hok3 p) as (l3 & Hl3 & Hle); [lia|]. simplify_eq. lia. }
  pose proof (mark_dead_ok xs xl s3 p l Hok3 Hp3 Hr Hd Hz Hx) as Hok4.
  eapply wp_upd; [done|]. split_and!; [exact Hok4|by rewrite Hs3| |].
  - intros i Hi. rewrite Hs3 in Hi. simpl in Hi. rewrite E in Hi. simpl in Hi.
    apply lookup_delete_Some in Hi as [Hne Hi].
    destruct (ho_loc _ _ _ Hok i p Hi) as (l' & Hl' & <-). simplify_eq.
  - rewrite Hs3. split; [done| |done..| |]; simpl.
    + intros r Hne. by rewrite lookup_insert_ne by done.
    + rewrite E. simpl. intros i r Hi. by apply lookup_delete_Some in Hi as [_ ?].
    + rewrite E. exists (delete (CloudLog.id l) (FS.locations (fs s))), d,
        (FS.cache_log_writeback (fs s)), j, cl. done.
Qed.

(** The end of the destruction: nothing refers to the item any more. *)
Lemma cloudlog_free_ok xs xl s s1 s4 s5 s6 p l l1 :
  cloudlogs s !! p = Some l -> 0 < CloudLog.refcount l -> CloudLog.refcount l1 = 0 ->
  s1 = set_log p l1 s -> touched p s1 s4 ->
  cloudlogs s4 !! p = Some (l1 <| CloudLog.type := LOGTYPE_INVALID |>) ->
  (forall id, FS.locations (fs s4) !! id <> Some p) ->
  survive s4 s5 -> survive s5 s6 -> cloudlogs s6 = cloudlogs s5 ->
  live s5 <= live s -> heap_ok xs xl s6 -> xnn xl ->
  wp (free cloudlogs p) s6 (fun _ s' =>
    heap_ok xs xl s' /\ survive s s' /\ live s' <= live s).
Proof.
  intros Hp Hpos E -> Htd Hp4 Hloc Hsv5 Hsv6 Hc6 Hlive Hok6 Hx.
  assert (Hsv46 : survive s4 s6) by (by etransitivity).
  pose proof (sv_zero _ _ Hsv46 _ _ Hp4 ltac:(change (CloudLog.refcount l1 <= 0); lia)) as Hp6.
  eapply wp_free; [done|]. split_and!.
  - eapply heap_ok_free_log; [done|done|done| |].
    + destruct (Z.le_gt_cases (log_owners s6 p + xl p) 0) as [|Hgt]; [done|].
      destruct (ho_logs _ _ _ Hok6 p) as (l6 & Hl6 & Hle); [lia|].
      rewrite Hp6 in Hl6. injection Hl6 as <-.
      change (log_owners s6 p + xl p <= CloudLog.refcount l1) in Hle. lia.
    + intros i Hi. by apply (sv_loc _ _ Hsv46), Hloc in Hi.
  - eapply survive_destroyed; [done|done| |done]. destruct Htd. split; try done.
    intros r Hr. rewrite td_logs0 by done. simpl. by rewrite lookup_insert_ne.
  - unfold live in *. simpl. rewrite (msum_delete _ _ _ _ Hp6), Hc6.
    destruct (0 <? _); lia.
Qed.

Lemma cloudlog_unref_rec_ok fuel xs xl s p :
  heap_ok xs (xadd xl p) s -> xnn xs -> xnn xl -> live s < Z.of_nat fuel ->
  wp (cloudlog_unref_rec fuel p) s (fun _ s' =>
    heap_ok xs xl s' /\ survive s s' /\ live s' <= live s).
Proof.
  revert xs xl s p. induction fuel as [|fuel IH]; intros xs xl s p Hok Hxs Hxl Hlive.
  { pose proof (live_nonneg s). lia. }
  destruct p as [p|]; [|rewrite xadd_None in Hok; by simpl].
  destruct (heap_ok_log _ _ _ _ Hok Hxl) as (l & Hp & Hn).
  pose proof (log_owners_nonneg s p) as Hnn. pose proof (Hxl p) as Hxp.
  set (l1 := l <| CloudLog.refcount := -1 + CloudLog.refcount l |>).
  assert (Hok1 : heap_ok xs xl (set_log p l1 s)).
  { eapply heap_ok_log_refcount; [done|done|lia| |lia].
    intros r Hr. unfold xadd. rewrite points_ne by done. lia. }
  assert (Hp1 : cloudlogs (set_log p l1 s) !! p = Some l1) by (simpl; apply lookup_insert_eq).
  assert (Hsv1 : survive s (set_log p l1 s)) by (apply survive_log_refcount; [done|lia]).
  pose proof (live_set_log s p l l1 Hp) as Hlive1.
  rewrite (proj2 (Z.ltb_lt 0 (CloudLog.refcount l))) in Hlive1 by lia.
  simpl cloudlog_unref_rec. wp_step. eapply wp_upd; [done|].
  change (setf cloudlogs _ s) with (set_log p l1 s).
  wp_step. eapply wp_load; [done|]. unfold when.
  destruct (CloudLog.refcount l1 =? 0) eqn:E.
  2: { wp_step. split_and!; [done|done|]. destruct (0 <? CloudLog.refcount l1); lia. }
  apply Z.eqb_eq in E. rewrite E in Hlive1. simpl in Hlive1.
  wp_step. eapply wp_load; [done|]. rewrite (proj2 (Z.ltb_ge _ _)) by lia.
  assert (Hd : dead l1 = false)
    by (change (dead l = false); apply (ho_alive _ _ _ Hok p); [done|lia]).
  wp_step. eapply wp_mono; [by apply (cloudlog_detach_ok xs xl _ p l1)|].
  intros _ s4 (Hok4 & Hc4 & Hloc4 & Htd). simpl.
  assert (Hp4 : cloudlogs s4 !! p = Some (l1 <| CloudLog.type := LOGTYPE_INVALID |>))
    by (rewrite Hc4; apply lookup_insert_eq).
  assert (Hlive4 : live s4 = live s - 1).
  { assert (live s4 = live (set_log p (l1 <| CloudLog.type := LOGTYPE_INVALID |>) (set_log p l1 s)))
      as -> by (unfold live; by rewrite Hc4).
    rewrite (live_set_log _ p l1) by done.
    change (CloudLog.refcount (l1 <| CloudLog.type := _ |>)) with (CloudLog.refcount l1). lia. }
  wp_step.
  eapply wp_mono; [apply (cloudlog_unrefs_ok fuel (xadd xs (CloudLog.data l1))) with (xl := xl);
    [intros; by apply IH; auto with bluesky|exact Hok4|done|lia]|].
  intros _ s5 (Hok5 & Hsv5 & Hlive5). simpl. wp_step.
  eapply wp_mono; [apply bluesky_string_unref_ok; [exact Hok5|done]|].
  intros _ s6 (Hok6 & Hsv6 & Hc6 & Hf6). simpl.
  apply (cloudlog_free_ok xs xl s (set_log p l1 s) s4 s5 s6 p l l1); done || lia.
Qed.

Lemma bluesky_cloudlog_unref_ok xs xl s p :
  heap_ok xs (xadd xl p) s -> xnn xs -> xnn xl ->
  wp (bluesky_cloudlog_unref p) s (fun _ s' => heap_ok xs xl s' /\ survive s s').
Proof.
  intros Hok Hxs Hxl. eapply wp_mono with (P := fun _ s' => _ /\ _ /\ _).
  - apply (cloudlog_unref_rec_ok _ xs xl s p); [done..|]. pose proof (live_size s). lia.
  - tauto.
Qed.

Lemma bluesky_cloudlog_ref_ok xs xl s p l :
  heap_ok xs xl s -> cloudlogs s !! p = Some l -> 0 < CloudLog.refcount l ->
  log_owners s p + xl p <= CloudLog.refcount l ->
  wp (bluesky_cloudlog_ref (Some p)) s (fun _ s' =>
    heap_ok xs (xadd xl (Some p)) s' /\ survive s s' /\
    s' = set_log p (l <| CloudLog.refcount := 1 + CloudLog.refcount l |>) s).
Proof.
  intros Hok Hp Hpos Hle. unfold bluesky_cloudlog_ref. eapply wp_upd; [done|].
  split_and!; [|by apply survive_log_refcount|done].
  eapply heap_ok_log_refcount; [done|done|done| |].
  - intros r Hr. unfold xadd. rewrite points_ne by done. lia.
  - unfold xadd. rewrite points_self. lia.
Qed.

Definition new_log (id : BlueSkyCloudID) : CloudLog.t :=
  CloudLog.mk 1 LOGTYPE_UNKNOWN 0 0 0 id 0 0 0 CloudPointer.zero 0 0 0 [] None 0.

Lemma heap_ok_randoms xs xl s n : heap_ok xs xl s -> heap_ok xs xl (s <| randoms := n |>).
Proof. by intros []. Qed.

Lemma heap_ok_ticks xs xl s n : heap_ok xs xl s -> heap_ok xs xl (s <| ticks := n |>).
Proof. by intros []. Qed.

Lemma bluesky_cloudlog_new_ok xs xl s :
  heap_ok xs xl s ->
  wp (bluesky_cloudlog_new None) s (fun p s' =>
    p = next_ptr s /\ exists id, s' = alloc_log (new_log id) (s <| randoms ::= S |>) /\
    heap_ok xs (xadd xl (Some p)) s').
Proof.
  intros Hok. unfold bluesky_cloudlog_new, bluesky_cloudlog_new_id, bluesky_crypt_random_bytes.
  repeat wp_step. apply wp_alloc. split; [done|].
  exists (gcry_random (randoms s) 16). split; [done|].
  apply (heap_ok_alloc_log xs xl (s <| randoms := S (randoms s) |>)
           (new_log (gcry_random (randoms s) 16))); try done.
  by apply heap_ok_randoms.
Qed.

End unref.

(** ** Destroying objects does not look at inodes

    A block gives up its reference after the call that drops it; since that call
    neither reads nor writes inodes, the order does not matter. *)
Definition inode_blind {A} (m : M State A) : Prop := forall s g,
  m (s <| inodes := g |>)
  = match m s with Ok a s' => Ok a (s' <| inodes := g |>) | Stop e => Stop e end.

Lemma blind_ret {A} (a : A) : inode_blind (mret a).
Proof. done. Qed.

Lemma blind_stop {A} e : inode_blind (A := A) (stop e).
Proof. done. Qed.

Lemma blind_bind {A B} (m : M State A) (k : A -> M State B) :
  inode_blind m -> (forall a, inode_blind (k a)) -> inode_blind (m ≫= k).
Proof.
  intros Hm Hk s g. unfold mbind, M_bind. rewrite Hm. destruct (m s); [apply Hk|done].
Qed.

Lemma blind_assume {A} e (o : option A) : inode_blind (assume e o).
Proof. by destruct o. Qed.

Lemma blind_modify f :
  (forall s g, f (s <| inodes := g |>) = (f s) <| inodes := g |>) -> inode_blind (modify f).
Proof. intros Hf s g. unfold modify. by rewrite Hf. Qed.

Lemma blind_when b (m : M State unit) : inode_blind m -> inode_blind (when b m).
Proof. by destruct b. Qed.

Lemma blind_for_each {A} (l : list A) (f : A -> M State unit) :
  (forall a, inode_blind (f a)) -> inode_blind (for_each l f).
Proof. intros Hf. induction l; simpl; [apply blind_ret|]. by apply blind_bind. Qed.

Section blind.
Context {A : Type} (heap : State -> gmap ptr A) `{!Setter heap}.
Context (Hget : forall s g, heap (s <| inodes := g |>) = heap s).
Context (Hset : forall s g f, (s <| inodes := g |>) <| heap ::= f |> = (s <| heap ::= f |>) <| inodes := g |>).

Lemma blind_load p : inode_blind (load heap p).
Proof using Hget.
  intros s g. unfold load, get, mbind, M_bind, assume. destruct p; simpl; [|done].
  rewrite Hget. by destruct (heap s !! _).
Qed.

Lemma blind_upd p f : inode_blind (upd heap p f).
Proof using Hget Hset.
  unfold upd. apply blind_bind; [apply blind_assume|]. intros q.
  apply blind_bind; [apply blind_load|]. intros v. apply blind_modify. intros. by rewrite Hset.
Qed.

Lemma blind_free p : inode_blind (free heap p).
Proof using Hget Hset.
  unfold free. apply blind_bind; [apply blind_load|]. intros _.
  apply blind_modify. intros. by rewrite Hset.
Qed.
End blind.

Ltac blind :=
  repeat first
    [ apply blind_ret | apply blind_stop | apply blind_assume | apply blind_when
    | apply blind_load; done | apply blind_upd; done | apply blind_free; done
    | apply blind_modify; done
    | apply blind_bind; [|intros ?]
    | match goal with |- inode_blind (match ?x with _ => _ end) => destruct x end ].

Lemma blind_string_unref q : inode_blind (bluesky_string_unref q).
Proof. unfold bluesky_string_unref, bluesky_mmap_unref, check. blind. Qed.

Lemma blind_unref_rec fuel p : inode_blind (cloudlog_unref_rec fuel p).
Proof.
  revert p. induction fuel as [|fuel IH]; intros p; simpl;
    unfold cloudlog_detach, bluesky_cloudlog_stats_update; blind.
  - apply blind_for_each, IH.
  - apply blind_string_unref.
Qed.

Lemma blind_cloudlog_unref p : inode_blind (bluesky_cloudlog_unref p).
Proof. intros s g. apply blind_unref_rec. Qed.

(** A run that does not look at the inodes can be reasoned about with others. *)
Lemma blind_wp {A} (m : M State A) s g (Q : A -> State -> Prop) :
  inode_blind m -> wp m (s <| inodes := g |>) Q ->
  wp m s (fun a s' => Q a (s' <| inodes := g |>) /\ inodes s' = inodes s).
Proof.
  intros Hm. unfold wp. rewrite Hm. pose proof (Hm s (inodes s)) as Hin.
  assert (s <| inodes := inodes s |> = s) as E by (by destruct s). rewrite E in Hin.
  destruct (m s) as [a s'|]; [|done]. injection Hin as Hin. intros HQ. split; [done|].
  by rewrite Hin.
Qed.

(** Dropping a reference that an inode still records: [g] are the inodes without
    it. *)
Lemma unref_recorded_ok `{Env} xs xl s g p :
  heap_ok xs (xadd xl p) (s <| inodes := g |>) -> xnn xs -> xnn xl ->
  wp (bluesky_cloudlog_unref p) s (fun _ s' =>
    heap_ok xs xl (s' <| inodes := g |>) /\
    survive (s <| inodes := g |>) (s' <| inodes := g |>) /\ inodes s' = inodes s).
Proof.
  intros Hok Hxs Hxl. eapply wp_mono.
  - eapply blind_wp; [apply blind_cloudlog_unref|by apply bluesky_cloudlog_unref_ok].
  - cbv beta. tauto.
Qed.
