(* ===== verification/Lru.v ===== *)
(** * LRU lists of inodes (src/bluesky/util.c)

    The three lists of the file system object are kept with a head whose [next]
    is the first link and whose [prev] is the last one; inodes remember their own
    link.  The operations and the list they maintain. *)

From S2P Require Import Prelude State.
From Stdlib Require Import ZArith Lia.
From stdpp Require Import base numbers gmap option list.

Open Scope Z_scope.

(** [item->prev] for a link of the list. *)
Fixpoint link_prev (links : list (ptr * ptr)) (item : ptr) : option ptr :=
  match links with
  | (a, _) :: (((b, _) :: _) as links') =>
    if decide (b = item) then Some a else link_prev links' item
  | _ => None
  end.

(** [g_list_last]. *)
Definition last_link (links : list (ptr * ptr)) : option ptr := fst <$> last links.

(** [link->data]. *)
Fixpoint link_data (links : list (ptr * ptr)) (item : ptr) : option ptr :=
  match links with
  | [] => None
  | (a, i) :: links => if decide (a = item) then Some i else link_data links item
  end.

(** [g_list_delete_link]. *)
Fixpoint g_list_delete_link (links : list (ptr * ptr)) (item : ptr) : list (ptr * ptr) :=
  match links with
  | [] => []
  | (a, i) :: links => if decide (a = item) then links else (a, i) :: g_list_delete_link links item
  end.

Definition bluesky_list_unlink (head : ListHead.t) (item : option ptr) : ListHead.t :=
  match item with
  | None => head
  | Some item =>
    let head :=
      if decide (ListHead.prev head = Some item)
      then head <| ListHead.prev := link_prev (ListHead.next head) item |> else head in
    head <| ListHead.next ::= fun l => g_list_delete_link l item |>
  end.

(** [link] is the freshly allocated list element. *)
Definition bluesky_list_prepend (head : ListHead.t) (link inode : ptr) : ListHead.t :=
  let head := head <| ListHead.next ::= cons (link, inode) |> in
  match ListHead.prev head with
  | None => head <| ListHead.prev := last_link (ListHead.next head) |>
  | Some _ => head
  end.

(** [None]: the assertion on the tail pointer fails. *)
Definition bluesky_list_append (head : ListHead.t) (link inode : ptr) : option ListHead.t :=
  match ListHead.next head with
  | [] => Some (bluesky_list_prepend head link inode)
  | next =>
    if decide (is_Some (ListHead.prev head) /\ ListHead.prev head = last_link next)
    then Some (head <| ListHead.next ::= fun l => l ++ [(link, inode)] |>
                    <| ListHead.prev := Some link |>)
    else None
  end.

Definition bluesky_list_head (head : ListHead.t) : option ptr :=
  match ListHead.next head with
  | [] => None
  | (_, inode) :: _ => Some inode
  end.

(** The inode of the link [prev] points to. *)
Definition bluesky_list_tail (head : ListHead.t) : option ptr :=
  match ListHead.prev head with
  | None => None
  | Some link => link_data (ListHead.next head) link
  end.

(** The operations on a list of the file system object. *)
Section fs_lists.
Context (which : FS.t -> ListHead.t) `{!Setter which}.

Definition fs_list_unlink (item : option ptr) : M State unit :=
  modify (fun s => s <| fs ::= (fun f => f <| which ::= fun h => bluesky_list_unlink h item |>) |>).

Definition fs_list_prepend (inode : ptr) : M State ptr :=
  link ← gets next_ptr;
  modify (fun s => s <| next_ptr := Pos.succ link |>
    <| fs ::= (fun f => f <| which ::= fun h => bluesky_list_prepend h link inode |>) |>);;
  mret link.
End fs_lists.

(** ** Correctness *)

(** Links are distinct and the tail pointer leads to the last one. *)
Definition list_ok (h : ListHead.t) : Prop :=
  NoDup (ListHead.next h).*1 /\ ListHead.prev h = last_link (ListHead.next h).

Lemma g_list_delete_link_app l1 l2 item i :
  item ∉ l1.*1 -> g_list_delete_link (l1 ++ (item, i) :: l2) item = l1 ++ l2.
Proof.
  induction l1 as [|[a j] l1 IH]; simpl; intros Hn.
  - by rewrite decide_True.
  - rewrite not_elem_of_cons in Hn. destruct Hn as [Hne Hn].
    rewrite decide_False by done. by rewrite IH.
Qed.

Lemma g_list_delete_link_absent l item :
  item ∉ l.*1 -> g_list_delete_link l item = l.
Proof.
  induction l as [|[a j] l IH]; simpl; intros Hn; [done|].
  rewrite not_elem_of_cons in Hn. destruct Hn as [Hne Hn].
  rewrite decide_False by done. by rewrite IH.
Qed.

Lemma link_prev_app l1 a i item j l2 :
  item ∉ (l1 ++ [(a, i)]).*1 ->
  link_prev (l1 ++ (a, i) :: (item, j) :: l2) item = Some a.
Proof.
  induction l1 as [|[b k] l1 IH]; intros Hn.
  - simpl. by rewrite decide_True.
  - simpl in Hn. rewrite not_elem_of_cons in Hn. destruct Hn as [Hne Hn].
    destruct l1 as [|[c k'] l1]; simpl in *.
    + rewrite not_elem_of_cons in Hn. destruct Hn as [Hna _]. rewrite decide_False by done.
      by rewrite decide_True.
    + assert (c <> item) by (intros ->; apply Hn; by left).
      rewrite decide_False by done. by apply IH.
Qed.

Lemma list_prepend_ok h link inode :
  list_ok h -> link ∉ (ListHead.next h).*1 ->
  list_ok (bluesky_list_prepend h link inode) /\
  ListHead.next (bluesky_list_prepend h link inode) = (link, inode) :: ListHead.next h.
Proof.
  intros [Hnd Hprev] Hn. destruct h as [next prev]. unfold bluesky_list_prepend. simpl in *.
  destruct prev as [t|]; simpl; (split; [split; simpl; [by constructor|]|done]); [|done].
  unfold last_link in *. rewrite last_cons. destruct (last next); [done|discriminate].
Qed.

Lemma list_unlink_ok h link inode l1 l2 :
  list_ok h -> ListHead.next h = l1 ++ (link, inode) :: l2 ->
  list_ok (bluesky_list_unlink h (Some link)) /\
  ListHead.next (bluesky_list_unlink h (Some link)) = l1 ++ l2.
Proof.
  intros [Hnd Hprev] E. destruct h as [next prev]. simpl in Hnd, Hprev, E. subst next prev.
  rewrite fmap_app in Hnd. simpl in Hnd. apply NoDup_app in Hnd as (Hnd1 & Hdis & Hnd2).
  inversion Hnd2 as [|? ? Hni Hnd2']; subst.
  assert (Hn1 : link ∉ l1.*1) by (intros Hin; apply (Hdis _ Hin); by left).
  assert (Hnext : ListHead.next (bluesky_list_unlink
     (ListHead.mk (l1 ++ (link, inode) :: l2) (last_link (l1 ++ (link, inode) :: l2)))
     (Some link)) = l1 ++ l2).
  { unfold bluesky_list_unlink. destruct (decide _); simpl; by apply g_list_delete_link_app. }
  unfold list_ok. rewrite Hnext. split; [|done]. split.
  - rewrite fmap_app. apply NoDup_app. split_and!; [done| |done].
    intros x Hx Hx2. apply (Hdis x Hx). by right.
  - clear Hnext. unfold bluesky_list_unlink, last_link. simpl ListHead.prev.
    destruct l2 as [|y l2 _] using rev_ind.
    + rewrite last_snoc. simpl. rewrite decide_True by done. simpl.
      destruct l1 as [|[a i] l1 _] using rev_ind; [done|].
      rewrite app_nil_r, last_snoc, <- app_assoc. simpl. by apply link_prev_app.
    + rewrite app_comm_cons, !app_assoc, !last_snoc. simpl.
      rewrite decide_False; simpl; [done|].
      intros [= Hy]. change (link ∉ (l2 ++ [y]).*1) in Hni. apply Hni. rewrite fmap_app. apply elem_of_app. right.
      simpl. rewrite Hy. by left.
Qed.

Lemma link_data_last l1 t i :
  t ∉ l1.*1 -> link_data (l1 ++ [(t, i)]) t = Some i.
Proof.
  induction l1 as [|[a j] l1 IH]; simpl; intros Hn; [by rewrite decide_True|].
  rewrite not_elem_of_cons in Hn. destruct Hn as [Hne Hn].
  rewrite decide_False by done. by apply IH.
Qed.

(** On a list whose links are distinct and whose tail pointer is its last
    link, taking an inode out and putting it back in front (the move made on
    every access and change) leaves such a list, keeps the order of all other
    inodes, makes the moved inode the head, and the tail operation still returns
    the least recently moved inode. *)
Theorem lru_move_to_front h link inode l1 l2 fresh :
  list_ok h -> ListHead.next h = l1 ++ (link, inode) :: l2 ->
  fresh ∉ (ListHead.next h).*1 ->
  let h' := bluesky_list_prepend (bluesky_list_unlink h (Some link)) fresh inode in
  list_ok h' /\ (ListHead.next h').*2 = inode :: l1.*2 ++ l2.*2 /\
  bluesky_list_head h' = Some inode /\
  bluesky_list_tail h' = last (inode :: l1.*2 ++ l2.*2).
Proof.
  intros Hok E Hf h'. destruct (list_unlink_ok h link inode l1 l2 Hok E) as [Hok1 E1].
  destruct (list_prepend_ok _ fresh inode Hok1) as [Hok2 E2].
  { rewrite E1. rewrite E in Hf. rewrite !fmap_app, !elem_of_app in *. simpl in Hf.
    rewrite elem_of_cons in Hf. tauto. }
  fold h' in Hok2, E2. rewrite E1 in E2.
  split_and!; [done|by rewrite E2; simpl; rewrite fmap_app|by unfold bluesky_list_head; rewrite E2|].
  destruct Hok2 as [Hnd Hp]. unfold bluesky_list_tail. rewrite Hp, E2. unfold last_link.
  rewrite <- fmap_app. change (inode :: (l1 ++ l2).*2) with (((fresh, inode) :: l1 ++ l2).*2).
  rewrite E2 in Hnd. revert Hnd. generalize ((fresh, inode) :: l1 ++ l2). intros l Hnd.
  destruct l as [|[t i] l _] using rev_ind; [done|]. rewrite fmap_app, !last_snoc. simpl.
  rewrite last_snoc. apply link_data_last. rewrite fmap_app in Hnd.
  apply NoDup_app in Hnd as (_ & Hd & _). intros Hin. apply (Hd _ Hin). by left.
Qed.

Lemma lru_move_to_front_witness :
  bluesky_list_tail (bluesky_list_prepend (bluesky_list_unlink
    (ListHead.mk [(1, 10); (2, 20); (3, 30)]%positive (Some 3%positive)) (Some 3%positive))
    4%positive 30%positive) = Some 20%positive.
Proof.
  apply (lru_move_to_front (ListHead.mk [(1, 10); (2, 20); (3, 30)]%positive (Some 3%positive))
           3%positive 30%positive [(1, 10); (2, 20)]%positive [] 4%positive).
  - split; [|reflexivity]. apply (bool_decide_unpack _). vm_compute. exact I.
  - reflexivity.
  - apply (bool_decide_unpack _). vm_compute. exact I.
Defined.
