(* ===== verification/Inodes.v ===== *)
(** * Inodes (src/bluesky/inode.c, first part)

    Change tracking, creation, reference counting and release of inodes.  The
    parts of src/bluesky/inode.c that load and write back inodes are in
    [InodeSync]. *)

From S2P Require Import Prelude State Strings Ownership CloudLog Lru.
From Stdlib Require Import ZArith Lia.
From stdpp Require Import base numbers gmap option list.

Open Scope Z_scope.

Section inodes.
Context `{Env}.

Definition bluesky_inode_update_ctime (inode : option ptr) (update_mtime : bool)
    : M State unit :=
  now ← bluesky_get_current_time;
  upd inodes inode (fun i =>
    i <| Inode.change_count ::= fun n => u64 (n + 1) |> <| Inode.ctime := now |>);;
  when update_mtime (upd inodes inode (fun i => i <| Inode.mtime := now |>));;
  i ← load inodes inode;
  when (Inode.change_time i =? 0)
    (upd inodes inode (fun i => i <| Inode.change_time := now |>));;
  p ← assume NullPointer inode;
  i ← load inodes inode;
  fs_list_unlink FS.unlogged_list (Inode.unlogged_list i);;
  link ← fs_list_prepend FS.unlogged_list p;
  upd inodes inode (fun i => i <| Inode.unlogged_list := Some link |>);;
  i ← load inodes inode;
  fs_list_unlink FS.accessed_list (Inode.accessed_list i);;
  link ← fs_list_prepend FS.accessed_list p;
  upd inodes inode (fun i => i <| Inode.accessed_list := Some link |>).

Definition bluesky_inode_ref (inode : option ptr) : M State unit :=
  upd inodes inode (fun i => i <| Inode.refcount ::= Z.add 1 |>).

Definition bluesky_inode_free_resources (inode : option ptr) : M State unit :=
  i ← load inodes inode;
  if Inode.type i =? BLUESKY_REGULAR then
    match Inode.blocks i with
    | None => mret tt
    | Some blocks =>
      for_each blocks (fun b =>
        check Fatal (negb (bool_decide (Block.type b = Block.DIRTY)));;
        bluesky_cloudlog_unref (Block.ref b);;
        bluesky_string_unref (Block.dirty b));;
      upd inodes inode (fun i => i <| Inode.blocks := None |>)
    end
  else if Inode.type i =? BLUESKY_DIRECTORY then
    upd inodes inode (fun i =>
      i <| Inode.dirhash := None |> <| Inode.dirhash_folded := None |>
        <| Inode.dirents := None |>)
  else if Inode.type i =? BLUESKY_SYMLINK then
    upd inodes inode (fun i => i <| Inode.symlink_contents := None |>)
  else mret tt.

Definition bluesky_inode_unref (inode : option ptr) : M State unit :=
  upd inodes inode (fun i => i <| Inode.refcount ::= Z.add (-1) |>);;
  i ← load inodes inode;
  when (Inode.refcount i =? 0)
    (fs_list_unlink FS.accessed_list (Inode.accessed_list i);;
     fs_list_unlink FS.dirty_list (Inode.dirty_list i);;
     fs_list_unlink FS.unlogged_list (Inode.unlogged_list i);;
     bluesky_inode_free_resources inode;;
     p ← assume NullPointer inode;
     free inodes p).

Definition bluesky_fs_alloc_inode : M State Z :=
  f ← gets fs;
  modify (fun s => s <| fs ::= (fun f => f <| FS.next_inum ::= fun n => u64 (n + 1) |>) |>);;
  mret (FS.next_inum f).

Definition bluesky_init_inode (i : option ptr) (type : Z) : M State unit :=
  upd inodes i (fun i => i <| Inode.type := type |>);;
  if type =? BLUESKY_REGULAR then
    upd inodes i (fun i => i <| Inode.blocks := Some [] |>)
  else if type =? BLUESKY_DIRECTORY then
    upd inodes i (fun i =>
      i <| Inode.dirents := Some [] |> <| Inode.dirhash := Some ∅ |>
        <| Inode.dirhash_folded := Some ∅ |>)
  else mret tt.

(** A zeroed inode ([g_new0]). *)
Definition inode_zero : Inode.t :=
  Inode.mk 0 0 0 0 0 0 0 0 0 0 0 0 None None None None 0 0 0 0 0 None None None None 0 None.

Definition bluesky_new_inode (inum type : Z) : M State ptr :=
  i ← alloc inodes (inode_zero <| Inode.refcount := 1 |> <| Inode.inum := inum |>
                               <| Inode.change_count := 1 |>);
  bluesky_init_inode (Some i) type;;
  mret i.

Definition bluesky_insert_inode (inode : option ptr) : M State unit :=
  i ← load inodes inode;
  p ← assume NullPointer inode;
  modify (fun s => s <| fs ::= (fun f => f <| FS.inodes ::= <[Inode.inum i := p]> |>) |>).

(** ** What updating the change time touches *)

(** What an operation on the contents leaves alone. *)
Definition attrs (i : Inode.t) : Z * Z * Z * Z * Z :=
  (Inode.refcount i, Inode.mode i, Inode.uid i, Inode.gid i, Inode.nlink i).

(** The same file contents and references. *)
Definition same_file (i i' : Inode.t) : Prop :=
  Inode.type i' = Inode.type i /\ Inode.size i' = Inode.size i /\
  Inode.blocks i' = Inode.blocks i /\ Inode.committed_item i' = Inode.committed_item i /\
  Inode.dirents i' = Inode.dirents i /\ Inode.dirhash i' = Inode.dirhash i /\
  Inode.dirhash_folded i' = Inode.dirhash_folded i /\ Inode.inum i' = Inode.inum i /\
  Inode.symlink_contents i' = Inode.symlink_contents i /\ attrs i' = attrs i.

(** Only inode [p] and the lists of the file system object change. *)
Record touches_inode (p : ptr) (i : Inode.t) (s s' : State) : Prop := {
  ti_strs : strs s' = strs s;
  ti_logs : cloudlogs s' = cloudlogs s;
  ti_files : cachefiles s' = cachefiles s;
  ti_inodes : inodes s' = <[p := i]> (inodes s);
  ti_records : records s' = records s;
  ti_log : log s' = log s;
  ti_log_state : log_state s' = log_state s;
  ti_disk : disk s' = disk s;
  ti_cloud : cloud s' = cloud s;
  ti_next : Pos.le (next_ptr s) (next_ptr s');
  ti_fs : fs s' =
    (fs s) <| FS.unlogged_list := FS.unlogged_list (fs s') |>
           <| FS.dirty_list := FS.dirty_list (fs s') |>
           <| FS.accessed_list := FS.accessed_list (fs s') |>;
}.

Lemma touches_inode_trans p i1 i2 s1 s2 s3 :
  touches_inode p i1 s1 s2 -> touches_inode p i2 s2 s3 -> touches_inode p i2 s1 s3.
Proof.
  intros A B. split.
  - by rewrite (ti_strs _ _ _ _ B), (ti_strs _ _ _ _ A).
  - by rewrite (ti_logs _ _ _ _ B), (ti_logs _ _ _ _ A).
  - by rewrite (ti_files _ _ _ _ B), (ti_files _ _ _ _ A).
  - by rewrite (ti_inodes _ _ _ _ B), (ti_inodes _ _ _ _ A), insert_insert_eq.
  - by rewrite (ti_records _ _ _ _ B), (ti_records _ _ _ _ A).
  - by rewrite (ti_log _ _ _ _ B), (ti_log _ _ _ _ A).
  - by rewrite (ti_log_state _ _ _ _ B), (ti_log_state _ _ _ _ A).
  - by rewrite (ti_disk _ _ _ _ B), (ti_disk _ _ _ _ A).
  - by rewrite (ti_cloud _ _ _ _ B), (ti_cloud _ _ _ _ A).
  - pose proof (ti_next _ _ _ _ A). pose proof (ti_next _ _ _ _ B). lia.
  - pose proof (ti_fs _ _ _ _ A) as EA. pose proof (ti_fs _ _ _ _ B) as EB.
    rewrite EB at 1. rewrite EA at 1. by destruct (fs s1).
Qed.

(** A change to the inode that keeps the references it holds. *)
Lemma heap_ok_touches xs xl s s' p i i' :
  heap_ok xs xl s -> inodes s !! p = Some i -> touches_inode p i' s s' ->
  (forall q, inode_strs q i' = inode_strs q i) -> (forall r, inode_logs r i' = inode_logs r i) ->
  heap_ok xs xl s'.
Proof.
  intros Hok Hp T Es El. pose proof (ti_fs _ _ _ _ T) as Ef.
  apply (heap_ok_move xs xl _ _ s); try apply T; [done|by rewrite Ef| | |].
  - intros q. unfold str_owners. rewrite (ti_inodes _ _ _ _ T), (ti_logs _ _ _ _ T),
      (ti_records _ _ _ _ T), (msum_insert _ _ _ _ _ Hp), Es. lia.
  - intros q. unfold log_owners, queue_logs. rewrite (ti_inodes _ _ _ _ T), (ti_logs _ _ _ _ T),
      (ti_records _ _ _ _ T), (ti_log _ _ _ _ T), (ti_log_state _ _ _ _ T),
      (msum_insert _ _ _ _ _ Hp), El.
    assert (FS.inode_map (fs s') = FS.inode_map (fs s)) as -> by (by rewrite Ef).
    assert (FS.unref_queue (fs s') = FS.unref_queue (fs s)) as -> by (by rewrite Ef). lia.
  - intros r Hr. rewrite (ti_inodes _ _ _ _ T), (ti_records _ _ _ _ T).
    pose proof (ti_next _ _ _ _ T).
    destruct (ho_fresh _ _ _ Hok r) as (_ & _ & _ & ? & ?); [lia|].
    rewrite lookup_insert_ne by congruence. done.
Qed.

Lemma update_ctime_ok s p i m :
  inodes s !! p = Some i ->
  wp (bluesky_inode_update_ctime (Some p) m) s (fun _ s' =>
    exists i', same_file i i' /\ Inode.change_count i' = u64 (Inode.change_count i + 1) /\
      randoms s' = randoms s /\ touches_inode p i' s s').
Proof.
  intros Hp. unfold bluesky_inode_update_ctime, bluesky_get_current_time.
  unfold fs_list_unlink, fs_list_prepend. wp_run.
  all: eexists; split_and!; cycle -1.
  all: try (split; simpl;
    [reflexivity|reflexivity|reflexivity| |reflexivity..|lia|reflexivity];
    rewrite !insert_insert_eq; reflexivity).
  all: done.
Qed.
End inodes.
