(* ===== verification/Fetch.v ===== *)
(** * The contents of cloud log items

    What the file code relies on when it asks for the data of an item
    ([bluesky_cloudlog_fetch], [bluesky_cloudlog_prefetch]): a class of the two
    operations with their laws, and the bytes an item stands for, whether they
    are in memory or still in the journal or the cloud. *)

From S2P Require Import Prelude State Strings Ownership CloudLog Inodes.
From Stdlib Require Import ZArith Lia.
From stdpp Require Import base numbers gmap option list.

Open Scope Z_scope.

(** The bytes of an item that is not in memory, as a function of the journal
    directory and the cloud. *)
Class Storage := {
  stored : gmap bytes DiskFile.t -> gmap bytes bytes -> CloudLog.t -> option bytes;
  stored_refcount : forall d c l n,
    stored d c (l <| CloudLog.refcount := n |>) = stored d c l;
}.

Section contents.
Context `{Storage}.

Definition item_bytes (s : State) (l : CloudLog.t) : option bytes :=
  match CloudLog.data l with
  | Some q => str ← strs s !! q; str_bytes s str
  | None => stored (disk s) (cloud s) l
  end.

(** Every object of [s] that is still there has kept its bytes. *)
Record keeps (s s' : State) : Prop := {
  kp_strs : forall q str', strs s' !! q = Some str' -> Pos.lt q (next_ptr s) ->
    exists str, strs s !! q = Some str /\ RCStr.data str' = RCStr.data str /\
      RCStr.mmap str' = RCStr.mmap str /\ RCStr.len str' = RCStr.len str /\
      str_bytes s' str' = str_bytes s str;
  kp_logs : forall p l', cloudlogs s' !! p = Some l' -> 0 < CloudLog.refcount l' ->
    Pos.lt p (next_ptr s) ->
    exists l, cloudlogs s !! p = Some l /\ 0 < CloudLog.refcount l /\
      forall b, item_bytes s l = Some b -> item_bytes s' l' = Some b;
  kp_next : Pos.le (next_ptr s) (next_ptr s');
}.

#[export] Instance keeps_preorder : PreOrder keeps.
Proof.
  split.
  - intros s. split; [eauto 10|eauto|lia].
  - intros s1 s2 s3 [A1 A2 A3] [B1 B2 B3]. split; [| |lia].
    + intros q str3 H3 Hlt. destruct (B1 q _ H3) as (str2 & H2 & E2); [lia|].
      destruct (A1 q _ H2) as (str1 & H1 & E1); [lia|]. exists str1. split; [done|].
      intuition congruence.
    + intros p l3 H3 Hr Hlt. destruct (B2 p _ H3 Hr) as (l2 & H2 & Hr2 & E2); [lia|].
      destruct (A2 p _ H2 Hr2) as (l1 & H1 & Hr1 & E1); [lia|]. exists l1. eauto.
Qed.

(** Objects in use lie below the allocation pointer. *)
Lemma heap_ok_str_lt xs xl s q str :
  heap_ok xs xl s -> strs s !! q = Some str -> Pos.lt q (next_ptr s).
Proof.
  intros Hok Hq. destruct (Pos.lt_total q (next_ptr s)) as [|Hge]; [done|].
  destruct (ho_fresh _ _ _ Hok q) as (? & _); [lia|]. congruence.
Qed.

Lemma heap_ok_log_lt xs xl s p l :
  heap_ok xs xl s -> cloudlogs s !! p = Some l -> Pos.lt p (next_ptr s).
Proof.
  intros Hok Hq. destruct (Pos.lt_total p (next_ptr s)) as [|Hge]; [done|].
  destruct (ho_fresh _ _ _ Hok p) as (_ & ? & _); [lia|]. congruence.
Qed.

(** The data of a live item is a string that exists. *)
Lemma heap_ok_log_data xs xl s p l q :
  heap_ok xs xl s -> xnn xs -> cloudlogs s !! p = Some l -> 0 < CloudLog.refcount l ->
  CloudLog.data l = Some q ->
  exists str, strs s !! q = Some str /\ 1 <= str_owners s q <= RCStr.refcount str - xs q.
Proof.
  intros Hok Hx Hp Hr Hd.
  pose proof (msum_elem (log_strs q) (cloudlogs s) p l (log_strs_nonneg q) Hp) as Hle.
  unfold log_strs in Hle at 1. rewrite (ho_alive _ _ _ Hok p l Hp Hr), Hd, points_self in Hle.
  pose proof (msum_nonneg _ (inodes s) (inode_strs_nonneg q)).
  pose proof (msum_nonneg _ (records s) (fun r => points_nonneg q (SerializedRecord.data r))).
  specialize (Hx q).
  assert (1 <= str_owners s q) by (unfold str_owners, record_strs in *; lia).
  destruct (ho_strs _ _ _ Hok q) as (str & Hq & Hn); [lia|]. exists str. split; [done|lia].
Qed.

(** An item gives up its data. *)
Lemma drop_data_ok xs xl s p l q :
  heap_ok xs xl s -> xnn xs -> cloudlogs s !! p = Some l -> 0 < CloudLog.refcount l -> CloudLog.data l = Some q ->
  wp (bluesky_string_unref (CloudLog.data l);;
      upd cloudlogs (Some p) (fun l => l <| CloudLog.data := None |>)) s (fun _ s' =>
    heap_ok xs xl s' /\ exists s1, survive s s1 /\ cloudlogs s1 = cloudlogs s /\ fs s1 = fs s /\
      s' = set_log p (l <| CloudLog.data := None |>) s1).
Proof.
  intros Hok Hx Hp Hr Hq. set (xs1 := fun r => xs r - points r (Some q)).
  assert (Ex : xeq (xadd xs1 (Some q)) xs) by (intros r; unfold xadd, xs1; lia).
  destruct (heap_ok_log_data _ _ _ _ _ _ Hok Hx Hp Hr Hq) as (str & Hstr & Hown).
  wp_step. rewrite Hq. eapply wp_mono; [apply (bluesky_string_unref_gen xs1 xl)|].
  - by rewrite Ex.
  - intros r [= <-]. unfold xs1. rewrite points_self. specialize (Hx q). lia.
  - intros _ s1 (Hok1 & Hsv & El & Ef & _). eapply wp_upd; [by rewrite El|].
    set (l' := l <| CloudLog.data := None |>). change (setf cloudlogs _ s1) with (set_log p l' s1).
    split; [|by exists s1].
    pose proof (ho_alive _ _ _ Hok _ _ Hp Hr) as Ha. eapply heap_ok_set_log; [exact Hok1|by rewrite El|done|done| | |].
    + intros r. unfold log_strs, xs1. change (dead l') with (dead l). rewrite Ha, Hq. simpl. rewrite points_None. lia.
    + intros r _. unfold log_logs. change (dead l') with (dead l). simpl. lia.
    + unfold log_logs. change (dead l') with (dead l). simpl.
      pose proof (owners_refcount _ _ _ _ _ Hok1 (eq_trans (f_equal (lookup p) El) Hp) Hr). lia.
Qed.

Lemma keeps_survive xs xl s s' :
  heap_ok xs xl s' -> xnn xs -> survive s s' -> keeps s s'.
Proof.
  intros Hok Hx Hsv.
  assert (Hstr : forall q str', strs s' !! q = Some str' -> exists str, strs s !! q = Some str /\
    RCStr.data str' = RCStr.data str /\ RCStr.mmap str' = RCStr.mmap str /\
    RCStr.len str' = RCStr.len str /\ str_bytes s' str' = str_bytes s str).
  { intros q str' Hq. destruct (sv_strs _ _ Hsv _ _ Hq) as (str & Hs & E & _). exists str.
    rewrite E at 1 2 3 4. split_and!; [done..|]. by apply survive_str_bytes. }
  split; [eauto| |rewrite (sv_next _ _ Hsv); lia].
  intros p l' Hp Hr _. destruct (sv_logs _ _ Hsv _ _ Hp) as (l & Hl & E). exists l.
  split_and!; [done| |].
  { destruct (Z.lt_ge_cases 0 (CloudLog.refcount l)) as [|Hz]; [done|].
    pose proof (sv_zero _ _ Hsv _ _ Hl Hz). simplify_eq. lia. }
  intros b. unfold item_bytes. assert (CloudLog.data l' = CloudLog.data l) as Ed by (by rewrite E).
  rewrite Ed. destruct (CloudLog.data l) as [q|].
  - destruct (heap_ok_log_data _ _ _ _ _ _ Hok Hx Hp Hr Ed) as (str' & Hq & _).
    destruct (Hstr q _ Hq) as (str & Hs & _ & _ & _ & Eb). rewrite Hq, Hs. simpl. by rewrite Eb.
  - rewrite E, stored_refcount, (sv_disk _ _ Hsv), (sv_cloud _ _ Hsv). done.
Qed.

(** The data pointers of live items are valid. *)
Definition items_valid (s : State) : Prop := forall p l q,
  cloudlogs s !! p = Some l -> 0 < CloudLog.refcount l -> CloudLog.data l = Some q ->
  Pos.lt q (next_ptr s).

Lemma heap_ok_items_valid xs xl s : heap_ok xs xl s -> xnn xs -> items_valid s.
Proof.
  intros Hok Hx p l q Hp Hr Ed.
  destruct (heap_ok_log_data _ _ _ _ _ _ Hok Hx Hp Hr Ed) as (str & Hq & _).
  by eapply heap_ok_str_lt.
Qed.

Lemma keeps_alloc_str s str : items_valid s -> keeps s (alloc_str str s).
Proof.
  intros Hv. split; [| |simpl; lia].
  - intros q str' Hq Hlt. simpl in Hq. rewrite lookup_insert_ne in Hq by lia. eauto 10.
  - intros p l Hp Hr Hlt. simpl in Hp. exists l. split_and!; [done|done|].
    unfold item_bytes. destruct (CloudLog.data l) as [q|] eqn:Ed; [|done]. simpl.
    pose proof (Hv _ _ _ Hp Hr Ed). by rewrite lookup_insert_ne by lia.
Qed.

Lemma keeps_str_refcount s q str n :
  strs s !! q = Some str -> keeps s (set_str_refcount q str n s).
Proof.
  intros Hq. split; [| |simpl; lia].
  - intros r str' Hr _. simpl in Hr. destruct (decide (r = q)) as [->|Hne].
    + rewrite lookup_insert_eq in Hr. injection Hr as <-. eauto 10.
    + rewrite lookup_insert_ne in Hr by done. eauto 10.
  - intros p l Hp Hr _. exists l. split_and!; [done|done|].
    unfold item_bytes. destruct (CloudLog.data l) as [r|]; [|done]. simpl.
    destruct (decide (r = q)) as [->|Hne]; [|by rewrite lookup_insert_ne].
    by rewrite lookup_insert_eq, Hq.
Qed.

(** Changes that leave strings, the items that exist, cache files and storage
    alone. *)
Lemma keeps_items s s' :
  strs s' = strs s ->
  (forall r, Pos.lt r (next_ptr s) -> cloudlogs s' !! r = cloudlogs s !! r) ->
  cachefiles s' = cachefiles s ->
  disk s' = disk s -> cloud s' = cloud s -> Pos.le (next_ptr s) (next_ptr s') -> keeps s s'.
Proof.
  intros Es El Ec Ed Ecl Hn.
  assert (Hb : forall str, str_bytes s' str = str_bytes s str)
    by (intros; unfold str_bytes; by rewrite Ec, Ed).
  split; [| |done].
  - intros q str. rewrite Es. eauto 10.
  - intros p l Hp Hr Hlt. rewrite El in Hp by done. exists l. split_and!; [done|done|].
    intros b. unfold item_bytes. rewrite Es, Ed, Ecl. destruct (CloudLog.data l); [|done].
    destruct (strs s !! _); simpl; by rewrite ?Hb.
Qed.

Lemma keeps_same s s' :
  strs s' = strs s -> cloudlogs s' = cloudlogs s -> cachefiles s' = cachefiles s ->
  disk s' = disk s -> cloud s' = cloud s -> Pos.le (next_ptr s) (next_ptr s') -> keeps s s'.
Proof. intros. apply keeps_items; try done. congruence. Qed.

End contents.

(** Changes to strings (and the mappings behind them) only. *)
Record strs_only (s s' : State) : Prop := {
  so_logs : cloudlogs s' = cloudlogs s;
  so_inodes : inodes s' = inodes s;
  so_records : records s' = records s;
  so_fs : fs s' = fs s;
  so_log : log s' = log s;
  so_log_state : log_state s' = log_state s;
  so_disk : disk s' = disk s;
  so_cloud : cloud s' = cloud s;
  so_files : forall f, cf_view <$> cachefiles s' !! f = cf_view <$> cachefiles s !! f;
  so_addr : unmaps s s';
}.

#[export] Instance strs_only_preorder : PreOrder strs_only.
Proof.
  split.
  - by intros s.
  - intros s1 s2 s3 [] []. split; [congruence..| |by etransitivity]. intros f. congruence.
Qed.

Lemma strs_only_survive s s' :
  survive s s' -> cloudlogs s' = cloudlogs s -> fs s' = fs s -> strs_only s s'.
Proof. intros [] ? ?. by split. Qed.

(** A string that running code holds alone, with memory of its own. *)
Definition exclusive (s : State) (q : ptr) (b : bytes) : Prop :=
  strs s !! q = Some (RCStr.mk 1 None (RCStr.Owned b) (zlen b)).

Section dup.
Context `{Storage}.

(** The reference to [q] becomes one to [q']. *)
Definition xmove (x : ptr -> Z) (q q' : ptr) : ptr -> Z :=
  fun r => x r - points r (Some q) + points r (Some q').

Lemma xmove_xadd x q q' : xeq (xmove (xadd x (Some q)) q q') (xadd x (Some q')).
Proof. intros r. unfold xmove, xadd. lia. Qed.

(** The case of a string with memory of its own. *)
Lemma dup_owned_ok xs xl s q str b :
  heap_ok xs xl s -> items_valid s -> str_owners s q + xs q <= RCStr.refcount str ->
  strs s !! q = Some str -> RCStr.mmap str = None ->
  RCStr.data str = RCStr.Owned b -> RCStr.len str = zlen b ->
  wp (upd strs (Some q) (fun s => s <| RCStr.refcount ::= Z.add (-1) |>);;
      str ← load strs (Some q);
      if RCStr.refcount str =? 0 then
        upd strs (Some q) (fun s => s <| RCStr.refcount ::= Z.add 1 |>);; mret (Some q)
      else
        b ← (s ← get; assume OutOfBounds (str_bytes s str));
        s ← bluesky_string_new b; mret (Some s)) s
    (fun r s' => exists q', r = Some q' /\ heap_ok (xmove xs q q') xl s' /\
       exclusive s' q' b /\ keeps s s' /\ strs_only s s').
Proof.
  intros Hok Hv Hn Hq Em Ed El.
  wp_step. eapply wp_upd; [done|]. wp_step. eapply wp_load; [heap_lookup|]. simpl RCStr.refcount.
  set (s1 := set_str_refcount q str (-1 + RCStr.refcount str) s).
  change (setf strs _ s) with s1.
  destruct (-1 + RCStr.refcount str =? 0) eqn:E.
  - wp_step. eapply wp_upd; [heap_lookup|]. wp_step. exists q.
    lazymatch goal with |- context [heap_ok _ _ ?t] => assert (t = s) as -> end.
    { destruct s, str; simpl in *. unfold s1, set_str_refcount, setf; simpl. f_equal.
      rewrite insert_insert_eq. apply insert_id. rewrite Hq. do 2 f_equal. lia. }
    split_and!; [done| | |reflexivity|reflexivity].
    + revert Hok. apply heap_ok_proper; [|done|done]. intros r. unfold xmove. lia.
    + unfold exclusive. rewrite Hq. destruct str; simpl in *. subst. do 2 f_equal. lia.
  - assert (Hok1 : heap_ok (fun r => xs r - points r (Some q)) xl s1).
    { eapply heap_ok_str_refcount; [done|done| |rewrite points_self; lia].
      intros r Hr. rewrite points_ne by done. lia. }
    wp_step. wp_step. wp_step. wp_step; [unfold str_bytes; simpl; rewrite Ed; done|].
    wp_step. eapply wp_mono; [by apply (bluesky_string_new_ok _ _ _ _ Hok1)|].
    intros q' s2 (Eq & -> & Hok2). wp_step. exists q'. split_and!; [done|done| | |].
    + unfold exclusive. rewrite Eq. simpl. apply lookup_insert_eq.
    + etransitivity; [by apply (keeps_str_refcount s q str)|]. by apply keeps_alloc_str.
    + split; try done. by apply unmaps_same.
Qed.

(** Copy-on-write: the caller's reference is exchanged for a string that nobody
    else refers to and that has the same bytes. *)
Lemma bluesky_string_dup_ok xs xl s q str b :
  heap_ok xs xl s -> xnn xs -> 0 < str_owners s q + xs q ->
  (is_Some (RCStr.mmap str) -> 0 < xs q) ->
  strs s !! q = Some str -> str_bytes s str = Some b ->
  wp (bluesky_string_dup (Some q)) s (fun r s' =>
    exists q', r = Some q' /\ heap_ok (xmove xs q q') xl s' /\ exclusive s' q' b /\
      keeps s s' /\ strs_only s s').
Proof.
  intros Hok Hx Hpos Hmap Hq Hb. pose proof (ho_wf _ _ _ Hok _ _ Hq) as Hwf.
  pose proof (heap_ok_items_valid _ _ _ Hok Hx) as Hv.
  pose proof (heap_ok_str_lt _ _ _ _ _ Hok Hq) as Hlt.
  destruct (ho_strs _ _ _ Hok q Hpos) as (str0 & Hq0 & Hn). simplify_eq.
  unfold bluesky_string_dup, g_memdup. wp_step. eapply wp_load; [done|].
  unfold str_wf in Hwf. destruct (RCStr.mmap str) as [f|] eqn:Em.
  - wp_step. wp_step. wp_step. wp_step; [done|]. wp_step. specialize (Hmap ltac:(eauto)).
    eapply wp_mono; [by apply (bluesky_string_new_ok xs xl)|].
    intros q' s1 (Eq & Es1 & Hok1). wp_step.
    assert (Hnn : xnn (xmove xs q q')).
    { intros r. unfold xmove. specialize (Hx r). pose proof (points_nonneg r (Some q')).
      destruct (decide (r = q)) as [->|]; [rewrite points_self; lia|rewrite (points_ne r q) by done; lia]. }
    assert (Hok1' : heap_ok (xadd (xmove xs q q') (Some q)) xl s1).
    { revert Hok1. apply heap_ok_proper; [|done|done]. intros r. unfold xmove, xadd. lia. }
    eapply wp_mono; [apply bluesky_string_unref_ok; [exact Hok1'|done]|].
    intros _ s2 (Hok2 & Hsv & Hc & Hf & Hoth). wp_step. exists q'.
    split_and!; [done|done| | |].
    + unfold exclusive. rewrite Hoth by (intros [= ->]; lia).
      rewrite Es1, Eq. simpl. apply lookup_insert_eq.
    + etransitivity; [|by eapply keeps_survive].
      rewrite Es1. by apply keeps_alloc_str.
    + etransitivity; [|by apply strs_only_survive]. rewrite Es1. split; try done. by apply unmaps_same.
  - destruct Hwf as (buf & Ed & El).
    assert (buf = b) as -> by (unfold str_bytes in Hb; rewrite Ed in Hb; congruence).
    by apply (dup_owned_ok xs xl s q str b).
Qed.

End dup.

(** Parts of the state the invariant of the storage layer may depend on. *)
Record storage_view (s s' : State) : Prop := {
  vw_disk : disk s' = disk s;
  vw_cloud : cloud s' = cloud s;
  vw_cache : Log.mmap_cache (log s') = Log.mmap_cache (log s);
  vw_files : forall f, cf_view <$> cachefiles s' !! f = cf_view <$> cachefiles s !! f;
  vw_addr : unmaps s s';
}.

Lemma storage_view_same s s' :
  disk s' = disk s -> cloud s' = cloud s -> Log.mmap_cache (log s') = Log.mmap_cache (log s) ->
  cachefiles s' = cachefiles s -> storage_view s s'.
Proof. intros D C M F. split; try done; [intros f; by rewrite F|by apply unmaps_same]. Qed.

Lemma storage_view_strs_only s s' : strs_only s s' -> storage_view s s'.
Proof. intros []. split; [done|done|congruence|done|done]. Qed.

(** Parts of the file system object that fetching leaves alone. *)
Definition fs_core (f : FS.t) : gmap Z ptr * Z * Z :=
  (FS.inodes f, FS.next_inum f, FS.cache_dirty f).

(** The promise of [bluesky_cloudlog_fetch]: afterwards the data of the item is
    in memory, and nothing that was there has changed its contents. *)
Class Fetch `{!Storage} := {
  bluesky_cloudlog_fetch : option ptr -> M State unit;
  bluesky_cloudlog_prefetch : option ptr -> M State unit;
  storage_ok : State -> Prop;
  storage_ok_view : forall s s', storage_view s s' -> storage_ok s -> storage_ok s';
  fetch_ok : forall xs xl s p l b,
    heap_ok xs xl s -> xnn xs -> xnn xl -> storage_ok s ->
    cloudlogs s !! p = Some l -> 0 < CloudLog.refcount l -> item_bytes s l = Some b ->
    wp (bluesky_cloudlog_fetch (Some p)) s (fun _ s' =>
      heap_ok xs xl s' /\ storage_ok s' /\ keeps s s' /\
      inodes s' = inodes s /\ fs_core (fs s') = fs_core (fs s) /\
      exists l' q, cloudlogs s' !! p = Some l' /\ 0 < CloudLog.refcount l' /\
        CloudLog.data l' = Some q /\ item_bytes s' l' = Some b);
  prefetch_ok : forall xs xl s p l b,
    heap_ok xs xl s -> xnn xs -> xnn xl -> storage_ok s ->
    cloudlogs s !! p = Some l -> 0 < CloudLog.refcount l -> item_bytes s l = Some b ->
    wp (bluesky_cloudlog_prefetch (Some p)) s (fun _ s' =>
      heap_ok xs xl s' /\ storage_ok s' /\ keeps s s' /\
      inodes s' = inodes s /\ fs_core (fs s') = fs_core (fs s));
}.

(** ** A proxy with nothing to fetch

    The smallest implementation: every item has its data in memory. *)
#[export] Instance memory_storage : Storage | 100 :=
  {| stored := fun _ _ _ => None; stored_refcount := fun _ _ _ _ => eq_refl |}.

Definition memory_fetch (log : option ptr) : M State unit :=
  l ← load cloudlogs log;
  match CloudLog.data l with Some _ => mret tt | None => stop Fatal end.

Lemma memory_fetch_ok xs xl s p l b :
  heap_ok xs xl s -> xnn xs -> xnn xl -> True ->
  cloudlogs s !! p = Some l -> 0 < CloudLog.refcount l -> item_bytes s l = Some b ->
  wp (memory_fetch (Some p)) s (fun _ s' =>
    heap_ok xs xl s' /\ True /\ keeps s s' /\
    inodes s' = inodes s /\ fs_core (fs s') = fs_core (fs s) /\
    exists l' q, cloudlogs s' !! p = Some l' /\ 0 < CloudLog.refcount l' /\
      CloudLog.data l' = Some q /\ item_bytes s' l' = Some b).
Proof.
  intros Hok _ _ _ Hp Hr Hb. unfold memory_fetch. wp_step. eapply wp_load; [done|].
  unfold item_bytes in Hb. destruct (CloudLog.data l) as [q|] eqn:E; [|done].
  wp_step. split_and!; [done|done|reflexivity|done|done|].
  exists l, q. split_and!; [done..|]. unfold item_bytes. by rewrite E.
Qed.

#[export] Instance memory_fetch_instance : Fetch | 100.
Proof.
  refine {| bluesky_cloudlog_fetch := memory_fetch;
            bluesky_cloudlog_prefetch := fun _ => mret tt;
            storage_ok := fun _ => True |}.
  - done.
  - exact memory_fetch_ok.
  - intros. by split_and!.
Defined.
