(* ===== verification/File.v ===== *)
(** * Regular files (src/bluesky/file.c)

    File data is an array of blocks that are holes, references to committed cloud
    log items, or dirty copies in memory.  The operations on them, and their
    refinement of a plain byte array: what a truncation, a write, a flush or a
    read does to the contents, that committed items never change, and the
    accounting of dirty blocks. *)

From S2P Require Import Prelude State Strings Ownership CloudLog Lru Inodes Fetch.
From Stdlib Require Import ZArith Lia.
From stdpp Require Import base numbers gmap option list.

Open Scope Z_scope.

Abbreviation BS := BLUESKY_BLOCK_SIZE.

(** Access to block [k] of the array of an inode. *)
Definition get_blocks (inode : option ptr) : M State (list Block.t) :=
  i ← load inodes inode; assume NullPointer (Inode.blocks i).

Definition get_block (inode : option ptr) (k : Z) : M State Block.t :=
  blocks ← get_blocks inode; assume OutOfBounds (blocks !! Z.to_nat k).

Definition set_block (inode : option ptr) (k : Z) (f : Block.t -> Block.t) : M State unit :=
  b ← get_block inode k;
  upd inodes inode (fun i => i <| Inode.blocks ::= fmap <[Z.to_nat k := f b]> |>).

Definition add_cache_dirty (n : Z) : M State unit :=
  modify (fun s => s <| fs ::= (fun f => f <| FS.cache_dirty ::= Z.add n |>) |>).

(** [g_array_set_size]: new elements are zeroed. *)
Definition g_array_set_size (blocks : list Block.t) (n : Z) : list Block.t :=
  take (Z.to_nat n) blocks ++ replicate (Z.to_nat n - length blocks) Block.zero.

Definition is_dirty (b : Block.t) : bool := bool_decide (Block.type b = Block.DIRTY).
Definition is_zero (b : Block.t) : bool := bool_decide (Block.type b = Block.ZERO).
Definition is_ref (b : Block.t) : bool := bool_decide (Block.type b = Block.REF).

Section file.
Context `{Env} `{Fetch}.

Definition bluesky_block_fetch (inode : option ptr) (k : Z) : M State unit :=
  block ← get_block inode k;
  if negb (is_ref block) then mret tt else
  bluesky_cloudlog_fetch (Block.ref block);;
  set_block inode k (fun b => b <| Block.type := Block.REF |>).

Definition bluesky_block_touch (inode : option ptr) (i : Z) (preserve : bool) : M State unit :=
  ino ← load inodes inode;
  blocks ← get_blocks inode;
  if negb (i <? zlen blocks) then mret tt else
  block ← get_block inode i;
  let block_len :=
    if i <? zlen blocks - 1 then BS else u64 (Inode.size ino - i * BS) in
  dirty ← match Block.type block with
          | Block.ZERO => d ← bluesky_string_new (replicate (Z.to_nat block_len) 0); mret (Some d)
          | Block.REF =>
            if preserve then
              bluesky_block_fetch inode i;;
              ref ← load cloudlogs (Block.ref block);
              bluesky_string_ref (CloudLog.data ref);;
              bluesky_string_dup (CloudLog.data ref)
            else
              d ← bluesky_string_new (replicate (Z.to_nat block_len) 0); mret (Some d)
          | Block.DIRTY => bluesky_string_dup (Block.dirty block)
          end;
  set_block inode i (fun b => b <| Block.dirty := dirty |>);;
  when (negb (is_dirty block)) (add_cache_dirty 1);;
  set_block inode i (fun b => b <| Block.type := Block.DIRTY |>);;
  bluesky_cloudlog_unref (Block.ref block);;
  set_block inode i (fun b => b <| Block.ref := None |>).

(** The size of the last block of a file. *)
Definition lastblock (size : Z) : Z :=
  let n := size mod BS in if (n =? 0) && (0 <? size) then BS else n.

(** Growth: the last block becomes a full one, padded with zeros. *)
Definition truncate_extend (inode : option ptr) (nblocks lastblock_old : Z) : M State unit :=
  when (0 <? nblocks)
    (b ← get_block inode (nblocks - 1);
     when (negb (is_zero b) && (lastblock_old <? BS))
       (bluesky_block_touch inode (nblocks - 1) true;;
        b ← get_block inode (nblocks - 1);
        d ← load strs (Block.dirty b);
        let old_size := RCStr.len d in
        bluesky_string_resize (Block.dirty b) BS;;
        str_write (Block.dirty b) old_size (replicate (Z.to_nat (BS - old_size)) 0))).

(** Removal of the blocks from [blocks] on. *)
Definition truncate_delete (removed : list Block.t) : M State unit :=
  for_each removed (fun b =>
    when (is_dirty b) (add_cache_dirty (-1));;
    bluesky_string_unref (Block.dirty b);;
    bluesky_cloudlog_unref (Block.ref b)).

(** The new last block gets its proper size. *)
Definition truncate_last (inode : option ptr) (old_len size blocks : Z) : M State unit :=
  when (0 <? blocks)
    (b ← get_block inode (blocks - 1);
     let need_resize := negb (is_zero b) && negb ((size <? old_len) && (lastblock size =? BS)) in
     when need_resize
       (bluesky_block_touch inode (blocks - 1) true;;
        b ← get_block inode (blocks - 1);
        d ← load strs (Block.dirty b);
        let old_size := RCStr.len d in
        let new_size := size - (blocks - 1) * BS in
        bluesky_string_resize (Block.dirty b) new_size;;
        when (old_size <? new_size)
          (str_write (Block.dirty b) old_size (replicate (Z.to_nat (new_size - old_size)) 0)))).

Definition bluesky_file_truncate (inode : option ptr) (size : Z) : M State unit :=
  if negb (size <=? BLUESKY_MAX_FILE_SIZE) then mret tt else
  ino ← load inodes inode;
  if size =? Inode.size ino then mret tt else
  let blocks := (size + BS - 1) / BS in
  old ← get_blocks inode;
  (if zlen old <? blocks then
     truncate_extend inode (zlen old) (lastblock (Inode.size ino));;
     upd inodes inode (fun i =>
       i <| Inode.blocks ::= fmap (fun l => g_array_set_size l blocks) |>)
   else if blocks <? zlen old then
     truncate_delete (drop (Z.to_nat blocks) old);;
     upd inodes inode (fun i =>
       i <| Inode.blocks ::= fmap (fun l => g_array_set_size l blocks) |>)
   else mret tt);;
  truncate_last inode (Inode.size ino) size blocks;;
  upd inodes inode (fun i => i <| Inode.size := size |>);;
  bluesky_inode_update_ctime inode true.

(** The copying loop; every iteration consumes at least one byte. *)
Fixpoint file_write_loop (fuel : nat) (inode : option ptr) (offset : Z) (data : bytes)
    : M State unit :=
  match data with
  | [] => mret tt
  | _ =>
    match fuel with
    | O => stop OutOfFuel
    | S fuel =>
      let block_num := offset / BS in
      let block_offset := offset mod BS in
      let bytes := Z.min (BS - block_offset) (zlen data) in
      ino ← load inodes inode;
      blocks ← get_blocks inode;
      let block_size :=
        if block_num =? zlen blocks - 1 then u64 (Inode.size ino - block_num * BS) else BS in
      let preserve := negb ((block_offset =? 0) && (bytes =? block_size)) in
      bluesky_block_touch inode block_num preserve;;
      b ← get_block inode block_num;
      str_write (Block.dirty b) block_offset (take (Z.to_nat bytes) data);;
      file_write_loop fuel inode (offset + bytes) (drop (Z.to_nat bytes) data)
    end
  end.

(** [data] holds the [len] bytes to write. *)
Definition bluesky_file_write (inode : option ptr) (offset : Z) (data : bytes) : M State unit :=
  ino ← load inodes inode;
  if negb (Inode.type ino =? BLUESKY_REGULAR) then mret tt else
  if negb (offset <? Inode.size ino) then mret tt else
  if negb (zlen data <=? Inode.size ino - offset) then mret tt else
  if zlen data =? 0 then mret tt else
  file_write_loop (length data) inode offset data;;
  bluesky_inode_update_ctime inode true.

(** The bytes of a block [data] of a file, from [block_offset]. *)
Fixpoint file_read_loop (fuel : nat) (inode : option ptr) (offset len : Z) : M State bytes :=
  if len <=? 0 then mret [] else
  match fuel with
  | O => stop OutOfFuel
  | S fuel =>
    let block_num := offset / BS in
    let block_offset := offset mod BS in
    let bytes := Z.min (BS - block_offset) len in
    b ← get_block inode block_num;
    out ← match Block.type b with
          | Block.ZERO => mret (replicate (Z.to_nat bytes) 0)
          | Block.REF =>
            bluesky_block_fetch inode block_num;;
            ref ← load cloudlogs (Block.ref b);
            str_read (CloudLog.data ref) block_offset bytes
          | Block.DIRTY => str_read (Block.dirty b) block_offset bytes
          end;
    rest ← file_read_loop fuel inode (offset + bytes) (len - bytes);
    mret (out ++ rest)
  end.

(** The contents written to the buffer; [None] if the function returns without
    touching it. *)
Definition bluesky_file_read (inode : option ptr) (offset len : Z) : M State (option bytes) :=
  ino ← load inodes inode;
  if (len =? 0) && (offset <=? Inode.size ino) then mret (Some []) else
  if negb (Inode.type ino =? BLUESKY_REGULAR) then mret None else
  if negb (offset <? Inode.size ino) then mret None else
  if negb (u64 len <=? Inode.size ino - offset) then mret None else
  let start_block := offset / BS in
  let end_block := (offset + len - 1) / BS in
  for_each (seqZ start_block (end_block - start_block + 1)) (fun i =>
    b ← get_block inode i;
    when (is_ref b) (bluesky_cloudlog_prefetch (Block.ref b)));;
  out ← file_read_loop (Z.to_nat len) inode offset len;
  mret (Some out).

Definition bluesky_block_flush (inode : option ptr) (k : Z) (log_items : list ptr)
    : M State (list ptr) :=
  ino ← load inodes inode;
  block ← get_block inode k;
  if negb (is_dirty block) then mret log_items else
  check Assertion (match Block.ref block with None => true | Some _ => false end);;
  cloudlog ← bluesky_cloudlog_new None;
  upd cloudlogs (Some cloudlog) (fun l =>
    l <| CloudLog.type := LOGTYPE_DATA |> <| CloudLog.inum := Inode.inum ino |>
      <| CloudLog.data := Block.dirty block |>);;
  bluesky_cloudlog_stats_update (Some cloudlog) 1;;
  bluesky_cloudlog_sync (Some cloudlog);;
  bluesky_cloudlog_ref (Some cloudlog);;
  bluesky_cloudlog_insert (Some cloudlog);;
  set_block inode k (fun b => b <| Block.ref := Some cloudlog |> <| Block.type := Block.REF |>
                                <| Block.dirty := None |>);;
  add_cache_dirty (-1);;
  mret (cloudlog :: log_items).

Fixpoint file_flush_loop (inode : option ptr) (ks : list Z) (log_items : list ptr)
    : M State (list ptr) :=
  match ks with
  | [] => mret log_items
  | k :: ks =>
    log_items ← bluesky_block_flush inode k log_items;
    file_flush_loop inode ks log_items
  end.

Definition bluesky_file_flush (inode : option ptr) (log_items : list ptr) : M State (list ptr) :=
  ino ← load inodes inode;
  if negb (Inode.type ino =? BLUESKY_REGULAR) then mret log_items else
  blocks ← get_blocks inode;
  file_flush_loop inode (seqZ 0 (zlen blocks)) log_items.

Definition bluesky_file_drop_cached (inode : option ptr) : M State unit :=
  ino ← load inodes inode;
  if negb (Inode.type ino =? BLUESKY_REGULAR) then mret tt else
  blocks ← get_blocks inode;
  for_each blocks (fun b =>
    when (is_ref b)
      (ref ← load cloudlogs (Block.ref b);
       match CloudLog.data ref with
       | Some _ =>
         when ((CloudLog.data_lock_count ref =? 0) && negb (CloudLog.location_flags ref =? 0))
           (bluesky_cloudlog_stats_update (Block.ref b) (-1);;
            bluesky_string_unref (CloudLog.data ref);;
            upd cloudlogs (Block.ref b) (fun l => l <| CloudLog.data := None |>);;
            bluesky_cloudlog_stats_update (Block.ref b) 1)
       | None => mret tt
       end)).

End file.

(** ** Invariants *)

Definition set_inode (p : ptr) (i : Inode.t) (s : State) : State :=
  s <| inodes ::= <[p := i]> |>.

Lemma heap_ok_set_inode xs xl xs' xl' s p i i' :
  heap_ok xs xl s -> inodes s !! p = Some i ->
  (forall q, xs' q = xs q + inode_strs q i - inode_strs q i') ->
  (forall r, xl' r = xl r + inode_logs r i - inode_logs r i') ->
  heap_ok xs' xl' (set_inode p i' s).
Proof.
  intros Hok Hp Hs Hl. apply (heap_ok_move xs xl _ _ s); try done; simpl.
  - intros q. rewrite Hs. unfold str_owners. simpl. rewrite (msum_insert _ _ _ _ _ Hp). lia.
  - intros r. rewrite Hl. unfold log_owners, queue_logs. simpl.
    rewrite (msum_insert _ _ _ _ _ Hp). lia.
  - intros r Hr. destruct (ho_fresh _ _ _ Hok r Hr) as (? & ? & ? & ? & ?).
    rewrite lookup_insert_ne; [done|]. congruence.
Qed.

(** The bytes of block [k] in the contents of a file. *)
Definition chunk (k : nat) (c : bytes) : bytes :=
  take (Z.to_nat BS) (drop (k * Z.to_nat BS) c).

Lemma BS_pos : 0 < BS.
Proof. done. Qed.

Lemma lookup_chunk k c j :
  chunk k c !! j = if decide (j < Z.to_nat BS)%nat then c !! (k * Z.to_nat BS + j)%nat else None.
Proof.
  unfold chunk. destruct (decide _).
  - by rewrite lookup_take_lt, lookup_drop by lia.
  - by rewrite lookup_take_ge by lia.
Qed.

Lemma length_chunk k c :
  zlen (chunk k c) = Z.max 0 (Z.min BS (zlen c - Z.of_nat k * BS)).
Proof. unfold chunk. rewrite length_take, length_drop. pose proof BS_pos. lia. Qed.

(** The number of blocks of a file of [n] bytes. *)
Definition nblocks (n : Z) : Z := (n + BS - 1) / BS.

Lemma nblocks_spec n k : k < nblocks n <-> k * BS < n.
Proof.
  unfold nblocks. pose proof BS_pos. split; intros Hk.
  - assert (BS * (k + 1) <= n + BS - 1); [|lia].
    transitivity (BS * ((n + BS - 1) / BS)); [nia|]. apply Z.mul_div_le. lia.
  - apply Z.lt_le_trans with (k + 1); [lia|]. apply Z.div_le_lower_bound; lia.
Qed.

Lemma nblocks_nonneg n : 0 <= n -> 0 <= nblocks n.
Proof. intros. apply Z.div_pos; pose proof BS_pos; lia. Qed.

(** The length the code computes for a block is the length of its bytes. *)
Lemma block_len_chunk (c : bytes) (k : Z) :
  0 <= k < nblocks (zlen c) -> zlen c <= BLUESKY_MAX_FILE_SIZE ->
  (if k <? nblocks (zlen c) - 1 then BS else u64 (zlen c - k * BS))
  = zlen (chunk (Z.to_nat k) c).
Proof.
  intros Hk Hmax. rewrite length_chunk, Z2Nat.id by lia. pose proof BS_pos.
  pose proof (proj1 (nblocks_spec (zlen c) k) ltac:(lia)).
  destruct (Z.ltb_spec k (nblocks (zlen c) - 1)) as [Hlt|Hge].
  - pose proof (proj1 (nblocks_spec (zlen c) (k + 1)) ltac:(lia)). lia.
  - assert (~ (k + 1) * BS < zlen c) by (rewrite <- nblocks_spec; lia).
    rewrite u64_id; [lia|]. unfold BLUESKY_MAX_FILE_SIZE, BLUESKY_BLOCK_SIZE in *. lia.
Qed.

(** A write inside one block. *)
Lemma chunk_write_at (c w : bytes) (k j o : nat) :
  (o + length w <= Z.to_nat BS)%nat -> (k * Z.to_nat BS + o + length w <= length c)%nat ->
  chunk j (write_at c (k * Z.to_nat BS + o) w)
  = if decide (j = k) then write_at (chunk k c) o w else chunk j c.
Proof.
  intros Ho Hc. pose proof BS_pos.
  assert (Hl : (o + length w <= length (chunk k c))%nat).
  { pose proof (length_chunk k c). lia. }
  apply list_eq. intros x. rewrite lookup_chunk, lookup_write_at by lia.
  destruct (decide (j = k)) as [->|Hne].
  - rewrite lookup_write_at by done. rewrite lookup_chunk.
    destruct (decide (x < Z.to_nat BS)%nat).
    + destruct (decide (o <= x < o + length w)%nat).
      * rewrite decide_True by lia. f_equal. lia.
      * by rewrite decide_False by lia.
    + by rewrite decide_False by lia.
  - rewrite lookup_chunk. destruct (decide (x < Z.to_nat BS)%nat); [|done].
    rewrite decide_False; [done|]. nia.
Qed.

Section contents.
Context `{Env} `{Fetch}.

Definition block_ok (s : State) (b : Block.t) (d : bytes) : Prop :=
  match Block.type b with
  | Block.ZERO => Block.ref b = None /\ Block.dirty b = None /\ d = replicate (length d) 0
  | Block.REF => Block.dirty b = None /\ exists p l, Block.ref b = Some p /\
      cloudlogs s !! p = Some l /\ 0 < CloudLog.refcount l /\ item_bytes s l = Some d
  | Block.DIRTY => Block.ref b = None /\ exists q str, Block.dirty b = Some q /\
      strs s !! q = Some str /\ RCStr.data str = RCStr.Owned d
  end.

(** The blocks of [i] stand for the bytes [c]. *)
Definition contents_ok (s : State) (i : Inode.t) (c : bytes) : Prop :=
  exists bl, Inode.blocks i = Some bl /\ zlen bl = nblocks (zlen c) /\
    forall k b, bl !! k = Some b -> block_ok s b (chunk k c).

(** [c] is the contents of the file [i]. *)
Record file_ok (s : State) (i : Inode.t) (c : bytes) : Prop := {
  fo_type : Inode.type i = BLUESKY_REGULAR;
  fo_size : Inode.size i = zlen c;
  fo_max : zlen c <= BLUESKY_MAX_FILE_SIZE;
  fo_blocks : contents_ok s i c;
}.

(** References of blocks are references of the heap. *)
Lemma block_dirty_owned s p i bl k b q :
  inodes s !! p = Some i -> Inode.blocks i = Some bl -> bl !! k = Some b ->
  Block.dirty b = Some q -> 1 <= inode_strs q i <= str_owners s q.
Proof.
  intros Hp Hbl Hk Hq.
  pose proof (msum_elem (inode_strs q) (inodes s) p i (inode_strs_nonneg q) Hp).
  pose proof (lsum_elem (fun b => points q (Block.dirty b)) bl b
                (fun b => points_nonneg _ _) (list_elem_of_lookup_2 _ _ _ Hk)) as Hle.
  simpl in Hle. rewrite Hq, points_self in Hle.
  pose proof (msum_nonneg _ (cloudlogs s) (log_strs_nonneg q)).
  pose proof (msum_nonneg _ (records s) (fun r => points_nonneg q (SerializedRecord.data r))).
  unfold str_owners, record_strs, inode_strs, blocks_of in *. rewrite Hbl in *. simpl in *. lia.
Qed.

Lemma block_ref_owned s p i bl k b r :
  inodes s !! p = Some i -> Inode.blocks i = Some bl -> bl !! k = Some b ->
  Block.ref b = Some r -> 1 <= log_owners s r.
Proof.
  intros Hp Hbl Hk Hr.
  pose proof (msum_elem (inode_logs r) (inodes s) p i (inode_logs_nonneg r) Hp) as Hm.
  pose proof (lsum_elem (fun b => points r (Block.ref b)) bl b
                (fun b => points_nonneg _ _) (list_elem_of_lookup_2 _ _ _ Hk)) as Hle.
  simpl in Hle. rewrite Hr, points_self in Hle.
  assert (1 <= inode_logs r i).
  { unfold inode_logs, blocks_of. rewrite Hbl. simpl.
    pose proof (points_nonneg r (Inode.committed_item i)). lia. }
  enough (msum (inode_logs r) (inodes s) <= log_owners s r) by lia.
  pose proof (msum_nonneg _ (cloudlogs s) (log_logs_nonneg r)).
  pose proof (msum_nonneg _ (records s) (fun x => ptrs_nonneg r (SerializedRecord.items x))).
  pose proof (lsum_nonneg _ (FS.inode_map (fs s)) (range_logs_nonneg r)).
  pose proof (ptrs_nonneg r (FS.unref_queue (fs s))).
  pose proof (ptrs_nonneg r (Log.queue (log s))).
  pose proof (ptrs_nonneg r (Log.committed (log s))).
  pose proof (ptrs_nonneg r (CloudLogState.writeback_list (log_state s))).
  unfold log_owners, queue_logs, record_logs in *. lia.
Qed.

(** Contents survive whatever keeps the objects in use. *)
Lemma block_ok_keeps xs xl xs' xl' s s' p i bl k b d :
  heap_ok xs xl s -> heap_ok xs' xl' s' -> xnn xs' -> xnn xl' -> keeps s s' ->
  inodes s' !! p = Some i -> Inode.blocks i = Some bl -> bl !! k = Some b ->
  block_ok s b d -> block_ok s' b d.
Proof.
  intros Hok Hok' Hxs Hxl Hk Hp Hbl Hb. unfold block_ok. destruct (Block.type b); [done| |].
  - intros (Hd & r & l & Hr & Hl & Hpos & Hbytes). split; [done|].
    pose proof (block_ref_owned _ _ _ _ _ _ _ Hp Hbl Hb Hr). specialize (Hxl r).
    destruct (ho_logs _ _ _ Hok' r) as (l' & Hl' & Hn); [lia|].
    destruct (kp_logs _ _ Hk r l' Hl') as (l0 & Hl0 & _ & Hbb);
      [lia|by eapply heap_ok_log_lt|]. simplify_eq.
    exists r, l'. split_and!; [done|done|lia|auto].
  - intros (Hr & q & str & Hq & Hs & Hd). split; [done|].
    pose proof (block_dirty_owned _ _ _ _ _ _ _ Hp Hbl Hb Hq). specialize (Hxs q).
    destruct (ho_strs _ _ _ Hok' q) as (str' & Hs' & _); [lia|].
    destruct (kp_strs _ _ Hk q str' Hs') as (str0 & Hs0 & Hd0 & _); [by eapply heap_ok_str_lt|].
    simplify_eq. exists q, str'. split_and!; [done|done|]. congruence.
Qed.

Lemma file_ok_keeps xs xl xs' xl' s s' p i c :
  heap_ok xs xl s -> heap_ok xs' xl' s' -> xnn xs' -> xnn xl' -> keeps s s' ->
  inodes s' !! p = Some i -> file_ok s i c -> file_ok s' i c.
Proof.
  intros Hok Hok' Hxs Hxl Hk Hp [Ht Hs Hm (bl & Hbl & Hlen & Hb)].
  split; [done..|]. exists bl. split_and!; [done..|]. intros k b Hkb.
  eapply (block_ok_keeps xs xl xs' xl' s s'); eauto.
Qed.

(** ** Touching a block *)

Lemma wp_get_blocks s p i bl (Q : list Block.t -> State -> Prop) :
  inodes s !! p = Some i -> Inode.blocks i = Some bl -> Q bl s ->
  wp (get_blocks (Some p)) s Q.
Proof.
  intros Hp Hbl HQ. unfold get_blocks. wp_step. eapply wp_load; [done|]. by wp_step.
Qed.

Lemma wp_get_block s p i bl k b (Q : Block.t -> State -> Prop) :
  inodes s !! p = Some i -> Inode.blocks i = Some bl -> bl !! Z.to_nat k = Some b ->
  Q b s -> wp (get_block (Some p) k) s Q.
Proof.
  intros Hp Hbl Hk HQ. unfold get_block. wp_step. eapply wp_get_blocks; [done|done|]. by wp_step.
Qed.

Lemma wp_set_block s p i bl k b f (Q : unit -> State -> Prop) :
  inodes s !! p = Some i -> Inode.blocks i = Some bl -> bl !! Z.to_nat k = Some b ->
  Q tt (set_inode p (i <| Inode.blocks := Some (<[Z.to_nat k := f b]> bl) |>) s) ->
  wp (set_block (Some p) k f) s Q.
Proof.
  intros Hp Hbl Hk HQ. unfold set_block. wp_step. eapply wp_get_block; [done..|].
  eapply wp_upd; [done|]. unfold set_inode in HQ.
  assert (i <| Inode.blocks ::= fmap <[Z.to_nat k := f b]> |>
          = i <| Inode.blocks := Some (<[Z.to_nat k := f b]> bl) |>) as ->; [|done].
  destruct i; simpl in *. by subst.
Qed.

(** The inode with its block replaced. *)
Definition with_block (i : Inode.t) (bl : list Block.t) (k : nat) (b : Block.t) : Inode.t :=
  i <| Inode.blocks := Some (<[k := b]> bl) |>.

Lemma inode_strs_with_block i bl k b b' q :
  Inode.blocks i = Some bl -> bl !! k = Some b ->
  inode_strs q (with_block i bl k b')
  = inode_strs q i - points q (Block.dirty b) + points q (Block.dirty b').
Proof.
  intros Hbl Hk. unfold inode_strs, blocks_of. rewrite Hbl. simpl.
  by rewrite (lsum_insert _ _ _ _ _ Hk).
Qed.

Lemma inode_logs_with_block i bl k b b' r :
  Inode.blocks i = Some bl -> bl !! k = Some b ->
  inode_logs r (with_block i bl k b')
  = inode_logs r i - points r (Block.ref b) + points r (Block.ref b').
Proof.
  intros Hbl Hk. unfold inode_logs, blocks_of. rewrite Hbl. simpl.
  rewrite (lsum_insert _ _ _ _ _ Hk). lia.
Qed.

(** A string held by one owner alone stays so while the owner holds it. *)
Lemma exclusive_survive xs xl s s' q d :
  heap_ok xs xl s' -> survive s s' -> exclusive s q d ->
  1 <= str_owners s' q + xs q -> exclusive s' q d.
Proof.
  intros Hok Hsv Hex Hn. destruct (ho_strs _ _ _ Hok q) as (str' & Hs' & Hle); [lia|].
  destruct (sv_strs _ _ Hsv _ _ Hs') as (str & Hs & E & Hr).
  unfold exclusive in *. rewrite Hex in Hs. injection Hs as <-.
  simpl in Hr. rewrite Hs', E. by replace (RCStr.refcount str') with 1 by lia.
Qed.

(** The end of [bluesky_block_touch]: the block takes the string over and lets
    its item go. *)
Lemma touch_finish s p i bl k b q d :
  inodes s !! p = Some i -> Inode.blocks i = Some bl -> bl !! Z.to_nat k = Some b ->
  heap_ok (fun r => points r (Some q) - points r (Block.dirty b)) nox s ->
  exclusive s q d ->
  wp (set_block (Some p) k (fun b => b <| Block.dirty := Some q |>);;
      when (negb (is_dirty b)) (add_cache_dirty 1);;
      set_block (Some p) k (fun b => b <| Block.type := Block.DIRTY |>);;
      bluesky_cloudlog_unref (Block.ref b);;
      set_block (Some p) k (fun b => b <| Block.ref := None |>)) s (fun _ s' =>
    heap_ok nox nox s' /\ exclusive s' q d /\ keeps s s' /\ storage_view s s' /\
    inodes s' = <[p := with_block i bl (Z.to_nat k) (Block.mk Block.DIRTY None (Some q))]> (inodes s) /\
    fs_core (fs s') = (FS.inodes (fs s), FS.next_inum (fs s),
                       FS.cache_dirty (fs s) + if is_dirty b then 0 else 1)).
Proof.
  intros Hp Hbl Hk Hok Hex. set (n := Z.to_nat k) in *.
  set (i' := with_block i bl n (Block.mk Block.DIRTY None (Some q))).
  set (g := <[p := i']> (inodes s)).
  set (f := if is_dirty b then fs s else (fs s) <| FS.cache_dirty ::= Z.add 1 |>).
  set (t := s <| inodes := g |> <| fs := f |>).
  assert (Hlen : (n < length bl)%nat) by (by eapply lookup_lt_Some).
  assert (Hokt : heap_ok nox (xadd nox (Block.ref b)) t).
  { apply (heap_ok_move _ _ _ _ s t Hok);
      [reflexivity|reflexivity|reflexivity|reflexivity|unfold t, f; by destruct (is_dirty b)| | | |].
    - intros r. unfold str_owners. simpl. unfold g. rewrite (msum_insert _ _ _ _ _ Hp).
      unfold i'. rewrite (inode_strs_with_block i bl n b) by done. simpl. unfold nox. lia.
    - intros r. unfold log_owners, queue_logs. simpl. unfold g. rewrite (msum_insert _ _ _ _ _ Hp).
      unfold i'. rewrite (inode_logs_with_block i bl n b) by done. simpl.
      rewrite points_None. unfold nox, xadd. unfold f. destruct (is_dirty b); simpl; lia.
    - simpl. lia.
    - intros r Hr. simpl. destruct (ho_fresh _ _ _ Hok r Hr) as (? & ? & ? & ? & ?).
      unfold g. rewrite lookup_insert_ne; [done|]. congruence. }
  wp_step. eapply wp_set_block; [done..|].
  wp_step. set (s1 := set_inode p _ s).
  apply wp_mono with (P := fun _ s2 => s2 = s1 <| fs := f |>).
  { unfold f, when. destruct (is_dirty b); [|done]. unfold wp. simpl. by destruct s. }
  intros _ ? ->. wp_step. eapply wp_set_block; [heap_lookup|done|by apply list_lookup_insert_eq|].
  set (s2 := set_inode p _ _).
  assert (Et : s2 <| inodes := g |> = t) by done.
  wp_step. eapply wp_mono; [apply (unref_recorded_ok nox nox s2 g); [by rewrite Et|done..]|].
  rewrite Et. intros _ s3 (Hok3 & Hsv & Hin3).
  eapply wp_set_block; [rewrite Hin3; heap_lookup|done|by apply list_lookup_insert_eq; rewrite length_insert|].
  set (s4 := set_inode p _ s3).
  assert (s4 = s3 <| inodes := g |>) as E4.
  { unfold s4, set_inode, setf. simpl. f_equal. rewrite Hin3. unfold s2. simpl.
    rewrite !insert_insert_eq. unfold g, i', with_block. f_equal.
    rewrite !list_insert_insert_eq. by destruct i. }
  rewrite E4. clear s4 E4.
  assert (Hp3 : inodes (s3 <| inodes := g |>) !! p = Some i') by (simpl; apply lookup_insert_eq).
  split_and!; [done| | | |done|].
  - pose proof (block_dirty_owned _ p i' _ n _ q Hp3 eq_refl
      ltac:(by apply list_lookup_insert_eq) eq_refl) as Hown.
    eapply exclusive_survive; [exact Hok3|exact Hsv|exact Hex|unfold nox; lia].
  - transitivity t; [apply keeps_same; try reflexivity; simpl; lia|].
    by eapply keeps_survive.
  - destruct Hsv. split; [done|done|simpl; by simpl in sv_log; rewrite sv_log|done|done].
  - destruct (sv_fs _ _ Hsv) as (?&?&?&?&?&Ef). rewrite Ef. unfold t, f, fs_core.
    destruct (is_dirty b); simpl; f_equal; lia.
Qed.

(** ** Writing into a string that one block owns alone *)

Definition write_str (q : ptr) (d : bytes) (s : State) : State :=
  s <| strs ::= <[q := RCStr.mk 1 None (RCStr.Owned d) (zlen d)]> |>.

Section only_owner.
Context (s : State) (p : ptr) (i : Inode.t) (bl : list Block.t) (k : nat) (b : Block.t)
  (q : ptr) (d : bytes).
Context (Hok : heap_ok nox nox s) (Hex : exclusive s q d).
Context (Hp : inodes s !! p = Some i) (Hbl : Inode.blocks i = Some bl)
  (Hk : bl !! k = Some b) (Hq : Block.dirty b = Some q).

Lemma only_owner_le : str_owners s q <= 1.
Proof using Hok Hex.
  destruct (Z.le_gt_cases (str_owners s q) 1) as [|Hgt]; [done|].
  destruct (ho_strs _ _ _ Hok q) as (str & Hs & Hle); [unfold nox; lia|].
  unfold exclusive in Hex. rewrite Hex in Hs. injection Hs as <-. simpl in Hle. unfold nox in Hle. lia.
Qed.

Lemma only_owner_item r l :
  cloudlogs s !! r = Some l -> 0 < CloudLog.refcount l -> CloudLog.data l <> Some q.
Proof using Hok Hex Hp Hbl Hk Hq.
  intros Hr Hpos Hd. pose proof only_owner_le.
  pose proof (msum_elem (log_strs q) (cloudlogs s) r l (log_strs_nonneg q) Hr) as Hle.
  unfold log_strs in Hle at 1. rewrite (ho_alive _ _ _ Hok r l Hr Hpos), Hd, points_self in Hle.
  pose proof (block_dirty_owned s p i bl k b q Hp Hbl Hk Hq).
  pose proof (msum_elem (inode_strs q) (inodes s) p i (inode_strs_nonneg q) Hp).
  pose proof (msum_nonneg _ (records s) (fun r => points_nonneg q (SerializedRecord.data r))).
  unfold str_owners, record_strs in *. lia.
Qed.

Lemma only_owner_block p' i' bl' k' b' :
  inodes s !! p' = Some i' -> Inode.blocks i' = Some bl' -> bl' !! k' = Some b' ->
  Block.dirty b' = Some q -> p' = p /\ k' = k.
Proof using Hok Hex Hp Hbl Hk Hq.
  intros Hp' Hbl' Hk' Hq'. pose proof only_owner_le.
  pose proof (block_dirty_owned s p i bl k b q Hp Hbl Hk Hq).
  pose proof (block_dirty_owned s p' i' bl' k' b' q Hp' Hbl' Hk' Hq').
  pose proof (msum_nonneg _ (cloudlogs s) (log_strs_nonneg q)).
  pose proof (msum_nonneg _ (records s) (fun r => points_nonneg q (SerializedRecord.data r))).
  unfold str_owners, record_strs in *.
  destruct (decide (p' = p)) as [->|Hne].
  - split; [done|]. destruct (decide (k' = k)) as [|Hne]; [done|]. simplify_eq.
    pose proof (lsum_two (fun b => points q (Block.dirty b)) bl k' k b' b
      (fun b => points_nonneg _ _) Hne Hk' Hk) as Htwo. simpl in Htwo.
    rewrite Hq, Hq', points_self in Htwo.
    pose proof (msum_elem (inode_strs q) (inodes s) p i (inode_strs_nonneg q) Hp).
    unfold inode_strs, blocks_of in *. rewrite Hbl in *. simpl in *. lia.
  - pose proof (msum_two (inode_strs q) (inodes s) p' p i' i (inode_strs_nonneg q) Hne Hp' Hp).
    lia.
Qed.

Lemma write_str_items d' r l :
  cloudlogs s !! r = Some l -> 0 < CloudLog.refcount l ->
  item_bytes (write_str q d' s) l = item_bytes s l.
Proof using Hok Hex Hp Hbl Hk Hq.
  intros Hr Hpos. unfold item_bytes. pose proof (only_owner_item r l Hr Hpos).
  destruct (CloudLog.data l) as [x|]; [|done]. simpl.
  rewrite lookup_insert_ne by congruence. done.
Qed.

Lemma write_str_block d' p' i' bl' k' b' e :
  inodes s !! p' = Some i' -> Inode.blocks i' = Some bl' -> bl' !! k' = Some b' ->
  (p' <> p \/ k' <> k) -> block_ok s b' e -> block_ok (write_str q d' s) b' e.
Proof using Hok Hex Hp Hbl Hk Hq.
  intros Hp' Hbl' Hk' Hne. unfold block_ok. destruct (Block.type b'); [done| |].
  - intros (Hd & r & l & Hr & Hl & Hpos & Hb). split; [done|]. exists r, l.
    split_and!; [done..|]. by rewrite (write_str_items _ r l).
  - intros (Hr & x & str & Hx & Hs & Hd). split; [done|]. exists x, str.
    split_and!; [done| |done]. simpl. rewrite lookup_insert_ne; [done|]. intros <-.
    destruct (only_owner_block _ _ _ _ _ Hp' Hbl' Hk' Hx). intuition congruence.
Qed.

Lemma heap_ok_write_str d' : heap_ok nox nox (write_str q d' s).
Proof using Hok Hex.
  unfold exclusive in Hex. split; simpl.
  - intros x Hx. change (str_owners (write_str q d' s) x) with (str_owners s x) in *.
    destruct (ho_strs _ _ _ Hok x Hx) as (str & Hs & Hle). destruct (decide (x = q)) as [->|Hne].
    + rewrite lookup_insert_eq. eexists. split; [done|]. rewrite Hex in Hs.
      by injection Hs as <-.
    + rewrite lookup_insert_ne by done. eauto.
  - apply (ho_logs _ _ _ Hok).
  - intros f. assert (map_owners (write_str q d' s) f = map_owners s f) as ->;
      [|apply (ho_files _ _ _ Hok)].
    unfold map_owners. simpl. rewrite (msum_insert _ _ _ _ _ Hex). simpl. lia.
  - intros x str. destruct (decide (x = q)) as [->|Hne].
    + rewrite lookup_insert_eq. intros [= <-]. unfold str_wf. simpl. eauto.
    + rewrite lookup_insert_ne by done. apply (ho_wf _ _ _ Hok).
  - apply (ho_loc _ _ _ Hok).
  - apply (ho_alive _ _ _ Hok).
  - intros x Hx. destruct (ho_fresh _ _ _ Hok x Hx) as (? & ?). split; [|done].
    rewrite lookup_insert_ne; [done|]. congruence.
Qed.
End only_owner.

(** What touching block [k] leaves: the block is dirty, in a string of its own. *)
Definition touched_block (p : ptr) (i : Inode.t) (bl : list Block.t) (k : nat) (b : Block.t)
    (q : ptr) (d : bytes) (s s' : State) : Prop :=
  heap_ok nox nox s' /\ storage_ok s' /\ exclusive s' q d /\ keeps s s' /\
  inodes s' = <[p := with_block i bl k (Block.mk Block.DIRTY None (Some q))]> (inodes s) /\
  fs_core (fs s') = (FS.inodes (fs s), FS.next_inum (fs s),
                     FS.cache_dirty (fs s) + if is_dirty b then 0 else 1).

(** The string is there; the rest of the function follows. *)
Lemma touch_rest s s1 p i bl k b q d :
  inodes s !! p = Some i -> Inode.blocks i = Some bl -> bl !! Z.to_nat k = Some b ->
  heap_ok (fun r => points r (Some q) - points r (Block.dirty b)) nox s1 ->
  storage_ok s1 -> exclusive s1 q d -> keeps s s1 -> inodes s1 = inodes s ->
  fs_core (fs s1) = fs_core (fs s) ->
  wp (set_block (Some p) k (fun b => b <| Block.dirty := Some q |>);;
      when (negb (is_dirty b)) (add_cache_dirty 1);;
      set_block (Some p) k (fun b => b <| Block.type := Block.DIRTY |>);;
      bluesky_cloudlog_unref (Block.ref b);;
      set_block (Some p) k (fun b => b <| Block.ref := None |>)) s1 (fun _ s' =>
    touched_block p i bl (Z.to_nat k) b q d s s').
Proof.
  intros Hp Hbl Hk Hok Hst Hex Hkp Hin Hfs. rewrite <- Hin in Hp.
  eapply wp_mono; [by apply (touch_finish s1 p i bl k b q d)|].
  intros _ s' (Hok' & Hex' & Hkp' & Hvw & Hin' & Hfs').
  split_and!; [done|by eapply storage_ok_view|done|by etransitivity|by rewrite Hin', Hin|].
  rewrite Hfs'. unfold fs_core in Hfs. by injection Hfs as -> -> ->.
Qed.

(** A new block of zeros. *)
Lemma touch_new s p i bl k b n :
  heap_ok nox nox s -> storage_ok s ->
  inodes s !! p = Some i -> Inode.blocks i = Some bl -> bl !! Z.to_nat k = Some b ->
  Block.dirty b = None ->
  wp (dirty ← (d ← bluesky_string_new (replicate n 0); mret (Some d));
      set_block (Some p) k (fun b => b <| Block.dirty := dirty |>);;
      when (negb (is_dirty b)) (add_cache_dirty 1);;
      set_block (Some p) k (fun b => b <| Block.type := Block.DIRTY |>);;
      bluesky_cloudlog_unref (Block.ref b);;
      set_block (Some p) k (fun b => b <| Block.ref := None |>)) s (fun _ s' =>
    exists q, touched_block p i bl (Z.to_nat k) b q (replicate n 0) s s').
Proof.
  intros Hok Hst Hp Hbl Hk Hd. wp_step. wp_step.
  eapply wp_mono; [by apply (bluesky_string_new_ok nox nox)|].
  intros q s1 (Eq & Es & Hok1). wp_step.
  eapply wp_mono; [apply (touch_rest s s1 p i bl k b q (replicate n 0)); try done|].
  - revert Hok1. apply heap_ok_proper; [|done|done]. intros r. rewrite Hd, points_None.
    unfold xadd, nox. lia.
  - eapply storage_ok_view; [|exact Hst]. apply storage_view_same; by rewrite Es.
  - unfold exclusive. rewrite Es, Eq. simpl. apply lookup_insert_eq.
  - rewrite Es. apply keeps_alloc_str. by eapply heap_ok_items_valid.
  - by rewrite Es.
  - by rewrite Es.
  - simpl. eauto.
Qed.

(** A private copy of a string in use. *)
Lemma touch_dup s s1 p i bl k b r str d xs :
  inodes s !! p = Some i -> Inode.blocks i = Some bl -> bl !! Z.to_nat k = Some b ->
  heap_ok xs nox s1 -> xnn xs -> 0 < str_owners s1 r + xs r ->
  (is_Some (RCStr.mmap str) -> 0 < xs r) ->
  strs s1 !! r = Some str -> str_bytes s1 str = Some d ->
  (forall x, xs x - points x (Some r) = - points x (Block.dirty b)) ->
  storage_ok s1 -> keeps s s1 -> inodes s1 = inodes s -> fs_core (fs s1) = fs_core (fs s) ->
  wp (dirty ← bluesky_string_dup (Some r);
      set_block (Some p) k (fun b => b <| Block.dirty := dirty |>);;
      when (negb (is_dirty b)) (add_cache_dirty 1);;
      set_block (Some p) k (fun b => b <| Block.type := Block.DIRTY |>);;
      bluesky_cloudlog_unref (Block.ref b);;
      set_block (Some p) k (fun b => b <| Block.ref := None |>)) s1 (fun _ s' =>
    exists q, touched_block p i bl (Z.to_nat k) b q d s s').
Proof.
  intros Hp Hbl Hk Hok Hx Hpos Hmap Hr Hb Hxs Hst Hkp Hin Hfs. wp_step.
  eapply wp_mono; [by apply (bluesky_string_dup_ok xs nox s1 r str d)|].
  intros o s2 (q & -> & Hok2 & Hex & Hkp2 & Hso). simpl.
  eapply wp_mono; [apply (touch_rest s s2 p i bl k b q d); try done|].
  - revert Hok2. apply heap_ok_proper; [|done|done]. intros x. unfold xmove. rewrite Hxs. lia.
  - eapply storage_ok_view; [by apply storage_view_strs_only|done].
  - by etransitivity.
  - by rewrite (so_inodes _ _ Hso).
  - by rewrite (so_fs _ _ Hso).
  - simpl. eauto.
Qed.

(** Fetching the item of a block brings its bytes in. *)
Lemma block_fetch_ok s p i bl k b d :
  heap_ok nox nox s -> storage_ok s ->
  inodes s !! p = Some i -> Inode.blocks i = Some bl -> bl !! Z.to_nat k = Some b ->
  Block.type b = Block.REF -> block_ok s b d ->
  wp (bluesky_block_fetch (Some p) k) s (fun _ s' =>
    heap_ok nox nox s' /\ storage_ok s' /\ keeps s s' /\ inodes s' = inodes s /\
    fs_core (fs s') = fs_core (fs s) /\
    exists r l q str, Block.ref b = Some r /\ cloudlogs s' !! r = Some l /\
      CloudLog.data l = Some q /\ strs s' !! q = Some str /\ str_bytes s' str = Some d /\
      0 < str_owners s' q).
Proof.
  intros Hok Hst Hp Hbl Hk Ht Hb. unfold bluesky_block_fetch. wp_step.
  eapply wp_get_block; [done..|]. unfold block_ok, is_ref in *. rewrite Ht in *.
  rewrite bool_decide_true by done. simpl. wp_step.
  destruct Hb as (Hd & r & l & Hr & Hl & Hpos & Hbytes). rewrite Hr.
  eapply wp_mono; [by apply (fetch_ok nox nox s r l d)|].
  intros _ s1 (Hok1 & Hst1 & Hkp & Hin & Hfs & l' & q & Hl' & Hpos' & Hq & Hb').
  rewrite <- Hin in Hp. eapply wp_set_block; [done..|].
  assert (set_inode p (i <| Inode.blocks := Some (<[Z.to_nat k := b <| Block.type := Block.REF |>]> bl) |>) s1
          = s1) as ->.
  { assert (b <| Block.type := Block.REF |> = b) as -> by (destruct b; simpl in *; by subst).
    rewrite list_insert_id by done.
    assert (i <| Inode.blocks := Some bl |> = i) as -> by (destruct i; simpl in *; by subst).
    destruct s1; unfold set_inode, setf; simpl in *. f_equal. by apply insert_id. }
  split_and!; [done..|]. exists r, l', q.
  destruct (heap_ok_log_data _ _ _ _ _ _ Hok1 xnn_nox Hl' Hpos' Hq) as (str & Hs & Hn).
  exists str. unfold item_bytes in Hb'. rewrite Hq, Hs in Hb'. simpl in Hb'.
  split_and!; [done..|lia].
Qed.

Lemma block_touch_ok s p i bl k b d preserve :
  heap_ok nox nox s -> storage_ok s ->
  inodes s !! p = Some i -> Inode.blocks i = Some bl -> 0 <= k -> bl !! Z.to_nat k = Some b ->
  block_ok s b d ->
  (Block.type b <> Block.ZERO /\ preserve = true) \/
  (if k <? zlen bl - 1 then BS else u64 (Inode.size i - k * BS)) = zlen d ->
  wp (bluesky_block_touch (Some p) k preserve) s (fun _ s' =>
    exists q d', touched_block p i bl (Z.to_nat k) b q d' s s' /\ length d' = length d /\
      (preserve = true -> d' = d)).
Proof.
  intros Hok Hst Hp Hbl Hk0 Hk Hb Hlen. unfold bluesky_block_touch.
  wp_step. eapply wp_load; [done|]. wp_step. eapply wp_get_blocks; [done..|].
  apply lookup_lt_Some in Hk as Hlt. rewrite (proj2 (Z.ltb_lt k (zlen bl))) by lia. simpl negb.
  cbv iota. wp_step. eapply wp_get_block; [done..|]. cbv zeta.
  set (n := if k <? _ then _ else _) in *. pose proof Hb as Hb0. unfold block_ok in Hb.
  destruct (Block.type b) eqn:Et.
  - destruct Hb as (Hr & Hd & Hz). destruct Hlen as [[? _]|Hlen]; [done|].
    eapply wp_mono; [by apply touch_new|]. intros _ s' (q & Hq). exists q, d.
    rewrite Hlen, Nat2Z.id, <- Hz in Hq. done.
  - destruct Hb as (Hd & _). destruct preserve.
    + wp_step. wp_step. eapply wp_mono; [by apply (block_fetch_ok s p i bl k b d)|].
      intros _ s1 (Hok1 & Hst1 & Hkp & Hin & Hfs & r & l & q & str & Hr & Hl & Hq & Hs & Hbs & Hpos).
      wp_step. rewrite Hr at 1. eapply wp_load; [done|]. wp_step. rewrite Hq.
      eapply wp_mono; [apply (bluesky_string_ref_ok nox nox s1 q); [done|eauto|unfold nox; lia]|].
      intros _ s2 (Hok2 & str' & m & Hs' & Es2). rewrite Hs in Hs'. injection Hs' as <-.
      apply wp_bind_inv.
      eapply wp_mono; [apply (touch_dup s s2 p i bl k b q (str <| RCStr.refcount := m |>) d
        (xadd nox (Some q))); try done; try (rewrite Es2; done)|].
      * auto with bluesky.
      * rewrite Es2. change (str_owners (set_str_refcount q str m s1) q) with (str_owners s1 q).
        unfold xadd, nox. rewrite points_self. lia.
      * intros _. unfold xadd, nox. rewrite points_self. lia.
      * rewrite Es2. simpl. apply lookup_insert_eq.
      * intros x. unfold xadd, nox. rewrite Hd, points_None. lia.
      * eapply storage_ok_view; [|done]. apply storage_view_same; by rewrite Es2.
      * etransitivity; [done|]. rewrite Es2. by apply keeps_str_refcount.
      * intros _ s' (q' & Hq'). eauto.
    + eapply wp_mono; [by apply touch_new|]. intros _ s' (q & Hq). exists q, (replicate (Z.to_nat n) 0).
      split_and!; [done| |done]. destruct Hlen as [[_ ?]|Hlen]; [done|].
      rewrite length_replicate. lia.
  - destruct Hb as (Hr & q & str & Hq & Hs & Hd). rewrite Hq.
    eapply wp_mono; [apply (touch_dup s s p i bl k b q str d nox); try done|].
    + pose proof (block_dirty_owned _ _ _ _ _ _ _ Hp Hbl Hk Hq). unfold nox. lia.
    + intros [f Hf]. pose proof (ho_wf _ _ _ Hok _ _ Hs) as Hw. unfold str_wf in Hw.
      rewrite Hf, Hd in Hw. by destruct Hw as (? & ? & ? & _).
    + unfold str_bytes. by rewrite Hd.
    + intros x. unfold nox. rewrite Hq. lia.
    + intros _ s' (q' & Hq'). eauto.
Qed.

(** ** Steps of operations on one file *)

Definition ndirty (i : Inode.t) : Z :=
  lsum (fun b => if is_dirty b then 1 else 0) (blocks_of i).

(** A well-formed state in which the blocks of the file at [p] stand for [c] (its
    size may be out of step during an operation), and one in which [c] is the
    contents of that file. *)
Definition blocks_state (p : ptr) (i : Inode.t) (c : bytes) (s : State) : Prop :=
  heap_ok nox nox s /\ storage_ok s /\ inodes s !! p = Some i /\ contents_ok s i c.
Definition file_state (p : ptr) (i : Inode.t) (c : bytes) (s : State) : Prop :=
  heap_ok nox nox s /\ storage_ok s /\ inodes s !! p = Some i /\ file_ok s i c.

Lemma file_state_blocks p i c s : file_state p i c s -> blocks_state p i c s.
Proof. intros (? & ? & ? & []). by split_and!. Qed.

(** Everything but the file at [p] is as it was: the other inodes and their
    contents, and the bytes of every item that is still there. *)
Record file_frame (p : ptr) (s s' : State) : Prop := {
  ff_inodes : forall p', p' <> p -> inodes s' !! p' = inodes s !! p';
  ff_files : forall p' i c, p' <> p -> inodes s !! p' = Some i -> file_ok s i c -> file_ok s' i c;
  ff_items : forall r l', cloudlogs s' !! r = Some l' -> 0 < CloudLog.refcount l' ->
    Pos.lt r (next_ptr s) ->
    exists l, cloudlogs s !! r = Some l /\ 0 < CloudLog.refcount l /\
      forall b, item_bytes s l = Some b -> item_bytes s' l' = Some b;
  ff_next : Pos.le (next_ptr s) (next_ptr s');
  ff_fs : FS.inodes (fs s') = FS.inodes (fs s) /\ FS.next_inum (fs s') = FS.next_inum (fs s);
}.

#[export] Instance file_frame_preorder p : PreOrder (file_frame p).
Proof.
  split.
  - intros s. split; eauto. lia.
  - intros s1 s2 s3 [A1 A2 A3 A4 A5] [B1 B2 B3 B4 B5]. split.
    + intros p' Hne. by rewrite B1, A1.
    + intros p' i c Hne Hi Hf. apply (B2 p'); [done|by rewrite A1|by apply (A2 p')].
    + intros r l3 Hl3 Hr Hlt. destruct (B3 r _ Hl3 Hr) as (l2 & Hl2 & Hr2 & E2); [lia|].
      destruct (A3 r _ Hl2 Hr2) as (l1 & Hl1 & Hr1 & E1); [lia|]. exists l1. eauto.
    + lia.
    + intuition congruence.
Qed.

Lemma file_frame_keeps xs xl xs' xl' p s s' :
  heap_ok xs xl s -> heap_ok xs' xl' s' -> xnn xs' -> xnn xl' -> keeps s s' ->
  (forall p', p' <> p -> inodes s' !! p' = inodes s !! p') ->
  FS.inodes (fs s') = FS.inodes (fs s) /\ FS.next_inum (fs s') = FS.next_inum (fs s) ->
  file_frame p s s'.
Proof.
  intros Hok Hok' Hxs Hxl Hk Hin Hfs. split; [done| |apply (kp_logs _ _ Hk)|apply (kp_next _ _ Hk)|done].
  intros p' i c Hne Hi Hf. eapply (file_ok_keeps xs xl xs' xl' s s' p'); try done. by rewrite Hin.
Qed.

(** Steps to contents [c'], with the count of dirty blocks kept right. *)
Definition step_frame (p : ptr) (i i' : Inode.t) (s s' : State) : Prop :=
  file_frame p s s' /\ Inode.type i' = Inode.type i /\
  (Inode.inum i', attrs i') = (Inode.inum i, attrs i) /\
  FS.cache_dirty (fs s') - ndirty i' = FS.cache_dirty (fs s) - ndirty i.
Definition file_step (p : ptr) (i i' : Inode.t) (c' : bytes) (s s' : State) : Prop :=
  file_state p i' c' s' /\ step_frame p i i' s s'.

Lemma step_frame_refl p i s : step_frame p i i s s.
Proof. split_and!; [reflexivity|done..]. Qed.

Lemma step_frame_trans p i1 i2 i3 s1 s2 s3 :
  step_frame p i1 i2 s1 s2 -> step_frame p i2 i3 s2 s3 -> step_frame p i1 i3 s1 s3.
Proof. intros (? & ? & ? & ?) (? & ? & ? & ?). split_and!; [by etransitivity|congruence..|lia]. Qed.

Lemma ndirty_with_block i bl k b q :
  Inode.blocks i = Some bl -> bl !! k = Some b ->
  ndirty (with_block i bl k (Block.mk Block.DIRTY None (Some q)))
  = ndirty i + (if is_dirty b then 0 else 1).
Proof.
  intros Hbl Hk. unfold ndirty, blocks_of. rewrite Hbl. simpl.
  rewrite (lsum_insert _ _ _ _ _ Hk). unfold is_dirty at 3. simpl.
  destruct (is_dirty b); lia.
Qed.

(** A touched block can be overwritten: the bytes of the file change there. *)
Lemma overwrite_block s s1 p i bl k b q d c e c' :
  blocks_state p i c s -> Inode.blocks i = Some bl -> bl !! k = Some b ->
  touched_block p i bl k b q d s s1 -> nblocks (zlen c') = nblocks (zlen c) ->
  (forall j, (j < length bl)%nat -> chunk j c' = if decide (j = k) then e else chunk j c) ->
  let i' := with_block i bl k (Block.mk Block.DIRTY None (Some q)) in
  blocks_state p i' c' (write_str q e s1) /\ step_frame p i i' s (write_str q e s1).
Proof.
  intros (Hok & Hst & Hp & Hf) Hbl Hk (Hok1 & Hst1 & Hex & Hkp & Hin & Hfs) Hlen Hc.
  set (b' := Block.mk Block.DIRTY None (Some q)) in *. set (i' := with_block i bl k b') in *.
  assert (Hlt : (k < length bl)%nat) by (by eapply lookup_lt_Some).
  assert (Hp1 : inodes s1 !! p = Some i') by (rewrite Hin; apply lookup_insert_eq).
  assert (Hk1 : <[k := b']> bl !! k = Some b') by (by apply list_lookup_insert_eq).
  assert (Hok2 : heap_ok nox nox (write_str q e s1)) by (by eapply heap_ok_write_str).
  destruct Hf as (bl0 & Hbl0 & Hnb & Hb).
  assert (bl0 = bl) as -> by congruence. clear Hbl0.
  split.
  - split_and!; [done|by apply (storage_ok_view s1); [apply storage_view_same|]|done|].
    exists (<[k := b']> bl). split_and!; [done|by rewrite length_insert, Hlen|].
    intros j bj Hj. apply lookup_lt_Some in Hj as Hjl. rewrite length_insert in Hjl.
    rewrite Hc by done. destruct (decide (j = k)) as [->|Hne].
    + rewrite Hk1 in Hj. injection Hj as <-. unfold block_ok. simpl. split; [done|].
      eexists q, _. split_and!; [done|apply lookup_insert_eq|done].
    + eapply (write_str_block s1 p i' (<[k := b']> bl) k b' q d); try done; [by right|].
      eapply (block_ok_keeps nox nox nox nox s s1); try done.
      apply Hb. by rewrite list_lookup_insert_ne in Hj.
  - split_and!; [|done|done|].
    + transitivity s1.
      { apply (file_frame_keeps nox nox nox nox); try done.
        - intros p' Hne. by rewrite Hin, lookup_insert_ne.
        - unfold fs_core in Hfs. by injection Hfs as -> -> _. }
      split; try done.
      * intros p' i0 c0 Hne Hi0 [Ht0 Hs0 Hm0 (bl0 & Hbl0 & Hnb0 & Hb0)].
        split; [done..|]. exists bl0. split_and!; [done..|]. intros j bj Hj.
        eapply (write_str_block s1 p i' (<[k := b']> bl) k b' q d); try done; [by left|auto].
      * intros r l Hl Hpos Hr. exists l. split_and!; [done|done|]. intros x Hx.
        by rewrite (write_str_items s1 p i' (<[k := b']> bl) k b' q d Hok1 Hex Hp1 eq_refl Hk1 eq_refl e r).
    + unfold i', b'. rewrite (ndirty_with_block _ _ _ b) by done.
      unfold fs_core in Hfs. injection Hfs as _ _ Hd. simpl. lia.
Qed.

(** ** Writing *)

Lemma wp_str_write s q d off w (Q : unit -> State -> Prop) :
  exclusive s q d -> 0 <= off -> off + zlen w <= zlen d ->
  Q tt (write_str q (write_at d (Z.to_nat off) w) s) -> wp (str_write (Some q) off w) s Q.
Proof.
  intros Hex H0' Hle HQ. unfold str_write. wp_step. eapply wp_load; [exact Hex|]. simpl.
  unfold splice. rewrite (proj2 (Z.leb_le 0 off)), (proj2 (Z.leb_le (off + _) _)) by lia. simpl.
  wp_step. wp_step. eapply wp_upd; [exact Hex|].
  unfold write_str in HQ. rewrite length_write_at in HQ by lia. exact HQ.
Qed.

(** One iteration of the loop. *)
Lemma write_block_ok s p i c offset w preserve :
  file_state p i c s -> 0 <= offset -> w <> [] ->
  offset mod BS + zlen w <= BS -> offset + zlen w <= zlen c ->
  (preserve = true \/ offset mod BS = 0 /\ zlen w = zlen (chunk (Z.to_nat (offset / BS)) c)) ->
  wp (bluesky_block_touch (Some p) (offset / BS) preserve;;
      b ← get_block (Some p) (offset / BS);
      str_write (Block.dirty b) (offset mod BS) w) s (fun _ s' =>
    exists i', file_step p i i' (write_at c (Z.to_nat offset) w) s s').
Proof.
  intros Hfs H0' Hne Hfit Hend Hpre. pose proof BS_pos as HBS.
  pose proof (Z.div_mod offset BS ltac:(lia)) as Hdm.
  pose proof (Z.mod_pos_bound offset BS HBS) as Hmod.
  pose proof (Z.div_pos offset BS H0' HBS) as Hdiv.
  set (k := offset / BS) in *. set (o := offset mod BS) in *.
  assert (Hw : 0 < zlen w) by (destruct w; [done|simpl; lia]).
  destruct Hfs as (Hok & Hst & Hp & Hf).
  destruct (fo_blocks _ _ _ Hf) as (bl & Hbl & Hnb & Hb).
  assert (Hkn : 0 <= k < nblocks (zlen c)) by (split; [done|]; apply nblocks_spec; lia).
  destruct (lookup_lt_is_Some_2 bl (Z.to_nat k)) as [b Hk]; [lia|].
  wp_step. eapply wp_mono; [apply (block_touch_ok s p i bl k b (chunk (Z.to_nat k) c)); try done|].
  { by apply Hb. }
  { right. rewrite Hnb, (fo_size _ _ _ Hf). apply block_len_chunk; [done|apply (fo_max _ _ _ Hf)]. }
  intros _ s1 (q & d & Ht & Hd & Hdp). wp_step.
  pose proof Ht as (Hok1 & Hst1 & Hex & Hkp & Hin & Hfc).
  eapply wp_get_block; [rewrite Hin; apply lookup_insert_eq|reflexivity|
    by apply list_lookup_insert_eq; eapply lookup_lt_Some|]. simpl Block.dirty.
  pose proof (length_chunk (Z.to_nat k) c) as Hlc. rewrite Z2Nat.id in Hlc by lia.
  eapply wp_str_write; [done|lia|lia|].
  assert (Hl : zlen (write_at c (Z.to_nat offset) w) = zlen c) by (rewrite length_write_at; lia).
  edestruct (overwrite_block s s1 p i bl (Z.to_nat k) b q d c
    (write_at d (Z.to_nat o) w) (write_at c (Z.to_nat offset) w)) as [Hbs Hsf];
    [apply file_state_blocks; by split_and!|done|done|done|by rewrite Hl| |]; cycle 1.
  { eexists. split; [|exact Hsf]. destruct Hbs as (? & ? & ? & ?). destruct Hf.
    split_and!; [done..|]. split; [done|by rewrite Hl|by rewrite Hl|done]. }
  intros j _. replace (Z.to_nat offset) with (Z.to_nat k * Z.to_nat BS + Z.to_nat o)%nat by nia.
  rewrite chunk_write_at by lia. destruct (decide _) as [->|]; [|done].
  destruct Hpre as [Hpre|[Ho Hwl]]; [by rewrite (Hdp Hpre)|].
  rewrite Ho. by rewrite !write_at_all by lia.
Qed.

Lemma file_write_loop_S fuel inode offset data :
  data <> [] ->
  file_write_loop (S fuel) inode offset data =
  (let bytes := Z.min (BS - offset mod BS) (zlen data) in
   ino ← load inodes inode; blocks ← get_blocks inode;
   let block_size := if offset / BS =? zlen blocks - 1
                     then u64 (Inode.size ino - offset / BS * BS) else BS in
   let preserve := negb ((offset mod BS =? 0) && (bytes =? block_size)) in
   bluesky_block_touch inode (offset / BS) preserve;;
   b ← get_block inode (offset / BS);
   str_write (Block.dirty b) (offset mod BS) (take (Z.to_nat bytes) data);;
   file_write_loop fuel inode (offset + bytes) (drop (Z.to_nat bytes) data)).
Proof. by destruct data. Qed.

Lemma file_write_loop_ok fuel s p i c offset data :
  file_state p i c s -> 0 <= offset -> offset + zlen data <= zlen c ->
  (length data <= fuel)%nat ->
  wp (file_write_loop fuel (Some p) offset data) s (fun _ s' =>
    exists i', file_step p i i' (write_at c (Z.to_nat offset) data) s s').
Proof.
  revert s i c offset data.
  induction fuel as [|fuel IH]; intros s i c offset data Hfs H0' Hend Hfuel.
  { destruct data; [|simpl in Hfuel; lia]. simpl. exists i.
    rewrite write_at_nil by lia. split; [done|apply step_frame_refl]. }
  destruct data as [|x data'] eqn:Ed.
  { simpl. exists i. rewrite write_at_nil by lia. split; [done|apply step_frame_refl]. }
  rewrite <- Ed in *. assert (Hne : data <> []) by (by rewrite Ed).
  assert (Hpos : 0 < zlen data) by (rewrite Ed; simpl; lia).
  pose proof BS_pos as HBS. pose proof (Z.mod_pos_bound offset BS HBS) as Hmod.
  set (n := Z.min (BS - offset mod BS) (zlen data)).
  rewrite file_write_loop_S by done. cbv zeta. fold n.
  pose proof Hfs as (Hok & Hst & Hp & Hf).
  destruct (fo_blocks _ _ _ Hf) as (bl & Hbl & Hnb & Hb).
  wp_step. eapply wp_load; [done|]. wp_step. eapply wp_get_blocks; [done..|]. cbv zeta.
  set (w := take (Z.to_nat n) data). set (preserve := negb _).
  assert (Hw : zlen w = n) by (unfold w; rewrite length_take; lia).
  assert (Hsplit : data = w ++ drop (Z.to_nat n) data) by (unfold w; by rewrite take_drop).
  assert (Hlen2 : zlen (drop (Z.to_nat n) data) = zlen data - n) by (rewrite length_drop; lia).
  assert (Hblock : wp (bluesky_block_touch (Some p) (offset / BS) preserve;;
      b ← get_block (Some p) (offset / BS);
      str_write (Block.dirty b) (offset mod BS) w) s (fun _ s' =>
    exists i', file_step p i i' (write_at c (Z.to_nat offset) w) s s')).
  { apply write_block_ok; try done.
    - intros E. rewrite E in Hw. simpl in Hw. lia.
    - rewrite Hw. lia.
    - rewrite Hw. lia.
    - unfold preserve. destruct (offset mod BS =? 0) eqn:E0; [|by left]. simpl.
    destruct (n =? _) eqn:E1; [|by left]. right. split; [lia|].
    rewrite Hw. apply Z.eqb_eq in E1. rewrite E1, (fo_size _ _ _ Hf), Hnb.
    pose proof (Z.div_pos offset BS H0' HBS).
    assert (offset / BS < nblocks (zlen c)).
    { apply nblocks_spec. pose proof (Z.div_mod offset BS ltac:(lia)). nia. }
    rewrite <- block_len_chunk; [|lia|apply (fo_max _ _ _ Hf)].
    destruct (Z.eqb_spec (offset / BS) (nblocks (zlen c) - 1)),
      (Z.ltb_spec (offset / BS) (nblocks (zlen c) - 1)); lia.
  }
  do 2 wp_along Hblock. apply wp_bind. eapply wp_mono; [exact Hblock|].
  intros _ s1 (i1 & Hfs1 & Hfr1).
  eapply wp_mono; [apply (IH s1 i1 (write_at c (Z.to_nat offset) w)); [done|lia| |]|].
  - rewrite length_write_at by lia. lia.
  - rewrite Hsplit, length_app in Hfuel. destruct w; [simpl in Hw; lia|simpl in Hfuel; lia].
  - intros _ s2 (i2 & Hfs2 & Hfr2). exists i2. split; [|by eapply step_frame_trans].
    rewrite Hsplit. rewrite <- write_at_app by lia.
    replace (Z.to_nat offset + length w)%nat with (Z.to_nat (offset + n)) by lia. done.
Qed.

End contents.
