(* ===== verification/FileOps.v ===== *)
(** * What the operations on regular files do (src/bluesky/file.c)

    The refinement of a byte array by truncation, write and read, for
    every state in which the file is well formed, with the frame (other files and
    committed items keep their contents) and the accounting of dirty blocks. *)

From S2P Require Import Prelude State Strings Ownership CloudLog Lru Inodes Fetch File.
From Stdlib Require Import ZArith Lia.
From stdpp Require Import base numbers gmap option list.

Open Scope Z_scope.

(** The contents of a file after its size is set to [n]. *)
Definition resize_bytes (c : bytes) (n : nat) : bytes :=
  take n c ++ replicate (n - length c) 0.

Lemma length_resize_bytes c n : length (resize_bytes c n) = n.
Proof. unfold resize_bytes. rewrite length_app, length_take, length_replicate. lia. Qed.

Lemma lookup_resize_bytes c n j :
  resize_bytes c n !! j =
  if decide (j < n)%nat then (if decide (j < length c)%nat then c !! j else Some 0) else None.
Proof.
  unfold resize_bytes. destruct (decide (j < n)%nat).
  - destruct (decide (j < length c)%nat).
    + rewrite lookup_app_l by (rewrite length_take; lia). by rewrite lookup_take_lt.
    + rewrite lookup_app_r by (rewrite length_take; lia). rewrite length_take.
      rewrite lookup_replicate. split; [done|lia].
  - apply lookup_ge_None. rewrite length_app, length_take, length_replicate. lia.
Qed.

Lemma resize_bytes_id c : resize_bytes c (length c) = c.
Proof. unfold resize_bytes. rewrite take_ge, Nat.sub_diag by lia. apply app_nil_r. Qed.

Lemma resize_resize_bytes c m n :
  (length c <= m \/ n <= m)%nat -> resize_bytes (resize_bytes c m) n = resize_bytes c n.
Proof.
  intros Hm. apply list_eq. intros j. rewrite !lookup_resize_bytes, length_resize_bytes.
  repeat destruct (decide _); try done; lia.
Qed.

Lemma resize_zeros m n : resize_bytes (replicate m 0) n = replicate n 0.
Proof.
  unfold resize_bytes. rewrite take_replicate, length_replicate, <- replicate_add. f_equal. lia.
Qed.

Lemma chunk_resize c n j :
  chunk j (resize_bytes c n)
  = resize_bytes (chunk j c) (Nat.min (Z.to_nat BS) (n - j * Z.to_nat BS)).
Proof.
  pose proof (length_chunk j c). pose proof BS_pos. apply list_eq. intros x.
  rewrite lookup_chunk, !lookup_resize_bytes, lookup_chunk.
  repeat destruct (decide _); try done; lia.
Qed.

(** Whole blocks stay. *)
Lemma chunk_resize_full c n j :
  (length (chunk j c) = Nat.min (Z.to_nat BS) (n - j * Z.to_nat BS))%nat ->
  chunk j (resize_bytes c n) = chunk j c.
Proof. intros E. by rewrite chunk_resize, <- E, resize_bytes_id. Qed.

(** ** A small file

    One file of three bytes in a dirty block. *)
Definition sample_inode : Inode.t :=
  inode_zero <| Inode.refcount := 1 |> <| Inode.type := BLUESKY_REGULAR |> <| Inode.inum := 2 |>
    <| Inode.size := 3 |> <| Inode.blocks := Some [Block.mk Block.DIRTY None (Some 2%positive)] |>.
Definition sample_state : State :=
  empty_state <| next_ptr := 3%positive |> <| inodes := {[1%positive := sample_inode]} |>
    <| strs := {[2%positive := RCStr.mk 1 None (RCStr.Owned [97; 98; 99]) 3]} |>.

Lemma sample_heap_ok : heap_ok nox nox sample_state.
Proof.
  assert (Hso : forall q, str_owners sample_state q = points q (Some 2%positive)).
  { intros q. unfold str_owners. simpl. unfold singletonM, map_singleton.
    rewrite msum_insert_fresh, !msum_empty by apply lookup_empty.
    unfold inode_strs. simpl. lia. }
  assert (Hlo : forall q, log_owners sample_state q = 0).
  { intros q. unfold log_owners, queue_logs. simpl. unfold singletonM, map_singleton.
    rewrite msum_insert_fresh, !msum_empty by apply lookup_empty.
    unfold inode_logs. simpl. rewrite points_None. lia. }
  split.
  - intros q. rewrite Hso. unfold nox. destruct (decide (q = 2%positive)) as [->|Hne].
    + intros _. eexists. split; [apply lookup_singleton_eq|]. by rewrite points_self.
    + rewrite points_ne by done. lia.
  - intros p. rewrite Hlo. unfold nox. lia.
  - intros f. unfold map_owners. simpl. unfold singletonM, map_singleton.
    rewrite msum_insert_fresh, msum_empty by apply lookup_empty. simpl. by rewrite points_None.
  - intros q str Hq. simpl in Hq. apply lookup_singleton_Some in Hq as [_ <-].
    unfold str_wf. simpl. eauto.
  - done.
  - done.
  - intros p Hp. simpl in *. rewrite !lookup_singleton_ne by lia. done.
Qed.

Lemma sample_file_state : file_state 1 sample_inode [97; 98; 99] sample_state.
Proof.
  split_and!; [apply sample_heap_ok|done|apply lookup_singleton_eq|]. split; [done..|].
  eexists. split_and!; [done|done|]. intros k b Hk. destruct k as [|k]; [|done].
  injection Hk as <-. unfold block_ok. simpl. split; [done|].
  eexists _, _. split_and!; [done|apply lookup_singleton_eq|done].
Qed.

Section ops.
Context `{Env0 : Env} `{!EnvSpec Env0} `{Fetch}.

(** ** Steps that only change the inode's own fields *)

Lemma set_inode_touches p i s : touches_inode p i s (set_inode p i s).
Proof. split; try done. simpl. by destruct (fs s). Qed.

(** A change to the inode that keeps the references it holds. *)
Lemma inode_refs_step s s' p i i' :
  heap_ok nox nox s -> storage_ok s -> inodes s !! p = Some i -> touches_inode p i' s s' ->
  (forall q, inode_strs q i' = inode_strs q i) -> (forall r, inode_logs r i' = inode_logs r i) ->
  heap_ok nox nox s' /\ storage_ok s' /\ inodes s' !! p = Some i' /\ keeps s s' /\
  file_frame p s s' /\ FS.cache_dirty (fs s') = FS.cache_dirty (fs s).
Proof.
  intros Hok Hst Hp T Es El. pose proof (ti_fs _ _ _ _ T) as Ef.
  assert (Hok' : heap_ok nox nox s') by (by eapply heap_ok_touches).
  assert (Hkp : keeps s s') by (apply keeps_same; apply T).
  split_and!; [done| | |done| |by rewrite Ef].
  - apply (storage_ok_view s); [|done]. apply storage_view_same; [apply T|apply T| |apply T].
    by rewrite (ti_log _ _ _ _ T).
  - rewrite (ti_inodes _ _ _ _ T). apply lookup_insert_eq.
  - apply (file_frame_keeps nox nox nox nox); try done.
    + intros p' Hne. by rewrite (ti_inodes _ _ _ _ T), lookup_insert_ne.
    + by rewrite Ef.
Qed.

(** Steps on the blocks. *)
Definition blocks_step (p : ptr) (i i' : Inode.t) (c' : bytes) (s s' : State) : Prop :=
  blocks_state p i' c' s' /\ step_frame p i i' s s'.

Lemma blocks_step_trans p i1 i2 i3 c2 c3 s1 s2 s3 :
  blocks_step p i1 i2 c2 s1 s2 -> blocks_step p i2 i3 c3 s2 s3 -> blocks_step p i1 i3 c3 s1 s3.
Proof. intros [_ ?] [? ?]. split; [done|]. by eapply step_frame_trans. Qed.

Lemma inode_only_step s s' p i i' c :
  blocks_state p i c s -> touches_inode p i' s s' ->
  Inode.blocks i' = Inode.blocks i -> Inode.committed_item i' = Inode.committed_item i ->
  Inode.type i' = Inode.type i -> (Inode.inum i', attrs i') = (Inode.inum i, attrs i) ->
  blocks_step p i i' c s s'.
Proof.
  intros (Hok & Hst & Hp & (bl & Hbl & Hnb & Hb)) T Eb Ei Et En.
  destruct (inode_refs_step s s' p i i' Hok Hst Hp T) as (Hok' & Hst' & Hp' & Hkp & Hff & Hd).
  { intros q. unfold inode_strs, blocks_of. by rewrite Eb. }
  { intros q. unfold inode_logs, blocks_of. by rewrite Eb, Ei. }
  split; [split_and!; try done|split_and!; [done..|]].
  - exists bl. rewrite Eb. split_and!; [done..|]. intros k b Hk.
    eapply (block_ok_keeps nox nox nox nox s s' p i' bl); eauto; [done..|]. congruence.
  - unfold ndirty, blocks_of. rewrite Eb. lia.
Qed.

Lemma update_ctime_step s p i c m :
  file_state p i c s ->
  wp (bluesky_inode_update_ctime (Some p) m) s (fun _ s' => exists i', file_step p i i' c s s').
Proof.
  intros Hf. pose proof Hf as (_ & _ & Hp & []).
  eapply wp_mono; [by apply update_ctime_ok|].
  intros _ s' (i' & (Et & Es & Eb & Ei & _ & _ & _ & En & _ & Ea) & _ & _ & T). exists i'.
  destruct (inode_only_step s s' p i i' c (file_state_blocks _ _ _ _ Hf) T Eb Ei Et (f_equal2 pair En Ea))
    as [(? & ? & ? & ?) ?].
  split; [|done]. split_and!; [done..|]. split; congruence.
Qed.

Lemma file_step_trans p i1 i2 i3 c2 c3 s1 s2 s3 :
  file_step p i1 i2 c2 s1 s2 -> file_step p i2 i3 c3 s2 s3 -> file_step p i1 i3 c3 s1 s3.
Proof. intros [_ ?] [? ?]. split; [done|]. by eapply step_frame_trans. Qed.

(** ** Writing *)

Lemma file_write_ok s p i c offset data :
  file_state p i c s -> 0 <= offset ->
  wp (bluesky_file_write (Some p) offset data) s (fun _ s' =>
    if decide (offset < zlen c /\ offset + zlen data <= zlen c)
    then exists i', file_step p i i' (write_at c (Z.to_nat offset) data) s s'
    else s' = s).
Proof.
  intros Hf H0'. pose proof Hf as (_ & _ & Hp & Ho). unfold bluesky_file_write.
  wp_step. eapply wp_load; [done|]. rewrite (fo_type _ _ _ Ho), (fo_size _ _ _ Ho). simpl negb. cbv iota.
  destruct (Z.ltb_spec offset (zlen c)); simpl negb; cbv iota;
    [|wp_step; by rewrite decide_False by lia].
  destruct (Z.leb_spec (zlen data) (zlen c - offset)); simpl negb; cbv iota;
    [|wp_step; by rewrite decide_False by lia].
  destruct (Z.eqb_spec (zlen data) 0).
  { wp_step. rewrite decide_True by lia. exists i. destruct data; [|simpl in *; lia]. rewrite write_at_nil by lia.
    split; [done|apply step_frame_refl]. }
  wp_step. eapply wp_mono; [by apply (file_write_loop_ok _ s p i c offset data); [|lia..]|].
  intros _ s1 (i1 & Hs1). eapply wp_mono; [apply (update_ctime_step _ _ _ _ _ (proj1 Hs1))|].
  intros _ s2 (i2 & Hs2). rewrite decide_True by lia. exists i2. by eapply file_step_trans.
Qed.

(** C1: on a well-formed file with contents [c], [bluesky_file_write] inside the
    file replaces exactly the bytes from [offset] by [data]; a write that does not
    fit changes nothing.  Holes, dirty blocks and blocks held in the log are all
    covered; the other files and every committed log item keep their bytes, all
    reference counts stay right and so does the count of dirty blocks. *)
Theorem file_write_refines s p i c offset data :
  file_state p i c s -> 0 <= offset ->
  wp (bluesky_file_write (Some p) offset data) s (fun _ s' =>
    if decide (offset < zlen c /\ offset + zlen data <= zlen c)
    then exists i', file_step p i i' (write_at c (Z.to_nat offset) data) s s'
    else s' = s).
Proof. apply file_write_ok. Qed.

(** ** Reading *)

(** The [n] bytes of [c] from [offset]. *)
Definition window (c : bytes) (offset n : Z) : bytes :=
  take (Z.to_nat n) (drop (Z.to_nat offset) c).

Lemma window_split c offset m n :
  0 <= offset -> 0 <= m -> 0 <= n ->
  window c offset m ++ window c (offset + m) n = window c offset (m + n).
Proof.
  intros. unfold window.
  replace (Z.to_nat (m + n)) with (Z.to_nat m + Z.to_nat n)%nat by lia.
  rewrite <- take_take_drop, drop_drop. do 3 f_equal. lia.
Qed.

(** The window of one block. *)
Lemma window_chunk c offset n :
  0 <= offset -> offset mod BS + n <= BS ->
  window c offset n = window (chunk (Z.to_nat (offset / BS)) c) (offset mod BS) n.
Proof.
  intros H0' Hn. unfold window, chunk. pose proof BS_pos as HBS.
  pose proof (Z.div_mod offset BS ltac:(lia)). pose proof (Z.mod_pos_bound offset BS HBS).
  pose proof (Z.div_pos offset BS H0' HBS).
  apply list_eq. intros j. destruct (decide (j < Z.to_nat n)%nat).
  - rewrite !lookup_take_lt, !lookup_drop, lookup_take_lt, lookup_drop by lia. f_equal. nia.
  - by rewrite !lookup_take_ge by lia.
Qed.

Lemma window_zeros m offset n :
  0 <= offset -> offset + n <= Z.of_nat m ->
  window (replicate m 0) offset n = replicate (Z.to_nat n) 0.
Proof. intros. unfold window. rewrite drop_replicate, take_replicate. f_equal. lia. Qed.

Lemma slice_window c offset n :
  0 <= offset -> 0 <= n -> offset + n <= zlen c -> slice c offset n = Some (window c offset n).
Proof.
  intros. unfold slice, window.
  by rewrite (proj2 (Z.leb_le _ _)), (proj2 (Z.leb_le _ _)), (proj2 (Z.leb_le _ _)) by lia.
Qed.

(** Steps that change no file. *)
Lemma quiet_step s s' p i c :
  file_state p i c s -> heap_ok nox nox s' -> storage_ok s' -> keeps s s' ->
  inodes s' = inodes s -> fs_core (fs s') = fs_core (fs s) -> file_step p i i c s s'.
Proof.
  intros (Hok & Hst & Hp & Hf) Hok' Hst' Hk Hin Hfs. rewrite <- Hin in Hp.
  unfold fs_core in Hfs. injection Hfs as Ei En Ed. split; [split_and!; try done|split_and!; try done].
  - by eapply (file_ok_keeps nox nox nox nox s s').
  - apply (file_frame_keeps nox nox nox nox); try done. by intros; rewrite Hin.
  - lia.
Qed.

Lemma wp_str_read s q str b off n (Q : bytes -> State -> Prop) :
  strs s !! q = Some str -> str_bytes s str = Some b ->
  0 <= off -> 0 <= n -> off + n <= zlen b -> Q (window b off n) s ->
  wp (str_read (Some q) off n) s Q.
Proof.
  intros Hq Hb ? ? ? HQ. unfold str_read. wp_step. eapply wp_load; [done|].
  wp_step. wp_step. wp_step. wp_step; [done|]. wp_step; [by apply slice_window|done].
Qed.

(** The bytes of one block. *)
Lemma read_block_ok s p i c offset n :
  file_state p i c s -> 0 <= offset -> 0 < n ->
  offset mod BS + n <= BS -> offset + n <= zlen c ->
  wp (b ← get_block (Some p) (offset / BS);
      match Block.type b with
      | Block.ZERO => mret (replicate (Z.to_nat n) 0)
      | Block.REF =>
        bluesky_block_fetch (Some p) (offset / BS);;
        ref ← load cloudlogs (Block.ref b);
        str_read (CloudLog.data ref) (offset mod BS) n
      | Block.DIRTY => str_read (Block.dirty b) (offset mod BS) n
      end) s (fun out s' => out = window c offset n /\ file_step p i i c s s').
Proof.
  intros Hfs H0' Hn Hfit Hend. pose proof BS_pos as HBS.
  pose proof (Z.div_mod offset BS ltac:(lia)) as Hdm.
  pose proof (Z.mod_pos_bound offset BS HBS) as Hmod.
  pose proof (Z.div_pos offset BS H0' HBS) as Hdiv.
  rewrite window_chunk by lia. set (k := offset / BS) in *. set (o := offset mod BS) in *.
  pose proof Hfs as (Hok & Hst & Hp & Hf).
  destruct (fo_blocks _ _ _ Hf) as (bl & Hbl & Hnb & Hb).
  assert (Hkn : 0 <= k < nblocks (zlen c)) by (split; [done|]; apply nblocks_spec; lia).
  destruct (lookup_lt_is_Some_2 bl (Z.to_nat k)) as [b Hk]; [lia|]. specialize (Hb _ _ Hk).
  pose proof (length_chunk (Z.to_nat k) c) as Hlc. rewrite Z2Nat.id in Hlc by lia.
  set (d := chunk (Z.to_nat k) c) in *.
  wp_step. eapply wp_get_block; [done..|]. pose proof Hb as Hb0. unfold block_ok in Hb.
  destruct (Block.type b) eqn:Et.
  - destruct Hb as (_ & _ & Hz). wp_step. split; [|split; [done|apply step_frame_refl]].
    by rewrite Hz, window_zeros by lia.
  - wp_step. eapply wp_mono; [by apply (block_fetch_ok s p i bl k b d)|].
    intros _ s1 (Hok1 & Hst1 & Hkp & Hin & Hfc & r & l & q & str & Hr & Hl & Hq & Hs & Hbs & _).
    wp_step. rewrite Hr. eapply wp_load; [done|]. rewrite Hq.
    eapply wp_str_read; [done|done|lia..|]. split; [done|]. by apply quiet_step.
  - destruct Hb as (_ & q & str & Hq & Hs & Hd). rewrite Hq.
    eapply wp_str_read; [done|unfold str_bytes; by rewrite Hd|lia..|].
    split; [done|split; [done|apply step_frame_refl]].
Qed.

Lemma file_read_loop_ok fuel s p i c offset len :
  file_state p i c s -> 0 <= offset -> offset + len <= zlen c -> (Z.to_nat len <= fuel)%nat ->
  wp (file_read_loop fuel (Some p) offset len) s (fun out s' =>
    out = window c offset len /\ file_step p i i c s s').
Proof.
  revert s offset len. induction fuel as [|fuel IH]; intros s offset len Hfs H0' Hend Hfuel;
    simpl; (destruct (Z.leb_spec len 0) as [Hle|Hgt];
      [wp_step; split; [unfold window; by replace (Z.to_nat len) with 0%nat by lia|];
       split; [done|apply step_frame_refl]|]); [lia|].
  pose proof BS_pos as HBS. pose proof (Z.mod_pos_bound offset BS HBS) as Hmod.
  set (n := Z.min (BS - offset mod BS) len).
  pose proof (read_block_ok s p i c offset n Hfs H0' ltac:(lia) ltac:(lia) ltac:(lia)) as Hr.
  wp_along Hr. apply wp_bind. eapply wp_mono; [exact Hr|].
  intros out s1 [-> Hs1]. wp_step.
  eapply wp_mono; [apply (IH s1); [apply Hs1|lia..]|].
  intros rest s2 [-> Hs2]. wp_step. split; [|by eapply file_step_trans].
  rewrite window_split by lia. f_equal. lia.
Qed.

(** The prefetches of a read. *)
Lemma prefetches_ok s p i c ks :
  file_state p i c s -> (forall k, k ∈ ks -> 0 <= k < nblocks (zlen c)) ->
  wp (for_each ks (fun k => b ← get_block (Some p) k;
        when (is_ref b) (bluesky_cloudlog_prefetch (Block.ref b)))) s (fun _ s' =>
    file_step p i i c s s').
Proof.
  revert s. induction ks as [|k ks IH]; intros s Hfs Hks; simpl.
  { split; [done|apply step_frame_refl]. }
  pose proof Hfs as (Hok & Hst & Hp & Hf).
  destruct (fo_blocks _ _ _ Hf) as (bl & Hbl & Hnb & Hb).
  pose proof (Hks k ltac:(by left)). destruct (lookup_lt_is_Some_2 bl (Z.to_nat k)) as [b Hk]; [lia|].
  specialize (Hb _ _ Hk). wp_step. wp_step. eapply wp_get_block; [done..|].
  apply wp_mono with (P := fun _ s' => file_step p i i c s s').
  - unfold is_ref, when, block_ok in *. destruct (Block.type b); simpl;
      [split; [done|apply step_frame_refl]| |split; [done|apply step_frame_refl]].
    destruct Hb as (_ & r & l & -> & Hl & Hpos & Hbytes).
    eapply wp_mono; [by apply (prefetch_ok nox nox s r l (chunk (Z.to_nat k) c))|].
    intros _ s' (? & ? & ? & ? & ?). by apply quiet_step.
  - intros _ s1 Hs1. eapply wp_mono; [apply IH; [apply Hs1|]|].
    + intros x Hx. apply Hks. by right.
    + intros ? s2 Hs2. by eapply file_step_trans.
Qed.

Lemma file_read_ok s p i c offset len :
  file_state p i c s -> 0 <= offset -> 0 <= len < 2 ^ 31 ->
  wp (bluesky_file_read (Some p) offset len) s (fun out s' =>
    if decide (offset + len <= zlen c /\ (offset < zlen c \/ len = 0))
    then out = Some (window c offset len) /\ file_step p i i c s s'
    else out = None /\ s' = s).
Proof.
  intros Hf H0' Hl. pose proof Hf as (_ & _ & Hp & Ho). unfold bluesky_file_read.
  pose proof BS_pos as HBS. rewrite u64_id by lia.
  wp_step. eapply wp_load; [done|]. rewrite (fo_type _ _ _ Ho), (fo_size _ _ _ Ho).
  simpl (negb (_ =? _)).
  destruct (Z.eqb_spec len 0) as [->|Hnz]; simpl andb.
  { destruct (Z.leb_spec offset (zlen c)); cbv iota.
    - wp_step. rewrite decide_True by lia. by split; [|split; [|apply step_frame_refl]].
    - rewrite (proj2 (Z.ltb_ge _ _)) by lia. simpl negb. cbv iota. wp_step. by rewrite decide_False by lia. }
  cbv iota. destruct (Z.ltb_spec offset (zlen c)); simpl negb; cbv iota;
    [|wp_step; by rewrite decide_False by lia].
  destruct (Z.leb_spec len (zlen c - offset)) as [Hle|Hgt]; simpl negb; cbv iota;
    [|wp_step; by rewrite decide_False by lia].
  wp_step. eapply wp_mono; [apply (prefetches_ok s p i c); [done|]|].
  - intros k Hk. apply elem_of_seqZ in Hk. pose proof (Z.div_pos offset BS H0' HBS).
    split; [lia|]. apply nblocks_spec.
    pose proof (Z.mul_div_le (offset + len - 1) BS HBS). nia.
  - intros ? s1 Hs1. wp_step.
    eapply wp_mono; [apply file_read_loop_ok; [apply Hs1|lia..]|].
    intros out s2 [-> Hs2]. wp_step. rewrite decide_True by lia. split; [done|].
    eapply file_step_trans; [exact Hs1|exact Hs2].
Qed.

(** C2: [bluesky_file_read] returns exactly the [len] bytes at [offset] of the
    contents, fetching what is not in memory, and changes no file; a read that
    does not lie inside the file leaves the buffer and the state alone. *)
Theorem file_read_refines s p i c offset len :
  file_state p i c s -> 0 <= offset -> 0 <= len < 2 ^ 31 ->
  wp (bluesky_file_read (Some p) offset len) s (fun out s' =>
    if decide (offset + len <= zlen c /\ (offset < zlen c \/ len = 0))
    then out = Some (window c offset len) /\ file_step p i i c s s'
    else out = None /\ s' = s).
Proof. apply file_read_ok. Qed.

(** ** Truncation *)

(** Setting the size of a string that one block owns. *)
Lemma resize_str_ok s q d n (Q : unit -> State -> Prop) :
  exclusive s q d -> 0 <= n -> Q tt (write_str q (resize_bytes d (Z.to_nat n)) s) ->
  wp (bluesky_string_resize (Some q) n;;
      when (zlen d <? n) (str_write (Some q) (zlen d) (replicate (Z.to_nat (n - zlen d)) 0))) s Q.
Proof.
  intros Hex Hn HQ. unfold bluesky_string_resize. pose proof Hex as Hex0. unfold exclusive in Hex.
  wp_step. wp_step. eapply wp_load; [done|]. wp_step. wp_step; [done|]. simpl RCStr.len. simpl RCStr.data.
  destruct (Z.eqb_spec (zlen d) n) as [E|Hne].
  { wp_step. unfold when. rewrite (proj2 (Z.ltb_ge _ _)) by lia. wp_step.
    rewrite <- E, Nat2Z.id, resize_bytes_id in HQ. unfold write_str, setf in HQ. simpl in HQ.
    rewrite insert_id in HQ by done. by destruct s. }
  wp_step. wp_step; [done|]. eapply wp_upd; [done|].
  set (d' := g_realloc d n).
  assert (Hd' : d' = take (Z.to_nat n) d ++ drop (length d) d').
  { unfold d', g_realloc. destruct (decide (Z.to_nat n <= length d)%nat).
    - rewrite take_app_le by lia. rewrite drop_ge, app_nil_r; [done|]. rewrite length_take. lia.
    - rewrite take_app_ge by lia. rewrite drop_app_length. by rewrite (take_ge d) by lia. }
  unfold when. destruct (Z.ltb_spec (zlen d) n) as [Hlt|Hge].
  - set (s1 := setf strs _ s).
    assert (Hl : zlen d' = n).
    { unfold d', g_realloc. rewrite length_take, length_app, (proj1 (uninitialized_bytes _)). lia. }
    assert (Hex1 : exclusive s1 q d').
    { unfold exclusive, s1. simpl. rewrite lookup_insert_eq. by rewrite Hl. }
    eapply wp_str_write; [exact Hex1|lia|rewrite length_replicate; lia|].
    assert (write_at d' (Z.to_nat (zlen d)) (replicate (Z.to_nat (n - zlen d)) 0)
            = resize_bytes d (Z.to_nat n)) as ->.
    { unfold write_at, resize_bytes. rewrite length_replicate, (drop_ge d') by lia.
      rewrite app_nil_r. f_equal; [|f_equal; lia].
      rewrite Hd', take_app_le by (rewrite length_take; lia). by rewrite !take_ge by (rewrite ?length_take; lia). }
    unfold write_str, s1, setf in *. simpl in *. by rewrite insert_insert_eq.
  - wp_step.
    assert (d' = resize_bytes d (Z.to_nat n)) as E.
    { rewrite Hd'. unfold resize_bytes. f_equal. rewrite drop_ge.
      - by replace (Z.to_nat n - length d)%nat with 0%nat by lia.
      - unfold d', g_realloc. rewrite length_take. lia. }
    unfold write_str in HQ. rewrite <- E in HQ. rewrite E in HQ at 2.
    rewrite length_resize_bytes, Z2Nat.id in HQ by lia. exact HQ.
Qed.

(** The last block is touched and gets the size that [m] bytes ask for. *)
Lemma resize_last_step s s1 p i bl c k b q m :
  blocks_state p i c s -> Inode.blocks i = Some bl -> bl !! k = Some b -> length bl = S k ->
  touched_block p i bl k b q (chunk k c) s s1 -> nblocks (Z.of_nat m) = zlen bl ->
  let i' := with_block i bl k (Block.mk Block.DIRTY None (Some q)) in
  blocks_step p i i' (resize_bytes c m)
    s (write_str q (resize_bytes (chunk k c) (m - k * Z.to_nat BS)) s1).
Proof.
  intros Hbs Hbl Hk Hlen Ht Hm. pose proof Hbs as (_ & _ & _ & (bl0 & Hbl0 & Hnb & _)).
  assert (bl0 = bl) as -> by congruence. pose proof BS_pos as HBS.
  eapply overwrite_block; try done.
  { by rewrite length_resize_bytes, Hm. }
  pose proof (proj1 (nblocks_spec (Z.of_nat m) (Z.of_nat k)) ltac:(lia)) as Hm1.
  assert (~ (Z.of_nat k + 1) * BS < Z.of_nat m) as Hm2 by (rewrite <- nblocks_spec; lia).
  intros j Hj. destruct (decide (j = k)) as [->|Hne].
  - rewrite chunk_resize. f_equal. lia.
  - apply chunk_resize_full. pose proof (length_chunk j c).
    pose proof (proj1 (nblocks_spec (zlen c) (Z.of_nat k)) ltac:(lia)) as Hc1.
    assert (Z.of_nat j + 1 <= Z.of_nat k) by lia.
    assert ((Z.of_nat j + 1) * BS <= Z.of_nat k * BS) by nia. lia.
Qed.

Lemma touch_last s p i bl c k b (K : Block.t -> RCStr.t -> M State unit) (Q : unit -> State -> Prop) :
  blocks_state p i c s -> Inode.blocks i = Some bl -> 0 <= k -> bl !! Z.to_nat k = Some b ->
  Block.type b <> Block.ZERO ->
  (forall q s1 d, d = chunk (Z.to_nat k) c -> exclusive s1 q d ->
     touched_block p i bl (Z.to_nat k) b q d s s1 ->
     wp (K (Block.mk Block.DIRTY None (Some q)) (RCStr.mk 1 None (RCStr.Owned d) (zlen d))) s1 Q) ->
  wp (bluesky_block_touch (Some p) k true;;
      b ← get_block (Some p) k; d ← load strs (Block.dirty b); K b d) s Q.
Proof.
  intros (Hok & Hst & Hp & (bl0 & Hbl0 & Hnb & Hb)) Hbl Hk0 Hk Ht HK.
  assert (bl0 = bl) as -> by congruence.
  wp_step. eapply wp_mono;
    [apply (block_touch_ok s p i bl k b (chunk (Z.to_nat k) c) true); try done; [by apply Hb|by left]|].
  intros _ s1 (q & d & Htb & _ & Hd). specialize (Hd eq_refl). subst d.
  pose proof Htb as (_ & _ & Hex & _ & Hin & _).
  wp_step. eapply wp_get_block; [rewrite Hin; apply lookup_insert_eq|reflexivity|
    by apply list_lookup_insert_eq; eapply lookup_lt_Some|].
  wp_step. eapply wp_load; [exact Hex|]. by apply (HK q s1 _ eq_refl).
Qed.

(** A hole stands for zeros of any length. *)
Lemma contents_ok_ext s i c c' bl :
  contents_ok s i c -> Inode.blocks i = Some bl -> nblocks (zlen c') = nblocks (zlen c) ->
  (forall k b, bl !! k = Some b -> chunk k c' = chunk k c \/
     Block.type b = Block.ZERO /\ chunk k c' = replicate (length (chunk k c')) 0) ->
  contents_ok s i c'.
Proof.
  intros (bl0 & Hbl0 & Hnb & Hb) Hbl Hn Hc. assert (bl0 = bl) as -> by congruence.
  exists bl. split_and!; [done|lia|]. intros k b Hk. specialize (Hb k b Hk).
  destruct (Hc k b Hk) as [->|[Ht Hz]]; [done|]. unfold block_ok in *. rewrite Ht in *. tauto.
Qed.

(** If the last block is a hole, or is full already, nothing has to be done. *)
Lemma resize_last_hole s i c bl k b m :
  contents_ok s i c -> Inode.blocks i = Some bl -> bl !! k = Some b -> length bl = S k ->
  nblocks (Z.of_nat m) = zlen bl -> Block.type b = Block.ZERO -> contents_ok s i (resize_bytes c m).
Proof.
  intros Hc Hbl Hk Hlen Hm Ht. pose proof Hc as (bl0 & Hbl0 & Hnb & Hb).
  assert (bl0 = bl) as -> by congruence. pose proof BS_pos as HBS.
  eapply contents_ok_ext; [done|done|rewrite length_resize_bytes; lia|].
  intros j bj Hj. apply lookup_lt_Some in Hj as Hjl. destruct (decide (j = k)) as [->|Hne].
  - right. assert (bj = b) as -> by congruence. split; [done|].
    specialize (Hb k b Hk). unfold block_ok in Hb. rewrite Ht in Hb. destruct Hb as (_ & _ & Hz).
    rewrite chunk_resize, Hz, resize_zeros, length_replicate. done.
  - left. apply chunk_resize_full. pose proof (length_chunk j c).
    pose proof (proj1 (nblocks_spec (Z.of_nat m) (Z.of_nat k)) ltac:(lia)).
    pose proof (proj1 (nblocks_spec (zlen c) (Z.of_nat k)) ltac:(lia)).
    assert ((Z.of_nat j + 1) * BS <= Z.of_nat k * BS) by nia. lia.
Qed.

Lemma lastblock_spec n : 0 < n -> lastblock n = n - (nblocks n - 1) * BS.
Proof.
  intros Hn. pose proof BS_pos as HBS. unfold lastblock.
  pose proof (Z.div_mod n BS ltac:(lia)) as Hdm. pose proof (Z.mod_pos_bound n BS HBS) as Hmod.
  assert (Hq : 0 <= n / BS) by (apply Z.div_pos; lia).
  rewrite (proj2 (Z.ltb_lt 0 n)), andb_true_r by done. destruct (Z.eqb_spec (n mod BS) 0) as [E|E].
  - assert (nblocks n = n / BS) as ->; [|lia].
    enough (n / BS - 1 < nblocks n /\ ~ n / BS < nblocks n) by lia.
    rewrite !nblocks_spec. nia.
  - assert (nblocks n = n / BS + 1) as ->; [|lia].
    enough (n / BS < nblocks n /\ ~ n / BS + 1 < nblocks n) by lia.
    rewrite !nblocks_spec. nia.
Qed.

Lemma nblocks_full k : 0 <= k -> nblocks (k * BS) = k.
Proof.
  intros. pose proof BS_pos. enough (k - 1 < nblocks (k * BS) /\ ~ k < nblocks (k * BS)) by lia.
  rewrite !nblocks_spec. lia.
Qed.

Lemma blocks_step_same s p i c c' :
  blocks_state p i c s -> contents_ok s i c' -> blocks_step p i i c' s s.
Proof. intros (? & ? & ? & _) ?. split; [done|apply step_frame_refl]. Qed.

Lemma blocks_state_length p i c s bl :
  blocks_state p i c s -> Inode.blocks i = Some bl -> zlen bl = nblocks (zlen c).
Proof. intros (_ & _ & _ & (bl0 & Hbl0 & Hnb & _)) Hbl. congruence. Qed.

Lemma truncate_extend_ok s p i bl c :
  blocks_state p i c s -> Inode.blocks i = Some bl ->
  wp (truncate_extend (Some p) (zlen bl) (lastblock (zlen c))) s (fun _ s' =>
    exists i', blocks_step p i i' (resize_bytes c (length bl * Z.to_nat BS)) s s').
Proof.
  intros Hbs Hbl. pose proof BS_pos as HBS. pose proof Hbs as (_ & _ & Hp & Hc).
  pose proof (blocks_state_length _ _ _ _ _ Hbs Hbl) as Hnb.
  assert (Hm : nblocks (Z.of_nat (length bl * Z.to_nat BS)) = zlen bl).
  { rewrite Nat2Z.inj_mul, Z2Nat.id by lia. apply nblocks_full. lia. }
  unfold truncate_extend, when. destruct (Z.ltb_spec 0 (zlen bl)) as [Hpos|Hz]; cycle 1.
  { wp_step. exists i. eapply blocks_step_same; [done|].
    assert (c = []) as ->; [|by replace (length bl) with 0%nat by lia].
    destruct c; [done|]. exfalso. assert (~ 0 < nblocks (zlen (z :: c))) by lia.
    rewrite nblocks_spec in *. simpl in *. lia. }
  set (k := zlen bl - 1). assert (Hlen : length bl = S (Z.to_nat k)) by lia.
  destruct (lookup_lt_is_Some_2 bl (Z.to_nat k)) as [b Hk]; [lia|].
  pose proof (proj1 (nblocks_spec (zlen c) k) ltac:(lia)) as Hck.
  wp_step. eapply wp_get_block; [done..|]. unfold is_zero. case_bool_decide as Hz; simpl.
  { exists i. eapply blocks_step_same; [done|]. by eapply (resize_last_hole s i c bl (Z.to_nat k) b). }
  rewrite lastblock_spec by lia.
  pose proof (length_chunk (Z.to_nat k) c) as Hlc. rewrite Z2Nat.id in Hlc by lia.
  destruct (Z.ltb_spec (zlen c - (nblocks (zlen c) - 1) * BS) BS) as [Hlt|Hge]; cycle 1.
  { wp_step. exists i. eapply blocks_step_same; [done|].
    assert (length bl * Z.to_nat BS = length c)%nat as ->; [|by rewrite resize_bytes_id].
    assert (~ zlen bl * BS < zlen c) by (rewrite <- nblocks_spec; lia). lia. }
  eapply touch_last; [done..|lia|done|done|]. intros q s1 d Hd Hex Htb. simpl.
  pose proof (resize_str_ok s1 q d BS (fun _ s' => exists i', blocks_step p i i'
    (resize_bytes c (length bl * Z.to_nat BS)) s s') Hex ltac:(lia)) as Hr.
  unfold when in Hr. rewrite (proj2 (Z.ltb_lt (zlen d) BS)) in Hr by (rewrite Hd; lia).
  apply Hr. eexists. replace (Z.to_nat BS)
    with (length bl * Z.to_nat BS - Z.to_nat k * Z.to_nat BS)%nat at 2 by nia.
  subst d. by eapply resize_last_step.
Qed.

Lemma truncate_last_ok s p i bl c old_len size :
  blocks_state p i c s -> Inode.blocks i = Some bl -> 0 <= size -> nblocks size = zlen bl ->
  (size < old_len -> lastblock size = BS -> zlen bl * BS = size -> zlen c = size) ->
  wp (truncate_last (Some p) old_len size (zlen bl)) s (fun _ s' =>
    exists i', blocks_step p i i' (resize_bytes c (Z.to_nat size)) s s').
Proof.
  intros Hbs Hbl Hsz Hn Hfull. pose proof BS_pos as HBS. pose proof Hbs as (_ & _ & Hp & Hc).
  pose proof (blocks_state_length _ _ _ _ _ Hbs Hbl) as Hnb.
  assert (Hm : nblocks (Z.of_nat (Z.to_nat size)) = zlen bl) by (by rewrite Z2Nat.id).
  unfold truncate_last, when. destruct (Z.ltb_spec 0 (zlen bl)) as [Hpos|Hz]; cycle 1.
  { wp_step. exists i. eapply blocks_step_same; [done|].
    assert (~ 0 < nblocks (zlen c)) as Hcz by lia. assert (~ 0 < nblocks size) as Hsz0 by lia.
    rewrite nblocks_spec in *. replace (Z.to_nat size) with (length c) by lia.
    by rewrite resize_bytes_id. }
  set (k := zlen bl - 1). assert (Hlen : length bl = S (Z.to_nat k)) by lia.
  destruct (lookup_lt_is_Some_2 bl (Z.to_nat k)) as [b Hk]; [lia|].
  pose proof (proj1 (nblocks_spec size k) ltac:(lia)) as Hsk.
  wp_step. eapply wp_get_block; [done..|]. cbv zeta. unfold is_zero. case_bool_decide as Hz; simpl.
  { exists i. eapply blocks_step_same; [done|]. by eapply (resize_last_hole s i c bl (Z.to_nat k) b). }
  destruct ((size <? old_len) && (lastblock size =? BS)) eqn:E; simpl.
  { apply andb_true_iff in E as [E1 E2]. apply Z.ltb_lt in E1. apply Z.eqb_eq in E2.
    exists i. eapply blocks_step_same; [done|].
    rewrite lastblock_spec, Hn in E2 by lia. rewrite <- Hfull, Nat2Z.id, resize_bytes_id;
      [done|lia| |lia]. by rewrite lastblock_spec, Hn by lia. }
  eapply touch_last; [done..|lia|done|done|]. intros q s1 d Hd Hex Htb. simpl.
  eapply resize_str_ok; [done|lia|]. eexists.
  replace (Z.to_nat (size - k * BS)) with (Z.to_nat size - Z.to_nat k * Z.to_nat BS)%nat by nia.
  subst d. by eapply resize_last_step.
Qed.

(** Growing the array of blocks adds holes. *)
Lemma grow_blocks_step s p i bl c size :
  blocks_state p i (resize_bytes c (length bl * Z.to_nat BS)) s -> Inode.blocks i = Some bl ->
  zlen bl = nblocks (zlen c) -> 0 <= size -> zlen bl < nblocks size ->
  let i' := i <| Inode.blocks ::= fmap (fun l => g_array_set_size l (nblocks size)) |> in
  blocks_step p i i' (resize_bytes c (Z.to_nat size)) s (set_inode p i' s).
Proof.
  intros (Hok & Hst & Hp & Hc) Hbl Hnb Hsz Hlt i'. pose proof BS_pos as HBS.
  set (bl' := g_array_set_size bl (nblocks size)).
  assert (Hi' : Inode.blocks i' = Some bl') by (unfold i'; simpl; by rewrite Hbl).
  assert (Hbl' : bl' = bl ++ replicate (Z.to_nat (nblocks size) - length bl) Block.zero).
  { unfold bl', g_array_set_size. by rewrite take_ge by lia. }
  assert (Hz : forall f : Block.t -> Z, f Block.zero = 0 -> lsum f bl' = lsum f bl).
  { intros f Hf. rewrite Hbl', lsum_app.
    enough (forall n, lsum f (replicate n Block.zero) = 0) as -> by lia.
    induction n; simpl; [done|]. unfold lsum in *. simpl. lia. }
  destruct (inode_refs_step s (set_inode p i' s) p i i' Hok Hst Hp)
    as (Hok' & Hst' & Hp' & Hkp & Hff & Hd).
  { apply set_inode_touches. }
  { intros q. unfold inode_strs, blocks_of. rewrite Hi', Hbl. simpl. by apply Hz. }
  { intros q. unfold inode_logs, blocks_of. rewrite Hi', Hbl. simpl. by rewrite Hz. }
  pose proof (proj1 (nblocks_spec size (zlen bl)) ltac:(lia)) as Hs1.
  split; [split_and!; [done|done|done|]|split_and!; [done|done|done|]].
  - destruct Hc as (bl0 & Hbl0 & _ & Hb). assert (bl0 = bl) as -> by congruence.
    exists bl'. split_and!; [done| |].
    { rewrite Hbl', length_app, length_replicate, length_resize_bytes, Z2Nat.id by lia. lia. }
    intros j b Hj. rewrite Hbl' in Hj. apply lookup_app_Some in Hj as [Hj|[Hge Hj]].
    + assert (chunk j (resize_bytes c (Z.to_nat size))
              = chunk j (resize_bytes c (length bl * Z.to_nat BS))) as ->.
      { rewrite !chunk_resize. apply lookup_lt_Some in Hj.
        assert ((Z.of_nat j + 1) * BS <= zlen bl * BS) by nia. f_equal. lia. }
      apply (block_ok_keeps nox nox nox nox s _ p i' bl' j); try done; [|by apply Hb].
      rewrite Hbl'. by apply lookup_app_l_Some.
    + apply lookup_replicate in Hj as [-> _]. unfold block_ok. simpl. split_and!; [done..|].
      rewrite chunk_resize. assert (chunk j c = []) as ->; [|by rewrite (resize_zeros 0), length_replicate].
      apply nil_length_inv. pose proof (length_chunk j c).
      assert (~ zlen bl * BS < zlen c) by (rewrite <- nblocks_spec; lia). nia.
  - unfold ndirty, blocks_of. rewrite Hi', Hbl. simpl. by rewrite Hz.
Qed.

(** Dropping the references of removed blocks. *)
Lemma truncate_delete_ok bs s :
  heap_ok (xadds nox (Block.dirty <$> bs)) (xadds nox (Block.ref <$> bs)) s ->
  wp (truncate_delete bs) s (fun _ s' =>
    heap_ok nox nox s' /\ keeps s s' /\ storage_view s s' /\ inodes s' = inodes s /\
    fs_core (fs s') = (FS.inodes (fs s), FS.next_inum (fs s),
      FS.cache_dirty (fs s) - lsum (fun b => if is_dirty b then 1 else 0) bs)).
Proof.
  revert s. induction bs as [|b bs IH]; intros s Hok.
  { simpl. rewrite !xadds_nil in Hok. split_and!; [done|reflexivity|done|done|].
    unfold fs_core. f_equal. simpl. lia. }
  simpl in Hok. rewrite !xadds_cons in Hok. unfold truncate_delete. simpl. wp_step. wp_step.
  set (s1 := if is_dirty b then s <| fs ::= (fun f => f <| FS.cache_dirty ::= Z.add (-1) |>) |> else s).
  apply wp_mono with (P := fun _ s' => s' = s1).
  { unfold s1, when. by destruct (is_dirty b). }
  assert (Hok1 : heap_ok (xadd (xadds nox (Block.dirty <$> bs)) (Block.dirty b))
                   (xadd (xadds nox (Block.ref <$> bs)) (Block.ref b)) s1).
  { unfold s1. destruct (is_dirty b); [|done].
    apply (heap_ok_fs _ _ s ((fs s) <| FS.cache_dirty ::= Z.add (-1) |>)); [done..|].
    apply (ho_loc _ _ _ Hok). }
  intros _ ? ->. wp_step. eapply wp_mono; [apply bluesky_string_unref_ok; [done|auto with bluesky]|].
  intros _ s2 (Hok2 & Hsv2 & Hl2 & Hf2 & _).
  eapply wp_mono; [apply bluesky_cloudlog_unref_ok; [done|auto with bluesky..]|].
  intros _ s3 (Hok3 & Hsv3). eapply wp_mono; [by apply IH|].
  intros _ s4 (Hok4 & Hk4 & Hv4 & Hin4 & Hfs4).
  assert (Hsv : survive s1 s3) by (by etransitivity).
  split_and!; [done| | | |].
  - transitivity s3; [|done]. transitivity s1; [|by eapply keeps_survive; eauto with bluesky].
    unfold s1. destruct (is_dirty b); [|reflexivity]. by apply keeps_same.
  - destruct Hv4 as [D C M F A].
    split; rewrite ?D, ?C, ?M, ?(sv_disk _ _ Hsv), ?(sv_cloud _ _ Hsv), ?(sv_log _ _ Hsv);
      try (unfold s1; by destruct (is_dirty b)).
    + intros f. rewrite F, (sv_files _ _ Hsv). unfold s1. by destruct (is_dirty b).
    + etransitivity; [|exact A]. etransitivity; [|exact (sv_addr _ _ Hsv)].
      apply unmaps_same. unfold s1. by destruct (is_dirty b).
  - rewrite Hin4, (sv_inodes _ _ Hsv). unfold s1. by destruct (is_dirty b).
  - rewrite Hfs4. destruct (sv_fs _ _ Hsv) as (?&?&?&?&?&Ef). rewrite Ef. unfold s1, lsum.
    destruct (is_dirty b); simpl; f_equal; lia.
Qed.

Lemma blind_truncate_delete bs : inode_blind (truncate_delete bs).
Proof.
  apply blind_for_each. intros b. apply blind_bind; [|intros _; apply blind_bind; [|intros _]].
  - apply blind_when. by apply blind_modify.
  - apply blind_string_unref.
  - apply blind_cloudlog_unref.
Qed.

(** Removing blocks: the inode records them while their references are dropped. *)
Lemma shrink_blocks_step s p i bl c n :
  blocks_state p i c s -> Inode.blocks i = Some bl -> 0 <= n < zlen bl ->
  wp (truncate_delete (drop (Z.to_nat n) bl);;
      upd inodes (Some p) (fun i =>
        i <| Inode.blocks ::= fmap (fun l => g_array_set_size l n) |>)) s (fun _ s' =>
    exists i', blocks_step p i i' (resize_bytes c (Z.to_nat n * Z.to_nat BS)) s s').
Proof.
  intros Hbs Hbl Hn. pose proof BS_pos as HBS. pose proof Hbs as (Hok & Hst & Hp & Hc).
  pose proof (blocks_state_length _ _ _ _ _ Hbs Hbl) as Hnb.
  set (m := Z.to_nat n) in *. set (i' := i <| Inode.blocks := Some (take m bl) |>).
  set (g := <[p := i']> (inodes s)). set (t := s <| inodes := g |>).
  assert (Hsum : forall f : Block.t -> Z, lsum f bl = lsum f (take m bl) + lsum f (drop m bl)).
  { intros f. by rewrite <- lsum_app, take_drop. }
  assert (Hokt : heap_ok (xadds nox (Block.dirty <$> drop m bl)) (xadds nox (Block.ref <$> drop m bl)) t).
  { apply (heap_ok_set_inode nox nox _ _ s p i i' Hok Hp).
    - intros q. unfold inode_strs, i', blocks_of, xadds. rewrite Hbl. simpl.
      rewrite Hsum, lsum_fmap. unfold nox. lia.
    - intros q. unfold inode_logs, i', blocks_of, xadds. rewrite Hbl. simpl.
      rewrite Hsum, lsum_fmap. unfold nox. lia. }
  wp_step. eapply wp_mono; [eapply blind_wp;
    [apply blind_truncate_delete|apply (truncate_delete_ok _ t Hokt)]|].
  intros _ s1 ((Hok1 & Hk1 & Hv1 & Hin1 & Hfs1) & Hin). eapply wp_upd; [by rewrite Hin|].
  set (s2 := setf inodes _ s1).
  assert (s2 = s1 <| inodes := g |>) as E2.
  { unfold s2, setf. simpl. f_equal. rewrite Hin. unfold g, i'. f_equal. destruct i; simpl in *.
    rewrite Hbl. unfold setf; simpl. do 2 f_equal. unfold g_array_set_size. fold m.
    replace (m - length bl)%nat with 0%nat by lia. apply app_nil_r. }
  rewrite E2. clear s2 E2. set (s2 := s1 <| inodes := g |>) in *.
  assert (Hp2 : inodes s2 !! p = Some i') by (simpl; apply lookup_insert_eq).
  assert (Hkp : keeps s s2) by (transitivity t; [by apply keeps_same|done]).
  assert (Hlc : zlen (resize_bytes c (m * Z.to_nat BS)) = n * BS) by (rewrite length_resize_bytes; lia).
  pose proof (proj1 (nblocks_spec (zlen c) n) ltac:(lia)) as Hcn.
  unfold fs_core in Hfs1. injection Hfs1 as F1 F2 F3.
  exists i'. split; [split_and!; [done|by apply (storage_ok_view t); [|apply (storage_ok_view s); [apply storage_view_same|]]|done|]|
    split_and!; [|done|done|]].
  - destruct Hc as (bl0 & Hbl0 & _ & Hb). assert (bl0 = bl) as -> by congruence.
    exists (take m bl). split_and!; [done| |].
    { rewrite Hlc, nblocks_full, length_take by lia. lia. }
    intros j b Hj. rewrite chunk_resize_full; cycle 1.
    { pose proof (length_chunk j c). apply lookup_lt_Some in Hj. rewrite length_take in Hj.
      assert ((Z.of_nat j + 1) * BS <= n * BS) by nia. lia. }
    apply (block_ok_keeps nox nox nox nox s s2 p i' (take m bl) j b); try done.
    apply Hb. by apply lookup_take_Some in Hj as [? _].
  - apply (file_frame_keeps nox nox nox nox); try done. intros p' Hne. simpl. unfold g. by rewrite lookup_insert_ne.
  - change (FS.cache_dirty (fs s1) - ndirty i' = FS.cache_dirty (fs s) - ndirty i).
    change (fs (s1 <| inodes := g |>)) with (fs s1) in F3. rewrite F3.
    unfold ndirty, i', blocks_of. rewrite Hbl. simpl. rewrite (Hsum (fun b => if is_dirty b then 1 else 0)). lia.
Qed.

(** The three cases for the number of blocks. *)
Lemma truncate_blocks_ok s p i bl c size :
  blocks_state p i c s -> Inode.blocks i = Some bl -> 0 <= size ->
  wp (if zlen bl <? nblocks size then
        truncate_extend (Some p) (zlen bl) (lastblock (zlen c));;
        upd inodes (Some p) (fun i =>
          i <| Inode.blocks ::= fmap (fun l => g_array_set_size l (nblocks size)) |>)
      else if nblocks size <? zlen bl then
        truncate_delete (drop (Z.to_nat (nblocks size)) bl);;
        upd inodes (Some p) (fun i =>
          i <| Inode.blocks ::= fmap (fun l => g_array_set_size l (nblocks size)) |>)
      else mret tt) s (fun _ s1 => exists i1 c1, blocks_step p i i1 c1 s s1 /\
    nblocks (zlen c1) = nblocks size /\
    resize_bytes c1 (Z.to_nat size) = resize_bytes c (Z.to_nat size) /\
    (size < zlen c -> nblocks size * BS = size -> zlen c1 = size)).
Proof.
  intros Hbs Hbl Hsz. pose proof BS_pos as HBS.
  pose proof (blocks_state_length _ _ _ _ _ Hbs Hbl) as Hnb.
  destruct (Z.ltb_spec (zlen bl) (nblocks size)) as [Hlt|Hge].
  - wp_step. eapply wp_mono; [by apply truncate_extend_ok|]. intros _ s1 (i1 & Hs1 & Hf1).
    pose proof Hs1 as (_ & _ & Hp1 & (bl1 & Hbl1 & Hl1 & _)).
    rewrite length_resize_bytes, Nat2Z.inj_mul, Z2Nat.id, nblocks_full in Hl1 by lia.
    eapply wp_upd; [done|]. pose proof (grow_blocks_step s1 p i1 bl1 c size) as Hg.
    rewrite Hl1 in Hg. replace (length bl1) with (length bl) in Hg by lia.
    specialize (Hg Hs1 Hbl1 Hnb Hsz Hlt).
    eexists _, _. split_and!; [by eapply blocks_step_trans; [by split|exact Hg]| | |].
    + by rewrite length_resize_bytes, Z2Nat.id.
    + apply resize_resize_bytes. lia.
    + by rewrite length_resize_bytes, Z2Nat.id.
  - destruct (Z.ltb_spec (nblocks size) (zlen bl)) as [Hlt|Hge'].
    + pose proof (nblocks_nonneg size Hsz). assert (~ nblocks size < nblocks size) as Hn by lia.
      rewrite nblocks_spec in Hn.
      eapply wp_mono; [by apply shrink_blocks_step|]. intros _ s1 (i1 & Hs1).
      eexists _, _. split_and!; [done| | |].
      * by rewrite length_resize_bytes, Nat2Z.inj_mul, !Z2Nat.id, nblocks_full by lia.
      * apply resize_resize_bytes. lia.
      * intros _ E. rewrite length_resize_bytes. lia.
    + wp_step. exists i, c. split_and!; [split; [done|apply step_frame_refl]|lia|done|].
      intros Hlt E. assert (~ nblocks (zlen c) < nblocks (zlen c)) as Hn by lia.
      rewrite nblocks_spec in Hn. replace (nblocks size) with (nblocks (zlen c)) in E by lia. lia.
Qed.

Lemma file_truncate_ok s p i c size :
  file_state p i c s -> 0 <= size ->
  wp (bluesky_file_truncate (Some p) size) s (fun _ s' =>
    if decide (size <= BLUESKY_MAX_FILE_SIZE)
    then exists i', file_step p i i' (resize_bytes c (Z.to_nat size)) s s'
    else s' = s).
Proof.
  intros Hf Hsz. pose proof Hf as (_ & _ & Hp & Ho). pose proof BS_pos as HBS.
  unfold bluesky_file_truncate.
  destruct (Z.leb_spec size BLUESKY_MAX_FILE_SIZE) as [Hmax|Hmax]; simpl negb; cbv iota; cycle 1.
  { wp_step. by rewrite decide_False by lia. }
  wp_step. eapply wp_load; [done|]. rewrite (fo_size _ _ _ Ho).
  destruct (Z.eqb_spec size (zlen c)) as [->|Hne].
  { wp_step. rewrite decide_True by lia. exists i. rewrite Nat2Z.id, resize_bytes_id.
    split; [done|apply step_frame_refl]. }
  cbv zeta. change ((size + BS - 1) / BS) with (nblocks size).
  destruct (fo_blocks _ _ _ Ho) as (bl & Hbl & Hnb & Hb).
  wp_step. eapply wp_get_blocks; [done..|].
  wp_step. eapply wp_mono; [apply truncate_blocks_ok; [by apply file_state_blocks|done..]|].
  intros _ s1 (i1 & c1 & Hs1 & Hn1 & Er & Hfull).
  pose proof (proj1 Hs1) as (_ & _ & _ & (bl1 & Hbl1 & Hl1 & _)).
  wp_step. rewrite <- Hn1, <- Hl1.
  eapply wp_mono; [apply (truncate_last_ok s1 p i1 bl1 c1 (zlen c) size (proj1 Hs1)); try done; [lia|]|].
  { intros ? ? ?. apply Hfull; [done|]. by rewrite <- Hn1, <- Hl1. }
  intros _ s2 (i2 & Hs2). rewrite Er in Hs2.
  pose proof (proj1 Hs2) as (_ & _ & Hp2 & _).
  wp_step. eapply wp_upd; [done|]. set (i3 := setf Inode.size _ i2).
  pose proof (inode_only_step s2 (set_inode p i3 s2) p i2 i3 _ (proj1 Hs2)
    (set_inode_touches _ _ _) eq_refl eq_refl eq_refl eq_refl) as Hs3.
  pose proof (blocks_step_trans _ _ _ _ _ _ _ _ _ Hs1 (blocks_step_trans _ _ _ _ _ _ _ _ _ Hs2 Hs3))
    as [(Hok3 & Hst3 & Hp3 & Hc3) Hfr].
  assert (Hf3 : file_step p i i3 (resize_bytes c (Z.to_nat size)) s (set_inode p i3 s2)).
  { split; [|done]. split_and!; [done..|]. destruct Hfr as (_ & Ht & _).
    split; [by rewrite Ht, (fo_type _ _ _ Ho)|simpl|..|done];
      rewrite length_resize_bytes, Z2Nat.id; done. }
  eapply wp_mono; [apply (update_ctime_step _ _ _ _ _ (proj1 Hf3))|].
  intros _ s4 (i4 & Hs4). rewrite decide_True by lia. exists i4. by eapply file_step_trans.
Qed.

(** C3: [bluesky_file_truncate] cuts the contents at [size] or pads them with
    zeros up to it, whether blocks are added, removed or resized, with all
    references of removed blocks dropped and the count of dirty blocks kept right;
    a size beyond the maximum changes nothing. *)
Theorem file_truncate_refines s p i c size :
  file_state p i c s -> 0 <= size ->
  wp (bluesky_file_truncate (Some p) size) s (fun _ s' =>
    if decide (size <= BLUESKY_MAX_FILE_SIZE)
    then exists i', file_step p i i' (resize_bytes c (Z.to_nat size)) s s'
    else s' = s).
Proof. apply file_truncate_ok. Qed.

End ops.

Lemma file_write_refines_witness :
  wp (bluesky_file_write (Some 1%positive) 1 [120]) sample_state (fun _ s' =>
    exists i', file_step 1 sample_inode i' [97; 120; 99] sample_state s').
Proof.
  refine (wp_mono _ _ _ _ (file_write_refines sample_state 1 sample_inode [97; 98; 99] 1 [120]
    sample_file_state _) _); [lia|].
  intros _ s'. rewrite decide_True by (simpl; lia). done.
Defined.

Lemma file_read_refines_witness :
  wp (bluesky_file_read (Some 1%positive) 1 2) sample_state (fun out s' => out = Some [98; 99]).
Proof.
  refine (wp_mono _ _ _ _ (file_read_refines sample_state 1 sample_inode [97; 98; 99] 1 2
    sample_file_state _ _) _); [lia|lia|].
  intros out s'. rewrite decide_True by (simpl; lia). by intros [-> _].
Defined.

Lemma file_truncate_refines_witness :
  wp (bluesky_file_truncate (Some 1%positive) 5) sample_state (fun _ s' =>
    exists i', file_step 1 sample_inode i' [97; 98; 99; 0; 0] sample_state s').
Proof.
  refine (wp_mono _ _ _ _ (file_truncate_refines sample_state 1 sample_inode [97; 98; 99] 5
    sample_file_state _) _); [lia|].
  intros _ s'. rewrite decide_True by (unfold BLUESKY_MAX_FILE_SIZE, BLUESKY_BLOCK_SIZE; lia). done.
Defined.
