(* ===== verification/FileFlush.v ===== *)
(** * Flushing regular files (src/bluesky/file.c)

    [bluesky_file_flush] turns the dirty blocks of a file into cloud log items
    and queues them for the journal: the contents stay, no block stays dirty, and
    every new item is in the hands of the log, of the block and of the caller. *)

From S2P Require Import Prelude State Strings Ownership CloudLog Lru Inodes Fetch File FileOps.
From Stdlib Require Import ZArith Lia.
From stdpp Require Import base numbers gmap option list.

Open Scope Z_scope.

Section flush.
Context `{Env0 : Env} `{!EnvSpec Env0} `{Fetch}.

(** The state after the flush of one dirty block: item [l] is published, inode
    [i'] refers to it. *)
Definition flushed (p : ptr) (i' : Inode.t) (l : CloudLog.t) (s : State) : State :=
  let x := next_ptr s in
  s <| cloudlogs ::= <[x := l]> |> <| next_ptr := Pos.succ x |> <| randoms ::= S |>
    <| inodes ::= <[p := i']> |> <| log ::= (fun g => g <| Log.queue ::= fun q => q ++ [x] |>) |>
    <| fs := (stats_add 1 (stats_counter l) (fs s))
               <| FS.locations ::= <[CloudLog.id l := x]> |> <| FS.cache_dirty ::= Z.add (-1) |> |>.

(** The item made from a dirty block of bytes [q]. *)
Definition flush_item (inum : Z) (q : option ptr) (id : BlueSkyCloudID) : CloudLog.t :=
  (new_log id) <| CloudLog.type := LOGTYPE_DATA |> <| CloudLog.inum := inum |>
    <| CloudLog.data := q |> <| CloudLog.refcount := 3 |>
    <| CloudLog.location_flags := CLOUDLOG_UNCOMMITTED |> <| CloudLog.data_lock_count := 1 |>.

Lemma block_flush_run s p i bl k b q items :
  inodes s !! p = Some i -> Inode.blocks i = Some bl -> bl !! Z.to_nat k = Some b ->
  Block.type b = Block.DIRTY -> Block.ref b = None -> Block.dirty b = q ->
  wp (bluesky_block_flush (Some p) k items) s (fun items' s' =>
    items' = next_ptr s :: items /\
    s' = flushed p (with_block i bl (Z.to_nat k) (Block.mk Block.REF (Some (next_ptr s)) None))
           (flush_item (Inode.inum i) q (gcry_random (randoms s) 16)) s).
Proof.
  intros Hp Hbl Hk Ht Hr Hq. unfold bluesky_block_flush.
  wp_step. eapply wp_load; [done|]. wp_step. eapply wp_get_block; [done..|].
  unfold is_dirty. rewrite Ht. simpl negb. cbv iota. rewrite Hr. wp_step. wp_step; [done|].
  unfold bluesky_cloudlog_new, bluesky_cloudlog_new_id, bluesky_crypt_random_bytes,
    bluesky_cloudlog_stats_update, bluesky_cloudlog_sync, bluesky_log_item_submit,
    bluesky_cloudlog_ref, bluesky_cloudlog_insert, bluesky_cloudlog_insert_locked.
  wp_run. all: try (simpl in *; done).
  eapply wp_set_block; [done..|]. unfold add_cache_dirty. wp_run. split; [done|].
  apply State_ext; [reflexivity|reflexivity| |reflexivity| |reflexivity| |reflexivity..].
  - simpl. rewrite !insert_insert_eq, Hq. reflexivity.
  - reflexivity.
  - subst q. reflexivity.
Qed.
Lemma flushed_heap_ok xl s p i i' q l :
  heap_ok nox xl s -> xnn xl -> inodes s !! p = Some i ->
  dead l = false -> CloudLog.refcount l = 3 -> CloudLog.links l = [] -> CloudLog.data l = Some q ->
  (forall r, inode_strs r i' = inode_strs r i - points r (Some q)) ->
  (forall r, inode_logs r i' = inode_logs r i + points r (Some (next_ptr s))) ->
  heap_ok nox (xadd xl (Some (next_ptr s))) (flushed p i' l s).
Proof.
  intros Hok Hxl Hp Hd Hr Hl Hq Hs Hlg. set (x := next_ptr s) in *.
  pose proof (heap_ok_alloc_log nox xl (s <| randoms ::= S |>) (new_log (CloudLog.id l))
    (heap_ok_randoms _ _ _ _ Hok) eq_refl eq_refl eq_refl eq_refl) as Hok1.
  set (s1 := alloc_log _ _) in Hok1.
  assert (Hx : cloudlogs s1 !! x = Some (new_log (CloudLog.id l))) by (simpl; apply lookup_insert_eq).
  assert (Hown : log_owners s1 x + xl x <= 0).
  { destruct (Z.le_gt_cases (log_owners s1 x + xl x) 0) as [|Hgt]; [done|].
    destruct (ho_logs _ _ _ Hok1 x) as (l0 & Hl0 & Hle); unfold xadd in *.
    - change (next_ptr (s <| randoms ::= S |>)) with x. rewrite points_self. lia.
    - change (next_ptr (s <| randoms ::= S |>)) with x in Hle. rewrite points_self, Hx in *.
      injection Hl0 as <-. simpl in Hle. lia. }
  assert (Hok2 : heap_ok (fun r => - points r (Some q)) (fun r => xl r + 3 * points r (Some x))
                   (set_log x l s1)).
  { eapply heap_ok_set_log; [exact Hok1|exact Hx|done|by intros _| | |].
    - intros r. unfold log_strs. rewrite Hd, Hq. simpl. rewrite points_None. unfold nox. lia.
    - intros r Hne. unfold log_logs, xadd. rewrite Hd, Hl. simpl.
      change (next_ptr (s <| randoms ::= S |>)) with x. rewrite !points_ne by done. lia.
    - unfold log_logs. rewrite Hd, Hl, Hr. simpl. rewrite points_self. lia. }
  assert (Hok3 : heap_ok (fun r => - points r (Some q)) (fun r => xl r + 3 * points r (Some x))
                   ((set_log x l s1) <| fs := fs (flushed p i' l s) |>)).
  { apply heap_ok_fs; [done|by destruct (stats_add_fs 1 (stats_counter l) (fs s)) as (?&?&?&E); simpl; rewrite E..|].
    intros id r. simpl. destruct (stats_add_fs 1 (stats_counter l) (fs s)) as (?&?&?&E). rewrite E.
    simpl. destruct (decide (id = CloudLog.id l)) as [->|Hne].
    - rewrite lookup_insert_eq. intros [= <-]. exists l. by rewrite lookup_insert_eq.
    - rewrite lookup_insert_ne by done. intros Hid.
      destruct (ho_loc _ _ _ Hok1 id r Hid) as (l0 & Hl0 & Hi). simpl in Hl0.
      destruct (decide (r = x)) as [->|Hrx].
      + rewrite lookup_insert_eq in Hl0. injection Hl0 as <-. done.
      + rewrite lookup_insert_ne by done. eauto. }
  eapply (heap_ok_move _ _ _ _ _ _ Hok3); try reflexivity.
  - simpl. by rewrite insert_insert_eq.
  - intros r. unfold str_owners. simpl. rewrite insert_insert_eq, (msum_insert _ _ _ _ _ Hp), Hs.
    unfold nox. lia.
  - intros r. unfold log_owners, queue_logs. simpl. rewrite insert_insert_eq, (msum_insert _ _ _ _ _ Hp), Hlg.
    rewrite lsum_app. unfold xadd. simpl. fold x. lia.
  - intros r Hrr. simpl in *. destruct (ho_fresh _ _ _ Hok r) as (_ & _ & _ & Hi & ?); [unfold x in *; lia|].
    split; [|done]. rewrite lookup_insert_ne; [done|]. congruence.
Qed.

Definition flush_state (p : ptr) (i : Inode.t) (c : bytes) (xl : ptr -> Z) (s : State) : Prop :=
  heap_ok nox xl s /\ xnn xl /\ storage_ok s /\ inodes s !! p = Some i /\ file_ok s i c.

(** The caller holds a reference to each item of [new], and the log has queued
    them. *)
Definition flush_step (p : ptr) (i i' : Inode.t) (c : bytes) (xl : ptr -> Z)
    (new items items' : list ptr) (s s' : State) : Prop :=
  items' = new ++ items /\ flush_state p i' c (xadds xl (Some <$> new)) s' /\
  step_frame p i i' s s' /\ zlen new = ndirty i - ndirty i' /\
  Log.queue (log s') = Log.queue (log s) ++ reverse new.

Lemma flush_state_xeq p i c xl xl' s : xeq xl xl' -> flush_state p i c xl s -> flush_state p i c xl' s.
Proof.
  intros E (Hok & Hx & ?). split_and!; [by rewrite <- E| |tauto..].
  intros r. by rewrite <- E.
Qed.

Lemma flush_step_refl p i c xl items s :
  flush_state p i c xl s -> flush_step p i i c xl [] items items s s.
Proof.
  intros Hf. split_and!; [done| |apply step_frame_refl|simpl; lia|by rewrite app_nil_r].
  revert Hf. apply flush_state_xeq. by rewrite xadds_nil.
Qed.

Lemma flush_step_trans p i1 i2 i3 c xl n1 n2 m1 m2 m3 s1 s2 s3 :
  flush_step p i1 i2 c xl n1 m1 m2 s1 s2 ->
  flush_step p i2 i3 c (xadds xl (Some <$> n1)) n2 m2 m3 s2 s3 ->
  flush_step p i1 i3 c xl (n2 ++ n1) m1 m3 s1 s3.
Proof.
  intros (-> & _ & Hf1 & Hn1 & Hq1) (-> & Hs2 & Hf2 & Hn2 & Hq2). split_and!.
  - by rewrite app_assoc.
  - revert Hs2. apply flush_state_xeq. intros r. unfold xadds. rewrite fmap_app, lsum_app. lia.
  - by eapply step_frame_trans.
  - rewrite length_app. lia.
  - by rewrite Hq2, Hq1, reverse_app, app_assoc.
Qed.

Lemma flushed_keeps xl s p i' l : heap_ok nox xl s -> keeps s (flushed p i' l s).
Proof.
  intros Hok. apply keeps_items; try done.
  - intros r Hr. simpl. by rewrite lookup_insert_ne by lia.
  - simpl. lia.
Qed.

Lemma block_flush_ok xl s p i bl k b c items :
  flush_state p i c xl s -> Inode.blocks i = Some bl -> bl !! Z.to_nat k = Some b ->
  wp (bluesky_block_flush (Some p) k items) s (fun items' s' => exists i' new b',
    flush_step p i i' c xl new items items' s s' /\
    Inode.blocks i' = Some (<[Z.to_nat k := b']> bl) /\ is_dirty b' = false).
Proof.
  intros Hf Hbl Hk. pose proof Hf as (Hok & Hxl & Hst & Hp & Ho).
  destruct (fo_blocks _ _ _ Ho) as (bl0 & Hbl0 & Hnb & Hb).
  assert (bl0 = bl) as -> by congruence. clear Hbl0.
  destruct (is_dirty b) eqn:Ed; cycle 1.
  { unfold bluesky_block_flush. wp_step. eapply wp_load; [done|]. wp_step.
    eapply wp_get_block; [done..|]. rewrite Ed. simpl. exists i, [], b.
    split_and!; [by apply flush_step_refl|by rewrite list_insert_id|done]. }
  pose proof (Hb _ _ Hk) as Hbk. unfold block_ok, is_dirty in *. apply bool_decide_eq_true in Ed.
  rewrite Ed in Hbk. destruct Hbk as (Hr & q & str & Hq & Hstr & Hd).
  eapply wp_mono; [by apply (block_flush_run s p i bl k b (Some q))|].
  intros items' s' (-> & ->). set (b' := Block.mk Block.REF (Some (next_ptr s)) None).
  set (i' := with_block i bl (Z.to_nat k) b'). set (l := flush_item _ _ _).
  assert (Hok' : heap_ok nox (xadd xl (Some (next_ptr s))) (flushed p i' l s)).
  { apply (flushed_heap_ok xl s p i i' q l); try done.
    - intros r. unfold i'. rewrite (inode_strs_with_block i bl _ b) by done.
      rewrite Hq. simpl. rewrite points_None. lia.
    - intros r. unfold i'. rewrite (inode_logs_with_block i bl _ b) by done.
      rewrite Hr, points_None. simpl. lia. }
  assert (Hkp : keeps s (flushed p i' l s)) by (by eapply flushed_keeps).
  assert (Hp' : inodes (flushed p i' l s) !! p = Some i') by (simpl; apply lookup_insert_eq).
  assert (Hxl' : xnn (xadd xl (Some (next_ptr s)))) by auto with bluesky.
  assert (Hnd : ndirty i' = ndirty i - 1).
  { unfold ndirty, i', blocks_of. rewrite Hbl. simpl. rewrite (lsum_insert _ _ _ _ _ Hk).
    unfold is_dirty at 2 3. rewrite Ed. simpl. lia. }
  exists i', [next_ptr s], b'. split_and!; [|done|done]. split_and!; [done| | | |done].
  - apply (flush_state_xeq _ _ _ (xadd xl (Some (next_ptr s)))).
    { intros r. unfold xadds, xadd. simpl. lia. }
    split_and!; [done|done|by apply (storage_ok_view s); [apply storage_view_same|]|done|].
    destruct Ho as [Ht Hs Hm _]. split; [done..|]. exists (<[Z.to_nat k := b']> bl).
    split_and!; [done|by rewrite length_insert|]. intros j bj Hj.
    destruct (decide (j = Z.to_nat k)) as [->|Hne].
    + rewrite list_lookup_insert_eq in Hj by (by eapply lookup_lt_Some). injection Hj as <-.
      unfold block_ok. simpl. split; [done|]. exists (next_ptr s), l.
      rewrite lookup_insert_eq. split_and!; [done..|]. unfold item_bytes. simpl.
      rewrite Hstr. simpl. unfold str_bytes. by rewrite Hd.
    + eapply (block_ok_keeps nox xl nox _ s _ p i' _ j); try done.
      apply Hb. by rewrite list_lookup_insert_ne in Hj.
  - split_and!; [|done|done|].
    + eapply (file_frame_keeps nox xl nox); try done.
      intros p' Hne. simpl. by rewrite lookup_insert_ne.
    + rewrite Hnd. simpl. lia.
  - simpl. rewrite Hnd. lia.
Qed.

Lemma file_flush_loop_ok ks xl s p i bl c items :
  flush_state p i c xl s -> Inode.blocks i = Some bl ->
  (forall k, k ∈ ks -> 0 <= k < zlen bl) ->
  wp (file_flush_loop (Some p) ks items) s (fun items' s' => exists i' new bl',
    flush_step p i i' c xl new items items' s s' /\ Inode.blocks i' = Some bl' /\
    forall j b, bl' !! j = Some b -> is_dirty b = true -> (Z.of_nat j ∉ ks) /\ bl !! j = Some b).
Proof.
  revert xl s i bl items. induction ks as [|k ks IH]; intros xl s i bl items Hf Hbl Hks; simpl.
  { exists i, [], bl. split_and!; [by apply flush_step_refl|done|].
    intros j b Hj _. split; [apply not_elem_of_nil|done]. }
  destruct (lookup_lt_is_Some_2 bl (Z.to_nat k)) as [b Hk].
  { specialize (Hks k ltac:(by left)). lia. }
  wp_step. eapply wp_mono; [by apply (block_flush_ok xl s p i bl k b c)|].
  intros items1 s1 (i1 & new1 & b1 & Hs1 & Hbl1 & Hd1).
  pose proof Hs1 as (_ & Hf1 & _).
  eapply wp_mono; [eapply (IH _ s1 i1 (<[Z.to_nat k := b1]> bl)); [done|done|]|].
  { intros x Hx. rewrite length_insert. apply Hks. by right. }
  intros items2 s2 (i2 & new2 & bl2 & Hs2 & Hbl2 & Hd2).
  exists i2, (new2 ++ new1), bl2. split_and!; [by eapply flush_step_trans|done|].
  intros j bj Hj Hdj. destruct (Hd2 j bj Hj Hdj) as [Hn Hl].
  destruct (decide (j = Z.to_nat k)) as [->|Hne].
  - rewrite list_lookup_insert_eq in Hl by (by eapply lookup_lt_Some). congruence.
  - rewrite list_lookup_insert_ne in Hl by done. split; [|done].
    rewrite not_elem_of_cons. split; [lia|done].
Qed.

(** C10: [bluesky_file_flush] leaves the contents of the file as they are and no
    block dirty; it makes one cloud log item per dirty block, queues each for the
    journal in order, hands the caller one reference to each, and lowers the count
    of dirty blocks accordingly. *)
Theorem file_flush_refines s p i c items :
  file_state p i c s ->
  wp (bluesky_file_flush (Some p) items) s (fun items' s' => exists i' new,
    flush_step p i i' c nox new items items' s s' /\ ndirty i' = 0).
Proof.
  intros (Hok & Hst & Hp & Ho). destruct (fo_blocks _ _ _ Ho) as (bl & Hbl & Hnb & Hb).
  unfold bluesky_file_flush. wp_step. eapply wp_load; [done|].
  rewrite (fo_type _ _ _ Ho). simpl. wp_step. eapply wp_get_blocks; [done..|].
  eapply wp_mono; [apply (file_flush_loop_ok _ nox s p i bl c items); [by split_and!|done|]|].
  { intros k Hk. apply elem_of_seqZ in Hk. lia. }
  intros items' s' (i' & new & bl' & Hs & Hbl' & Hd). exists i', new. split; [done|].
  unfold ndirty, blocks_of. rewrite Hbl'. simpl.
  assert (Hlen : length bl' = length bl).
  { pose proof Hs as (_ & (_ & _ & _ & _ & Ho') & _).
    destruct (fo_blocks _ _ _ Ho') as (bl0 & Hbl0 & Hnb0 & _).
    assert (bl0 = bl') as -> by congruence. lia. }
  assert (Hz : forall b, b ∈ bl' -> (if is_dirty b then 1 else 0) = 0).
  { intros b Hb'. apply list_elem_of_lookup in Hb' as [j Hj]. destruct (is_dirty b) eqn:E; [|done].
    destruct (Hd j b Hj E) as [Hn _]. exfalso. apply Hn. apply elem_of_seqZ.
    apply lookup_lt_Some in Hj. lia. }
  clear -Hz. induction bl' as [|b bl' IH]; [done|]. simpl. rewrite IH, Hz; [done|by left|].
  intros x Hx. apply Hz. by right.
Qed.

End flush.

Lemma file_flush_refines_witness :
  wp (bluesky_file_flush (Some 1%positive) []) sample_state (fun items' s' => exists i' new,
    flush_step 1 sample_inode i' [97; 98; 99] nox new [] items' sample_state s' /\ ndirty i' = 0).
Proof. apply file_flush_refines. apply sample_file_state. Defined.
