(* ===== verification/Dir.v ===== *)
(** * Directories (src/bluesky/dir.c)

    A directory keeps its entries in a sequence sorted by a random cookie (the
    order in which listings return them) and in two hash tables, by name and by
    name in lower case.  The operations, the invariant that ties the three
    together, and the refinement of a finite map from names to inode numbers. *)

From S2P Require Import Prelude Glib State Inodes.
From Stdlib Require Import ZArith Lia Sorted.
From stdpp Require Import base numbers gmap option list.

Open Scope Z_scope.

(** [g_ascii_strdown]. *)
Definition ascii_lower (c : Z) : Z := if (65 <=? c) && (c <=? 90) then c + 32 else c.
Definition bluesky_lowercase (s : bytes) : bytes := ascii_lower <$> s.

Definition bluesky_dirent_compare (a b : Dirent.t) : Z :=
  compare_keys (Dirent.cookie a) (Dirent.cookie b).

(** Fields of an inode that only directories have. *)
Definition dir_entries (i : Inode.t) : M State (list Dirent.t) :=
  assume NullPointer (Inode.dirents i).
Definition dir_hash (i : Inode.t) : M State (gmap bytes Dirent.t) :=
  assume NullPointer (Inode.dirhash i).
Definition dir_hash_folded (i : Inode.t) : M State (gmap bytes Dirent.t) :=
  assume NullPointer (Inode.dirhash_folded i).

Definition bluesky_directory_lookup (inode : option ptr) (name : bytes) : M State Z :=
  i ← load inodes inode;
  if negb (Inode.type i =? BLUESKY_DIRECTORY) then mret 0 else
  match Inode.dirhash i with
  | None => mret 0
  | Some h => mret (match h !! name with Some d => Dirent.inum d | None => 0 end)
  end.

Definition bluesky_directory_ilookup (inode : option ptr) (name : bytes) : M State Z :=
  i ← load inodes inode;
  if negb (Inode.type i =? BLUESKY_DIRECTORY) then mret 0 else
  match Inode.dirhash_folded i with
  | None => mret 0
  | Some h =>
    mret (match h !! bluesky_lowercase name with Some d => Dirent.inum d | None => 0 end)
  end.

Section dir.
Context `{GSequenceLib} `{Env}.

Definition dirent_search (d : Dirent.t) (l : list Dirent.t) : nat :=
  g_sequence_search (fun e => bluesky_dirent_compare e d) l.

Definition bluesky_directory_read (dir : option ptr) (cookie : Z) : M State (option Dirent.t) :=
  i ← load inodes dir;
  dirents ← dir_entries i;
  let start := Dirent.mk [] [] cookie 0 in
  let it := dirent_search start dirents in
  if g_sequence_iter_is_end dirents it then mret None else mret (dirents !! it).

(** The two nested loops that pick an unused cookie: one number per turn. *)
Fixpoint pick_cookie (fuel : nat) (dirents : list Dirent.t) (d : Dirent.t) : M State Dirent.t :=
  match fuel with
  | O => stop OutOfFuel
  | S fuel =>
    r ← g_random_int;
    let d := d <| Dirent.cookie := Z.land r 0x7fffffff |> in
    if Dirent.cookie d <? 4 then pick_cookie fuel dirents d else
    if zlen dirents =? 0 then mret d else
    let i := g_sequence_iter_prev (dirent_search d dirents) in
    e ← assume OutOfBounds (dirents !! i);
    if negb (Dirent.cookie e =? Dirent.cookie d) then mret d else pick_cookie fuel dirents d
  end.

Definition bluesky_directory_insert (fuel : nat) (dir : option ptr) (name : bytes) (inum : Z)
    : M State bool :=
  i ← load inodes dir;
  if negb (Inode.type i =? BLUESKY_DIRECTORY) then mret false else
  dirhash ← dir_hash i;
  match dirhash !! name with
  | Some _ => mret false
  | None =>
    dirents ← dir_entries i;
    d ← pick_cookie fuel dirents (Dirent.mk name (bluesky_lowercase name) 0 inum);
    folded ← dir_hash_folded i;
    upd inodes dir (fun i => i
      <| Inode.dirents := Some (g_sequence_insert_sorted (fun e => bluesky_dirent_compare e d) d dirents) |>
      <| Inode.dirhash := Some (<[Dirent.name d := d]> dirhash) |>
      <| Inode.dirhash_folded := Some (<[Dirent.name_folded d := d]> folded) |>);;
    bluesky_inode_update_ctime dir true;;
    mret true
  end.

Definition bluesky_directory_remove (dir : option ptr) (name : bytes) : M State bool :=
  i ← load inodes dir;
  if negb (Inode.type i =? BLUESKY_DIRECTORY) then mret false else
  dirhash ← dir_hash i;
  match dirhash !! name with
  | None => mret false
  | Some d =>
    folded ← dir_hash_folded i;
    upd inodes dir (fun i => i
      <| Inode.dirhash := Some (delete (Dirent.name d) dirhash) |>
      <| Inode.dirhash_folded := Some (delete (Dirent.name_folded d) folded) |>);;
    dirents ← dir_entries i;
    let it := g_sequence_iter_prev (dirent_search d dirents) in
    e ← assume OutOfBounds (dirents !! it);
    if negb (bool_decide (e = d)) then mret false else
    upd inodes dir (fun i => i <| Inode.dirents := Some (g_sequence_remove dirents it) |>);;
    bluesky_inode_update_ctime dir true;;
    mret true
  end.

Definition bluesky_rename (fuel : nat) (dir1 : option ptr) (name1 : bytes)
    (dir2 : option ptr) (name2 : bytes) (case_sensitive overwrite : bool) : M State bool :=
  i1 ← load inodes dir1;
  if negb (Inode.type i1 =? BLUESKY_DIRECTORY) then mret false else
  i2 ← load inodes dir2;
  if negb (Inode.type i2 =? BLUESKY_DIRECTORY) then mret false else
  h1 ← (if case_sensitive then dir_hash i1 else dir_hash_folded i1);
  h2 ← (if case_sensitive then dir_hash i2 else dir_hash_folded i2);
  match h1 !! name1 with
  | None => mret false
  | Some d1 =>
    let inum := Dirent.inum d1 in
    let go :=
      bluesky_directory_remove dir1 name1;;
      bluesky_directory_insert fuel dir2 name2 inum;;
      mret true in
    match h2 !! name2 with
    | Some _ =>
      if negb overwrite then mret false else
      bluesky_directory_remove dir2 name2;; go
    | None => go
    end
  end.

(** A listing as clients make it: each call continues after the last cookie. *)
Fixpoint directory_walk (fuel : nat) (dir : option ptr) (cookie : Z) : M State (list Dirent.t) :=
  match fuel with
  | O => mret []
  | S fuel =>
    o ← bluesky_directory_read dir cookie;
    match o with
    | None => mret []
    | Some d => rest ← directory_walk fuel dir (Dirent.cookie d); mret (d :: rest)
    end
  end.

End dir.

(** ** The invariant *)

(** The three structures hold the same entries.  Two names that differ only by
    case share a slot of the second table, which then holds one of them at
    most. *)
Record dir_ok (i : Inode.t) (l : list Dirent.t) (h hf : gmap bytes Dirent.t) : Prop := {
  do_type : Inode.type i = BLUESKY_DIRECTORY;
  do_dirents : Inode.dirents i = Some l;
  do_dirhash : Inode.dirhash i = Some h;
  do_folded : Inode.dirhash_folded i = Some hf;
  do_sorted : sorted_lt Dirent.cookie l;
  do_cookies : forall d, d ∈ l -> 4 <= Dirent.cookie d < 2 ^ 31;
  do_lower : forall d, d ∈ l -> Dirent.name_folded d = bluesky_lowercase (Dirent.name d);
  do_hash : forall n d, h !! n = Some d <-> d ∈ l /\ Dirent.name d = n;
  do_hashf : forall n d, hf !! n = Some d -> d ∈ l /\ Dirent.name_folded d = n;
}.

(** The directory as a finite map. *)
Definition dir_map (h : gmap bytes Dirent.t) : gmap bytes Z := Dirent.inum <$> h.

Section ops.
Context `{GSequenceLib} `{Env0 : Env} `{!EnvSpec Env0}.

(** The cookie made from the [n]th random number. *)
Definition cookie_of (n : nat) : Z := Z.land (g_random n) 0x7fffffff.

Lemma cookie_of_range n : 0 <= cookie_of n < 2 ^ 31.
Proof.
  unfold cookie_of. change 0x7fffffff with (Z.ones 31). rewrite Z.land_ones by lia.
  apply Z.mod_pos_bound. lia.
Qed.

(** A cookie that a new entry of [l] may get. *)
Definition free_cookie (l : list Dirent.t) (c : Z) : Prop :=
  4 <= c /\ forall d, d ∈ l -> Dirent.cookie d <> c.

(** The check made by the loop: the entry before the search position. *)
Lemma cookie_check l d e :
  sorted_lt Dirent.cookie l ->
  l !! g_sequence_iter_prev (dirent_search d l) = Some e ->
  Dirent.cookie e <> Dirent.cookie d <-> (forall x, x ∈ l -> Dirent.cookie x <> Dirent.cookie d).
Proof.
  intros Hs He. pose proof (prev_search Dirent.cookie l (Dirent.cookie d) (sorted_lt_le _ _ Hs)) as Hp.
  simpl in Hp. unfold dirent_search, bluesky_dirent_compare in He. rewrite He in Hp.
  destruct Hp as (l1 & l2 & -> & _ & H2 & Hle).
  split; [|intros Hall; apply Hall; rewrite elem_of_app, elem_of_cons; tauto].
  intros Hne x Hx E. unfold sorted_lt in Hs. apply StronglySorted_app in Hs as (_ & _ & Hc).
  rewrite elem_of_app, elem_of_cons in Hx. destruct Hx as [Hx|[->|Hx]]; [|done|].
  - specialize (Hc x e Hx ltac:(by left)). destruct Hle as [?|[_ ->]]; [lia|by apply not_elem_of_nil in Hx].
  - rewrite Forall_forall in H2. specialize (H2 x Hx). lia.
Qed.

Lemma pick_cookie_ok fuel s l d :
  sorted_lt Dirent.cookie l ->
  (exists n, (n < fuel)%nat /\ free_cookie l (cookie_of (randoms s + n))) ->
  wp (pick_cookie fuel l d) s (fun d' s' => exists c k,
    d' = Dirent.mk (Dirent.name d) (Dirent.name_folded d) c (Dirent.inum d) /\
    c < 2 ^ 31 /\ free_cookie l c /\ s' = s <| randoms := k |>).
Proof.
  revert s d. induction fuel as [|fuel IH]; intros s d Hs (n & Hn & Hfree); [lia|]. simpl.
  unfold g_random_int. wp_step. wp_step. wp_step. wp_step. wp_step. wp_step.
  set (c := Z.land _ _). set (d1 := d <| Dirent.cookie := c |>).
  pose proof (cookie_of_range (randoms s)) as Hr. unfold cookie_of in Hr. fold c in Hr.
  set (s1 := s <| randoms := S (randoms s) |>).
  assert (Hrest : ~ free_cookie l c ->
    wp (pick_cookie fuel l d1) s1 (fun d' s' => exists c k,
      d' = Dirent.mk (Dirent.name d) (Dirent.name_folded d) c (Dirent.inum d) /\
      c < 2 ^ 31 /\ free_cookie l c /\ s' = s <| randoms := k |>)).
  { intros Hnf. destruct n as [|n]; [exfalso; apply Hnf; by rewrite Nat.add_0_r in Hfree|].
    eapply wp_mono; [apply IH; [done|]|].
    - exists n. split; [lia|]. unfold s1. simpl. by rewrite Nat.add_succ_r in Hfree.
    - intros d' s' (c' & k & -> & Hc' & Hf & ->). exists c', k. done. }
  assert (Hdone : free_cookie l c -> exists c k,
      d1 = Dirent.mk (Dirent.name d) (Dirent.name_folded d) c (Dirent.inum d) /\
      c < 2 ^ 31 /\ free_cookie l c /\ s1 = s <| randoms := k |>).
  { intros Hf. exists c, (S (randoms s)). split_and!; [done|lia|done|done]. }
  change (Dirent.cookie d1) with c.
  destruct (Z.ltb_spec c 4) as [Hlt|Hge]; [apply Hrest; intros [? _]; lia|].
  destruct (Z.eqb_spec (zlen l) 0) as [Hz|Hnz].
  { wp_step. apply Hdone. split; [done|]. destruct l; [|simpl in Hz; lia].
    intros x Hx. by apply not_elem_of_nil in Hx. }
  destruct (l !! g_sequence_iter_prev (dirent_search d1 l)) as [e|] eqn:He.
  - wp_step. wp_step; [done|]. pose proof (cookie_check l d1 e Hs He) as Hchk.
    change (Dirent.cookie d1) with c in Hchk.
    destruct (Z.eqb_spec (Dirent.cookie e) c) as [E|Hne]; simpl.
    + apply Hrest. intros [_ Hall]. by apply Hchk in Hall.
    + apply Hdone. split; [done|]. by apply Hchk.
  - exfalso. pose proof (prev_search Dirent.cookie l c (sorted_lt_le _ _ Hs)) as Hp. simpl in Hp.
    unfold dirent_search, bluesky_dirent_compare in He. change (Dirent.cookie d1) with c in He.
    rewrite He in Hp. by subst l.
Qed.

Lemma dir_ok_same i i' l h hf : same_file i i' -> dir_ok i l h hf -> dir_ok i' l h hf.
Proof.
  intros (Et & _ & _ & _ & Ed & Eh & Ef & _) []. split; try done; congruence.
Qed.

(** The end of both operations: the change time. *)
Lemma dir_finish s s1 p i1 l h hf (b : bool) :
  inodes s1 !! p = Some i1 -> dir_ok i1 l h hf -> touches_inode p i1 s s1 ->
  wp (bluesky_inode_update_ctime (Some p) true;; mret b) s1 (fun r s' =>
    r = b /\ randoms s' = randoms s1 /\
    exists i', dir_ok i' l h hf /\ inodes s' !! p = Some i' /\ touches_inode p i' s s').
Proof.
  intros Hp Hd T. wp_step. eapply wp_mono; [by apply update_ctime_ok|].
  intros _ s2 (i2 & Hsame & _ & Hr & T2). wp_step. split_and!; [done|done|]. exists i2. split_and!.
  - by eapply dir_ok_same.
  - rewrite (ti_inodes _ _ _ _ T2). apply lookup_insert_eq.
  - by eapply touches_inode_trans.
Qed.

(** The directory at [p] has entries [l] and stands for the map [m]. *)
Definition dir_state (p : ptr) (l : list Dirent.t) (m : gmap bytes Z) (s : State) : Prop :=
  exists i h hf, inodes s !! p = Some i /\ dir_ok i l h hf /\ dir_map h = m.

(** A step to entries [l'] and map [m], with nothing but the directory touched. *)
Definition dir_step (p : ptr) (l' : list Dirent.t) (m : gmap bytes Z) (s s' : State) : Prop :=
  dir_state p l' m s' /\ exists i', touches_inode p i' s s'.

(** Some number among the next [fuel] ones makes an unused cookie. *)
Definition can_pick (fuel : nat) (l : list Dirent.t) (s : State) : Prop :=
  exists n, (n < fuel)%nat /\ free_cookie l (cookie_of (randoms s + n)).

Lemma dir_ok_insert i l h hf d :
  dir_ok i l h hf -> h !! Dirent.name d = None -> free_cookie l (Dirent.cookie d) ->
  Dirent.cookie d < 2 ^ 31 -> Dirent.name_folded d = bluesky_lowercase (Dirent.name d) ->
  let l' := g_sequence_insert_sorted (fun e => bluesky_dirent_compare e d) d l in
  let h' := <[Dirent.name d := d]> h in let hf' := <[Dirent.name_folded d := d]> hf in
  dir_ok (i <| Inode.dirents := Some l' |> <| Inode.dirhash := Some h' |>
            <| Inode.dirhash_folded := Some hf' |>) l' h' hf'.
Proof.
  intros D Hnone [Hc4 Hfree] Hc Hlow l' h' hf'.
  assert (Hin : forall x, x ∈ l' <-> x = d \/ x ∈ l)
    by (intros x; apply (elem_of_insert_sorted Dirent.cookie); apply sorted_lt_le, D).
  split; try done; simpl.
  - apply D.
  - apply (insert_sorted_lt Dirent.cookie); [apply D|done].
  - intros x [->|Hx]%Hin; [lia|by apply (do_cookies _ _ _ _ D)].
  - intros x [->|Hx]%Hin; [done|by apply (do_lower _ _ _ _ D)].
  - intros n x. rewrite Hin. unfold h'. destruct (decide (n = Dirent.name d)) as [->|Hne].
    + rewrite lookup_insert_eq. split; [intros [= <-]; tauto|]. intros [[->|Hx] E]; [done|].
      exfalso. pose proof (proj2 (do_hash _ _ _ _ D _ x) (conj Hx E)). congruence.
    + rewrite lookup_insert_ne by done. rewrite (do_hash _ _ _ _ D).
      split; [tauto|]. intros [[->|Hx] E]; [congruence|tauto].
  - intros n x. rewrite Hin. unfold hf'. destruct (decide (n = Dirent.name_folded d)) as [->|Hne].
    + rewrite lookup_insert_eq. intros [= <-]. tauto.
    + rewrite lookup_insert_ne by done. intros Hx. apply (do_hashf _ _ _ _ D) in Hx. tauto.
Qed.

Lemma directory_insert_ok fuel s p l m name inum :
  dir_state p l m s -> can_pick fuel l s ->
  wp (bluesky_directory_insert fuel (Some p) name inum) s (fun r s' =>
    match m !! name with
    | Some _ => r = false /\ s' = s
    | None => r = true /\ exists l', dir_step p l' (<[name := inum]> m) s s'
    end).
Proof.
  intros (i & h & hf & Hp & D & <-) Hfree.
  unfold bluesky_directory_insert, dir_hash, dir_entries, dir_hash_folded, dir_map.
  wp_step. eapply wp_load; [done|]. rewrite (do_type _ _ _ _ D). simpl negb. cbv iota.
  rewrite (do_dirhash _ _ _ _ D), (do_dirents _ _ _ _ D), (do_folded _ _ _ _ D). wp_step. wp_step; [done|].
  rewrite lookup_fmap. destruct (h !! name) eqn:Hh; simpl; [done|].
  wp_step. wp_step. wp_step. eapply wp_mono; [by apply pick_cookie_ok; [apply D|]|].
  intros d s1 (c & k & -> & Hc & Hf & ->). cbn [Dirent.name Dirent.name_folded Dirent.inum].
  set (d := Dirent.mk _ _ _ _). wp_step. wp_step. wp_step. eapply wp_upd; [done|].
  pose proof (dir_ok_insert i l h hf d D Hh Hf Hc eq_refl) as D'.
  eapply wp_mono; [eapply (dir_finish s); [heap_lookup|exact D'|]|].
  - split; try done. simpl. by destruct (fs s).
  - intros r s' (-> & _ & i' & Hd' & Hp' & T). split; [done|]. eexists. split; [|by eexists].
    eexists i', _, _. split_and!; [done|done|by unfold dir_map; rewrite fmap_insert].
Qed.

Lemma dir_ok_remove i l h hf d l1 l2 :
  dir_ok i l h hf -> l = l1 ++ d :: l2 ->
  let h' := delete (Dirent.name d) h in let hf' := delete (Dirent.name_folded d) hf in
  dir_ok (i <| Inode.dirhash := Some h' |> <| Inode.dirhash_folded := Some hf' |>
            <| Inode.dirents := Some (l1 ++ l2) |>) (l1 ++ l2) h' hf'.
Proof.
  intros D -> h' hf'. pose proof (do_sorted _ _ _ _ D) as Hs.
  assert (Hin : forall x, x ∈ l1 ++ l2 <-> x ∈ l1 ++ d :: l2 /\ x <> d).
  { intros x. rewrite !elem_of_app, elem_of_cons. split; [|tauto].
    intros Hx. split; [tauto|]. intros ->.
    unfold sorted_lt in Hs. apply StronglySorted_app in Hs as (_ & Hs2 & Hc).
    inversion_clear Hs2 as [|? ? _ Hall]. rewrite Forall_forall in Hall.
    destruct Hx as [Hx|Hx]; [specialize (Hc d d Hx ltac:(by left))|specialize (Hall d Hx)]; lia. }
  assert (Hname : forall x, x ∈ l1 ++ d :: l2 -> Dirent.name x = Dirent.name d -> x = d).
  { intros x Hx E. pose proof (proj2 (do_hash _ _ _ _ D _ x) (conj Hx E)).
    assert (Hd : d ∈ l1 ++ d :: l2) by (rewrite elem_of_app, elem_of_cons; tauto).
    pose proof (proj2 (do_hash _ _ _ _ D _ d) (conj Hd eq_refl)). congruence. }
  split; try done; simpl.
  - apply D.
  - by eapply sorted_lt_remove.
  - intros x [Hx _]%Hin. by apply (do_cookies _ _ _ _ D).
  - intros x [Hx _]%Hin. by apply (do_lower _ _ _ _ D).
  - intros n x. rewrite Hin. unfold h'. rewrite lookup_delete_Some, (do_hash _ _ _ _ D).
    split; [intros (Hne & Hx & <-)|intros ((Hx & Hne) & <-)]; split_and!; try done; [congruence|].
    intros E. by apply Hne, Hname.
  - intros n x. rewrite Hin. unfold hf'. rewrite lookup_delete_Some. intros [Hne Hx].
    apply (do_hashf _ _ _ _ D) in Hx as [Hx <-]. split_and!; [done| |done]. congruence.
Qed.

Lemma dir_search_entry i l h hf d :
  dir_ok i l h hf -> d ∈ l -> exists l1 l2, l = l1 ++ d :: l2 /\
    g_sequence_iter_prev (dirent_search d l) = length l1.
Proof.
  intros D Hd. pose proof (do_sorted _ _ _ _ D) as Hs.
  apply list_elem_of_split in Hd as (l1 & l2 & ->). exists l1, l2. split; [done|].
  unfold sorted_lt in Hs. apply StronglySorted_app in Hs as (_ & Hs2 & Hc).
  inversion_clear Hs2 as [|? ? _ Hall].
  unfold dirent_search, bluesky_dirent_compare, g_sequence_iter_prev.
  assert (E : l1 ++ d :: l2 = (l1 ++ [d]) ++ l2) by (by rewrite <- app_assoc). rewrite E.
  rewrite (search_split Dirent.cookie); [rewrite length_app; simpl; lia| |done].
  apply Forall_app. split; [|by constructor].
  apply Forall_forall. intros x Hx. specialize (Hc x d Hx ltac:(by left)). lia.
Qed.

Lemma directory_remove_ok s p l m name :
  dir_state p l m s ->
  wp (bluesky_directory_remove (Some p) name) s (fun r s' =>
    match m !! name with
    | None => r = false /\ s' = s
    | Some _ => r = true /\ randoms s' = randoms s /\
        exists l', (forall d, d ∈ l' -> d ∈ l) /\ dir_step p l' (delete name m) s s'
    end).
Proof.
  intros (i & h & hf & Hp & D & <-). unfold bluesky_directory_remove, dir_hash, dir_entries, dir_hash_folded, dir_map.
  wp_step. eapply wp_load; [done|]. rewrite (do_type _ _ _ _ D). simpl negb. cbv iota.
  rewrite (do_dirhash _ _ _ _ D), (do_dirents _ _ _ _ D), (do_folded _ _ _ _ D). wp_step. wp_step; [done|].
  rewrite lookup_fmap. destruct (h !! name) as [d|] eqn:Hh; simpl; [|done].
  pose proof (proj1 (do_hash _ _ _ _ D _ _) Hh) as [Hd <-].
  destruct (dir_search_entry i l h hf d D Hd) as (l1 & l2 & El & Ei).
  wp_step. wp_step. wp_step. eapply wp_upd; [done|]. wp_step. wp_step. rewrite Ei.
  assert (Hl : l !! length l1 = Some d) by (rewrite El; by apply list_lookup_middle).
  wp_step. wp_step; [done|]. rewrite bool_decide_true by done. simpl negb. cbv iota.
  wp_step. eapply wp_upd; [heap_lookup|].
  assert (g_sequence_remove l (length l1) = l1 ++ l2) as ->.
  { unfold g_sequence_remove. rewrite El, take_app_length.
    replace (S (length l1)) with (length (l1 ++ [d])) by (rewrite length_app; simpl; lia).
    replace (l1 ++ d :: l2) with ((l1 ++ [d]) ++ l2) by (by rewrite <- app_assoc).
    by rewrite drop_app_length. }
  pose proof (dir_ok_remove i l h hf d l1 l2 D El) as D'.
  eapply wp_mono; [eapply (dir_finish s); [heap_lookup|exact D'|]|].
  - split; try done; simpl; [by rewrite insert_insert_eq|by destruct (fs s)].
  - intros r s' (-> & Hr & i' & Hd' & Hp' & T). split_and!; [done|done|]. exists (l1 ++ l2). split.
    { intros x. rewrite El, !elem_of_app, elem_of_cons. tauto. }
    split; [|by eexists]. eexists i', _, _. split_and!; [done|done|by unfold dir_map; rewrite fmap_delete].
Qed.

Lemma directory_lookup_ok s p l m name :
  dir_state p l m s ->
  wp (bluesky_directory_lookup (Some p) name) s (fun r s' =>
    r = default 0 (m !! name) /\ s' = s).
Proof.
  intros (i & h & hf & Hp & D & <-). unfold bluesky_directory_lookup, dir_map.
  wp_step. eapply wp_load; [done|]. rewrite (do_type _ _ _ _ D), (do_dirhash _ _ _ _ D). simpl.
  rewrite lookup_fmap. by destruct (h !! name).
Qed.

(** Another directory is not affected. *)
Lemma dir_state_frame p p' l l' m m' s s' :
  p <> p' -> dir_state p l m s -> dir_step p' l' m' s s' -> dir_state p l m s'.
Proof.
  intros Hne (i & h & hf & Hp & D & E) (_ & i' & T). exists i, h, hf. split_and!; [|done|done].
  by rewrite (ti_inodes _ _ _ _ T), lookup_insert_ne.
Qed.

(** C21: on a well-formed directory [bluesky_directory_insert] adds exactly the
    entry asked for, so that lookups find it and every other name as before, and
    refuses a name that exists; [bluesky_directory_remove] takes exactly the named
    entry out.  Both keep the invariant that ties the cookie-ordered sequence and
    the two hash tables together, and touch no other inode. *)
Theorem directory_is_map fuel s p l m name inum :
  dir_state p l m s -> can_pick fuel l s ->
  wp (ok ← bluesky_directory_insert fuel (Some p) name inum;
      n1 ← bluesky_directory_lookup (Some p) name;
      gone ← bluesky_directory_remove (Some p) name;
      n2 ← bluesky_directory_lookup (Some p) name;
      mret (ok, n1, gone, n2)) s (fun r s' =>
    r = match m !! name with
        | Some old => (false, old, true, 0)
        | None => (true, inum, true, 0)
        end /\
    exists l', dir_step p l' (delete name m) s s').
Proof.
  intros Hd Hc. wp_step. eapply wp_mono; [by eapply directory_insert_ok|].
  intros ok s1 Hs1.
  set (m1 := match m !! name with Some _ => m | None => <[name := inum]> m end).
  assert (H1 : ok = negb (bool_decide (is_Some (m !! name))) /\ exists l1 i1,
    dir_state p l1 m1 s1 /\ (s1 = s \/ touches_inode p i1 s s1)).
  { unfold m1. destruct (m !! name) eqn:E.
    - destruct Hs1 as [-> ->]. split; [done|]. exists l, inode_zero. tauto.
    - destruct Hs1 as (-> & l1 & Hs & i1 & T). split; [done|]. exists l1, i1. tauto. }
  destruct H1 as (-> & l1 & i1 & Hd1 & Ht1). clear Hs1.
  wp_step. eapply wp_mono; [by eapply directory_lookup_ok|]. intros n1 ? [-> ->].
  wp_step. eapply wp_mono; [by eapply directory_remove_ok|]. intros gone s2 Hs2.
  assert (Hm1 : m1 !! name = Some (default inum (m !! name)) /\ delete name m1 = delete name m).
  { unfold m1. destruct (m !! name) eqn:E; [done|]. rewrite lookup_insert_eq, delete_insert_eq. done. }
  destruct Hm1 as [Hm1 Hm2]. rewrite Hm1 in Hs2. destruct Hs2 as (-> & _ & l2 & _ & Hd2 & i2 & T2).
  rewrite Hm2 in Hd2. wp_step. eapply wp_mono; [by eapply directory_lookup_ok|]. intros n2 ? [-> ->].
  wp_step. rewrite Hm1, lookup_delete_eq. split; [by destruct (m !! name)|].
  exists l2. split; [done|]. exists i2. destruct Ht1 as [->|T1]; [done|].
  by eapply touches_inode_trans.
Qed.

(** Removal whether the name is there or not. *)
Lemma directory_remove_any s p l m name :
  dir_state p l m s ->
  wp (bluesky_directory_remove (Some p) name) s (fun _ s' =>
    randoms s' = randoms s /\
    (exists l', (forall d, d ∈ l' -> d ∈ l) /\ dir_state p l' (delete name m) s') /\
    forall p', p' <> p -> inodes s' !! p' = inodes s !! p').
Proof.
  intros Hd. eapply wp_mono; [by eapply directory_remove_ok|]. intros r s' Hs.
  destruct (m !! name) eqn:E.
  - destruct Hs as (_ & Hr & l' & Hl & Hd' & i' & T). split_and!; [done|eauto|].
    intros p' Hne. by rewrite (ti_inodes _ _ _ _ T), lookup_insert_ne.
  - destruct Hs as (_ & ->). split_and!; [done| |done]. exists l. split; [done|].
    by rewrite delete_id.
Qed.

Lemma can_pick_sub fuel l l' s s' :
  (forall d, d ∈ l' -> d ∈ l) -> randoms s' = randoms s -> can_pick fuel l s -> can_pick fuel l' s'.
Proof.
  intros Hl Hr (n & Hn & H4 & Hf). exists n. rewrite Hr. split; [done|]. split; [done|].
  intros d Hd. by apply Hf, Hl.
Qed.

Lemma dir_state_other p l m s s' :
  inodes s' !! p = inodes s !! p -> dir_state p l m s -> dir_state p l m s'.
Proof. intros E (i & h & hf & Hp & ?). exists i, h, hf. by rewrite E. Qed.

(** What both branches of a rename end with. *)
Lemma rename_move fuel s p1 p2 l1 l2 m1 m2 name1 name2 inum :
  dir_state p1 l1 m1 s -> dir_state p2 l2 m2 s -> can_pick fuel l2 s ->
  (m2 !! name2 = None \/ p1 = p2 /\ name1 = name2) ->
  wp (bluesky_directory_remove (Some p1) name1;;
      bluesky_directory_insert fuel (Some p2) name2 inum;; mret true) s (fun r s' =>
    r = true /\ (exists l, dir_state p2 l
      (<[name2 := inum]> (if decide (p1 = p2) then delete name1 m2 else m2)) s') /\
    (p1 <> p2 -> exists l, dir_state p1 l (delete name1 m1) s') /\
    forall p, p <> p1 -> p <> p2 -> inodes s' !! p = inodes s !! p).
Proof.
  intros H1 H2 Hc Hn. wp_step. eapply wp_mono; [by eapply directory_remove_any|].
  intros _ s1 (Hr & (l1' & Hl1 & Hd1) & Hoth).
  assert (Hd2 : exists l2', (forall d, d ∈ l2' -> d ∈ l2) /\
    dir_state p2 l2' (if decide (p1 = p2) then delete name1 m2 else m2) s1).
  { destruct (decide (p1 = p2)) as [->|Hne].
    - destruct H1 as (i & h & hf & Hp & D & E), H2 as (i2 & h2 & hf2 & Hp2 & D2 & E2).
      assert (i2 = i) as -> by congruence.
      pose proof (do_dirents _ _ _ _ D). pose proof (do_dirents _ _ _ _ D2).
      pose proof (do_dirhash _ _ _ _ D). pose proof (do_dirhash _ _ _ _ D2).
      assert (l2 = l1) as -> by congruence. assert (m2 = m1) as -> by congruence. eauto.
    - exists l2. split; [done|]. eapply dir_state_other; [|exact H2]. by apply Hoth. }
  destruct Hd2 as (l2' & Hl2 & Hd2). set (m2' := if decide (p1 = p2) then _ else _) in *.
  wp_step. eapply wp_mono; [eapply directory_insert_ok; [exact Hd2|by eapply can_pick_sub]|].
  assert (m2' !! name2 = None) as ->.
  { unfold m2'. destruct (decide (p1 = p2)).
    - destruct Hn as [Hn|[_ ->]]; [|apply lookup_delete_eq]. by apply lookup_delete_None; right.
    - destruct Hn as [Hn|[? _]]; [done|congruence]. }
  intros ? s2 (-> & l3 & Hs2). wp_step. split_and!; [done| | |].
  - exists l3. apply Hs2.
  - intros Hne. exists l1'. by eapply dir_state_frame.
  - intros p Hp1 Hp2. destruct Hs2 as (_ & i' & T).
    by rewrite (ti_inodes _ _ _ _ T), lookup_insert_ne, Hoth.
Qed.

(** C22: a case-sensitive [bluesky_rename] moves the entry: with [m1] and [m2] the
    maps of the two directories, the source name is gone and the target name leads
    to the renamed inode, replacing what was there if [overwrite] is set; a missing
    source, or an existing target without [overwrite], changes nothing.  Renaming
    within one directory, and onto the same name, are covered. *)
Theorem rename_refines fuel s p1 p2 l1 l2 m1 m2 name1 name2 overwrite :
  dir_state p1 l1 m1 s -> dir_state p2 l2 m2 s -> can_pick fuel l2 s ->
  wp (bluesky_rename fuel (Some p1) name1 (Some p2) name2 true overwrite) s (fun r s' =>
    match m1 !! name1 with
    | Some inum =>
      if negb overwrite && bool_decide (is_Some (m2 !! name2)) then r = false /\ s' = s else
      r = true /\ (exists l, dir_state p2 l
        (<[name2 := inum]> (if decide (p1 = p2) then delete name1 m2 else m2)) s') /\
      (p1 <> p2 -> exists l, dir_state p1 l (delete name1 m1) s') /\
      forall p, p <> p1 -> p <> p2 -> inodes s' !! p = inodes s !! p
    | None => r = false /\ s' = s
    end).
Proof.
  intros H1 H2 Hc. pose proof H1 as (i1 & h1 & hf1 & Hp1 & D1 & E1).
  pose proof H2 as (i2 & h2 & hf2 & Hp2 & D2 & E2). unfold bluesky_rename, dir_hash.
  wp_step. eapply wp_load; [done|]. rewrite (do_type _ _ _ _ D1). simpl negb. cbv iota.
  wp_step. eapply wp_load; [done|]. rewrite (do_type _ _ _ _ D2). simpl negb. cbv iota.
  rewrite (do_dirhash _ _ _ _ D1), (do_dirhash _ _ _ _ D2). wp_step. wp_step; [done|].
  wp_step. wp_step; [done|].
  assert (Hm1 : m1 !! name1 = Dirent.inum <$> h1 !! name1) by (rewrite <- E1; apply lookup_fmap).
  assert (Hm2 : m2 !! name2 = Dirent.inum <$> h2 !! name2) by (rewrite <- E2; apply lookup_fmap).
  destruct (m1 !! name1) as [inum|], (h1 !! name1) as [d1|]; try done. injection Hm1 as ->.
  destruct (m2 !! name2) as [inum2|] eqn:Hm2', (h2 !! name2) as [d2|]; try done; cycle 1.
  { destruct overwrite; simpl; eapply rename_move; eauto. }
  destruct overwrite; simpl; [|done].
  wp_step. eapply wp_mono; [by eapply directory_remove_any|].
  intros _ s1 (Hr & (l2' & Hl2 & Hd2) & Hoth).
  destruct (decide (p1 = p2)) as [->|Hne].
  - eapply wp_mono; [eapply (rename_move fuel s1 p2 p2); [exact Hd2|exact Hd2| |]|].
    + by eapply can_pick_sub.
    + left. apply lookup_delete_eq.
    + rewrite decide_True by done. intros r s' (-> & [l Hl] & _ & Ho). split_and!; [done| |done|].
      * exists l. by rewrite delete_delete, insert_delete_eq in Hl.
      * intros p Hpp _. by rewrite Ho, Hoth.
  - eapply wp_mono; [eapply (rename_move fuel s1 p1 p2); [|exact Hd2| |]|].
    + eapply dir_state_other; [|exact H1]. by apply Hoth.
    + by eapply can_pick_sub.
    + left. apply lookup_delete_eq.
    + rewrite decide_False by done. intros r s' (-> & [l Hl] & Hl1 & Ho). split_and!; [done| |done|].
      * exists l. by rewrite insert_delete_eq in Hl.
      * intros p Hpp1 Hpp2. by rewrite Ho, Hoth.
Qed.

Lemma directory_walk_ok s p i l h hf l1 l2 c :
  inodes s !! p = Some i -> dir_ok i l h hf -> l = l1 ++ l2 ->
  Forall (fun e => Dirent.cookie e <= c) l1 -> Forall (fun e => c < Dirent.cookie e) l2 ->
  wp (directory_walk (S (length l2)) (Some p) c) s (fun r s' => r = l2 /\ s' = s).
Proof.
  intros Hp D. revert l1 c. induction l2 as [|d l2 IH]; intros l1 c El H1 H2;
    cbn [directory_walk length]; unfold bluesky_directory_read, dir_entries;
    wp_step; wp_step; (eapply wp_load; [done|]); rewrite (do_dirents _ _ _ _ D);
    wp_step; (wp_step; [done|]);
    unfold dirent_search, bluesky_dirent_compare; change (Dirent.cookie (Dirent.mk [] [] c 0)) with c;
    rewrite El; rewrite !(search_split Dirent.cookie) by done;
    unfold g_sequence_iter_is_end; rewrite length_app.
  - rewrite (proj2 (Nat.leb_le _ _)) by (simpl; lia). done.
  - rewrite (proj2 (Nat.leb_gt _ _)) by (simpl; lia).
    rewrite list_lookup_middle by done. wp_step. wp_step. pose proof (do_sorted _ _ _ _ D) as Hs. unfold sorted_lt in Hs.
    rewrite El in Hs. apply StronglySorted_app in Hs as (_ & Hs2 & Hc).
    inversion_clear Hs2 as [|? ? _ Hall].
    eapply wp_mono; [apply (IH (l1 ++ [d]))|].
    + by rewrite <- app_assoc.
    + apply Forall_app. split; [|by constructor]. apply Forall_forall. intros x Hx.
      specialize (Hc x d Hx ltac:(by left)). simpl in *. lia.
    + done.
    + by intros r s' [-> ->].
Qed.

(** No two entries have the same name. *)
Lemma dir_ok_names i l h hf : dir_ok i l h hf -> NoDup (Dirent.name <$> l).
Proof.
  intros D. assert (Hinj : forall x y, x ∈ l -> y ∈ l -> Dirent.name x = Dirent.name y -> x = y).
  { intros x y Hx Hy E. pose proof (proj2 (do_hash _ _ _ _ D _ x) (conj Hx eq_refl)).
    pose proof (proj2 (do_hash _ _ _ _ D _ y) (conj Hy eq_refl)). congruence. }
  pose proof (do_sorted _ _ _ _ D) as Hs. clear -Hs Hinj.
  induction Hs as [|d l _ IH Hall]; simpl; [constructor|]. constructor.
  - intros (x & E & Hx)%list_elem_of_fmap. rewrite Forall_forall in Hall. specialize (Hall x Hx).
    assert (d = x) as -> by (apply Hinj; [by left|by right|done]). lia.
  - apply IH. intros x y Hx Hy. apply Hinj; by right.
Qed.

(** The sequence of entries holds the map. *)
Lemma dir_ok_list i l h hf :
  dir_ok i l h hf -> list_to_map ((fun d => (Dirent.name d, Dirent.inum d)) <$> l) = dir_map h.
Proof.
  intros D. pose proof (dir_ok_names _ _ _ _ D) as Hnd.
  apply map_eq. intros n. apply option_eq. intros v. rewrite <- elem_of_list_to_map.
  - unfold dir_map. rewrite lookup_fmap, fmap_Some. setoid_rewrite (do_hash _ _ _ _ D).
    rewrite list_elem_of_fmap. split.
    + intros (d & [= -> ->] & Hd). eauto.
    + intros (d & (Hd & <-) & ->). eauto.
  - by rewrite <- list_fmap_compose.
Qed.

(** Reading a directory entry by entry, each call of [bluesky_directory_read]
    passing the cookie of the entry returned before and the first one a reserved
    cookie, ends after as many calls as there are entries and returns every entry
    of the directory exactly once. *)
Theorem directory_read_lists_all s p l m cookie :
  dir_state p l m s -> cookie < 4 ->
  wp (directory_walk (S (length l)) (Some p) cookie) s (fun r s' =>
    s' = s /\ NoDup (Dirent.name <$> r) /\
    list_to_map ((fun d => (Dirent.name d, Dirent.inum d)) <$> r) = m).
Proof.
  intros (i & h & hf & Hp & D & <-) Hc.
  eapply wp_mono; [apply (directory_walk_ok s p i l h hf [] l cookie Hp D); [done|done|]|].
  { apply Forall_forall. intros d Hd. pose proof (do_cookies _ _ _ _ D d Hd). lia. }
  intros r s' [-> ->]. split; [done|]. split; [by eapply dir_ok_names|by eapply dir_ok_list].
Qed.

End ops.

(** ** A directory with two entries *)
Definition sample_dirent1 : Dirent.t := Dirent.mk [65] [97] 7 20.
Definition sample_dirent2 : Dirent.t := Dirent.mk [66; 99] [98; 99] 9 30.
Definition sample_dir : Inode.t :=
  inode_zero <| Inode.type := BLUESKY_DIRECTORY |>
    <| Inode.dirents := Some [sample_dirent1; sample_dirent2] |>
    <| Inode.dirhash := Some {[ [65] := sample_dirent1; [66; 99] := sample_dirent2 ]} |>
    <| Inode.dirhash_folded := Some {[ [97] := sample_dirent1; [98; 99] := sample_dirent2 ]} |>.
Definition sample_dir_state : State :=
  empty_state <| next_ptr := 2%positive |> <| inodes := {[1%positive := sample_dir]} |>.

Lemma sample_dir_ok :
  dir_state 1 [sample_dirent1; sample_dirent2] {[ [65] := 20; [66; 99] := 30 ]} sample_dir_state.
Proof.
  exists sample_dir, {[ [65] := sample_dirent1; [66; 99] := sample_dirent2 ]},
    {[ [97] := sample_dirent1; [98; 99] := sample_dirent2 ]}.
  split_and!; [apply lookup_singleton_eq| |by vm_compute].
  split; try done.
  - repeat constructor.
  - intros d. rewrite !elem_of_cons, elem_of_nil. intros [->|[->|[]]]; simpl; lia.
  - intros d. rewrite !elem_of_cons, elem_of_nil. by intros [->|[->|[]]].
  - intros n d. rewrite !elem_of_cons, elem_of_nil, lookup_insert_Some, lookup_singleton_Some. naive_solver.
  - intros n d. rewrite !elem_of_cons, elem_of_nil, lookup_insert_Some, lookup_singleton_Some. naive_solver.
Qed.

#[local] Existing Instance linear_gsequence.

Lemma sample_can_pick : can_pick 1 [sample_dirent1; sample_dirent2] sample_dir_state.
Proof.
  exists 0%nat. split; [lia|]. split; [by vm_compute|]. intros d.
  rewrite !elem_of_cons, elem_of_nil. intros [->|[->|[]]]; by vm_compute.
Qed.

Lemma directory_is_map_witness :
  wp (ok ← bluesky_directory_insert 1 (Some 1%positive) [120] 40;
      n1 ← bluesky_directory_lookup (Some 1%positive) [120];
      gone ← bluesky_directory_remove (Some 1%positive) [120];
      n2 ← bluesky_directory_lookup (Some 1%positive) [120];
      mret (ok, n1, gone, n2)) sample_dir_state (fun r _ => r = (true, 40, true, 0)).
Proof.
  refine (wp_mono _ _ _ _ (directory_is_map 1 sample_dir_state 1 _ _ [120] 40
    sample_dir_ok sample_can_pick) _).
  by intros r s' [-> _].
Defined.

Lemma rename_refines_witness :
  wp (bluesky_rename 1 (Some 1%positive) [65] (Some 1%positive) [66; 99] true true)
    sample_dir_state (fun r s' => r = true /\ exists l,
      dir_state 1 l {[ [66; 99] := 20 ]} s').
Proof.
  refine (wp_mono _ _ _ _ (rename_refines 1 sample_dir_state 1 1 _ _ _ _ [65] [66; 99] true
    sample_dir_ok sample_dir_ok sample_can_pick) _).
  intros r s'. simpl. intros (-> & Hl & _). split; [done|exact Hl].
Defined.

Lemma directory_read_lists_all_witness :
  wp (directory_walk 3 (Some 1%positive) 0) sample_dir_state (fun r _ =>
    NoDup (Dirent.name <$> r) /\
    list_to_map ((fun d => (Dirent.name d, Dirent.inum d)) <$> r)
    =@{gmap bytes Z} {[ [65] := 20; [66; 99] := 30 ]}).
Proof.
  refine (wp_mono _ _ _ _ (directory_read_lists_all sample_dir_state 1 _ _ 0 sample_dir_ok _) _); [lia|].
  by intros r s' (_ & ? & ?).
Defined.

(** Two names that differ by case share a slot of the folded table: removing the
    one loses the other there, though it is still in the directory. *)
Example ilookup_loses_entry :
  match (bluesky_directory_insert 4 (Some 1%positive) [120] 40;;
         bluesky_directory_insert 4 (Some 1%positive) [88] 50;;
         bluesky_directory_remove (Some 1%positive) [88];;
         n ← bluesky_directory_lookup (Some 1%positive) [120];
         n' ← bluesky_directory_ilookup (Some 1%positive) [120];
         mret (n, n')) sample_dir_state with
  | Ok r _ => r = (40, 0)
  | Stop _ => False
  end.
Proof. by vm_compute. Qed.
