(* ===== verification/Imap.v ===== *)
(** * The inode map (src/bluesky/imap.c)

    The map from inode numbers to the log items that hold the inodes is cut into
    ranges of consecutive numbers, each of which is serialized on its own.  The
    lookup that finds, creates and deletes entries, its refinement of a finite
    map, and the operations that write the map to log items and read it back. *)

From S2P Require Import Prelude Glib State Strings Ownership CloudLog Inodes Fetch.
From Stdlib Require Import ZArith Lia Sorted.
From stdpp Require Import base numbers gmap option list.

Open Scope Z_scope.

Definition CHECKPOINT_MAGIC : Z := 0x7ad7dafb42a498b4.
Definition target_imap_size : Z := 4096.

Section lookup.
Context `{GSequenceLib}.

(** Position of the range, or entry, with the largest key not above [inum]. *)
Definition imap_search {A} (key : A -> Z) (inum : Z) (l : list A) : nat :=
  g_sequence_iter_prev (g_sequence_search (fun e => compare_keys (key e) inum) l).

Definition imap_get {A} (l : list A) (i : nat) : option A :=
  if g_sequence_iter_is_end l i then None else l !! i.

(** A new range for [inum] next to position [i]; [None] if the assertion on the
    bounds fails. *)
Definition imap_new_range (inode_map : list InodeMap.range) (i : nat) (inum : Z)
    : option InodeMap.range :=
  let start :=
    if negb (g_sequence_iter_is_begin i) then
      match imap_get inode_map i with Some r => u64 (InodeMap.end_ r + 1) | None => 0 end
    else 0 in
  let i := g_sequence_iter_next inode_map i in
  let end_ :=
    match imap_get inode_map i with
    | Some r => u64 (InodeMap.start r - 1)
    | None => 2 ^ 64 - 1
    end in
  if (start <=? inum) && (inum <=? end_) then
    let start := Z.max start (Z.land inum (u64 (Z.lnot (target_imap_size - 1)))) in
    let end_ := Z.min end_ (u64 (start + target_imap_size - 1)) in
    Some (InodeMap.mkRange start end_ [] None)
  else None.

(** The entry within a range: the changed range, the entry and the serialized
    form that is let go. *)
Definition imap_in_range (range : InodeMap.range) (inum action : Z)
    : InodeMap.range * option InodeMap.entry * option ptr :=
  let entries := InodeMap.map_entries range in
  let i := imap_search InodeMap.inum inum entries in
  let entry := imap_get entries i in
  let found := match entry with Some e => inum =? InodeMap.inum e | None => false end in
  if negb found && (action <=? 0) then (range, None, None) else
  let new := InodeMap.mkEntry inum None in
  let '(entries, entry) :=
    if found then (entries, entry) else (insert_sorted InodeMap.inum new entries, Some new) in
  let '(serialized, dropped) :=
    if action =? 0 then (InodeMap.serialized range, None)
    else (None, InodeMap.serialized range) in
  let '(entries, entry) :=
    if action <? 0 then (g_sequence_remove entries i, None) else (entries, entry) in
  (range <| InodeMap.map_entries := entries |> <| InodeMap.serialized := serialized |>,
   entry, dropped).

Definition in_range (range : InodeMap.range) (inum : Z) : bool :=
  (InodeMap.start range <=? inum) && (inum <=? InodeMap.end_ range).

(** The whole lookup; [None] if the assertion fails. *)
Definition imap_lookup (inode_map : list InodeMap.range) (inum action : Z)
    : option (list InodeMap.range * option InodeMap.entry * option ptr) :=
  let i := imap_search InodeMap.start inum inode_map in
  let create :=
    if action <=? 0 then Some (inode_map, None, None) else
    range ← imap_new_range inode_map i inum;
    let '(range, entry, dropped) := imap_in_range range inum action in
    Some (insert_sorted InodeMap.start range inode_map, entry, dropped) in
  match imap_get inode_map i with
  | Some range =>
    if in_range range inum then
      let '(range, entry, dropped) := imap_in_range range inum action in
      Some (<[i := range]> inode_map, entry, dropped)
    else create
  | None => create
  end.

(** [entry->item = item] for the entry of [inum]. *)
Definition imap_set_item (inode_map : list InodeMap.range) (inum : Z) (item : option ptr)
    : list InodeMap.range :=
  (fun r => r <| InodeMap.map_entries ::= fmap (fun e =>
     if InodeMap.inum e =? inum then e <| InodeMap.item := item |> else e) |>) <$> inode_map.

(** The serialized form of a range: the inode numbers; the items are links. *)
Definition section_data (range : InodeMap.range) : bytes :=
  InodeMap.map_entries range ≫= fun e => le_bytes 8 (InodeMap.inum e).

(** The checkpoint record up to the bounds of the ranges, and the bounds. *)
Definition checkpoint_head (latest_cleaner_seq_seen : Z) : bytes :=
  le_bytes 8 CHECKPOINT_MAGIC ++
  (if 0 <=? latest_cleaner_seq_seen
   then le_bytes 4 1 ++ le_bytes 4 BLUESKY_CLOUD_DIR_CLEANER ++ le_bytes 4 (u32 latest_cleaner_seq_seen)
   else le_bytes 4 0).
Definition checkpoint_bounds (range : InodeMap.range) : bytes :=
  le_bytes 8 (InodeMap.start range) ++ le_bytes 8 (InodeMap.end_ range).

Section operations.
Context `{Env} `{Fetch}.

Definition get_imap : M State (list InodeMap.range) := gets (fun s => FS.inode_map (fs s)).
Definition set_imap (m : list InodeMap.range) : M State unit :=
  modify (fun s => s <| fs ::= (fun f => f <| FS.inode_map := m |>) |>).

Definition bluesky_inode_map_lookup (inum action : Z) : M State (option InodeMap.entry) :=
  inode_map ← get_imap;
  r ← assume Assertion (imap_lookup inode_map inum action);
  let '(inode_map, entry, dropped) := r in
  set_imap inode_map;;
  bluesky_cloudlog_unref_delayed dropped;;
  mret entry.

(** [k] is the position of the range. *)
Definition bluesky_inode_map_serialize_section (k : nat) : M State unit :=
  inode_map ← get_imap;
  range ← assume OutOfBounds (inode_map !! k);
  match InodeMap.serialized range with
  | Some _ => mret tt
  | None =>
    log ← bluesky_cloudlog_new None;
    upd cloudlogs (Some log) (fun l =>
      l <| CloudLog.type := LOGTYPE_INODE_MAP |> <| CloudLog.inum := 0 |>);;
    for_each (InodeMap.map_entries range) (fun entry =>
      bluesky_cloudlog_ref (InodeMap.item entry);;
      upd cloudlogs (Some log) (fun l =>
        l <| CloudLog.links ::= fun k => k ++ [InodeMap.item entry] |>));;
    data ← bluesky_string_new_from_gstring (section_data range);
    upd cloudlogs (Some log) (fun l => l <| CloudLog.data := Some data |>);;
    inode_map ← get_imap;
    set_imap (<[k := range <| InodeMap.serialized := Some log |>]> inode_map);;
    bluesky_cloudlog_stats_update (Some log) 1
  end.

(** The loop over the ranges: the bounds written, and whether one was new. *)
Fixpoint imap_serialize_loop (log : ptr) (k : nat) (ranges : list InodeMap.range)
    : M State (bytes * bool) :=
  match ranges with
  | [] => mret ([], false)
  | range :: ranges =>
    when (match InodeMap.serialized range with None => true | Some _ => false end)
      (bluesky_inode_map_serialize_section k);;
    inode_map ← get_imap;
    range' ← assume OutOfBounds (inode_map !! k);
    bluesky_cloudlog_ref (InodeMap.serialized range');;
    upd cloudlogs (Some log) (fun l =>
      l <| CloudLog.links ::= fun k => k ++ [InodeMap.serialized range'] |>);;
    r ← imap_serialize_loop log (S k) ranges;
    mret (checkpoint_bounds range ++ r.1,
          match InodeMap.serialized range with None => true | Some _ => r.2 end)
  end.

Definition bluesky_inode_map_serialize : M State (option ptr) :=
  log ← bluesky_cloudlog_new None;
  upd cloudlogs (Some log) (fun l =>
    l <| CloudLog.type := LOGTYPE_CHECKPOINT |> <| CloudLog.inum := 0 |>);;
  seq ← gets (fun s => CloudLogState.latest_cleaner_seq_seen (log_state s));
  inode_map ← get_imap;
  r ← imap_serialize_loop log 0 inode_map;
  data ← bluesky_string_new_from_gstring (checkpoint_head seq ++ r.1);
  upd cloudlogs (Some log) (fun l => l <| CloudLog.data := Some data |>);;
  bluesky_cloudlog_stats_update (Some log) 1;;
  if (r.2 : bool) then mret (Some log) else bluesky_cloudlog_unref (Some log);; mret None.

Definition bluesky_inode_map_minimize : M State unit :=
  inode_map ← get_imap;
  for_each inode_map (fun range =>
    (match InodeMap.serialized range with
     | Some _ => bluesky_cloudlog_erase (InodeMap.serialized range)
     | None => mret tt
     end);;
    for_each (InodeMap.map_entries range) (fun entry =>
      match InodeMap.item entry with
      | Some _ =>
        l ← load cloudlogs (InodeMap.item entry);
        when (CloudLog.refcount l =? 1) (bluesky_cloudlog_erase (InodeMap.item entry))
      | None => mret tt
      end)).

(** The bytes of the data of an item. *)
Definition item_data (item : option ptr) : M State bytes :=
  l ← load cloudlogs item;
  str ← load strs (CloudLog.data l);
  s ← get; assume OutOfBounds (str_bytes s str).

Definition read_le (b : bytes) (off len : Z) : M State Z :=
  x ← assume OutOfBounds (slice b off len); mret (le_val x).

(** The version vector of a checkpoint. *)
Fixpoint imap_versions (data : bytes) (i : Z) (n : nat) : M State unit :=
  match n with
  | O => mret tt
  | S n =>
    dir ← read_le data (12 + 8 * i) 4;
    when (dir =? 1)
      (seq ← read_le data (16 + 8 * i) 4;
       modify (fun s => s <| log_state ::= (fun l =>
         l <| CloudLogState.latest_cleaner_seq_seen := s32 seq |>) |>));;
    imap_versions data (i + 1) n
  end.

(** The entries of one section. *)
Fixpoint imap_load_section (data : bytes) (j : Z) (links : list (option ptr)) : M State unit :=
  match links with
  | [] => mret tt
  | item :: links =>
    inum ← read_le data (8 * j) 8;
    o ← bluesky_inode_map_lookup inum 1;
    entry ← assume NullPointer o;
    bluesky_cloudlog_unref_delayed (InodeMap.item entry);;
    inode_map ← get_imap;
    set_imap (imap_set_item inode_map inum item);;
    bluesky_cloudlog_ref item;;
    modify (fun s => s <| fs ::= (fun f =>
      f <| FS.next_inum ::= fun n => Z.max n (u64 (inum + 1)) |>) |>);;
    imap_load_section data (j + 1) links
  end.

Definition bluesky_inode_map_deserialize (imap : option ptr) : M State unit :=
  bluesky_cloudlog_fetch imap;;
  l ← load cloudlogs imap;
  check Assertion (match CloudLog.data l with Some _ => true | None => false end);;
  data ← item_data imap;
  check Assertion (12 <=? zlen data);;
  magic ← read_le data 0 8;
  check Assertion (magic =? CHECKPOINT_MAGIC);;
  vector_size ← read_le data 8 4;
  check Assertion (vector_size <=? 2);;
  check Assertion (zlen data =? u32 (16 * zlen (CloudLog.links l) + 12 + 8 * vector_size));;
  imap_versions data 0 (Z.to_nat vector_size);;
  for_each (CloudLog.links l) (fun section =>
    bluesky_cloudlog_fetch section;;
    data ← item_data section;
    sec ← load cloudlogs section;
    imap_load_section data 0 (CloudLog.links sec)).

End operations.

(** ** The map is a finite map *)

Record range_wf (r : InodeMap.range) : Prop := {
  rw_start : 0 <= InodeMap.start r;
  rw_align : InodeMap.start r mod target_imap_size = 0;
  rw_end : InodeMap.end_ r = InodeMap.start r + target_imap_size - 1;
  rw_max : InodeMap.end_ r < 2 ^ 64;
  rw_sorted : sorted_lt InodeMap.inum (InodeMap.map_entries r);
  rw_entries : forall e, e ∈ InodeMap.map_entries r ->
    InodeMap.start r <= InodeMap.inum e <= InodeMap.end_ r;
}.

Definition imap_ok (m : list InodeMap.range) : Prop :=
  sorted_lt InodeMap.start m /\ forall r, r ∈ m -> range_wf r.

Definition imap_entries (m : list InodeMap.range) : list InodeMap.entry :=
  m ≫= InodeMap.map_entries.

Definition imap_abs (m : list InodeMap.range) : gmap Z (option ptr) :=
  list_to_map ((fun e => (InodeMap.inum e, InodeMap.item e)) <$> imap_entries m).

(** Windows of aligned ranges are equal or disjoint. *)
Lemma range_wf_window r n :
  range_wf r -> InodeMap.start r <= n <= InodeMap.end_ r ->
  InodeMap.start r = n - n mod target_imap_size.
Proof.
  intros [H0 Ha He _ _ _] Hn. unfold target_imap_size in *.
  pose proof (Z.div_mod (InodeMap.start r) 4096 ltac:(lia)).
  pose proof (Z.div_mod n 4096 ltac:(lia)). pose proof (Z.mod_pos_bound n 4096 ltac:(lia)). lia.
Qed.

Lemma imap_entry_unique m r r' e e' :
  imap_ok m -> r ∈ m -> r' ∈ m -> e ∈ InodeMap.map_entries r -> e' ∈ InodeMap.map_entries r' ->
  InodeMap.inum e = InodeMap.inum e' -> r = r' /\ e = e'.
Proof.
  intros [Hs Hw] Hr Hr' He He' E.
  pose proof (range_wf_window r _ (Hw r Hr) (rw_entries _ (Hw r Hr) e He)).
  pose proof (range_wf_window r' _ (Hw r' Hr') (rw_entries _ (Hw r' Hr') e' He')).
  assert (r = r') as -> by (eapply (sorted_lt_inj InodeMap.start); [done|done|done|congruence]).
  split; [done|]. eapply (sorted_lt_inj InodeMap.inum); eauto. apply (rw_sorted _ (Hw r' Hr')).
Qed.

Lemma imap_abs_spec m n it :
  imap_ok m -> imap_abs m !! n = Some it <->
  exists r e, r ∈ m /\ e ∈ InodeMap.map_entries r /\ InodeMap.inum e = n /\ InodeMap.item e = it.
Proof.
  intros Hok. unfold imap_abs, imap_entries. split.
  - intros Hl%elem_of_list_to_map_2. apply list_elem_of_fmap in Hl as (e & [= -> ->] & He).
    apply list_elem_of_bind in He as (r & He & Hr). eauto 10.
  - intros (r & e & Hr & He & <- & <-). apply elem_of_list_to_map_1'.
    + intros y (e' & [= E ->] & He')%list_elem_of_fmap.
      apply list_elem_of_bind in He' as (r' & He' & Hr').
      destruct (imap_entry_unique m r r' e e' Hok Hr Hr' He He' E) as [_ <-]. done.
    + apply list_elem_of_fmap. exists e. split; [done|]. apply list_elem_of_bind. eauto.
Qed.

(** What the search finds. *)
Lemma imap_search_spec {A} (key : A -> Z) l n :
  sorted_lt key l ->
  match imap_get l (imap_search key n l) with
  | None => l = []
  | Some e => exists l1 l2, l = l1 ++ e :: l2 /\ imap_search key n l = length l1 /\
                Forall (fun e => n < key e) l2 /\ (key e <= n \/ n < key e /\ l1 = [])
  end.
Proof.
  intros Hs. pose proof (prev_search key l n (sorted_lt_le _ _ Hs)) as Hp. simpl in Hp.
  change (g_sequence_iter_prev (g_sequence_search (fun e => compare_keys (key e) n) l))
    with (imap_search key n l) in Hp.
  unfold imap_get, g_sequence_iter_is_end. destruct (l !! imap_search key n l) eqn:E.
  - apply lookup_lt_Some in E. by rewrite (proj2 (Nat.leb_gt _ _)) by lia.
  - by destruct (_ <=? _)%nat.
Qed.

(** The entry with key [n], if there is one, is the one found. *)
Lemma imap_search_found {A} (key : A -> Z) l n x :
  sorted_lt key l -> x ∈ l -> key x = n -> imap_get l (imap_search key n l) = Some x.
Proof.
  intros Hs Hx E. pose proof (imap_search_spec key l n Hs) as Hp.
  destruct (imap_get l _) as [e|]; [|by subst l; apply not_elem_of_nil in Hx].
  destruct Hp as (l1 & l2 & -> & _ & H2 & Hle). f_equal.
  unfold sorted_lt in Hs. apply StronglySorted_app in Hs as (_ & _ & Hc).
  rewrite elem_of_app, elem_of_cons in Hx. destruct Hx as [Hx|[->|Hx]]; [|done|].
  - specialize (Hc x e Hx ltac:(by left)). destruct Hle as [|[_ ->]]; [lia|by apply not_elem_of_nil in Hx].
  - rewrite Forall_forall in H2. specialize (H2 x Hx). lia.
Qed.

Lemma imap_in_range_found r n a l1 x l2 :
  range_wf r -> InodeMap.map_entries r = l1 ++ x :: l2 -> InodeMap.inum x = n ->
  imap_in_range r n a =
    (r <| InodeMap.map_entries := if a <? 0 then l1 ++ l2 else l1 ++ x :: l2 |>
       <| InodeMap.serialized := if a =? 0 then InodeMap.serialized r else None |>,
     if a <? 0 then None else Some x, if a =? 0 then None else InodeMap.serialized r).
Proof.
  intros Hw El Hn. unfold imap_in_range. pose proof (rw_sorted _ Hw) as Hs.
  assert (Hx : x ∈ InodeMap.map_entries r) by (rewrite El, elem_of_app, elem_of_cons; tauto).
  rewrite (imap_search_found InodeMap.inum _ n x Hs Hx Hn), Hn, Z.eqb_refl. simpl.
  pose proof (imap_search_spec InodeMap.inum _ n Hs) as Hp.
  rewrite (imap_search_found InodeMap.inum _ n x Hs Hx Hn) in Hp.
  destruct Hp as (k1 & k2 & Ek & -> & _).
  assert (k1 = l1 /\ k2 = l2) as [-> ->].
  { rewrite El in Ek, Hs. clear -Ek Hs. revert k1 Ek. induction l1 as [|y l1 IH]; intros [|z k1] Ek; simpl in *.
    - by injection Ek as ->.
    - injection Ek as E1 E2. inversion_clear Hs as [|? ? _ Hall]. rewrite Forall_forall in Hall.
      specialize (Hall x). rewrite E2, elem_of_app, elem_of_cons in Hall. specialize (Hall ltac:(tauto)). lia.
    - injection Ek as E1 E2. subst y. inversion_clear Hs as [|? ? _ Hall]. rewrite Forall_forall in Hall.
      specialize (Hall x). rewrite elem_of_app, elem_of_cons in Hall. specialize (Hall ltac:(tauto)). lia.
    - injection Ek as -> E2. inversion_clear Hs as [|? ? Hs' _]. by destruct (IH Hs' k1 E2) as [-> ->]. }
  rewrite El. unfold g_sequence_remove. rewrite take_app_length.
  replace (drop (S (length l1)) (l1 ++ x :: l2)) with l2
    by (rewrite <- Nat.add_1_r, <- drop_drop, drop_app_length; done).
  destruct (a =? 0), (a <? 0); done.
Qed.

Lemma imap_in_range_missing r n a :
  range_wf r -> (forall x, x ∈ InodeMap.map_entries r -> InodeMap.inum x <> n) ->
  imap_in_range r n a =
    if a <=? 0 then (r, None, None) else
    (r <| InodeMap.map_entries := insert_sorted InodeMap.inum (InodeMap.mkEntry n None) (InodeMap.map_entries r) |>
       <| InodeMap.serialized := None |>, Some (InodeMap.mkEntry n None), InodeMap.serialized r).
Proof.
  intros Hw Hno. unfold imap_in_range. pose proof (rw_sorted _ Hw) as Hs.
  pose proof (imap_search_spec InodeMap.inum _ n Hs) as Hp.
  assert (match imap_get (InodeMap.map_entries r)
            (imap_search InodeMap.inum n (InodeMap.map_entries r)) with
          | Some e => n =? InodeMap.inum e | None => false end = false) as ->.
  { destruct (imap_get _ _) as [e|]; [|done]. apply Z.eqb_neq. intros E.
    destruct Hp as (l1 & l2 & El & _). apply (Hno e); [|done]. rewrite El, elem_of_app, elem_of_cons. tauto. }
  simpl. destruct (Z.leb_spec a 0); [done|].
  rewrite (proj2 (Z.eqb_neq a 0)), (proj2 (Z.ltb_ge a 0)) by lia. done.
Qed.

(** The entry with a key is in the range or not. *)
Lemma range_find r n :
  (exists l1 x l2, InodeMap.map_entries r = l1 ++ x :: l2 /\ InodeMap.inum x = n) \/
  (forall x, x ∈ InodeMap.map_entries r -> InodeMap.inum x <> n).
Proof.
  destruct (decide (Exists (fun x => InodeMap.inum x = n) (InodeMap.map_entries r))) as [He|He].
  - left. apply Exists_exists in He as (x & Hx & E). apply list_elem_of_split in Hx as (l1 & l2 & El). eauto.
  - right. intros x Hx E. apply He. apply Exists_exists. eauto.
Qed.

(** A range with other entries, still of the same window. *)
Lemma range_wf_change r l ser :
  range_wf r -> sorted_lt InodeMap.inum l ->
  (forall e, e ∈ l -> InodeMap.start r <= InodeMap.inum e <= InodeMap.end_ r) ->
  range_wf (r <| InodeMap.map_entries := l |> <| InodeMap.serialized := ser |>).
Proof. intros [] ? ?. by split. Qed.

(** The effect of a lookup on one range: [f] of the present item. *)
Definition imap_result (a n : Z) (o : option (option ptr)) : option InodeMap.entry :=
  if a <? 0 then None
  else if 0 <? a then Some (InodeMap.mkEntry n (default None o))
  else InodeMap.mkEntry n <$> o.
Definition imap_update (a n : Z) (m : gmap Z (option ptr)) : gmap Z (option ptr) :=
  if a <? 0 then delete n m
  else if 0 <? a then <[n := default None (m !! n)]> m
  else m.

Lemma in_range_spec r n : in_range r n = true <-> InodeMap.start r <= n <= InodeMap.end_ r.
Proof. unfold in_range. rewrite andb_true_iff, !Z.leb_le. done. Qed.

Lemma imap_in_range_ok r n a r' e d :
  range_wf r -> InodeMap.start r <= n <= InodeMap.end_ r ->
  imap_in_range r n a = (r', e, d) ->
  range_wf r' /\ InodeMap.start r' = InodeMap.start r /\
  (a <> 0 -> InodeMap.serialized r' <> None -> InodeMap.serialized r' = InodeMap.serialized r) /\
  exists o : option (option ptr),
    (forall it, o = Some it <->
       exists x, x ∈ InodeMap.map_entries r /\ InodeMap.inum x = n /\ InodeMap.item x = it) /\
    e = imap_result a n o /\
    forall x, x ∈ InodeMap.map_entries r' <->
      if a <? 0 then x ∈ InodeMap.map_entries r /\ InodeMap.inum x <> n
      else x ∈ InodeMap.map_entries r \/ (0 < a /\ o = None /\ x = InodeMap.mkEntry n None).
Proof.
  intros Hw Hn E. pose proof (rw_sorted _ Hw) as Hs. pose proof (rw_entries _ Hw) as He.
  destruct (range_find r n) as [(l1 & x & l2 & El & Hx)|Hno].
  - rewrite (imap_in_range_found r n a l1 x l2 Hw El Hx) in E. injection E as <- <- <-.
    assert (Hin : forall y, y ∈ l1 ++ l2 <-> y ∈ l1 ++ x :: l2 /\ InodeMap.inum y <> n).
    { intros y. rewrite El in Hs. split.
      - intros Hy. split; [rewrite elem_of_app, elem_of_cons in *; tauto|]. intros E.
        assert (y = x) as ->.
        { eapply (sorted_lt_inj InodeMap.inum); [exact Hs| | |congruence];
            rewrite elem_of_app, elem_of_cons in *; tauto. }
        unfold sorted_lt in Hs. apply StronglySorted_app in Hs as (_ & Hs2 & Hc).
        inversion_clear Hs2 as [|? ? _ Hall]. rewrite Forall_forall in Hall.
        rewrite elem_of_app in Hy. destruct Hy as [Hy|Hy].
        + specialize (Hc x x Hy ltac:(by left)). lia.
        + specialize (Hall x Hy). lia.
      - rewrite !elem_of_app, elem_of_cons. intros [[|[->|]] ?]; tauto. }
    split_and!.
    + apply range_wf_change; [done| |]; rewrite El in *; destruct (a <? 0); try done.
      * by eapply sorted_lt_remove.
      * intros y [Hy _]%Hin. auto.
    + done.
    + intros Ha. rewrite (proj2 (Z.eqb_neq a 0)) by done. done.
    + exists (Some (InodeMap.item x)). split_and!.
      * intros it. split; [intros [= <-]; exists x; rewrite El, elem_of_app, elem_of_cons; tauto|].
        intros (y & Hy & Hyn & <-). do 2 f_equal.
        eapply (sorted_lt_inj InodeMap.inum); [exact Hs| |exact Hy|congruence].
        rewrite El, elem_of_app, elem_of_cons. tauto.
      * unfold imap_result. destruct (a <? 0); [done|]. rewrite <- Hx. destruct x. by destruct (0 <? a).
      * intros y. simpl. rewrite El. destruct (a <? 0); [apply Hin|]. split; [tauto|]. intros [|(_ & ? & _)]; done.
  - rewrite (imap_in_range_missing r n a Hw Hno) in E.
    assert (Hnone : forall it, None = Some it <->
       exists x, x ∈ InodeMap.map_entries r /\ InodeMap.inum x = n /\ InodeMap.item x = it).
    { intros it. split; [done|]. intros (y & Hy & Hyn & _). by destruct (Hno y). }
    destruct (Z.leb_spec a 0) as [Hle|Hgt]; injection E as <- <- <-.
    + split_and!; [done|done|done|]. exists None. split_and!; [done| |].
      * unfold imap_result. destruct (a <? 0); [done|]. by rewrite (proj2 (Z.ltb_ge 0 a)).
      * intros y. destruct (a <? 0); [|split; [tauto|intros [|[? _]]; [done|lia]]].
        split; [|tauto]. intros Hy. split; [done|by apply Hno].
    + split_and!; [|done|done|].
      * apply range_wf_change; [done|by apply (insert_sorted_lt InodeMap.inum)|].
        intros y [->|Hy]%(elem_of_insert_sorted InodeMap.inum); [done|auto|by apply sorted_lt_le].
      * exists None. rewrite (proj2 (Z.ltb_ge a 0)) by lia. split_and!; [done| |].
        { unfold imap_result. by rewrite (proj2 (Z.ltb_ge a 0)), (proj2 (Z.ltb_lt 0 a)) by lia. }
        intros y. simpl. rewrite (elem_of_insert_sorted InodeMap.inum) by (by apply sorted_lt_le).
        split; [intros [->|]; [right; by split_and!|tauto]|tauto].
Qed.

(** Replacing one range, or adding one, changes the map at [n] only. *)
Lemma imap_abs_change m m' n a r r' o :
  imap_ok m -> imap_ok m' ->
  (forall r0, r0 ∈ m' <-> r0 = r' \/ (r0 ∈ m /\ r0 <> r)) ->
  (r ∈ m \/ InodeMap.map_entries r = []) ->
  (forall r0 x, r0 ∈ m -> r0 <> r -> x ∈ InodeMap.map_entries r0 -> InodeMap.inum x <> n) ->
  (forall it, o = Some it <->
     exists x, x ∈ InodeMap.map_entries r /\ InodeMap.inum x = n /\ InodeMap.item x = it) ->
  (forall x, x ∈ InodeMap.map_entries r' <->
     if a <? 0 then x ∈ InodeMap.map_entries r /\ InodeMap.inum x <> n
     else x ∈ InodeMap.map_entries r \/ (0 < a /\ o = None /\ x = InodeMap.mkEntry n None)) ->
  imap_abs m !! n = o /\ imap_abs m' = imap_update a n (imap_abs m).
Proof.
  intros Hok Hok' Hm' Hr Hoth Ho Hx.
  assert (Hrm : forall x, x ∈ InodeMap.map_entries r -> r ∈ m).
  { intros x Hxr. destruct Hr as [|E]; [done|]. rewrite E in Hxr. by apply not_elem_of_nil in Hxr. }
  assert (Hn : imap_abs m !! n = o).
  { apply option_eq. intros it. rewrite imap_abs_spec, Ho by done. split.
    - intros (r0 & x & Hr0 & Hx0 & En & Ei). destruct (decide (x ∈ InodeMap.map_entries r)); [eauto|].
      exfalso. apply (Hoth r0 x); try done. congruence.
    - intros (x & Hx0 & En & Ei). eauto 10. }
  split; [done|]. apply map_eq. intros k. apply option_eq. intros it.
  rewrite imap_abs_spec by done. setoid_rewrite Hm'. unfold imap_update. rewrite Hn.
  destruct (decide (k = n)) as [->|Hkn].
  - assert (E : (exists r0 e, (r0 = r' \/ r0 ∈ m /\ r0 <> r) /\ e ∈ InodeMap.map_entries r0 /\
        InodeMap.inum e = n /\ InodeMap.item e = it) <->
      exists e, e ∈ InodeMap.map_entries r' /\ InodeMap.inum e = n /\ InodeMap.item e = it).
    { split.
      - intros (r0 & e & [->|[Hr0 Hne]] & He & En & Ei); [eauto|]. by destruct (Hoth r0 e).
      - intros (e & ?). eauto. }
    rewrite E. setoid_rewrite Hx. clear E. destruct (Z.ltb_spec a 0).
    + rewrite lookup_delete_eq. split; [|done]. intros (e & (_ & ?) & ? & _). done.
    + destruct (Z.ltb_spec 0 a).
      * rewrite lookup_insert_eq. destruct o as [it0|]; simpl.
        -- rewrite Ho. split; [intros (e & [He|(_ & ? & _)] & En & Ei); eauto; done|].
           intros (e & ?). exists e. tauto.
        -- split.
           ++ intros (e & [He|(_ & _ & ->)] & En & <-); [|done]. exfalso.
              assert (None = Some (InodeMap.item e)) by (apply Ho; eauto). done.
           ++ intros [= <-]. eexists. split; [right; split_and!; try done|done].
      * rewrite Hn, Ho. split; [intros (e & [He|(? & _)] & En & Ei); [eauto|lia]|].
        intros (e & ?). exists e. tauto.
  - assert (E : (exists r0 e, (r0 = r' \/ r0 ∈ m /\ r0 <> r) /\ e ∈ InodeMap.map_entries r0 /\
        InodeMap.inum e = k /\ InodeMap.item e = it) <-> imap_abs m !! k = Some it).
    { rewrite imap_abs_spec by done. split.
      - intros (r0 & e & [->|[Hr0 Hne]] & He & En & Ei); [|eauto 10].
        apply Hx in He. destruct (a <? 0).
        + destruct He. eauto 10.
        + destruct He as [He|(_ & _ & ->)]; [eauto 10|]. simpl in En. congruence.
      - intros (r0 & e & Hr0 & He & En & Ei). destruct (decide (e ∈ InodeMap.map_entries r)) as [Hd|Hd].
        + exists r', e. split_and!; [tauto| |done|done]. apply Hx.
          destruct (a <? 0); [split; [done|congruence]|tauto].
        + exists r0, e. split_and!; [right; split; [done|congruence]|done..]. }
    rewrite E. destruct (a <? 0); [by rewrite lookup_delete_ne|].
    destruct (0 <? a); [by rewrite lookup_insert_ne|done].
Qed.

Lemma sorted_replace {A} (key : A -> Z) l1 l2 x y :
  key y = key x -> sorted_lt key (l1 ++ x :: l2) -> sorted_lt key (l1 ++ y :: l2).
Proof.
  intros E. unfold sorted_lt. rewrite !StronglySorted_app. intros (H1 & H2 & Hc).
  inversion_clear H2 as [|? ? H2' Hall]. split_and!; [done| |].
  - constructor; [done|]. eapply Forall_impl; [exact Hall|]. simpl. intros. by rewrite E.
  - intros a b Ha [->|Hb]%elem_of_cons; [rewrite E|]; apply Hc; auto; [by left|by right].
Qed.

(** The window of an inode number, as the code computes it. *)
Definition window_start (n : Z) : Z := n - n mod target_imap_size.

Lemma land_window n :
  0 <= n < 2 ^ 64 -> Z.land n (u64 (Z.lnot (target_imap_size - 1))) = window_start n.
Proof.
  intros Hn. unfold window_start, target_imap_size.
  change (u64 (Z.lnot (4096 - 1))) with (Z.shiftl (Z.ones 52) 12).
  replace (n - n mod 4096) with (Z.shiftl (Z.shiftr n 12) 12).
  - apply Z.bits_inj'. intros k Hk. rewrite Z.land_spec.
    destruct (Z.lt_ge_cases k 12); [by rewrite !Z.shiftl_spec_low, andb_false_r by lia|].
    rewrite !Z.shiftl_spec_high, Z.shiftr_spec by lia. replace (k - 12 + 12) with k by lia.
    destruct (Z.lt_ge_cases k 64).
    + by rewrite Z.ones_spec_low, andb_true_r by lia.
    + destruct (Z.eq_dec n 0) as [->|]; [by rewrite Z.bits_0|].
      rewrite Z.bits_above_log2; [done|lia|]. apply Z.log2_lt_pow2; [lia|].
      apply Z.lt_le_trans with (2 ^ 64); [lia|]. apply Z.pow_le_mono_r; lia.
  - rewrite Z.shiftl_mul_pow2, Z.shiftr_div_pow2 by lia. change (2 ^ 12) with 4096.
    pose proof (Z.div_mod n 4096 ltac:(lia)). lia.
Qed.

Lemma window_start_spec n :
  0 <= n -> 0 <= window_start n /\ window_start n mod target_imap_size = 0 /\
  window_start n <= n <= window_start n + target_imap_size - 1 /\
  (n < 2 ^ 64 -> window_start n + target_imap_size - 1 < 2 ^ 64).
Proof.
  intros Hn. unfold window_start, target_imap_size.
  pose proof (Z.div_mod n 4096 ltac:(lia)) as Hd. pose proof (Z.mod_pos_bound n 4096 ltac:(lia)).
  pose proof (Z.div_pos n 4096 Hn ltac:(lia)).
  replace (n - n mod 4096) with (n / 4096 * 4096) by lia. split_and!; [lia|by apply Z.mod_mul|lia..|].
  intros Hm. assert (n / 4096 < 2 ^ 52) by (apply Z.div_lt_upper_bound; lia). lia.
Qed.

(** Aligned starts: the next one is a window further on. *)
Lemma aligned_lt x n :
  x mod target_imap_size = 0 -> n < x -> window_start n + target_imap_size <= x.
Proof.
  unfold window_start, target_imap_size. intros Hx Hlt.
  pose proof (Z.div_mod n 4096 ltac:(lia)). pose proof (Z.div_mod x 4096 ltac:(lia)).
  pose proof (Z.mod_pos_bound n 4096 ltac:(lia)).
  assert (n / 4096 < x / 4096) by nia. nia.
Qed.

Lemma aligned_le x n :
  x mod target_imap_size = 0 -> x <= n -> x <= window_start n.
Proof.
  unfold window_start, target_imap_size. intros Hx Hle.
  pose proof (Z.div_mod n 4096 ltac:(lia)). pose proof (Z.div_mod x 4096 ltac:(lia)).
  pose proof (Z.mod_pos_bound n 4096 ltac:(lia)). assert (x / 4096 <= n / 4096) by nia. nia.
Qed.

(** No range covers [n]: the assertion holds and the new range is the window of
    [n], at a place where there is none. *)
Lemma imap_new_range_ok m n :
  imap_ok m -> 0 <= n < 2 ^ 64 ->
  (forall r, imap_get m (imap_search InodeMap.start n m) = Some r -> in_range r n = false) ->
  imap_new_range m (imap_search InodeMap.start n m) n =
    Some (InodeMap.mkRange (window_start n) (window_start n + target_imap_size - 1) [] None) /\
  (forall r, r ∈ m -> ~ InodeMap.start r <= n <= InodeMap.end_ r).
Proof.
  intros [Hs Hw] Hn Hcov. pose proof (imap_search_spec InodeMap.start m n Hs) as Hp.
  destruct (window_start_spec n ltac:(lia)) as (Hw0 & Hwa & Hwn & Hwm).
  unfold imap_new_range. rewrite land_window by done.
  assert (Hmask : forall start end_, start <= n <= end_ -> start <= window_start n ->
    window_start n + target_imap_size - 1 <= end_ ->
    (if (start <=? n) && (n <=? end_) then
       let start := Z.max start (window_start n) in
       let end_ := Z.min end_ (u64 (start + target_imap_size - 1)) in
       Some (InodeMap.mkRange start end_ [] None) else None)
    = Some (InodeMap.mkRange (window_start n) (window_start n + target_imap_size - 1) [] None)).
  { intros start end_ H1 H2 H3. rewrite (proj2 (Z.leb_le _ _)), (proj2 (Z.leb_le _ _)) by lia. simpl.
    rewrite Z.max_r, u64_id, Z.min_r by (unfold target_imap_size in *; lia). done. }
  destruct (imap_get m (imap_search InodeMap.start n m)) as [r|] eqn:Hg; cycle 1.
  { subst m. unfold imap_search, imap_get, g_sequence_iter_is_end, g_sequence_iter_next in *. simpl in *.
    split; [|intros r Hr; by apply not_elem_of_nil in Hr].
    destruct (negb _); apply Hmask; lia. }
  specialize (Hcov r eq_refl). destruct Hp as (l1 & l2 & El & Ei & H2 & Hle). rewrite Ei in *.
  assert (Hr : r ∈ m) by (rewrite El, elem_of_app, elem_of_cons; tauto).
  pose proof (Hw r Hr) as Wr.
  assert (Hnr : ~ InodeMap.start r <= n <= InodeMap.end_ r) by (rewrite <- in_range_spec, Hcov; done).
  assert (Hnext : forall end_, end_ = match imap_get m (g_sequence_iter_next m (length l1)) with
      | Some r => u64 (InodeMap.start r - 1) | None => 2 ^ 64 - 1 end ->
      n <= end_ /\ window_start n + target_imap_size - 1 <= end_).
  { intros e ->. unfold imap_get, g_sequence_iter_is_end, g_sequence_iter_next. rewrite El, length_app. simpl.
    rewrite (proj2 (Nat.ltb_lt _ _)) by lia. destruct l2 as [|r2 l2'] eqn:E2; simpl.
    - rewrite (proj2 (Nat.leb_le _ _)) by lia. split; [lia|]. specialize (Hwm ltac:(lia)). lia.
    - rewrite (proj2 (Nat.leb_gt _ _)) by lia.
      replace ((l1 ++ r :: r2 :: l2') !! S (length l1)) with (Some r2); cycle 1.
      { rewrite lookup_app_r by lia. by replace (S (length l1) - length l1)%nat with 1%nat by lia. }
      inversion_clear H2 as [|? ? Hr2 _].
      assert (W2 : range_wf r2) by (apply Hw; rewrite El, elem_of_app, !elem_of_cons; tauto).
      pose proof (aligned_lt _ n (rw_align _ W2) Hr2). pose proof (rw_max _ W2). pose proof (rw_end _ W2).
      unfold target_imap_size in *. rewrite u64_id by lia. lia. }
  specialize (Hnext _ eq_refl). split.
  - apply Hmask.
    + split; [|lia]. destruct l1 as [|r1 l1']; [simpl; lia|].
      change (g_sequence_iter_is_begin (length (r1 :: l1'))) with false. cbn [negb].
      destruct Hle as [Hle|[_ ?]]; [|done]. pose proof (rw_start _ Wr). pose proof (rw_end _ Wr).
      unfold target_imap_size in *. rewrite u64_id by lia. lia.
    + destruct l1 as [|r1 l1']; [done|].
      change (g_sequence_iter_is_begin (length (r1 :: l1'))) with false. cbn [negb].
      destruct Hle as [Hle|[_ ?]]; [|done]. pose proof (rw_start _ Wr). pose proof (rw_end _ Wr).
      rewrite u64_id by (unfold target_imap_size in *; lia). apply aligned_le; [|lia].
      rewrite (rw_end _ Wr). replace (_ - 1 + 1) with (InodeMap.start r + 1 * target_imap_size) by lia.
      rewrite Z.mod_add by done. apply Wr.
    + lia.
  - intros r0 Hr0 Hc. pose proof (range_wf_window r0 n (Hw r0 Hr0) Hc) as Hst. fold (window_start n) in Hst.
    rewrite El, elem_of_app, elem_of_cons in Hr0. unfold sorted_lt in Hs. rewrite El in Hs.
    apply StronglySorted_app in Hs as (_ & _ & Hcc). destruct Hr0 as [Hr0|[->|Hr0]]; [|done|].
    + specialize (Hcc r0 r Hr0 ltac:(by left)). destruct Hle as [Hle|[_ ->]]; [|by apply not_elem_of_nil in Hr0].
      pose proof (aligned_le _ n (rw_align _ Wr) Hle). lia.
    + rewrite Forall_forall in H2. specialize (H2 r0 Hr0). lia.
Qed.

(** The branch that makes a new range. *)
Lemma imap_lookup_create m n a :
  imap_ok m -> 0 <= n < 2 ^ 64 ->
  (forall r, imap_get m (imap_search InodeMap.start n m) = Some r -> in_range r n = false) ->
  exists m' dropped,
    (if a <=? 0 then Some (m, None, None) else
     range ← imap_new_range m (imap_search InodeMap.start n m) n;
     let '(range, entry, dropped) := imap_in_range range n a in
     Some (insert_sorted InodeMap.start range m, entry, dropped))
    = Some (m', imap_result a n (imap_abs m !! n), dropped) /\
    imap_ok m' /\ imap_abs m' = imap_update a n (imap_abs m).
Proof.
  intros Hok Hn Hcov. pose proof Hok as [Hs Hw].
  destruct (imap_new_range_ok m n Hok Hn Hcov) as [-> Hno]. simpl.
  destruct (window_start_spec n ltac:(lia)) as (Hw0 & Hwa & Hwn & Hwm). specialize (Hwm ltac:(lia)).
  set (nr := InodeMap.mkRange (window_start n) (window_start n + target_imap_size - 1) [] None).
  assert (Wn : range_wf nr).
  { split; try done; simpl; [constructor|]. intros e He. by apply not_elem_of_nil in He. }
  assert (Hkey : forall r, r ∈ m -> InodeMap.start r <> window_start n).
  { intros r Hr E. apply (Hno r Hr). rewrite (rw_end _ (Hw r Hr)). lia. }
  assert (Hout : forall r x, r ∈ m -> x ∈ InodeMap.map_entries r -> InodeMap.inum x <> n).
  { intros r x Hr Hx E. apply (Hno r Hr). rewrite <- E. by apply (rw_entries _ (Hw r Hr)). }
  assert (Hm : imap_abs m !! n = None).
  { destruct (imap_abs m !! n) eqn:E; [|done]. apply imap_abs_spec in E as (r & x & Hr & Hx & En & _); [|done].
    by destruct (Hout r x). }
  rewrite Hm. destruct (Z.leb_spec a 0) as [Hle|Hgt].
  { exists m, None. unfold imap_result, imap_update. split_and!; [|done|].
    - destruct (Z.ltb_spec a 0); [done|]. by rewrite (proj2 (Z.ltb_ge 0 a)).
    - destruct (Z.ltb_spec a 0); [by rewrite delete_id|]. by rewrite (proj2 (Z.ltb_ge 0 a)). }
  destruct (imap_in_range nr n a) as [[r' e] d] eqn:E.
  destruct (imap_in_range_ok nr n a r' e d Wn ltac:(simpl; lia) E) as (Hw' & Est & _ & o & Ho & -> & Hx).
  assert (o = None) as ->.
  { destruct o as [it|]; [|done]. destruct (proj1 (Ho it) eq_refl) as (x & Hx0 & _).
    by apply not_elem_of_nil in Hx0. }
  assert (Hmem : forall r0, r0 ∈ insert_sorted InodeMap.start r' m <-> r0 = r' \/ (r0 ∈ m /\ r0 <> nr)).
  { intros r0. rewrite (elem_of_insert_sorted InodeMap.start) by (by apply sorted_lt_le).
    split; [|tauto]. intros [->|Hr0]; [tauto|]. right. split; [done|]. intros ->. by destruct (Hkey nr). }
  assert (Hok' : imap_ok (insert_sorted InodeMap.start r' m)).
  { split.
    - apply (insert_sorted_lt InodeMap.start); [done|]. intros y Hy. rewrite Est. by apply Hkey.
    - intros r0 [->|[Hr0 _]]%Hmem; auto. }
  destruct (imap_abs_change m (insert_sorted InodeMap.start r' m) n a nr r' None) as [_ Habs]; eauto 10.
Qed.

Lemma imap_lookup_ok m n a :
  imap_ok m -> 0 <= n < 2 ^ 64 ->
  exists m' dropped, imap_lookup m n a = Some (m', imap_result a n (imap_abs m !! n), dropped) /\
    imap_ok m' /\ imap_abs m' = imap_update a n (imap_abs m).
Proof.
  intros Hok Hn. pose proof Hok as [Hs Hw]. unfold imap_lookup.
  set (i := imap_search InodeMap.start n m).
  destruct (imap_get m i) as [r|] eqn:Hg; [destruct (in_range r n) eqn:Hc|].
  - pose proof (imap_search_spec InodeMap.start m n Hs) as Hp. fold i in Hp. rewrite Hg in Hp.
    destruct Hp as (l1 & l2 & El & Ei & _).
    destruct (imap_in_range r n a) as [[r' e] d] eqn:E. apply in_range_spec in Hc.
    assert (Hr : r ∈ m) by (rewrite El, elem_of_app, elem_of_cons; tauto).
    destruct (imap_in_range_ok r n a r' e d (Hw r Hr) Hc E) as (Hw' & Est & _ & o & Ho & -> & Hx).
    assert (<[i := r']> m = l1 ++ r' :: l2) as ->.
    { rewrite El, Ei, insert_app_r_alt, Nat.sub_diag by done. done. }
    assert (Hmem : forall r0, r0 ∈ l1 ++ r' :: l2 <-> r0 = r' \/ (r0 ∈ m /\ r0 <> r)).
    { intros r0. rewrite El, !elem_of_app, !elem_of_cons. pose proof Hs as Hs'. unfold sorted_lt in Hs'.
      rewrite El in Hs'. apply StronglySorted_app in Hs' as (_ & Hs2 & Hcc).
      inversion_clear Hs2 as [|? ? _ Hall]. rewrite Forall_forall in Hall. split; [|tauto].
      intros [Hl|[->|Hl]]; [right|tauto|right]; (split; [tauto|]); intros ->.
      - specialize (Hcc r r Hl ltac:(by left)). lia.
      - specialize (Hall r Hl). lia. }
    assert (Hok' : imap_ok (l1 ++ r' :: l2)).
    { split; [eapply sorted_replace; [exact Est|by rewrite <- El]|].
      intros r0 [->|[Hr0 _]]%Hmem; auto. }
    destruct (imap_abs_change m (l1 ++ r' :: l2) n a r r' o) as [Ho' Habs]; auto.
    { intros r0 x Hr0 Hne Hx0 En. apply Hne.
      pose proof (range_wf_window r0 _ (Hw r0 Hr0) (rw_entries _ (Hw r0 Hr0) x Hx0)).
      pose proof (range_wf_window r _ (Hw r Hr) Hc).
      eapply (sorted_lt_inj InodeMap.start); [exact Hs|done|done|congruence]. }
    rewrite Ho'. eauto 10.
  - apply imap_lookup_create; [done|done|]. intros r0. fold i. rewrite Hg. by intros [= <-].
  - apply imap_lookup_create; [done|done|]. intros r0. fold i. by rewrite Hg.
Qed.

(** ** Setting items, and loading sections *)

Lemma imap_set_item_ok m n it :
  imap_ok m -> is_Some (imap_abs m !! n) ->
  imap_ok (imap_set_item m n it) /\ imap_abs (imap_set_item m n it) = <[n := it]> (imap_abs m).
Proof.
  intros Hok Hn. pose proof Hok as [Hs Hw]. unfold imap_set_item.
  set (g := fun e => if InodeMap.inum e =? n then e <| InodeMap.item := it |> else e).
  set (f := fun r => r <| InodeMap.map_entries ::= fmap g |>).
  assert (Hg : forall e, InodeMap.inum (g e) = InodeMap.inum e) by (intros e; unfold g; by destruct (_ =? _)).
  assert (Hok' : imap_ok (f <$> m)).
  { split; [by apply (sorted_lt_fmap InodeMap.start)|]. intros r (r0 & -> & Hr0)%list_elem_of_fmap.
    destruct (Hw r0 Hr0) as [? ? ? ? Hsr Her]. split; try done; simpl.
    - by apply (sorted_lt_fmap InodeMap.inum).
    - intros e (e0 & -> & He0)%list_elem_of_fmap. rewrite Hg. auto. }
  split; [done|]. apply map_eq. intros k. apply option_eq. intros v. rewrite imap_abs_spec by done.
  assert (E : (exists r e, r ∈ f <$> m /\ e ∈ InodeMap.map_entries r /\ InodeMap.inum e = k /\ InodeMap.item e = v)
    <-> exists r e, r ∈ m /\ e ∈ InodeMap.map_entries r /\ InodeMap.inum e = k /\ InodeMap.item (g e) = v).
  { split.
    - intros (r & e & (r0 & -> & Hr0)%list_elem_of_fmap & He & Hk & Hv).
      apply list_elem_of_fmap in He as (e0 & -> & He0). rewrite Hg in Hk. eauto 10.
    - intros (r & e & Hr & He & Hk & Hv). exists (f r), (g e). split_and!; [|simpl|by rewrite Hg|done].
      + apply list_elem_of_fmap. eauto.
      + apply list_elem_of_fmap. eauto. }
  rewrite E. destruct (decide (k = n)) as [->|Hne].
  - rewrite lookup_insert_eq. destruct Hn as [v0 (r & e & Hr & He & Hk & _)%imap_abs_spec]; [|done]. split.
    + intros (r1 & e1 & _ & _ & Hk1 & <-). unfold g. by rewrite Hk1, Z.eqb_refl.
    + intros [= <-]. exists r, e. split_and!; try done. unfold g. by rewrite Hk, Z.eqb_refl.
  - rewrite lookup_insert_ne, imap_abs_spec by done.
    split; intros (r & e & Hr & He & Hk & Hv); exists r, e; split_and!; try done; revert Hv;
      unfold g; by rewrite Hk, (proj2 (Z.eqb_neq k n)) by done.
Qed.

Lemma length_section_data es :
  length (es ≫= (fun e => le_bytes 8 (InodeMap.inum e))) = (8 * length es)%nat.
Proof.
  induction es as [|x es IH]; [done|]. rewrite bind_cons, length_app, IH, length_le_bytes.
  simpl. lia.
Qed.

Lemma section_data_slice es1 e es2 :
  slice ((es1 ++ e :: es2) ≫= (fun e => le_bytes 8 (InodeMap.inum e))) (8 * zlen es1) 8
  = Some (le_bytes 8 (InodeMap.inum e)).
Proof.
  rewrite bind_app, bind_cons. apply slice_mid; [|done]. rewrite length_section_data. lia.
Qed.

Section load.
Context `{Env}.

(** What a table of entries adds to a map. *)
Definition load_entries (es : list InodeMap.entry) (m : gmap Z (option ptr)) : gmap Z (option ptr) :=
  fold_left (fun m e => <[InodeMap.inum e := InodeMap.item e]> m) es m.

Definition item_live (s : State) (o : option ptr) : Prop :=
  match o with Some p => is_Some (cloudlogs s !! p) | None => True end.

Lemma imap_load_step s e :
  imap_ok (FS.inode_map (fs s)) -> 0 <= InodeMap.inum e < 2 ^ 64 - 1 -> item_live s (InodeMap.item e) ->
  wp (o ← bluesky_inode_map_lookup (InodeMap.inum e) 1;
      entry ← assume NullPointer o;
      bluesky_cloudlog_unref_delayed (InodeMap.item entry);;
      inode_map ← get_imap;
      set_imap (imap_set_item inode_map (InodeMap.inum e) (InodeMap.item e));;
      bluesky_cloudlog_ref (InodeMap.item e);;
      modify (fun s => s <| fs ::= (fun f =>
        f <| FS.next_inum ::= fun n => Z.max n (u64 (InodeMap.inum e + 1)) |>) |>)) s (fun _ s' =>
    imap_ok (FS.inode_map (fs s')) /\
    imap_abs (FS.inode_map (fs s')) = <[InodeMap.inum e := InodeMap.item e]> (imap_abs (FS.inode_map (fs s))) /\
    FS.next_inum (fs s') = Z.max (FS.next_inum (fs s)) (InodeMap.inum e + 1) /\
    forall o, item_live s o -> item_live s' o).
Proof.
  intros Hok Hn Hlive. unfold bluesky_inode_map_lookup, get_imap, set_imap.
  destruct (imap_lookup_ok (FS.inode_map (fs s)) (InodeMap.inum e) 1 Hok ltac:(lia)) as (m' & d & El & Hok' & Habs).
  wp_step. wp_step. wp_step. wp_step. wp_step; [done|]. cbv beta iota zeta. wp_step. wp_step. wp_step.
  
  assert (Hun : forall x t (Q : unit -> State -> Prop), (forall q, Q tt (t <| fs ::= (fun f => f <| FS.unref_queue := q |>) |>)) ->
    wp (bluesky_cloudlog_unref_delayed x) t Q).
  { intros x t Q HQ. destruct x; simpl; [apply HQ|]. specialize (HQ (FS.unref_queue (fs t))).
    by destruct t as [? ? ? ? ? ? []]. }
  apply Hun. intros q1. wp_step. wp_step. wp_step; [done|]. wp_step. apply Hun. intros q2.
  wp_step. wp_step. wp_step. wp_step. wp_step.
  set (m2 := imap_set_item _ _ _).
  destruct (imap_set_item_ok m' (InodeMap.inum e) (InodeMap.item e) Hok') as [Hok2 Habs2].
  { rewrite Habs. unfold imap_update. simpl. rewrite lookup_insert_eq. eauto. }
  assert (Hres : forall (c : gmap ptr CloudLog.t) t,
    FS.inode_map (fs t) = imap_set_item m' (InodeMap.inum e) (InodeMap.item e) ->
    FS.next_inum (fs t) = Z.max (FS.next_inum (fs s)) (u64 (InodeMap.inum e + 1)) ->
    (forall o, item_live s o -> item_live t o) ->
    imap_ok (FS.inode_map (fs t)) /\
    imap_abs (FS.inode_map (fs t)) = <[InodeMap.inum e := InodeMap.item e]> (imap_abs (FS.inode_map (fs s))) /\
    FS.next_inum (fs t) = Z.max (FS.next_inum (fs s)) (InodeMap.inum e + 1) /\
    forall o, item_live s o -> item_live t o).
  { intros c t E1 E2 E3. rewrite E1, E2, Habs2, Habs, u64_id by lia. unfold imap_update. simpl.
    rewrite insert_insert_eq. done. }
  destruct (InodeMap.item e) as [p|] eqn:Ei; simpl bluesky_cloudlog_ref.
  - destruct Hlive as [l Hl]. eapply wp_upd; [exact Hl|]. wp_step.
    apply Hres; [exact ∅|done|done|]. intros [o|]; [|done]. simpl. intros Ho.
    destruct (decide (o = p)) as [->|]; [rewrite lookup_insert_eq; eauto|by rewrite lookup_insert_ne].
  - wp_step. wp_step. apply Hres; [exact ∅|done|done|]. by intros [o|].
Qed.

Lemma imap_load_section_cons data j item links :
  imap_load_section data j (item :: links) =
  (inum ← read_le data (8 * j) 8;
   (o ← bluesky_inode_map_lookup inum 1;
    entry ← assume NullPointer o;
    bluesky_cloudlog_unref_delayed (InodeMap.item entry);;
    inode_map ← get_imap;
    set_imap (imap_set_item inode_map inum item);;
    bluesky_cloudlog_ref item;;
    modify (fun s => s <| fs ::= (fun f =>
      f <| FS.next_inum ::= fun n => Z.max n (u64 (inum + 1)) |>) |>);;
    imap_load_section data (j + 1) links)).
Proof. done. Qed.

Lemma imap_load_section_ok s es1 es2 :
  imap_ok (FS.inode_map (fs s)) -> (forall e, e ∈ es2 -> 0 <= InodeMap.inum e < 2 ^ 64 - 1) ->
  (forall e, e ∈ es2 -> item_live s (InodeMap.item e)) ->
  wp (imap_load_section ((es1 ++ es2) ≫= (fun e => le_bytes 8 (InodeMap.inum e))) (zlen es1)
        (InodeMap.item <$> es2)) s (fun _ s' =>
    imap_ok (FS.inode_map (fs s')) /\
    imap_abs (FS.inode_map (fs s')) = load_entries es2 (imap_abs (FS.inode_map (fs s))) /\
    FS.next_inum (fs s) <= FS.next_inum (fs s') /\
    forall e, e ∈ es2 -> InodeMap.inum e < FS.next_inum (fs s')).
Proof.
  revert s es1. induction es2 as [|e es2 IH]; intros s es1 Hok Hr Hl.
  { simpl. split_and!; [done|done|lia|]. intros e He. by apply not_elem_of_nil in He. }
  rewrite fmap_cons, imap_load_section_cons. unfold read_le. wp_step. wp_step.
  wp_step; [apply section_data_slice|]. wp_step.
  assert (He : 0 <= InodeMap.inum e < 2 ^ 64 - 1) by (apply Hr; by left).
  rewrite le_val_le_bytes8 by lia.
  pose proof (imap_load_step s e Hok He ltac:(apply Hl; by left)) as Hstep.
  do 6 (wp_along Hstep). apply wp_bind. eapply wp_mono; [exact Hstep|].
  intros _ s1 (Hok1 & Habs1 & Hnext & Hlive).
  replace (zlen es1 + 1) with (zlen (es1 ++ [e])) by (rewrite length_app; simpl; lia).
  replace (es1 ++ e :: es2) with ((es1 ++ [e]) ++ es2) by (by rewrite <- app_assoc).
  eapply wp_mono; [apply IH; [done| |]|].
  - intros x Hx. apply Hr. by right.
  - intros x Hx. apply Hlive, Hl. by right.
  - intros _ s2 (Hok2 & Habs2 & Hn2 & Hall). split_and!; [done|by rewrite Habs2, Habs1|lia|].
    intros x [->|Hx]%elem_of_cons; [lia|auto].
Qed.

(** C27: on a well-formed inode map [bluesky_inode_map_lookup] never fails its
    assertion; it refines a finite map from inode numbers to items: action 0 only
    looks up, a positive action returns the entry and creates it if it is missing, a
    negative one removes it, and in each case the map stays well formed, its ranges
    being disjoint aligned windows with sorted entries. *)
Theorem inode_map_lookup_refines s n a :
  imap_ok (FS.inode_map (fs s)) -> 0 <= n < 2 ^ 64 ->
  wp (bluesky_inode_map_lookup n a) s (fun e s' =>
    e = imap_result a n (imap_abs (FS.inode_map (fs s)) !! n) /\
    imap_ok (FS.inode_map (fs s')) /\
    imap_abs (FS.inode_map (fs s')) = imap_update a n (imap_abs (FS.inode_map (fs s)))).
Proof.
  intros Hok Hn. destruct (imap_lookup_ok _ n a Hok Hn) as (m' & d & El & Hok' & Habs).
  unfold bluesky_inode_map_lookup, get_imap, set_imap. wp_step. wp_step. wp_step. wp_step; [done|].
  cbv beta iota zeta. wp_step. wp_step. wp_step. destruct d; simpl; done.
Qed.


End load.

End lookup.

#[local] Existing Instance linear_gsequence.

(** ** A map of one range *)
Definition sample_range : InodeMap.range :=
  InodeMap.mkRange 0 4095 [InodeMap.mkEntry 2 None; InodeMap.mkEntry 7 None] None.
Definition sample_imap_state : State :=
  empty_state <| fs ::= (fun f => f <| FS.inode_map := [sample_range] |>) |>.

Lemma sample_range_wf : range_wf sample_range.
Proof.
  split; try done; [repeat constructor|]. intros e. simpl. rewrite !elem_of_cons, elem_of_nil.
  intros [->|[->|[]]]; simpl; lia.
Qed.

Lemma sample_imap_ok : imap_ok [sample_range].
Proof.
  split; [repeat constructor|]. intros r. rewrite list_elem_of_singleton. intros ->.
  apply sample_range_wf.
Qed.

Lemma inode_map_lookup_refines_witness :
  wp (bluesky_inode_map_lookup 5000 1) sample_imap_state (fun e s' =>
    e = Some (InodeMap.mkEntry 5000 None) /\
    imap_abs (FS.inode_map (fs s')) = {[ 2 := None; 7 := None; 5000 := None ]}).
Proof.
  refine (wp_mono _ _ _ _ (inode_map_lookup_refines sample_imap_state 5000 1 sample_imap_ok _) _); [lia|].
  intros e s' (-> & _ & E). split; [by vm_compute|]. rewrite E. by vm_compute.
Defined.

