(* ===== verification/Serialize.v ===== *)
(** * Serialized inodes and log items (src/bluesky/serialize.c)

    The byte formats of the superblock, of inodes with their directory entries or
    block links, and of log items, with the functions that write and read them.
    The round trips between them are in Roundtrip.v and RoundtripItem.v. *)

From S2P Require Import Prelude Glib State Strings Ownership CloudLog Inodes Fetch File Dir Imap.
From Stdlib Require Import ZArith Lia Sorted.
From stdpp Require Import base numbers gmap option list.

Open Scope Z_scope.

Definition SUPERBLOCK_MAGIC : Z := 0x65ca91e91b124234.
Definition INODE_MAGIC : Z := 0xa6832100943d71e6.

(** [bluesky_new_fs]: the file system object and the state of its log. *)
Definition bluesky_new_fs : FS.t * CloudLogState.t :=
  (FS.mk ∅ (BLUESKY_ROOT_INUM + 1) 0 0 0 0 0 ListHead.empty ListHead.empty ListHead.empty ∅ [] [],
   CloudLogState.mk [] CloudPointer.zero [] [] 0 (-1)).

Definition bluesky_serialize_superblock (f : FS.t) : bytes :=
  le_bytes 8 SUPERBLOCK_MAGIC ++ le_bytes 8 (FS.next_inum f).

Definition bluesky_deserialize_superblock (buf : bytes) : M State (option FS.t) :=
  signature ← read_le buf 0 8;
  if negb (signature =? SUPERBLOCK_MAGIC) then mret None else
  next_inum ← read_le buf 8 8;
  mret (Some (bluesky_new_fs.1 <| FS.next_inum := next_inum |>)).

(** ** Inodes *)

(** [struct serialized_inode]. *)
Definition serialized_inode (i : Inode.t) : bytes :=
  le_bytes 8 INODE_MAGIC ++ le_bytes 4 (u32 (Inode.type i)) ++ le_bytes 4 (Inode.mode i) ++
  le_bytes 4 (Inode.uid i) ++ le_bytes 4 (Inode.gid i) ++ le_bytes 4 (Inode.nlink i) ++
  le_bytes 8 (Inode.inum i) ++ le_bytes 8 (Inode.change_count i) ++
  le_bytes 8 (u64 (Inode.atime i)) ++ le_bytes 8 (u64 (Inode.ctime i)) ++
  le_bytes 8 (u64 (Inode.mtime i)) ++ le_bytes 8 (u64 (Inode.ntime i)).

Definition serialized_dirents (dirents : list Dirent.t) : bytes :=
  (dirents ≫= fun d =>
     le_bytes 4 (Dirent.cookie d) ++ le_bytes 8 (Dirent.inum d) ++ Dirent.name d ++ [0])
  ++ le_bytes 4 0.

(** The link of a block: only blocks held in the log have one. *)
Definition block_link (b : Block.t) : option ptr := if is_ref b then Block.ref b else None.

(** [struct log_header] and [struct cloudlog_header]. *)
Module LogHeader.
Record t := mk {
  magic : Z;
  type : Z;
  offset : Z;
  size1 : Z;
  size2 : Z;
  size3 : Z;
  inum : Z;
  id : BlueSkyCloudID;
}.
Definition size : Z := 45.
Definition encode (h : t) : bytes :=
  le_bytes 4 (magic h) ++ le_bytes 1 (type h) ++ le_bytes 4 (offset h) ++
  le_bytes 4 (size1 h) ++ le_bytes 4 (size2 h) ++ le_bytes 4 (size3 h) ++
  le_bytes 8 (inum h) ++ id h.
Definition decode (b : bytes) : t :=
  mk (le_val (take 4 b)) (le_val (take 1 (drop 4 b))) (le_val (take 4 (drop 5 b)))
     (le_val (take 4 (drop 9 b))) (le_val (take 4 (drop 13 b))) (le_val (take 4 (drop 17 b)))
     (le_val (take 8 (drop 21 b))) (take 16 (drop 29 b)).
End LogHeader.

Module CloudLogHeader.
Record t := mk {
  magic : bytes;
  crypt_auth : bytes;
  crypt_iv : bytes;
  type : Z;
  id : BlueSkyCloudID;
  inum : Z;
  size1 : Z;
  size2 : Z;
  size3 : Z;
}.
Definition size : Z := 89.
Definition encode (h : t) : bytes :=
  magic h ++ crypt_auth h ++ crypt_iv h ++ le_bytes 1 (type h) ++ id h ++
  le_bytes 8 (inum h) ++ le_bytes 4 (size1 h) ++ le_bytes 4 (size2 h) ++ le_bytes 4 (size3 h).
Definition decode (b : bytes) : t :=
  mk (take 4 b) (take 32 (drop 4 b)) (take 16 (drop 36 b)) (le_val (take 1 (drop 52 b)))
     (take 16 (drop 53 b)) (le_val (take 8 (drop 69 b))) (le_val (take 4 (drop 77 b)))
     (le_val (take 4 (drop 81 b))) (le_val (take 4 (drop 85 b))).
End CloudLogHeader.

Section serialize.
Context `{GSequenceLib} `{Env}.

Definition bluesky_serialize_inode (inode : option ptr) : M State ptr :=
  i ← load inodes inode;
  cloudlog ← bluesky_cloudlog_new None;
  upd cloudlogs (Some cloudlog) (fun l =>
    l <| CloudLog.type := LOGTYPE_INODE |> <| CloudLog.inum := Inode.inum i |>);;
  rest ←
    (if Inode.type i =? BLUESKY_REGULAR then
       blocks ← get_blocks inode;
       for_each blocks (fun b =>
         bluesky_cloudlog_ref (block_link b);;
         upd cloudlogs (Some cloudlog) (fun l =>
           l <| CloudLog.links ::= fun k => k ++ [block_link b] |>));;
       mret (le_bytes 8 (Inode.size i))
     else if Inode.type i =? BLUESKY_DIRECTORY then
       dirents ← dir_entries i;
       mret (serialized_dirents dirents)
     else if Inode.type i =? BLUESKY_SYMLINK then
       c ← assume NullPointer (Inode.symlink_contents i);
       mret (c ++ [0])
     else mret []);
  data ← bluesky_string_new_from_gstring (serialized_inode i ++ rest);
  upd cloudlogs (Some cloudlog) (fun l => l <| CloudLog.data := Some data |>);;
  bluesky_cloudlog_insert (Some cloudlog);;
  bluesky_cloudlog_stats_update (Some cloudlog) 1;;
  mret cloudlog.

(** The C string at the start of a buffer, and what follows its terminator. *)
Fixpoint c_string (b : bytes) : option (bytes * bytes) :=
  match b with
  | [] => None
  | c :: b =>
    if c =? 0 then Some ([], b)
    else match c_string b with Some (s, rest) => Some (c :: s, rest) | None => None end
  end.

(** The entries of a serialized directory; each takes at least 13 bytes. *)
Fixpoint deserialize_dirents (fuel : nat) (inode : option ptr) (buf : bytes) : M State unit :=
  match fuel with
  | O => stop OutOfFuel
  | S fuel =>
    seq ← read_le buf 0 4;
    if seq =? 0 then mret tt else
    inum ← read_le buf 4 8;
    r ← assume OutOfBounds (c_string (drop 12 buf));
    let dirent := Dirent.mk r.1 (bluesky_lowercase r.1) seq inum in
    i ← load inodes inode;
    dirents ← dir_entries i;
    dirhash ← dir_hash i;
    folded ← dir_hash_folded i;
    upd inodes inode (fun i => i
      <| Inode.dirents := Some (g_sequence_insert_sorted (fun e => bluesky_dirent_compare e dirent) dirent dirents) |>
      <| Inode.dirhash := Some (<[Dirent.name dirent := dirent]> dirhash) |>
      <| Inode.dirhash_folded := Some (<[Dirent.name_folded dirent := dirent]> folded) |>);;
    deserialize_dirents fuel inode r.2
  end.

Definition bluesky_deserialize_inode (inode item : option ptr) : M State bool :=
  it ← load cloudlogs item;
  check Assertion (match CloudLog.data it with Some _ => true | None => false end);;
  buf ← item_data item;
  signature ← read_le buf 0 8;
  if negb (signature =? INODE_MAGIC) then mret false else
  i ← load inodes inode;
  inum ← read_le buf 28 8;
  if negb (Inode.inum i =? inum) then mret false else
  type ← read_le buf 8 4;
  bluesky_init_inode inode type;;
  mode ← read_le buf 12 4;
  uid ← read_le buf 16 4;
  gid ← read_le buf 20 4;
  nlink ← read_le buf 24 4;
  change_count ← read_le buf 36 8;
  atime ← read_le buf 44 8;
  ctime ← read_le buf 52 8;
  mtime ← read_le buf 60 8;
  ntime ← read_le buf 68 8;
  upd inodes inode (fun i => i <| Inode.mode := mode |> <| Inode.uid := uid |>
    <| Inode.gid := gid |> <| Inode.nlink := nlink |> <| Inode.change_count := change_count |>
    <| Inode.change_commit := change_count |> <| Inode.atime := s64 atime |>
    <| Inode.ctime := s64 ctime |> <| Inode.mtime := s64 mtime |> <| Inode.ntime := s64 ntime |>);;
  let buf := drop 76 buf in
  (if type =? BLUESKY_REGULAR then
     size ← read_le buf 0 8;
     let n := u32 (u64 (size + BLUESKY_BLOCK_SIZE - 1) / BLUESKY_BLOCK_SIZE) in
     upd inodes inode (fun i => i <| Inode.size := size |>
       <| Inode.blocks ::= fmap (fun l => g_array_set_size l n) |>);;
     check Assertion (n =? zlen (CloudLog.links it));;
     for_each (zip (seqZ 0 n) (CloudLog.links it)) (fun kl =>
       set_block inode kl.1 (fun _ => Block.mk Block.REF kl.2 None);;
       bluesky_cloudlog_ref kl.2)
   else if type =? BLUESKY_DIRECTORY then
     deserialize_dirents (length buf) inode buf
   else if type =? BLUESKY_SYMLINK then
     r ← assume OutOfBounds (c_string buf);
     upd inodes inode (fun i => i <| Inode.symlink_contents := Some r.1 |>)
   else mret tt);;
  mret true.

(** ** Log items *)

(** The bytes of a [BlueSkyCloudPointer]: four 32-bit integers. *)
Definition pointer_bytes (p : CloudPointer.t) : bytes :=
  le_bytes 4 (CloudPointer.directory p) ++ le_bytes 4 (CloudPointer.sequence p) ++
  le_bytes 4 (CloudPointer.offset p) ++ le_bytes 4 (CloudPointer.size p).

Definition pointer_of_bytes (b : bytes) : CloudPointer.t :=
  CloudPointer.mk (le_val (take 4 b)) (le_val (take 4 (drop 4 b)))
    (le_val (take 4 (drop 8 b))) (le_val (take 4 (drop 12 b))).

(** The identifiers and the locations of the links. *)
Fixpoint serialize_links (links : list (option ptr)) : M State (bytes * bytes) :=
  match links with
  | [] => mret ([], [])
  | None :: links =>
    r ← serialize_links links;
    mret (id0 ++ r.1, r.2)
  | Some ref :: links =>
    l ← load cloudlogs (Some ref);
    r ← serialize_links links;
    mret (CloudLog.id l ++ r.1, pointer_bytes (CloudLog.location l) ++ r.2)
  end.

(** The encrypted, the authenticated and the writable part. *)
Definition bluesky_serialize_cloudlog (log : option ptr) : M State (bytes * bytes * bytes) :=
  l ← load cloudlogs log;
  encrypted ← item_data log;
  r ← serialize_links (CloudLog.links l);
  mret (encrypted, r.1, r.2).

Definition HEADER_MAGIC : Z := 0x676f4c0a.
Definition JOURNAL_MAGIC : bytes := [10; 76; 111; 103].
Definition CLOUDLOG_MAGIC : bytes := [65; 103; 73; 45].

(** The sizes, the type and the inode number in a header of either kind, with
    the length of the header. *)
Definition log_item_header (data : bytes) : option (Z * Z * Z * Z * Z * Z) :=
  if bool_decide (take 4 data = JOURNAL_MAGIC) then
    let h := LogHeader.decode data in
    Some (LogHeader.size, LogHeader.size1 h, LogHeader.size2 h, LogHeader.size3 h,
          LogHeader.type h - 48, LogHeader.inum h)
  else if bool_decide (take 4 data = CLOUDLOG_MAGIC) then
    let h := CloudLogHeader.decode data in
    Some (CloudLogHeader.size, CloudLogHeader.size1 h, CloudLogHeader.size2 h,
          CloudLogHeader.size3 h, CloudLogHeader.type h - 48, CloudLogHeader.inum h)
  else None.

(** The loop over the links: [data2] the identifiers, [data3] the locations that
    are left. *)
Fixpoint deserialize_links (link_count : nat) (data2 data3 : bytes) : M State (list (option ptr)) :=
  match link_count with
  | O => mret []
  | S link_count =>
    check Assertion (16 <=? zlen data2);;
    ref ← bluesky_cloudlog_get (take 16 data2);
    match ref with
    | Some _ =>
      check Assertion (16 <=? zlen data3);;
      upd cloudlogs ref (fun l => l <| CloudLog.location := pointer_of_bytes (take 16 data3) |>
        <| CloudLog.location_flags ::= fun f => Z.lor f CLOUDLOG_CLOUD |>);;
      new_links ← deserialize_links link_count (drop 16 data2) (drop 16 data3);
      mret (ref :: new_links)
    | None =>
      new_links ← deserialize_links link_count (drop 16 data2) data3;
      mret (ref :: new_links)
    end
  end.

Definition bluesky_deserialize_cloudlog (item : option ptr) (data : bytes) : M State unit :=
  check Assertion (4 <? zlen data);;
  match log_item_header data with
  | None => mret tt
  | Some (size, len1, len2, len3, type, inum) =>
    check Assertion (size <=? zlen data);;
    check Assertion (size + len1 + len2 + len3 <=? zlen data);;
    upd cloudlogs item (fun l => l <| CloudLog.type := type |> <| CloudLog.inum := inum |>);;
    l ← load cloudlogs item;
    bluesky_string_unref (CloudLog.data l);;
    upd cloudlogs item (fun l => l <| CloudLog.data := None |> <| CloudLog.data_size := s32 len1 |>);;
    data2 ← assume OutOfBounds (slice data (size + len1) len2);
    data3 ← assume OutOfBounds (slice data (size + len1 + len2) len3);
    new_links ← deserialize_links (Z.to_nat (len2 / 16)) data2 data3;
    l ← load cloudlogs item;
    for_each (CloudLog.links l) bluesky_cloudlog_unref;;
    upd cloudlogs item (fun l => l <| CloudLog.links := new_links |>)
  end.
End serialize.
