(* ===== verification/Roundtrip.v ===== *)
(** * Round trips of the serialized forms (src/bluesky/serialize.c)

    Writing an inode to a log item and reading it back into an empty inode gives
    the same attributes and the same contents: the blocks of a file, the entries
    of a directory, the target of a symbolic link. *)

From S2P Require Import Prelude Glib State Strings Ownership CloudLog Inodes Fetch File FileOps Dir Imap Serialize.
From Stdlib Require Import ZArith Lia Sorted.
From stdpp Require Import base numbers gmap option list.

Open Scope Z_scope.

(** ** Fields of a buffer *)

Lemma wp_read_le buf off len x s (Q : Z -> State -> Prop) :
  slice buf off len = Some x -> Q (le_val x) s -> wp (read_le buf off len) s Q.
Proof. intros Hx HQ. unfold read_le. wp_step. wp_step; [done|]. done. Qed.

(** Steps over the fields before the one at a constant offset. *)
Ltac slice_field :=
  repeat (rewrite slice_skip by (rewrite ?length_le_bytes; lia); rewrite length_le_bytes;
          simpl Z.sub);
  apply slice_head; by rewrite length_le_bytes.

(** ** Directories *)

Definition no_nul (b : bytes) : Prop := Forall (fun c => c <> 0) b.

Lemma c_string_app name rest : no_nul name -> c_string (name ++ 0 :: rest) = Some (name, rest).
Proof.
  induction 1 as [|c name Hc _ IH]; [done|]. simpl. by rewrite (proj2 (Z.eqb_neq c 0) Hc), IH.
Qed.

(** An entry that has a serialized form. *)
Record dirent_wf (d : Dirent.t) : Prop := {
  dw_cookie : 4 <= Dirent.cookie d < 2 ^ 31;
  dw_inum : 0 <= Dirent.inum d < 2 ^ 64;
  dw_name : no_nul (Dirent.name d);
  dw_folded : Dirent.name_folded d = bluesky_lowercase (Dirent.name d);
}.

Lemma dir_ok_empty j :
  Inode.type j = BLUESKY_DIRECTORY -> Inode.dirents j = Some [] -> Inode.dirhash j = Some ∅ ->
  Inode.dirhash_folded j = Some ∅ -> dir_ok j [] ∅ ∅.
Proof.
  intros. split; try done.
  - constructor.
  - by intros d Hd%not_elem_of_nil.
  - by intros d Hd%not_elem_of_nil.
  - intros n d. rewrite lookup_empty. split; [done|]. by intros [Hd%not_elem_of_nil _].
Qed.

Section dirents.
Context `{GSequenceLib}.

(** The inode with its entries replaced. *)
Definition with_dirents (i : Inode.t) (l : list Dirent.t) (h hf : gmap bytes Dirent.t) : Inode.t :=
  i <| Inode.dirents := Some l |> <| Inode.dirhash := Some h |> <| Inode.dirhash_folded := Some hf |>.

Lemma serialized_dirents_cons d l :
  serialized_dirents (d :: l)
  = le_bytes 4 (Dirent.cookie d) ++ le_bytes 8 (Dirent.inum d) ++ Dirent.name d ++ 0 :: serialized_dirents l.
Proof. unfold serialized_dirents. rewrite bind_cons, <- !(assoc_L (++)). done. Qed.

Lemma dirents_insert_last i l h hf d :
  dir_ok i l h hf -> sorted_lt Dirent.cookie (l ++ [d]) -> dirent_wf d -> h !! Dirent.name d = None ->
  g_sequence_insert_sorted (fun e => bluesky_dirent_compare e d) d l = l ++ [d] /\
  dir_ok (with_dirents i (l ++ [d]) (<[Dirent.name d := d]> h) (<[Dirent.name_folded d := d]> hf))
    (l ++ [d]) (<[Dirent.name d := d]> h) (<[Dirent.name_folded d := d]> hf).
Proof.
  intros D Hs Hd Hn. unfold sorted_lt in Hs. apply StronglySorted_app in Hs as (_ & _ & Hc).
  assert (Hlt : forall x, x ∈ l -> Dirent.cookie x < Dirent.cookie d) by (intros x Hx; apply Hc; [done|by left]).
  assert (E : g_sequence_insert_sorted (fun e => bluesky_dirent_compare e d) d l = l ++ [d]).
  { rewrite <- (app_nil_r l) at 1. apply (insert_sorted_split Dirent.cookie); [|done].
    apply Forall_forall. intros x Hx. specialize (Hlt x Hx). lia. }
  split; [done|]. rewrite <- E at 2. unfold with_dirents. rewrite <- E.
  apply dir_ok_insert; [done|done| |apply Hd|apply Hd].
  split; [apply Hd|]. intros x Hx. specialize (Hlt x Hx). lia.
Qed.

Lemma deserialize_dirents_ok l2 fuel s p i l1 h hf rest :
  inodes s !! p = Some i -> dir_ok i l1 h hf -> sorted_lt Dirent.cookie (l1 ++ l2) ->
  Forall dirent_wf l2 -> NoDup (Dirent.name <$> l1 ++ l2) -> (length l2 < fuel)%nat ->
  wp (deserialize_dirents fuel (Some p) (serialized_dirents l2 ++ rest)) s (fun _ s' =>
    exists h' hf', dir_ok (with_dirents i (l1 ++ l2) h' hf') (l1 ++ l2) h' hf' /\
      s' = set_inode p (with_dirents i (l1 ++ l2) h' hf') s).
Proof.
  revert fuel s i l1 h hf. induction l2 as [|d l2 IH]; intros fuel s i l1 h hf Hp D Hs Hw Hnd Hf;
    (destruct fuel as [|fuel]; [simpl in Hf; lia|]); cbn [deserialize_dirents].
  { change (serialized_dirents []) with (le_bytes 4 0).
    wp_step. eapply wp_read_le; [slice_field|]. simpl. wp_step. rewrite app_nil_r in *.
    exists h, hf. assert (with_dirents i l1 h hf = i) as ->.
    { destruct i, D. simpl in *. by subst. }
    split; [done|]. apply State_ext; try reflexivity. simpl. by rewrite insert_id. }
  apply Forall_cons in Hw as [Hd Hw]. rewrite serialized_dirents_cons, <- !(assoc_L (++)), <- app_comm_cons.
  wp_step. eapply wp_read_le; [slice_field|].
  rewrite le_val_le_bytes4 by (pose proof (dw_cookie d Hd); lia).
  rewrite (proj2 (Z.eqb_neq _ 0)) by (pose proof (dw_cookie d Hd); lia).
  wp_step. eapply wp_read_le; [slice_field|]. rewrite le_val_le_bytes8 by apply Hd.
  wp_step. wp_step.
  { rewrite (assoc_L (++)), drop_app_length' by (by rewrite length_app, !length_le_bytes).
    apply c_string_app, Hd. }
  cbv beta iota zeta. simpl fst. simpl snd. wp_step. eapply wp_load; [done|].
  unfold dir_entries, dir_hash, dir_hash_folded.
  rewrite (do_dirents _ _ _ _ D), (do_dirhash _ _ _ _ D), (do_folded _ _ _ _ D).
  wp_step. wp_step; [done|]. wp_step. wp_step; [done|]. wp_step. wp_step; [done|].
  replace (Dirent.mk _ _ _ _) with d by (destruct d, Hd; simpl in *; by f_equal).
  assert (Hn : h !! Dirent.name d = None).
  { apply eq_None_not_Some. intros [x Hx]. apply (do_hash _ _ _ _ D) in Hx as [Hx E].
    rewrite fmap_app, fmap_cons, NoDup_app in Hnd. destruct Hnd as (_ & Hnd & _).
    apply (Hnd (Dirent.name d)); [rewrite <- E; by apply list_elem_of_fmap_2|by left]. }
  assert (Hs1 : sorted_lt Dirent.cookie (l1 ++ [d])).
  { unfold sorted_lt in *. rewrite cons_middle, (assoc_L (++)) in Hs.
    by apply StronglySorted_app in Hs as (? & _). }
  destruct (dirents_insert_last i l1 h hf d D Hs1 Hd Hn) as [-> D1].
  wp_step. eapply wp_upd; [done|].
  rewrite (cons_middle d l1 l2), (assoc_L (++)) in *.
  eapply wp_mono; [eapply (IH fuel _ _ (l1 ++ [d])); [apply lookup_insert_eq|exact D1|done..|simpl in Hf; lia]|].
  intros ? s' (h' & hf' & D' & ->). exists h', hf'. split; [done|].
  apply State_ext; try reflexivity. simpl. by rewrite insert_insert_eq.
Qed.
End dirents.

(** ** Sharing items *)

(** [l'] is [l] with more references to it. *)
Definition gained (l l' : CloudLog.t) : Prop :=
  CloudLog.refcount l <= CloudLog.refcount l' /\
  (0 < CloudLog.refcount l' -> 0 < CloudLog.refcount l) /\
  l' = l <| CloudLog.refcount := CloudLog.refcount l' |>.

#[export] Instance gained_preorder : PreOrder gained.
Proof.
  split.
  - intros l. split_and!; [lia|done|]. apply CloudLog_set_refcount_id.
  - intros l1 l2 l3 (H1 & P1 & E1) (H2 & P2 & E2). split_and!; [lia|auto|]. rewrite E2 at 1. by rewrite E1.
Qed.

(** Only the items change, and all but [x] only gain references. *)
Definition shares (x : ptr) (s s' : State) : Prop :=
  s' = s <| cloudlogs := cloudlogs s' |> /\
  forall r, r <> x -> option_Forall2 gained (cloudlogs s !! r) (cloudlogs s' !! r).

#[export] Instance shares_preorder x : PreOrder (shares x).
Proof.
  split.
  - intros s. split; [by destruct s|]. intros r _. by destruct (cloudlogs s !! r); constructor.
  - intros s1 s2 s3 [E1 H1] [E2 H2]. split; [rewrite E2, E1 at 1; done|]. intros r Hr.
    specialize (H1 r Hr). specialize (H2 r Hr). by etransitivity.
Qed.

(** A link that may be copied: the item is there and has at least the references
    that are known. *)
Definition link_ok (xl : ptr -> Z) (s : State) (o : option ptr) : Prop :=
  match o with
  | None => True
  | Some q => exists l, cloudlogs s !! q = Some l /\ 0 < CloudLog.refcount l /\
                log_owners s q + xl q <= CloudLog.refcount l
  end.

Lemma link_ok_owned xs xl s o :
  heap_ok xs xl s -> xnn xl -> (forall q, o = Some q -> 1 <= log_owners s q) -> link_ok xl s o.
Proof.
  intros Hok Hx Ho. destruct o as [q|]; [|done]. specialize (Ho q eq_refl). specialize (Hx q).
  destruct (ho_logs _ _ _ Hok q) as (l & Hl & Hle); [lia|]. exists l. split_and!; [done|lia|lia].
Qed.

(** The links of an item in use. *)
Lemma log_link_owned s p l q :
  cloudlogs s !! p = Some l -> dead l = false -> Some q ∈ CloudLog.links l -> 1 <= log_owners s q.
Proof.
  intros Hp Hd Hq. pose proof (msum_elem (log_logs q) (cloudlogs s) p l (log_logs_nonneg q) Hp) as Hm.
  pose proof (lsum_elem (points q) (CloudLog.links l) (Some q) (points_nonneg q) Hq) as Hl.
  rewrite points_self in Hl. unfold log_logs at 1 in Hm. rewrite Hd in Hm.
  pose proof (msum_nonneg _ (inodes s) (inode_logs_nonneg q)).
  pose proof (msum_nonneg _ (records s) (fun x => ptrs_nonneg q (SerializedRecord.items x))).
  pose proof (lsum_nonneg _ (FS.inode_map (fs s)) (range_logs_nonneg q)).
  pose proof (ptrs_nonneg q (FS.unref_queue (fs s))).
  pose proof (ptrs_nonneg q (Log.queue (log s))).
  pose proof (ptrs_nonneg q (Log.committed (log s))).
  pose proof (ptrs_nonneg q (CloudLogState.writeback_list (log_state s))).
  unfold log_owners, queue_logs, record_logs in *. lia.
Qed.

Section share.
Context `{Env}.

Lemma cloudlog_ref_shares xs xl s x o :
  heap_ok xs xl s -> link_ok xl s o ->
  wp (bluesky_cloudlog_ref o) s (fun _ s' =>
    heap_ok xs (xadd xl o) s' /\ shares x s s' /\
    option_Forall2 gained (cloudlogs s !! x) (cloudlogs s' !! x)).
Proof.
  intros Hok Ho. destruct o as [q|].
  - destruct Ho as (l & Hl & Hpos & Hle).
    eapply wp_mono; [by eapply bluesky_cloudlog_ref_ok|].
    intros ? s' (Hok' & _ & ->). split; [done|].
    assert (Hg : forall r, option_Forall2 gained (cloudlogs s !! r)
        (cloudlogs (set_log q (l <| CloudLog.refcount := 1 + CloudLog.refcount l |>) s) !! r)).
    { intros r. simpl. destruct (decide (r = q)) as [->|Hne].
      - rewrite lookup_insert_eq, Hl. constructor. split_and!; [simpl; lia|done|done].
      - rewrite lookup_insert_ne by done. by destruct (cloudlogs s !! r); constructor. }
    split; [|done]. split; [by destruct s|]. intros r _. apply Hg.
  - apply wp_ret. split_and!; [by rewrite xadd_None|reflexivity|].
    by destruct (cloudlogs s !! x); constructor.
Qed.

(** Appending a copied link to item [x], which running code holds. *)
Lemma link_append_ok xs xl s x l o :
  heap_ok xs xl s -> xnn xl -> 0 < xl x -> cloudlogs s !! x = Some l -> link_ok xl s o ->
  wp (bluesky_cloudlog_ref o;;
      upd cloudlogs (Some x) (fun l => l <| CloudLog.links ::= fun k => k ++ [o] |>)) s (fun _ s' =>
    heap_ok xs xl s' /\ shares x s s' /\ exists l', gained l l' /\
      cloudlogs s' !! x = Some (l' <| CloudLog.links := CloudLog.links l ++ [o] |>)).
Proof.
  intros Hok Hxl Hx Hl Ho. wp_step. eapply wp_mono; [by apply (cloudlog_ref_shares xs xl s x)|].
  intros ? s1 (Hok1 & Hsh & Hg). rewrite Hl in Hg. inversion Hg as [? l1 Hg1|]; subst.
  destruct Hg1 as (Hn & Hp1 & E1). symmetry in H1. eapply wp_upd; [done|].
  assert (Hr : log_owners s1 x + xadd xl o x <= CloudLog.refcount l1 /\ 0 < CloudLog.refcount l1).
  { pose proof (log_owners_nonneg s1 x). pose proof (points_nonneg x o).
    destruct (ho_logs _ _ _ Hok1 x) as (l2 & Hl2 & Hle); unfold xadd in *; [lia|].
    simplify_eq. lia. }
  assert (Hd : dead l1 = false) by (eapply (ho_alive _ _ _ Hok1); [done|lia]).
  split_and!.
  - eapply (heap_ok_set_log _ _ xs xl _ x l1 _ Hok1); [done|done|done| | |].
    + intros q. unfold log_strs. change (dead (setf CloudLog.links _ l1)) with (dead l1).
      rewrite Hd. simpl. lia.
    + intros r _. unfold log_logs, xadd. change (dead (setf CloudLog.links _ l1)) with (dead l1).
      rewrite Hd. simpl. rewrite lsum_app. simpl. lia.
    + unfold log_logs, xadd in *. change (dead (setf CloudLog.links _ l1)) with (dead l1).
      rewrite Hd. simpl. rewrite lsum_app. simpl. lia.
  - etransitivity; [done|]. split; [by destruct s1|]. intros r Hne. simpl.
    rewrite lookup_insert_ne by done. by destruct (cloudlogs s1 !! r); constructor.
  - exists l1. split; [by split_and!|]. simpl. rewrite lookup_insert_eq. by rewrite E1.
Qed.

(** The loop over the blocks of a file. *)
Lemma link_blocks_ok bs xs xl s (x : ptr) l (p : ptr) i bl :
  heap_ok xs xl s -> xnn xl -> 0 < xl x -> cloudlogs s !! x = Some l ->
  inodes s !! p = Some i -> Inode.blocks i = Some bl -> (forall b, b ∈ bs -> b ∈ bl) ->
  wp (for_each bs (fun b =>
        bluesky_cloudlog_ref (block_link b);;
        upd cloudlogs (Some x) (fun l => l <| CloudLog.links ::= fun k => k ++ [block_link b] |>)))
    s (fun _ s' =>
    heap_ok xs xl s' /\ shares x s s' /\ exists l', gained l l' /\
      cloudlogs s' !! x = Some (l' <| CloudLog.links := (CloudLog.links l ++ (block_link <$> bs)) |>)).
Proof.
  intros Hok Hxl Hx Hl Hp Hbl Hin. revert s l Hok Hl Hp.
  induction bs as [|b bs IH]; intros s l Hok Hl Hp; simpl for_each.
  { wp_step. split_and!; [done|reflexivity|]. exists l. split; [reflexivity|].
    rewrite app_nil_r. rewrite Hl. by destruct l. }
  assert (Hb : link_ok xl s (block_link b)).
  { apply (link_ok_owned xs); [done|done|]. intros q Hq. unfold block_link in Hq.
    destruct (is_ref b); [|done]. destruct (list_elem_of_lookup_1 _ _ (Hin b ltac:(by left))) as [k Hk].
    by eapply block_ref_owned. }
  wp_step. eapply wp_mono; [by apply (link_append_ok xs xl s x l)|].
  intros ? s1 (Hok1 & Hsh1 & l1 & Hg1 & Hl1).
  eapply wp_mono; [apply (IH ltac:(intros c Hc; apply Hin; by right) s1 _ Hok1 Hl1)|].
  { destruct Hsh1 as [-> _]. done. }
  intros ? s2 (Hok2 & Hsh2 & l2 & (Hn2 & Hp2 & E2) & Hl2). split_and!; [done|by etransitivity|].
  exists (l2 <| CloudLog.links := CloudLog.links l |>). split.
  - destruct Hg1 as (Hn1 & Hp1 & E1). simpl in *. split_and!; simpl; [lia|auto|].
    rewrite E2, E1. by destruct l.
  - rewrite Hl2. simpl. by rewrite <- (assoc_L (++)).
Qed.
End share.

(** Contents are kept when items gain references and new objects appear. *)
Lemma keeps_gained `{Storage} s s' :
  items_valid s ->
  (forall q, Pos.lt q (next_ptr s) -> strs s' !! q = strs s !! q) ->
  (forall r, Pos.lt r (next_ptr s) -> option_Forall2 gained (cloudlogs s !! r) (cloudlogs s' !! r)) ->
  cachefiles s' = cachefiles s -> disk s' = disk s -> cloud s' = cloud s ->
  Pos.le (next_ptr s) (next_ptr s') -> keeps s s'.
Proof.
  intros Hv Hs Hl Ec Ed Ecl Hn.
  assert (Hb : forall str, str_bytes s' str = str_bytes s str)
    by (intros; unfold str_bytes; by rewrite Ec, Ed).
  split; [| |done].
  - intros q str Hq Hlt. rewrite Hs in Hq by done. eauto 10.
  - intros r l' Hr Hpos Hlt. specialize (Hl r Hlt). rewrite Hr in Hl.
    inversion Hl as [l ? (Hle & Hp & E) Hr0|]; subst. exists l. split_and!; [done|auto|].
    intros b. unfold item_bytes. assert (CloudLog.data l' = CloudLog.data l) as -> by (by rewrite E).
    destruct (CloudLog.data l) as [q|] eqn:Eq.
    + rewrite Hs by (by eapply Hv; eauto). destruct (strs s !! q); simpl; by rewrite ?Hb.
    + by rewrite E, stored_refcount, Ed, Ecl.
Qed.

(** Changing fields of an item that own nothing. *)
Lemma heap_ok_set_fields xs xl s x l l' :
  heap_ok xs xl s -> cloudlogs s !! x = Some l -> 0 < CloudLog.refcount l ->
  CloudLog.id l' = CloudLog.id l -> CloudLog.refcount l' = CloudLog.refcount l ->
  CloudLog.links l' = CloudLog.links l -> CloudLog.data l' = CloudLog.data l ->
  dead l' = false -> heap_ok xs xl (set_log x l' s).
Proof.
  intros Hok Hl Hpos Ei Er El Ed Hd. pose proof (ho_alive _ _ _ Hok _ _ Hl Hpos) as Ha.
  eapply heap_ok_set_log; [done|done|done|done| | |]; unfold log_strs, log_logs; rewrite ?Hd, ?Ha, ?Ed, ?El, ?Er.
  - lia.
  - lia.
  - destruct (Z.le_gt_cases (log_owners s x + xl x) 0); [lia|].
    destruct (ho_logs _ _ _ Hok x) as (l0 & Hl0 & ?); [lia|]. simplify_eq. lia.
Qed.

(** ** Writing an inode *)

(** What follows the attributes, and the links, of the serialized inode. *)
Definition inode_rest (i : Inode.t) : bytes :=
  if Inode.type i =? BLUESKY_REGULAR then le_bytes 8 (Inode.size i)
  else if Inode.type i =? BLUESKY_DIRECTORY then serialized_dirents (default [] (Inode.dirents i))
  else if Inode.type i =? BLUESKY_SYMLINK then default [] (Inode.symlink_contents i) ++ [0]
  else [].
Definition inode_links (i : Inode.t) : list (option ptr) :=
  if Inode.type i =? BLUESKY_REGULAR then block_link <$> blocks_of i else [].

(** The fields its type requires are there. *)
Definition has_body (i : Inode.t) : Prop :=
  (Inode.type i = BLUESKY_REGULAR -> is_Some (Inode.blocks i)) /\
  (Inode.type i = BLUESKY_DIRECTORY -> is_Some (Inode.dirents i)) /\
  (Inode.type i = BLUESKY_SYMLINK -> is_Some (Inode.symlink_contents i)).

(** The state after item [x] got its data and entered the table of items. *)
Definition published (x : ptr) (l : CloudLog.t) (buf : bytes) (s : State) : State :=
  let l' := l <| CloudLog.data := Some (next_ptr s) |> in
  (set_log x l' (alloc_str (RCStr.mk 1 None (RCStr.Owned buf) (zlen buf)) s))
    <| fs := stats_add 1 (stats_counter l') ((fs s) <| FS.locations ::= <[CloudLog.id l := x]> |>) |>.

Lemma published_locations x l buf s :
  FS.locations (fs (published x l buf s)) = <[CloudLog.id l := x]> (FS.locations (fs s)).
Proof. unfold published. simpl. by destruct (stats_counter _) as [[]|]. Qed.

Section write.
Context `{GSequenceLib} `{Env}.

Lemma publish_ok xl s x l buf :
  heap_ok nox xl s -> xnn xl -> 0 < xl x -> cloudlogs s !! x = Some l -> CloudLog.data l = None ->
  wp (data ← bluesky_string_new_from_gstring buf;
      upd cloudlogs (Some x) (fun l => l <| CloudLog.data := Some data |>);;
      bluesky_cloudlog_insert (Some x);;
      bluesky_cloudlog_stats_update (Some x) 1;;
      mret x) s (fun r s' => r = x /\ s' = published x l buf s /\ heap_ok nox xl s').
Proof.
  intros Hok Hxl Hx Hl Hdata.
  assert (Hr : 0 < CloudLog.refcount l /\ log_owners s x + xl x <= CloudLog.refcount l).
  { pose proof (log_owners_nonneg s x).
    destruct (ho_logs _ _ _ Hok x) as (l2 & Hl2 & Hle); [lia|]. simplify_eq. lia. }
  assert (Hd : dead l = false) by (eapply (ho_alive _ _ _ Hok); [done|lia]).
  unfold bluesky_string_new_from_gstring, bluesky_cloudlog_insert, bluesky_cloudlog_insert_locked.
  wp_step. eapply wp_mono; [by apply bluesky_string_new_ok|].
  intros ? ? (-> & -> & Hok1). set (q := next_ptr s) in *. set (l' := l <| CloudLog.data := Some q |>).
  set (s1 := alloc_str _ s) in *. wp_step. eapply wp_upd; [done|].
  change (setf cloudlogs (<[x := l <| CloudLog.data := Some q |>]>) s1) with (set_log x l' s1).
  assert (Hok2 : heap_ok nox xl (set_log x l' s1)).
  { eapply (heap_ok_set_log _ _ _ _ _ x l _ Hok1); [done|done|by intros _| | |].
    - intros r. unfold log_strs, xadd. change (dead l') with (dead l). rewrite Hd, Hdata.
      simpl. rewrite points_None. lia.
    - intros r _. unfold log_logs. change (dead l') with (dead l). rewrite Hd. simpl. lia.
    - unfold log_logs. change (dead l') with (dead l). rewrite Hd. simpl.
      change (log_owners s1 x) with (log_owners s x). lia. }
  wp_step. wp_step. eapply wp_load; [apply lookup_insert_eq|]. wp_step. wp_step; [done|]. wp_step.
  set (s3 := setf fs _ _).
  assert (Hok3 : heap_ok nox xl s3).
  { apply (heap_ok_fs nox xl (set_log x l' s1)
      ((fs s) <| FS.locations ::= <[CloudLog.id l := x]> |>)); [done|done|done|].
    intros id r. simpl. destruct (decide (id = CloudLog.id l)) as [->|Hne].
    - rewrite lookup_insert_eq. intros [= <-]. exists l'. by rewrite lookup_insert_eq.
    - rewrite lookup_insert_ne by done. intros Hid.
      apply (ho_loc _ _ _ Hok2 id r Hid). }
  wp_step. eapply wp_mono; [apply (stats_update_ok nox xl s3 x l' 1 Hok3); apply lookup_insert_eq|].
  intros ? s4 (Hok4 & ->). wp_step. split_and!; [done| |done].
  apply State_ext; reflexivity.
Qed.

(** The part of the code that depends on the type. *)
Lemma serialize_body_ok xl s x l p i (k : bytes -> M State ptr) Q :
  heap_ok nox xl s -> xnn xl -> 0 < xl x -> cloudlogs s !! x = Some l -> CloudLog.links l = [] ->
  inodes s !! p = Some i -> has_body i ->
  (forall s' l', heap_ok nox xl s' -> shares x s s' -> gained l l' ->
     cloudlogs s' !! x = Some (l' <| CloudLog.links := inode_links i |>) ->
     wp (k (inode_rest i)) s' Q) ->
  wp (rest ← (if Inode.type i =? BLUESKY_REGULAR then
       blocks ← get_blocks (Some p);
       for_each blocks (fun b =>
         bluesky_cloudlog_ref (block_link b);;
         upd cloudlogs (Some x) (fun l =>
           l <| CloudLog.links ::= fun k => k ++ [block_link b] |>));;
       mret (le_bytes 8 (Inode.size i))
     else if Inode.type i =? BLUESKY_DIRECTORY then
       dirents ← dir_entries i;
       mret (serialized_dirents dirents)
     else if Inode.type i =? BLUESKY_SYMLINK then
       c ← assume NullPointer (Inode.symlink_contents i);
       mret (c ++ [0])
     else mret []); k rest) s Q.
Proof.
  intros Hok Hxl Hx Hl Hlinks Hp (Hb & Hd & Hy) HQ. wp_step.
  assert (Hsame : CloudLog.links l = inode_links i -> wp (k (inode_rest i)) s Q).
  { intros E. apply (HQ s l); [done|reflexivity|reflexivity|]. rewrite <- E, Hl. by destruct l. }
  unfold inode_rest, inode_links in *.
  destruct (Z.eqb_spec (Inode.type i) BLUESKY_REGULAR) as [E|_].
  - destruct (Hb E) as [bl Hbl]. wp_step. eapply wp_get_blocks; [done..|].
    wp_step. eapply wp_mono; [by apply (link_blocks_ok bl nox xl s x l p i bl)|].
    intros ? s' (Hok' & Hsh & l' & Hg & Hl'). wp_step. apply (HQ s' l'); [done..|].
    unfold blocks_of. rewrite Hbl, Hl', Hlinks. done.
  - destruct (Z.eqb_spec (Inode.type i) BLUESKY_DIRECTORY) as [E|_].
    { destruct (Hd E) as [dl Hdl]. wp_step. unfold dir_entries. rewrite Hdl in *.
      wp_step; [done|]. wp_step. auto. }
    destruct (Z.eqb_spec (Inode.type i) BLUESKY_SYMLINK) as [E|_]; [|wp_step; auto].
    destruct (Hy E) as [c Hc]. rewrite Hc in *. wp_step. wp_step; [done|]. wp_step. auto.
Qed.

(** The item [x] is the serialized form of [i]. *)
Definition inode_item (s : State) (x : ptr) (i : Inode.t) : Prop :=
  exists l q, cloudlogs s !! x = Some l /\ 0 < CloudLog.refcount l /\
    CloudLog.type l = LOGTYPE_INODE /\ CloudLog.inum l = Inode.inum i /\
    CloudLog.links l = inode_links i /\ CloudLog.data l = Some q /\
    strs s !! q = Some (RCStr.mk 1 None (RCStr.Owned (serialized_inode i ++ inode_rest i))
                          (zlen (serialized_inode i ++ inode_rest i))) /\
    FS.locations (fs s) !! CloudLog.id l = Some x.

Lemma serialize_inode_ok `{!Storage} xl s p i :
  heap_ok nox xl s -> xnn xl -> inodes s !! p = Some i -> has_body i ->
  wp (bluesky_serialize_inode (Some p)) s (fun x s' =>
    x = next_ptr s /\ heap_ok nox (xadd xl (Some x)) s' /\ inode_item s' x i /\
    inodes s' = inodes s /\ keeps s s').
Proof.
  intros Hok Hxl Hp Hb. unfold bluesky_serialize_inode. wp_step. eapply wp_load; [done|].
  wp_step. eapply wp_mono; [by apply bluesky_cloudlog_new_ok|].
  intros ? ? (-> & id & -> & Hok1). set (x := next_ptr s) in *. set (s1 := alloc_log _ _) in *.
  assert (Hl1 : cloudlogs s1 !! x = Some (new_log id)) by (simpl; apply lookup_insert_eq).
  wp_step. eapply wp_upd; [exact Hl1|].
  set (l2 := (new_log id) <| CloudLog.type := LOGTYPE_INODE |> <| CloudLog.inum := Inode.inum i |>).
  change (setf cloudlogs (<[x := _]>) s1) with (set_log x l2 s1).
  assert (Hok2 : heap_ok nox (xadd xl (Some x)) (set_log x l2 s1))
    by (by eapply heap_ok_set_fields).
  eapply (serialize_body_ok _ _ x l2 p i); try done.
  { auto with bluesky. }
  { unfold xadd. rewrite points_self. specialize (Hxl x). lia. }
  { apply lookup_insert_eq. }
  intros s3 l3 Hok3 [E3 Hsh] (Hn & Hpos & El3) Hl3.
  eapply wp_mono; [apply (publish_ok (xadd xl (Some x)) s3 x (l3 <| CloudLog.links := inode_links i |>)); try done|].
  { auto with bluesky. }
  { unfold xadd. rewrite points_self. specialize (Hxl x). lia. }
  { rewrite El3. done. }
  intros ? s4 (-> & -> & Hok4). split_and!; [done|done| | |].
  - exists ((l3 <| CloudLog.links := inode_links i |>) <| CloudLog.data := Some (next_ptr s3) |>), (next_ptr s3).
    split_and!; try (rewrite El3; simpl; done).
    + simpl. apply lookup_insert_eq.
    + simpl in Hn |- *. lia.
    + simpl. apply lookup_insert_eq.
    + rewrite published_locations. apply lookup_insert_eq.
  - simpl. by rewrite E3.
  - assert (next_ptr s3 = Pos.succ x) as En by (by rewrite E3).
    apply keeps_gained; try (simpl; rewrite E3; done).
    + by eapply heap_ok_items_valid.
    + intros q Hq. simpl. rewrite En. rewrite lookup_insert_ne by lia. by rewrite E3.
    + intros r Hr. simpl. rewrite lookup_insert_ne by (unfold x; lia).
      specialize (Hsh r ltac:(unfold x; lia)). simpl in Hsh.
      by rewrite !lookup_insert_ne in Hsh by (unfold x; lia).
    + simpl. rewrite En. unfold x. lia.
Qed.
End write.

(** ** Reading an inode *)

Definition ref_block (o : option ptr) : Block.t := Block.mk Block.REF o None.

(** Inode [q] becomes [j]; items at most gain references. *)
Definition restores (q : ptr) (j : Inode.t) (s s' : State) : Prop :=
  s' = s <| cloudlogs := cloudlogs s' |> <| inodes := <[q := j]> (inodes s) |> /\
  forall r, option_Forall2 gained (cloudlogs s !! r) (cloudlogs s' !! r).

Lemma restores_trans q j1 j2 s1 s2 s3 :
  restores q j1 s1 s2 -> restores q j2 s2 s3 -> restores q j2 s1 s3.
Proof.
  intros [E1 H1] [E2 H2]. split.
  - rewrite E2. rewrite E1 at 1. apply State_ext; try reflexivity. simpl.
    rewrite E1. simpl. by rewrite insert_insert_eq.
  - intros r. etransitivity; [apply H1|apply H2].
Qed.

Lemma restores_set q j s : restores q j s (set_inode q j s).
Proof.
  split; [by destruct s|]. intros r. simpl. by destruct (cloudlogs s !! r); constructor.
Qed.

Lemma lsum_zero_blocks (f : Block.t -> Z) n : f Block.zero = 0 -> lsum f (replicate n Block.zero) = 0.
Proof. intros Hf. induction n as [|n IH]; [done|]. simpl. rewrite Hf. exact IH. Qed.

Section read.
Context `{GSequenceLib} `{Env}.

(** One block: the inode records the link and takes a reference. *)
Lemma restore_block_ok xl s q j bl k b o :
  heap_ok nox xl s -> link_ok xl s o -> inodes s !! q = Some j -> Inode.blocks j = Some bl ->
  bl !! Z.to_nat k = Some b -> Block.ref b = None -> Block.dirty b = None ->
  wp (set_block (Some q) k (fun _ => Block.mk Block.REF o None);; bluesky_cloudlog_ref o) s
    (fun _ s' => heap_ok nox xl s' /\
       restores q (j <| Inode.blocks := Some (<[Z.to_nat k := ref_block o]> bl) |>) s s').
Proof.
  intros Hok Ho Hq Hbl Hk Hr Hd. wp_step. eapply wp_set_block; [done..|].
  set (j' := j <| Inode.blocks := _ |>).
  assert (Hok1 : heap_ok nox (fun r => xl r - points r o) (set_inode q j' s)).
  { eapply (heap_ok_set_inode nox xl); [done|done| |].
    - intros r. unfold j'. change (j <| Inode.blocks := _ |>) with (with_block j bl (Z.to_nat k) (ref_block o)).
      rewrite (inode_strs_with_block j bl _ b) by done. rewrite Hd. simpl. lia.
    - intros r. unfold j'. change (j <| Inode.blocks := _ |>) with (with_block j bl (Z.to_nat k) (ref_block o)).
      rewrite (inode_logs_with_block j bl _ b) by done. rewrite Hr, points_None. simpl. lia. }
  assert (Ho1 : link_ok (fun r => xl r - points r o) (set_inode q j' s) o).
  { destruct o as [r|]; [|done]. destruct Ho as (l & Hl & Hpos & Hle). exists l.
    split_and!; [done|done|]. rewrite points_self.
    enough (log_owners (set_inode q j' s) r = log_owners s r + 1) by lia.
    unfold log_owners, queue_logs. simpl. rewrite (msum_insert _ _ _ _ _ Hq).
    unfold j'. change (j <| Inode.blocks := _ |>) with (with_block j bl (Z.to_nat k) (ref_block (Some r))).
    rewrite (inode_logs_with_block j bl _ b) by done. rewrite Hr, points_None. simpl.
    rewrite points_self. lia. }
  eapply wp_mono; [exact (cloudlog_ref_shares _ _ _ q _ Hok1 Ho1)|].
  intros ? s' (Hok' & [E Hsh] & Hg). split.
  - enough (xeq (xadd (fun r => xl r - points r o) o) xl) as <- by done.
    intros r. unfold xadd. lia.
  - split; [rewrite E; by destruct s|]. intros r.
    destruct (decide (r = q)) as [->|Hne]; [done|by apply Hsh].
Qed.

(** The loop over the links of item [x]. *)
Lemma restore_blocks_ok L2 xl s x l q j L1 :
  heap_ok nox xl s -> xnn xl -> cloudlogs s !! x = Some l -> 0 < CloudLog.refcount l ->
  (forall o, o ∈ L2 -> o ∈ CloudLog.links l) -> inodes s !! q = Some j ->
  Inode.blocks j = Some ((ref_block <$> L1) ++ replicate (length L2) Block.zero) ->
  wp (for_each (zip (seqZ (zlen L1) (zlen L2)) L2) (fun kl =>
        set_block (Some q) kl.1 (fun _ => Block.mk Block.REF kl.2 None);;
        bluesky_cloudlog_ref kl.2)) s (fun _ s' => heap_ok nox xl s' /\
    restores q (j <| Inode.blocks := Some (ref_block <$> L1 ++ L2) |>) s s').
Proof.
  revert s l j L1. induction L2 as [|o L2 IH]; intros s l j L1 Hok Hxl Hl Hpos Hin Hq Hbl.
  { simpl. wp_step. split; [done|]. rewrite app_nil_r in Hbl |- *.
    assert (j <| Inode.blocks := Some (ref_block <$> L1) |> = j) as ->
      by (destruct j; simpl in *; by subst).
    pose proof (restores_set q j s) as Hr. unfold set_inode in Hr.
    replace (s <| inodes ::= <[q := j]> |>) with s in Hr; [done|].
    apply State_ext; try reflexivity. simpl. by rewrite insert_id. }
  rewrite seqZ_cons by (simpl; lia). simpl zip. simpl for_each. wp_step.
  eapply wp_mono; [eapply (restore_block_ok xl s q j _ (zlen L1) Block.zero o Hok); [|exact Hq|exact Hbl| |done|done]|].
  { apply (link_ok_owned nox); [done|done|]. intros r ->.
    eapply log_link_owned; [done|by eapply (ho_alive _ _ _ Hok)|]. apply Hin. by left. }
  { rewrite Nat2Z.id, lookup_app_r by (by rewrite length_fmap).
    rewrite length_fmap, Nat.sub_diag. done. }
  intros ? s1 (Hok1 & Hs1). pose proof Hs1 as [E1 Hg1].
  specialize (Hg1 x) as Hgx. rewrite Hl in Hgx. inversion Hgx as [? l1 (Hn & _ & El1) Hl1|]; subst.
  set (j1 := j <| Inode.blocks := _ |>) in *.
  replace (Z.pred (Z.of_nat (S (length L2)))) with (zlen L2) by lia.
  replace (Z.succ (zlen L1)) with (zlen (L1 ++ [o])) by (rewrite length_app; simpl; lia).
  assert (Hbl1 : Inode.blocks j1 = Some ((ref_block <$> L1 ++ [o]) ++ replicate (length L2) Block.zero)).
  { unfold j1. simpl. f_equal. rewrite Nat2Z.id.
    rewrite <- (Nat.add_0_r (length L1)), <- (length_fmap ref_block L1), insert_app_r.
    simpl. by rewrite fmap_app, <- (assoc_L (++)). }
  eapply wp_mono; [apply (IH s1 l1 j1 (L1 ++ [o])); try done|].
  { lia. }
  { intros o' Ho'. rewrite El1. apply Hin. by right. }
  { rewrite E1. simpl. apply lookup_insert_eq. }
  intros ? s2 (Hok2 & Hs2). split; [done|]. rewrite <- (assoc_L (++)) in Hs2.
  eapply restores_trans; [done|]. exact Hs2.
Qed.

(** The inode with the attributes of [i]. *)
Definition restore_attrs (i j : Inode.t) : Inode.t :=
  j <| Inode.type := Inode.type i |> <| Inode.mode := Inode.mode i |> <| Inode.uid := Inode.uid i |>
    <| Inode.gid := Inode.gid i |> <| Inode.nlink := Inode.nlink i |>
    <| Inode.change_count := Inode.change_count i |> <| Inode.change_commit := Inode.change_count i |>
    <| Inode.atime := Inode.atime i |> <| Inode.ctime := Inode.ctime i |>
    <| Inode.mtime := Inode.mtime i |> <| Inode.ntime := Inode.ntime i |>.

Lemma restore_attrs_refs i j :
  Inode.blocks (restore_attrs i j) = Inode.blocks j /\
  Inode.committed_item (restore_attrs i j) = Inode.committed_item j.
Proof. by destruct j. Qed.

(** [j'] is [j] with the attributes and the contents of [i]. *)
Definition restored (i j j' : Inode.t) : Prop :=
  (Inode.type i = BLUESKY_REGULAR /\
     j' = (restore_attrs i j) <| Inode.size := Inode.size i |>
            <| Inode.blocks := Some (ref_block <$> (block_link <$> blocks_of i)) |>) \/
  (Inode.type i = BLUESKY_DIRECTORY /\ exists l h hf, Inode.dirents i = Some l /\
     Inode.dirhash i = Some h /\ j' = with_dirents (restore_attrs i j) l h hf /\ dir_ok j' l h hf) \/
  (Inode.type i = BLUESKY_SYMLINK /\
     j' = (restore_attrs i j) <| Inode.symlink_contents := Inode.symlink_contents i |>) \/
  (Inode.type i <> BLUESKY_REGULAR /\ Inode.type i <> BLUESKY_DIRECTORY /\
   Inode.type i <> BLUESKY_SYMLINK /\ j' = restore_attrs i j).

(** An inode that has a serialized form. *)
Record inode_wf (i : Inode.t) : Prop := {
  iw_type : 0 <= Inode.type i < 2 ^ 31;
  iw_mode : 0 <= Inode.mode i < 2 ^ 32;
  iw_uid : 0 <= Inode.uid i < 2 ^ 32;
  iw_gid : 0 <= Inode.gid i < 2 ^ 32;
  iw_nlink : 0 <= Inode.nlink i < 2 ^ 32;
  iw_inum : 0 <= Inode.inum i < 2 ^ 64;
  iw_change : 0 <= Inode.change_count i < 2 ^ 64;
  iw_atime : - 2 ^ 63 <= Inode.atime i < 2 ^ 63;
  iw_ctime : - 2 ^ 63 <= Inode.ctime i < 2 ^ 63;
  iw_mtime : - 2 ^ 63 <= Inode.mtime i < 2 ^ 63;
  iw_ntime : - 2 ^ 63 <= Inode.ntime i < 2 ^ 63;
  iw_file : Inode.type i = BLUESKY_REGULAR ->
    0 <= Inode.size i <= BLUESKY_MAX_FILE_SIZE /\
    exists bl, Inode.blocks i = Some bl /\ zlen bl = nblocks (Inode.size i);
  iw_dir : Inode.type i = BLUESKY_DIRECTORY ->
    exists l h hf, dir_ok i l h hf /\ Forall dirent_wf l;
  iw_link : Inode.type i = BLUESKY_SYMLINK ->
    exists c, Inode.symlink_contents i = Some c /\ no_nul c;
}.

Lemma inode_wf_body i : inode_wf i -> has_body i.
Proof.
  intros W. split_and!.
  - intros E. destruct (iw_file _ W E) as (_ & bl & Hbl & _). eauto.
  - intros E. destruct (iw_dir _ W E) as (l & h & hf & D & _). rewrite (do_dirents _ _ _ _ D). eauto.
  - intros E. destruct (iw_link _ W E) as (c & Hc & _). eauto.
Qed.

(** Reading back what follows the attributes of a file. *)
Lemma deserialize_file_ok xl s x l q j i :
  heap_ok nox xl s -> xnn xl -> cloudlogs s !! x = Some l -> 0 < CloudLog.refcount l ->
  CloudLog.links l = inode_links i -> inode_wf i -> Inode.type i = BLUESKY_REGULAR ->
  inodes s !! q = Some j -> Inode.blocks j = Some [] ->
  wp (size ← read_le (inode_rest i) 0 8;
      let n := u32 (u64 (size + BLUESKY_BLOCK_SIZE - 1) / BLUESKY_BLOCK_SIZE) in
      upd inodes (Some q) (fun i => i <| Inode.size := size |>
        <| Inode.blocks ::= fmap (fun l => g_array_set_size l n) |>);;
      check Assertion (n =? zlen (CloudLog.links l));;
      for_each (zip (seqZ 0 n) (CloudLog.links l)) (fun kl =>
        set_block (Some q) kl.1 (fun _ => Block.mk Block.REF kl.2 None);;
        bluesky_cloudlog_ref kl.2)) s (fun _ s' => heap_ok nox xl s' /\
    restores q (j <| Inode.size := Inode.size i |>
                  <| Inode.blocks := Some (ref_block <$> (block_link <$> blocks_of i)) |>) s s').
Proof.
  intros Hok Hxl Hl Hpos Hlinks W Ht Hq Hbl. destruct (iw_file _ W Ht) as (Hsz & bl & Hb & Hn).
  unfold BLUESKY_MAX_FILE_SIZE, BLUESKY_BLOCK_SIZE in Hsz.
  unfold inode_rest, inode_links in *. rewrite (proj2 (Z.eqb_eq _ _) Ht) in *.
  wp_step. eapply wp_read_le; [rewrite <- (app_nil_r (le_bytes 8 _)); slice_field|].
  rewrite le_val_le_bytes8 by lia. cbv zeta.
  assert (En : u32 (u64 (Inode.size i + BLUESKY_BLOCK_SIZE - 1) / BLUESKY_BLOCK_SIZE)
               = zlen (CloudLog.links l)).
  { unfold BLUESKY_BLOCK_SIZE. rewrite u64_id by lia. rewrite Hlinks, length_fmap.
    unfold blocks_of. rewrite Hb. simpl. rewrite Hn. unfold nblocks, BS, BLUESKY_BLOCK_SIZE.
    apply u32_id. split; [apply Z.div_pos; lia|]. apply Z.div_lt_upper_bound; lia. }
  rewrite En. wp_step. eapply wp_upd; [done|]. wp_step. wp_step; [apply Z.eqb_refl|].
  set (j1 := setf Inode.blocks _ _).
  assert (Hj1 : Inode.blocks j1 = Some (replicate (length (CloudLog.links l)) Block.zero)).
  { unfold j1. simpl. rewrite Hbl. simpl. unfold g_array_set_size.
    by rewrite take_nil, Nat2Z.id, Nat.sub_0_r. }
  change (setf inodes _ s) with (set_inode q j1 s).
  assert (Hok1 : heap_ok nox xl (set_inode q j1 s)).
  { eapply heap_ok_set_inode; [done|done| |].
    - intros r. unfold inode_strs, blocks_of. rewrite Hj1, Hbl. simpl.
      rewrite lsum_zero_blocks by apply points_None. lia.
    - intros r. unfold inode_logs, blocks_of. rewrite Hj1, Hbl. simpl.
      rewrite lsum_zero_blocks by apply points_None. unfold j1. simpl. lia. }
  eapply wp_mono; [apply (restore_blocks_ok (CloudLog.links l) xl (set_inode q j1 s) x l q j1 []); try done|].
  - apply lookup_insert_eq.
  - intros ? s' (Hok' & Hs'). split; [done|]. simpl in Hs'. rewrite Hlinks in Hs'.
    eapply restores_trans; [apply restores_set|]. exact Hs'.
Qed.

(** Reading back what follows the attributes of a directory. *)
Lemma deserialize_dir_ok xl s q j i :
  heap_ok nox xl s -> inode_wf i -> Inode.type i = BLUESKY_DIRECTORY -> inodes s !! q = Some j ->
  dir_ok j [] ∅ ∅ ->
  wp (deserialize_dirents (length (inode_rest i)) (Some q) (inode_rest i)) s (fun _ s' =>
    heap_ok nox xl s' /\ exists l h hf, Inode.dirents i = Some l /\ Inode.dirhash i = Some h /\
      dir_ok (with_dirents j l h hf) l h hf /\ restores q (with_dirents j l h hf) s s').
Proof.
  intros Hok W Ht Hq Hd. destruct (iw_dir _ W Ht) as (l & h & hf & D & Hw).
  unfold inode_rest. rewrite Ht. simpl. rewrite (do_dirents _ _ _ _ D). simpl.
  rewrite <- (app_nil_r (serialized_dirents l)) at 2.
  eapply wp_mono; [eapply (deserialize_dirents_ok l _ s q j [] ∅ ∅ []); [done|done|apply D|done| |]|].
  - by eapply dir_ok_names.
  - unfold serialized_dirents. rewrite length_app, length_le_bytes.
    clear. induction l as [|d l IH]; [simpl; lia|]. rewrite bind_cons, !length_app, length_le_bytes.
    simpl length at 1. lia.
  - intros ? s' (h' & hf' & D' & ->). simpl in *.
    assert (h' = h) as ->.
    { apply map_eq. intros n. apply option_eq. intros d.
      by rewrite (do_hash _ _ _ _ D'), (do_hash _ _ _ _ D). }
    split.
    + eapply heap_ok_set_inode; [done|done|intros r..];
        unfold inode_strs, inode_logs, blocks_of, with_dirents; simpl; lia.
    + exists l, h, hf'. split_and!; [done|apply D|done|apply restores_set].
Qed.

(** The fields [bluesky_init_inode] sets. *)
Definition init_fields (type : Z) (j : Inode.t) : Inode.t :=
  if type =? BLUESKY_REGULAR then j <| Inode.type := type |> <| Inode.blocks := Some [] |>
  else if type =? BLUESKY_DIRECTORY then
    j <| Inode.type := type |> <| Inode.dirents := Some [] |> <| Inode.dirhash := Some ∅ |>
      <| Inode.dirhash_folded := Some ∅ |>
  else j <| Inode.type := type |>.

Lemma init_inode_run s q j type (Q : unit -> State -> Prop) :
  inodes s !! q = Some j -> Q tt (set_inode q (init_fields type j) s) ->
  wp (bluesky_init_inode (Some q) type) s Q.
Proof.
  intros Hq HQ. unfold bluesky_init_inode. wp_step. eapply wp_upd; [done|]. unfold init_fields in HQ.
  destruct (type =? BLUESKY_REGULAR); [|destruct (type =? BLUESKY_DIRECTORY)].
  1,2: eapply wp_upd; [apply lookup_insert_eq|].
  1,2: eapply (eq_ind _ (Q tt) HQ); apply State_ext; try reflexivity; simpl; by rewrite insert_insert_eq.
  by wp_step.
Qed.

(** From the type-dependent part to the whole. *)
Lemma deserialize_body_ok xl s x l q j i :
  heap_ok nox xl s -> xnn xl -> cloudlogs s !! x = Some l -> 0 < CloudLog.refcount l ->
  CloudLog.links l = inode_links i -> inode_wf i ->
  inodes s !! q = Some (restore_attrs i (init_fields (Inode.type i) j)) -> Inode.blocks j = None ->
  wp (if Inode.type i =? BLUESKY_REGULAR then
        size ← read_le (inode_rest i) 0 8;
        let n := u32 (u64 (size + BLUESKY_BLOCK_SIZE - 1) / BLUESKY_BLOCK_SIZE) in
        upd inodes (Some q) (fun i => i <| Inode.size := size |>
          <| Inode.blocks ::= fmap (fun l => g_array_set_size l n) |>);;
        check Assertion (n =? zlen (CloudLog.links l));;
        for_each (zip (seqZ 0 n) (CloudLog.links l)) (fun kl =>
          set_block (Some q) kl.1 (fun _ => Block.mk Block.REF kl.2 None);;
          bluesky_cloudlog_ref kl.2)
      else if Inode.type i =? BLUESKY_DIRECTORY then
        deserialize_dirents (length (inode_rest i)) (Some q) (inode_rest i)
      else if Inode.type i =? BLUESKY_SYMLINK then
        r ← assume OutOfBounds (c_string (inode_rest i));
        upd inodes (Some q) (fun i => i <| Inode.symlink_contents := Some r.1 |>)
      else mret tt) s (fun _ s' => heap_ok nox xl s' /\
    exists j', restored i j j' /\ restores q j' s s').
Proof.
  intros Hok Hxl Hl Hpos Hlinks W Hq Hblk. unfold restored, init_fields in *.
  destruct (Z.eqb_spec (Inode.type i) BLUESKY_REGULAR) as [Ht|Ht].
  { eapply wp_mono; [by eapply (deserialize_file_ok xl s x l q _ i)|].
    intros ? s' (Hok' & Hs'). split; [done|]. eexists. split; [left; split; [done|reflexivity]|].
    match goal with H : restores q ?a s s' |- restores q ?b s s' => replace b with a; [done|] end.
    by destruct j. }
  destruct (Z.eqb_spec (Inode.type i) BLUESKY_DIRECTORY) as [Hd|Hd].
  { eapply wp_mono; [eapply (deserialize_dir_ok xl s q _ i); try done|].
    { by apply dir_ok_empty. }
    intros ? s' (Hok' & dl & h & hf & H1 & H2 & D & Hs'). split; [done|].
    assert (Ej : with_dirents (restore_attrs i (j <| Inode.type := Inode.type i |> <| Inode.dirents := Some [] |>
      <| Inode.dirhash := Some ∅ |> <| Inode.dirhash_folded := Some ∅ |>)) dl h hf
      = with_dirents (restore_attrs i j) dl h hf) by (by destruct j). rewrite Ej in *.
    eexists. split; [|done]. right. left. split; [done|]. exists dl, h, hf. split_and!; done. }
  destruct (Z.eqb_spec (Inode.type i) BLUESKY_SYMLINK) as [Hy|Hy].
  - destruct (iw_link _ W Hy) as (c & Hc & Hnul). unfold inode_rest. rewrite Hy, Hc. simpl.
    wp_step. wp_step; [by apply c_string_app|]. simpl. eapply wp_upd; [done|].
    match goal with |- heap_ok nox xl ?s' /\ _ => set (s1 := s') end. split.
    + eapply heap_ok_set_inode; [done|done|intros r..];
        unfold inode_strs, inode_logs, blocks_of; simpl; lia.
    + eexists. split; [|apply restores_set]. right. right. left. split; [done|]. by destruct j.
  - wp_step. split; [done|]. exists (restore_attrs i j). split; [tauto|].
    assert (restore_attrs i (j <| Inode.type := Inode.type i |>) = restore_attrs i j) as E
      by (by destruct j). rewrite E in Hq.
    pose proof (restores_set q (restore_attrs i j) s) as Hr. unfold set_inode in Hr.
    replace (s <| inodes ::= <[q := restore_attrs i j]> |>) with s in Hr; [done|].
    apply State_ext; try reflexivity. simpl. by rewrite insert_id.
Qed.

(** The data and the links of the item [x] are those of [i]. *)
Definition item_holds (s : State) (x : ptr) (i : Inode.t) : Prop :=
  exists l q, cloudlogs s !! x = Some l /\ 0 < CloudLog.refcount l /\
    CloudLog.links l = inode_links i /\ CloudLog.data l = Some q /\
    strs s !! q = Some (RCStr.mk 1 None (RCStr.Owned (serialized_inode i ++ inode_rest i))
                          (zlen (serialized_inode i ++ inode_rest i))).

Lemma inode_item_holds s x i : inode_item s x i -> item_holds s x i.
Proof. intros (l & q & ? & ? & _ & _ & ? & ? & ? & _). exists l, q. by split_and!. Qed.

Lemma deserialize_inode_ok xl s x q i j :
  heap_ok nox xl s -> xnn xl -> item_holds s x i -> inode_wf i -> inodes s !! q = Some j ->
  Inode.inum j = Inode.inum i -> Inode.blocks j = None ->
  wp (bluesky_deserialize_inode (Some q) (Some x)) s (fun ok s' =>
    ok = true /\ heap_ok nox xl s' /\ exists j', restored i j j' /\ restores q j' s s').
Proof.
  intros Hok Hxl (l & sq & Hl & Hpos & Hlinks & Hdata & Hstr) W Hq Hinum Hblk.
  unfold bluesky_deserialize_inode, item_data. wp_step. eapply wp_load; [done|].
  rewrite Hdata. wp_step. wp_step; [done|]. wp_step. wp_step. eapply wp_load; [done|]. rewrite Hdata.
  wp_step. eapply wp_load; [done|]. wp_step. wp_step. wp_step; [done|]. cbv beta.
  set (buf := serialized_inode i ++ inode_rest i).
  assert (Hbuf : drop 76 buf = inode_rest i).
  { apply drop_app_length'. unfold serialized_inode. by rewrite !length_app, !length_le_bytes. }
  assert (Hfld : buf = serialized_inode i ++ inode_rest i) by done.
  unfold serialized_inode in Hfld. rewrite <- !(assoc_L (++)) in Hfld.
  wp_step. eapply wp_read_le; [rewrite Hfld; slice_field|].
  rewrite le_val_le_bytes8 by (unfold INODE_MAGIC; lia). rewrite Z.eqb_refl. simpl negb. cbv iota.
  wp_step. eapply wp_load; [done|]. wp_step. eapply wp_read_le; [rewrite Hfld; slice_field|].
  rewrite le_val_le_bytes8 by apply W. rewrite Hinum, Z.eqb_refl. simpl negb. cbv iota.
  wp_step. eapply wp_read_le; [rewrite Hfld; slice_field|].
  rewrite u32_id, le_val_le_bytes4 by (pose proof (iw_type _ W); lia).
  wp_step. eapply init_inode_run; [done|]. set (j0 := init_fields _ j).
  do 9 (wp_step; eapply wp_read_le; [rewrite Hfld; slice_field|]; cbv beta).
  rewrite !le_val_le_bytes4 by apply W. rewrite !le_val_le_bytes8 by (apply W || apply u64_range).
  rewrite !s64_u64 by apply W. wp_step. eapply wp_upd; [apply lookup_insert_eq|].
  match goal with |- wp _ (setf inodes (<[q := ?jj]>) (set_inode q j0 s)) _ =>
    assert (jj = restore_attrs i j0) as -> end.
  { unfold j0, init_fields. clear.
    destruct j, (Inode.type i =? BLUESKY_REGULAR), (Inode.type i =? BLUESKY_DIRECTORY); reflexivity. }
  change (setf inodes _ _) with (set_inode q (restore_attrs i j0) (set_inode q j0 s)).
  replace (set_inode q (restore_attrs i j0) (set_inode q j0 s)) with (set_inode q (restore_attrs i j0) s)
    by (apply State_ext; try reflexivity; simpl; by rewrite insert_insert_eq).
  cbv zeta. rewrite Hbuf. wp_step.
  assert (Hok1 : heap_ok nox xl (set_inode q (restore_attrs i j0) s)).
  { assert (blocks_of (restore_attrs i j0) = [] /\ blocks_of j = []) as [E0 Ej].
    { unfold blocks_of. rewrite (proj1 (restore_attrs_refs i j0)), Hblk. split; [|reflexivity].
      unfold j0, init_fields. clear -Hblk.
      destruct (Inode.type i =? BLUESKY_REGULAR); [reflexivity|].
      destruct (Inode.type i =? BLUESKY_DIRECTORY); simpl; rewrite Hblk; reflexivity. }
    assert (Inode.committed_item (restore_attrs i j0) = Inode.committed_item j) as Ec.
    { rewrite (proj2 (restore_attrs_refs i j0)). unfold j0, init_fields.
      destruct (Inode.type i =? BLUESKY_REGULAR), (Inode.type i =? BLUESKY_DIRECTORY); reflexivity. }
    eapply heap_ok_set_inode; [done|done|intros r..]; unfold inode_strs, inode_logs; rewrite E0, Ej, ?Ec; lia. }
  eapply wp_mono; [apply (deserialize_body_ok xl _ x l q j i Hok1 Hxl Hl Hpos Hlinks W);
    [apply lookup_insert_eq|done]|].
  intros ? s' (Hok' & j' & Hj' & Hs'). wp_step. split_and!; [done|done|]. exists j'. split; [done|].
  eapply restores_trans; [apply restores_set|done].
Qed.

(** an inode written to a log item by [bluesky_serialize_inode] and read back
    by [bluesky_deserialize_inode] into an empty inode of the same number has the
    same type, mode, owner, link count, change count and times; a file has the
    same size and its blocks refer to the same items, a directory has the same
    entries in the same order and a consistent name table, a symbolic link has the
    same target.  The item is in the table of items, and all reference counts
    remain right. *)
Theorem inode_roundtrip `{!Storage} s p q i j :
  heap_ok nox nox s -> inodes s !! p = Some i -> inode_wf i ->
  inodes s !! q = Some j -> Inode.inum j = Inode.inum i -> Inode.blocks j = None ->
  wp (x ← bluesky_serialize_inode (Some p); bluesky_deserialize_inode (Some q) (Some x)) s
    (fun ok s' => ok = true /\ exists j', inodes s' = <[q := j']> (inodes s) /\ restored i j j' /\
       heap_ok nox (xadd nox (Some (next_ptr s))) s').
Proof.
  intros Hok Hp W Hq Hi Hb. wp_step.
  eapply wp_mono; [apply (serialize_inode_ok nox s p i Hok); [auto with bluesky|done|by apply inode_wf_body]|].
  intros x s1 (-> & Hok1 & Hx & E1 & _).
  eapply wp_mono; [eapply (deserialize_inode_ok _ s1 _ q i j Hok1); try done;
    [auto with bluesky|by apply inode_item_holds|by rewrite E1]|].
  intros ok s2 (-> & Hok2 & j' & Hj' & [E2 _]). split; [done|]. exists j'. split_and!; [|done|done].
  rewrite E2. simpl. by rewrite E1.
Qed.

Lemma restores_keeps `{!Storage} xl q j s s' :
  heap_ok nox xl s -> restores q j s s' -> keeps s s'.
Proof.
  intros Hok [E Hg]. apply keeps_gained; try (by rewrite E).
  eapply heap_ok_items_valid; [done|]. auto with bluesky.
Qed.

(** C25: for a file all of whose blocks are in the log, the inode read back stands
    for the same bytes. *)
Theorem file_inode_roundtrip `{Fetch} s p q i j c :
  heap_ok nox nox s -> inodes s !! p = Some i -> inode_wf i -> file_ok s i c ->
  (forall b, b ∈ blocks_of i -> is_ref b = true) ->
  inodes s !! q = Some j -> Inode.inum j = Inode.inum i -> Inode.blocks j = None ->
  wp (x ← bluesky_serialize_inode (Some p); bluesky_deserialize_inode (Some q) (Some x)) s
    (fun ok s' => ok = true /\ exists j', inodes s' !! q = Some j' /\ file_ok s' j' c).
Proof.
  intros Hok Hp W Ho Href Hq Hi Hb. assert (Hn : xnn nox) by auto with bluesky. wp_step.
  eapply wp_mono; [apply (serialize_inode_ok nox s p i Hok); [done|done|by apply inode_wf_body]|].
  intros x s1 (-> & Hok1 & Hx & E1 & Hk1). assert (Hn1 : xnn (xadd nox (Some (next_ptr s)))) by auto with bluesky.
  eapply wp_mono; [eapply (deserialize_inode_ok _ s1 _ q i j Hok1); try done; [by apply inode_item_holds|by rewrite E1]|].
  intros ok s2 (-> & Hok2 & j' & Hj' & Hs2). split; [done|]. exists j'.
  pose proof (restores_keeps _ _ _ _ _ Hok1 Hs2) as Hk2.
  assert (Hq' : inodes s2 !! q = Some j') by (destruct Hs2 as [-> _]; simpl; apply lookup_insert_eq).
  split; [done|]. assert (Ho1 : file_ok s1 i c) by (eapply (file_ok_keeps _ _ _ _ s s1); try done; by rewrite E1).
  destruct Ho1 as [Ht Hs Hm (bl & Hbl & Hlen & Hblk)].
  destruct Hj' as [[_ Ej]|[[? _]|[[? _]|[? _]]]];
    [|unfold BLUESKY_REGULAR, BLUESKY_DIRECTORY, BLUESKY_SYMLINK in *; lia..].
  assert (Hbl' : Inode.blocks j' = Some (ref_block <$> (block_link <$> bl)))
    by (rewrite Ej; simpl; unfold blocks_of; by rewrite Hbl).
  split; [by rewrite Ej|by rewrite Ej|done|]. eexists. split_and!; [exact Hbl'|by rewrite !length_fmap|].
  intros k b' Hk. eapply (block_ok_keeps _ _ _ _ s1 s2); try done.
  rewrite !list_lookup_fmap in Hk. destruct (bl !! k) as [b|] eqn:Ek; [|done]. injection Hk as <-.
  specialize (Hblk k b Ek). assert (Hrb : is_ref b = true).
  { apply Href. unfold blocks_of. rewrite Hbl. by eapply list_elem_of_lookup_2. }
  unfold block_ok, block_link, is_ref in *. rewrite Hrb. apply bool_decide_eq_true in Hrb.
  rewrite Hrb in Hblk. simpl. tauto.
Qed.
End read.

(** ** Instances *)
#[local] Existing Instance linear_gsequence.

Definition stored_inode : Inode.t :=
  inode_zero <| Inode.refcount := 1 |> <| Inode.type := BLUESKY_REGULAR |> <| Inode.inum := 2 |>
    <| Inode.mode := 420 |> <| Inode.nlink := 1 |> <| Inode.size := 3 |>
    <| Inode.blocks := Some [ref_block (Some 3%positive)] |>.
Definition blank_inode : Inode.t := inode_zero <| Inode.refcount := 1 |> <| Inode.inum := 2 |>.
Definition stored_item : CloudLog.t :=
  CloudLog.mk 1 LOGTYPE_DATA 0 0 0 (replicate 16 7) 2 0 3 CloudPointer.zero 0 0 0 [] (Some 2%positive) 0.
Definition stored_state : State :=
  empty_state <| next_ptr := 5%positive |>
    <| inodes := {[1%positive := stored_inode; 4%positive := blank_inode]} |>
    <| cloudlogs := {[3%positive := stored_item]} |>
    <| strs := {[2%positive := RCStr.mk 1 None (RCStr.Owned [97; 98; 99]) 3]} |>.

Lemma stored_heap_ok : heap_ok nox nox stored_state.
Proof.
  assert (Hso : forall q, str_owners stored_state q = points q (Some 2%positive)).
  { intros q. unfold str_owners. simpl. rewrite msum_insert_fresh by done.
    unfold singletonM, map_singleton. rewrite !msum_insert_fresh, !msum_empty by done.
    unfold inode_strs, log_strs. simpl. rewrite points_None. lia. }
  assert (Hlo : forall q, log_owners stored_state q = points q (Some 3%positive)).
  { intros q. unfold log_owners, queue_logs. simpl. rewrite msum_insert_fresh by done.
    unfold singletonM, map_singleton. rewrite !msum_insert_fresh, !msum_empty by done.
    unfold inode_logs, log_logs. simpl. rewrite !points_None. lia. }
  split.
  - intros q. rewrite Hso. unfold nox. destruct (decide (q = 2%positive)) as [->|Hne].
    + intros _. eexists. split; [apply lookup_singleton_eq|]. by rewrite points_self.
    + rewrite points_ne by done. lia.
  - intros q. rewrite Hlo. unfold nox. destruct (decide (q = 3%positive)) as [->|Hne].
    + intros _. eexists. split; [apply lookup_singleton_eq|]. by rewrite points_self.
    + rewrite points_ne by done. lia.
  - intros f. unfold map_owners. simpl. unfold singletonM, map_singleton.
    rewrite msum_insert_fresh, msum_empty by done. simpl. by rewrite points_None.
  - intros q str Hq. simpl in Hq. apply lookup_singleton_Some in Hq as [_ <-].
    unfold str_wf. simpl. eauto.
  - done.
  - intros r l Hr. simpl in Hr. apply lookup_singleton_Some in Hr as [_ <-]. done.
  - intros r Hr. simpl in *. rewrite !lookup_singleton_ne, lookup_insert_ne, lookup_singleton_ne by lia. done.
Qed.

Lemma stored_inode_wf : inode_wf stored_inode.
Proof. split; simpl; try done; try lia. intros _. split; [by vm_compute|]. eexists. split; [done|]. by vm_compute. Qed.

Lemma inode_roundtrip_witness :
  wp (x ← bluesky_serialize_inode (Some 1%positive);
      bluesky_deserialize_inode (Some 4%positive) (Some x)) stored_state (fun ok s' =>
    ok = true /\ exists j', inodes s' !! 4%positive = Some j' /\ Inode.mode j' = 420 /\
      Inode.size j' = 3 /\ Inode.blocks j' = Some [ref_block (Some 3%positive)]).
Proof.
  refine (wp_mono _ _ _ _ (inode_roundtrip stored_state 1 4 stored_inode blank_inode stored_heap_ok
    eq_refl stored_inode_wf eq_refl eq_refl eq_refl) _).
  intros ok s' (-> & j' & E & Hj & _). split; [done|]. exists j'. rewrite E.
  destruct Hj as [[_ ->]|[[? _]|[[? _]|[? _]]]]; [by rewrite lookup_insert_eq|done..].
Defined.

Lemma file_inode_roundtrip_witness :
  wp (x ← bluesky_serialize_inode (Some 1%positive);
      bluesky_deserialize_inode (Some 4%positive) (Some x)) stored_state (fun ok s' =>
    ok = true /\ exists j', inodes s' !! 4%positive = Some j' /\ file_ok s' j' [97; 98; 99]).
Proof.
  refine (file_inode_roundtrip stored_state 1 4 stored_inode blank_inode [97; 98; 99] stored_heap_ok
    eq_refl stored_inode_wf _ _ eq_refl eq_refl eq_refl).
  - split; [done|done|by vm_compute|]. exists [ref_block (Some 3%positive)].
    split_and!; [done|by vm_compute|]. intros k b Hk. destruct k as [|k]; [|by destruct k].
    injection Hk as <-. split; [done|]. exists 3%positive, stored_item. by vm_compute.
  - intros b. change (b ∈ [ref_block (Some 3%positive)] -> is_ref b = true).
    rewrite list_elem_of_singleton. by intros ->.
Defined.
