(* ===== verification/RoundtripItem.v ===== *)
(** * Round trips of log items (src/bluesky/serialize.c)

    The three parts of a serialized log item behind a journal or cloud header,
    read back into an item without links: type, inode number and links are the
    ones written, and every item linked to is known to be in the cloud at the
    location written. *)

From S2P Require Import Prelude Glib State Strings Ownership CloudLog Inodes Fetch File Imap Serialize Roundtrip.
From Stdlib Require Import ZArith Lia.
From stdpp Require Import base numbers gmap option list.

Open Scope Z_scope.

(** ** Headers *)

Lemma take_le_bytes n x b : take n (le_bytes n x ++ b) = le_bytes n x.
Proof. apply take_app_length'. by rewrite length_le_bytes. Qed.

Lemma drop_field (a : bytes) k b : (length a <= k)%nat -> drop k (a ++ b) = drop (k - length a) b.
Proof. intros. by rewrite drop_app_ge. Qed.

(** Finds the fields of a buffer that is a concatenation of fields whose lengths
    are constants or equations of the context. *)
Ltac field_lengths :=
  rewrite ?length_le_bytes;
  repeat match goal with H : length ?x = _ |- context [length ?x] => rewrite H end.
Ltac decode_fields :=
  rewrite <- ?(assoc_L (++));
  repeat (rewrite drop_field by (field_lengths; lia); field_lengths; cbn [Nat.sub];
          rewrite ?drop_0);
  rewrite ?take_le_bytes;
  repeat rewrite take_app_length' by (by field_lengths).

Definition is_u (n : nat) (x : Z) : Prop := 0 <= x < 256 ^ Z.of_nat n.

Lemma le_val_u n x : is_u n x -> le_val (le_bytes n x) = x.
Proof. intros Hx. rewrite le_val_le_bytes. by apply Z.mod_small. Qed.

Definition pointer_wf (p : CloudPointer.t) : Prop :=
  is_u 4 (CloudPointer.directory p) /\ is_u 4 (CloudPointer.sequence p) /\
  is_u 4 (CloudPointer.offset p) /\ is_u 4 (CloudPointer.size p).

Lemma length_pointer_bytes p : length (pointer_bytes p) = 16%nat.
Proof. unfold pointer_bytes. by rewrite !length_app, !length_le_bytes. Qed.

Lemma pointer_roundtrip p : pointer_wf p -> pointer_of_bytes (pointer_bytes p) = p.
Proof.
  intros (H1 & H2 & H3 & H4). unfold pointer_of_bytes, pointer_bytes.
  rewrite <- (app_nil_r (le_bytes 4 (CloudPointer.size p))). decode_fields.
  rewrite !le_val_u by done. by destruct p.
Qed.

Module LogHeaderWf.
Record wf (h : LogHeader.t) : Prop := {
  magic : is_u 4 (LogHeader.magic h);
  type : is_u 1 (LogHeader.type h);
  offset : is_u 4 (LogHeader.offset h);
  size1 : is_u 4 (LogHeader.size1 h);
  size2 : is_u 4 (LogHeader.size2 h);
  size3 : is_u 4 (LogHeader.size3 h);
  inum : is_u 8 (LogHeader.inum h);
  id : length (LogHeader.id h) = 16%nat;
}.
End LogHeaderWf.

Lemma log_header_roundtrip h rest :
  LogHeaderWf.wf h -> LogHeader.decode (LogHeader.encode h ++ rest) = h.
Proof.
  intros []. unfold LogHeader.decode, LogHeader.encode. decode_fields.
  rewrite !le_val_u by done. by destruct h.
Qed.

Module CloudLogHeaderWf.
Record wf (h : CloudLogHeader.t) : Prop := {
  magic : length (CloudLogHeader.magic h) = 4%nat;
  auth : length (CloudLogHeader.crypt_auth h) = 32%nat;
  iv : length (CloudLogHeader.crypt_iv h) = 16%nat;
  type : is_u 1 (CloudLogHeader.type h);
  id : length (CloudLogHeader.id h) = 16%nat;
  inum : is_u 8 (CloudLogHeader.inum h);
  size1 : is_u 4 (CloudLogHeader.size1 h);
  size2 : is_u 4 (CloudLogHeader.size2 h);
  size3 : is_u 4 (CloudLogHeader.size3 h);
}.
End CloudLogHeaderWf.

Lemma cloudlog_header_roundtrip h rest :
  CloudLogHeaderWf.wf h -> CloudLogHeader.decode (CloudLogHeader.encode h ++ rest) = h.
Proof.
  intros []. unfold CloudLogHeader.decode, CloudLogHeader.encode. decode_fields.
  rewrite !le_val_u by done. by destruct h.
Qed.

(** What [bluesky_deserialize_cloudlog] learns from either header. *)
Lemma journal_header h rest :
  LogHeaderWf.wf h -> LogHeader.magic h = HEADER_MAGIC ->
  log_item_header (LogHeader.encode h ++ rest)
  = Some (LogHeader.size, LogHeader.size1 h, LogHeader.size2 h, LogHeader.size3 h,
          LogHeader.type h - 48, LogHeader.inum h).
Proof.
  intros Hw Hm. unfold log_item_header. rewrite log_header_roundtrip by done.
  rewrite bool_decide_eq_true_2; [done|]. unfold LogHeader.encode. rewrite <- (assoc_L (++)).
  by rewrite take_le_bytes, Hm.
Qed.

Lemma cloud_header h rest :
  CloudLogHeaderWf.wf h -> CloudLogHeader.magic h = CLOUDLOG_MAGIC ->
  log_item_header (CloudLogHeader.encode h ++ rest)
  = Some (CloudLogHeader.size, CloudLogHeader.size1 h, CloudLogHeader.size2 h,
          CloudLogHeader.size3 h, CloudLogHeader.type h - 48, CloudLogHeader.inum h).
Proof.
  intros Hw Hm. unfold log_item_header. rewrite cloudlog_header_roundtrip by done.
  assert (Ht : take 4 (CloudLogHeader.encode h ++ rest) = CLOUDLOG_MAGIC).
  { unfold CloudLogHeader.encode. rewrite <- (assoc_L (++)), Hm. done. }
  by rewrite Ht, bool_decide_eq_false_2, bool_decide_eq_true_2 by done.
Qed.

(** ** Links *)

(** What is written about a link: the identifier and the location of the item. *)
Abbreviation link_name := (option (BlueSkyCloudID * CloudPointer.t)).

Definition name_id (d : link_name) : bytes := match d with Some (id, _) => id | None => id0 end.
Definition name_loc (d : link_name) : bytes :=
  match d with Some (_, loc) => pointer_bytes loc | None => [] end.

Definition name_of (s : State) (o : option ptr) : link_name :=
  r ← o; l ← cloudlogs s !! r; Some (CloudLog.id l, CloudLog.location l).

(** Names that can be read back. *)
Definition name_wf (d : link_name) : Prop :=
  match d with
  | Some (id, loc) => id <> id0 /\ length id = 16%nat /\ pointer_wf loc
  | None => True
  end.

(** One identifier, one location. *)
Definition names_agree (D : list link_name) : Prop :=
  forall id loc loc', Some (id, loc) ∈ D -> Some (id, loc') ∈ D -> loc = loc'.

(** The link [o] leads to the item named, which is in the table, known to be in
    the cloud, at the location named. *)
Definition names (s : State) (d : link_name) (o : option ptr) : Prop :=
  match d, o with
  | Some (id, loc), Some r => exists l, cloudlogs s !! r = Some l /\ CloudLog.id l = id /\
      CloudLog.location l = loc /\ has (CloudLog.location_flags l) CLOUDLOG_CLOUD = true /\
      FS.locations (fs s) !! id = Some r
  | None, None => True
  | _, _ => False
  end.

(** Every item in the table is in use. *)
Definition table_live (s : State) : Prop := forall id r,
  FS.locations (fs s) !! id = Some r -> exists l, cloudlogs s !! r = Some l /\ 0 < CloudLog.refcount l.

(** [l'] is [l] with more references to it and maybe another location. *)
Definition cited (l l' : CloudLog.t) : Prop :=
  CloudLog.refcount l <= CloudLog.refcount l' /\
  l' = l <| CloudLog.refcount := CloudLog.refcount l' |>
         <| CloudLog.location := CloudLog.location l' |>
         <| CloudLog.location_flags := CloudLog.location_flags l' |>.

#[export] Instance cited_preorder : PreOrder cited.
Proof.
  split.
  - intros l. split; [lia|]. by destruct l.
  - intros l1 l2 l3 (H1 & E1) (H2 & E2). split; [lia|]. rewrite E2 at 1. by rewrite E1.
Qed.

(** Items are cited or new, and the table grows; nothing else changes. *)
Record cites (s s' : State) : Prop := {
  ct_logs : forall r l, cloudlogs s !! r = Some l -> exists l', cloudlogs s' !! r = Some l' /\ cited l l';
  ct_table : forall id r, FS.locations (fs s) !! id = Some r -> FS.locations (fs s') !! id = Some r;
  ct_next : Pos.le (next_ptr s) (next_ptr s');
  ct_state : s' = s <| cloudlogs := cloudlogs s' |> <| next_ptr := next_ptr s' |>
    <| fs ::= (fun f => f <| FS.locations := FS.locations (fs s') |>) |>;
}.

#[export] Instance cites_preorder : PreOrder cites.
Proof.
  split.
  - intros s. split; [intros r l; by exists l|done|lia|by destruct s as [? ? ? ? ? ? []]].
  - intros s1 s2 s3 A B. split.
    + intros r l Hl. destruct (ct_logs _ _ A r l Hl) as (l2 & Hl2 & Hc).
      destruct (ct_logs _ _ B r l2 Hl2) as (l3 & Hl3 & Hc3). exists l3. split; [done|by etransitivity].
    + intros id r Hr. by apply (ct_table _ _ B), (ct_table _ _ A).
    + pose proof (ct_next _ _ A). pose proof (ct_next _ _ B). lia.
    + rewrite (ct_state _ _ B) at 1. rewrite (ct_state _ _ A) at 1. by destruct s1 as [? ? ? ? ? ? []].
Qed.

Lemma has_lor f : has (Z.lor f CLOUDLOG_CLOUD) CLOUDLOG_CLOUD = true.
Proof.
  unfold has. apply negb_true_iff, Z.eqb_neq. rewrite Z.land_lor_distr_l. unfold CLOUDLOG_CLOUD.
  simpl. intros E. apply (f_equal (fun z => Z.testbit z 1)) in E. rewrite Z.lor_spec in E.
  simpl in E. by rewrite orb_true_r in E.
Qed.

Section links.
Context `{Env}.

Lemma serialize_links_ok L s :
  (forall r, Some r ∈ L -> exists l, cloudlogs s !! r = Some l) ->
  wp (serialize_links L) s (fun r s' => s' = s /\
    r = ((name_of s <$> L) ≫= name_id, (name_of s <$> L) ≫= name_loc)).
Proof.
  induction L as [|o L IH]; intros Hin; [done|].
  specialize (IH ltac:(intros r Hr; apply Hin; by right)). destruct o as [r|]; simpl.
  - destruct (Hin r ltac:(by left)) as [l Hl]. wp_step. eapply wp_load; [done|]. wp_step.
    eapply wp_mono; [exact IH|]. intros ? s' [-> ->]. wp_step. split; [done|].
    rewrite Hl. done.
  - wp_step. eapply wp_mono; [exact IH|]. intros ? s' [-> ->]. done.
Qed.

(** The item of an identifier: found in the table or new, with a reference. *)
Lemma cloudlog_get_ok xl s id :
  heap_ok nox xl s -> xnn xl -> table_live s -> id <> id0 ->
  wp (bluesky_cloudlog_get id) s (fun ref s' => exists r l, ref = Some r /\
    heap_ok nox (xadd xl (Some r)) s' /\ cites s s' /\ table_live s' /\
    cloudlogs s' !! r = Some l /\ CloudLog.id l = id /\ FS.locations (fs s') !! id = Some r /\
    (forall r' l', r' <> r -> cloudlogs s' !! r' = Some l' -> cloudlogs s !! r' = Some l') /\
    (r = next_ptr s /\ l = new_log id \/ is_Some (cloudlogs s !! r))).
Proof.
  intros Hok Hx Ht Hid. unfold bluesky_cloudlog_get. rewrite bool_decide_eq_false_2 by done.
  wp_step. wp_step. destruct (FS.locations (fs s) !! id) as [r|] eqn:Hloc.
  - destruct (Ht id r Hloc) as (l & Hl & Hpos). destruct (ho_loc _ _ _ Hok id r Hloc) as (l0 & Hl0 & Ei).
    assert (l0 = l) as -> by congruence.
    assert (Hle : log_owners s r + xl r <= CloudLog.refcount l).
    { destruct (Z.le_gt_cases (log_owners s r + xl r) 0); [lia|].
      destruct (ho_logs _ _ _ Hok r) as (l1 & Hl1 & ?); [lia|]. congruence || (simplify_eq; lia). }
    wp_step. eapply wp_mono; [by eapply bluesky_cloudlog_ref_ok|].
    intros ? s1 (Hok1 & _ & ->). wp_step.
    exists r, (l <| CloudLog.refcount := 1 + CloudLog.refcount l |>). split_and!; try done.
    + split; try done; [|by destruct s as [? ? ? ? ? ? []]]. intros q lq Hq. simpl.
      destruct (decide (q = r)) as [->|Hne].
      * rewrite lookup_insert_eq. eexists. split; [done|]. simplify_eq. split; [simpl; lia|reflexivity].
      * rewrite lookup_insert_ne by done. by exists lq.
    + intros i q Hq. simpl. destruct (decide (q = r)) as [->|Hne].
      * rewrite lookup_insert_eq. eexists. split; [done|]. simpl. lia.
      * rewrite lookup_insert_ne by done. by apply (Ht i).
    + simpl. apply lookup_insert_eq.
    + intros r' l' Hne. simpl. by rewrite lookup_insert_ne.
    + right. eauto.
  - unfold bluesky_cloudlog_new, bluesky_cloudlog_stats_update, bluesky_cloudlog_insert_locked.
    wp_run. set (r := next_ptr s). set (s1 := setf next_ptr _ _).
    assert (Hok1 : heap_ok nox (xadd xl (Some r)) s1)
      by (by apply (heap_ok_alloc_log nox xl s (new_log id))).
    exists r, (new_log id). split; [done|].
    match goal with |- heap_ok _ _ ?t /\ _ => set (s2 := t) end.
    assert (E2 : s2 = s1 <| fs := (fs s1) <| FS.locations ::= <[id := r]> |> |>) by done.
    assert (Hfr : cloudlogs s !! r = None) by (apply (ho_fresh _ _ _ Hok); unfold r; lia).
    clearbody s2. subst s2. split_and!; try done.
    + apply heap_ok_fs; [done|done|done|]. intros i q. simpl. destruct (decide (i = id)) as [->|Hne].
      * rewrite lookup_insert_eq. intros [= <-]. exists (new_log id). by rewrite lookup_insert_eq.
      * rewrite lookup_insert_ne by done. apply (ho_loc _ _ _ Hok1).
    + split; [| |simpl; lia|by destruct s as [? ? ? ? ? ? []]].
      * intros q lq Hq. exists lq. split; [|done]. simpl. rewrite lookup_insert_ne; [done|]. congruence.
      * intros i q Hi. simpl. rewrite lookup_insert_ne; [done|]. congruence.
    + intros i q. simpl. destruct (decide (i = id)) as [->|Hne].
      * rewrite lookup_insert_eq. intros [= <-]. exists (new_log id). by rewrite lookup_insert_eq.
      * rewrite lookup_insert_ne by done. intros Hi. destruct (Ht i q Hi) as (lq & Hq & ?).
        exists lq. rewrite lookup_insert_ne; [done|]. congruence.
    + simpl. apply lookup_insert_eq.
    + simpl. apply lookup_insert_eq.
    + intros r' l' Hne. simpl. by rewrite lookup_insert_ne.
    + by left.
Qed.

(** A named item is looked up and its location recorded. *)
Lemma get_and_locate_ok xl s id loc :
  heap_ok nox xl s -> xnn xl -> table_live s -> name_wf (Some (id, loc)) ->
  wp (bluesky_cloudlog_get id) s (fun ref s1 => exists r, ref = Some r /\
    wp (upd cloudlogs ref (fun l => l <| CloudLog.location := pointer_of_bytes (pointer_bytes loc) |>
        <| CloudLog.location_flags ::= fun f => Z.lor f CLOUDLOG_CLOUD |>)) s1 (fun _ s2 =>
      heap_ok nox (xadd xl (Some r)) s2 /\ cites s s2 /\ table_live s2 /\
      names s2 (Some (id, loc)) (Some r) /\
      forall d o, names s d o -> (forall loc', d = Some (id, loc') -> loc' = loc) -> names s2 d o)).
Proof.
  intros Hok Hx Ht (Hid & _ & Hp).
  eapply wp_mono; [by apply (cloudlog_get_ok xl s id)|].
  intros ref s1 (r & l & -> & Hok1 & Hc1 & Ht1 & Hl & Ei & Hloc & Hfr & _). exists r. split; [done|].
  eapply wp_upd; [done|]. rewrite pointer_roundtrip by done.
  set (l2 := setf CloudLog.location_flags _ _). change (setf cloudlogs _ s1) with (set_log r l2 s1).
  assert (Hpos : 0 < CloudLog.refcount l).
  { destruct (Ht1 id r Hloc) as (l0 & Hl0 & ?). simplify_eq. done. }
  assert (Hn2 : names (set_log r l2 s1) (Some (id, loc)) (Some r)).
  { exists l2. simpl. rewrite lookup_insert_eq. split_and!; [done..|apply has_lor|done]. }
  split_and!; [| | |done|].
  - eapply heap_ok_set_fields; [done|done|done..|]. apply (ho_alive _ _ _ Hok1 _ _ Hl Hpos).
  - etransitivity; [done|]. split; [|done|done|by destruct s1 as [? ? ? ? ? ? []]].
    intros q lq Hq. simpl. destruct (decide (q = r)) as [->|Hne].
    + rewrite lookup_insert_eq. exists l2. simplify_eq. split; [done|]. split; [simpl; lia|reflexivity].
    + rewrite lookup_insert_ne by done. by exists lq.
  - intros i q Hq. simpl. destruct (decide (q = r)) as [->|Hne].
    + exists l2. by rewrite lookup_insert_eq.
    + rewrite lookup_insert_ne by done. by apply (Ht1 i).
  - intros [[id' loc']|] [r'|]; simpl; try done. intros (l' & Hl' & Ei' & El' & Hf' & Hloc') Hag.
    pose proof (ct_table _ _ Hc1 _ _ Hloc') as Hloc1.
    destruct (decide (id' = id)) as [->|Hne].
    + assert (r' = r) as -> by congruence. rewrite (Hag loc' eq_refl). exact Hn2.
    + destruct (ct_logs _ _ Hc1 _ _ Hl') as (l1 & Hl1 & _ & E1).
      assert (r' <> r).
      { intros ->. rewrite Hl in Hl1. injection Hl1 as <-. rewrite E1 in Ei. simpl in Ei. congruence. }
      specialize (Hfr r' l1 ltac:(done) Hl1). assert (l1 = l') as -> by congruence.
      exists l'. rewrite lookup_insert_ne by done. split_and!; done.
Qed.

Lemma deserialize_links_ok D xl s a w :
  heap_ok nox xl s -> xnn xl -> table_live s -> Forall name_wf D -> names_agree D ->
  wp (deserialize_links (length D) ((D ≫= name_id) ++ a) ((D ≫= name_loc) ++ w)) s (fun L s' =>
    heap_ok nox (xadds xl L) s' /\ cites s s' /\ table_live s' /\ Forall2 (names s') D L /\
    forall d o, names s d o -> names_agree (d :: D) -> names s' d o).
Proof.
  revert xl s. induction D as [|d D IH]; intros xl s Hok Hx Ht Hw Ha.
  { simpl. wp_step. split_and!; [by rewrite xadds_nil|reflexivity|done|constructor|done]. }
  apply Forall_cons in Hw as [Hd Hw].
  assert (Ha' : names_agree D) by (intros id x y H1 H2; apply (Ha id); by right).
  simpl length. cbn [deserialize_links]. rewrite !bind_cons, <- !(assoc_L (++)).
  assert (Hlen : length (name_id d) = 16%nat) by (destruct d as [[id loc]|]; [apply Hd|done]).
  wp_step. wp_step; [rewrite length_app; apply Z.leb_le; lia|].
  rewrite (take_app_length' (name_id d)), (drop_app_length' (name_id d)) by (by rewrite Hlen). wp_step.
  destruct d as [[id loc]|]; simpl name_id; simpl name_loc.
  - eapply wp_mono; [by apply (get_and_locate_ok xl s id loc)|].
    intros ref s1 (r & -> & H1). cbv beta iota. wp_step.
    wp_step; [rewrite length_app, length_pointer_bytes; apply Z.leb_le; lia|]. wp_step.
    rewrite take_app_length', drop_app_length' by (by rewrite length_pointer_bytes).
    eapply wp_mono; [exact H1|]. intros ? s2 (Hok2 & Hc2 & Ht2 & Hn2 & Hp2). wp_step.
    eapply wp_mono; [apply (IH _ s2 Hok2); auto with bluesky|].
    intros L s3 (Hok3 & Hc3 & Ht3 & HL & Hp3). wp_step. split_and!; [|by etransitivity|done| |].
    + rewrite xadds_cons. revert Hok3. apply heap_ok_proper; [done| |done].
      intros q. unfold xadds, xadd. lia.
    + constructor; [|done]. apply Hp3; [done|exact Ha].
    + intros d o Ho Hag. apply Hp3.
      * apply Hp2; [done|]. intros loc' ->. apply (Hag id); [by left|by right; left].
      * intros i x y H2 H3. apply (Hag i);
          [revert H2|revert H3]; rewrite !elem_of_cons; tauto.
  - unfold bluesky_cloudlog_get. rewrite bool_decide_eq_true_2 by done. wp_step. wp_step.
    eapply wp_mono; [by apply (IH xl s)|].
    intros L s3 (Hok3 & Hc3 & Ht3 & HL & Hp3). wp_step. split_and!; [|done|done|by constructor|].
    + by rewrite xadds_cons, xadd_None.
    + intros d o Ho Hag. apply Hp3; [done|]. intros i x y H2 H3. apply (Hag i);
        [revert H2|revert H3]; rewrite !elem_of_cons; tauto.
Qed.

Lemma length_names D : Forall name_wf D -> length (D ≫= name_id) = (16 * length D)%nat.
Proof.
  induction 1 as [|d D Hd _ IH]; [done|]. rewrite bind_cons, length_app, IH.
  assert (length (name_id d) = 16%nat) as -> by (destruct d as [[id loc]|]; [apply Hd|done]).
  simpl. lia.
Qed.

(** Reading a serialized item whose header announces its parts. *)
Lemma deserialize_cloudlog_ok xl s x l hdr enc D type inum :
  let auth := D ≫= name_id in let wri := D ≫= name_loc in
  log_item_header (hdr ++ enc ++ auth ++ wri)
    = Some (zlen hdr, zlen enc, zlen auth, zlen wri, type, inum) ->
  4 < zlen hdr -> zlen enc < 2 ^ 31 -> type <> LOGTYPE_INVALID ->
  heap_ok nox xl s -> xnn xl -> table_live s -> Forall name_wf D -> names_agree D ->
  cloudlogs s !! x = Some l -> 0 < CloudLog.refcount l -> CloudLog.links l = [] -> CloudLog.data l = None ->
  wp (bluesky_deserialize_cloudlog (Some x) (hdr ++ enc ++ auth ++ wri)) s (fun _ s' =>
    heap_ok nox xl s' /\ table_live s' /\ exists L l', cloudlogs s' !! x = Some l' /\
      CloudLog.type l' = type /\ CloudLog.inum l' = inum /\ CloudLog.data_size l' = zlen enc /\
      CloudLog.links l' = L /\ CloudLog.id l' = CloudLog.id l /\ CloudLog.data l' = None /\
      Forall2 (names s') D L /\
      cites (set_log x (l <| CloudLog.type := type |> <| CloudLog.inum := inum |>
                          <| CloudLog.data_size := zlen enc |>) s)
            (set_log x (l' <| CloudLog.links := [] |>) s')).
Proof.
  intros auth wri Hh Hhd Hen Hty Hok Hx Ht Hw Ha Hl Hpos Hlinks Hdata.
  unfold bluesky_deserialize_cloudlog.
  wp_step. wp_step; [apply Z.ltb_lt; rewrite length_app; lia|]. rewrite Hh. cbv beta iota.
  wp_step. wp_step; [apply Z.leb_le; rewrite length_app; lia|].
  wp_step. wp_step; [apply Z.leb_le; rewrite !length_app; lia|].
  wp_step. eapply wp_upd; [done|]. wp_step. eapply wp_load; [apply lookup_insert_eq|].
  simpl CloudLog.data. rewrite Hdata. wp_step. apply wp_ret. wp_step. eapply wp_upd; [apply lookup_insert_eq|].
  match goal with |- wp _ ?t _ => set (s1 := t) end.
  set (l1 := l <| CloudLog.type := type |> <| CloudLog.inum := inum |> <| CloudLog.data_size := zlen enc |>).
  assert (s1 = set_log x l1 s) as ->.
  { apply State_ext; try reflexivity. simpl. rewrite insert_insert_eq. f_equal.
    rewrite s32_id by lia. unfold l1. destruct l. simpl in *. by subst. }
  set (s1 := set_log x l1 s).
  assert (Hok1 : heap_ok nox xl s1).
  { eapply heap_ok_set_fields; [done|done|done..|]. by apply Z.eqb_neq. }
  assert (Ht1 : table_live s1).
  { intros i r Hr. simpl. destruct (decide (r = x)) as [->|Hne].
    - exists l1. by rewrite lookup_insert_eq.
    - rewrite lookup_insert_ne by done. by apply (Ht i). }
  wp_step. wp_step.
  { rewrite slice_skip by lia. replace (zlen hdr + zlen enc - zlen hdr) with (zlen enc) by lia.
    rewrite slice_skip by lia. rewrite Z.sub_diag. by apply slice_head. }
  wp_step. wp_step.
  { rewrite !slice_skip by lia. match goal with |- slice _ ?o _ = _ => replace o with 0 by lia end.
    rewrite <- (app_nil_r wri) at 1. by apply slice_head. }
  replace (Z.to_nat (zlen auth / 16)) with (length D).
  2: { unfold auth. rewrite length_names by done. rewrite Nat2Z.inj_mul, Z.mul_comm, Z.div_mul by lia. lia. }
  wp_step. rewrite <- (app_nil_r auth), <- (app_nil_r wri).
  eapply wp_mono; [by apply (deserialize_links_ok D xl s1 [] [])|].
  intros L s2 (Hok2 & Hc2 & Ht2 & HL & _).
  destruct (ct_logs _ _ Hc2 x l1) as (l2 & Hl2 & Hn2 & E2); [apply lookup_insert_eq|].
  assert (Hl2k : CloudLog.links l2 = []) by (rewrite E2; done).
  wp_step. eapply wp_load; [done|]. rewrite Hl2k. wp_step. apply wp_ret. eapply wp_upd; [done|].
  set (l3 := l2 <| CloudLog.links := L |>). change (setf cloudlogs _ s2) with (set_log x l3 s2).
  assert (Hpos2 : 0 < CloudLog.refcount l2) by (simpl in Hn2; lia).
  assert (Hd2 : dead l2 = false) by (by eapply (ho_alive _ _ _ Hok2)).
  split_and!.
  - eapply (heap_ok_set_log _ _ _ _ _ x l2 l3 Hok2); [done|done|done| | |];
      unfold log_strs, log_logs; change (dead l3) with (dead l2); rewrite Hd2, ?Hl2k.
    + simpl. lia.
    + intros r _. unfold xadds. simpl. lia.
    + change (CloudLog.links l3) with L. simpl. destruct (Z.le_gt_cases (log_owners s2 x + xadds xl L x) 0) as [|Hgt];
        [unfold xadds in *; lia|].
      destruct (ho_logs _ _ _ Hok2 x) as (l0 & Hl0 & Hle); [lia|]. simplify_eq. unfold xadds in *. lia.
  - intros i r Hr. simpl. destruct (decide (r = x)) as [->|Hne].
    + exists l3. by rewrite lookup_insert_eq.
    + rewrite lookup_insert_ne by done. by apply (Ht2 i).
  - exists L, l3. split_and!; try (unfold l3; rewrite E2; done).
    + simpl. apply lookup_insert_eq.
    + eapply Forall2_impl; [exact HL|]. intros [[i loc]|] [r|]; simpl; try done.
      intros (lr & Hlr & ?). destruct (decide (r = x)) as [->|Hne].
      * rewrite lookup_insert_eq. exists l3. simplify_eq. done.
      * rewrite lookup_insert_ne by done. eauto.
    + replace (set_log x (l3 <| CloudLog.links := [] |>) (set_log x l3 s2)) with s2; [done|].
      apply State_ext; try reflexivity. simpl. rewrite insert_insert_eq, insert_id; [done|].
      rewrite Hl2. unfold l3. f_equal. destruct l2. simpl in *. by subst.
Qed.
End links.
