(* ===== verification/Journal.v ===== *)
(** * The journal format (src/bluesky/log.c)

    Records of the journal as [log_thread] writes them, the check
    [validate_journal_item] makes of them, and the scan for the last commit
    point.  A scan finds exactly the records written; a record cut short by a
    crash or damaged in up to four adjacent bytes is rejected; the scan never
    reads outside the file. *)

From S2P Require Import Prelude Crc32c Glib State Strings Ownership CloudLog Inodes Fetch Imap Serialize Roundtrip RoundtripItem.
From Stdlib Require Import ZArith Lia.
From stdpp Require Import base numbers gmap option list.

Open Scope Z_scope.

Definition FOOTER_MAGIC : Z := 0x2e435243.

(** [struct log_footer]. *)
Module LogFooter.
Definition size : Z := 8.
Definition encode (crc : Z) : bytes := le_bytes 4 FOOTER_MAGIC ++ le_bytes 4 crc.
Definition magic (b : bytes) : Z := le_val (take 4 b).
End LogFooter.

(** What [log_thread] writes for an item, the checksum computed on the way. *)
Definition journal_record (header : LogHeader.t) (data1 data2 data3 : bytes) : bytes :=
  let crc := BLUESKY_CRC32C_SEED in
  let crc := crc32c crc (LogHeader.encode header) in
  let crc := crc32c crc data1 in
  let crc := crc32c crc data2 in
  let crc := crc32c crc data3 in
  let crc := crc32c crc (take 4 (LogFooter.encode 0)) in
  LogHeader.encode header ++ data1 ++ data2 ++ data3 ++ LogFooter.encode (crc32c_finalize crc).

(** The sum of the three 32-bit sizes, computed in 32 bits. *)
Definition record_size (header : LogHeader.t) : Z :=
  u32 (LogHeader.size1 header + LogHeader.size2 header + LogHeader.size3 header).

(** [None] if memory outside the buffer would be read. *)
Definition validate_journal_item (buf : bytes) (offset : Z) : option bool :=
  let len := zlen buf in
  if len <? u64 (offset + LogHeader.size + LogFooter.size) then Some false else
  h ← slice buf offset LogHeader.size;
  let header := LogHeader.decode h in
  if negb (LogHeader.magic header =? HEADER_MAGIC) then Some false else
  if negb (LogHeader.offset header =? offset) then Some false else
  let size := record_size header in
  let footer_offset := offset + LogHeader.size + size in
  if len <? u64 (footer_offset + LogFooter.size) then Some false else
  f ← slice buf footer_offset LogFooter.size;
  if negb (LogFooter.magic f =? FOOTER_MAGIC) then Some false else
  r ← slice buf offset (LogHeader.size + LogFooter.size + size);
  Some (crc32c BLUESKY_CRC32C_SEED r =? BLUESKY_CRC32C_VALIDATOR).

(** The scan for the commit point; every valid item takes at least 53 bytes.
    [None] as above, and if the fuel is used up before the scan ends. *)
Fixpoint bluesky_replay_scan_journal (fuel : nat) (buf : bytes) (offset : Z) (point : Z * Z)
    : option (Z * Z) :=
  match fuel with
  | O => None
  | S fuel =>
    ok ← validate_journal_item buf offset;
    if negb ok then Some point else
    h ← slice buf offset LogHeader.size;
    let header := LogHeader.decode h in
    let size := record_size header in
    point ← (if LogHeader.type header - 48 =? LOGTYPE_JOURNAL_CHECKPOINT then
               d0 ← slice buf (offset + LogHeader.size) 4;
               d1 ← slice buf (offset + LogHeader.size + 4) 4;
               Some (le_val d0, le_val d1)
             else Some point);
    bluesky_replay_scan_journal fuel buf (offset + LogHeader.size + size + LogFooter.size) point
  end.

(** ** Records are accepted *)

Record entry_wf (h : LogHeader.t) (d1 d2 d3 : bytes) : Prop := {
  ew_header : LogHeaderWf.wf h;
  ew_magic : LogHeader.magic h = HEADER_MAGIC;
  ew_id : are_bytes (LogHeader.id h);
  ew_size1 : LogHeader.size1 h = zlen d1;
  ew_size2 : LogHeader.size2 h = zlen d2;
  ew_size3 : LogHeader.size3 h = zlen d3;
  ew_total : zlen d1 + zlen d2 + zlen d3 < 2 ^ 32;
  ew_data1 : are_bytes d1;
  ew_data2 : are_bytes d2;
  ew_data3 : are_bytes d3;
}.

Lemma length_log_header h : length (LogHeader.id h) = 16%nat -> zlen (LogHeader.encode h) = LogHeader.size.
Proof. intros Hi. unfold LogHeader.encode. rewrite !length_app, !length_le_bytes, Hi. done. Qed.

Lemma log_header_bytes h : are_bytes (LogHeader.id h) -> are_bytes (LogHeader.encode h).
Proof. intros. unfold LogHeader.encode. rewrite !Forall_app. split_and!; auto with bluesky. Qed.

(** The record without its last four bytes. *)
Definition record_body (h : LogHeader.t) (d1 d2 d3 : bytes) : bytes :=
  LogHeader.encode h ++ d1 ++ d2 ++ d3 ++ le_bytes 4 FOOTER_MAGIC.

Lemma journal_record_body h d1 d2 d3 :
  journal_record h d1 d2 d3
  = record_body h d1 d2 d3 ++ le_bytes 4 (crc32c_finalize (crc32c BLUESKY_CRC32C_SEED (record_body h d1 d2 d3))).
Proof.
  unfold journal_record, record_body, LogFooter.encode. rewrite take_le_bytes.
  rewrite <- !crc32c_app, <- !(assoc_L (++)). done.
Qed.

Section entry.
Context (h : LogHeader.t) (d1 d2 d3 : bytes) (W : entry_wf h d1 d2 d3).

Lemma record_size_eq : record_size h = zlen d1 + zlen d2 + zlen d3.
Proof.
  unfold record_size. rewrite (ew_size1 _ _ _ _ W), (ew_size2 _ _ _ _ W), (ew_size3 _ _ _ _ W).
  apply u32_id. pose proof (ew_total _ _ _ _ W). lia.
Qed.

Lemma record_body_bytes : are_bytes (record_body h d1 d2 d3).
Proof.
  unfold record_body. rewrite !Forall_app.
  split_and!; try apply W; [apply log_header_bytes, W|auto with bluesky].
Qed.

Lemma length_record_body : zlen (record_body h d1 d2 d3) = LogHeader.size + record_size h + 4.
Proof.
  rewrite record_size_eq. unfold record_body. rewrite !length_app, length_le_bytes.
  pose proof (length_log_header h (LogHeaderWf.id _ (ew_header _ _ _ _ W))). lia.
Qed.

Lemma length_journal_record :
  zlen (journal_record h d1 d2 d3) = LogHeader.size + record_size h + LogFooter.size.
Proof.
  rewrite journal_record_body, length_app, length_le_bytes. pose proof length_record_body.
  unfold LogFooter.size. lia.
Qed.

Lemma journal_record_bytes : are_bytes (journal_record h d1 d2 d3).
Proof.
  rewrite journal_record_body, Forall_app. split; [apply record_body_bytes|auto with bluesky].
Qed.

(** Validation of a buffer whose header is the one of the entry comes down to the
    footer and the checksum of the right bytes. *)
Lemma validate_at pre r post :
  LogHeader.offset h = zlen pre -> zlen r = LogHeader.size + record_size h + LogFooter.size ->
  take 45 r = LogHeader.encode h -> zlen (pre ++ r ++ post) < 2 ^ 63 ->
  validate_journal_item (pre ++ r ++ post) (zlen pre)
  = Some ((LogFooter.magic (drop (Z.to_nat (LogHeader.size + record_size h)) r) =? FOOTER_MAGIC)
          && (crc32c BLUESKY_CRC32C_SEED r =? BLUESKY_CRC32C_VALIDATOR)).
Proof.
  intros Ho Hr Hh Hlen. rewrite !length_app in Hlen. pose proof record_size_eq as Es.
  unfold LogHeader.size, LogFooter.size in *. unfold validate_journal_item, LogHeader.size, LogFooter.size.
  rewrite !length_app. rewrite u64_id by lia.
  rewrite (proj2 (Z.ltb_ge _ _)) by lia.
  assert (r = LogHeader.encode h ++ drop 45 r) as Er by (rewrite <- Hh; by rewrite take_drop).
  assert (LogHeader.decode (LogHeader.encode h) = h) as Ed
    by (rewrite <- (app_nil_r (LogHeader.encode h)); apply log_header_roundtrip, W).
  assert (slice (pre ++ r ++ post) (zlen pre) 45 = Some (LogHeader.encode h)) as ->.
  { rewrite Er, <- (assoc_L (++)). apply slice_mid; [done|]. by rewrite length_log_header by apply W. }
  cbn [mbind option_bind]. rewrite Ed, (ew_magic _ _ _ _ W), Ho, !Z.eqb_refl. cbn [negb].
  rewrite u64_id by lia. rewrite (proj2 (Z.ltb_ge _ _)) by lia.
  set (k := Z.to_nat (45 + record_size h)).
  assert (slice (pre ++ r ++ post) (zlen pre + 45 + record_size h) 8 = Some (drop k r)) as ->.
  { rewrite <- (take_drop k r) at 1. rewrite <- (assoc_L (++)), (assoc_L (++)).
    apply slice_mid; rewrite ?length_app, ?length_take, ?length_drop; lia. }
  cbn [mbind option_bind]. destruct (LogFooter.magic _ =? FOOTER_MAGIC); [|done]. cbn [negb andb].
  rewrite (slice_mid pre r post) by lia. done.
Qed.

Lemma validate_record pre post :
  LogHeader.offset h = zlen pre -> zlen (pre ++ journal_record h d1 d2 d3 ++ post) < 2 ^ 63 ->
  validate_journal_item (pre ++ journal_record h d1 d2 d3 ++ post) (zlen pre) = Some true.
Proof.
  intros Ho Hl. pose proof length_journal_record as Hlen.
  rewrite validate_at; [|done|done| |done].
  - rewrite journal_record_body at 2. rewrite crc32c_residue; [|unfold BLUESKY_CRC32C_SEED; lia|apply record_body_bytes].
    rewrite Z.eqb_refl, andb_true_r. f_equal. apply Z.eqb_eq. unfold LogFooter.magic.
    rewrite journal_record_body. unfold record_body. rewrite !(assoc_L (++)), <- (assoc_L (++) _ (le_bytes 4 FOOTER_MAGIC)).
    rewrite drop_app_length'; [rewrite take_le_bytes; done|].
    pose proof record_size_eq. pose proof (length_log_header h (LogHeaderWf.id _ (ew_header _ _ _ _ W))).
    unfold LogHeader.size in *. rewrite !length_app. lia.
  - unfold journal_record. rewrite take_app_length'; [done|].
    pose proof (length_log_header h (LogHeaderWf.id _ (ew_header _ _ _ _ W))). unfold LogHeader.size in *. lia.
Qed.
End entry.

(** ** Memory safety *)

(** A valid item lies inside the buffer. *)
Lemma validate_total buf offset :
  0 <= offset < 2 ^ 63 -> zlen buf < 2 ^ 62 ->
  exists ok, validate_journal_item buf offset = Some ok /\ (ok = true -> exists h,
    slice buf offset LogHeader.size = Some h /\
    offset + LogHeader.size + record_size (LogHeader.decode h) + LogFooter.size <= zlen buf).
Proof.
  intros Ho Hl. unfold validate_journal_item, LogHeader.size, LogFooter.size.
  rewrite u64_id by lia. destruct (Z.ltb_spec (zlen buf) (offset + 45 + 8)); [by exists false|].
  destruct (slice_is_Some buf offset 45) as [h Hh]; [lia..|]. rewrite Hh. cbn [mbind option_bind].
  destruct (negb _); [by exists false|]. destruct (negb _); [by exists false|].
  pose proof (u32_range (LogHeader.size1 (LogHeader.decode h) + LogHeader.size2 (LogHeader.decode h)
    + LogHeader.size3 (LogHeader.decode h))) as Hu. fold (record_size (LogHeader.decode h)) in Hu.
  rewrite u64_id by lia. destruct (Z.ltb_spec (zlen buf) (offset + 45 + record_size (LogHeader.decode h) + 8));
    [by exists false|].
  destruct (slice_is_Some buf (offset + 45 + record_size (LogHeader.decode h)) 8) as [f ->]; [lia..|].
  cbn [mbind option_bind]. destruct (negb _); [by exists false|].
  destruct (slice_is_Some buf offset (45 + 8 + record_size (LogHeader.decode h))) as [r ->]; [lia..|].
  eexists. split; [done|]. intros _. exists h. split; [done|lia].
Qed.

Lemma replay_scan_total fuel buf offset point :
  0 <= offset <= zlen buf -> zlen buf < 2 ^ 62 -> zlen buf < offset + 53 * Z.of_nat fuel ->
  is_Some (bluesky_replay_scan_journal fuel buf offset point).
Proof.
  revert offset point. induction fuel as [|fuel IH]; intros offset point Ho Hl Hf; simpl; [lia|].
  destruct (validate_total buf offset) as (ok & -> & Hok); [lia|done|]. cbn [mbind option_bind].
  destruct ok; cbn [negb]; [|eauto]. destruct (Hok eq_refl) as (h & -> & Hb). cbn [mbind option_bind].
  pose proof (u32_range (LogHeader.size1 (LogHeader.decode h) + LogHeader.size2 (LogHeader.decode h)
    + LogHeader.size3 (LogHeader.decode h))) as Hu. fold (record_size (LogHeader.decode h)) in Hu.
  unfold LogHeader.size, LogFooter.size in *.
  destruct (_ =? LOGTYPE_JOURNAL_CHECKPOINT); cbn [mbind option_bind]; [|apply IH; lia].
  destruct (slice_is_Some buf (offset + 45) 4) as [d0 ->]; [lia..|]. cbn [mbind option_bind].
  destruct (slice_is_Some buf (offset + 45 + 4) 4) as [d1 ->]; [lia..|]. cbn [mbind option_bind].
  apply IH; lia.
Qed.

(** ** Damaged records are rejected *)

(** No header magic, no item. *)
Lemma validate_no_magic pre x post :
  zlen (pre ++ x ++ post) < 2 ^ 62 -> length x = 4%nat -> le_val x <> HEADER_MAGIC ->
  validate_journal_item (pre ++ x ++ post) (zlen pre) = Some false.
Proof.
  intros Hl Hx Hm. rewrite !length_app in Hl. unfold validate_journal_item, LogHeader.size, LogFooter.size.
  rewrite u64_id by lia. destruct (Z.ltb_spec (zlen (pre ++ x ++ post)) (zlen pre + 45 + 8)) as [|Hle]; [done|].
  rewrite !length_app in Hle.
  assert (slice (pre ++ x ++ post) (zlen pre) 45 = Some (x ++ take 41 post)) as ->.
  { rewrite <- (take_drop 41 post) at 1. rewrite (assoc_L (++) x). apply slice_mid; [done|].
    rewrite length_app, length_take. lia. }
  cbn [mbind option_bind]. unfold LogHeader.decode at 1. cbn [LogHeader.magic].
  rewrite take_app_length' by done. by rewrite (proj2 (Z.eqb_neq _ _) Hm).
Qed.

Section damage.
Context (h : LogHeader.t) (d1 d2 d3 : bytes) (W : entry_wf h d1 d2 d3).

(** Up to four adjacent bytes after the header are different. *)
Lemma validate_burst pre p x y q post :
  LogHeader.offset h = zlen pre -> journal_record h d1 d2 d3 = p ++ x ++ q ->
  45 <= zlen p -> length x = length y -> (length x <= 4)%nat -> x <> y -> are_bytes y ->
  zlen (pre ++ (p ++ y ++ q) ++ post) < 2 ^ 63 ->
  validate_journal_item (pre ++ (p ++ y ++ q) ++ post) (zlen pre) = Some false.
Proof.
  intros Ho Er Hp Hxy H4 Hne Hy Hl.
  pose proof (length_journal_record h d1 d2 d3 W) as Hlen. rewrite Er, !length_app in Hlen.
  pose proof (journal_record_bytes h d1 d2 d3 W) as Hb. rewrite Er, !Forall_app in Hb. destruct Hb as (Hbp & Hbx & Hbq).
  rewrite (validate_at h d1 d2 d3 W); [|done|rewrite !length_app; lia| |done].
  - f_equal. apply andb_false_iff. right. apply Z.eqb_neq. intros E.
    eapply (crc32c_detects_bursts BLUESKY_CRC32C_SEED p x y q); try done.
    rewrite E, <- Er, journal_record_body. apply crc32c_residue; [unfold BLUESKY_CRC32C_SEED; lia|].
    by apply record_body_bytes.
  - assert (take 45 (p ++ y ++ q) = take 45 (p ++ x ++ q)) as -> by (rewrite !take_app_le by lia; done).
    rewrite <- Er. unfold journal_record. apply take_app_length'.
    pose proof (length_log_header h (LogHeaderWf.id _ (ew_header _ _ _ _ W))). unfold LogHeader.size in *. lia.
Qed.

(** A header cut short: the footer would lie among zeros. *)
Lemma validate_zero_tail pre a n :
  zlen a <= 45 -> zlen (pre ++ a ++ replicate n 0) < 2 ^ 62 ->
  validate_journal_item (pre ++ a ++ replicate n 0) (zlen pre) = Some false.
Proof.
  intros Ha Hl. set (buf := pre ++ a ++ replicate n 0) in *.
  unfold validate_journal_item, LogHeader.size, LogFooter.size. rewrite u64_id by (unfold buf in Hl; rewrite length_app in Hl; lia).
  destruct (Z.ltb_spec (zlen buf) (zlen pre + 45 + 8)) as [|Hle]; [done|].
  destruct (slice_is_Some buf (zlen pre) 45) as [hb ->]; [lia..|]. cbn [mbind option_bind].
  destruct (negb _); [done|]. destruct (negb _); [done|].
  pose proof (u32_range (LogHeader.size1 (LogHeader.decode hb) + LogHeader.size2 (LogHeader.decode hb)
    + LogHeader.size3 (LogHeader.decode hb))) as Hu. fold (record_size (LogHeader.decode hb)) in Hu.
  set (z := record_size _) in *. rewrite u64_id by lia.
  destruct (Z.ltb_spec (zlen buf) (zlen pre + 45 + z + 8)) as [|Hle2]; [done|].
  assert (slice buf (zlen pre + 45 + z) 8 = Some (replicate 8 0)) as ->; [|done].
  unfold buf in *. rewrite !length_app, length_replicate in *. rewrite !slice_skip by lia.
  unfold slice. rewrite length_replicate.
  rewrite (proj2 (Z.leb_le _ _)), (proj2 (Z.leb_le _ _)), (proj2 (Z.leb_le _ _)) by lia. simpl andb. cbv iota.
  rewrite drop_replicate, take_replicate. f_equal. f_equal. lia.
Qed.

(** A record of which only the first [k] bytes reached the disk, in a file that
    was filled with zeros before. *)
Lemma validate_torn pre k n :
  let r := journal_record h d1 d2 d3 in
  LogHeader.offset h = zlen pre -> (length r - k <= n)%nat ->
  zlen (pre ++ take k r ++ replicate n 0) < 2 ^ 62 ->
  take k r ++ replicate (length r - k) 0 <> r ->
  validate_journal_item (pre ++ take k r ++ replicate n 0) (zlen pre) = Some false.
Proof.
  intros r Ho Hn Hl Hne. pose proof (length_journal_record h d1 d2 d3 W) as Hlen. fold r in Hlen.
  pose proof (journal_record_bytes h d1 d2 d3 W) as Hbytes. fold r in Hbytes.
  assert (Hk : (k < length r)%nat).
  { destruct (decide (k < length r)%nat); [done|]. exfalso. apply Hne.
    rewrite take_ge by lia. replace (length r - k)%nat with 0%nat by lia. apply app_nil_r. }
  destruct (decide (zlen (take k r) <= 45)) as [Hs|Hs]; [by apply validate_zero_tail|].
  rewrite length_take in Hs. unfold LogHeader.size, LogFooter.size in Hlen.
  pose proof (record_size_eq h d1 d2 d3 W) as Hsz.
  set (r' := take k r ++ replicate (length r - k) 0) in *.
  assert (Er' : take k r ++ replicate n 0 = r' ++ replicate (n - (length r - k)) 0).
  { unfold r'. rewrite <- (assoc_L (++)), <- replicate_add. f_equal. f_equal. lia. }
  rewrite Er' in *.
  assert (Hr' : length r' = length r) by (unfold r'; rewrite length_app, length_take, length_replicate; lia).
  destruct (decide (k <= Z.to_nat (45 + record_size h) + 3)%nat) as [Hc|Hc].
  - rewrite (validate_at h d1 d2 d3 W); [|done|unfold LogHeader.size, LogFooter.size; lia| |lia].
    + f_equal. apply andb_false_iff. left. apply Z.eqb_neq. unfold LogFooter.magic, LogHeader.size. intros E.
      set (f := take 4 _) in E. assert (Hf : length f = 4%nat).
      { unfold f. rewrite length_take, length_drop. lia. }
      assert (f !! 3%nat = Some 0).
      { unfold f. rewrite lookup_take_lt, lookup_drop by lia. unfold r'.
        rewrite lookup_app_r by (rewrite length_take; lia). rewrite lookup_replicate_2; [done|].
        rewrite length_take. lia. }
      assert (are_bytes f) as Hbf.
      { unfold f, r'. apply Forall_take, Forall_drop, Forall_app. split; [by apply Forall_take|].
        apply Forall_replicate. unfold is_byte; lia. }
      pose proof (le_bytes_le_val f Hbf) as Ef. rewrite E, Hf in Ef. rewrite <- Ef in H. done.
    + unfold r'. rewrite take_app_le by (rewrite length_take; lia).
      rewrite take_take. replace (45 `min` k)%nat with 45%nat by lia.
      unfold r, journal_record. apply take_app_length'.
      pose proof (length_log_header h (LogHeaderWf.id _ (ew_header _ _ _ _ W))). unfold LogHeader.size in *. lia.
  - pose proof (length_record_body h d1 d2 d3 W) as Hlb. unfold LogHeader.size in Hlb.
    set (b := record_body h d1 d2 d3) in *. set (x := le_bytes 4 (crc32c_finalize (crc32c BLUESKY_CRC32C_SEED b))).
    assert (Er : r = b ++ x) by apply journal_record_body.
    set (j := (k - length b)%nat).
    assert (Ey : r' = b ++ (take j x ++ replicate (4 - j) 0) ++ []).
    { unfold r'. rewrite Er. rewrite take_app_ge by lia. fold j. rewrite app_nil_r, <- (assoc_L (++)).
      f_equal. f_equal. f_equal. rewrite length_app. unfold x. rewrite length_le_bytes. unfold j. lia. }
    assert (Hj : (j < 4)%nat).
    { unfold j. rewrite Er, length_app in Hk. unfold x in Hk. rewrite length_le_bytes in Hk. lia. }
    rewrite Ey in *. eapply (validate_burst pre b x _ []); [done| | | | | | |].
    + rewrite app_nil_r. exact Er.
    + lia.
    + unfold x. rewrite length_app, length_take, length_replicate, length_le_bytes. lia.
    + unfold x. by rewrite length_le_bytes.
    + intros Ex. apply Hne. rewrite app_nil_r, Er. by rewrite Ex at 2.
    + apply Forall_app. split; [apply Forall_take, le_bytes_are_bytes|].
      apply Forall_replicate. unfold is_byte; lia.
    + lia.
Qed.
End damage.

(** ** Scanning a journal file *)

Module Entry.
Record t := mk {
  header : LogHeader.t;
  data1 : bytes;
  data2 : bytes;
  data3 : bytes;
}.
Definition record (e : t) : bytes := journal_record (header e) (data1 e) (data2 e) (data3 e).
Definition is_checkpoint (e : t) : bool :=
  LogHeader.type (header e) - 48 =? LOGTYPE_JOURNAL_CHECKPOINT.
Record wf (off : Z) (e : t) : Prop := {
  wf_entry : entry_wf (header e) (data1 e) (data2 e) (data3 e);
  wf_offset : LogHeader.offset (header e) = off;
  wf_point : is_checkpoint e = true -> length (data1 e) = 8%nat;
}.
End Entry.

(** Records written one after the other from offset [off]. *)
Fixpoint entries_wf (off : Z) (es : list Entry.t) : Prop :=
  match es with
  | [] => True
  | e :: es => Entry.wf off e /\ entries_wf (off + zlen (Entry.record e)) es
  end.
Definition journal_file (es : list Entry.t) : bytes := es ≫= Entry.record.

Lemma journal_file_cons e es : journal_file (e :: es) = Entry.record e ++ journal_file es.
Proof. apply bind_cons. Qed.

Lemma journal_file_app es1 es2 : journal_file (es1 ++ es2) = journal_file es1 ++ journal_file es2.
Proof. apply bind_app. Qed.

Lemma journal_file_snoc es e : journal_file (es ++ [e]) = journal_file es ++ Entry.record e.
Proof. rewrite journal_file_app, journal_file_cons. f_equal. apply app_nil_r. Qed.

(** The last commit point recorded. *)
Fixpoint commit_point (point : Z * Z) (es : list Entry.t) : Z * Z :=
  match es with
  | [] => point
  | e :: es =>
    commit_point (if Entry.is_checkpoint e
                  then (le_val (take 4 (Entry.data1 e)), le_val (take 4 (drop 4 (Entry.data1 e))))
                  else point) es
  end.

Lemma entries_wf_app off es1 es2 :
  entries_wf off (es1 ++ es2) <-> entries_wf off es1 /\ entries_wf (off + zlen (journal_file es1)) es2.
Proof.
  revert off. induction es1 as [|e es1 IH]; intros off.
  - simpl. rewrite Z.add_0_r. tauto.
  - rewrite <- app_comm_cons, journal_file_cons, length_app, Nat2Z.inj_add, Z.add_assoc. simpl.
    rewrite IH. tauto.
Qed.

Lemma commit_point_app point es1 es2 :
  commit_point point (es1 ++ es2) = commit_point (commit_point point es1) es2.
Proof. revert point. induction es1 as [|e es1 IH]; intros point; simpl; [done|]. apply IH. Qed.

(** Every record takes some bytes. *)
Lemma length_entries off es : entries_wf off es -> (length es <= length (journal_file es))%nat.
Proof.
  revert off. induction es as [|e es IH]; intros off; [simpl; lia|]. intros [[W _ _] Hw].
  rewrite journal_file_cons, length_app. specialize (IH _ Hw).
  pose proof (length_journal_record _ _ _ _ W) as Hl. rewrite (record_size_eq _ _ _ _ W) in Hl.
  unfold Entry.record, LogHeader.size, LogFooter.size in *. simpl length at 1. lia.
Qed.

(** The scan goes over an entry in one step. *)
Lemma scan_entry fuel pre e post point :
  Entry.wf (zlen pre) e -> zlen (pre ++ Entry.record e ++ post) < 2 ^ 62 ->
  bluesky_replay_scan_journal (S fuel) (pre ++ Entry.record e ++ post) (zlen pre) point
  = bluesky_replay_scan_journal fuel (pre ++ Entry.record e ++ post)
      (zlen (pre ++ Entry.record e)) (commit_point point [e]).
Proof.
  intros [W Ho Hp] Hl. cbn [bluesky_replay_scan_journal]. unfold Entry.record in *.
  set (h := Entry.header e) in *. set (d1 := Entry.data1 e) in *. set (d2 := Entry.data2 e) in *.
  set (d3 := Entry.data3 e) in *.
  rewrite (validate_record h d1 d2 d3 W) by (done || lia). cbn [mbind option_bind negb].
  pose proof (length_log_header h (LogHeaderWf.id _ (ew_header _ _ _ _ W))) as Hlh.
  pose proof (length_journal_record h d1 d2 d3 W) as Hlr.
  set (buf := pre ++ journal_record h d1 d2 d3 ++ post) in *.
  assert (Eb : exists rest, buf = pre ++ LogHeader.encode h ++ d1 ++ rest).
  { unfold buf, journal_record. rewrite <- !(assoc_L (++)). eexists. done. }
  destruct Eb as [rest Eb].
  assert (slice buf (zlen pre) LogHeader.size = Some (LogHeader.encode h)) as ->
    by (rewrite Eb; by apply slice_mid).
  cbn [mbind option_bind].
  assert (LogHeader.decode (LogHeader.encode h) = h) as ->
    by (rewrite <- (app_nil_r (LogHeader.encode h)); apply log_header_roundtrip, W).
  replace (zlen (pre ++ journal_record h d1 d2 d3)) with (zlen pre + LogHeader.size + record_size h + LogFooter.size)
    by (rewrite length_app; lia).
  cbn [commit_point]. unfold Entry.is_checkpoint in *. fold h in Hp |- *. fold d1.
  destruct (_ =? LOGTYPE_JOURNAL_CHECKPOINT); [|done]. specialize (Hp eq_refl).
  assert (slice buf (zlen pre + LogHeader.size) 4 = Some (take 4 d1)) as ->.
  { rewrite Eb, !slice_skip by (unfold LogHeader.size in *; lia).
    match goal with |- slice _ ?o _ = _ => replace o with 0 by lia end.
    rewrite <- (take_drop 4 d1) at 1. rewrite <- (assoc_L (++)). apply slice_head.
    rewrite length_take. lia. }
  assert (slice buf (zlen pre + LogHeader.size + 4) 4 = Some (take 4 (drop 4 d1))) as ->; [|done].
  rewrite Eb, !slice_skip by (unfold LogHeader.size in *; lia).
  rewrite <- (take_drop 4 d1) at 1. rewrite <- (assoc_L (++)).
  rewrite slice_skip by (rewrite length_take; lia). rewrite length_take.
  match goal with |- slice _ ?o _ = _ => replace o with 0 by lia end.
  rewrite (take_ge (drop 4 d1)) by (rewrite length_drop; lia). apply slice_head. rewrite length_drop. lia.
Qed.

Lemma scan_entries es fuel pre post point :
  entries_wf (zlen pre) es -> (length es < fuel)%nat ->
  zlen (pre ++ journal_file es ++ post) < 2 ^ 62 ->
  validate_journal_item (pre ++ journal_file es ++ post) (zlen (pre ++ journal_file es)) = Some false ->
  bluesky_replay_scan_journal fuel (pre ++ journal_file es ++ post) (zlen pre) point
  = Some (commit_point point es).
Proof.
  revert fuel pre point. induction es as [|e es IH]; intros fuel pre point Hw Hf Hl Hv;
    (destruct fuel as [|fuel]; [simpl in Hf; lia|]).
  { cbn [bluesky_replay_scan_journal]. change (journal_file []) with ([] : bytes) in *.
    rewrite app_nil_r in Hv. by rewrite Hv. }
  destruct Hw as [We Hw]. rewrite journal_file_cons, <- (assoc_L (++)) in *.
  rewrite scan_entry by done. rewrite !(assoc_L (++) pre) in *. apply IH; [|simpl in Hf; lia|done|done].
  by rewrite length_app, Nat2Z.inj_add.
Qed.

(** The whole file. *)
Lemma scan_file es post fuel point :
  entries_wf 0 es -> (length es < fuel)%nat -> zlen (journal_file es ++ post) < 2 ^ 62 ->
  validate_journal_item (journal_file es ++ post) (zlen (journal_file es)) = Some false ->
  bluesky_replay_scan_journal fuel (journal_file es ++ post) 0 point = Some (commit_point point es).
Proof. exact (scan_entries es fuel [] post point). Qed.

(** C39: the scan of a journal file for the last commit point reads no byte outside
    the file, whatever the file holds, and ends. *)
Theorem journal_scan_in_bounds buf point :
  zlen buf < 2 ^ 62 ->
  is_Some (bluesky_replay_scan_journal (S (length buf)) buf 0 point).
Proof. intros Hl. apply replay_scan_total; [lia|done|lia]. Qed.

(** The next record is complete, followed by zeros. *)
Lemma scan_then_zeros es m fuel point :
  entries_wf 0 es -> (length es < fuel)%nat -> zlen (journal_file es ++ replicate m 0) < 2 ^ 62 ->
  bluesky_replay_scan_journal fuel (journal_file es ++ replicate m 0) 0 point
  = Some (commit_point point es).
Proof.
  intros Hw Hf Hl. apply scan_file; [done|done|done|].
  apply (validate_zero_tail (journal_file es) []); [simpl; lia|done].
Qed.

(** The next record is not complete. *)
Lemma scan_then_torn es e k n fuel point :
  entries_wf 0 (es ++ [e]) -> (length es < fuel)%nat -> (length (Entry.record e) - k <= n)%nat ->
  zlen (journal_file es ++ take k (Entry.record e) ++ replicate n 0) < 2 ^ 62 ->
  take k (Entry.record e) ++ replicate (length (Entry.record e) - k) 0 <> Entry.record e ->
  bluesky_replay_scan_journal fuel (journal_file es ++ take k (Entry.record e) ++ replicate n 0) 0 point
  = Some (commit_point point es).
Proof.
  intros Hw Hf Hn Hl Hne. apply entries_wf_app in Hw as [Hes [[W Ho _] _]].
  apply scan_file; [done|done|done|]. rewrite Z.add_0_l in Ho.
  apply (validate_torn _ _ _ _ W); [exact Ho|exact Hn|exact Hl|exact Hne].
Qed.

(** C12: after any number of complete records, if only a prefix of the next record
    has reached the disk in a file filled with zeros (a crash while [log_thread]
    was writing), the scan finds the commit point of the complete records and
    ignores the rest, unless the bytes that are missing are zeros, so that the
    record is complete after all. *)
Theorem journal_crash_recovery es e k n point :
  entries_wf 0 (es ++ [e]) -> (length (Entry.record e) - k <= n)%nat ->
  let buf := journal_file es ++ take k (Entry.record e) ++ replicate n 0 in
  zlen buf < 2 ^ 62 ->
  let r := bluesky_replay_scan_journal (S (length buf)) buf 0 point in
  r = Some (commit_point point es) \/
  (take k (Entry.record e) ++ replicate (length (Entry.record e) - k) 0 = Entry.record e /\
   r = Some (commit_point point (es ++ [e]))).
Proof.
  intros Hw Hn buf Hl r.
  destruct (decide (take k (Entry.record e) ++ replicate (length (Entry.record e) - k) 0 = Entry.record e)) as [E|Hne].
  - right. split; [done|].
    assert (Eb : buf = journal_file (es ++ [e]) ++ replicate (n - (length (Entry.record e) - k)) 0).
    { unfold buf. rewrite journal_file_snoc. rewrite <- E at 2.
      rewrite <- !(assoc_L (++)), <- replicate_add. do 3 f_equal. lia. }
    unfold r. clearbody buf. subst buf. pose proof (length_entries _ _ Hw).
    apply scan_then_zeros; [done| |done]. rewrite (length_app (journal_file _)). lia.
  - left. apply entries_wf_app in Hw as Hw'. destruct Hw' as [Hes _]. pose proof (length_entries _ _ Hes).
    apply scan_then_torn; [done| |done|done|done]. unfold buf. rewrite length_app. lia.
Qed.

(** C38: a journal record of which up to four adjacent bytes after the header were
    changed is rejected, whatever surrounds it in the file. *)
Theorem journal_damage_rejected h d1 d2 d3 pre p x y q post :
  entry_wf h d1 d2 d3 -> LogHeader.offset h = zlen pre ->
  journal_record h d1 d2 d3 = p ++ x ++ q -> LogHeader.size <= zlen p ->
  length x = length y -> (length x <= 4)%nat -> x <> y -> are_bytes y ->
  zlen (pre ++ (p ++ y ++ q) ++ post) < 2 ^ 62 ->
  validate_journal_item (pre ++ (p ++ x ++ q) ++ post) (zlen pre) = Some true /\
  validate_journal_item (pre ++ (p ++ y ++ q) ++ post) (zlen pre) = Some false.
Proof.
  intros W Ho Er Hp Hxy H4 Hne Hy Hl. split.
  - rewrite <- Er. apply validate_record; [done|done|]. rewrite Er.
    rewrite !length_app in *. lia.
  - eapply (validate_burst h d1 d2 d3 W); try done. lia.
Qed.

(** A negative offset, which a commit point of 2^31 or more becomes, is not
    stopped by the check of the bounds. *)
Example validate_negative_offset : validate_journal_item (replicate 60 0) (-1) = None.
Proof. reflexivity. Qed.

(** ** Instances *)

Definition sample_header (type off size1 : Z) : LogHeader.t :=
  LogHeader.mk HEADER_MAGIC type off size1 0 0 2 (replicate 16 7).
Definition sample_entry (type off : Z) (data : bytes) : Entry.t :=
  Entry.mk (sample_header type off (zlen data)) data [] [].

Lemma sample_entry_wf type off data :
  0 <= type < 256 -> 0 <= off < 2 ^ 32 -> zlen data < 2 ^ 32 -> are_bytes data ->
  (type = 65 -> length data = 8%nat) -> Entry.wf off (sample_entry type off data).
Proof.
  intros Ht Ho Hd Hb Hp. split; [split|done|]; simpl; try done; try lia.
  - split; simpl; unfold is_u; try lia; done.
  - repeat constructor; lia.
  - unfold Entry.is_checkpoint, LOGTYPE_JOURNAL_CHECKPOINT. simpl. intros E%Z.eqb_eq. apply Hp. lia.
Qed.

Lemma journal_scan_in_bounds_witness :
  is_Some (bluesky_replay_scan_journal 61 (replicate 60 7) 0 (0, 0)).
Proof. apply (journal_scan_in_bounds (replicate 60 7)). simpl. lia. Defined.

(** A commit point, then a data record cut after fifty bytes. *)
Lemma journal_crash_recovery_witness :
  let es := [sample_entry 65 0 [3; 0; 0; 0; 9; 0; 0; 0]] in
  let e := sample_entry 49 61 [1; 2; 3] in
  let buf := journal_file es ++ take 50 (Entry.record e) ++ replicate 100 0 in
  bluesky_replay_scan_journal (S (length buf)) buf 0 (0, 0) = Some (3, 9) \/
  take 50 (Entry.record e) ++ replicate (length (Entry.record e) - 50) 0 = Entry.record e.
Proof.
  intros es e buf.
  destruct (journal_crash_recovery es e 50 100 (0, 0)) as [H|[H _]].
  - split; [|split; [|exact I]].
    + apply sample_entry_wf; try (simpl; lia). repeat constructor; lia.
    + replace (0 + _) with 61 by (vm_compute; reflexivity).
      apply sample_entry_wf; try (simpl; lia). repeat constructor; lia.
  - vm_compute. lia.
  - by vm_compute.
  - left. exact H.
  - right. exact H.
Defined.

Lemma journal_damage_rejected_witness :
  let r := Entry.record (sample_entry 49 0 [1; 2; 3]) in
  validate_journal_item r 0 = Some true /\
  validate_journal_item (take 46 r ++ [9] ++ drop 47 r) 0 = Some false.
Proof.
  intros r.
  destruct (journal_damage_rejected (sample_header 49 0 3) [1; 2; 3] [] [] [] (take 46 r) [2] [9] (drop 47 r) [])
    as [H1 H2].
  - apply (sample_entry_wf 49 0 [1; 2; 3]); try (simpl; lia). repeat constructor; lia.
  - reflexivity.
  - vm_compute. reflexivity.
  - vm_compute. congruence.
  - reflexivity.
  - simpl. lia.
  - congruence.
  - repeat constructor; lia.
  - vm_compute. reflexivity.
  - split; [|rewrite app_nil_r in H2; exact H2].
    replace r with ([] ++ (take 46 r ++ [2] ++ drop 47 r) ++ []) by (vm_compute; reflexivity). exact H1.
Defined.
