(* ===== verification/Crypto.v ===== *)
(** * Encryption and authentication of the cloud log (src/bluesky/crypto.c,
    [bluesky_cloudlog_encrypt] and [bluesky_cloudlog_decrypt] of
    src/bluesky/cloudlog.c)

    The items of a cloud log segment are encrypted and authenticated one by one.
    The ciphers and hashes of libgcrypt and GLib are parameters with their
    documented laws. *)

From S2P Require Import Prelude Glib Rangeset State Strings Ownership CloudLog Inodes Fetch Imap Serialize Roundtrip RoundtripItem.
From Stdlib Require Import ZArith Lia.
From stdpp Require Import base numbers gmap option list.

Open Scope Z_scope.

Definition CRYPTO_BLOCK_SIZE : Z := 16.
Definition CRYPTO_KEY_SIZE : Z := 16.
Definition CRYPTO_HASH_SIZE : Z := 32.
Definition CLOUDLOG_MAGIC_ENCRYPTED : bytes := [65; 103; 73; 61].

Module CryptKeys.
Record t := mk {
  encryption_key : bytes;
  authentication_key : bytes;
}.
End CryptKeys.

(** The digests and AES in counter mode. *)
Class Gcrypt := {
  sha256 : bytes -> bytes;
  hmac_sha256 : bytes -> bytes -> bytes;
  aes_ctr_encrypt : bytes -> bytes -> bytes -> bytes;
  aes_ctr_decrypt : bytes -> bytes -> bytes -> bytes;
  hmac_length : forall key m, length (hmac_sha256 key m) = 32%nat;
  aes_ctr_length : forall key iv m, length (aes_ctr_encrypt key iv m) = length m;
  aes_ctr_inverse : forall key iv m, aes_ctr_decrypt key iv (aes_ctr_encrypt key iv m) = m;
}.

(** A stand-in with these laws: a fixed mask and a padded copy. *)
#[export] Instance mask_gcrypt : Gcrypt | 100.
Proof.
  refine {| sha256 := fun m => take 32 (m ++ replicate 32 0);
            hmac_sha256 := fun key m => take 32 (m ++ key ++ replicate 32 0);
            aes_ctr_encrypt := fun _ _ m => Z.lxor 0x5A <$> m;
            aes_ctr_decrypt := fun _ _ m => Z.lxor 0x5A <$> m |}.
  - intros. rewrite length_take, !length_app, length_replicate. lia.
  - intros. apply length_fmap.
  - intros. rewrite <- list_fmap_compose. rewrite <- (list_fmap_id m) at 2.
    apply list_fmap_ext. intros i x _. simpl. by rewrite <- Z.lxor_assoc.
Defined.

Section crypto.
Context `{GSequenceLib} `{Env} `{Gcrypt}.

Definition bluesky_crypt_hash_key (keystr : bytes) : bytes :=
  take (Z.to_nat CRYPTO_KEY_SIZE) (sha256 keystr).

Definition bluesky_crypt_hmac (buf key : bytes) : bytes := hmac_sha256 key buf.

(** The master key is a C string of which 32 bytes are used. *)
Definition bluesky_crypt_derive_keys (master : bytes) : M State CryptKeys.t :=
  key ← assume OutOfBounds (slice (master ++ [0]) 0 CRYPTO_HASH_SIZE);
  let outbuf := bluesky_crypt_hmac [69; 78; 67; 82; 89; 80; 84] key in
  let encryption_key := take (Z.to_nat CRYPTO_KEY_SIZE) outbuf in
  let outbuf := bluesky_crypt_hmac [65; 85; 84; 72] key in
  mret (CryptKeys.mk encryption_key outbuf).

Definition bluesky_crypt_block_needs_encryption (type : Z) : bool :=
  let type := u8 (type - 48) in
  if (type =? LOGTYPE_DATA) || (type =? LOGTYPE_INODE) then true
  else if (type =? LOGTYPE_INODE_MAP) || (type =? LOGTYPE_CHECKPOINT) then false
  else true.

(** [header->magic[3] ^= 0x10]. *)
Definition flip_magic (block : bytes) : bytes := alter (fun b => Z.lxor b 0x10) 3%nat block.

(** The bytes that are authenticated: from the initialisation vector to the end,
    without the writable part. *)
Definition authenticated (block : bytes) (size3 : Z) : option bytes :=
  slice block 36 (zlen block - 36 - size3).

Definition bluesky_crypt_block_encrypt (keys : CryptKeys.t) (block : bytes) : M State bytes :=
  if Options.disable_crypto bluesky_options then mret block else
  header ← assume OutOfBounds (CloudLogHeader.decode <$> slice block 0 CloudLogHeader.size);
  check Assertion (bool_decide (CloudLogHeader.magic header = CLOUDLOG_MAGIC));;
  block ←
    (if bluesky_crypt_block_needs_encryption (CloudLogHeader.type header) then
       let block := flip_magic block in
       iv ← bluesky_crypt_random_bytes 16;
       let block := write_at block 36 iv in
       m ← assume OutOfBounds (slice block CloudLogHeader.size (CloudLogHeader.size1 header));
       mret (write_at block 89 (aes_ctr_encrypt (CryptKeys.encryption_key keys) iv m))
     else mret (write_at block 36 (replicate 16 0)));
  a ← assume OutOfBounds (authenticated block (CloudLogHeader.size3 header));
  mret (write_at block 4 (bluesky_crypt_hmac a (CryptKeys.authentication_key keys))).

Definition bluesky_crypt_block_decrypt (keys : CryptKeys.t) (block : bytes) (allow_unauth : bool)
    : M State (bool * bytes) :=
  header ← assume OutOfBounds (CloudLogHeader.decode <$> slice block 0 CloudLogHeader.size);
  let encrypted := negb (bool_decide (CloudLogHeader.magic header = CLOUDLOG_MAGIC)) in
  when encrypted
    (check Assertion (bool_decide (CloudLogHeader.magic header = CLOUDLOG_MAGIC_ENCRYPTED)));;
  if Options.disable_crypto bluesky_options then
    check Assertion (negb encrypted);; mret (true, block)
  else
  a ← assume OutOfBounds (authenticated block (CloudLogHeader.size3 header));
  let hmac_check := bluesky_crypt_hmac a (CryptKeys.authentication_key keys) in
  if negb (bool_decide (hmac_check = CloudLogHeader.crypt_auth header))
     && negb (allow_unauth
              && ((CloudLogHeader.type header =? LOGTYPE_INODE_MAP + 48)
                  || (CloudLogHeader.type header =? LOGTYPE_CHECKPOINT + 48)))
  then mret (false, block)
  else if encrypted then
    m ← assume OutOfBounds (slice block CloudLogHeader.size (CloudLogHeader.size1 header));
    let block := write_at block 89
      (aes_ctr_decrypt (CryptKeys.encryption_key keys) (CloudLogHeader.crypt_iv header) m) in
    mret (true, write_at (flip_magic block) 36 (replicate 16 0))
  else mret (true, block).

(** The size of the item at the start of a buffer. *)
Definition cloud_item_size (data : bytes) : Z :=
  let header := CloudLogHeader.decode data in
  CloudLogHeader.size + CloudLogHeader.size1 header + CloudLogHeader.size2 header
  + CloudLogHeader.size3 header.

(** The loops over the items of a segment; every item takes at least 89 bytes. *)
Fixpoint cloudlog_encrypt_loop (fuel : nat) (keys : CryptKeys.t) (data : bytes) : M State bytes :=
  match fuel with
  | O => stop OutOfFuel
  | S fuel =>
    if zlen data <? CloudLogHeader.size then mret data else
    let item_size := cloud_item_size data in
    if zlen data <? item_size then mret data else
    block ← bluesky_crypt_block_encrypt keys (take (Z.to_nat item_size) data);
    rest ← cloudlog_encrypt_loop fuel keys (drop (Z.to_nat item_size) data);
    mret (block ++ rest)
  end.

Definition bluesky_cloudlog_encrypt (keys : CryptKeys.t) (segment : bytes) : M State bytes :=
  cloudlog_encrypt_loop (S (length segment)) keys segment.

Fixpoint cloudlog_decrypt_loop (fuel : nat) (keys : CryptKeys.t) (data : bytes) (offset : Z)
    (items : list BlueSkyRangesetItem) (allow_unauth : bool) : M State (bytes * list BlueSkyRangesetItem) :=
  match fuel with
  | O => stop OutOfFuel
  | S fuel =>
    if zlen data <? CloudLogHeader.size then mret (data, items) else
    let item_size := cloud_item_size data in
    if zlen data <? item_size then mret (data, items) else
    r ← bluesky_crypt_block_decrypt keys (take (Z.to_nat item_size) data) allow_unauth;
    (* an item that fails to authenticate is entered as well *)
    let items := (bluesky_rangeset_insert items offset item_size 1).2 in
    rest ← cloudlog_decrypt_loop fuel keys (drop (Z.to_nat item_size) data)
             (offset + item_size) items allow_unauth;
    mret (r.2 ++ rest.1, rest.2)
  end.

Definition bluesky_cloudlog_decrypt (keys : CryptKeys.t) (segment : bytes)
    (items : list BlueSkyRangesetItem) (allow_unauth : bool) : M State (bytes * list BlueSkyRangesetItem) :=
  cloudlog_decrypt_loop (S (length segment)) keys segment 0 items allow_unauth.
End crypto.

(** ** Items *)

Module CloudItem.
Record t := mk {
  header : CloudLogHeader.t;
  data1 : bytes;
  data2 : bytes;
  data3 : bytes;
}.
Definition encode (i : t) : bytes := CloudLogHeader.encode (header i) ++ data1 i ++ data2 i ++ data3 i.
Record wf (i : t) : Prop := {
  wf_header : CloudLogHeaderWf.wf (header i);
  wf_size1 : CloudLogHeader.size1 (header i) = zlen (data1 i);
  wf_size2 : CloudLogHeader.size2 (header i) = zlen (data2 i);
  wf_size3 : CloudLogHeader.size3 (header i) = zlen (data3 i);
}.
(** The item with other encryption fields and another first part. *)
Definition with_crypt (magic auth iv : bytes) (d1 : bytes) (i : t) : t :=
  let h := header i in
  mk (CloudLogHeader.mk magic auth iv (CloudLogHeader.type h) (CloudLogHeader.id h)
        (CloudLogHeader.inum h) (CloudLogHeader.size1 h) (CloudLogHeader.size2 h) (CloudLogHeader.size3 h))
     d1 (data2 i) (data3 i).
Definition magic (i : t) : bytes := CloudLogHeader.magic (header i).
Definition needs_encryption (i : t) : bool :=
  bluesky_crypt_block_needs_encryption (CloudLogHeader.type (header i)).
Definition size (i : t) : Z := zlen (encode i).
End CloudItem.

Lemma write_at_mid {A} (a b c w : list A) n :
  n = length a -> length w = length b -> write_at (a ++ b ++ c) n w = a ++ w ++ c.
Proof.
  intros -> Hw. unfold write_at. rewrite take_app_length, Hw. f_equal. f_equal.
  rewrite (assoc_L (++)), drop_app_length'; [done|]. by rewrite length_app.
Qed.

Lemma length_cloudlog_header h : CloudLogHeaderWf.wf h -> zlen (CloudLogHeader.encode h) = CloudLogHeader.size.
Proof.
  intros []. unfold CloudLogHeader.encode. rewrite !length_app, !length_le_bytes.
  unfold CloudLogHeader.size. lia.
Qed.

(** The part of the header that is neither magic nor encryption field. *)
Definition header_tail (h : CloudLogHeader.t) : bytes :=
  le_bytes 1 (CloudLogHeader.type h) ++ CloudLogHeader.id h ++ le_bytes 8 (CloudLogHeader.inum h) ++
  le_bytes 4 (CloudLogHeader.size1 h) ++ le_bytes 4 (CloudLogHeader.size2 h) ++
  le_bytes 4 (CloudLogHeader.size3 h).

Lemma encode_tail h :
  CloudLogHeader.encode h
  = CloudLogHeader.magic h ++ CloudLogHeader.crypt_auth h ++ CloudLogHeader.crypt_iv h ++ header_tail h.
Proof. done. Qed.

Section sealed.
Context `{GSequenceLib} `{Env0 : Env} `{!EnvSpec Env0} `{Gcrypt}.

(** [b] is the encrypted and authenticated form of [i]. *)
Definition sealed (keys : CryptKeys.t) (i : CloudItem.t) (b : bytes) : Prop :=
  if Options.disable_crypto bluesky_options then b = CloudItem.encode i else
  exists iv, length iv = 16%nat /\
    let enc := CloudItem.needs_encryption i in
    let d1 := if enc then aes_ctr_encrypt (CryptKeys.encryption_key keys) iv (CloudItem.data1 i)
              else CloudItem.data1 i in
    let auth := bluesky_crypt_hmac (iv ++ header_tail (CloudItem.header i) ++ d1 ++ CloudItem.data2 i)
                  (CryptKeys.authentication_key keys) in
    b = CloudItem.encode (CloudItem.with_crypt
          (if enc then CLOUDLOG_MAGIC_ENCRYPTED else CLOUDLOG_MAGIC) auth iv d1 i).

(** [b] is [i] up to the encryption fields of the header. *)
Definition opened (i : CloudItem.t) (b : bytes) : Prop :=
  exists auth iv, length auth = 32%nat /\ length iv = 16%nat /\
    b = CloudItem.encode (CloudItem.with_crypt CLOUDLOG_MAGIC auth iv (CloudItem.data1 i) i).

Lemma item_slice_header i :
  CloudItem.wf i ->
  CloudLogHeader.decode <$> slice (CloudItem.encode i) 0 CloudLogHeader.size = Some (CloudItem.header i).
Proof.
  intros W. unfold CloudItem.encode.
  rewrite slice_head by (symmetry; apply length_cloudlog_header, W). simpl. f_equal.
  rewrite <- (app_nil_r (CloudLogHeader.encode _)). apply cloudlog_header_roundtrip, W.
Qed.

Lemma item_slice_data i :
  CloudItem.wf i ->
  slice (CloudItem.encode i) CloudLogHeader.size (CloudLogHeader.size1 (CloudItem.header i))
  = Some (CloudItem.data1 i).
Proof.
  intros W. unfold CloudItem.encode.
  apply slice_mid; [symmetry; apply length_cloudlog_header, W|apply W].
Qed.

Lemma item_authenticated i :
  CloudItem.wf i ->
  authenticated (CloudItem.encode i) (CloudLogHeader.size3 (CloudItem.header i))
  = Some (CloudLogHeader.crypt_iv (CloudItem.header i) ++ header_tail (CloudItem.header i)
          ++ CloudItem.data1 i ++ CloudItem.data2 i).
Proof.
  intros W. unfold authenticated. pose proof (length_cloudlog_header _ (CloudItem.wf_header _ W)) as Hl.
  destruct (CloudItem.wf_header _ W). destruct W as [_ _ _ E3]. unfold CloudItem.encode in *.
  rewrite encode_tail in *. rewrite E3. set (h := CloudItem.header i) in *.
  rewrite <- !(assoc_L (++)).
  replace (CloudLogHeader.magic h ++ CloudLogHeader.crypt_auth h ++ CloudLogHeader.crypt_iv h ++ header_tail h ++ CloudItem.data1 i ++ CloudItem.data2 i ++ CloudItem.data3 i)
    with ((CloudLogHeader.magic h ++ CloudLogHeader.crypt_auth h) ++ (CloudLogHeader.crypt_iv h ++ header_tail h ++ CloudItem.data1 i ++ CloudItem.data2 i) ++ CloudItem.data3 i)
    by (by rewrite <- !(assoc_L (++))).
  apply slice_mid; rewrite !length_app; lia.
Qed.

(** Writing one of the fields. *)
Lemma item_write_data i d1 :
  CloudItem.wf i -> length d1 = length (CloudItem.data1 i) ->
  write_at (CloudItem.encode i) 89 d1
  = CloudItem.encode (CloudItem.mk (CloudItem.header i) d1 (CloudItem.data2 i) (CloudItem.data3 i)).
Proof.
  intros W Hd. unfold CloudItem.encode. simpl. apply write_at_mid; [|done].
  pose proof (length_cloudlog_header _ (CloudItem.wf_header _ W)). unfold CloudLogHeader.size in *. lia.
Qed.

Lemma item_write_auth i auth :
  CloudItem.wf i -> length auth = 32%nat ->
  write_at (CloudItem.encode i) 4 auth
  = CloudItem.encode (CloudItem.with_crypt (CloudItem.magic i) auth
      (CloudLogHeader.crypt_iv (CloudItem.header i)) (CloudItem.data1 i) i).
Proof.
  intros W Ha. destruct (CloudItem.wf_header _ W). unfold CloudItem.encode, CloudItem.with_crypt. simpl.
  rewrite !encode_tail. simpl. rewrite <- !(assoc_L (++)). apply write_at_mid; [done|congruence].
Qed.

Lemma item_write_iv i iv :
  CloudItem.wf i -> length iv = 16%nat ->
  write_at (CloudItem.encode i) 36 iv
  = CloudItem.encode (CloudItem.with_crypt (CloudItem.magic i)
      (CloudLogHeader.crypt_auth (CloudItem.header i)) iv (CloudItem.data1 i) i).
Proof.
  intros W Hiv. destruct (CloudItem.wf_header _ W).
  unfold CloudItem.encode, CloudItem.with_crypt, CloudItem.magic. simpl.
  rewrite !encode_tail. simpl. rewrite <- !(assoc_L (++)).
  rewrite !(assoc_L (++) (CloudLogHeader.magic _)). apply write_at_mid; [|congruence].
  rewrite length_app. lia.
Qed.

Lemma item_flip i :
  CloudItem.magic i = CLOUDLOG_MAGIC ->
  flip_magic (CloudItem.encode i)
  = CloudItem.encode (CloudItem.with_crypt CLOUDLOG_MAGIC_ENCRYPTED
      (CloudLogHeader.crypt_auth (CloudItem.header i)) (CloudLogHeader.crypt_iv (CloudItem.header i))
      (CloudItem.data1 i) i).
Proof.
  intros Hm. unfold CloudItem.encode, CloudItem.with_crypt, CloudItem.magic in *. simpl.
  rewrite !encode_tail. simpl. rewrite Hm. done.
Qed.

Lemma item_unflip i :
  CloudItem.magic i = CLOUDLOG_MAGIC_ENCRYPTED ->
  flip_magic (CloudItem.encode i)
  = CloudItem.encode (CloudItem.with_crypt CLOUDLOG_MAGIC
      (CloudLogHeader.crypt_auth (CloudItem.header i)) (CloudLogHeader.crypt_iv (CloudItem.header i))
      (CloudItem.data1 i) i).
Proof.
  intros Hm. unfold CloudItem.encode, CloudItem.with_crypt, CloudItem.magic in *. simpl.
  rewrite !encode_tail. simpl. rewrite Hm. done.
Qed.

Lemma with_crypt_wf i magic auth iv d1 :
  CloudItem.wf i -> length magic = 4%nat -> length auth = 32%nat -> length iv = 16%nat ->
  length d1 = length (CloudItem.data1 i) -> CloudItem.wf (CloudItem.with_crypt magic auth iv d1 i).
Proof.
  intros [[] ? ? ?] ? ? ? ?. split; simpl; [split; done|congruence|done|done].
Qed.

Lemma block_encrypt_ok keys i s :
  CloudItem.wf i -> CloudItem.magic i = CLOUDLOG_MAGIC ->
  wp (bluesky_crypt_block_encrypt keys (CloudItem.encode i)) s (fun b s' =>
    sealed keys i b /\ exists n, s' = s <| randoms := n |>).
Proof.
  intros W Hm. unfold bluesky_crypt_block_encrypt, sealed.
  destruct (Options.disable_crypto bluesky_options); [wp_step; split; [done|]; exists (randoms s); by destruct s|].
  wp_step. rewrite item_slice_header by done. wp_step; [done|].
  wp_step. wp_step; [by apply bool_decide_eq_true|]. wp_step.
  change (bluesky_crypt_block_needs_encryption (CloudLogHeader.type (CloudItem.header i)))
    with (CloudItem.needs_encryption i).
  destruct (CloudItem.needs_encryption i) eqn:Hn.
  - rewrite item_flip by done. set (i1 := CloudItem.with_crypt _ _ _ _ i).
    assert (W1 : CloudItem.wf i1) by (apply with_crypt_wf; try done; apply W).
    unfold bluesky_crypt_random_bytes. do 6 wp_step. cbv zeta.
    set (iv := gcry_random (randoms s) 16). destruct (gcry_random_bytes (randoms s) 16) as [Hiv _].
    rewrite item_write_iv by done. set (i2 := CloudItem.with_crypt _ _ iv _ i1).
    assert (W2 : CloudItem.wf i2) by (apply with_crypt_wf; try done; apply W1).
    assert (Hs : slice (CloudItem.encode i2) CloudLogHeader.size (CloudLogHeader.size1 (CloudItem.header i))
                 = Some (CloudItem.data1 i)) by (apply (item_slice_data i2 W2)).
    wp_step. rewrite Hs. wp_step; [done|]. wp_step. rewrite item_write_data by (done || apply aes_ctr_length).
    set (i3 := CloudItem.mk _ _ _ _).
    assert (W3 : CloudItem.wf i3).
    { destruct W2 as [? ? ? ?]. split; simpl; try done. by rewrite aes_ctr_length. }
    wp_step. assert (Ha : authenticated (CloudItem.encode i3) (CloudLogHeader.size3 (CloudItem.header i))
      = Some (iv ++ header_tail (CloudItem.header i)
              ++ aes_ctr_encrypt (CryptKeys.encryption_key keys) iv (CloudItem.data1 i) ++ CloudItem.data2 i))
      by exact (item_authenticated i3 W3).
    rewrite Ha. wp_step; [done|]. wp_step.
    rewrite item_write_auth by (done || apply hmac_length). split; [|by eexists].
    exists iv. split; [done|]. done.
  - wp_step. rewrite item_write_iv by done. set (i1 := CloudItem.with_crypt _ _ _ _ i).
    assert (W1 : CloudItem.wf i1).
    { apply with_crypt_wf; try done; [|apply W]. rewrite Hm. done. }
    wp_step. assert (Ha : authenticated (CloudItem.encode i1) (CloudLogHeader.size3 (CloudItem.header i))
      = Some (replicate 16 0 ++ header_tail (CloudItem.header i) ++ CloudItem.data1 i ++ CloudItem.data2 i))
      by exact (item_authenticated i1 W1).
    rewrite Ha. wp_step; [done|]. wp_step.
    rewrite item_write_auth by (done || apply hmac_length).
    split; [|exists (randoms s); by destruct s]. exists (replicate 16 0). split; [done|].
    change (CloudItem.magic i1) with (CloudItem.magic i). by rewrite Hm.
Qed.

Lemma block_decrypt_ok keys i b u s :
  CloudItem.wf i -> CloudItem.magic i = CLOUDLOG_MAGIC -> sealed keys i b ->
  wp (bluesky_crypt_block_decrypt keys b u) s (fun r s' => s' = s /\ r.1 = true /\ opened i r.2).
Proof.
  intros W Hm Hb. unfold bluesky_crypt_block_decrypt, sealed, opened in *.
  destruct (Options.disable_crypto bluesky_options).
  { subst b. wp_step. rewrite item_slice_header by done. wp_step; [done|]. cbv beta zeta.
    rewrite (bool_decide_eq_true_2 _ Hm). cbn [negb when]. wp_step. wp_step. wp_step. wp_step; [done|]. wp_step.
    split_and!; [done|done|]. eexists (CloudLogHeader.crypt_auth (CloudItem.header i)), _.
    split_and!; [apply W|apply W|]. simpl. destruct i as [[] ? ? ?]. unfold CloudItem.magic in Hm.
    simpl in *. by subst. }
  destruct Hb as (iv & Hiv & ->). set (enc := CloudItem.needs_encryption i) in *.
  set (d1 := if enc then aes_ctr_encrypt _ _ _ else _).
  assert (Hd1 : length d1 = length (CloudItem.data1 i)) by (unfold d1; destruct enc; [apply aes_ctr_length|done]).
  set (auth := bluesky_crypt_hmac _ _). set (i1 := CloudItem.with_crypt _ auth iv d1 i).
  assert (W1 : CloudItem.wf i1) by (apply with_crypt_wf; try done; [by destruct enc|apply hmac_length]).
  assert (Hauth : authenticated (CloudItem.encode i1) (CloudLogHeader.size3 (CloudItem.header i1))
    = Some (iv ++ header_tail (CloudItem.header i) ++ d1 ++ CloudItem.data2 i)) by (apply (item_authenticated i1 W1)).
  wp_step. rewrite (item_slice_header i1 W1). wp_step; [done|]. cbv beta zeta.
  rewrite Hauth. simpl CloudLogHeader.magic. simpl CloudLogHeader.crypt_auth. fold auth.
  wp_step. destruct enc eqn:Henc.
  - rewrite (bool_decide_eq_false_2 (CLOUDLOG_MAGIC_ENCRYPTED = CLOUDLOG_MAGIC)) by done. cbn [negb when].
    wp_step; [done|]. wp_step. wp_step; [done|]. fold auth. rewrite (bool_decide_eq_true_2 _ (eq_refl auth)). cbn [negb andb].
    wp_step. rewrite (item_slice_data i1 W1). wp_step; [done|]. wp_step.
    simpl CloudItem.data1. unfold d1. rewrite aes_ctr_inverse.
    rewrite item_write_data by (simpl; done || by rewrite Hd1). rewrite item_unflip by done.
    rewrite item_write_iv; [|apply with_crypt_wf; try done; [|apply hmac_length]|done].
    + split_and!; [done|done|]. eexists auth, _. split_and!; [apply hmac_length| |reflexivity]. done.
    + destruct W as [? ? ? ?]. split; simpl; try done. destruct W1 as [Wh _ _ _]. exact Wh.
  - rewrite (bool_decide_eq_true_2 (CLOUDLOG_MAGIC = CLOUDLOG_MAGIC)) by done. cbn [negb when].
    wp_step. wp_step. wp_step; [done|]. fold auth. rewrite (bool_decide_eq_true_2 _ (eq_refl auth)). cbn [negb andb].
    wp_step. split_and!; [done|done|]. exists auth, iv. split_and!; [apply hmac_length|done|done].
Qed.

(** ** Segments *)

Definition segment (its : list CloudItem.t) : bytes := its ≫= CloudItem.encode.

(** One range per item. *)
Fixpoint item_ranges (off : Z) (its : list CloudItem.t) : list BlueSkyRangesetItem :=
  match its with
  | [] => []
  | i :: its => Rangeset.mkRange off (CloudItem.size i) 1 :: item_ranges (off + CloudItem.size i) its
  end.

Definition item_ok (i : CloudItem.t) : Prop := CloudItem.wf i /\ CloudItem.magic i = CLOUDLOG_MAGIC.

Lemma encode_length i : CloudItem.wf i ->
  CloudItem.size i = CloudLogHeader.size + zlen (CloudItem.data1 i) + zlen (CloudItem.data2 i)
                     + zlen (CloudItem.data3 i).
Proof.
  intros W. unfold CloudItem.size, CloudItem.encode. rewrite !length_app.
  pose proof (length_cloudlog_header _ (CloudItem.wf_header _ W)). lia.
Qed.

Lemma encode_item_size i rest : CloudItem.wf i ->
  cloud_item_size (CloudItem.encode i ++ rest) = CloudItem.size i.
Proof.
  intros W. rewrite encode_length by done. unfold cloud_item_size, CloudItem.encode.
  rewrite <- (assoc_L (++)), cloudlog_header_roundtrip by apply W.
  rewrite (CloudItem.wf_size1 _ W), (CloudItem.wf_size2 _ W), (CloudItem.wf_size3 _ W). done.
Qed.

(** Sealing changes no sizes. *)
Lemma sealed_item keys i b : item_ok i -> sealed keys i b ->
  exists i', CloudItem.wf i' /\ b = CloudItem.encode i' /\ CloudItem.size i' = CloudItem.size i.
Proof.
  intros [W Hm]. unfold sealed. destruct (Options.disable_crypto _); [intros ->; by exists i|].
  intros (iv & Hiv & ->). eexists. split; [|split; [reflexivity|]].
  - apply with_crypt_wf; try done; [by destruct (CloudItem.needs_encryption i)|apply hmac_length|].
    destruct (CloudItem.needs_encryption i); [apply aes_ctr_length|done].
  - rewrite !encode_length; [|done|].
    + simpl. destruct (CloudItem.needs_encryption i); [rewrite aes_ctr_length|]; done.
    + apply with_crypt_wf; try done; [by destruct (CloudItem.needs_encryption i)|apply hmac_length|].
      destruct (CloudItem.needs_encryption i); [apply aes_ctr_length|done].
Qed.

Lemma encrypt_loop_ok its keys fuel s :
  Forall item_ok its -> (length its < fuel)%nat ->
  wp (cloudlog_encrypt_loop fuel keys (segment its)) s (fun r s' =>
    (exists bs, r = mjoin bs /\ Forall2 (sealed keys) its bs) /\ exists n, s' = s <| randoms := n |>).
Proof.
  intros Hi. revert fuel s. induction Hi as [|i its [W Hm] _ IH]; intros fuel s Hf;
    (destruct fuel as [|fuel]; [simpl in Hf; lia|]); cbn [cloudlog_encrypt_loop].
  { change (zlen (segment []) <? CloudLogHeader.size) with true. cbv iota. wp_step.
    split; [by exists []|]. exists (randoms s). by destruct s. }
  unfold segment in *. rewrite bind_cons. pose proof (encode_length i W) as Hl.
  rewrite length_app, encode_item_size by done. unfold CloudItem.size, CloudLogHeader.size in *.
  rewrite (proj2 (Z.ltb_ge _ 89)), (proj2 (Z.ltb_ge _ (zlen (CloudItem.encode i)))) by lia.
  cbv iota. rewrite Nat2Z.id, take_app_length, drop_app_length. wp_step.
  eapply wp_mono; [by apply block_encrypt_ok|]. intros b s1 (Hb & n & ->). wp_step.
  eapply wp_mono; [apply IH; simpl in Hf; lia|].
  intros r s2 ((bs & -> & Hbs) & m & ->). wp_step. split; [|by eexists].
  exists (b :: bs). split; [done|by constructor].
Qed.

Lemma decrypt_loop_ok its bs keys fuel off items u s :
  Forall item_ok its -> Forall2 (sealed keys) its bs -> (length its < fuel)%nat ->
  sorted_lt Rangeset.start items -> (forall r, r ∈ items -> Rangeset.start r < off) ->
  wp (cloudlog_decrypt_loop fuel keys (mjoin bs) off items u) s (fun r s' =>
    s' = s /\ r.2 = items ++ item_ranges off its /\
    exists bs', r.1 = mjoin bs' /\ Forall2 opened its bs').
Proof.
  intros Hi Hb. revert fuel off items. induction Hb as [|i b its bs Hb Hbs IH]; intros fuel off items Hf Hs Hlt;
    (destruct fuel as [|fuel]; [simpl in Hf; lia|]); cbn [cloudlog_decrypt_loop].
  { change (zlen (mjoin []) <? CloudLogHeader.size) with true. cbv iota. wp_step.
    split_and!; [done|by rewrite app_nil_r|]. by exists []. }
  apply Forall_cons in Hi as [Hio Hi]. specialize (IH Hi). pose proof Hio as [W Hm].
  destruct (sealed_item keys i b Hio Hb) as (i' & W' & Eb & Esz).
  assert (Hj : mjoin (b :: bs) = b ++ mjoin bs) by done. rewrite Hj. clear Hj.
  pose proof (encode_length i' W') as Hl. unfold CloudItem.size in Hl. rewrite <- Eb in Hl.
  assert (cloud_item_size (b ++ mjoin bs) = CloudItem.size i) as ->
    by (rewrite Eb, encode_item_size by done; done).
  assert (Hsz : CloudItem.size i = zlen b) by (rewrite <- Esz, Eb; done).
  unfold CloudLogHeader.size in *. rewrite length_app, Hsz.
  rewrite (proj2 (Z.ltb_ge _ 89)), (proj2 (Z.ltb_ge _ (zlen b))) by lia.
  cbv iota. rewrite Nat2Z.id, take_app_length, drop_app_length. wp_step.
  eapply wp_mono; [by apply (block_decrypt_ok keys i b u)|]. intros r s1 (-> & Hr & Ho). wp_step.
  set (rg := Rangeset.mkRange off (zlen b) 1).
  assert (E : (bluesky_rangeset_insert items off (zlen b) 1).2 = items ++ [rg]).
  { change (insert_sorted Rangeset.start rg items = items ++ [rg]).
    rewrite <- (app_nil_r items) at 1. rewrite insert_sorted_split; [done| |done].
    apply Forall_forall. intros x Hx. specialize (Hlt x Hx). simpl. lia. }
  rewrite E. eapply wp_mono; [apply IH; [simpl in Hf; lia| |]|].
  - apply StronglySorted_app. split_and!; [done|repeat constructor|].
    intros x y Hx ->%list_elem_of_singleton. simpl. by apply Hlt.
  - intros x. rewrite elem_of_app, list_elem_of_singleton. intros [Hx| ->]; simpl; [|lia].
    specialize (Hlt x Hx). lia.
  - intros r' s2 (-> & E2 & bs' & E1 & Hbs'). wp_step. simpl. split_and!; [done| |].
    + rewrite E2, <- (assoc_L (++)). simpl. by rewrite Hsz.
    + exists (r.2 :: bs'). rewrite E1. split; [done|by constructor].
Qed.

Lemma length_segment its : Forall item_ok its -> (length its <= length (segment its))%nat.
Proof.
  induction 1 as [|i its [W _] _ IH]; [done|]. unfold segment in *. rewrite bind_cons, length_app.
  pose proof (encode_length i W). unfold CloudItem.size, CloudLogHeader.size in *. simpl. lia.
Qed.

(** A segment after encryption and decryption. *)
Lemma segment_roundtrip_ok keys its u s :
  Forall item_ok its ->
  wp (e ← bluesky_cloudlog_encrypt keys (segment its); bluesky_cloudlog_decrypt keys e [] u) s
    (fun r _ => r.2 = item_ranges 0 its /\ exists bs, r.1 = mjoin bs /\ Forall2 opened its bs).
Proof.
  intros Hi. unfold bluesky_cloudlog_encrypt, bluesky_cloudlog_decrypt. wp_step.
  eapply wp_mono; [apply encrypt_loop_ok; [done|]|].
  { pose proof (length_segment its Hi). lia. }
  intros e s1 ((bs & -> & Hbs) & n & ->).
  eapply wp_mono; [apply (decrypt_loop_ok its bs); [done|done| |constructor|by intros r Hr%not_elem_of_nil]|].
  - enough (length its <= length (mjoin bs))%nat by lia. clear -Hi Hbs.
    induction Hbs as [|i b its bs Hb Hbs IH]; [done|]. apply Forall_cons in Hi as [Hio Hi].
    assert (Hj : mjoin (b :: bs) = b ++ mjoin bs) by done. rewrite Hj, length_app. specialize (IH Hi).
    destruct (sealed_item keys i b Hio Hb) as (i' & W' & -> & _). pose proof (encode_length i' W').
    unfold CloudItem.size, CloudLogHeader.size in *. simpl. lia.
  - intros r s2 (-> & Hr & Hbs'). by split.
Qed.

(** C19: decrypting an encrypted segment finds every item of it, at its offset and
    with its size, and gives each item back as it was up to the encryption fields
    of its header, whatever types the items have and whether or not encryption is
    turned off. *)
Theorem segment_roundtrip keys its u s :
  Forall item_ok its ->
  wp (e ← bluesky_cloudlog_encrypt keys (segment its); bluesky_cloudlog_decrypt keys e [] u) s
    (fun r _ => r.2 = item_ranges 0 its /\ exists bs, r.1 = mjoin bs /\ Forall2 opened its bs).
Proof. apply segment_roundtrip_ok. Qed.

End sealed.

(** ** Instances *)
#[local] Existing Instance linear_gsequence.

Definition sample_cloud_item (type : Z) (data : bytes) : CloudItem.t :=
  CloudItem.mk (CloudLogHeader.mk CLOUDLOG_MAGIC (replicate 32 0) (replicate 16 0) type (replicate 16 7)
                  2 (zlen data) 0 0) data [] [].
Definition sample_keys : CryptKeys.t := CryptKeys.mk (replicate 16 1) (replicate 32 2).

Lemma sample_cloud_item_ok type data :
  0 <= type < 256 -> zlen data < 2 ^ 32 -> item_ok (sample_cloud_item type data).
Proof. intros. split; [|done]. split; [|done..]. split; simpl; unfold is_u; try lia; done. Qed.

Lemma segment_roundtrip_witness :
  wp (e ← bluesky_cloudlog_encrypt sample_keys (segment [sample_cloud_item 49 [1; 2]; sample_cloud_item 51 [3]]);
      bluesky_cloudlog_decrypt sample_keys e [] false) empty_state (fun r _ =>
    r.2 = [Rangeset.mkRange 0 91 1; Rangeset.mkRange 91 90 1] /\
    exists b1 b2, r.1 = b1 ++ b2 /\ opened (sample_cloud_item 49 [1; 2]) b1 /\ opened (sample_cloud_item 51 [3]) b2).
Proof.
  refine (wp_mono _ _ _ _ (segment_roundtrip sample_keys
    [sample_cloud_item 49 [1; 2]; sample_cloud_item 51 [3]] false empty_state _) _).
  - repeat constructor; simpl; unfold is_u; try lia; done.
  - intros r s' (-> & bs & -> & Hbs). split; [by vm_compute|].
    inversion Hbs as [|? b1 ? bs1 H1 Hbs1]; subst. inversion Hbs1 as [|? b2 ? bs2 H2 Hbs2]; subst.
    inversion Hbs2; subst. exists b1, b2. split_and!; [|done|done].
    change (mjoin [b1; b2]) with (b1 ++ b2 ++ []). by rewrite app_nil_r.
Defined.

(** The sealed form of an unencrypted item. *)
Definition sample_sealed : bytes :=
  match bluesky_crypt_block_encrypt sample_keys (CloudItem.encode (sample_cloud_item 51 [3])) empty_state with
  | Ok b _ => b
  | Stop _ => []
  end.


(** An item that fails to authenticate is refused by the block operation and
    still entered among the valid items of its segment. *)
Example unauthenticated_item_listed :
  let b := CloudItem.encode (sample_cloud_item 51 [3]) in
  match bluesky_crypt_block_decrypt sample_keys b false empty_state,
        bluesky_cloudlog_decrypt sample_keys b [] false empty_state with
  | Ok (ok, _) _, Ok (_, items) _ => ok = false /\ items = [Rangeset.mkRange 0 90 1]
  | _, _ => False
  end.
Proof. by vm_compute. Qed.

(** Deriving the keys reads 32 bytes of the master key however short it is; the
    server passes an empty string by default. *)
Example derive_keys_reads_past_the_key :
  bluesky_crypt_derive_keys [] empty_state = Stop OutOfBounds.
Proof. reflexivity. Qed.
