(* ===== verification/CacheFiles.v ===== *)
(** * Cached log segments (src/bluesky/log.c, src/bluesky/cloudlog.c)

    The files of the journal directory: journal segments, and the parts of cloud
    log segments that were fetched so far.  Looking a file up, fetching parts of a
    segment from the cloud, mapping an object into memory, and
    [bluesky_cloudlog_fetch] and [bluesky_cloudlog_prefetch] on top of them.

    The storage service is asked for a part of an object by the functions of
    Store.v; here it answers from the objects it holds.  A handler runs where the
    thread that holds the lock on the file waits for it. *)

From S2P Require Import Prelude Glib Rangeset State Strings Ownership CloudLog Inodes Fetch Imap Serialize Crypto.
From Stdlib Require Import ZArith Lia.
From stdpp Require Import base numbers gmap option list.

Open Scope Z_scope.

(** Disk usage of a file, in blocks of 512 bytes. *)
Class DiskUsage := { st_blocks : DiskFile.t -> Z }.

(** A file system without holes. *)
#[export] Instance dense_usage : DiskUsage | 100 :=
  {| st_blocks := fun f => (DiskFile.size f + 511) / 512 |}.

(** ** Names *)

(** Decimal digits; ten are enough for 32 bits. *)
Fixpoint digits (fuel : nat) (n : Z) : bytes :=
  match fuel with
  | O => []
  | S fuel => if n <? 10 then [48 + n] else digits fuel (n / 10) ++ [48 + n mod 10]
  end.

(** [%08d]. *)
Definition format_08d (n : Z) : bytes :=
  let d := digits 10 (Z.abs n) in
  if n <? 0 then 45 :: replicate (7 - length d) 48 ++ d else replicate (8 - length d) 48 ++ d.

(** ["journal-%08d"]. *)
Definition journal_name (seq : Z) : bytes :=
  [106; 111; 117; 114; 110; 97; 108; 45] ++ format_08d (s32 seq).

(** ["log-%08d-%08d"]. *)
Definition segment_name (dir seq : Z) : bytes :=
  [108; 111; 103; 45] ++ format_08d (s32 dir) ++ [45] ++ format_08d (s32 seq).

Section cachefiles.
Context `{GSequenceLib} `{Env} `{Gcrypt} `{DiskUsage}.
(** The keys of the file system. *)
Context (keys : CryptKeys.t).

Definition bluesky_cachefile_unref (cachefile : option ptr) : M State unit :=
  upd cachefiles cachefile (fun m => m <| CacheFile.refcount ::= Z.add (-1) |>).

(** ** Looking up a file *)

Definition cloudlog_fetch_start (cachefile : option ptr) : M State unit :=
  upd cachefiles cachefile (fun m =>
    m <| CacheFile.refcount ::= Z.add 1 |> <| CacheFile.fetching := true |>).

(** [open(..., O_CREAT)] and [ftruncate]. *)
Definition create_and_truncate (name : bytes) (size : Z) : M State unit :=
  modify (fun s => s <| disk ::= fun d =>
    <[name := DiskFile.truncate (default DiskFile.empty (d !! name)) size]> d |>).

Definition bluesky_cachefile_lookup (clouddir log_seq : Z) (start_fetch : bool) : M State (option ptr) :=
  let journal := s32 clouddir <? 0 in
  let logname := if journal then journal_name log_seq else segment_name clouddir log_seq in
  let type := if journal then CLOUDLOG_JOURNAL else CLOUDLOG_CLOUD in
  s ← get;
  map ←
    (match Log.mmap_cache (log s) !! logname with
     | Some map => mret (Some map)
     | None =>
       if journal && (match disk s !! logname with None => true | Some _ => false end) then mret None else
       map ← alloc cachefiles (CacheFile.mk 0 type (s32 clouddir) (s32 log_seq) logname 0 false 0 0
                                 false false 0 [] None);
       modify (fun s => s <| log ::= (fun g => g <| Log.mmap_cache ::= <[logname := map]> |>) |>);;
       create_and_truncate logname (5 * 2 ^ 20);;
       mret (Some map)
     end);
  when (negb journal && start_fetch)
    (m ← load cachefiles map;
     when (negb (CacheFile.complete m) && negb (CacheFile.fetching m)) (cloudlog_fetch_start map));;
  match map with
  | Some _ => upd cachefiles map (fun m => m <| CacheFile.refcount ::= Z.add 1 |>)
  | None => mret tt
  end;;
  mret map.

(** ** Fetching parts of a segment *)

Definition robust_pwrite (name : bytes) (buf : bytes) (offset : Z) : M State unit :=
  modify (fun s => s <| disk ::= alter (fun f => DiskFile.write f offset buf) name |>).

(** The loop over the items found, in the order of their offsets; the fuel bounds
    the number of items. *)
Fixpoint merge_items (fuel : nat) (cachefile : option ptr) (name data : bytes) (start : Z)
    (items : list BlueSkyRangesetItem) (item_offset : Z) : M State unit :=
  match bluesky_rangeset_lookup_next items item_offset with
  | None => mret tt
  | Some item =>
    match fuel with
    | O => stop OutOfFuel
    | S fuel =>
      m ← load cachefiles cachefile;
      let r := bluesky_rangeset_insert (CacheFile.items m) (u64 (start + Rangeset.start item))
                 (Rangeset.rlength item) (Rangeset.data item) in
      upd cachefiles cachefile (fun m => m <| CacheFile.items := r.2 |>);;
      when r.1
        (b ← assume OutOfBounds (slice data (Rangeset.start item) (Rangeset.rlength item));
         robust_pwrite name b (start + Rangeset.start item));;
      merge_items fuel cachefile name data start items (u64 (Rangeset.start item + 1))
    end
  end.

(** The statistics of disk usage, after a file has changed. *)
Definition update_disk_used (cachefile : option ptr) : M State unit :=
  m ← load cachefiles cachefile;
  s ← get;
  let used := match disk s !! CacheFile.filename m with
              | Some f => Z.quot (st_blocks f + 1) 2
              | None => CacheFile.disk_used m
              end in
  modify (fun s => s <| log ::= (fun g => g <| Log.disk_used ::= fun n =>
    n - CacheFile.disk_used m + used |>) |>);;
  upd cachefiles cachefile (fun m => m <| CacheFile.disk_used := used |>).

(** The request succeeded: [start] and [len] as in the request, [data] the bytes
    received. *)
Definition cloudlog_partial_fetch_complete (cachefile : option ptr) (start len : Z) (data : bytes)
    : M State unit :=
  when (len =? 0) (upd cachefiles cachefile (fun m => m <| CacheFile.complete := true |>));;
  m ← load cachefiles cachefile;
  s ← get;
  match disk s !! CacheFile.filename m with
  | Some _ =>
    r ← bluesky_cloudlog_decrypt keys data [] (CacheFile.log_dir m =? BLUESKY_CLOUD_DIR_CLEANER);
    merge_items (length r.2) cachefile (CacheFile.filename m) r.1 start r.2 0
  | None => mret tt
  end;;
  update_disk_used cachefile;;
  bluesky_cachefile_unref cachefile.

(** A request for part of a segment and the wait for its completion.  A request
    that fails is repeated, so the wait for an object the service does not have
    never ends. *)
Definition cloudlog_partial_fetch_start (cachefile : option ptr) (offset length : Z) : M State unit :=
  upd cachefiles cachefile (fun m => m <| CacheFile.refcount ::= Z.add 1 |>);;
  m ← load cachefiles cachefile;
  s ← get;
  object ← assume Blocked (cloud s !! CacheFile.filename m);
  let length := if negb (offset =? 0) && (length =? 0) then zlen object - offset else length in
  data ← assume Blocked (slice object offset (if length =? 0 then zlen object else length));
  cloudlog_partial_fetch_complete cachefile offset length data.

(** The wait for the request of [cloudlog_fetch_start]. *)
Definition cloudlog_fetch_wait (cachefile : option ptr) : M State unit :=
  m ← load cachefiles cachefile;
  check Blocked (CacheFile.fetching m && negb (CacheFile.complete m));;
  s ← get;
  data ← assume Blocked (cloud s !! CacheFile.filename m);
  cloudlog_partial_fetch_complete cachefile 0 0 data.

(** ** Mapping objects *)

(** [readbuf] returns 0 whatever it reads, so reading a file that is mapped but
    whose mapping is too short only works for no bytes at all. *)
Definition bluesky_cachefile_map_raw (cachefile : option ptr) (offset size : Z) : M State (option ptr) :=
  now ← bluesky_get_current_time;
  upd cachefiles cachefile (fun m => m <| CacheFile.atime := now |>);;
  m ← load cachefiles cachefile;
  if CacheFile.addr m && (u64 (offset + size) <=? CacheFile.len m)
  then q ← bluesky_string_new_from_mmap cachefile offset size; mret (Some q)
  else
  s ← get;
  match disk s !! CacheFile.filename m with
  | None => mret None
  | Some f =>
    if DiskFile.size f <? u64 (offset + size) then mret None else
    if negb (CacheFile.addr m) then
      upd cachefiles cachefile (fun m => m <| CacheFile.addr := true |>
        <| CacheFile.len := DiskFile.size f |> <| CacheFile.refcount ::= Z.add 1 |>);;
      q ← bluesky_string_new_from_mmap cachefile offset size; mret (Some q)
    else if size =? 0 then q ← bluesky_string_new []; mret (Some q)
    else mret None
  end.

(** The wait for an item of a cloud log segment; [false] if what is there does not
    fit the item.  Every round but the last fetches something. *)
Fixpoint map_object_wait (fuel : nat) (map : option ptr) (range_request : bool)
    (file_offset file_size : Z) : M State bool :=
  m ← load cachefiles map;
  match bluesky_rangeset_lookup (CacheFile.items m) file_offset with
  | Some rangeitem =>
    mret ((Rangeset.start rangeitem =? file_offset) && (Rangeset.rlength rangeitem =? file_size))
  | None =>
    match fuel with
    | O => stop Blocked
    | S fuel =>
      (if range_request then
         let '(start, length) :=
           match CacheFile.prefetches m with
           | Some p => bluesky_rangeset_get_extents p
           | None => (file_offset, file_size)
           end in
         let start' := Z.min start file_offset in
         let end_ := Z.max (u64 (start' + length)) (file_offset + file_size) in
         upd cachefiles map (fun m => m <| CacheFile.prefetches := None |>);;
         cloudlog_partial_fetch_start map start' (u64 (end_ - start'))
       else cloudlog_fetch_wait map);;
      map_object_wait fuel map range_request file_offset file_size
    end
  end.

Definition bluesky_log_map_object (item : option ptr) (map_data : bool) : M State (option ptr) :=
  let range_request := negb (Options.full_segment_fetches bluesky_options) in
  bluesky_cloudlog_stats_update item (-1);;
  l ← load cloudlogs item;
  journal ←
    (if has (Z.lor (CloudLog.location_flags l) (CloudLog.pending_write l)) CLOUDLOG_JOURNAL
     then bluesky_cachefile_lookup (-1) (CloudLog.log_seq l) true
     else mret None);
  r ←
    (match journal with
     | Some _ =>
       mret (Some (journal, LogHeader.size, u64 (CloudLog.log_offset l), u64 (CloudLog.log_size l), true))
     | None =>
       if has (CloudLog.location_flags l) CLOUDLOG_CLOUD then
         upd cloudlogs item (fun l =>
           l <| CloudLog.location_flags ::= fun f => Z.land f (Z.lnot CLOUDLOG_JOURNAL) |>);;
         let loc := CloudLog.location l in
         map ← bluesky_cachefile_lookup (CloudPointer.directory loc) (CloudPointer.sequence loc)
                 (negb range_request);
         match map with
         | None => mret None
         | Some _ =>
           ok ← map_object_wait 2 map range_request (CloudPointer.offset loc) (CloudPointer.size loc);
           mret (Some (map, CloudLogHeader.size, CloudPointer.offset loc, CloudPointer.size loc, ok))
         end
       else stop NullPointer
     end);
  str ←
    (match r with
     | None => mret None
     | Some (map, header, file_offset, file_size, ok) =>
       str ← (if (ok : bool) then
                bluesky_cachefile_map_raw map
                  (s64 (if map_data then file_offset + header else file_offset))
                  (if map_data then u64 (CloudLog.data_size l) else file_size)
              else mret None);
       bluesky_cachefile_unref map;;
       mret str
     end);
  bluesky_cloudlog_stats_update item 1;;
  mret str.

(** ** Fetching an item *)

(** The background task only takes and drops a reference. *)
Definition background_fetch_task (item : option ptr) : M State unit := bluesky_cloudlog_unref item.
Definition bluesky_cloudlog_background_fetch (item : option ptr) : M State unit :=
  bluesky_cloudlog_ref item;; background_fetch_task item.

Definition cloudlog_prefetch (item : option ptr) : M State unit :=
  l ← load cloudlogs item;
  match CloudLog.data l with
  | Some _ => mret tt
  | None =>
    if Options.disable_aggregation bluesky_options || Options.disable_read_aggregation bluesky_options
    then bluesky_cloudlog_background_fetch item else
    map ←
      (if has (Z.lor (CloudLog.location_flags l) (CloudLog.pending_write l)) CLOUDLOG_JOURNAL
       then bluesky_cachefile_lookup (-1) (CloudLog.log_seq l) true
       else mret None);
    match map with
    | Some _ =>
      now ← bluesky_get_current_time;
      upd cachefiles map (fun m => m <| CacheFile.atime := now |>);;
      bluesky_cachefile_unref map
    | None =>
      upd cloudlogs item (fun l =>
        l <| CloudLog.location_flags ::= fun f => Z.land f (Z.lnot CLOUDLOG_JOURNAL) |>);;
      if negb (has (CloudLog.location_flags l) CLOUDLOG_CLOUD) then mret tt else
      let loc := CloudLog.location l in
      map ← bluesky_cachefile_lookup (CloudPointer.directory loc) (CloudPointer.sequence loc) false;
      match map with
      | None => mret tt
      | Some _ =>
        m ← load cachefiles map;
        (match bluesky_rangeset_lookup (CacheFile.items m) (CloudPointer.offset loc) with
         | Some _ => mret tt
         | None =>
           let p := default [] (CacheFile.prefetches m) in
           upd cachefiles map (fun m => m <| CacheFile.prefetches := Some
             (bluesky_rangeset_insert p (CloudPointer.offset loc) (CloudPointer.size loc) 0).2 |>)
         end);;
        bluesky_cachefile_unref map
      end
    end
  end.

Definition cloudlog_fetch (log : option ptr) : M State unit :=
  l ← load cloudlogs log;
  match CloudLog.data l with
  | Some _ => mret tt
  | None =>
    when (CloudLog.type l =? LOGTYPE_UNKNOWN)
      (raw ← bluesky_log_map_object log false;
       check Assertion (match raw with Some _ => true | None => false end);;
       str ← load strs raw;
       s ← get;
       b ← assume OutOfBounds (str_bytes s str);
       bluesky_deserialize_cloudlog log b;;
       bluesky_string_unref raw);;
    data ← bluesky_log_map_object log true;
    upd cloudlogs log (fun l => l <| CloudLog.data := data |>);;
    check Fatal (match data with Some _ => true | None => false end)
  end.
End cachefiles.
