(* ===== verification/JournalFetch.v ===== *)
(** * Fetching items from the journal

    [bluesky_cloudlog_fetch] and [bluesky_cloudlog_prefetch] of CacheFiles.v
    implement the interface of Fetch.v for every item whose data is in the
    journal: the file is looked up (and extended) and mapped, and the data of the
    item becomes a string backed by the mapping. *)

From S2P Require Import Prelude Glib Rangeset State Strings Ownership CloudLog Inodes Fetch Imap Serialize Crypto CacheFiles.
From Stdlib Require Import ZArith Lia.
From stdpp Require Import base numbers gmap option list.

Open Scope Z_scope.

(** ** What is stored *)

Definition in_journal (l : CloudLog.t) : bool :=
  has (Z.lor (CloudLog.location_flags l) (CloudLog.pending_write l)) CLOUDLOG_JOURNAL.

(** The bytes of an item with a place in the journal. *)
Definition journal_bytes (d : gmap bytes DiskFile.t) (l : CloudLog.t) : option bytes :=
  if in_journal l && negb (CloudLog.type l =? LOGTYPE_UNKNOWN) && (0 <=? CloudLog.log_offset l) then
    f ← d !! journal_name (CloudLog.log_seq l);
    DiskFile.read f (CloudLog.log_offset l + LogHeader.size) (CloudLog.data_size l)
  else None.

#[export] Instance journal_storage : Storage | 10 :=
  {| stored := fun d _ l => journal_bytes d l; stored_refcount := fun _ _ _ _ => eq_refl |}.

(** ** The files of the journal directory *)

Definition max_file_size : Z := 5 * 2 ^ 20.

(** The table of cache files names each of them once, a mapping covers its whole
    file, and no file is longer than what a lookup extends it to. *)
Record files_ok (s : State) : Prop := {
  fo_cache : forall n f, Log.mmap_cache (log s) !! n = Some f ->
    exists cf, cachefiles s !! f = Some cf /\ CacheFile.filename cf = n;
  fo_named : forall f cf, cachefiles s !! f = Some cf ->
    Log.mmap_cache (log s) !! CacheFile.filename cf = Some f;
  fo_mapped : forall f cf, cachefiles s !! f = Some cf -> CacheFile.addr cf = true ->
    exists df, disk s !! CacheFile.filename cf = Some df /\ CacheFile.len cf = DiskFile.size df;
  fo_size : forall n df, disk s !! n = Some df ->
    DiskFile.size df <= max_file_size /\ zlen (DiskFile.prefix df) <= max_file_size;
}.

(** What can be read from the files stays, and of the log only the table of cache
    files changes. *)
Record disk_kept (s s' : State) : Prop := {
  dk_log : exists m, log s' = (log s) <| Log.mmap_cache := m |>;
  dk_disk : forall n df off len b, disk s !! n = Some df -> DiskFile.read df off len = Some b ->
    exists df', disk s' !! n = Some df' /\ DiskFile.read df' off len = Some b;
  dk_state : log_state s' = log_state s;
}.

#[export] Instance disk_kept_preorder : PreOrder disk_kept.
Proof.
  split.
  - intros s. split; [|eauto|done]. exists (Log.mmap_cache (log s)). by destruct (log s).
  - intros s1 s2 s3 [[m1 L1] D1 S1] [[m2 L2] D2 S2]. split; [| |congruence].
    + exists m2. rewrite L2, L1. by destruct (log s1).
    + intros n df off len b Hd Hr. destruct (D1 _ _ _ _ _ Hd Hr) as (df2 & Hd2 & Hr2). by apply (D2 n df2).
Qed.

Lemma disk_kept_same s s' :
  disk s' = disk s -> log s' = log s -> log_state s' = log_state s -> disk_kept s s'.
Proof.
  intros Hd Hl Hs. split; [|rewrite Hd; eauto|done]. exists (Log.mmap_cache (log s)). rewrite Hl. by destruct (log s).
Qed.

(** Changes to cache files and to the files behind them that no reader notices. *)
Record files_step (s s' : State) : Prop := {
  st_strs : strs s' = strs s;
  st_logs : cloudlogs s' = cloudlogs s;
  st_inodes : inodes s' = inodes s;
  st_records : records s' = records s;
  st_fs : fs s' = fs s;
  st_cloud : cloud s' = cloud s;
  st_kept : disk_kept s s';
  st_next : Pos.le (next_ptr s) (next_ptr s');
  st_files : forall f cf, cachefiles s !! f = Some cf ->
    exists cf', cachefiles s' !! f = Some cf' /\
      CacheFile.filename cf' = CacheFile.filename cf /\
      CacheFile.mapcount cf' = CacheFile.mapcount cf /\
      (CacheFile.addr cf = true -> CacheFile.addr cf' = true);
  st_new : forall f cf', cachefiles s' !! f = Some cf' ->
    is_Some (cachefiles s !! f) \/
    (Pos.le (next_ptr s) f /\ Pos.lt f (next_ptr s') /\ 0 <= CacheFile.mapcount cf');
}.

Lemma st_disk s s' : files_step s s' -> forall n df off len b, disk s !! n = Some df ->
  DiskFile.read df off len = Some b -> exists df', disk s' !! n = Some df' /\ DiskFile.read df' off len = Some b.
Proof. intros Hst. apply (dk_disk _ _ (st_kept _ _ Hst)). Qed.

#[export] Instance files_step_preorder : PreOrder files_step.
Proof.
  split.
  - intros s. split; try done; eauto 10.
  - intros s1 s2 s3 A B. split; try (etransitivity; [apply B|apply A]); [etransitivity; [apply A|apply B]|..].
    + pose proof (st_next _ _ A). pose proof (st_next _ _ B). lia.
    + intros f cf H1. destruct (st_files _ _ A f cf H1) as (cf2 & H2 & N2 & M2 & A2).
      destruct (st_files _ _ B f cf2 H2) as (cf3 & H3 & N3 & M3 & A3).
      exists cf3. split_and!; [done|congruence|congruence|auto].
    + intros f cf3 H3. pose proof (st_next _ _ A). pose proof (st_next _ _ B).
      destruct (st_new _ _ B f cf3 H3) as [[cf2 H2]|?]; [|right; lia].
      destruct (st_files _ _ B f cf2 H2) as (cf3' & ? & _ & ? & _). simplify_eq.
      destruct (st_new _ _ A f cf2 H2) as [?|?]; [by left|right; lia].
Qed.

Lemma files_step_bytes s s' str b :
  files_step s s' -> str_bytes s str = Some b -> str_bytes s' str = Some b.
Proof.
  intros Hst. unfold str_bytes. destruct (RCStr.data str) as [|off]; [done|].
  destruct (RCStr.mmap str) as [f|]; simpl; [|done].
  destruct (cachefiles s !! f) as [cf|] eqn:Hf; simpl; [|done].
  destruct (disk s !! CacheFile.filename cf) as [df|] eqn:Hd; simpl; [|done]. intros Hr.
  destruct (st_files _ _ Hst f cf Hf) as (cf' & -> & En & _). simpl. rewrite En.
  by destruct (st_disk _ _ Hst _ _ _ _ _ Hd Hr) as (df' & -> & ?).
Qed.

Lemma files_step_wf s s' str : files_step s s' -> str_wf s str -> str_wf s' str.
Proof.
  intros Hst. unfold str_wf. destruct (RCStr.mmap str); [|done].
  intros (off & b & Ed & Eb & El). exists off, b. split_and!; [done| |done].
  by eapply files_step_bytes.
Qed.

Lemma heap_ok_files xs xl s s' : heap_ok xs xl s -> files_step s s' -> heap_ok xs xl s'.
Proof.
  intros Hok Hst. split.
  - intros q. unfold str_owners. rewrite (st_inodes _ _ Hst), (st_logs _ _ Hst), (st_records _ _ Hst),
      (st_strs _ _ Hst). apply (ho_strs _ _ _ Hok).
  - intros p. unfold log_owners, queue_logs. rewrite (st_inodes _ _ Hst), (st_logs _ _ Hst),
      (st_records _ _ Hst), (st_fs _ _ Hst), (dk_state _ _ (st_kept _ _ Hst)).
    destruct (dk_log _ _ (st_kept _ _ Hst)) as [m ->]. apply (ho_logs _ _ _ Hok).
  - intros f. pose proof (ho_files _ _ _ Hok f) as Hm. unfold map_owners in *. rewrite (st_strs _ _ Hst).
    destruct (cachefiles s !! f) as [cf|] eqn:Hf.
    + destruct (st_files _ _ Hst f cf Hf) as (cf' & -> & _ & Em & Ha). simpl in *. rewrite Em. tauto.
    + simpl in Hm. rewrite Hm. destruct (cachefiles s' !! f) as [cf'|] eqn:Hf'; [|done]. simpl.
      destruct (st_new _ _ Hst f cf' Hf') as [[? ?]|(? & ? & ?)]; [congruence|]. split; [done|lia].
  - intros q str. rewrite (st_strs _ _ Hst). intros Hq.
    eapply files_step_wf; [done|]. by apply (ho_wf _ _ _ Hok q).
  - rewrite (st_fs _ _ Hst), (st_logs _ _ Hst). apply (ho_loc _ _ _ Hok).
  - rewrite (st_logs _ _ Hst). apply (ho_alive _ _ _ Hok).
  - intros p Hp. pose proof (st_next _ _ Hst). rewrite (st_strs _ _ Hst), (st_logs _ _ Hst),
      (st_inodes _ _ Hst), (st_records _ _ Hst).
    destruct (ho_fresh _ _ _ Hok p) as (? & ? & Hc & ? & ?); [lia|]. split_and!; try done.
    destruct (cachefiles s' !! p) as [cf|] eqn:E; [|done].
    destruct (st_new _ _ Hst p cf E) as [[? ?]|?]; [congruence|lia].
Qed.

Lemma journal_bytes_step s s' l b :
  files_step s s' -> journal_bytes (disk s) l = Some b -> journal_bytes (disk s') l = Some b.
Proof.
  intros Hst. unfold journal_bytes. destruct (_ && _); [|done].
  destruct (disk s !! _) as [df|] eqn:Hd; simpl; [|done]. intros Hr.
  by destruct (st_disk _ _ Hst _ _ _ _ _ Hd Hr) as (df' & -> & ?).
Qed.

Lemma keeps_files xs xl s s' : heap_ok xs xl s -> files_step s s' -> keeps s s'.
Proof.
  intros Hok Hst. split; [| |apply (st_next _ _ Hst)].
  - intros q str. rewrite (st_strs _ _ Hst). intros Hq _. exists str. split_and!; [done..|].
    assert (is_Some (str_bytes s str)) as [b Hb].
    { pose proof (ho_wf _ _ _ Hok q str Hq) as Hw. unfold str_wf in Hw.
      destruct (RCStr.mmap str) eqn:Em.
      - destruct Hw as (? & b & _ & -> & _). by eexists.
      - destruct Hw as (b & E & _). unfold str_bytes. rewrite E. by eexists. }
    rewrite Hb. by eapply files_step_bytes.
  - intros p l. rewrite (st_logs _ _ Hst). intros Hp Hr _. exists l. split_and!; [done|done|].
    intros b. unfold item_bytes. rewrite (st_strs _ _ Hst). destruct (CloudLog.data l) as [q|].
    + destruct (strs s !! q); simpl; [|done]. by apply files_step_bytes.
    + simpl. by apply journal_bytes_step.
Qed.

(** Extending a file does not change what can be read. *)
Lemma read_truncate df n off len b :
  DiskFile.size df <= n -> zlen (DiskFile.prefix df) <= n ->
  DiskFile.read df off len = Some b -> DiskFile.read (DiskFile.truncate df n) off len = Some b.
Proof.
  intros Hs Hp. assert (length (DiskFile.prefix df) <= Z.to_nat n)%nat as Hn by lia.
  unfold DiskFile.read, DiskFile.truncate. simpl.
  destruct (_ && _ && _) eqn:E; [|done]. apply andb_prop in E as [E E3]. apply andb_prop in E as [E1 E2].
  intros [= <-]. rewrite E1, E2. rewrite (take_ge (DiskFile.prefix df)) by done.
  by replace (off + len <=? n) with true by lia.
Qed.

(** Changing a cache file without changing its name or its mappings. *)
Lemma files_step_upd s f cf cf' :
  cachefiles s !! f = Some cf -> CacheFile.filename cf' = CacheFile.filename cf ->
  CacheFile.mapcount cf' = CacheFile.mapcount cf ->
  (CacheFile.addr cf = true -> CacheFile.addr cf' = true) ->
  files_step s (s <| cachefiles ::= <[f := cf']> |>).
Proof.
  intros Hf En Em Ea. split; try done; simpl.
  - by apply disk_kept_same.
  - intros g cg Hg. destruct (decide (g = f)) as [->|Hne].
    + rewrite lookup_insert_eq. simplify_eq. eauto.
    + rewrite lookup_insert_ne by done. eauto 10.
  - intros g cg Hg. left. destruct (decide (g = f)) as [->|Hne]; [by eexists|].
    rewrite lookup_insert_ne in Hg by done. by eexists.
Qed.

Lemma files_ok_upd s f cf cf' :
  files_ok s -> cachefiles s !! f = Some cf -> CacheFile.filename cf' = CacheFile.filename cf ->
  (CacheFile.addr cf' = true -> exists df, disk s !! CacheFile.filename cf = Some df /\
     CacheFile.len cf' = DiskFile.size df) ->
  files_ok (s <| cachefiles ::= <[f := cf']> |>).
Proof.
  intros Hfo Hf En Ea. split; simpl.
  - intros n g Hg. destruct (fo_cache _ Hfo n g Hg) as (cg & Hcg & Eg).
    destruct (decide (g = f)) as [->|Hne].
    + rewrite lookup_insert_eq. simplify_eq. eauto.
    + rewrite lookup_insert_ne by done. eauto.
  - intros g cg. destruct (decide (g = f)) as [->|Hne].
    + rewrite lookup_insert_eq. intros [= <-]. rewrite En. by apply (fo_named _ Hfo).
    + rewrite lookup_insert_ne by done. apply (fo_named _ Hfo).
  - intros g cg. destruct (decide (g = f)) as [->|Hne].
    + rewrite lookup_insert_eq. intros [= <-]. by rewrite En.
    + rewrite lookup_insert_ne by done. apply (fo_mapped _ Hfo).
  - apply (fo_size _ Hfo).
Qed.

Lemma files_step_ticks s n : files_step s (s <| ticks := n |>).
Proof. split; try done; simpl; [by apply disk_kept_same|eauto 10..]. Qed.

Lemma files_ok_ticks s n : files_ok s -> files_ok (s <| ticks := n |>).
Proof. intros []. by split. Qed.

(** Changes of counts and times. *)
Definition touch (g : CacheFile.t -> CacheFile.t) : Prop := forall cf,
  CacheFile.filename (g cf) = CacheFile.filename cf /\
  CacheFile.mapcount (g cf) = CacheFile.mapcount cf /\
  CacheFile.addr (g cf) = CacheFile.addr cf /\ CacheFile.len (g cf) = CacheFile.len cf.

Lemma wp_touch s f cf g (Q : unit -> State -> Prop) :
  files_ok s -> cachefiles s !! f = Some cf -> touch g ->
  (forall s', files_step s s' -> files_ok s' -> cachefiles s' !! f = Some (g cf) ->
     disk s' = disk s -> next_ptr s' = next_ptr s -> log s' = log s -> Q tt s') ->
  wp (upd cachefiles (Some f) g) s Q.
Proof.
  intros Hfo Hf Hg HQ. destruct (Hg cf) as (En & Em & Ea & El). eapply wp_upd; [done|]. apply HQ.
  - eapply files_step_upd; [done..|]. by rewrite Ea.
  - eapply files_ok_upd; [done..|]. rewrite Ea, El. by apply (fo_mapped _ Hfo f).
  - simpl. apply lookup_insert_eq.
  - done.
  - done.
  - done.
Qed.

Section proofs.
Context `{GSequenceLib} `{Env} `{Gcrypt} `{DiskUsage}.
Context (keys : CryptKeys.t).

(** The state after a file is entered into the table and extended. *)
Definition enter_file (name : bytes) (cf : CacheFile.t) (df : DiskFile.t) (s : State) : State :=
  s <| cachefiles ::= <[next_ptr s := cf]> |> <| next_ptr := Pos.succ (next_ptr s) |>
    <| log ::= (fun g => g <| Log.mmap_cache ::= <[name := next_ptr s]> |>) |>
    <| disk ::= <[name := DiskFile.truncate df max_file_size]> |>.

Lemma enter_file_step xs xl s cf df :
  heap_ok xs xl s -> files_ok s -> disk s !! CacheFile.filename cf = Some df ->
  CacheFile.mapcount cf = 0 -> files_step s (enter_file (CacheFile.filename cf) cf df s).
Proof.
  intros Hok Hfo Hd Hmc. destruct (ho_fresh _ _ _ Hok (next_ptr s)) as (_ & _ & Hc & _); [lia|].
  split; try done; simpl.
  - split; [simpl; by eexists| |done]. simpl.
    intros n d off len b Hn Hr. destruct (decide (n = CacheFile.filename cf)) as [->|Hne].
    + rewrite lookup_insert_eq. simplify_eq. eexists. split; [done|].
      destruct (fo_size _ Hfo _ _ Hd). by apply read_truncate.
    + rewrite lookup_insert_ne by done. eauto.
  - lia.
  - intros f cf1 Hf. rewrite lookup_insert_ne by congruence. eauto 10.
  - intros f cf1. destruct (decide (f = next_ptr s)) as [->|Hne].
    + rewrite lookup_insert_eq. intros [= <-]. right. lia.
    + rewrite lookup_insert_ne by done. left. by eexists.
Qed.

Lemma enter_file_ok xs xl s cf df :
  heap_ok xs xl s -> files_ok s -> disk s !! CacheFile.filename cf = Some df ->
  Log.mmap_cache (log s) !! CacheFile.filename cf = None -> CacheFile.addr cf = false ->
  files_ok (enter_file (CacheFile.filename cf) cf df s).
Proof.
  intros Hok Hfo Hd Hm Ha. destruct (ho_fresh _ _ _ Hok (next_ptr s)) as (_ & _ & Hc & _); [lia|].
  assert (Hne : forall f cf1, cachefiles s !! f = Some cf1 ->
    CacheFile.filename cf1 <> CacheFile.filename cf).
  { intros f cf1 Hf E. pose proof (fo_named _ Hfo _ _ Hf). congruence. }
  split; simpl.
  - intros n f. destruct (decide (n = CacheFile.filename cf)) as [->|Hn].
    + rewrite lookup_insert_eq. intros [= <-]. rewrite lookup_insert_eq. eauto.
    + rewrite lookup_insert_ne by done. intros Hf. destruct (fo_cache _ Hfo n f Hf) as (cf1 & ? & ?).
      rewrite lookup_insert_ne by congruence. eauto.
  - intros f cf1. destruct (decide (f = next_ptr s)) as [->|Hf].
    + rewrite lookup_insert_eq. intros [= <-]. apply lookup_insert_eq.
    + rewrite lookup_insert_ne by done. intros Hf1. specialize (Hne _ _ Hf1).
      rewrite lookup_insert_ne by done. by apply (fo_named _ Hfo).
  - intros f cf1. destruct (decide (f = next_ptr s)) as [->|Hf].
    + rewrite lookup_insert_eq. intros [= <-]. congruence.
    + rewrite lookup_insert_ne by done. intros Hf1. specialize (Hne _ _ Hf1).
      rewrite lookup_insert_ne by done. by apply (fo_mapped _ Hfo f).
  - intros n d. destruct (decide (n = CacheFile.filename cf)) as [->|Hn].
    + rewrite lookup_insert_eq. intros [= <-]. simpl. split; [lia|].
      unfold max_file_size. rewrite length_take. lia.
    + rewrite lookup_insert_ne by done. apply (fo_size _ Hfo).
Qed.

(** A journal file that exists is found, and held by one more reference. *)
Lemma journal_lookup_ok xs xl s seq df :
  heap_ok xs xl s -> files_ok s -> disk s !! journal_name seq = Some df ->
  wp (bluesky_cachefile_lookup (-1) seq true) s (fun r s' =>
    exists f cf, r = Some f /\ files_step s s' /\ files_ok s' /\
      cachefiles s' !! f = Some cf /\ CacheFile.filename cf = journal_name seq).
Proof.
  intros Hok Hfo Hd. unfold bluesky_cachefile_lookup. change (s32 (-1) <? 0) with true. cbv iota zeta.
  wp_step. wp_step. wp_step.
  apply (wp_mono _ _ (fun r s' => exists f cf, r = Some f /\ files_step s s' /\ files_ok s' /\
      cachefiles s' !! f = Some cf /\ CacheFile.filename cf = journal_name seq)).
  - destruct (Log.mmap_cache (log s) !! journal_name seq) as [f|] eqn:Hm.
    + wp_step. destruct (fo_cache _ Hfo _ _ Hm) as (cf & ? & ?). exists f, cf. by split_and!.
    + rewrite Hd. simpl. wp_step. apply wp_alloc. wp_step. wp_step. wp_step. unfold create_and_truncate.
      wp_step. wp_step. do 2 eexists. split; [done|].
      lazymatch goal with |- context [ <[next_ptr s := ?c]> ] => set (cf := c) end.
      assert (forall t, t = enter_file (CacheFile.filename cf) cf df s -> files_step s t /\ files_ok t /\
        cachefiles t !! next_ptr s = Some cf /\ CacheFile.filename cf = journal_name seq) as Ht.
      { intros t ->. split_and!; [by eapply enter_file_step|by eapply enter_file_ok| |done].
        simpl. apply lookup_insert_eq. }
      apply Ht. unfold enter_file. apply State_ext; try done. simpl. by rewrite Hd.
  - intros r s1 (f & cf & -> & Hst & Hfo1 & Hf & En). simpl. wp_step. wp_step. wp_step.
    eapply wp_touch; [done|exact Hf|done|]. intros s2 Hst2 Hfo2 Hf2 _ _ _. wp_step.
    do 2 eexists. split_and!; [done|by etransitivity|done|exact Hf2|done].
Qed.

(** One more string backed by a mapping. *)
Definition map_string (f : ptr) (cf : CacheFile.t) (off len : Z) (s : State) : State :=
  alloc_str (RCStr.mk 1 (Some f) (RCStr.Mapped off) len)
    (s <| cachefiles ::= <[f := cf <| CacheFile.mapcount ::= Z.add 1 |>]> |>).

Lemma str_bytes_mapcount s f cf n str :
  cachefiles s !! f = Some cf ->
  str_bytes (s <| cachefiles ::= <[f := cf <| CacheFile.mapcount := n |>]> |>) str = str_bytes s str.
Proof.
  intros Hf. unfold str_bytes. destruct (RCStr.data str); [done|].
  destruct (RCStr.mmap str) as [g|]; [|done]. simpl.
  destruct (decide (g = f)) as [->|Hne]; [|by rewrite lookup_insert_ne].
  by rewrite lookup_insert_eq, Hf.
Qed.

Lemma heap_ok_map_string xs xl s f cf df off len b :
  heap_ok xs xl s -> cachefiles s !! f = Some cf -> CacheFile.addr cf = true ->
  disk s !! CacheFile.filename cf = Some df -> DiskFile.read df off len = Some b -> zlen b = len ->
  heap_ok (xadd xs (Some (next_ptr s))) xl (map_string f cf off len s) /\
  str_bytes (map_string f cf off len s) (RCStr.mk 1 (Some f) (RCStr.Mapped off) len) = Some b.
Proof.
  intros Hok Hf Ha Hd Hr Hl. pose proof (fresh_str_owners _ _ _ Hok) as Hz.
  destruct (ho_fresh _ _ _ Hok (next_ptr s)) as (Hfr & _); [lia|].
  set (str := RCStr.mk 1 (Some f) (RCStr.Mapped off) len).
  assert (Hb : forall u, str_bytes (map_string f cf off len s) u = str_bytes s u).
  { intros u. change (str_bytes (s <| cachefiles ::= <[f := cf <| CacheFile.mapcount :=
      1 + CacheFile.mapcount cf |>]> |>) u = str_bytes s u). by apply str_bytes_mapcount. }
  assert (Hs : str_bytes s str = Some b) by (unfold str_bytes; simpl; rewrite Hf; simpl; by rewrite Hd).
  split; [|by rewrite Hb]. split; simpl.
  - intros q Hq. change (str_owners (map_string f cf off len s) q) with (str_owners s q) in *.
    unfold xadd in *. destruct (decide (q = next_ptr s)) as [->|Hne].
    + rewrite points_self in *. rewrite lookup_insert_eq. eexists. split; [done|]. simpl. lia.
    + rewrite points_ne in * by done. rewrite lookup_insert_ne by done.
      destruct (ho_strs _ _ _ Hok q) as (u & ? & ?); [lia|]. exists u. split; [done|lia].
  - apply (ho_logs _ _ _ Hok).
  - intros g. assert (map_owners (map_string f cf off len s) g = map_owners s g + points g (Some f)) as ->.
    { unfold map_owners. simpl. rewrite msum_insert_fresh by done. simpl. lia. }
    destruct (decide (g = f)) as [->|Hne].
    + pose proof (ho_files _ _ _ Hok f) as Hm. rewrite Hf in Hm. simpl in Hm.
      rewrite points_self, lookup_insert_eq. simpl. split; [lia|done].
    + rewrite points_ne, lookup_insert_ne by done. rewrite Z.add_0_r. apply (ho_files _ _ _ Hok).
  - intros q u. destruct (decide (q = next_ptr s)) as [->|Hne].
    + rewrite lookup_insert_eq. intros [= <-]. unfold str_wf. simpl. exists off, b. by rewrite Hb.
    + rewrite lookup_insert_ne by done. intros Hq. pose proof (ho_wf _ _ _ Hok q u Hq) as Hw.
      unfold str_wf in *. by rewrite Hb.
  - apply (ho_loc _ _ _ Hok).
  - apply (ho_alive _ _ _ Hok).
  - intros p Hp. destruct (ho_fresh _ _ _ Hok p) as (? & ? & Hc & ?); [lia|].
    rewrite !lookup_insert_ne by (congruence || lia). done.
Qed.

Lemma files_ok_map_string s f cf off len :
  files_ok s -> cachefiles s !! f = Some cf -> files_ok (map_string f cf off len s).
Proof.
  intros Hfo Hf.
  destruct (files_ok_upd s f cf (cf <| CacheFile.mapcount ::= Z.add 1 |>)); [done..| |by split].
  intros Ha. by apply (fo_mapped _ Hfo f cf).
Qed.

Lemma keeps_map_string s f cf off len :
  items_valid s -> cachefiles s !! f = Some cf -> keeps s (map_string f cf off len s).
Proof.
  intros Hv Hf. set (s1 := s <| cachefiles ::= <[f := cf <| CacheFile.mapcount ::= Z.add 1 |>]> |>).
  assert (Hb : forall str, str_bytes s1 str = str_bytes s str) by (intros; by apply str_bytes_mapcount).
  transitivity s1; [|by apply keeps_alloc_str]. split; [eauto 10| |simpl; lia].
  intros p l Hp Hr _. exists l. split_and!; [done|done|]. unfold item_bytes. simpl.
  destruct (CloudLog.data l) as [q|]; [|done].
  destruct (strs s !! q); simpl; by rewrite ?Hb.
Qed.

Lemma read_Some df off len b :
  DiskFile.read df off len = Some b ->
  0 <= off /\ 0 <= len /\ off + len <= DiskFile.size df /\ zlen b = len.
Proof.
  unfold DiskFile.read. destruct (_ && _ && _) eqn:E; [|done].
  apply andb_prop in E as [E E3]. apply andb_prop in E as [E1 E2].
  intros [= <-]. split_and!; [lia..|]. rewrite length_take, length_app, length_replicate. lia.
Qed.

(** One string is new, at [off] of a mapping; files keep their names. *)
Record new_string (off : Z) (q : ptr) (s s' : State) : Prop := {
  ns_strs : exists str, strs s' = <[q := str]> (strs s) /\ RCStr.data str = RCStr.Mapped off;
  ns_names : forall f cf, cachefiles s !! f = Some cf ->
    exists cf', cachefiles s' !! f = Some cf' /\ CacheFile.filename cf' = CacheFile.filename cf;
}.

Lemma new_string_before off q s s1 s' : files_step s s1 -> new_string off q s1 s' -> new_string off q s s'.
Proof.
  intros Hst [Hs Hn]. split; [by rewrite <- (st_strs _ _ Hst)|]. intros f cf Hf.
  destruct (st_files _ _ Hst f cf Hf) as (cf1 & Hf1 & En1 & _). destruct (Hn f cf1 Hf1) as (cf2 & Hf2 & En2).
  exists cf2. split; [done|congruence].
Qed.

Lemma new_string_after off q s s1 s' : new_string off q s s1 -> files_step s1 s' -> new_string off q s s'.
Proof.
  intros [Hs Hn] Hst. split; [by rewrite (st_strs _ _ Hst)|]. intros f cf Hf.
  destruct (Hn f cf Hf) as (cf1 & Hf1 & En1). destruct (st_files _ _ Hst f cf1 Hf1) as (cf2 & Hf2 & En2 & _).
  exists cf2. split; [done|congruence].
Qed.

(** What mapping part of a file leaves: one string with its bytes. *)
Definition mapped (xs xl : ptr -> Z) (s : State) (f : ptr) (off : Z) (b : bytes) (q : ptr) (s' : State) : Prop :=
  heap_ok (xadd xs (Some q)) xl s' /\ files_ok s' /\ keeps s s' /\
  (exists str, strs s' !! q = Some str /\ str_bytes s' str = Some b) /\
  cloudlogs s' = cloudlogs s /\ inodes s' = inodes s /\ fs s' = fs s /\ disk_kept s s' /\
  new_string off q s s' /\ is_Some (cachefiles s' !! f).

Lemma mapped_before xs xl s s1 f off b q s' :
  heap_ok xs xl s -> files_step s s1 -> mapped xs xl s1 f off b q s' -> mapped xs xl s f off b q s'.
Proof.
  intros Hok Hst (? & ? & Hk & ? & ? & ? & ? & Hdk & ? & ?). destruct Hst as [? ? ? ? ? ? Hdk' ? ? ?] eqn:E.
  split_and!; try done; try congruence; [|by etransitivity|by eapply new_string_before].
  transitivity s1; [|done]. by eapply keeps_files.
Qed.

Lemma string_new_from_mmap_ok xs xl s f cf df off len b :
  heap_ok xs xl s -> xnn xs -> files_ok s -> cachefiles s !! f = Some cf -> CacheFile.addr cf = true ->
  disk s !! CacheFile.filename cf = Some df -> DiskFile.read df off len = Some b ->
  wp (bluesky_string_new_from_mmap (Some f) off len) s (mapped xs xl s f off b).
Proof.
  intros Hok Hx Hfo Hf Ha Hd Hr. destruct (read_Some _ _ _ _ Hr) as (B1 & B2 & B3 & B4).
  destruct (fo_mapped _ Hfo f cf Hf Ha) as (df' & Hd' & El). simplify_eq.
  destruct (fo_size _ Hfo _ _ Hd) as [Hsz _]. unfold max_file_size in Hsz.
  unfold bluesky_string_new_from_mmap. wp_step. eapply wp_load; [done|].
  rewrite (s32_id off) by lia. rewrite (u64_id off), u64_id by lia.
  wp_step. wp_step; [lia|]. wp_step. wp_step; [done|]. wp_step. eapply wp_upd; [done|]. apply wp_alloc.
  change (mapped xs xl s f off b (next_ptr s) (map_string f cf off (zlen b) s)).
  destruct (heap_ok_map_string xs xl s f cf df off (zlen b) b) as [Hok' Hb]; try done.
  split_and!; try done.
  - by apply files_ok_map_string.
  - apply keeps_map_string; [by eapply heap_ok_items_valid|done].
  - eexists. split; [apply lookup_insert_eq|exact Hb].
  - by apply disk_kept_same.
  - split; [by eexists|]. simpl. intros g cg Hg. destruct (decide (g = f)) as [->|Hne].
    + rewrite lookup_insert_eq. simplify_eq. eauto.
    + rewrite lookup_insert_ne by done. eauto.
  - simpl. rewrite lookup_insert_eq. by eexists.
Qed.

Lemma map_raw_ok xs xl s f cf df off len b :
  heap_ok xs xl s -> xnn xs -> files_ok s -> cachefiles s !! f = Some cf ->
  disk s !! CacheFile.filename cf = Some df -> DiskFile.read df off len = Some b ->
  wp (bluesky_cachefile_map_raw (Some f) off len) s (fun r s' =>
    exists q, r = Some q /\ mapped xs xl s f off b q s').
Proof.
  intros Hok Hx Hfo Hf Hd Hr. destruct (read_Some _ _ _ _ Hr) as (B1 & B2 & B3 & B4).
  destruct (fo_size _ Hfo _ _ Hd) as [Hsz _]. unfold max_file_size in Hsz.
  unfold bluesky_cachefile_map_raw, bluesky_get_current_time. do 6 wp_step.
  rewrite u64_id by lia. cbv beta zeta.
  lazymatch goal with |- wp _ ?t _ => set (s1 := t) end.
  assert (Hst1 : files_step s s1) by apply files_step_ticks.
  assert (Hfo1 : files_ok s1) by by apply files_ok_ticks.
  wp_step. eapply (wp_touch s1); [done|exact Hf|done|]. intros s2 Hst2 Hfo2 Hf2 Ed2 _ _.
  assert (Hst : files_step s s2) by by etransitivity. pose proof (heap_ok_files _ _ _ _ Hok Hst) as Hok2.
  set (cf2 := cf <| CacheFile.atime := _ |>) in Hf2. wp_step. eapply wp_load; [done|].
  assert (Hd2 : disk s2 !! CacheFile.filename cf2 = Some df) by by rewrite Ed2.
  destruct (CacheFile.addr cf2) eqn:Ha.
  - destruct (fo_mapped _ Hfo2 _ _ Hf2 Ha) as (df' & Hd' & El). rewrite Hd2 in Hd'. injection Hd' as <-.
    replace (off + len <=? CacheFile.len cf2) with true by lia. simpl.
    wp_step. eapply wp_mono; [by eapply string_new_from_mmap_ok|]. intros q s3 Hm. wp_step.
    exists q. split; [done|]. by eapply mapped_before.
  - rewrite andb_false_l. cbv iota. wp_step. wp_step. rewrite Hd2. replace (DiskFile.size df <? off + len) with false by lia.
    change (negb false) with true. cbv iota. wp_step. eapply wp_upd; [done|]. set (cf3 := setf CacheFile.refcount _ _).
    set (s3 := setf cachefiles _ s2).
    assert (Hst3 : files_step s2 s3) by by eapply files_step_upd.
    assert (Hfo3 : files_ok s3) by (eapply files_ok_upd; [done|done|done|]; eauto).
    wp_step. eapply wp_mono.
    { eapply (string_new_from_mmap_ok xs xl s3 f cf3 df); try done.
      - by eapply heap_ok_files.
      - apply lookup_insert_eq. }
    intros q s4 Hm. wp_step. exists q. split; [done|].
    eapply mapped_before; [done| |exact Hm]. by transitivity s2.
Qed.

Lemma files_ok_fs s g : files_ok s -> files_ok (s <| fs ::= g |>).
Proof. intros []. by split. Qed.

Lemma stats_step xs xl s p l n :
  heap_ok xs xl s -> files_ok s -> cloudlogs s !! p = Some l ->
  wp (bluesky_cloudlog_stats_update (Some p) n) s (fun _ s' =>
    heap_ok xs xl s' /\ files_ok s' /\ keeps s s' /\ fs_core (fs s') = fs_core (fs s) /\
    s' = s <| fs := fs s' |>).
Proof.
  intros Hok Hfo Hp. eapply wp_mono; [by apply stats_update_ok|]. intros _ s' [Hok' ->].
  split_and!; [done|by apply files_ok_fs|by apply keeps_same| |done]. simpl.
  destruct (stats_add_fs n (stats_counter l) (fs s)) as (? & ? & ? & ->). done.
Qed.

Lemma journal_bytes_inv d l b :
  journal_bytes d l = Some b -> in_journal l = true /\ CloudLog.type l <> LOGTYPE_UNKNOWN /\
  0 <= CloudLog.log_offset l /\
  exists df, d !! journal_name (CloudLog.log_seq l) = Some df /\
    DiskFile.read df (CloudLog.log_offset l + LogHeader.size) (CloudLog.data_size l) = Some b.
Proof.
  unfold journal_bytes. destruct (in_journal l); [|done]. simpl.
  destruct (CloudLog.type l =? LOGTYPE_UNKNOWN) eqn:E; [done|]. simpl.
  destruct (0 <=? CloudLog.log_offset l) eqn:E'; [|done].
  destruct (d !! _) as [df|]; [|done]. simpl. intros Hr. split_and!; [done|lia|lia|eauto].
Qed.

(** What mapping the data of an item leaves. *)
Definition object_mapped (xs xl : ptr -> Z) (s : State) (off : Z) (b : bytes) (q : ptr) (s' : State) : Prop :=
  heap_ok (xadd xs (Some q)) xl s' /\ files_ok s' /\ keeps s s' /\
  (exists str, strs s' !! q = Some str /\ str_bytes s' str = Some b) /\
  cloudlogs s' = cloudlogs s /\ inodes s' = inodes s /\ fs_core (fs s') = fs_core (fs s) /\ disk_kept s s' /\
  new_string off q s s'.

Lemma map_object_ok xs xl s p l b :
  heap_ok xs xl s -> xnn xs -> files_ok s -> cloudlogs s !! p = Some l ->
  journal_bytes (disk s) l = Some b ->
  wp (bluesky_log_map_object keys (Some p) true) s (fun r s' =>
    exists q, r = Some q /\ object_mapped xs xl s (CloudLog.log_offset l + LogHeader.size) b q s').
Proof.
  intros Hok Hx Hfo Hp Hb. destruct (journal_bytes_inv _ _ _ Hb) as (Hj & _ & Ho & df & Hd & Hr).
  destruct (read_Some _ _ _ _ Hr) as (B1 & B2 & B3 & B4). destruct (fo_size _ Hfo _ _ Hd) as [Hsz _].
  change LogHeader.size with 45 in *. unfold max_file_size in Hsz.
  unfold bluesky_log_map_object. wp_step.
  eapply wp_mono; [by eapply stats_step|]. intros _ s1 (Hok1 & Hfo1 & Hk1 & Hc1 & E1). simpl in Hk1.
  wp_step. eapply wp_load; [by rewrite E1|]. fold (in_journal l). rewrite Hj. wp_step.
  eapply wp_mono; [eapply journal_lookup_ok; [exact Hok1|exact Hfo1|by rewrite E1]|].
  intros r s2 (f & cf & -> & Hst2 & Hfo2 & Hf2 & En). wp_step. wp_step. wp_step.
  assert (exists df2, disk s2 !! CacheFile.filename cf = Some df2 /\
    DiskFile.read df2 (CloudLog.log_offset l + 45) (CloudLog.data_size l) = Some b) as (df2 & Hd2 & Hr2).
  { rewrite En. eapply (st_disk _ _ Hst2); [by rewrite E1|done]. }
  pose proof (heap_ok_files _ _ _ _ Hok1 Hst2) as Hok2. wp_step. cbv iota.
  change LogHeader.size with 45. rewrite (u64_id (CloudLog.log_offset l)), u64_id, s64_id by lia.
  eapply wp_mono; [by eapply map_raw_ok|].
  intros r s3 (q & -> & Hok3 & Hfo3 & Hk3 & Hq3 & El3 & Ei3 & Ef3 & Hdk3 & Hns3 & [cf3 Hf3]).
  wp_step. eapply wp_touch; [done|exact Hf3|done|]. intros s4 Hst4 Hfo4 _ _ _ _. wp_step.
  assert (Hp4 : cloudlogs s4 !! p = Some l).
  { by rewrite (st_logs _ _ Hst4), El3, (st_logs _ _ Hst2), E1. }
  wp_step. eapply wp_mono; [eapply stats_step; [by eapply heap_ok_files|done|exact Hp4]|].
  intros _ s5 (Hok5 & Hfo5 & Hk5 & Hc5 & E5). wp_step. exists q. split; [done|].
  pose proof (keeps_files _ _ _ _ Hok1 Hst2) as Hk2. pose proof (keeps_files _ _ _ _ Hok3 Hst4) as Hk4.
  split_and!; try done.
  - etransitivity; [exact Hk1|]. etransitivity; [exact Hk2|]. etransitivity; [exact Hk3|]. by etransitivity.
  - destruct Hq3 as (str & Hq3 & Hs3). exists str. rewrite E5. simpl. rewrite (st_strs _ _ Hst4).
    split; [done|]. change (str_bytes s4 str = Some b). by eapply files_step_bytes.
  - rewrite E5. simpl. by rewrite (st_logs _ _ Hst4), El3, (st_logs _ _ Hst2), E1.
  - rewrite E5. simpl. by rewrite (st_inodes _ _ Hst4), Ei3, (st_inodes _ _ Hst2), E1.
  - by rewrite Hc5, (st_fs _ _ Hst4), Ef3, (st_fs _ _ Hst2), Hc1.
  - transitivity s1; [rewrite E1; by apply disk_kept_same|]. transitivity s2; [apply Hst2|].
    transitivity s3; [done|]. transitivity s4; [apply Hst4|]. rewrite E5. by apply disk_kept_same.
  - assert (Hns : new_string (CloudLog.log_offset l + 45) q s1 s4)
      by (eapply new_string_after; [by eapply new_string_before|done]).
    rewrite E1 in Hns. rewrite E5. by destruct Hns.
Qed.

Lemma files_ok_view s s' : storage_view s s' -> files_ok s -> files_ok s'.
Proof.
  intros Hv Hfo.
  assert (Hf : forall f cf', cachefiles s' !! f = Some cf' -> exists cf, cachefiles s !! f = Some cf /\
    CacheFile.filename cf = CacheFile.filename cf' /\ CacheFile.len cf = CacheFile.len cf').
  { intros f cf' Hf'. pose proof (vw_files _ _ Hv f) as E. rewrite Hf' in E.
    destruct (cachefiles s !! f) as [cf|]; simpl in E; [|done]. injection E as E. exists cf.
    by destruct cf, cf'; simpl in *; simplify_eq. }
  split; rewrite ?(vw_cache _ _ Hv), ?(vw_disk _ _ Hv).
  - intros n f Hn. destruct (fo_cache _ Hfo n f Hn) as (cf & Hcf & En).
    pose proof (vw_files _ _ Hv f) as E. rewrite Hcf in E.
    destruct (cachefiles s' !! f) as [cf'|] eqn:Hf'; simpl in E; [|done]. exists cf'. split; [done|].
    destruct (Hf f cf' Hf') as (cf1 & ? & ? & _). congruence.
  - intros f cf' Hf'. destruct (Hf f cf' Hf') as (cf & Hcf & <- & _). by apply (fo_named _ Hfo).
  - intros f cf' Hf' Ha. destruct (Hf f cf' Hf') as (cf & Hcf & <- & <-).
    destruct (vw_addr _ _ Hv f cf' Hf' Ha) as (cf1 & ? & ?). simplify_eq. by apply (fo_mapped _ Hfo f).
  - apply (fo_size _ Hfo).
Qed.

Lemma survive_view s s' : survive s s' -> storage_view s s'.
Proof. intros []. split; [done|done|congruence|done|done]. Qed.

(** The data of the item becomes the string just made. *)
Lemma attach_data_ok xs xl s p l q str b :
  heap_ok (xadd xs (Some q)) xl s -> xnn xl -> files_ok s ->
  cloudlogs s !! p = Some l -> 0 < CloudLog.refcount l -> CloudLog.data l = None ->
  journal_bytes (disk s) l = Some b ->
  strs s !! q = Some str -> str_bytes s str = Some b ->
  let l' := l <| CloudLog.data := Some q |> in
  let s' := set_log p l' s in
  heap_ok xs xl s' /\ files_ok s' /\ keeps s s' /\ item_bytes s' l' = Some b.
Proof.
  intros Hok Hx Hfo Hp Hr Ed Hj Hq Hb l' s'. pose proof (ho_alive _ _ _ Hok _ _ Hp Hr) as Ha.
  assert (Hb' : item_bytes s' l' = Some b) by (unfold item_bytes; simpl; rewrite Hq; exact Hb).
  split_and!; [| |split|done].
  - eapply heap_ok_set_log; [exact Hok|exact Hp|done|done| | |].
    + intros r. unfold log_strs. change (dead l') with (dead l). rewrite Ha, Ed. simpl.
      unfold xadd. rewrite points_None. lia.
    + intros r _. unfold log_logs. change (dead l') with (dead l). simpl. lia.
    + unfold log_logs. change (dead l') with (dead l). simpl.
      pose proof (owners_refcount _ _ _ _ _ Hok Hp Hr). lia.
  - destruct Hfo. by split.
  - eauto 10.
  - intros r l1. simpl. destruct (decide (r = p)) as [->|Hne].
    + rewrite lookup_insert_eq. intros [= <-] _ _. exists l. split_and!; [done|done|].
      intros b1. unfold item_bytes at 1. rewrite Ed. simpl. congruence.
    + rewrite lookup_insert_ne by done. intros Hl Hr1 _. eauto.
  - simpl. lia.
Qed.

Lemma journal_fetch_full xs xl s p l b :
  heap_ok xs xl s -> xnn xs -> xnn xl -> files_ok s ->
  cloudlogs s !! p = Some l -> 0 < CloudLog.refcount l -> item_bytes s l = Some b ->
  wp (cloudlog_fetch keys (Some p)) s (fun _ s' =>
    heap_ok xs xl s' /\ files_ok s' /\ keeps s s' /\
    inodes s' = inodes s /\ fs_core (fs s') = fs_core (fs s) /\ disk_kept s s' /\
    exists q, let l' := l <| CloudLog.data := Some q |> in
      cloudlogs s' = <[p := l']> (cloudlogs s) /\ item_bytes s' l' = Some b /\
      (CloudLog.data l = None -> new_string (CloudLog.log_offset l + LogHeader.size) q s s')).
Proof.
  intros Hok Hx Hxl Hfo Hp Hr Hb. unfold cloudlog_fetch. wp_step. eapply wp_load; [done|].
  destruct (CloudLog.data l) as [q|] eqn:Ed.
  { wp_step. split_and!; [done|done|reflexivity|done|done|reflexivity|]. exists q.
    assert (l <| CloudLog.data := Some q |> = l) as -> by (destruct l; simpl in Ed; by subst).
    rewrite insert_id by done. split; [done|]. split; [done|]. congruence. }
  assert (Hj : journal_bytes (disk s) l = Some b) by (unfold item_bytes in Hb; by rewrite Ed in Hb).
  destruct (journal_bytes_inv _ _ _ Hj) as (_ & Ht & _).
  replace (CloudLog.type l =? LOGTYPE_UNKNOWN) with false by lia. unfold when. wp_step. wp_step. wp_step.
  eapply wp_mono; [by eapply map_object_ok|].
  intros r s1 (q & -> & Hok1 & Hfo1 & Hk1 & (str & Hq & Hs) & El & Ei & Ef & Hdk & Hns).
  wp_step. eapply wp_upd; [by rewrite El|]. wp_step; [done|].
  assert (Hp1 : cloudlogs s1 !! p = Some l) by by rewrite El.
  pose proof (heap_ok_log_lt _ _ _ _ _ Hok Hp) as Hlt.
  destruct (kp_logs _ _ Hk1 p l Hp1 Hr Hlt) as (l0 & Hl0 & _ & Hkb).
  assert (l0 = l) as -> by congruence.
  specialize (Hkb b Hb). unfold item_bytes in Hkb. rewrite Ed in Hkb.
  destruct (attach_data_ok xs xl s1 p l q str b) as (Hok2 & Hfo2 & Hk2 & Hb2); try done.
  split_and!; try done.
  - by etransitivity.
  - etransitivity; [done|]. by apply disk_kept_same.
  - exists q. split; [simpl; by rewrite El|]. split; [done|]. intros _. by destruct Hns.
Qed.

Lemma journal_fetch_ok xs xl s p l b :
  heap_ok xs xl s -> xnn xs -> xnn xl -> files_ok s ->
  cloudlogs s !! p = Some l -> 0 < CloudLog.refcount l -> item_bytes s l = Some b ->
  wp (cloudlog_fetch keys (Some p)) s (fun _ s' =>
    heap_ok xs xl s' /\ files_ok s' /\ keeps s s' /\
    inodes s' = inodes s /\ fs_core (fs s') = fs_core (fs s) /\
    exists l' q, cloudlogs s' !! p = Some l' /\ 0 < CloudLog.refcount l' /\
      CloudLog.data l' = Some q /\ item_bytes s' l' = Some b).
Proof.
  intros Hok Hx Hxl Hfo Hp Hr Hb. eapply wp_mono; [by eapply journal_fetch_full|].
  intros _ s' (? & ? & ? & ? & ? & _ & q & El & ? & _). split_and!; [done..|].
  exists (l <| CloudLog.data := Some q |>), q. rewrite El. split; [apply lookup_insert_eq|done].
Qed.

Lemma journal_prefetch_ok xs xl s p l b :
  heap_ok xs xl s -> xnn xs -> xnn xl -> files_ok s ->
  cloudlogs s !! p = Some l -> 0 < CloudLog.refcount l -> item_bytes s l = Some b ->
  wp (cloudlog_prefetch (Some p)) s (fun _ s' =>
    heap_ok xs xl s' /\ files_ok s' /\ keeps s s' /\
    inodes s' = inodes s /\ fs_core (fs s') = fs_core (fs s)).
Proof.
  intros Hok Hx Hxl Hfo Hp Hr Hb. unfold cloudlog_prefetch. wp_step. eapply wp_load; [done|].
  destruct (CloudLog.data l) as [q|] eqn:Ed; [by wp_step|].
  assert (Hj : journal_bytes (disk s) l = Some b) by (unfold item_bytes in Hb; by rewrite Ed in Hb).
  destruct (journal_bytes_inv _ _ _ Hj) as (Hin & Ht & _ & df & Hd & _).
  destruct (_ || _).
  - unfold bluesky_cloudlog_background_fetch, background_fetch_task. wp_step.
    eapply wp_mono; [eapply bluesky_cloudlog_ref_ok; [done..|by eapply owners_refcount]|].
    intros _ s1 (Hok1 & Hsv1 & _). eapply wp_mono; [by apply bluesky_cloudlog_unref_ok|].
    intros _ s2 (Hok2 & Hsv2). assert (Hsv : survive s s2) by by etransitivity.
    split_and!; [done|by eapply files_ok_view; [apply survive_view|]|by eapply keeps_survive|apply Hsv|].
    destruct (sv_fs _ _ Hsv) as (? & ? & ? & ? & ? & ->). done.
  - wp_step. fold (in_journal l). rewrite Hin.
    eapply wp_mono; [by eapply journal_lookup_ok|].
    intros r s1 (f & cf & -> & Hst1 & Hfo1 & Hf1 & En). cbv iota.
    unfold bluesky_get_current_time. do 5 wp_step.
    lazymatch goal with |- wp _ ?t _ => set (s2 := t) end.
    assert (Hst2 : files_step s1 s2) by apply files_step_ticks.
    wp_step. wp_step. eapply (wp_touch s2); [by apply files_ok_ticks|exact Hf1|done|].
    intros s3 Hst3 Hfo3 Hf3 _ _ _.
    eapply wp_touch; [done|exact Hf3|done|]. intros s4 Hst4 Hfo4 _ _ _ _.
    assert (Hst : files_step s s4) by (repeat (etransitivity; [eassumption|]); done).
    split_and!; [by eapply heap_ok_files|done|by eapply keeps_files|apply Hst|by rewrite (st_fs _ _ Hst)].
Qed.

(** C11: Fetching from the journal implements the interface the file code relies
    on.  For a live item whose data is in memory or at its place in a journal
    file, [bluesky_cloudlog_fetch] finishes; then the data of the item is a string
    with exactly the bytes stored there, backed by a mapping that its owners keep
    alive; inodes, other items and other strings keep their contents, although the
    file was extended on the way. *)
Theorem cloudlog_fetch_refines xs xl s p l b :
  heap_ok xs xl s -> xnn xs -> xnn xl -> files_ok s ->
  cloudlogs s !! p = Some l -> 0 < CloudLog.refcount l -> item_bytes s l = Some b ->
  wp (cloudlog_fetch keys (Some p)) s (fun _ s' =>
    heap_ok xs xl s' /\ files_ok s' /\ keeps s s' /\
    inodes s' = inodes s /\ fs_core (fs s') = fs_core (fs s) /\
    exists l' q, cloudlogs s' !! p = Some l' /\ 0 < CloudLog.refcount l' /\
      CloudLog.data l' = Some q /\ item_bytes s' l' = Some b).
Proof. apply journal_fetch_ok. Qed.

(** The journal serves the files. *)
Definition journal_fetch_instance : Fetch := {|
  bluesky_cloudlog_fetch := cloudlog_fetch keys;
  bluesky_cloudlog_prefetch := cloudlog_prefetch;
  storage_ok := files_ok;
  storage_ok_view := files_ok_view;
  fetch_ok := journal_fetch_ok;
  prefetch_ok := journal_prefetch_ok;
|}.
End proofs.

(** ** One item in a journal file *)
Definition journal_item : CloudLog.t :=
  CloudLog.mk 1 LOGTYPE_DATA CLOUDLOG_JOURNAL 0 0 [] 0 0 3 CloudPointer.zero 0 0 52 [] None 0.
Definition journal_state : State :=
  empty_state <| next_ptr := 2%positive |> <| cloudlogs := {[1%positive := journal_item]} |>
    <| disk := {[journal_name 0 := DiskFile.mk (replicate 45 7 ++ [97; 98; 99; 7; 7; 7; 7]) 52]} |>.

Lemma journal_state_ok : heap_ok nox nox journal_state /\ files_ok journal_state.
Proof.
  assert (Hso : forall q, str_owners journal_state q = 0).
  { intros q. unfold str_owners. simpl. unfold singletonM, map_singleton.
    rewrite msum_insert_fresh, !msum_empty by apply lookup_empty. unfold log_strs. simpl. by rewrite points_None. }
  assert (Hlo : forall q, log_owners journal_state q = 0).
  { intros q. unfold log_owners, queue_logs. simpl. unfold singletonM, map_singleton.
    by rewrite msum_insert_fresh, !msum_empty by apply lookup_empty. }
  split.
  - split; [| |done| |done| |].
    + intros q. rewrite Hso. unfold nox. lia.
    + intros q. rewrite Hlo. unfold nox. lia.
    + done.
    + intros p l Hp _. simpl in Hp. by apply lookup_singleton_Some in Hp as [_ <-].
    + intros p Hp. simpl in *. by rewrite lookup_singleton_ne by lia.
  - split; try done. intros n df Hn. simpl in Hn. by apply lookup_singleton_Some in Hn as [_ <-].
Qed.

Lemma cloudlog_fetch_refines_witness :
  wp (cloudlog_fetch (H := linear_gsequence) (CryptKeys.mk [] []) (Some 1%positive)) journal_state (fun _ s' =>
    exists l' q, cloudlogs s' !! 1%positive = Some l' /\ CloudLog.data l' = Some q /\
      item_bytes s' l' = Some [97; 98; 99]).
Proof.
  destruct journal_state_ok as [Hok Hfo].
  refine (wp_mono _ _ _ _ (cloudlog_fetch_refines (H := linear_gsequence) (CryptKeys.mk [] []) nox nox journal_state 1 journal_item
    [97; 98; 99] Hok xnn_nox xnn_nox Hfo _ _ _) _); [apply lookup_singleton_eq|done|vm_compute; reflexivity|].
  intros _ s' (_ & _ & _ & _ & _ & l' & q & ? & _ & ? & ?). eauto 10.
Defined.
