(* ===== verification/LogThread.v ===== *)
(** * Writing the journal (src/bluesky/log.c)

    The thread that appends items to the journal, one file after the other, and
    marks them committed; the number of the first file; commit points.

    One call of [log_thread] is one turn of the thread's loop; it stops with
    [Blocked] when there is nothing to write.  A thread that waits for an item lets
    the log thread take turns. *)

From S2P Require Import Prelude Crc32c Glib Rangeset State Strings Ownership CloudLog Inodes Fetch Imap Serialize Roundtrip RoundtripItem Journal Crypto CacheFiles.
From Stdlib Require Import ZArith Lia.
From stdpp Require Import base numbers gmap option list.

Open Scope Z_scope.

Section log_thread.
Context `{GSequenceLib} `{Env} `{Gcrypt} `{DiskUsage}.
Context (keys : CryptKeys.t).

(** [write] to the open file, at its position; a failing write is fatal. *)
Definition writebuf (buf : bytes) : M State unit :=
  s ← get;
  fd ← assume Assertion (Log.fd (log s));
  modify (fun s => s
    <| disk ::= alter (fun f => DiskFile.write f (Fd.pos fd) buf) (Fd.name fd) |>
    <| log ::= (fun g => g <| Log.fd := Some (Fd.mk (Fd.name fd) (Fd.pos fd + zlen buf)) |>) |>).

(** One item of [log->committed]. *)
Definition commit_item (item : ptr) : M State unit :=
  bluesky_cloudlog_stats_update (Some item) (-1);;
  upd cloudlogs (Some item) (fun l =>
    l <| CloudLog.pending_write ::= fun f => Z.land f (Z.lnot CLOUDLOG_JOURNAL) |>
      <| CloudLog.location_flags ::= fun f =>
           Z.lor (Z.land f (Z.lnot CLOUDLOG_UNCOMMITTED)) CLOUDLOG_JOURNAL |>);;
  bluesky_cloudlog_stats_update (Some item) 1;;
  modify (fun s => s <| log ::= (fun g => g <| Log.committed ::= tail |>) |>);;
  bluesky_cloudlog_unref (Some item).

Definition log_commit : M State unit :=
  s ← get;
  match Log.fd (log s) with
  | None => mret tt
  | Some _ =>
    update_disk_used (Log.current_log (log s));;
    for_each (Log.committed (log s)) commit_item
  end.

(** The loop over names that are taken; a file exists for each turn. *)
Fixpoint log_open_loop (fuel : nat) : M State unit :=
  s ← get;
  let logname := journal_name (Log.seq_num (log s)) in
  match disk s !! logname with
  | None =>
    modify (fun s => s <| disk ::= <[logname := DiskFile.empty]> |>
      <| log ::= (fun g => g <| Log.fd := Some (Fd.mk logname 0) |>) |>)
  | Some _ =>
    match fuel with
    | O => stop OutOfFuel
    | S fuel =>
      modify (fun s => s <| log ::= (fun g => g <| Log.seq_num ::= fun n => s32 (n + 1) |>) |>);;
      log_open_loop fuel
    end
  end.

Definition log_open : M State unit :=
  s ← get;
  when (match Log.fd (log s) with Some _ => true | None => false end)
    (log_commit;;
     modify (fun s => s <| log ::= (fun g =>
       g <| Log.seq_num ::= fun n => s32 (n + 1) |> <| Log.fd := None |>) |>));;
  s ← get;
  match Log.current_log (log s) with
  | Some _ =>
    bluesky_cachefile_unref (Log.current_log (log s));;
    modify (fun s => s <| log ::= (fun g => g <| Log.current_log := None |>) |>)
  | None => mret tt
  end;;
  s ← get;
  log_open_loop (size (disk s));;
  s ← get;
  current ← bluesky_cachefile_lookup (-1) (Log.seq_num (log s)) false;
  modify (fun s => s <| log ::= (fun g => g <| Log.current_log := current |>) |>);;
  check Assertion (match current with Some _ => true | None => false end);;
  create_and_truncate (journal_name (Log.seq_num (log s))) LOG_SEGMENT_SIZE.

(** The header of the record of an item at an offset. *)
Definition item_header (l : CloudLog.t) (offset : Z) (data : bytes * bytes * bytes) : LogHeader.t :=
  LogHeader.mk HEADER_MAGIC (u8 (CloudLog.type l + 48)) (u32 offset)
    (u32 (zlen data.1.1)) (u32 (zlen data.1.2)) (u32 (zlen data.2))
    (CloudLog.inum l) (CloudLog.id l).

Definition log_offset_now : M State Z :=
  s ← get;
  mret (match Log.fd (log s) with Some fd => Fd.pos fd | None => 0 end).

(** Writing an item that is not in the journal yet. *)
Definition log_write_item (item : ptr) : M State unit :=
  bluesky_cloudlog_stats_update (Some item) (-1);;
  upd cloudlogs (Some item) (fun l =>
    l <| CloudLog.pending_write ::= fun f => Z.lor f CLOUDLOG_JOURNAL |>);;
  bluesky_cloudlog_stats_update (Some item) 1;;
  data ← bluesky_serialize_cloudlog (Some item);
  let size := LogHeader.size + LogFooter.size
              + zlen data.1.1 + zlen data.1.2 + zlen data.2 in
  offset ← log_offset_now;
  offset ← (if (LOG_SEGMENT_SIZE <=? u64 (offset + size)) && (0 <? offset)
            then log_open;; mret 0 else mret offset);
  l ← load cloudlogs (Some item);
  writebuf (journal_record (item_header l offset data) data.1.1 data.1.2 data.2);;
  str ← load strs (CloudLog.data l);
  s ← get;
  upd cloudlogs (Some item) (fun l =>
    l <| CloudLog.log_seq := Log.seq_num (log s) |> <| CloudLog.log_offset := s32 offset |>
      <| CloudLog.log_size := s32 size |> <| CloudLog.data_size := s32 (RCStr.len str) |>);;
  bluesky_string_unref (CloudLog.data l);;
  upd cloudlogs (Some item) (fun l => l <| CloudLog.data := None |>);;
  cloudlog_fetch keys (Some item);;
  modify (fun s => s <| log ::= (fun g => g <| Log.committed ::= cons item |>) |>);;
  upd cloudlogs (Some item) (fun l => l <| CloudLog.data_lock_count ::= Z.add (-1) |>).

(** One turn of the loop. *)
Definition log_thread : M State unit :=
  s ← get;
  when (match Log.fd (log s) with Some _ => false | None => true end) log_open;;
  s ← get;
  item ← assume Blocked (head (Log.queue (log s)));
  modify (fun s => s <| log ::= (fun g => g <| Log.queue ::= tail |>) |>);;
  l ← load cloudlogs (Some item);
  check Assertion (match CloudLog.data l with Some _ => true | None => false end);;
  if has (Z.lor (CloudLog.location_flags l) (CloudLog.pending_write l)) CLOUDLOG_JOURNAL then
    bluesky_cloudlog_unref (Some item);;
    upd cloudlogs (Some item) (fun l => l <| CloudLog.data_lock_count ::= Z.add (-1) |>)
  else
    log_write_item item;;
    s ← get;
    when (match Log.queue (log s) with [] => true | _ => false end) log_commit.

(** ** Starting the log *)

(** Digits at the start of a string. *)
Fixpoint atoi_digits (n : Z) (str : bytes) : Z :=
  match str with
  | c :: str => if (48 <=? c) && (c <=? 57) then atoi_digits (10 * n + (c - 48)) str else n
  | [] => n
  end.
Fixpoint atoi (str : bytes) : Z :=
  match str with
  | c :: str' =>
    if (c =? 32) || ((9 <=? c) && (c <=? 13)) then atoi str'
    else s32 (if c =? 45 then - atoi_digits 0 str' else
              if c =? 43 then atoi_digits 0 str' else atoi_digits 0 str)
  | [] => 0
  end.

(** ["journal-"]. *)
Definition journal_prefix : bytes := [106; 111; 117; 114; 110; 97; 108; 45].
Definition is_journal (file : bytes) : bool := bool_decide (take 8 file = journal_prefix).

(** [names] are the files of the directory, in the order they are listed. *)
Definition first_seq_num (names : list bytes) : Z :=
  foldl (fun n file => if is_journal file then Z.max n (s32 (atoi (drop 8 file) + 1)) else n) 0 names.

Definition bluesky_log_new (names : list bytes) : M State unit :=
  modify (fun s => s <| log := Log.mk [] None (first_seq_num names) [] None ∅ 0 0 |>).

(** ** Waiting and commit points *)

(** A thread waits for an item: the log thread takes its turns meanwhile. *)
Fixpoint cond_wait (fuel : nat) (waiting : CloudLog.t -> bool) (item : ptr) : M State unit :=
  l ← load cloudlogs (Some item);
  if waiting l then
    match fuel with
    | O => stop Blocked
    | S fuel => log_thread;; cond_wait fuel waiting item
    end
  else mret tt.

(** Every turn takes an item from the queue. *)
Definition wait_item (waiting : CloudLog.t -> bool) (item : ptr) : M State unit :=
  s ← get; cond_wait (length (Log.queue (log s))) waiting item.

Definition uncommitted (l : CloudLog.t) : bool := has (CloudLog.location_flags l) CLOUDLOG_UNCOMMITTED.

Definition bluesky_log_finish_all (log_items : list ptr) : M State unit :=
  for_each log_items (fun item => wait_item uncommitted item;; bluesky_cloudlog_unref (Some item)).

Definition bluesky_log_get_commit_point : M State ptr :=
  marker ← bluesky_cloudlog_new None;
  upd cloudlogs (Some marker) (fun l => l <| CloudLog.type := LOGTYPE_JOURNAL_MARKER |>);;
  data ← bluesky_string_new [];
  upd cloudlogs (Some marker) (fun l => l <| CloudLog.data := Some data |>);;
  bluesky_cloudlog_stats_update (Some marker) 1;;
  bluesky_cloudlog_sync (Some marker);;
  wait_item (fun l => has (CloudLog.pending_write l) CLOUDLOG_JOURNAL) marker;;
  mret marker.

Definition bluesky_log_write_commit_point (marker : ptr) : M State unit :=
  commit ← bluesky_cloudlog_new None;
  upd cloudlogs (Some commit) (fun l => l <| CloudLog.type := LOGTYPE_JOURNAL_CHECKPOINT |>);;
  m ← load cloudlogs (Some marker);
  data ← bluesky_string_new_from_gstring
           (le_bytes 4 (u32 (CloudLog.log_seq m)) ++ le_bytes 4 (u32 (CloudLog.log_offset m)));
  upd cloudlogs (Some commit) (fun l => l <| CloudLog.data := Some data |>);;
  bluesky_cloudlog_stats_update (Some commit) 1;;
  bluesky_cloudlog_sync (Some commit);;
  wait_item uncommitted commit;;
  bluesky_cloudlog_unref (Some marker);;
  bluesky_cloudlog_unref (Some commit).
End log_thread.
