(* ===== verification/Names.v ===== *)
(** * Numbers in text (src/bluesky/log.c, src/bluesky/store-simple.c)

    The decimal numbers of file names and commands, and reading them with [atoi]. *)

From S2P Require Import Prelude State CacheFiles LogThread.
From Stdlib Require Import ZArith Lia.
From stdpp Require Import base numbers gmap option list.

Open Scope Z_scope.

Lemma atoi_digits_app n d1 d2 :
  Forall (fun c => 48 <= c <= 57) d1 -> atoi_digits n (d1 ++ d2) = atoi_digits (atoi_digits n d1) d2.
Proof.
  revert n. induction d1 as [|c d1 IH]; intros n Hd; [done|]. inversion_clear Hd. simpl.
  rewrite (proj2 (Z.leb_le 48 c)), (proj2 (Z.leb_le c 57)) by lia. simpl. by apply IH.
Qed.

Lemma digits_ok fuel n :
  0 <= n < 10 ^ Z.of_nat fuel ->
  Forall (fun c => 48 <= c <= 57) (digits fuel n) /\
  forall m, atoi_digits m (digits fuel n) = m * 10 ^ Z.of_nat (length (digits fuel n)) + n.
Proof.
  revert n. induction fuel as [|fuel IH]; intros n Hn; simpl digits; [simpl in Hn; split; [constructor|intros; simpl; lia]|].
  destruct (Z.ltb_spec n 10).
  - split; [repeat constructor; lia|]. intros m. simpl.
    rewrite (proj2 (Z.leb_le 48 _)), (proj2 (Z.leb_le _ 57)) by lia. simpl. lia.
  - assert (Hq : 0 <= n / 10 < 10 ^ Z.of_nat fuel).
    { rewrite Nat2Z.inj_succ, Z.pow_succ_r in Hn by lia. split; [apply Z.div_pos; lia|apply Z.div_lt_upper_bound; lia]. }
    pose proof (Z.mod_pos_bound n 10 ltac:(lia)) as Hm. destruct (IH _ Hq) as [Hd Ha]. split.
    + apply Forall_app. split; [done|]. repeat constructor; lia.
    + intros m. rewrite atoi_digits_app by done. rewrite Ha. simpl.
      rewrite (proj2 (Z.leb_le 48 _)), (proj2 (Z.leb_le _ 57)) by lia. simpl.
      rewrite length_app, Nat.add_comm, Nat2Z.inj_add, Z.pow_add_r by lia. pose proof (Z.div_mod n 10). simpl. lia.
Qed.

Lemma atoi_digits_zeros k d : atoi_digits 0 (replicate k 48 ++ d) = atoi_digits 0 d.
Proof. induction k as [|k IH]; [done|]. simpl. exact IH. Qed.

(** A number, and what follows it. *)
Lemma atoi_number d t :
  Forall (fun c => 48 <= c <= 57) d -> d <> [] -> (forall c, head t = Some c -> ~ 48 <= c <= 57) ->
  atoi (d ++ t) = s32 (atoi_digits 0 d).
Proof.
  intros Hd Hne Ht.
  assert (E : atoi_digits 0 (d ++ t) = atoi_digits 0 d).
  { rewrite atoi_digits_app by done. destruct t as [|c t]; [done|]. simpl.
    destruct (Z.leb_spec 48 c), (Z.leb_spec c 57); try done. by destruct (Ht c). }
  rewrite <- E. destruct d as [|c d]; [done|]. inversion_clear Hd as [|? ? Hc]. rewrite <- app_comm_cons. cbn [atoi].
  rewrite (proj2 (Z.eqb_neq c 32)), (proj2 (Z.leb_gt c 13)) by lia. rewrite andb_false_r. simpl orb. cbv iota.
  by rewrite (proj2 (Z.eqb_neq c 45)), (proj2 (Z.eqb_neq c 43)) by lia.
Qed.

Lemma digits_not_nil fuel n : digits (S fuel) n <> [].
Proof. cbn [digits]. destruct (n <? 10); [done|]. intros [_ E]%app_nil. done. Qed.

(** The number is found again in the name of a journal file. *)
Lemma atoi_format n : 0 <= n < 2 ^ 31 -> atoi (format_08d n) = n.
Proof.
  intros Hn. unfold format_08d. rewrite (proj2 (Z.ltb_ge n 0)), Z.abs_eq by lia.
  destruct (digits_ok 10 n) as [Hd Ha]; [simpl; lia|]. rewrite <- (app_nil_r (_ ++ _)), atoi_number; [|..|done].
  - rewrite atoi_digits_zeros, Ha, s32_id; lia.
  - apply Forall_app. split; [apply Forall_replicate; lia|done].
  - intros [_ E]%app_nil. by apply digits_not_nil in E.
Qed.

Lemma journal_name_inj m n :
  0 <= m < 2 ^ 31 -> 0 <= n < 2 ^ 31 -> journal_name m = journal_name n -> m = n.
Proof.
  intros Hm Hn E. unfold journal_name in E. rewrite !s32_id in E by lia. simplify_list_eq.
  by rewrite <- (atoi_format m), <- (atoi_format n), E.
Qed.

Lemma journal_segment_name n d m : journal_name n <> segment_name d m.
Proof. done. Qed.

