(* ===== verification/LogAppend.v ===== *)
(** * Appending to the journal

    What [log_thread] does to the journal: the record of an item goes behind the
    records that are there, everything that could be read from the files before
    can be read after, and the data of the item, now backed by the journal, has not
    changed. *)

From S2P Require Import Prelude Crc32c Glib Rangeset State Strings Ownership CloudLog Inodes Fetch Imap Serialize Roundtrip RoundtripItem Journal Crypto CacheFiles JournalFetch LogThread.
From Stdlib Require Import ZArith Lia.
From stdpp Require Import base numbers gmap option list.

Open Scope Z_scope.

(** ** Files *)

Lemma length_write df off b :
  0 <= off -> zlen (DiskFile.prefix (DiskFile.write df off b)) = Z.max (zlen (DiskFile.prefix df)) (off + zlen b).
Proof.
  intros Ho. unfold DiskFile.write. simpl.
  rewrite !length_app, length_take, length_drop, !length_app, length_replicate. lia.
Qed.

(** The byte at a place of a file; zero where nothing has been written. *)
Definition file_byte (df : DiskFile.t) (k : nat) : Z := default 0 (DiskFile.prefix df !! k).

Lemma read_file_byte df off len b :
  DiskFile.read df off len = Some b <->
  0 <= off /\ 0 <= len /\ off + len <= DiskFile.size df /\
  b = file_byte df <$> seq (Z.to_nat off) (Z.to_nat len).
Proof.
  assert (E : take (Z.to_nat len) (drop (Z.to_nat off) (DiskFile.prefix df) ++ replicate (Z.to_nat len) 0)
    = file_byte df <$> seq (Z.to_nat off) (Z.to_nat len)).
  { apply list_eq. intros k. rewrite list_lookup_fmap.
    destruct (decide (k < Z.to_nat len)%nat) as [Hk|].
    - rewrite lookup_take_lt, lookup_seq_lt by done. simpl. unfold file_byte.
      destruct (DiskFile.prefix df !! (Z.to_nat off + k)%nat) as [x|] eqn:Ep.
      + rewrite lookup_app_l by (rewrite length_drop; apply lookup_lt_Some in Ep; lia). by rewrite lookup_drop.
      + apply lookup_ge_None in Ep. rewrite lookup_app_r by (rewrite length_drop; lia).
        apply lookup_replicate_2. rewrite length_drop. lia.
    - rewrite lookup_take_ge, lookup_seq_ge by lia. done. }
  unfold DiskFile.read. rewrite E. destruct (_ && _ && _) eqn:B.
  - apply andb_prop in B as [B B3]. apply andb_prop in B as [B1 B2]. split.
    + intros [= <-]. split_and!; [lia..|done].
    + by intros (_ & _ & _ & ->).
  - split; [done|]. intros (? & ? & ? & _). apply andb_false_iff in B as [B|B]; [|lia].
    apply andb_false_iff in B as [B|B]; lia.
Qed.

Lemma file_byte_write df pos b k :
  0 <= pos -> file_byte (DiskFile.write df pos b) k =
  if decide (Z.to_nat pos <= k < Z.to_nat pos + length b)%nat
  then default 0 (b !! (k - Z.to_nat pos)%nat) else file_byte df k.
Proof.
  intros Hp. unfold file_byte, DiskFile.write. cbn [DiskFile.prefix]. set (q := DiskFile.prefix df).
  set (z := (Z.to_nat pos - length q)%nat). set (n := Z.to_nat pos).
  assert (Hl : length (q ++ replicate z 0) = Nat.max (length q) n) by (rewrite length_app, length_replicate; lia).
  assert (Hz : forall j, default 0 ((q ++ replicate z 0) !! j) = default 0 (q !! j)).
  { intros j. destruct (q !! j) as [x|] eqn:Ej; [by rewrite (lookup_app_l_Some _ _ _ _ Ej)|].
    apply lookup_ge_None in Ej as Ej'. rewrite lookup_app_r by done.
    destruct (replicate z 0 !! _) as [y|] eqn:Ey; [|done]. by apply lookup_replicate in Ey as [-> _]. }
  rewrite lookup_app. destruct (take n (q ++ replicate z 0) !! k) as [x|] eqn:Et.
  - apply lookup_take_Some in Et as [Et Hk]. rewrite decide_False by lia. rewrite <- Hz, Et. done.
  - apply lookup_ge_None in Et. rewrite length_take in Et.
    rewrite length_take, Nat.min_l by lia. rewrite lookup_app. destruct (decide _) as [Hin|Hout].
    + destruct (lookup_lt_is_Some_2 b (k - n)) as [x Hx]; [lia|]. by rewrite Hx.
    + rewrite (lookup_ge_None_2 b) by lia. rewrite lookup_drop. rewrite <- Hz. do 2 f_equal. lia.
Qed.

(** What lies below the place written to stays. *)
Lemma read_write_below df pos b off len c :
  off + len <= pos -> pos + zlen b <= DiskFile.size df ->
  DiskFile.read df off len = Some c -> DiskFile.read (DiskFile.write df pos b) off len = Some c.
Proof.
  intros Hbelow Hsz. rewrite !read_file_byte. intros (H1 & H2 & H3 & ->). split_and!; [done|done|simpl; lia|].
  apply list_fmap_ext. intros i x [-> Hi]%lookup_seq. rewrite file_byte_write by lia. by rewrite decide_False by lia.
Qed.

(** A file read from its start: [write_at] on what is read. *)
Lemma read_write_all df pos b n c :
  DiskFile.read df 0 n = Some c -> 0 <= pos -> pos + zlen b <= n ->
  DiskFile.read (DiskFile.write df pos b) 0 n = Some (write_at c (Z.to_nat pos) b).
Proof.
  rewrite !read_file_byte. intros (H1 & H2 & H3 & ->) Hp Hn. split_and!; [done|done|simpl; lia|].
  change (Z.to_nat 0) with 0%nat. apply list_eq. intros k.
  rewrite lookup_write_at by (rewrite length_fmap, length_seq; lia). rewrite !list_lookup_fmap.
  destruct (decide (k < Z.to_nat n)%nat) as [Hk|Hk].
  - rewrite lookup_seq_lt by done. simpl. rewrite file_byte_write by done. case_decide as Hd; [|done].
    destruct (lookup_lt_is_Some_2 b (k - Z.to_nat pos)) as [x ->]; [lia|done].
  - rewrite lookup_seq_ge by lia. rewrite decide_False by lia. done.
Qed.

(** ** The end of the open file *)

(** No string and no item reads the file at [pos] or behind it. *)
Record unused (name : bytes) (pos : Z) (s : State) : Prop := {
  un_strs : forall q str off f cf, strs s !! q = Some str -> RCStr.data str = RCStr.Mapped off ->
    RCStr.mmap str = Some f -> cachefiles s !! f = Some cf -> CacheFile.filename cf = name ->
    off + RCStr.len str <= pos;
  un_logs : forall p l, cloudlogs s !! p = Some l -> CloudLog.data l = None -> in_journal l = true ->
    journal_name (CloudLog.log_seq l) = name ->
    CloudLog.log_offset l + LogHeader.size + CloudLog.data_size l <= pos;
}.

Definition appended (name : bytes) (pos : Z) (buf : bytes) (s : State) : State :=
  s <| disk ::= alter (fun f => DiskFile.write f pos buf) name |>
    <| log ::= (fun g => g <| Log.fd := Some (Fd.mk name (pos + zlen buf)) |>) |>.

Section append.
Context (s : State) (name : bytes) (pos : Z) (buf : bytes) (df : DiskFile.t).
Context (Hun : unused name pos s) (Hd : disk s !! name = Some df).
Context (Hsz : pos + zlen buf <= DiskFile.size df).

Lemma appended_read n f off len c :
  disk s !! n = Some f -> DiskFile.read f off len = Some c -> (n = name -> off + len <= pos) ->
  exists f', disk (appended name pos buf s) !! n = Some f' /\ DiskFile.read f' off len = Some c.
Proof using Hd Hsz.
  intros Hn Hr Hb. simpl. destruct (decide (n = name)) as [->|Hne].
  - rewrite lookup_alter_eq, Hn. simplify_eq. simpl. eexists. split; [done|]. apply read_write_below; auto.
  - rewrite lookup_alter_ne by done. eauto.
Qed.

Lemma appended_str_bytes q str b :
  strs s !! q = Some str -> str_bytes s str = Some b -> str_bytes (appended name pos buf s) str = Some b.
Proof using Hun Hd Hsz.
  intros Hq. unfold str_bytes. destruct (RCStr.data str) as [|off] eqn:Ed; [done|].
  destruct (RCStr.mmap str) as [f|] eqn:Em; simpl; [|done].
  destruct (cachefiles s !! f) as [cf|] eqn:Hf; simpl; [|done].
  destruct (disk s !! CacheFile.filename cf) as [df'|] eqn:Hd'; simpl; [|done]. intros Hr.
  destruct (appended_read _ _ _ _ _ Hd' Hr) as (f' & Hf' & Hr').
  - intros En. by eapply (un_strs _ _ _ Hun).
  - simpl in Hf'. by rewrite Hf'.
Qed.

Lemma appended_heap_ok xs xl : heap_ok xs xl s -> heap_ok xs xl (appended name pos buf s).
Proof using Hun Hd Hsz.
  intros Hok. split.
  - apply (ho_strs _ _ _ Hok).
  - apply (ho_logs _ _ _ Hok).
  - apply (ho_files _ _ _ Hok).
  - intros q str Hq. pose proof (ho_wf _ _ _ Hok q str Hq) as Hw. unfold str_wf in *.
    destruct (RCStr.mmap str); [|done]. destruct Hw as (off & b & ? & Hb & ?).
    exists off, b. split_and!; [done| |done]. by eapply appended_str_bytes.
  - apply (ho_loc _ _ _ Hok).
  - apply (ho_alive _ _ _ Hok).
  - apply (ho_fresh _ _ _ Hok).
Qed.

Lemma appended_keeps xs xl : heap_ok xs xl s -> keeps s (appended name pos buf s).
Proof using Hun Hd Hsz.
  intros Hok. split; [| |simpl; lia].
  - intros q str Hq _. exists str. split_and!; [done..|].
    pose proof (ho_wf _ _ _ Hok q str Hq) as Hw. unfold str_wf in Hw. destruct (RCStr.mmap str) eqn:Em.
    + destruct Hw as (off & b & _ & Hb & _). rewrite Hb. by eapply appended_str_bytes.
    + destruct Hw as (b & Eb & _). unfold str_bytes. by rewrite Eb.
  - intros p l Hp Hr _. exists l. split_and!; [done|done|]. intros b. unfold item_bytes.
    destruct (CloudLog.data l) as [q|] eqn:Edl.
    + simpl. destruct (strs s !! q) as [str|] eqn:Hq; simpl; [|done]. by eapply appended_str_bytes.
    + cbn [stored journal_storage]. intros Hb. destruct (journal_bytes_inv _ _ _ Hb) as (Hj & _ & _ & f & Hf & Hrd).
      destruct (appended_read _ _ _ _ _ Hf Hrd) as (f' & Hf' & Hr').
      { intros En. by eapply (un_logs _ _ _ Hun). }
      unfold journal_bytes in *. destruct (_ && _); [|done]. rewrite Hf'. done.
Qed.

Lemma appended_files_ok : 0 <= pos -> files_ok s -> files_ok (appended name pos buf s).
Proof using Hun Hd Hsz.
  intros Hp Hfo. assert (Hdisk : forall n, disk (appended name pos buf s) !! n
    = if decide (n = name) then Some (DiskFile.write df pos buf) else disk s !! n).
  { intros n. simpl. case_decide as E; [subst; by rewrite lookup_alter_eq, Hd|by rewrite lookup_alter_ne]. }
  split; [apply (fo_cache _ Hfo)|apply (fo_named _ Hfo)| |].
  - intros f cf Hf Ha. destruct (fo_mapped _ Hfo f cf Hf Ha) as (df' & Hd' & El). rewrite Hdisk.
    case_decide as E; [|eauto]. eexists. split; [done|]. rewrite E in Hd'. simplify_eq. simpl. lia.
  - intros n f. rewrite Hdisk. case_decide as E; [|apply (fo_size _ Hfo)]. intros [= <-].
    destruct (fo_size _ Hfo _ _ Hd). rewrite length_write by done. simpl. lia.
Qed.
End append.

(** ** Changing an item *)

(** [l'] is [l] as far as ownership is concerned. *)
Definition same_item (l l' : CloudLog.t) : Prop :=
  CloudLog.id l' = CloudLog.id l /\ CloudLog.type l' = CloudLog.type l /\
  CloudLog.refcount l' = CloudLog.refcount l /\ CloudLog.links l' = CloudLog.links l /\
  CloudLog.data l' = CloudLog.data l.

Lemma heap_ok_retag xs xl s p l l' :
  heap_ok xs xl s -> cloudlogs s !! p = Some l -> 0 < CloudLog.refcount l -> same_item l l' ->
  heap_ok xs xl (set_log p l' s).
Proof.
  intros Hok Hp Hr (Ei & Et & Er & El & Ed).
  assert (Hdead : dead l' = dead l) by (unfold dead; by rewrite Et).
  assert (Hls : forall q, log_strs q l' = log_strs q l) by (intros; unfold log_strs; by rewrite Hdead, Ed).
  assert (Hll : forall q, log_logs q l' = log_logs q l) by (intros; unfold log_logs; by rewrite Hdead, El).
  eapply heap_ok_set_log; [done|done|done| | | |].
  - rewrite Er, Hdead. by apply (ho_alive _ _ _ Hok p).
  - intros q. rewrite Hls. lia.
  - intros r _. rewrite Hll. lia.
  - rewrite Hll, Er. pose proof (owners_refcount _ _ _ _ _ Hok Hp Hr). lia.
Qed.

(** With the data in memory the contents do not depend on the rest. *)
Lemma keeps_retag s p l l' g :
  cloudlogs s !! p = Some l -> same_item l l' -> is_Some (CloudLog.data l) ->
  keeps s ((set_log p l' s) <| fs := g |>).
Proof.
  intros Hp (_ & _ & Er & _ & Ed) [q Hq]. split; [eauto 10| |simpl; lia].
  intros r lr. simpl. destruct (decide (r = p)) as [->|Hne].
  - rewrite lookup_insert_eq. intros [= <-] Hr _. exists l. split_and!; [done|lia|].
    intros b. unfold item_bytes. by rewrite Ed, Hq.
  - rewrite lookup_insert_ne by done. eauto.
Qed.

Lemma name_of_retag s p l l' o :
  cloudlogs s !! p = Some l -> same_item l l' -> CloudLog.location l' = CloudLog.location l ->
  name_of (set_log p l' s) o = name_of s o.
Proof.
  intros Hp (Ei & _) Eloc. unfold name_of. destruct o as [r|]; simpl; [|done].
  destruct (decide (r = p)) as [->|Hne]; [|by rewrite lookup_insert_ne].
  rewrite lookup_insert_eq, Hp. simpl. by rewrite Ei, Eloc.
Qed.

Lemma unused_retag name pos s p l l' g :
  is_Some (CloudLog.data l) -> same_item l l' -> unused name pos s ->
  unused name pos ((set_log p l' s) <| fs := g |>).
Proof.
  intros [q Hq] (_ & _ & _ & _ & Ed) [Hs Hl]. split; [done|]. intros r lr. simpl.
  destruct (decide (r = p)) as [->|Hne]; [rewrite lookup_insert_eq; intros [= <-]; congruence|].
  rewrite lookup_insert_ne by done. apply Hl.
Qed.

(** ** Giving up the data *)

Lemma survive_name s s' f cf' :
  survive s s' -> cachefiles s' !! f = Some cf' ->
  exists cf, cachefiles s !! f = Some cf /\ CacheFile.filename cf = CacheFile.filename cf'.
Proof.
  intros Hsv Hf. pose proof (sv_files _ _ Hsv f) as E. rewrite Hf in E.
  destruct (cachefiles s !! f) as [cf|]; simpl in E; [|done]. injection E as E. exists cf. split; [done|].
  by destruct cf, cf'; simpl in *; simplify_eq.
Qed.

(** No cache file goes. *)
Definition files_stay (s s' : State) : Prop := forall f, is_Some (cachefiles s !! f) -> is_Some (cachefiles s' !! f).

Lemma survive_file s s' f : survive s s' -> is_Some (cachefiles s !! f) -> is_Some (cachefiles s' !! f).
Proof.
  intros Hsv [cf Hf]. pose proof (sv_files _ _ Hsv f) as E. rewrite Hf in E.
  destruct (cachefiles s' !! f); [by eexists|done].
Qed.

(** The string may go with the reference; the bytes are in the journal. *)
Lemma keeps_detach xs xl s s1 p l b :
  let l' := l <| CloudLog.data := None |> in
  heap_ok xs xl (set_log p l' s1) -> xnn xs -> survive s s1 -> cloudlogs s1 = cloudlogs s ->
  cloudlogs s !! p = Some l -> item_bytes s l = Some b -> journal_bytes (disk s) l = Some b ->
  keeps s (set_log p l' s1).
Proof.
  intros l' Hok Hx Hsv El Hp Hb Hj.
  assert (Hstr : forall q str', strs s1 !! q = Some str' -> exists str, strs s !! q = Some str /\
    RCStr.data str' = RCStr.data str /\ RCStr.mmap str' = RCStr.mmap str /\
    RCStr.len str' = RCStr.len str /\ str_bytes s1 str' = str_bytes s str).
  { intros q str' Hq. destruct (sv_strs _ _ Hsv _ _ Hq) as (str & Hs & E & _). exists str.
    rewrite E at 1 2 3 4. split_and!; [done..|]. by apply survive_str_bytes. }
  split; [eauto| |simpl; rewrite (sv_next _ _ Hsv); lia].
  intros r lr Hr Hrc _. pose proof Hr as Hr0. simpl in Hr. rewrite El in Hr. destruct (decide (r = p)) as [->|Hne].
  - rewrite lookup_insert_eq in Hr. injection Hr as <-. exists l. split_and!; [done|done|].
    intros b1 Hb1. unfold item_bytes. simpl. rewrite (sv_disk _ _ Hsv). change (journal_bytes (disk s) l = Some b1). congruence.
  - rewrite lookup_insert_ne in Hr by done. exists lr. split_and!; [done|done|]. intros b1. unfold item_bytes.
    destruct (CloudLog.data lr) as [q|] eqn:Ed.
    + destruct (heap_ok_log_data _ _ _ _ _ _ Hok Hx Hr0 Hrc Ed) as (str' & Hq & _).
      destruct (Hstr q _ Hq) as (str & Hs & _ & _ & _ & Eb). simpl in *. rewrite Hq, Hs. simpl. by rewrite <- Eb.
    + simpl. by rewrite (sv_disk _ _ Hsv).
Qed.

Section detach.
Context `{Env}.

Lemma detach_ok xs xl s p l q b :
  heap_ok xs xl s -> xnn xs -> files_ok s ->
  cloudlogs s !! p = Some l -> 0 < CloudLog.refcount l -> CloudLog.data l = Some q ->
  item_bytes s l = Some b -> journal_bytes (disk s) l = Some b ->
  wp (bluesky_string_unref (CloudLog.data l);;
      upd cloudlogs (Some p) (fun l => l <| CloudLog.data := None |>)) s (fun _ s' =>
    let l' := l <| CloudLog.data := None |> in
    heap_ok xs xl s' /\ files_ok s' /\ keeps s s' /\ disk s' = disk s /\ log s' = log s /\
    inodes s' = inodes s /\ fs s' = fs s /\ cloudlogs s' = <[p := l']> (cloudlogs s) /\
    item_bytes s' l' = Some b /\ files_stay s s' /\
    forall name pos, unused name pos s ->
      (journal_name (CloudLog.log_seq l) = name -> CloudLog.log_offset l + LogHeader.size + CloudLog.data_size l <= pos) ->
      unused name pos s').
Proof.
  intros Hok Hx Hfo Hp Hr Hq Hb Hj. eapply wp_mono; [by apply (drop_data_ok xs xl s p l q)|].
  intros _ s2 (Hok2 & s1 & Hsv & El & Ef & ->).
  split_and!; [done| |by eapply keeps_detach|apply Hsv|apply Hsv|apply Hsv|done|simpl; by rewrite El| | |].
  - destruct (files_ok_view s s1 (survive_view _ _ Hsv) Hfo). by split.
  - unfold item_bytes. simpl. by rewrite (sv_disk _ _ Hsv).
  - intros f. exact (survive_file s s1 f Hsv).
  - intros name pos [Hs Hl] Hpos. split.
    + intros r sr off f cf Hr1 Ed Em Hf En. destruct (sv_strs _ _ Hsv _ _ Hr1) as (sr0 & Hr0 & Er & _).
      rewrite Er in Ed, Em |- *. simpl in Hf. destruct (survive_name _ _ _ _ Hsv Hf) as (cf0 & Hf0 & En0).
      simpl. eapply Hs; [done..|congruence].
    + intros r lr. simpl. rewrite El. destruct (decide (r = p)) as [->|Hne].
      * rewrite lookup_insert_eq. intros [= <-] _ _. apply Hpos.
      * rewrite lookup_insert_ne by done. apply Hl.
Qed.
End detach.

(** ** The record of an item *)

(** What is written about the links of an item. *)
Definition link_ids (s : State) (l : CloudLog.t) : bytes := (name_of s <$> CloudLog.links l) ≫= name_id.
Definition link_locations (s : State) (l : CloudLog.t) : bytes := (name_of s <$> CloudLog.links l) ≫= name_loc.

(** The entry of the journal for an item with data [b]. *)
Definition entry_of_item (s : State) (l : CloudLog.t) (pos : Z) (b : bytes) : Entry.t :=
  Entry.mk (item_header l pos (b, link_ids s l, link_locations s l)) b (link_ids s l) (link_locations s l).

(** Items that can be written and read back. *)
Record writable (s : State) (l : CloudLog.t) (b : bytes) : Prop := {
  wr_type : 0 < CloudLog.type l < 208;
  wr_id : length (CloudLog.id l) = 16%nat /\ are_bytes (CloudLog.id l);
  wr_inum : 0 <= CloudLog.inum l < 2 ^ 64;
  wr_data : are_bytes b;
  wr_links : are_bytes (link_ids s l);
  wr_point : CloudLog.type l = LOGTYPE_JOURNAL_CHECKPOINT -> length b = 8%nat;
}.

Lemma link_locations_bytes s l : are_bytes (link_locations s l).
Proof.
  unfold link_locations. induction (name_of s <$> CloudLog.links l) as [|[[id loc]|] D IH]; [constructor| |exact IH].
  rewrite bind_cons. apply Forall_app. split; [|exact IH]. cbn [name_loc]. unfold pointer_bytes. rewrite !Forall_app.
  split_and!; apply le_bytes_are_bytes.
Qed.

Lemma u8_id z : 0 <= z < 256 -> u8 z = z.
Proof. intros. unfold u8. by apply Z.mod_small. Qed.

Lemma entry_of_item_wf s l pos b :
  writable s l b -> 0 <= pos < 2 ^ 32 ->
  zlen b + zlen (link_ids s l) + zlen (link_locations s l) < 2 ^ 32 ->
  Entry.wf pos (entry_of_item s l pos b) /\
  zlen (Entry.record (entry_of_item s l pos b))
    = 53 + zlen b + zlen (link_ids s l) + zlen (link_locations s l).
Proof.
  intros [Ht [Hid Hidb] Hin Hb Hl Hpt] Hpos Htot.
  assert (W : entry_wf (item_header l pos (b, link_ids s l, link_locations s l)) b (link_ids s l) (link_locations s l)).
  { unfold item_header. simpl. rewrite u8_id, (u32_id pos), (u32_id (zlen b)), (u32_id (zlen (link_ids s l))),
      (u32_id (zlen (link_locations s l))) by lia.
    split; try done; [|apply link_locations_bytes]. split; unfold is_u; simpl; try lia; done. }
  split.
  - split; [done| |].
    + simpl. by rewrite u32_id by lia.
    + unfold Entry.is_checkpoint. simpl. rewrite u8_id by lia. intros E. apply Hpt. lia.
  - unfold Entry.record, entry_of_item. cbn [Entry.header Entry.data1 Entry.data2 Entry.data3].
    rewrite (length_journal_record _ _ _ _ W), (record_size_eq _ _ _ _ W).
    unfold LogHeader.size, LogFooter.size. simpl. lia.
Qed.

(** The data of an item is found again behind the header of its record. *)
Lemma read_written df pos a b c :
  0 <= pos -> pos + zlen (a ++ b ++ c) <= DiskFile.size df ->
  DiskFile.read (DiskFile.write df pos (a ++ b ++ c)) (pos + zlen a) (zlen b) = Some b.
Proof.
  intros Hp Hs. apply read_file_byte. rewrite !length_app in Hs. split_and!; [lia|lia|simpl; lia|].
  apply list_eq. intros k. rewrite list_lookup_fmap. destruct (decide (k < length b)%nat) as [Hk|Hk].
  - rewrite lookup_seq_lt by lia. simpl. rewrite file_byte_write by done.
    rewrite decide_True by (rewrite !length_app; lia).
    destruct (lookup_lt_is_Some_2 b k Hk) as [x Hx]. rewrite Hx. f_equal.
    rewrite lookup_app_r by lia. replace (Z.to_nat (pos + zlen a) + k - Z.to_nat pos - length a)%nat with k by lia.
    by rewrite (lookup_app_l_Some _ _ _ _ Hx).
  - rewrite lookup_seq_ge by lia. apply lookup_ge_None. lia.
Qed.

Lemma write_at_end (c w : bytes) n :
  (length w <= n)%nat -> write_at (c ++ replicate n 0) (length c) w = c ++ w ++ replicate (n - length w) 0.
Proof.
  intros Hw. unfold write_at. rewrite take_app_length. do 2 f_equal.
  rewrite drop_app_ge by lia. rewrite drop_replicate. f_equal. lia.
Qed.

(** ** The journal *)

(** The open file holds the records [es] and zeros, and the position is behind
    them. *)
Record journal_ok (es : list Entry.t) (s : State) : Prop := {
  jo_fd : Log.fd (log s) = Some (Fd.mk (journal_name (Log.seq_num (log s))) (zlen (journal_file es)));
  jo_wf : entries_wf 0 es;
  jo_file : exists df, disk s !! journal_name (Log.seq_num (log s)) = Some df /\
    DiskFile.read df 0 LOG_SEGMENT_SIZE
    = Some (journal_file es ++ replicate (Z.to_nat LOG_SEGMENT_SIZE - length (journal_file es)) 0);
  jo_unused : unused (journal_name (Log.seq_num (log s))) (zlen (journal_file es)) s;
}.

Lemma has_lor_journal f : has (Z.lor f CLOUDLOG_JOURNAL) CLOUDLOG_JOURNAL = true.
Proof.
  unfold has. apply negb_true_iff, Z.eqb_neq. rewrite Z.land_lor_distr_l. unfold CLOUDLOG_JOURNAL.
  simpl. intros E. apply (f_equal (fun z => Z.testbit z 0)) in E. rewrite Z.lor_spec in E.
  simpl in E. by rewrite orb_true_r in E.
Qed.

Lemma files_ok_set_log s p l g : files_ok s -> files_ok ((set_log p l s) <| fs := g |>).
Proof. intros []. by split. Qed.

Section write.
Context `{GSequenceLib} `{Env} `{Gcrypt} `{DiskUsage}.
Context (keys : CryptKeys.t).

(** Changing the flags of an item between the two updates of the statistics. *)
Lemma wp_retag {A} xs xl s p l f (k : M State A) Q :
  heap_ok xs xl s -> files_ok s -> cloudlogs s !! p = Some l -> 0 < CloudLog.refcount l -> same_item l (f l) ->
  (forall g, let s' := (set_log p (f l) s) <| fs := g |> in fs_core g = fs_core (fs s) ->
     heap_ok xs xl s' -> files_ok s' -> wp k s' Q) ->
  wp (bluesky_cloudlog_stats_update (Some p) (-1);; upd cloudlogs (Some p) f;;
      bluesky_cloudlog_stats_update (Some p) 1;; k) s Q.
Proof.
  intros Hok Hfo Hp Hr Hsame HQ. wp_step. eapply wp_mono; [by eapply stats_step|].
  intros _ s1 (Hok1 & Hfo1 & _ & Hc1 & E1). assert (Hp1 : cloudlogs s1 !! p = Some l) by (by rewrite E1).
  wp_step. eapply wp_upd; [done|]. change (setf cloudlogs _ s1) with (set_log p (f l) s1).
  pose proof (heap_ok_retag _ _ _ _ _ _ Hok1 Hp1 Hr Hsame) as Hok2.
  assert (Hfo2 : files_ok (set_log p (f l) s1)) by (destruct Hfo1; by split).
  wp_step. eapply wp_mono; [eapply stats_step; [done|done|apply lookup_insert_eq]|].
  intros _ s3 (Hok3 & Hfo3 & _ & Hc3 & E3). simpl in Hc3.
  assert (s3 = (set_log p (f l) s) <| fs := fs s3 |>) as E by (rewrite E3 at 1; rewrite E1; done).
  rewrite E in Hok3, Hfo3 |- *. apply HQ; [|done|done]. by rewrite Hc3, Hc1.
Qed.

Lemma link_exists xs xl s p l r :
  heap_ok xs xl s -> xnn xl -> cloudlogs s !! p = Some l -> 0 < CloudLog.refcount l ->
  Some r ∈ CloudLog.links l -> exists lr, cloudlogs s !! r = Some lr.
Proof.
  intros Hok Hx Hp Hr Hin. destruct (ho_logs _ _ _ Hok r) as (lr & ? & _); [|eauto].
  pose proof (msum_elem (log_logs r) (cloudlogs s) p l (log_logs_nonneg r) Hp) as Hle.
  assert (1 <= log_logs r l).
  { unfold log_logs. rewrite (ho_alive _ _ _ Hok p l Hp Hr).
    pose proof (lsum_elem (points r) (CloudLog.links l) _ (points_nonneg r) Hin) as Hl.
    rewrite points_self in Hl. exact Hl. }
  pose proof (log_owners_nonneg (s <| cloudlogs := ∅ |>) r) as Hnn. specialize (Hx r).
  unfold log_owners, queue_logs in *. simpl in *. rewrite msum_empty in Hnn. lia.
Qed.

Lemma serialize_cloudlog_ok xs xl s p l b :
  heap_ok xs xl s -> xnn xl -> cloudlogs s !! p = Some l -> 0 < CloudLog.refcount l ->
  is_Some (CloudLog.data l) -> item_bytes s l = Some b ->
  wp (bluesky_serialize_cloudlog (Some p)) s (fun r s' => s' = s /\ r = (b, link_ids s l, link_locations s l)).
Proof.
  intros Hok Hx Hp Hr [q Hq] Hb. unfold bluesky_serialize_cloudlog, item_data. wp_step. eapply wp_load; [done|].
  unfold item_bytes in Hb. rewrite Hq in Hb. destruct (strs s !! q) as [str|] eqn:Hs; [|done]. simpl in Hb.
  wp_step. wp_step. eapply wp_load; [done|]. rewrite Hq. wp_step. eapply wp_load; [done|].
  wp_step. wp_step. rewrite Hb. wp_step; [done|].
  wp_step. eapply wp_mono; [apply serialize_links_ok|].
  - intros r Hin. by eapply link_exists.
  - intros r s' [-> ->]. by wp_step.
Qed.

(** Two steps of a sequence at once. *)
Lemma wp_two {A B C} (m : M State A) (f : A -> M State B) (k : B -> M State C) s Q :
  wp (m ≫= f) s (fun b s' => wp (k b) s' Q) -> wp (m ≫= fun a => f a ≫= k) s Q.
Proof. unfold wp, mbind, M_bind. destruct (m s) as [a s1|]; [|done]. by destruct (f a s1). Qed.

Lemma wp_three {A B C D} (m : M State A) (f : A -> M State B) (g : B -> M State C) (k : C -> M State D) s Q :
  wp (m ≫= fun a => f a ≫= g) s (fun c s' => wp (k c) s' Q) -> wp (m ≫= fun a => f a ≫= fun b => g b ≫= k) s Q.
Proof.
  unfold wp, mbind, M_bind. destruct (m s) as [a s1|]; [|done]. destruct (f a s1) as [b s2|]; [|done].
  by destruct (g b s2).
Qed.

(** The reference in hand goes to the list of written items. *)
Lemma heap_ok_committed xs xl s p :
  heap_ok xs (xadd xl (Some p)) s -> heap_ok xs xl (s <| log ::= (fun g => g <| Log.committed ::= cons p |>) |>).
Proof.
  intros Hok. eapply (heap_ok_move xs (xadd xl (Some p)) xs xl s); try done; simpl.
  - intros r. unfold xadd, log_owners, queue_logs. simpl. lia.
  - intros r Hr. destruct (ho_fresh _ _ _ Hok r Hr) as (_ & _ & _ & ? & ?). done.
Qed.

Lemma unused_mono name pos pos' s : pos <= pos' -> unused name pos s -> unused name pos' s.
Proof.
  intros Hle [Hs Hl]. split.
  - intros q str off f cf H1' H2' H3' H4' H5'. specialize (Hs q str off f cf H1' H2' H3' H4' H5'). lia.
  - intros p l H1' H2' H3' H4'. specialize (Hl p l H1' H2' H3' H4'). lia.
Qed.

Lemma append_record_ok xs xl s es e :
  heap_ok xs xl s -> files_ok s -> journal_ok es s -> Entry.wf (zlen (journal_file es)) e ->
  zlen (journal_file (es ++ [e])) <= LOG_SEGMENT_SIZE ->
  wp (writebuf (Entry.record e)) s (fun _ s' =>
    s' = appended (journal_name (Log.seq_num (log s))) (zlen (journal_file es)) (Entry.record e) s /\
    heap_ok xs xl s' /\ files_ok s' /\ keeps s s' /\ journal_ok (es ++ [e]) s' /\
    exists df, disk s' !! journal_name (Log.seq_num (log s)) = Some df /\
      DiskFile.read df (zlen (journal_file es) + LogHeader.size) (zlen (Entry.data1 e)) = Some (Entry.data1 e)).
Proof.
  intros Hok Hfo [Jfd Jwf (df & Jd & Jr) Jun] We Hsz. rewrite journal_file_snoc, length_app in Hsz.
  set (name := journal_name (Log.seq_num (log s))) in *. set (pos := zlen (journal_file es)) in *.
  set (rec := Entry.record e) in *. destruct (read_Some _ _ _ _ Jr) as (_ & _ & Hdf & _).
  assert (Hend : pos + zlen rec <= DiskFile.size df) by (unfold pos; lia).
  unfold writebuf. wp_step. wp_step. wp_step. rewrite Jfd. wp_step; [done|]. wp_step.
  change (setf log _ _) with (appended name pos rec s). set (s' := appended name pos rec s).
  assert (Hd' : disk s' !! name = Some (DiskFile.write df pos rec)) by (simpl; by rewrite lookup_alter_eq, Jd).
  split; [done|]. split; [by eapply appended_heap_ok|]. split; [eapply appended_files_ok; [done..|lia|done]|].
  split; [by eapply appended_keeps|]. split.
  - split.
    + change (Some (Fd.mk name (pos + zlen rec)) = Some (Fd.mk name (zlen (journal_file (es ++ [e]))))).
      rewrite journal_file_snoc, length_app. do 2 f_equal. unfold pos, rec. lia.
    + apply entries_wf_app. split; [done|]. split; [exact We|done].
    + exists (DiskFile.write df pos rec). split; [exact Hd'|].
      rewrite (read_write_all _ _ _ _ _ Jr) by (unfold pos; lia). f_equal. unfold pos. rewrite Nat2Z.id.
      rewrite write_at_end by lia. rewrite journal_file_snoc, <- (assoc_L (++)). do 3 f_equal.
      rewrite length_app. unfold rec. lia.
    + change (unused name (zlen (journal_file (es ++ [e]))) s'). destruct Jun as [Js Jl].
      apply (unused_mono name pos); [rewrite journal_file_snoc, length_app; unfold pos; lia|by split].
  - eexists. split; [exact Hd'|].
    pose proof (length_log_header _ (LogHeaderWf.id _ (ew_header _ _ _ _ (Entry.wf_entry _ _ We)))) as Hh.
    rewrite <- Hh. apply read_written; [unfold pos; lia|exact Hend].
Qed.

(** A string made for the data of an item below [pos]. *)
Lemma unused_fetch xs xl xs' xl' s s' name pos p l' q off b :
  heap_ok xs xl s -> heap_ok xs' xl' s' -> unused name pos s -> new_string off q s s' ->
  cloudlogs s' = <[p := l']> (cloudlogs s) -> CloudLog.data l' = Some q -> item_bytes s' l' = Some b ->
  off + zlen b <= pos -> unused name pos s'.
Proof.
  intros Hok Hok' [Us Ul] [(str & Es & Ed) Hn] Ec Hq Hb Hpos.
  assert (Hstr : strs s' !! q = Some str) by (rewrite Es; apply lookup_insert_eq). split.
  - intros r sr o f cf Hr Edr Em Hf En. rewrite Es in Hr. destruct (decide (r = q)) as [->|Hne].
    + rewrite lookup_insert_eq in Hr. injection Hr as <-. rewrite Ed in Edr. injection Edr as <-.
      unfold item_bytes in Hb. rewrite Hq, Hstr in Hb. simpl in Hb.
      pose proof (ho_wf _ _ _ Hok' q str Hstr) as Hw. unfold str_wf in Hw. rewrite Em in Hw.
      destruct Hw as (? & b' & _ & Hb' & Hlen). assert (b' = b) as -> by congruence. lia.
    + rewrite lookup_insert_ne in Hr by done. pose proof (map_owners_pos _ _ _ f Hr Em).
      destruct (ho_maps _ _ _ Hok f) as (cf0 & Hf0 & _); [lia|]. destruct (Hn f cf0 Hf0) as (cf1 & Hf1 & En1).
      eapply Us; [done..|]. congruence.
  - intros r lr. rewrite Ec. destruct (decide (r = p)) as [->|Hne].
    + rewrite lookup_insert_eq. intros [= <-]. congruence.
    + rewrite lookup_insert_ne by done. apply Ul.
Qed.

(** The data of the item, now read from the file. *)
Lemma reload_ok xs xl s es p l b q :
  heap_ok xs xl s -> xnn xs -> xnn xl -> files_ok s -> journal_ok es s ->
  cloudlogs s !! p = Some l -> 0 < CloudLog.refcount l -> CloudLog.data l = Some q ->
  item_bytes s l = Some b -> journal_bytes (disk s) l = Some b ->
  CloudLog.log_offset l + LogHeader.size + CloudLog.data_size l <= zlen (journal_file es) ->
  CloudLog.data_size l = zlen b ->
  wp (bluesky_string_unref (CloudLog.data l);;
      upd cloudlogs (Some p) (fun l => l <| CloudLog.data := None |>);;
      cloudlog_fetch keys (Some p)) s (fun _ s' =>
    heap_ok xs xl s' /\ files_ok s' /\ keeps s s' /\ inodes s' = inodes s /\
    (exists m, log s' = (log s) <| Log.mmap_cache := m |>) /\ journal_ok es s' /\ files_stay s s' /\
    exists q, let l' := l <| CloudLog.data := Some q |> in
      cloudlogs s' = <[p := l']> (cloudlogs s) /\ item_bytes s' l' = Some b /\
      journal_bytes (disk s') l' = Some b).
Proof.
  intros Hok Hx Hxl Hfo [Jfd Jwf (df & Jd & Jr) Jun] Hp Hr Hq Hb Hj Hpos Hsz.
  apply wp_two. eapply wp_mono; [by eapply detach_ok|].
  intros _ s1 (Hok1 & Hfo1 & Hk1 & Ed1 & El1 & Ei1 & Ef1 & Ec1 & Hb1 & Hst1 & Hun1).
  assert (Hp1 : cloudlogs s1 !! p = Some (l <| CloudLog.data := None |>)) by (rewrite Ec1; apply lookup_insert_eq).
  eapply wp_mono; [by eapply (journal_fetch_full keys xs xl s1 p _ b)|].
  intros _ s2 (Hok2 & Hfo2 & Hk2 & Ei2 & _ & [[m Em] Hdk _] & q' & Ec2 & Hb2 & Hns). specialize (Hns eq_refl).
  split_and!; [done|done|by etransitivity|congruence|exists m; congruence| | |].
  - split.
    + rewrite Em, El1. exact Jfd.
    + done.
    + rewrite Em, El1. change (Log.seq_num (setf _ _ _)) with (Log.seq_num (log s)). rewrite <- Ed1 in Jd. apply (Hdk _ _ _ _ _ Jd Jr).
    + rewrite Em, El1. change (Log.seq_num (setf _ _ _)) with (Log.seq_num (log s)). specialize (Hun1 _ _ Jun (fun _ => Hpos)).
      eapply (unused_fetch xs xl xs xl s1 s2); [done..|rewrite Hsz in Hpos; exact Hpos].
  - intros f Hf. destruct (Hst1 f Hf) as [cf Hf1]. destruct (ns_names _ _ _ _ Hns f cf Hf1) as (cf' & ? & _). by eexists.
  - exists q'. split; [rewrite Ec2, Ec1; by rewrite insert_insert_eq|]. split; [done|].
    destruct (journal_bytes_inv _ _ _ Hj) as (? & ? & ? & f & Hf & Hrd). rewrite <- Ed1 in Hf.
    destruct (Hdk _ _ _ _ _ Hf Hrd) as (f' & Hf' & Hr'). clear Jr.
    unfold journal_bytes in *. simpl in *. destruct (_ && _); [|done]. by rewrite Hf'.
Qed.

Lemma journal_ok_retag es s p l l' g :
  is_Some (CloudLog.data l) -> same_item l l' -> journal_ok es s -> journal_ok es ((set_log p l' s) <| fs := g |>).
Proof. intros Hd Hs [? ? ? ?]. split; [done..|]. by apply (unused_retag _ _ _ p l). Qed.

Lemma journal_ok_log es s f :
  (forall g, Log.fd (f g) = Log.fd g /\ Log.seq_num (f g) = Log.seq_num g) ->
  journal_ok es s -> journal_ok es (s <| log ::= f |>).
Proof.
  intros Hf [Jfd Jwf Jd [Js Jl]]. destruct (Hf (log s)) as [E1 E2].
  split; change (log (setf log f s)) with (f (log s)); rewrite ?E1, ?E2; [done..|]. by split.
Qed.

(** What writing an item leaves: its record behind the others, its place recorded,
    its data kept. *)
Definition item_written (xs xl : ptr -> Z) (es : list Entry.t) (p : ptr) (l : CloudLog.t) (b : bytes)
    (s s' : State) : Prop :=
  let pos := zlen (journal_file es) in
  heap_ok xs xl s' /\ files_ok s' /\ keeps s s' /\ inodes s' = inodes s /\
  journal_ok (es ++ [entry_of_item s l pos b]) s' /\
  Log.queue (log s') = Log.queue (log s) /\ Log.committed (log s') = p :: Log.committed (log s) /\
  Log.current_log (log s') = Log.current_log (log s) /\ files_stay s s' /\
  exists l', cloudlogs s' = <[p := l']> (cloudlogs s) /\ in_journal l' = true /\
    CloudLog.log_seq l' = Log.seq_num (log s) /\ CloudLog.log_offset l' = pos /\
    CloudLog.log_size l' = zlen (Entry.record (entry_of_item s l pos b)) /\
    item_bytes s' l' = Some b /\ journal_bytes (disk s') l' = Some b.

(** From the record in the file to the end. *)
Lemma place_ok xs xl s es e p l b size :
  let pos := zlen (journal_file es) in
  heap_ok xs (xadd xl (Some p)) s -> xnn xs -> xnn xl -> files_ok s -> journal_ok (es ++ [e]) s ->
  cloudlogs s !! p = Some l -> is_Some (CloudLog.data l) -> item_bytes s l = Some b -> in_journal l = true ->
  CloudLog.type l <> LOGTYPE_UNKNOWN -> b = Entry.data1 e -> 0 <= size < 2 ^ 31 ->
  pos + LogHeader.size + zlen b <= zlen (journal_file (es ++ [e])) < 2 ^ 31 ->
  (exists df, disk s !! journal_name (Log.seq_num (log s)) = Some df /\
    DiskFile.read df (pos + LogHeader.size) (zlen b) = Some b) ->
  wp (str ← load strs (CloudLog.data l);
      s ← get;
      upd cloudlogs (Some p) (fun l =>
        l <| CloudLog.log_seq := Log.seq_num (log s) |> <| CloudLog.log_offset := s32 pos |>
          <| CloudLog.log_size := s32 size |> <| CloudLog.data_size := s32 (RCStr.len str) |>);;
      bluesky_string_unref (CloudLog.data l);;
      upd cloudlogs (Some p) (fun l => l <| CloudLog.data := None |>);;
      cloudlog_fetch keys (Some p);;
      modify (fun s => s <| log ::= (fun g => g <| Log.committed ::= cons p |>) |>);;
      upd cloudlogs (Some p) (fun l => l <| CloudLog.data_lock_count ::= Z.add (-1) |>)) s (fun _ s' =>
    heap_ok xs xl s' /\ files_ok s' /\ keeps s s' /\ inodes s' = inodes s /\
    journal_ok (es ++ [e]) s' /\
    Log.queue (log s') = Log.queue (log s) /\ Log.committed (log s') = p :: Log.committed (log s) /\
    Log.current_log (log s') = Log.current_log (log s) /\ files_stay s s' /\
    exists l', cloudlogs s' = <[p := l']> (cloudlogs s) /\ in_journal l' = true /\
      CloudLog.log_seq l' = Log.seq_num (log s) /\ CloudLog.log_offset l' = pos /\
      CloudLog.log_size l' = size /\
      item_bytes s' l' = Some b /\ journal_bytes (disk s') l' = Some b).
Proof.
  intros pos Hok Hx Hxl Hfo Hjo Hp [q Hq] Hb Hinj Hty Hbe Hsize Hend (df & Hd & Hrd).
  assert (Hr : 0 < CloudLog.refcount l).
  { destruct (heap_ok_log _ _ _ _ Hok Hxl) as (l0 & ? & ?). simplify_eq.
    pose proof (log_owners_nonneg s p). specialize (Hxl p). lia. }
  pose proof Hb as Hb0. unfold item_bytes in Hb0. rewrite Hq in Hb0.
  destruct (strs s !! q) as [str|] eqn:Hs; [|done]. simpl in Hb0.
  assert (Hlen : RCStr.len str = zlen b).
  { pose proof (ho_wf _ _ _ Hok q str Hs) as Hw. unfold str_wf in Hw. destruct (RCStr.mmap str) eqn:Em.
    - destruct Hw as (? & b' & _ & Hb' & <-). congruence.
    - destruct Hw as (b' & Ed & ->). unfold str_bytes in Hb0. rewrite Ed in Hb0. congruence. }
  wp_step. rewrite Hq. eapply wp_load; [done|]. wp_step. wp_step. wp_step. eapply wp_upd; [done|].
  rewrite Hlen, !s32_id by (unfold pos, LogHeader.size in *; lia).
  lazymatch goal with |- wp _ (setf cloudlogs <[p := ?x]> s) _ => set (l1 := x) end.
  change (setf cloudlogs _ s) with ((set_log p l1 s) <| fs := fs s |>). set (s1 := _ <| fs := fs s |>).
  assert (Hsame : same_item l l1) by done.
  assert (Es1 : s1 = set_log p l1 s) by (unfold s1; by destruct s).
  assert (Hok1 : heap_ok xs (xadd xl (Some p)) s1) by (rewrite Es1; by eapply heap_ok_retag).
  assert (Hj1 : journal_bytes (disk s1) l1 = Some b).
  { unfold journal_bytes. change (in_journal l1) with (in_journal l). rewrite Hinj. simpl.
    rewrite (proj2 (Z.eqb_neq _ _)), (proj2 (Z.leb_le _ _)) by (done || unfold pos; lia). simpl. by rewrite Hd. }
  assert (Hrl : CloudLog.data l1 = Some q) by done. rewrite <- Hrl. apply wp_three.
  eapply wp_mono; [eapply (reload_ok xs (xadd xl (Some p)) s1 (es ++ [e]) p l1 b q); try done|].
  { auto with bluesky. }
  { by apply files_ok_set_log. }
  { by apply (journal_ok_retag _ s p l). }
  { apply lookup_insert_eq. }
  { unfold item_bytes. rewrite Hrl. unfold item_bytes in Hb. by rewrite Hq in Hb. }
  { simpl. unfold LogHeader.size in *. lia. }
  intros _ s2 (Hok2 & Hfo2 & Hk2 & Ei2 & (m & Em) & Hjo2 & Hst2 & q2 & Ec2 & Hb2 & Hj2).
  set (l2 := l1 <| CloudLog.data := Some q2 |>) in *.
  wp_step. wp_step. pose proof (heap_ok_committed _ _ _ _ Hok2) as Hok3.
  set (s3 := s2 <| log ::= _ |>) in *. assert (Hp3 : cloudlogs s3 !! p = Some l2) by (simpl; rewrite Ec2; apply lookup_insert_eq).
  eapply wp_upd; [done|]. set (l4 := l2 <| CloudLog.data_lock_count ::= _ |>).
  assert (Hsame4 : same_item l2 l4) by done. change (setf cloudlogs _ s3) with (set_log p l4 s3).
  assert (E4 : set_log p l4 s3 = (set_log p l4 s3) <| fs := fs s3 |>) by (by destruct s3).
  assert (Hk : keeps s s2) by (transitivity s1; [by apply (keeps_retag s p l)|done]).
  split_and!.
  - by eapply heap_ok_retag.
  - rewrite E4. apply files_ok_set_log. by destruct Hfo2.
  - transitivity s2; [done|]. transitivity s3; [by apply keeps_same|]. rewrite E4. by apply (keeps_retag s3 p l2).
  - done.
  - rewrite E4. apply (journal_ok_retag _ s3 p l2); [done|done|]. by apply journal_ok_log.
  - simpl. by rewrite Em.
  - simpl. by rewrite Em.
  - simpl. by rewrite Em.
  - exact Hst2.
  - exists l4. split_and!; try done. simpl. rewrite Ec2. simpl. by rewrite !insert_insert_eq.
Qed.

Lemma log_write_item_ok xs xl s es p l b :
  let pos := zlen (journal_file es) in
  let e := entry_of_item s l pos b in
  heap_ok xs (xadd xl (Some p)) s -> xnn xs -> xnn xl -> files_ok s -> journal_ok es s ->
  cloudlogs s !! p = Some l -> is_Some (CloudLog.data l) -> item_bytes s l = Some b -> writable s l b ->
  pos + 53 + zlen b + zlen (link_ids s l) + zlen (link_locations s l) < LOG_SEGMENT_SIZE ->
  wp (log_write_item keys p) s (fun _ s' => item_written xs xl es p l b s s').
Proof.
  intros pos e Hok Hx Hxl Hfo Hjo Hp [q Hq] Hb Hw Hfit. unfold LOG_SEGMENT_SIZE in Hfit.
  assert (Hr : 0 < CloudLog.refcount l).
  { destruct (heap_ok_log _ _ _ _ Hok Hxl) as (l0 & ? & ?). simplify_eq.
    pose proof (log_owners_nonneg s p). specialize (Hxl p). lia. }
  destruct (entry_of_item_wf s l pos b Hw) as [We Hlen]; [unfold pos in *; lia..|]. fold e in We, Hlen.
  unfold log_write_item.
  eapply (wp_retag xs (xadd xl (Some p))); [done|done|done|done|done|].
  intros g s1 Hg Hok1 Hfo1. set (l1 := l <| CloudLog.pending_write ::= _ |>) in s1.
  assert (Hsame : same_item l l1) by done.
  assert (Hk1 : keeps s s1) by (by apply (keeps_retag s p l)).
  assert (Hjo1 : journal_ok es s1) by (by apply (journal_ok_retag es s p l)).
  assert (Hp1 : cloudlogs s1 !! p = Some l1) by apply lookup_insert_eq.
  assert (Hb1 : item_bytes s1 l1 = Some b) by (unfold item_bytes in *; simpl; by rewrite Hq in *).
  assert (Hl1 : link_ids s1 l1 = link_ids s l /\ link_locations s1 l1 = link_locations s l).
  { unfold link_ids, link_locations. assert (Hn : name_of s1 <$> CloudLog.links l1 = name_of s <$> CloudLog.links l); [|by rewrite Hn].
    apply list_fmap_ext. intros i o _. apply (name_of_retag s p l l1); done. }
  wp_step. eapply wp_mono; [eapply serialize_cloudlog_ok; [done|auto with bluesky|done|done|by exists q|done]|].
  intros ? ? [-> ->]. destruct Hl1 as [-> ->]. cbn [fst snd]. unfold log_offset_now.
  wp_step. wp_step. wp_step. rewrite (jo_fd _ _ Hjo1). cbn [Fd.pos]. wp_step. fold pos.
  set (size := LogHeader.size + LogFooter.size + _ + _ + _).
  assert (Hsize : size = zlen (Entry.record e)) by (rewrite Hlen; unfold size, LogHeader.size, LogFooter.size; lia).
  rewrite u64_id by (rewrite Hsize, Hlen; unfold pos in *; lia).
  wp_step. rewrite (proj2 (Z.leb_gt _ _)) by (rewrite Hsize, Hlen; unfold LOG_SEGMENT_SIZE; lia).
  cbn [andb]. wp_step. wp_step. eapply wp_load; [done|]. wp_step.
  change (journal_record _ _ _ _) with (Entry.record e).
  eapply wp_mono; [eapply append_record_ok; [exact Hok1|done|exact Hjo1|exact We|]|].
  { rewrite journal_file_snoc, length_app. unfold LOG_SEGMENT_SIZE. lia. }
  intros _ s2 (Es2 & Hok2 & Hfo2 & Hk2 & Hjo2 & df & Hd2 & Hrd).
  change (Log.seq_num (log s1)) with (Log.seq_num (log s)) in *. fold pos in Es2, Hrd.
  assert (Hb2 : item_bytes s2 l1 = Some b).
  { destruct (kp_logs _ _ Hk2 p l1) as (l0 & Hl0 & _ & Hkb); [by rewrite Es2|done|by eapply heap_ok_log_lt|].
    assert (l0 = l1) as -> by congruence. by apply Hkb. }
  assert (Hin1 : in_journal l1 = true).
  { unfold in_journal. simpl. rewrite Z.lor_assoc. apply has_lor_journal. }
  eapply wp_mono; [apply (place_ok xs xl s2 es e p l1 b size); try done|].
  { by rewrite Es2. }
  { pose proof (wr_type _ _ _ Hw). simpl. unfold LOGTYPE_UNKNOWN. lia. }
  { rewrite Hsize, Hlen. lia. }
  { rewrite journal_file_snoc, length_app. unfold LogHeader.size. fold pos. lia. }
  { exists df. assert (Log.seq_num (log s2) = Log.seq_num (log s)) as -> by (by rewrite Es2). done. }
  intros _ s3 (Hok3 & Hfo3 & Hk3 & Ei3 & Hjo3 & Eq3 & Ecm3 & Ecl3 & Hst3 & l' & Ec3 & Hin3 & Hseq & Hoff & Hsz & Hb3 & Hj3).
  rewrite Es2 in Ei3, Eq3, Ecm3, Ecl3, Hst3, Ec3, Hseq. simpl in Ei3, Eq3, Ecm3, Ecl3, Ec3, Hseq. rewrite insert_insert_eq in Ec3.
  unfold item_written. fold pos e. split_and!; try done.
  - transitivity s1; [done|]. by transitivity s2.
  - exists l'. rewrite <- Hsize. done.
Qed.

(** ** Committing *)

Definition commit_flags (l : CloudLog.t) : CloudLog.t :=
  l <| CloudLog.pending_write ::= fun f => Z.land f (Z.lnot CLOUDLOG_JOURNAL) |>
    <| CloudLog.location_flags ::= fun f => Z.lor (Z.land f (Z.lnot CLOUDLOG_UNCOMMITTED)) CLOUDLOG_JOURNAL |>.

Lemma commit_flags_ok l : in_journal (commit_flags l) = true /\ uncommitted (commit_flags l) = false.
Proof.
  split.
  - unfold in_journal. simpl. rewrite <- Z.lor_assoc, (Z.lor_comm CLOUDLOG_JOURNAL), Z.lor_assoc. apply has_lor_journal.
  - unfold uncommitted, has. simpl. rewrite Z.land_lor_distr_l, <- Z.land_assoc. change (Z.land (Z.lnot CLOUDLOG_UNCOMMITTED) CLOUDLOG_UNCOMMITTED) with 0.
    by rewrite Z.land_0_r.
Qed.

(** The bytes of an item that is in the journal stay when it is committed. *)
Lemma keeps_commit s p l g :
  cloudlogs s !! p = Some l -> in_journal l = true -> keeps s ((set_log p (commit_flags l) s) <| fs := g |>).
Proof.
  intros Hp Hj. split; [eauto 10| |simpl; lia].
  intros r lr. simpl. destruct (decide (r = p)) as [->|Hne].
  - rewrite lookup_insert_eq. intros [= <-] Hr _. exists l. split_and!; [done|done|].
    intros b. unfold item_bytes. simpl. destruct (CloudLog.data l); [done|]. unfold journal_bytes.
    rewrite Hj, (proj1 (commit_flags_ok l)). done.
  - rewrite lookup_insert_ne by done. eauto.
Qed.

Lemma journal_ok_commit es s p l g :
  cloudlogs s !! p = Some l -> in_journal l = true -> journal_ok es s ->
  journal_ok es ((set_log p (commit_flags l) s) <| fs := g |>).
Proof.
  intros Hp Hj [? ? ? [Us Ul]]. split; [done..|]. split; [done|]. intros r lr. simpl.
  destruct (decide (r = p)) as [->|Hne]; [|rewrite lookup_insert_ne by done; apply Ul].
  rewrite lookup_insert_eq. intros [= <-] Hd _. exact (Ul p l Hp Hd Hj).
Qed.

Lemma journal_ok_survive es s s' : survive s s' -> journal_ok es s -> journal_ok es s'.
Proof.
  intros Hsv [Jfd Jwf Jf [Us Ul]]. split; rewrite ?(sv_log _ _ Hsv), ?(sv_disk _ _ Hsv); [done..|]. split.
  - intros q str off f cf Hq Ed Em Hf En. destruct (sv_strs _ _ Hsv _ _ Hq) as (str0 & Hq0 & E & _).
    rewrite E in Ed, Em |- *. destruct (survive_name _ _ _ _ Hsv Hf) as (cf0 & Hf0 & En0).
    simpl. eapply Us; [done..|congruence].
  - intros r lr Hr Hd Hin Hn. destruct (sv_logs _ _ Hsv _ _ Hr) as (l0 & Hl0 & E). rewrite E in Hd, Hin, Hn |- *.
    by apply (Ul r l0).
Qed.

(** Items that are listed as written are in the journal. *)
Definition committed_ok (s : State) : Prop :=
  forall r, r ∈ Log.committed (log s) -> exists l, cloudlogs s !! r = Some l /\ in_journal l = true.

(** The place of an item in the journal. *)
Definition place (l : CloudLog.t) : Z * Z * Z :=
  (CloudLog.log_seq l, CloudLog.log_offset l, CloudLog.log_size l).

(** Items of [L] are committed now; others are if they were. *)
Definition settles (L : list ptr) (s s' : State) : Prop :=
  forall r l', cloudlogs s' !! r = Some l' -> exists l, cloudlogs s !! r = Some l /\
    place l' = place l /\ in_journal l' = (in_journal l || bool_decide (r ∈ L)) /\
    uncommitted l' = (uncommitted l && negb (bool_decide (r ∈ L))).

Lemma settles_app L1 L2 s1 s2 s3 : settles L1 s1 s2 -> settles L2 s2 s3 -> settles (L1 ++ L2) s1 s3.
Proof.
  intros A B r l3 Hl3. destruct (B r l3 Hl3) as (l2 & Hl2 & Ep2 & Ej2 & Eu2). destruct (A r l2 Hl2) as (l1 & Hl1 & Ep1 & Ej1 & Eu1).
  exists l1. split; [done|]. split; [congruence|]. rewrite Ej2, Eu2, Ej1, Eu1.
  rewrite (bool_decide_ext (r ∈ L1 ++ L2) (r ∈ L1 \/ r ∈ L2)) by apply elem_of_app. rewrite bool_decide_or.
  by destruct (in_journal l1), (uncommitted l1), (bool_decide (r ∈ L1)), (bool_decide (r ∈ L2)).
Qed.

Lemma settles_survive s s' : survive s s' -> settles [] s s'.
Proof.
  intros Hsv r l' Hr. destruct (sv_logs _ _ Hsv _ _ Hr) as (l & Hl & E). exists l. split; [done|].
  rewrite bool_decide_eq_false_2 by apply not_elem_of_nil. rewrite orb_false_r, andb_true_r, E. done.
Qed.

Lemma settles_flags s p l g :
  cloudlogs s !! p = Some l -> settles [p] s ((set_log p (commit_flags l) s) <| fs := g |>).
Proof.
  intros Hp r lr. simpl. destruct (commit_flags_ok l) as [Ej Eu]. destruct (decide (r = p)) as [->|Hne].
  - rewrite lookup_insert_eq. intros [= <-]. exists l. rewrite Ej, Eu, bool_decide_eq_true_2 by (by left).
    split; [done|]. split; [done|]. by destruct (in_journal l), (uncommitted l).
  - rewrite lookup_insert_ne by done. intros Hr. exists lr. rewrite bool_decide_eq_false_2 by (by rewrite list_elem_of_singleton).
    split; [done|]. split; [done|]. by destruct (in_journal lr), (uncommitted lr).
Qed.

(** What holds between the turns of the thread. *)
Record log_inv (es : list Entry.t) (s : State) : Prop := {
  li_heap : heap_ok nox nox s;
  li_files : files_ok s;
  li_journal : journal_ok es s;
  li_committed : committed_ok s;
  li_current : exists f, Log.current_log (log s) = Some f /\ is_Some (cachefiles s !! f);
}.

Lemma committed_live xs xl s r :
  heap_ok xs xl s -> xnn xl -> r ∈ Log.committed (log s) ->
  exists l, cloudlogs s !! r = Some l /\ 0 < CloudLog.refcount l.
Proof.
  intros Hok Hx Hin. specialize (Hx r).
  pose proof (log_owners_nonneg (s <| log ::= (fun g => g <| Log.committed := [] |>) |>) r) as Hnn.
  assert (1 <= lsum (fun q => points r (Some q)) (Log.committed (log s))) as Hle.
  { rewrite <- (points_self r) at 1. apply (lsum_elem (fun q => points r (Some q))); [|done].
    intros a. apply points_nonneg. }
  assert (1 <= log_owners s r) by (unfold log_owners, queue_logs in *; simpl in *; lia).
  destruct (ho_logs _ _ _ Hok r) as (l & ? & ?); [lia|]. exists l. split; [done|lia].
Qed.

Lemma commit_item_ok es s p L :
  log_inv es s -> Log.committed (log s) = p :: L ->
  wp (commit_item p) s (fun _ s' =>
    log_inv es s' /\ log s' = (log s) <| Log.committed := L |> /\ keeps s s' /\ inodes s' = inodes s /\
    settles [p] s s').
Proof.
  intros [Hok Hfo Hjo Hco (f & Hcur & Hf)] HL. destruct (Hco p) as (l & Hp & Hj); [rewrite HL; by left|].
  assert (Hr : 0 < CloudLog.refcount l).
  { destruct (committed_live _ _ _ p Hok) as (l0 & ? & ?); [auto with bluesky|rewrite HL; by left|]. by simplify_eq. }
  unfold commit_item. eapply (wp_retag nox nox s p l commit_flags); [done..|].
  intros g s1 Hg Hok1 Hfo1. wp_step. wp_step. set (s2 := s1 <| log ::= _ |>).
  assert (Hok2 : heap_ok nox (xadd nox (Some p)) s2).
  { eapply (heap_ok_move nox nox _ _ s1); try done; simpl.
    - intros r. unfold xadd, log_owners, queue_logs, nox. simpl. rewrite HL. simpl. lia.
    - intros r Hr'. by destruct (ho_fresh _ _ _ Hok1 r Hr') as (_ & _ & _ & ? & ?). }
  eapply wp_mono; [apply bluesky_cloudlog_unref_ok; [done|auto with bluesky..]|].
  intros _ s3 (Hok3 & Hsv). pose proof (settles_flags s p l g Hp) as Hse1.
  assert (Hse : settles [p] s s3) by (by apply (settles_app [p] [] s s2 s3); [|apply settles_survive]).
  assert (El3 : log s3 = (log s) <| Log.committed := L |>).
  { rewrite (sv_log _ _ Hsv). unfold s2, s1. cbn. unfold setf. cbn. by rewrite HL. }
  split; [split|split_and!].
  - done.
  - eapply files_ok_view; [by apply survive_view|]. by destruct Hfo1.
  - eapply journal_ok_survive; [done|]. apply journal_ok_log; [done|]. by apply journal_ok_commit.
  - intros r. rewrite El3. simpl. intros Hin. destruct (committed_live _ _ _ r Hok3) as (lr & Hlr & _);
      [auto with bluesky|by rewrite El3|].
    destruct (Hse r lr Hlr) as (l0 & Hl0 & _ & Ej0 & _). destruct (Hco r) as (l1 & Hl1 & Hj1); [rewrite HL; by right|].
    exists lr. split; [done|]. assert (l1 = l0) as -> by congruence. by rewrite Ej0, Hj1.
  - exists f. rewrite El3. split; [done|]. by apply (survive_file s2).
  - done.
  - transitivity s1; [by apply keeps_commit|]. transitivity s2; [by apply keeps_same|].
    eapply keeps_survive; [done|auto with bluesky|done].
  - by rewrite (sv_inodes _ _ Hsv).
  - done.
Qed.

Lemma commit_loop_ok L es s :
  log_inv es s -> Log.committed (log s) = L ->
  wp (for_each L commit_item) s (fun _ s' =>
    log_inv es s' /\ log s' = (log s) <| Log.committed := [] |> /\ keeps s s' /\ inodes s' = inodes s /\
    settles L s s').
Proof.
  revert s. induction L as [|p L IH]; intros s Hi HL; simpl.
  - wp_step. split_and!; [done| |reflexivity|done|]. { rewrite <- HL. by destruct (log s). }
    apply settles_survive. reflexivity.
  - wp_step. eapply wp_mono; [by eapply commit_item_ok|]. intros _ s1 (Hi1 & El1 & Hk1 & Ei1 & Hs1).
    eapply wp_mono; [apply IH; [done|by rewrite El1]|]. intros _ s2 (Hi2 & El2 & Hk2 & Ei2 & Hs2).
    split_and!; [done|by rewrite El2, El1|by etransitivity|congruence|by apply (settles_app [p] L s s1 s2)].
Qed.

Lemma journal_ok_files xs xl es s s' :
  heap_ok xs xl s -> files_step s s' -> log s' = log s -> journal_ok es s -> journal_ok es s'.
Proof.
  intros Hok Hst El [Jfd Jwf (df & Jd & Jr) [Us Ul]]. split; rewrite ?El; [done|done| |split].
  - by apply (st_disk _ _ Hst _ df).
  - intros q str off f cf' Hq Ed Em Hf' En. rewrite (st_strs _ _ Hst) in Hq.
    pose proof (map_owners_pos _ _ _ f Hq Em). destruct (ho_maps _ _ _ Hok f) as (cf & Hf & _); [lia|].
    destruct (st_files _ _ Hst f cf Hf) as (cf1 & Hf1 & En1 & _). eapply Us; [done..|]. congruence.
  - rewrite (st_logs _ _ Hst). exact Ul.
Qed.

(** The statistics of disk usage. *)
Lemma update_disk_used_ok es s f :
  log_inv es s -> Log.current_log (log s) = Some f ->
  wp (update_disk_used (Some f)) s (fun _ s' =>
    log_inv es s' /\ (exists n, log s' = (log s) <| Log.disk_used := n |>) /\ keeps s s' /\ inodes s' = inodes s /\
    cloudlogs s' = cloudlogs s).
Proof.
  intros [Hok Hfo Hjo Hco (f' & Hcur & [cf Hf])] Ef. assert (f' = f) as -> by congruence.
  unfold update_disk_used. wp_step. eapply wp_load; [done|]. wp_step. wp_step. wp_step. wp_step.
  set (used := match disk s !! _ with Some _ => _ | None => _ end). set (s1 := s <| log ::= _ |>).
  assert (Hok1 : heap_ok nox nox s1).
  { eapply (heap_ok_move nox nox); try done. intros r Hr. by destruct (ho_fresh _ _ _ Hok r Hr) as (_ & _ & _ & ? & ?). }
  assert (Hfo1 : files_ok s1) by (destruct Hfo; by split).
  assert (Hjo1 : journal_ok es s1) by (by apply journal_ok_log).
  eapply (wp_touch s1); [done|exact Hf|done|]. intros s2 Hst Hfo2 Hf2 Ed2 _ El2.
  split; [split|split_and!].
  - by eapply heap_ok_files.
  - done.
  - by eapply (journal_ok_files nox nox es s1).
  - intros r. rewrite El2, (st_logs _ _ Hst). apply Hco.
  - exists f. rewrite El2. split; [done|]. by eexists.
  - rewrite El2. by eexists.
  - transitivity s1; [by apply keeps_same|]. by eapply keeps_files.
  - apply (st_inodes _ _ Hst).
  - apply (st_logs _ _ Hst).
Qed.

Lemma log_commit_ok es s :
  log_inv es s ->
  wp log_commit s (fun _ s' =>
    log_inv es s' /\ Log.committed (log s') = [] /\ Log.queue (log s') = Log.queue (log s) /\
    keeps s s' /\ inodes s' = inodes s /\ settles (Log.committed (log s)) s s').
Proof.
  intros Hi. unfold log_commit. wp_step. wp_step. rewrite (jo_fd _ _ (li_journal _ _ Hi)).
  destruct (li_current _ _ Hi) as (f & Hcur & _). rewrite Hcur. wp_step.
  eapply wp_mono; [by apply update_disk_used_ok|]. intros _ s1 (Hi1 & (n & El1) & Hk1 & Ei1 & Ec1).
  assert (Hcm : Log.committed (log s1) = Log.committed (log s)) by (by rewrite El1).
  eapply wp_mono; [by apply commit_loop_ok|]. intros _ s2 (Hi2 & El2 & Hk2 & Ei2 & Hs2).
  split_and!; [done|by rewrite El2|by rewrite El2, El1|by etransitivity|congruence|].
  intros r l' Hl'. rewrite <- Ec1. by apply Hs2.
Qed.

(** Taking an item from the queue. *)
Lemma heap_ok_dequeue s p rest :
  heap_ok nox nox s -> Log.queue (log s) = p :: rest ->
  heap_ok nox (xadd nox (Some p)) (s <| log ::= (fun g => g <| Log.queue ::= tail |>) |>).
Proof.
  intros Hok HL. eapply (heap_ok_move nox nox _ _ s); try done; simpl.
  - intros r. unfold xadd, log_owners, queue_logs, nox. simpl. rewrite HL. simpl. lia.
  - intros r Hr. by destruct (ho_fresh _ _ _ Hok r Hr) as (_ & _ & _ & ? & ?).
Qed.

Lemma item_written_inv es s p l b s' :
  item_written nox nox es p l b s s' -> committed_ok s ->
  (exists f, Log.current_log (log s) = Some f /\ is_Some (cachefiles s !! f)) ->
  log_inv (es ++ [entry_of_item s l (zlen (journal_file es)) b]) s'.
Proof.
  intros (Hok & Hfo & _ & _ & Hjo & _ & Ecm & Ecl & Hst & l' & Ec & Hin & _) Hco (f & Hcur & Hf).
  split; [done..| |exists f; rewrite Ecl; auto]. intros r. rewrite Ecm, Ec. destruct (decide (r = p)) as [->|Hne]; [rewrite lookup_insert_eq; eauto|].
  rewrite lookup_insert_ne by done. intros [->|Hr]%elem_of_cons; [done|]. by apply Hco.
Qed.

Lemma scan_journal_ok es s point :
  journal_ok es s -> zlen (journal_file es) <= LOG_SEGMENT_SIZE ->
  exists df c, disk s !! journal_name (Log.seq_num (log s)) = Some df /\
    DiskFile.read df 0 LOG_SEGMENT_SIZE = Some c /\
    bluesky_replay_scan_journal (S (length c)) c 0 point = Some (commit_point point es).
Proof.
  intros [_ Jwf (df & Jd & Jr) _] Hl. exists df; eexists. split; [done|]. split; [exact Jr|].
  pose proof (length_entries _ _ Jwf). apply scan_then_zeros; [done| |].
  - rewrite length_app. lia.
  - rewrite length_app, length_replicate. unfold LOG_SEGMENT_SIZE in *. lia.
Qed.

(** The turn of the thread that writes an item, without what follows. *)
Lemma log_thread_written es s p rest l b (Q : unit -> State -> Prop) :
  log_inv es s -> Log.queue (log s) = p :: rest -> cloudlogs s !! p = Some l -> in_journal l = false ->
  is_Some (CloudLog.data l) -> item_bytes s l = Some b -> writable s l b ->
  zlen (journal_file es) + 53 + zlen b + zlen (link_ids s l) + zlen (link_locations s l) < LOG_SEGMENT_SIZE ->
  (forall s1, let s0 := s <| log ::= (fun g => g <| Log.queue ::= tail |>) |> in
     item_written nox nox es p l b s0 s1 -> keeps s s1 ->
     log_inv (es ++ [entry_of_item s l (zlen (journal_file es)) b]) s1 ->
     wp (s ← get; when (match Log.queue (log s) with [] => true | _ => false end) log_commit) s1 Q) ->
  wp (log_thread keys) s Q.
Proof.
  intros Hi HL Hp Hj Hd Hb Hw Hfit HQ. destruct Hi as [Hok Hfo Hjo Hco Hcur]. unfold log_thread.
  wp_step. wp_step. wp_step. rewrite (jo_fd _ _ Hjo). unfold when at 1. wp_step.
  wp_step. wp_step. wp_step. rewrite HL. wp_step; [done|]. wp_step. wp_step.
  set (s0 := s <| log ::= _ |>). pose proof (heap_ok_dequeue _ _ _ Hok HL) as Hok0. fold s0 in Hok0.
  wp_step. eapply wp_load; [done|]. destruct Hd as [q Hq]. rewrite Hq. wp_step. wp_step; [done|].
  fold (in_journal l). rewrite Hj. wp_step.
  eapply wp_mono; [apply (log_write_item_ok nox nox s0 es p l b); try done; try by auto with bluesky|].
  - by destruct Hfo.
  - by apply journal_ok_log.
  - by destruct Hw.
  - intros u s1 Hw1. apply HQ; [done| |].
    + destruct Hw1 as (_ & _ & Hk & _). transitivity s0; [by apply keeps_same|done].
    + by apply (item_written_inv es s0 p l b).
Qed.

(** C4: One turn of [log_thread] appends an item to the journal.  Between turns the
    open journal file holds complete records [es] and then zeros.  When the item at
    the head of the queue is not in the journal yet and fits the file, the turn
    ends with a record of exactly its data and its links behind the others, so that
    a scan of the file after a crash sees all of them; the item knows its place and
    its data, now mapped from the file, has not changed, nor has that of any other
    item, string or file; when no further item waits, all items written so far are
    committed. *)
Theorem log_thread_appends es s p rest l b point :
  log_inv es s -> Log.queue (log s) = p :: rest -> cloudlogs s !! p = Some l -> in_journal l = false ->
  is_Some (CloudLog.data l) -> item_bytes s l = Some b -> writable s l b ->
  zlen (journal_file es) + 53 + zlen b + zlen (link_ids s l) + zlen (link_locations s l) < LOG_SEGMENT_SIZE ->
  let pos := zlen (journal_file es) in
  let e := entry_of_item s l pos b in
  wp (log_thread keys) s (fun _ s' =>
    log_inv (es ++ [e]) s' /\ keeps s s' /\ inodes s' = inodes s /\ Log.queue (log s') = rest /\
    (forall l', cloudlogs s' !! p = Some l' ->
       place l' = (Log.seq_num (log s), pos, zlen (Entry.record e)) /\ in_journal l' = true) /\
    (rest = [] -> Log.committed (log s') = [] /\
       forall r l', r ∈ p :: Log.committed (log s) -> cloudlogs s' !! r = Some l' -> uncommitted l' = false) /\
    exists df c, disk s' !! journal_name (Log.seq_num (log s')) = Some df /\
      DiskFile.read df 0 LOG_SEGMENT_SIZE = Some c /\
      bluesky_replay_scan_journal (S (length c)) c 0 point = Some (commit_point point (es ++ [e]))).
Proof.
  intros Hi HL Hp Hj Hd Hb Hw Hfit pos e.
  assert (Hscan : forall s', log_inv (es ++ [e]) s' -> exists df c,
    disk s' !! journal_name (Log.seq_num (log s')) = Some df /\ DiskFile.read df 0 LOG_SEGMENT_SIZE = Some c /\
    bluesky_replay_scan_journal (S (length c)) c 0 point = Some (commit_point point (es ++ [e]))).
  { intros s' Hi'. apply scan_journal_ok; [apply Hi'|]. rewrite journal_file_snoc, length_app.
    destruct (entry_of_item_wf s l pos b Hw) as [_ Hlen]; [unfold pos, LOG_SEGMENT_SIZE in *; lia..|].
    fold e in Hlen. unfold pos in *. lia. }
  eapply (log_thread_written es s p rest l b); [done..|]. intros s1 s0 Hw1 Hk1 Hi1. fold pos e in Hi1.
  destruct Hw1 as (_ & _ & _ & Ei1 & _ & Eq1 & Ecm1 & _ & _ & l1 & Ec1 & Hin1 & Hseq1 & Hoff1 & Hsz1 & _).
  fold pos in Hoff1, Hsz1.
  assert (Hl1 : forall l', cloudlogs s1 !! p = Some l' ->
    place l' = (Log.seq_num (log s), pos, zlen (Entry.record e)) /\ in_journal l' = true).
  { intros l'. rewrite Ec1, lookup_insert_eq. intros [= <-]. unfold place. by rewrite Hseq1, Hoff1, Hsz1. }
  simpl in Eq1, Ecm1. rewrite HL in Eq1. simpl in Eq1. wp_step. wp_step. rewrite Eq1. unfold when. destruct rest as [|p2 rest].
  - eapply wp_mono; [by apply log_commit_ok|]. intros _ s2 (Hi2 & Ecm2 & Eq2 & Hk2 & Ei2 & Hs2).
    rewrite Ecm1 in Hs2. split_and!; [done|by etransitivity|by rewrite Ei2, Ei1|by rewrite Eq2| | |by apply Hscan].
    + intros l' Hl'. destruct (Hs2 p l' Hl') as (l0 & Hl0 & -> & -> & _). destruct (Hl1 l0 Hl0) as [-> ->]. done.
    + intros _. split; [done|]. intros r l' Hr Hl'. destruct (Hs2 r l' Hl') as (l0 & _ & _ & _ & ->).
      rewrite bool_decide_eq_true_2 by done. apply andb_false_r.
  - wp_step. split_and!; [done..|by apply Hscan].
Qed.
End write.

(** ** One item in the queue and an empty journal *)

Definition sample_item : CloudLog.t :=
  CloudLog.mk 1 LOGTYPE_DATA CLOUDLOG_UNCOMMITTED 0 0 (replicate 16 7) 5 0 3 CloudPointer.zero 0 0 0 [] (Some 2%positive) 1.
Definition sample_cachefile : CacheFile.t :=
  CacheFile.mk 1 CLOUDLOG_JOURNAL (-1) 0 (journal_name 0) 0 false 0 0 false false 0 [] None.
Definition sample_log_state : State :=
  empty_state <| next_ptr := 4%positive |> <| cloudlogs := {[1%positive := sample_item]} |>
    <| strs := {[2%positive := RCStr.mk 1 None (RCStr.Owned [97; 98; 99]) 3]} |>
    <| cachefiles := {[3%positive := sample_cachefile]} |>
    <| disk := {[journal_name 0 := DiskFile.mk [] LOG_SEGMENT_SIZE]} |>
    <| log := Log.mk [1%positive] (Some (Fd.mk (journal_name 0) 0)) 0 [] (Some 3%positive)
                {[journal_name 0 := 3%positive]} 0 0 |>.

Lemma sample_log_heap_ok : heap_ok nox nox sample_log_state.
Proof.
  assert (Hso : forall q, str_owners sample_log_state q = points q (Some 2%positive)).
  { intros q. unfold str_owners. simpl. unfold singletonM, map_singleton.
    rewrite msum_insert_fresh, !msum_empty by apply lookup_empty. unfold log_strs. simpl. lia. }
  assert (Hlo : forall q, log_owners sample_log_state q = points q (Some 1%positive)).
  { intros q. unfold log_owners, queue_logs. simpl. unfold singletonM, map_singleton.
    rewrite msum_insert_fresh, !msum_empty by apply lookup_empty. unfold log_logs. simpl. lia. }
  split.
  - intros q. rewrite Hso. unfold nox. destruct (decide (q = 2%positive)) as [->|Hne].
    + intros _. eexists. split; [apply lookup_singleton_eq|]. by rewrite points_self.
    + rewrite points_ne by done. lia.
  - intros q. rewrite Hlo. unfold nox. destruct (decide (q = 1%positive)) as [->|Hne].
    + intros _. eexists. split; [apply lookup_singleton_eq|]. by rewrite points_self.
    + rewrite points_ne by done. lia.
  - intros f. unfold map_owners. simpl. unfold singletonM at 1, map_singleton at 1.
    rewrite msum_insert_fresh, msum_empty by apply lookup_empty. simpl. rewrite points_None.
    destruct (decide (f = 3%positive)) as [->|Hne]; [by rewrite lookup_singleton_eq|].
    by rewrite lookup_singleton_ne.
  - intros q str Hq. simpl in Hq. apply lookup_singleton_Some in Hq as [_ <-]. unfold str_wf. simpl. eauto.
  - done.
  - intros p l Hp _. simpl in Hp. by apply lookup_singleton_Some in Hp as [_ <-].
  - intros p Hp. simpl in *. rewrite !lookup_singleton_ne by lia. done.
Qed.

Lemma read_hole n : 0 <= n -> DiskFile.read (DiskFile.mk [] n) 0 n = Some (replicate (Z.to_nat n) 0).
Proof.
  intros Hn. unfold DiskFile.read. cbn [DiskFile.size DiskFile.prefix]. rewrite drop_nil, take_ge
    by (rewrite length_app, length_replicate; simpl; lia).
  by rewrite !(proj2 (Z.leb_le _ _)) by lia.
Qed.

Lemma sample_log_inv : log_inv [] sample_log_state.
Proof.
  split; [apply sample_log_heap_ok| | | |].
  - split; simpl.
    + intros n f Hn. apply lookup_singleton_Some in Hn as [<- <-]. by exists sample_cachefile.
    + intros f cf Hf. by apply lookup_singleton_Some in Hf as [<- <-].
    + intros f cf Hf. by apply lookup_singleton_Some in Hf as [<- <-].
    + intros n df Hn. by apply lookup_singleton_Some in Hn as [<- <-].
  - split; [done|done| |].
    + exists (DiskFile.mk [] LOG_SEGMENT_SIZE). split; [apply lookup_singleton_eq|].
      rewrite Nat.sub_0_r. by apply read_hole.
    + split; simpl.
      * intros q str off f cf Hq. by apply lookup_singleton_Some in Hq as [_ <-].
      * intros p l Hp. by apply lookup_singleton_Some in Hp as [_ <-].
  - intros r Hr. by apply not_elem_of_nil in Hr.
  - exists 3%positive. split; [done|]. by exists sample_cachefile.
Qed.

Lemma log_thread_appends_witness :
  wp (log_thread (H := linear_gsequence) (CryptKeys.mk [] [])) sample_log_state (fun _ s' =>
    log_inv [entry_of_item sample_log_state sample_item 0 [97; 98; 99]] s' /\ Log.committed (log s') = []).
Proof.
  refine (wp_mono _ _ _ _ (log_thread_appends (H := linear_gsequence) (CryptKeys.mk [] []) [] sample_log_state 1 []
    sample_item [97; 98; 99] (0, 0) sample_log_inv eq_refl _ eq_refl _ _ _ _) _).
  - apply lookup_singleton_eq.
  - by eexists.
  - vm_compute. reflexivity.
  - split; [unfold sample_item, LOGTYPE_DATA; simpl; lia| |simpl; lia| | |done].
    + split; [done|]. simpl. repeat constructor; lia.
    + repeat constructor; lia.
    + constructor.
  - unfold LOG_SEGMENT_SIZE. simpl. lia.
  - intros u s' (Hi & _ & _ & _ & _ & Hc & _). split; [exact Hi|]. by apply Hc.
Defined.
