(* ===== verification/Upload.v ===== *)
(** * Writing to the cloud log (src/bluesky/cloudlog.c)

    Collecting items into a segment ([bluesky_cloudlog_serialize]), closing the
    segment and uploading it encrypted ([bluesky_cloudlog_flush]), and what happens
    when the storage service has answered.

    The thread that uploads a segment runs when another thread waits for it. *)

From S2P Require Import Prelude Glib Rangeset State Strings Ownership CloudLog Inodes Fetch Imap Serialize Crypto CacheFiles.
From Stdlib Require Import ZArith Lia.
From stdpp Require Import base numbers gmap option list.

Open Scope Z_scope.

Definition CLOUDLOG_SEGMENT_SIZE : Z := 4 * 2 ^ 20.
Definition cloudlog_concurrent_uploads : Z := 32.

Section upload.
Context `{GSequenceLib} `{Env} `{Gcrypt} `{DiskUsage}.
Context (keys : CryptKeys.t).

(** ** Uploading a segment *)

(** Encryption and the request. *)
Definition cloud_flush_background (record : ptr) : M State unit :=
  r ← load records (Some record);
  raw ← assume NullPointer (SerializedRecord.raw_data r);
  enc ← bluesky_cloudlog_encrypt keys raw;
  data ← bluesky_string_new_from_gstring enc;
  upd records (Some record) (fun r =>
    r <| SerializedRecord.data := Some data |> <| SerializedRecord.raw_data := None |>);;
  bluesky_string_ref (Some data).

Definition flush_complete_item (record item : ptr) : M State unit :=
  bluesky_cloudlog_stats_update (Some item) (-1);;
  upd cloudlogs (Some item) (fun l =>
    l <| CloudLog.pending_write ::= fun f => Z.land f (Z.lnot CLOUDLOG_CLOUD) |>
      <| CloudLog.location_flags ::= fun f => Z.lor f CLOUDLOG_CLOUD |>);;
  bluesky_cloudlog_stats_update (Some item) 1;;
  bluesky_cloudlog_unref (Some item);;
  upd records (Some record) (fun r => r <| SerializedRecord.items ::= tail |>).

(** On failure the new request holds another reference to the data. *)
Definition cloudlog_flush_complete (record : ptr) (result : Z) : M State unit :=
  r ← load records (Some record);
  if 0 <=? result then
    for_each (SerializedRecord.items r) (flush_complete_item record);;
    bluesky_string_unref (SerializedRecord.data r);;
    upd records (Some record) (fun r =>
      r <| SerializedRecord.data := None |> <| SerializedRecord.items := [] |>
        <| SerializedRecord.complete := true |>);;
    modify (fun s => s <| log_state ::= (fun st =>
      st <| CloudLogState.uploads_pending ::= Z.add (-1) |>) |>)
  else
    bluesky_string_ref (SerializedRecord.data r).

(** The storage service answers the outstanding request of a segment; the request
    then gives up its reference to the data. *)
Definition upload_answer (record : ptr) (result : Z) : M State unit :=
  r ← load records (Some record);
  str ← load strs (SerializedRecord.data r);
  s ← get;
  b ← assume OutOfBounds (str_bytes s str);
  when (0 <=? result) (modify (fun s => s <| cloud ::= <[SerializedRecord.key r := b]> |>));;
  cloudlog_flush_complete record result;;
  bluesky_string_unref (SerializedRecord.data r).

(** The upload of a segment by its thread. *)
Definition upload (record : ptr) : M State unit :=
  cloud_flush_background record;; upload_answer record 0.

(** The wait for one segment. *)
Definition wait_segment (record : ptr) : M State unit :=
  r ← load records (Some record);
  when (negb (SerializedRecord.complete r)) (upload record).

(** The wait for uploads in progress: the oldest ones finish. *)
Fixpoint wait_uploads (segments : list ptr) : M State unit :=
  s ← get;
  if CloudLogState.uploads_pending (log_state s) <=? cloudlog_concurrent_uploads then mret tt else
  match segments with
  | [] => stop Blocked
  | record :: segments => wait_segment record;; wait_uploads segments
  end.

Definition bluesky_cloudlog_flush : M State unit :=
  s ← get;
  if zlen (CloudLogState.data (log_state s)) =? 0 then mret tt else
  wait_uploads (rev (CloudLogState.pending_segments (log_state s)));;
  modify (fun s => s <| log_state ::= (fun st =>
    st <| CloudLogState.uploads_pending ::= Z.add 1 |>) |>);;
  s ← get;
  let st := log_state s in
  let key := segment_name (CloudPointer.directory (CloudLogState.location st))
               (CloudPointer.sequence (CloudLogState.location st)) in
  record ← alloc records (SerializedRecord.mk key (Some (CloudLogState.data st)) None
                            (CloudLogState.writeback_list st) false);
  modify (fun s => s <| log_state ::= (fun st =>
    st <| CloudLogState.writeback_list := [] |>
       <| CloudLogState.pending_segments ::= cons record |>
       <| CloudLogState.location ::= (fun l =>
            l <| CloudPointer.sequence ::= fun n => u32 (n + 1) |> <| CloudPointer.offset := 0 |>) |>
       <| CloudLogState.data := [] |>) |>).

(** ** Adding an item to the segment *)

(** The arguments of [memset] are in the wrong order, so two fields are not set. *)
Definition cloud_header (l : CloudLog.t) (data : bytes * bytes * bytes) : CloudLogHeader.t :=
  CloudLogHeader.mk CLOUDLOG_MAGIC (uninitialized 32) (uninitialized 16) (u8 (CloudLog.type l + 48)) (CloudLog.id l)
    (CloudLog.inum l) (u32 (zlen data.1.1)) (u32 (zlen data.1.2)) (u32 (zlen data.2)).

(** The new version of an inode is entered into the inode map. *)
Definition serialize_update_map (log : ptr) (l : CloudLog.t) : M State unit :=
  o ← bluesky_inode_map_lookup (CloudLog.inum l) 1;
  entry ← assume NullPointer o;
  bluesky_cloudlog_unref_delayed (InodeMap.item entry);;
  inode_map ← get_imap;
  set_imap (imap_set_item inode_map (CloudLog.inum l) (Some log));;
  bluesky_cloudlog_ref (Some log).

(** The item itself, its links being serialized already. *)
Definition serialize_item (log : ptr) : M State unit :=
  cloudlog_fetch keys (Some log);;
  l ← load cloudlogs (Some log);
  check Assertion (match CloudLog.data l with Some _ => true | None => false end);;
  bluesky_cloudlog_stats_update (Some log) (-1);;
  data ← bluesky_serialize_cloudlog (Some log);
  s ← get;
  let st := log_state s in
  let offset := zlen (CloudLogState.data st) in
  let segment := CloudLogState.data st ++ CloudLogHeader.encode (cloud_header l data)
                   ++ data.1.1 ++ data.1.2 ++ data.2 in
  upd cloudlogs (Some log) (fun l =>
    l <| CloudLog.location := (CloudLogState.location st) <| CloudPointer.offset := u32 offset |>
                                <| CloudPointer.size := u32 (zlen segment - offset) |> |>
      <| CloudLog.data_size := s32 (zlen data.1.1) |>);;
  modify (fun s => s <| log_state ::= (fun st => st <| CloudLogState.data := segment |>) |>);;
  when (CloudLog.type l =? LOGTYPE_INODE) (serialize_update_map log l);;
  upd cloudlogs (Some log) (fun l =>
    l <| CloudLog.pending_write ::= fun f => Z.lor f CLOUDLOG_CLOUD |>);;
  bluesky_cloudlog_stats_update (Some log) 1;;
  modify (fun s => s <| log_state ::= (fun st => st <| CloudLogState.writeback_list ::= cons log |>) |>);;
  bluesky_cloudlog_ref (Some log).

(** The depth of the recursion is bounded by the number of items, the links being
    free of cycles. *)
Fixpoint cloudlog_serialize_rec (fuel : nat) (log : ptr) : M State CloudPointer.t :=
  l ← load cloudlogs (Some log);
  if has (Z.lor (CloudLog.location_flags l) (CloudLog.pending_write l)) CLOUDLOG_CLOUD
  then mret (CloudLog.location l) else
  match fuel with
  | O => stop OutOfFuel
  | S fuel =>
    for_each (CloudLog.links l) (fun ref =>
      match ref with
      | Some ref => cloudlog_serialize_rec fuel ref;; mret tt
      | None => mret tt
      end);;
    serialize_item log;;
    s ← get;
    when ((CLOUDLOG_SEGMENT_SIZE <? zlen (CloudLogState.data (log_state s)))
          || Options.disable_aggregation bluesky_options) bluesky_cloudlog_flush;;
    l ← load cloudlogs (Some log);
    mret (CloudLog.location l)
  end.

Definition bluesky_cloudlog_serialize (log : ptr) : M State CloudPointer.t :=
  s ← get; cloudlog_serialize_rec (size (cloudlogs s)) log.
End upload.
