(* ===== verification/UploadPlace.v ===== *)
(** * Items in segments of the cloud log

    What [bluesky_cloudlog_serialize] does with an item whose links are in the
    cloud log already: the item goes to the end of the open segment, and the place
    recorded for it is where it is found again after the segment has been
    encrypted, uploaded and decrypted. *)

From S2P Require Import Prelude Crc32c Glib Rangeset State Strings Ownership CloudLog Inodes Fetch Imap Serialize Roundtrip RoundtripItem Journal Crypto CacheFiles JournalFetch LogThread LogAppend Upload.
From Stdlib Require Import ZArith Lia.
From stdpp Require Import base numbers gmap option list.

Open Scope Z_scope.

(** ** Segments *)

Lemma segment_snoc its i : segment (its ++ [i]) = segment its ++ CloudItem.encode i.
Proof. unfold segment. rewrite bind_app, bind_cons. simpl. by rewrite app_nil_r. Qed.

Lemma slice_end (a b : bytes) : slice (a ++ b) (zlen a) (zlen b) = Some b.
Proof.
  unfold slice. rewrite length_app. rewrite !(proj2 (Z.leb_le _ _)) by lia. simpl. f_equal.
  rewrite !Nat2Z.id, drop_app_length. by apply take_ge.
Qed.

Lemma item_ranges_app off its1 its2 :
  item_ranges off (its1 ++ its2) = item_ranges off its1 ++ item_ranges (off + zlen (segment its1)) its2.
Proof.
  revert off. induction its1 as [|i its1 IH]; intros off; simpl; [by rewrite Z.add_0_r|].
  f_equal. rewrite IH. f_equal. f_equal. change (segment (i :: its1)) with (CloudItem.encode i ++ segment its1).
  rewrite length_app. unfold CloudItem.size. lia.
Qed.

Lemma opened_length i b : CloudItem.wf i -> opened i b -> zlen b = CloudItem.size i.
Proof.
  intros W (auth & iv & Ha & Hi & ->). unfold CloudItem.size, CloudItem.encode. rewrite !length_app.
  pose proof (length_cloudlog_header _ (CloudItem.wf_header _ W)) as Hh.
  assert (W' : CloudLogHeaderWf.wf (CloudItem.header (CloudItem.with_crypt CLOUDLOG_MAGIC auth iv (CloudItem.data1 i) i))).
  { destruct W as [[] _ _ _]. by split. }
  pose proof (length_cloudlog_header _ W') as Hh'. simpl in *. lia.
Qed.

Lemma opened_segment its bs :
  Forall item_ok its -> Forall2 opened its bs -> zlen (mjoin bs) = zlen (segment its).
Proof.
  intros Hi H2. induction H2 as [|i b its bs Hb _ IH]; [done|]. apply Forall_cons in Hi as [[W _] Hi].
  change (mjoin (b :: bs)) with (b ++ mjoin bs). change (segment (i :: its)) with (CloudItem.encode i ++ segment its).
  rewrite !length_app, !Nat2Z.inj_add, (IH Hi). by rewrite (opened_length i b W Hb).
Qed.

(** The last item of a segment after encryption and decryption. *)
Lemma last_item_found `{Gcrypt} `{GSequenceLib} `{Env0 : Env} `{!EnvSpec Env0} keys its i u s :
  Forall item_ok (its ++ [i]) ->
  wp (e ← bluesky_cloudlog_encrypt keys (segment (its ++ [i])); bluesky_cloudlog_decrypt keys e [] u) s (fun r _ =>
    Rangeset.mkRange (zlen (segment its)) (CloudItem.size i) 1 ∈ r.2 /\
    exists b, slice r.1 (zlen (segment its)) (CloudItem.size i) = Some b /\ opened i b).
Proof.
  intros Hi. eapply wp_mono; [by apply segment_roundtrip_ok|]. intros r _ (Hr & bs & Hbs & H2). split.
  - rewrite Hr, item_ranges_app. apply elem_of_app. right. left.
  - apply Forall2_app_inv_l in H2 as (bs1 & bs2 & H21 & H22 & ->). inversion H22 as [|? b ? ? Hb Hn]; subst.
    inversion Hn; subst. apply Forall_app in Hi as [Hi1 Hi2]. apply Forall_cons in Hi2 as [[W _] _].
    exists b. split; [|done]. rewrite Hbs, join_app. rewrite <- (opened_segment its bs1 Hi1 H21), <- (opened_length i b W Hb).
    change (mjoin [b]) with (b ++ []). rewrite app_nil_r. apply slice_end.
Qed.

(** ** Adding an item *)

Section place.
Context `{GSequenceLib} `{Env0 : Env} `{!EnvSpec Env0} `{Gcrypt} `{DiskUsage}.
Context (keys : CryptKeys.t).

(** The record of an item in a segment. *)
Definition cloud_item_of (s : State) (l : CloudLog.t) (b : bytes) : CloudItem.t :=
  CloudItem.mk (cloud_header l (b, link_ids s l, link_locations s l)) b (link_ids s l) (link_locations s l).

Lemma link_names_same s s' p l l' :
  cloudlogs s !! p = Some l -> cloudlogs s' = <[p := l']> (cloudlogs s) ->
  CloudLog.id l' = CloudLog.id l -> CloudLog.location l' = CloudLog.location l ->
  CloudLog.links l' = CloudLog.links l ->
  link_ids s' l' = link_ids s l /\ link_locations s' l' = link_locations s l.
Proof.
  intros Hp Ec Ei El Ek. unfold link_ids, link_locations. rewrite Ek.
  assert (Hn : name_of s' <$> CloudLog.links l = name_of s <$> CloudLog.links l); [|by rewrite Hn].
  apply list_fmap_ext. intros k [r|] _; [|done]. unfold name_of. simpl. rewrite Ec.
  destruct (decide (r = p)) as [->|Hne]; [|by rewrite lookup_insert_ne].
  rewrite lookup_insert_eq, Hp. simpl. by rewrite Ei, El.
Qed.

(** Items that can be written to a segment. *)
Record storable (l : CloudLog.t) : Prop := {
  sb_type : 0 < CloudLog.type l < 208;
  sb_id : length (CloudLog.id l) = 16%nat;
  sb_inum : 0 <= CloudLog.inum l < 2 ^ 64;
}.

Lemma cloud_item_of_ok s l b :
  storable l -> zlen b < 2 ^ 32 -> zlen (link_ids s l) < 2 ^ 32 -> zlen (link_locations s l) < 2 ^ 32 ->
  item_ok (cloud_item_of s l b).
Proof.
  intros [Ht Hid Hin] H1' H2' H3'. split; [|done]. unfold cloud_item_of, cloud_header. cbn [fst snd].
  rewrite !u32_id, u8_id by lia. split; try done.
  split; unfold is_u; simpl; try done; try apply uninitialized_bytes; lia.
Qed.

Lemma heap_ok_log_state xs xl s st :
  CloudLogState.writeback_list st = CloudLogState.writeback_list (log_state s) ->
  heap_ok xs xl s -> heap_ok xs xl (s <| log_state := st |>).
Proof.
  intros E Hok. eapply (heap_ok_move xs xl); try done.
  - intros p. unfold log_owners, queue_logs. simpl. by rewrite E.
  - intros p Hp. by destruct (ho_fresh _ _ _ Hok p Hp) as (_ & _ & _ & ? & ?).
Qed.

(** The item is listed for the upload, with a reference. *)
Lemma heap_ok_writeback xs xl s p l st :
  heap_ok xs xl s -> cloudlogs s !! p = Some l -> 0 < CloudLog.refcount l ->
  CloudLogState.writeback_list st = p :: CloudLogState.writeback_list (log_state s) ->
  heap_ok xs xl (set_log p (l <| CloudLog.refcount ::= Z.add 1 |>) (s <| log_state := st |>)).
Proof.
  intros Hok Hp Hr E. pose proof (owners_refcount _ _ _ _ _ Hok Hp Hr) as Hle.
  assert (Hok1 : heap_ok xs (xadd xl (Some p)) (set_log p (l <| CloudLog.refcount := 1 + CloudLog.refcount l |>) s)).
  { eapply heap_ok_log_refcount; [done|done|done| |].
    - intros r Hne. unfold xadd. rewrite points_ne by done. lia.
    - unfold xadd. rewrite points_self. lia. }
  change (l <| CloudLog.refcount ::= Z.add 1 |>) with (l <| CloudLog.refcount := 1 + CloudLog.refcount l |>).
  eapply (heap_ok_move xs (xadd xl (Some p))); [exact Hok1|..]; try done; simpl.
  - intros r. unfold xadd, log_owners, queue_logs. simpl. rewrite E. simpl. lia.
  - intros r Hr'. by destruct (ho_fresh _ _ _ Hok r Hr') as (_ & _ & _ & ? & ?).
Qed.

(** What adding the item leaves. *)
Definition item_placed (xs xl : ptr -> Z) (its : list CloudItem.t) (p : ptr) (l : CloudLog.t) (i : CloudItem.t)
    (b : bytes) (s s' : State) : Prop :=
  heap_ok xs xl s' /\ files_ok s' /\ keeps s s' /\ inodes s' = inodes s /\
  CloudLogState.data (log_state s') = segment (its ++ [i]) /\
  CloudLogState.writeback_list (log_state s') = p :: CloudLogState.writeback_list (log_state s) /\
  exists l', cloudlogs s' !! p = Some l' /\ item_bytes s' l' = Some b /\
    has (CloudLog.pending_write l') CLOUDLOG_CLOUD = true /\
    CloudLog.location l' = (CloudLogState.location (log_state s))
      <| CloudPointer.offset := zlen (segment its) |> <| CloudPointer.size := CloudItem.size i |>.

(** From the place of the item to the end. *)
Lemma finish_ok xs xl s its i p l l1 b :
  let loc := (CloudLogState.location (log_state s))
    <| CloudPointer.offset := zlen (segment its) |> <| CloudPointer.size := CloudItem.size i |> in
  heap_ok xs xl s -> files_ok s -> cloudlogs s !! p = Some l -> 0 < CloudLog.refcount l ->
  is_Some (CloudLog.data l) -> item_bytes s l = Some b -> CloudLog.type l <> LOGTYPE_INODE ->
  same_item l l1 -> CloudLog.location l1 = loc ->
  wp (modify (fun s => s <| log_state ::= (fun st => st <| CloudLogState.data := segment (its ++ [i]) |>) |>);;
      when (CloudLog.type l =? LOGTYPE_INODE) (serialize_update_map p l);;
      upd cloudlogs (Some p) (fun l => l <| CloudLog.pending_write ::= fun f => Z.lor f CLOUDLOG_CLOUD |>);;
      bluesky_cloudlog_stats_update (Some p) 1;;
      modify (fun s => s <| log_state ::= (fun st => st <| CloudLogState.writeback_list ::= cons p |>) |>);;
      bluesky_cloudlog_ref (Some p)) (set_log p l1 s) (fun _ s' => item_placed xs xl its p l i b s s').
Proof.
  intros loc Hok Hfo Hp Hr [q Hq] Hb Hty Hsame Hloc.
  wp_step. wp_step. set (s1 := setf log_state _ _).
  assert (Es1 : s1 = (set_log p l1 s) <| log_state := (log_state s) <| CloudLogState.data := segment (its ++ [i]) |> |>) by done.
  assert (Hok1 : heap_ok xs xl s1).
  { rewrite Es1. apply heap_ok_log_state; [done|]. by eapply heap_ok_retag. }
  assert (Hp1 : cloudlogs s1 !! p = Some l1) by apply lookup_insert_eq.
  rewrite (proj2 (Z.eqb_neq _ _)) by done. unfold when. wp_step. wp_step. wp_step. eapply wp_upd; [done|].
  set (l2 := l1 <| CloudLog.pending_write ::= _ |>). change (setf cloudlogs _ s1) with (set_log p l2 s1).
  assert (Hsame2 : same_item l1 l2) by done. destruct Hsame as (Si & St & Sr & Sk & Sd).
  assert (Hr1 : 0 < CloudLog.refcount l1) by lia.
  pose proof (heap_ok_retag _ _ _ _ _ _ Hok1 Hp1 Hr1 Hsame2) as Hok2.
  assert (Hfo2 : files_ok (set_log p l2 s1)) by (destruct Hfo; by split).
  wp_step. eapply wp_mono; [eapply stats_step; [done|done|apply lookup_insert_eq]|].
  intros _ s3 (Hok3 & Hfo3 & _ & _ & E3). wp_step. wp_step.
  assert (Hp3 : cloudlogs s3 !! p = Some l2) by (rewrite E3; apply lookup_insert_eq).
  unfold bluesky_cloudlog_ref. eapply wp_upd; [done|].
  set (st := (log_state s3) <| CloudLogState.writeback_list ::= cons p |>).
  set (l4 := l2 <| CloudLog.refcount ::= Z.add 1 |>).
  change (setf cloudlogs _ _) with (set_log p l4 (s3 <| log_state := st |>)).
  assert (Hkeep : keeps s (set_log p l4 (s3 <| log_state := st |>))).
  { split; [|intros r lr|simpl; rewrite E3; simpl; lia].
    - intros r str. simpl. rewrite E3. simpl. eauto 10.
    - simpl. destruct (decide (r = p)) as [->|Hne].
      + rewrite lookup_insert_eq. intros [= <-] _ _. exists l. split_and!; [done|done|].
        intros b1. unfold item_bytes. rewrite E3. change (CloudLog.data l4) with (CloudLog.data l1). by rewrite Sd, Hq.
      + rewrite lookup_insert_ne by done. rewrite E3. simpl. rewrite !lookup_insert_ne by done. eauto. }
  split_and!.
  - eapply heap_ok_writeback; [done|done|done|done].
  - destruct Hfo3. by split.
  - done.
  - simpl. by rewrite E3.
  - simpl. by rewrite E3.
  - simpl. by rewrite E3.
  - exists l4. split_and!.
    + apply lookup_insert_eq.
    + unfold item_bytes in *. change (CloudLog.data l4) with (CloudLog.data l1). rewrite Sd, Hq in *. by rewrite E3.
    + simpl. apply has_lor.
    + exact Hloc.
Qed.

Lemma serialize_item_ok xs xl its s p l b :
  let i := cloud_item_of s l b in
  heap_ok xs xl s -> xnn xs -> xnn xl -> files_ok s -> CloudLogState.data (log_state s) = segment its ->
  cloudlogs s !! p = Some l -> 0 < CloudLog.refcount l -> item_bytes s l = Some b ->
  storable l -> CloudLog.type l <> LOGTYPE_INODE ->
  zlen (segment (its ++ [i])) < 2 ^ 31 ->
  wp (serialize_item keys p) s (fun _ s' => item_placed xs xl its p l i b s s').
Proof.
  intros i Hok Hx Hxl Hfo Hseg Hp Hr Hb Hst Hty Hsz. rewrite segment_snoc, length_app in Hsz.
  assert (Hi : zlen (CloudItem.encode i) = CloudItem.size i) by done.
  unfold serialize_item. wp_step. eapply wp_mono; [by eapply journal_fetch_full|].
  intros _ s1 (Hok1 & Hfo1 & Hk1 & Ei1 & _ & [_ _ Els1] & q & Ec1 & Hb1 & _).
  set (l1 := l <| CloudLog.data := Some q |>) in *.
  assert (Hp1 : cloudlogs s1 !! p = Some l1) by (rewrite Ec1; apply lookup_insert_eq).
  destruct (link_names_same s s1 p l l1 Hp Ec1) as [Eids Elocs]; [done..|].
  wp_step. eapply wp_load; [done|]. wp_step. wp_step; [done|].
  wp_step. eapply wp_mono; [by eapply stats_step|]. intros _ s2 (Hok2 & Hfo2 & Hk2 & _ & E2).
  assert (Hp2 : cloudlogs s2 !! p = Some l1) by (by rewrite E2).
  wp_step. eapply wp_mono; [eapply serialize_cloudlog_ok; [done|done|exact Hp2|done|by eexists|]|].
  { rewrite E2. exact Hb1. }
  assert (link_ids s2 l1 = link_ids s l /\ link_locations s2 l1 = link_locations s l) as [-> ->] by (by rewrite E2).
  intros ? ? [-> ->]. cbn [fst snd].
  assert (Els2 : log_state s2 = log_state s) by (rewrite E2; exact Els1).
  wp_step. wp_step. rewrite Els2, Hseg.
  assert (Eenc : CloudLogHeader.encode (cloud_header l1 (b, link_ids s l, link_locations s l)) ++ b
    ++ link_ids s l ++ link_locations s l = CloudItem.encode i) by done.
  rewrite Eenc, <- segment_snoc.
  assert (Esz : zlen (segment (its ++ [i])) - zlen (segment its) = CloudItem.size i)
    by (rewrite segment_snoc, length_app; unfold CloudItem.size; lia).
  rewrite Esz, !u32_id by (unfold CloudItem.size; lia). wp_step. eapply wp_upd; [done|].
  eapply wp_mono; [eapply (finish_ok xs xl s2 its i p l1 _ b); try done|].
  { unfold item_bytes. rewrite E2. exact Hb1. }
  { by rewrite Els2. }
  intros _ s3 (Hok3 & Hfo3 & Hk3 & Ei3 & Ed3 & Ew3 & l' & Hl' & Hb' & Hpw & Hloc).
  split_and!; [done|done| |by rewrite Ei3, E2|done|by rewrite Ew3, Els2|].
  - transitivity s1; [done|]. by transitivity s2.
  - exists l'. split_and!; [done..|]. by rewrite Hloc, Els2.
Qed.

(** C14: An item added to a segment is found at the place recorded for it.  For an
    item in memory or in the journal that is not an inode, the step of
    [bluesky_cloudlog_serialize] that adds it succeeds; the open segment then ends
    with the record of the item, the location of the item gives the offset and the
    length of that record, the item is listed for the upload with a reference of
    its own, and what was stored is unchanged.  Encrypting the segment and
    decrypting what was encrypted finds the item at that offset with that length,
    and with the same bytes up to the encryption fields of the header. *)
Theorem serialize_item_places xs xl its s p l b u :
  let i := cloud_item_of s l b in
  heap_ok xs xl s -> xnn xs -> xnn xl -> files_ok s ->
  CloudLogState.data (log_state s) = segment its -> Forall item_ok its ->
  cloudlogs s !! p = Some l -> 0 < CloudLog.refcount l -> item_bytes s l = Some b ->
  storable l -> CloudLog.type l <> LOGTYPE_INODE ->
  zlen (segment (its ++ [i])) < 2 ^ 31 ->
  wp (serialize_item keys p) s (fun _ s' =>
    item_placed xs xl its p l i b s s' /\ Forall item_ok (its ++ [i]) /\
    wp (e ← bluesky_cloudlog_encrypt keys (CloudLogState.data (log_state s'));
        bluesky_cloudlog_decrypt keys e [] u) s' (fun r _ =>
      Rangeset.mkRange (zlen (segment its)) (CloudItem.size i) 1 ∈ r.2 /\
      exists bytes, slice r.1 (zlen (segment its)) (CloudItem.size i) = Some bytes /\ opened i bytes)).
Proof.
  intros i Hok Hx Hxl Hfo Hseg Hits Hp Hr Hb Hst Hty Hsz.
  eapply wp_mono; [by apply serialize_item_ok|]. intros v s' Hpl. split; [done|].
  assert (Hall : Forall item_ok (its ++ [i])).
  { apply Forall_app. split; [done|]. constructor; [|done]. rewrite segment_snoc, length_app in Hsz.
    unfold CloudItem.encode in Hsz. rewrite !length_app in Hsz. simpl in Hsz. apply cloud_item_of_ok; [done|lia..]. }
  split; [done|]. destruct Hpl as (_ & _ & _ & _ & -> & _). by apply last_item_found.
Qed.
End place.

Lemma serialize_item_places_witness :
  wp (serialize_item (H := linear_gsequence) sample_keys 1) sample_log_state (fun _ s' =>
    exists l', cloudlogs s' !! 1%positive = Some l' /\
      CloudPointer.offset (CloudLog.location l') = 0 /\ CloudPointer.size (CloudLog.location l') = 92).
Proof.
  refine (wp_mono _ _ _ _ (serialize_item_places (H := linear_gsequence) sample_keys nox nox [] sample_log_state 1
    sample_item [97; 98; 99] false sample_log_heap_ok xnn_nox xnn_nox (li_files _ _ sample_log_inv) eq_refl _ _ _ _ _ _ _) _).
  - constructor.
  - apply lookup_singleton_eq.
  - done.
  - vm_compute. reflexivity.
  - split; unfold sample_item, LOGTYPE_DATA; simpl; done || lia.
  - done.
  - vm_compute. reflexivity.
  - intros u s' ((_ & _ & _ & _ & _ & _ & l' & Hl' & _ & _ & Hloc) & _). exists l'. split; [done|]. rewrite Hloc. split; vm_compute; reflexivity.
Defined.
