(* ===== verification/InodeSync.v ===== *)
(** * Loading and writing back inodes (src/bluesky/inode.c)

    An inode that is not in memory is found through the inode map, fetched and
    deserialized; a changed inode is written to the journal with its dirty blocks,
    and afterwards waits to be written to the cloud. *)

From S2P Require Import Prelude Crc32c Glib Rangeset State Strings Ownership CloudLog Lru Inodes Fetch File Imap Serialize Journal Crypto CacheFiles LogThread.
From Stdlib Require Import ZArith Lia.
From stdpp Require Import base numbers gmap option list.

Open Scope Z_scope.

Section inode_sync.
Context `{GSequenceLib} `{Env} `{Gcrypt} `{DiskUsage} `{Fetch}.
Context (keys : CryptKeys.t).

Definition bluesky_inode_prefetch (inum : Z) : M State unit :=
  s ← get;
  match FS.inodes (fs s) !! inum with
  | Some _ => mret tt
  | None =>
    entry ← bluesky_inode_map_lookup inum 0;
    match entry with
    | Some entry => bluesky_cloudlog_prefetch (InodeMap.item entry)
    | None => mret tt
    end
  end.

(** The part of the task that fills in the inode. *)
Definition inode_fetch_task (inode : ptr) : M State unit :=
  i ← load inodes (Some inode);
  let item := Inode.committed_item i in
  upd inodes (Some inode) (fun i => i <| Inode.committed_item := None |>);;
  bluesky_cloudlog_fetch item;;
  bluesky_deserialize_inode (Some inode) item;;
  now ← bluesky_get_current_time;
  upd inodes (Some inode) (fun i => i <| Inode.access_time := now |>);;
  i ← load inodes (Some inode);
  fs_list_unlink FS.accessed_list (Inode.accessed_list i);;
  link ← fs_list_prepend FS.accessed_list inode;
  upd inodes (Some inode) (fun i => i <| Inode.accessed_list := Some link |>);;
  bluesky_cloudlog_unref item;;
  bluesky_inode_unref (Some inode).

(** The inode is locked until the task is done, so that the task runs before
    anybody looks at the inode. *)
Definition bluesky_inode_fetch (inum : Z) : M State unit :=
  entry ← bluesky_inode_map_lookup inum 0;
  match entry with
  | None => mret tt
  | Some entry =>
    inode ← bluesky_new_inode inum BLUESKY_PENDING;
    upd inodes (Some inode) (fun i => i <| Inode.change_count := 0 |>);;
    bluesky_inode_ref (Some inode);;
    upd inodes (Some inode) (fun i => i <| Inode.committed_item := InodeMap.item entry |>);;
    bluesky_cloudlog_ref (InodeMap.item entry);;
    bluesky_insert_inode (Some inode);;
    inode_fetch_task inode
  end.

Definition bluesky_get_inode (inum : Z) : M State (option ptr) :=
  if inum =? 0 then mret None else
  s ← get;
  match FS.inodes (fs s) !! inum with
  | Some _ => mret tt
  | None => bluesky_inode_fetch inum
  end;;
  s ← get;
  match FS.inodes (fs s) !! inum with
  | None => mret None
  | Some inode =>
    bluesky_inode_ref (Some inode);;
    now ← bluesky_get_current_time;
    upd inodes (Some inode) (fun i => i <| Inode.access_time := now |>);;
    mret (Some inode)
  end.

Definition bluesky_inode_start_sync (inode : ptr) : M State unit :=
  i ← load inodes (Some inode);
  log_items ← (if Inode.type i =? BLUESKY_REGULAR then bluesky_file_flush (Some inode) [] else mret []);
  cloudlog ← bluesky_serialize_inode (Some inode);
  i ← load inodes (Some inode);
  bluesky_cloudlog_unref (Inode.committed_item i);;
  upd inodes (Some inode) (fun i => i <| Inode.committed_item := Some cloudlog |>);;
  bluesky_cloudlog_sync (Some cloudlog);;
  bluesky_cloudlog_ref (Some cloudlog);;
  bluesky_log_finish_all keys (cloudlog :: log_items);;
  upd inodes (Some inode) (fun i =>
    i <| Inode.change_commit := Inode.change_count i |> <| Inode.change_time := 0 |>);;
  i ← load inodes (Some inode);
  fs_list_unlink FS.unlogged_list (Inode.unlogged_list i);;
  upd inodes (Some inode) (fun i => i <| Inode.unlogged_list := None |>);;
  fs_list_unlink FS.dirty_list (Inode.dirty_list i);;
  link ← fs_list_prepend FS.dirty_list inode;
  upd inodes (Some inode) (fun i =>
    i <| Inode.dirty_list := Some link |> <| Inode.change_cloud := Inode.change_count i |>).

Definition bluesky_inode_do_sync (inode : ptr) : M State unit := bluesky_inode_start_sync inode.
End inode_sync.
