(* ===== verification/Store.v ===== *)
(** * The storage layer (src/bluesky/store.c, src/bluesky/store-s3.c)

    Requests to the storage service are objects shared between the client, the
    threads of the back end and the threads that run notifiers.  The operations of
    store.c on them, the stores in memory, on disk and the one that discards, and
    the asynchronous back end of store-s3.c, where what the S3 library reports for
    a request is an argument.  The simple store queues requests in the same way
    ([simplestore_submit] of src/bluesky/store-simple.c). *)

From S2P Require Import Prelude State Strings Ownership.
From Stdlib Require Import ZArith Lia.
From stdpp Require Import base numbers gmap option list.

Open Scope Z_scope.

Inductive BlueSkyStoreOp :=
  | STORE_OP_NONE
  | STORE_OP_GET
  | STORE_OP_PUT
  | STORE_OP_DELETE
  | STORE_OP_BARRIER.

Inductive BlueSkyAsyncStatus :=
  | ASYNC_NEW
  | ASYNC_PENDING
  | ASYNC_RUNNING
  | ASYNC_COMPLETE.

#[export] Instance BlueSkyStoreOp_eq_dec : EqDecision BlueSkyStoreOp.
Proof. solve_decision. Defined.
#[export] Instance BlueSkyAsyncStatus_eq_dec : EqDecision BlueSkyAsyncStatus.
Proof. solve_decision. Defined.

(** A function to be called at completion, with its argument: [op_complete] for
    a barrier, or a function of a client, known by a number. *)
Inductive GFunc :=
  | OpComplete (barrier : ptr)
  | Client (k : nat).

Module Notifier.
Record t := mk {
  func : GFunc;
  async : ptr;
}.
End Notifier.

(** Times and the profile, which are only reported, are left out. *)
Module Async.
Record t := mk {
  refcount : Z;
  status : BlueSkyAsyncStatus;
  op : BlueSkyStoreOp;
  key : option bytes;
  data : option ptr;
  start : Z;
  len : Z;
  range_done : bool;
  result : Z;
  notifiers : list Notifier.t;
  notifier_count : Z;
  barrier : option ptr;
  store_private : Z;
}.
End Async.
#[export] Instance Async_eta : Eta Async.t := fun x =>
  Async.mk (Async.refcount x) (Async.status x) (Async.op x) (Async.key x) (Async.data x)
    (Async.start x) (Async.len x) (Async.range_done x) (Async.result x)
    (Async.notifiers x) (Async.notifier_count x) (Async.barrier x) (Async.store_private x).

(** The implementations of a store. *)
Inductive BlueSkyStoreImplementation :=
  | memstore_impl
  | filestore_impl
  | nullstore_impl
  | s3store_impl
  | simplestore_impl.

Module Stats.
Record t := mk {
  count : Z;
  sum : Z;
}.
End Stats.

(** The storage layer: the heap of the proxy, the requests, the fields of the
    one [BlueSkyStore], the queue of the notifier threads and that of the back
    end, the contents of the store in memory and on disk, and the calls to
    client functions so far. *)
Record StoreSys := mkStoreSys {
  base : State;
  asyncs : gmap ptr Async.t;
  next_async : ptr;
  store_implementations : gmap bytes BlueSkyStoreImplementation;
  store_impl : BlueSkyStoreImplementation;
  pending : Z;
  stats_get : Stats.t;
  stats_put : Stats.t;
  pool : list Notifier.t;
  tasks : list ptr;
  memory : gmap bytes ptr;
  files : gmap bytes bytes;
  called : list (nat * ptr);
}.
#[export] Instance StoreSys_eta : Eta StoreSys := fun x =>
  mkStoreSys (base x) (asyncs x) (next_async x) (store_implementations x) (store_impl x)
    (pending x) (stats_get x) (stats_put x) (pool x) (tasks x) (memory x) (files x) (called x).

(** What [g_file_set_contents] reports. *)
Class FileSystem := { g_file_set_contents_ok : bytes -> bytes -> bool }.

(** ** Access to the requests *)

Definition lift {A} (m : M State A) : M StoreSys A := fun s =>
  match m (base s) with
  | Ok a b => Ok a (s <| base := b |>)
  | Stop e => Stop e
  end.

Definition aload (p : option ptr) : M StoreSys Async.t :=
  q ← assume NullPointer p; s ← get; assume Dangling (asyncs s !! q).

Definition aupd (p : option ptr) (f : Async.t -> Async.t) : M StoreSys unit :=
  q ← assume NullPointer p; a ← aload (Some q);
  modify (fun s => s <| asyncs ::= <[q := f a]> |>).

(** ** The requests *)

Definition bluesky_stats_add (st : Stats.t) (value : Z) : Stats.t :=
  Stats.mk (Stats.count st + 1) (Stats.sum st + value).

Definition bluesky_store_async_new : M StoreSys ptr :=
  p ← gets next_async;
  modify (fun s => s <| asyncs ::= <[p :=
    Async.mk 1 ASYNC_NEW STORE_OP_NONE None None 0 0 false (-1) [] 0 None 0]> |>
    <| next_async := Pos.succ p |>);;
  mret p.

Definition bluesky_store_async_ref (async : option ptr) : M StoreSys unit :=
  match async with
  | None => mret tt
  | Some _ =>
    a ← aload async;
    if negb (0 <? Async.refcount a) then mret tt else
    aupd async (fun a => a <| Async.refcount ::= Z.add 1 |>)
  end.

(** The back end takes [store_private] for a buffer of its own, which it never
    sets; only a barrier keeps a number there. *)
Definition s3store_cleanup (a : Async.t) : M StoreSys unit :=
  check Dangling (Async.store_private a =? 0).

(** [impl->cleanup]; the other implementations have nothing to do. *)
Definition impl_cleanup (i : BlueSkyStoreImplementation) (a : Async.t) : M StoreSys unit :=
  match i with s3store_impl => s3store_cleanup a | _ => mret tt end.

Definition bluesky_store_async_unref (async : option ptr) : M StoreSys unit :=
  match async with
  | None => mret tt
  | Some p =>
    aupd async (fun a => a <| Async.refcount ::= Z.add (-1) |>);;
    a ← aload async;
    when (Async.refcount a =? 0)
      (i ← gets store_impl;
       impl_cleanup i a;;
       lift (bluesky_string_unref (Async.data a));;
       modify (fun s => s <| asyncs ::= delete p |>))
  end.

Definition bluesky_store_async_wait (async : option ptr) : M StoreSys unit :=
  match async with
  | None => mret tt
  | Some _ =>
    a ← aload async;
    check Fatal (negb (bool_decide (Async.status a = ASYNC_NEW)));;
    check Blocked (bool_decide (Async.status a = ASYNC_COMPLETE)
                   && negb (0 <? Async.notifier_count a))
  end.

(** [g_thread_pool_push(notifier_thread_pool, ...)]. *)
Definition pool_push (ns : list Notifier.t) : M StoreSys unit :=
  modify (fun s => s <| pool ::= fun l => l ++ ns |>).

Definition bluesky_store_async_add_notifier (async : option ptr) (func : GFunc) : M StoreSys unit :=
  p ← assume NullPointer async;
  let nl := Notifier.mk func p in
  bluesky_store_async_ref async;;
  aupd async (fun a => a <| Async.notifier_count ::= Z.add 1 |>);;
  a ← aload async;
  if bool_decide (Async.status a = ASYNC_COMPLETE) then pool_push [nl]
  else aupd async (fun a => a <| Async.notifiers ::= cons nl |>).

(** [op_complete], with the function that completes the barrier. *)
Definition op_complete_with (mark_complete : option ptr -> M StoreSys unit) (barrier : option ptr)
    : M StoreSys unit :=
  bluesky_store_async_ref barrier;;
  aupd barrier (fun b => b <| Async.store_private ::= Z.add (-1) |>);;
  b ← aload barrier;
  when ((Async.store_private b =? 0) && negb (bool_decide (Async.status b = ASYNC_NEW)))
    (mark_complete barrier);;
  bluesky_store_async_unref barrier.

(** Selection of the bytes asked for.  [g_memdup] takes a 32-bit length. *)
Definition select_range (async : option ptr) : M StoreSys unit :=
  a ← aload async;
  match Async.data a with
  | Some d =>
    str ← lift (load strs (Some d));
    if u64 (Async.start a + Async.len a) >? RCStr.len str then
      aupd async (fun a => a <| Async.result := -1 |>)
    else
      let len := if Async.len a =? 0 then RCStr.len str - Async.start a else Async.len a in
      b ← lift (str_read (Some d) (Async.start a) (u32 len));
      newstr ← lift (alloc strs (RCStr.mk 1 None (RCStr.Owned b) len));
      lift (bluesky_string_unref (Some d));;
      aupd async (fun a => a <| Async.len := len |> <| Async.data := Some newstr |>
                             <| Async.range_done := true |>)
  | None => mret tt
  end.

(** The second half of [bluesky_store_async_mark_complete]: the new status, the
    barrier, the notifiers and the statistics. *)
Definition announce_with (mark_complete : option ptr -> M StoreSys unit) (async : option ptr)
    : M StoreSys unit :=
  aupd async (fun a => a <| Async.status := ASYNC_COMPLETE |>);;
  a ← aload async;
  (match Async.barrier a, Async.notifiers a with
   | Some b, [] => op_complete_with mark_complete (Some b)
   | _, _ => mret tt
   end);;
  a ← aload async;
  pool_push (Async.notifiers a);;
  aupd async (fun a => a <| Async.notifiers := [] |>);;
  match Async.data a with
  | Some d =>
    str ← lift (load strs (Some d));
    match Async.op a with
    | STORE_OP_GET => modify (fun s => s <| stats_get ::= fun st => bluesky_stats_add st (RCStr.len str) |>)
    | STORE_OP_PUT => modify (fun s => s <| stats_put ::= fun st => bluesky_stats_add st (RCStr.len str) |>)
    | _ => mret tt
    end
  | None => mret tt
  end.

(** Completing a barrier can complete another one; every level of the recursion
    completes one more request. *)
Fixpoint mark_complete_rec (fuel : nat) (async : option ptr) : M StoreSys unit :=
  a ← aload async;
  if bool_decide (Async.status a = ASYNC_COMPLETE) then mret tt else
  match fuel with
  | O => stop OutOfFuel
  | S fuel =>
    when (negb (bool_decide (Async.op a = STORE_OP_BARRIER)))
      (modify (fun s => s <| pending ::= Z.add (-1) |>));;
    when (bool_decide (Async.op a = STORE_OP_GET) && negb (Async.range_done a)
          && (Async.result a =? 0)
          && match Async.data a with Some _ => true | None => false end
          && (negb (Async.start a =? 0) || negb (Async.len a =? 0)))
      (select_range async);;
    announce_with (mark_complete_rec fuel) async
  end.

Definition bluesky_store_async_mark_complete (async : option ptr) : M StoreSys unit :=
  s ← get; mark_complete_rec (size (asyncs s)) async.

Definition op_complete (barrier : option ptr) : M StoreSys unit :=
  op_complete_with bluesky_store_async_mark_complete barrier.

Definition bluesky_store_add_barrier (barrier async : option ptr) : M StoreSys unit :=
  b ← aload barrier;
  if negb (bool_decide (Async.op b = STORE_OP_BARRIER)) then mret tt else
  aupd barrier (fun b => b <| Async.store_private ::= Z.add 1 |>);;
  a ← aload async;
  match Async.barrier a with
  | None =>
    if negb (bool_decide (Async.status a = ASYNC_COMPLETE))
    then aupd async (fun a => a <| Async.barrier := barrier |>)
    else p ← assume NullPointer barrier; bluesky_store_async_add_notifier async (OpComplete p)
  | Some _ => p ← assume NullPointer barrier; bluesky_store_async_add_notifier async (OpComplete p)
  end.

(** What a thread of the pool does with a notifier it has taken. *)
Definition notifier_task (n : Notifier.t) : M StoreSys unit :=
  (match Notifier.func n with
   | OpComplete b => op_complete (Some b)
   | Client k => modify (fun s => s <| called ::= fun l => l ++ [(k, Notifier.async n)] |>)
   end);;
  aupd (Some (Notifier.async n)) (fun a => a <| Async.notifier_count ::= Z.add (-1) |>);;
  a ← aload (Some (Notifier.async n));
  when (Async.notifier_count a =? 0)
    (match Async.barrier a with
     | Some b => op_complete (Some b)
     | None => mret tt
     end);;
  bluesky_store_async_unref (Some (Notifier.async n)).

Definition bluesky_store_sync : M StoreSys unit :=
  n ← gets pending; check Blocked (negb (0 <? n)).

(** ** The store in memory *)

Definition memstore_get (key : bytes) : M StoreSys (option ptr) :=
  s ← gets (fun s => memory s !! key);
  lift (bluesky_string_ref s);;
  mret s.

(** [g_hash_table_insert] drops the value it replaces. *)
Definition memstore_put (key : bytes) (val : option ptr) : M StoreSys unit :=
  lift (bluesky_string_ref val);;
  v ← assume NullPointer val;
  old ← gets (fun s => memory s !! key);
  modify (fun s => s <| memory ::= <[key := v]> |>);;
  lift (bluesky_string_unref old).

Definition memstore_submit (async : option ptr) : M StoreSys unit :=
  a ← aload async;
  if negb (bool_decide (Async.status a = ASYNC_NEW)) then mret tt else
  match Async.op a with
  | STORE_OP_GET =>
    k ← assume NullPointer (Async.key a);
    d ← memstore_get k;
    aupd async (fun a => a <| Async.data := d |>);;
    bluesky_store_async_mark_complete async
  | STORE_OP_PUT =>
    k ← assume NullPointer (Async.key a);
    memstore_put k (Async.data a);;
    bluesky_store_async_mark_complete async
  | _ => mret tt
  end.

(** ** The store on disk *)
Section filestore.
Context `{FileSystem}.

Definition filestore_get (key : bytes) : M StoreSys (option ptr) :=
  o ← gets (fun s => files s !! key);
  match o with
  | None => mret None
  | Some contents => q ← lift (bluesky_string_new contents); mret (Some q)
  end.

Definition filestore_put (key : bytes) (val : option ptr) : M StoreSys unit :=
  str ← lift (load strs val);
  b ← lift (g_memdup str);
  when (g_file_set_contents_ok key b) (modify (fun s => s <| files ::= <[key := b]> |>)).

Definition filestore_submit (async : option ptr) : M StoreSys unit :=
  a ← aload async;
  if negb (bool_decide (Async.status a = ASYNC_NEW)) then mret tt else
  match Async.op a with
  | STORE_OP_GET =>
    k ← assume NullPointer (Async.key a);
    d ← filestore_get k;
    aupd async (fun a => a <| Async.data := d |> <| Async.result := 0 |>);;
    bluesky_store_async_mark_complete async
  | STORE_OP_PUT =>
    k ← assume NullPointer (Async.key a);
    filestore_put k (Async.data a);;
    aupd async (fun a => a <| Async.result := 0 |>);;
    bluesky_store_async_mark_complete async
  | _ => mret tt
  end.

(** [strcmp] on the bytes before the terminator. *)
Fixpoint strcmp (a b : bytes) : comparison :=
  match a, b with
  | [], [] => Eq
  | [], _ => Lt
  | _, [] => Gt
  | x :: a, y :: b => match x ?= y with Eq => strcmp a b | c => c end
  end.

(** The loop over the names of the directory, in the order it is read. *)
Fixpoint filestore_lookup_last (names : list bytes) (prefix : bytes) (last : option bytes)
    : option bytes :=
  match names with
  | [] => last
  | file :: names =>
    let better :=
      bool_decide (take (length prefix) file = prefix)
      && match last with None => true | Some l => match strcmp file l with Gt => true | _ => false end end in
    filestore_lookup_last names prefix (if better then Some file else last)
  end.

Definition nullstore_submit (async : option ptr) : M StoreSys unit :=
  bluesky_store_async_mark_complete async.

(** ** The asynchronous back end *)

Definition s3store_submit (async : option ptr) : M StoreSys unit :=
  a ← aload async;
  if negb (bool_decide (Async.status a = ASYNC_NEW)) then mret tt else
  match Async.op a with
  | STORE_OP_NONE => mret tt
  | STORE_OP_GET | STORE_OP_PUT =>
    aupd async (fun a => a <| Async.status := ASYNC_PENDING |>);;
    bluesky_store_async_ref async;;
    p ← assume NullPointer async;
    modify (fun s => s <| tasks ::= fun l => l ++ [p] |>)
  | _ => bluesky_store_async_mark_complete async
  end.

Definition simplestore_submit (async : option ptr) : M StoreSys unit :=
  a ← aload async;
  if negb (bool_decide (Async.status a = ASYNC_NEW)) then mret tt else
  match Async.op a with
  | STORE_OP_NONE => mret tt
  | STORE_OP_GET | STORE_OP_PUT =>
    aupd async (fun a => a <| Async.status := ASYNC_PENDING |>);;
    bluesky_store_async_ref async;;
    p ← assume NullPointer async;
    modify (fun s => s <| tasks ::= fun l => l ++ [p] |>)
  | _ => bluesky_store_async_mark_complete async
  end.

Definition simplestore_lookup_last (prefix : bytes) : option bytes := None.

(** [answer]: the bytes received if the service reports success. *)
Definition s3store_task (async : option ptr) (answer : option bytes) : M StoreSys unit :=
  aupd async (fun a => a <| Async.status := ASYNC_RUNNING |>);;
  a ← aload async;
  (match Async.op a with
   | STORE_OP_GET =>
     aupd async (fun a => a <| Async.range_done := true |>);;
     match answer with
     | Some b =>
       q ← lift (bluesky_string_new_from_gstring b);
       aupd async (fun a => a <| Async.data := Some q |> <| Async.result := 0 |>)
     | None => mret tt
     end
   | STORE_OP_PUT =>
     lift (load strs (Async.data a));;
     match answer with
     | Some _ => aupd async (fun a => a <| Async.result := 0 |>)
     | None => mret tt
     end
   | _ => mret tt
   end);;
  bluesky_store_async_mark_complete async;;
  bluesky_store_async_unref async.

(** ** The store *)

Definition bluesky_store_register (i : BlueSkyStoreImplementation) (name : bytes) : M StoreSys unit :=
  modify (fun s => s <| store_implementations ::= <[name := i]> |>).

(** ["mem"], ["file"] and ["null"]. *)
Definition bluesky_store_init : M StoreSys unit :=
  modify (fun s => s <| store_implementations := ∅ |>);;
  bluesky_store_register memstore_impl [109; 101; 109];;
  bluesky_store_register filestore_impl [102; 105; 108; 101];;
  bluesky_store_register nullstore_impl [110; 117; 108; 108].

(** ["simple"]. *)
Definition bluesky_store_init_simple : M StoreSys unit :=
  bluesky_store_register simplestore_impl [115; 105; 109; 112; 108; 101].

(** The part of a name before the first colon. *)
Fixpoint scheme (type : bytes) : bytes :=
  match type with
  | [] => []
  | c :: type => if c =? 58 then [] else c :: scheme type
  end.

(** Whether a store was made; a new store in memory is empty. *)
Definition bluesky_store_new (type : bytes) : M StoreSys bool :=
  o ← gets (fun s => store_implementations s !! scheme type);
  match o with
  | None => mret false
  | Some i =>
    when (match i with memstore_impl => true | _ => false end)
      (modify (fun s => s <| memory := ∅ |>));;
    modify (fun s => s <| store_impl := i |> <| pending := 0 |>
      <| stats_get := Stats.mk 0 0 |> <| stats_put := Stats.mk 0 0 |>);;
    mret true
  end.

(** The stores in memory and the one that discards have no such function. *)
Definition bluesky_store_lookup_last (prefix : bytes) (list_bucket : bytes -> option bytes)
    : M StoreSys (option bytes) :=
  s ← get;
  match store_impl s with
  | filestore_impl => mret (filestore_lookup_last (map_to_list (files s)).*1 prefix None)
  | s3store_impl => mret (list_bucket prefix)
  | simplestore_impl => mret (simplestore_lookup_last prefix)
  | _ => stop NullPointer
  end.

Definition impl_submit (i : BlueSkyStoreImplementation) (async : option ptr) : M StoreSys unit :=
  match i with
  | memstore_impl => memstore_submit async
  | filestore_impl => filestore_submit async
  | nullstore_impl => nullstore_submit async
  | s3store_impl => s3store_submit async
  | simplestore_impl => simplestore_submit async
  end.

Context `{Env}.

Definition bluesky_store_async_submit (async : option ptr) : M StoreSys unit :=
  a ← aload async;
  if bool_decide (Async.op a = STORE_OP_BARRIER) then
    aupd async (fun a => a <| Async.status := ASYNC_RUNNING |>);;
    when (Async.store_private a =? 0) (bluesky_store_async_mark_complete async)
  else
  modify (fun s => s <| pending ::= Z.add 1 |>);;
  i ← gets store_impl;
  impl_submit i async;;
  when (Options.synchronous_stores bluesky_options) (bluesky_store_async_wait async).

Definition bluesky_store_get (key : bytes) : M StoreSys (option ptr) :=
  async ← bluesky_store_async_new;
  aupd (Some async) (fun a => a <| Async.op := STORE_OP_GET |> <| Async.key := Some key |>);;
  bluesky_store_async_submit (Some async);;
  bluesky_store_async_wait (Some async);;
  a ← aload (Some async);
  lift (bluesky_string_ref (Async.data a));;
  bluesky_store_async_unref (Some async);;
  mret (Async.data a).

Definition bluesky_store_put (key : bytes) (val : option ptr) : M StoreSys unit :=
  async ← bluesky_store_async_new;
  aupd (Some async) (fun a => a <| Async.op := STORE_OP_PUT |> <| Async.key := Some key |>);;
  lift (bluesky_string_ref val);;
  aupd (Some async) (fun a => a <| Async.data := val |>);;
  bluesky_store_async_submit (Some async);;
  bluesky_store_async_wait (Some async);;
  bluesky_store_async_unref (Some async).
End filestore.
