(* ===== verification/StoreProtocol.v ===== *)
(** * Correctness of the storage layer

    Requests for a part of an object; what is put into a store is what is gotten
    from it; and the name found by a search for the last object.  The protocol of
    the threads is in StoreThreads.v. *)

From S2P Require Import Prelude State Strings Ownership Store.
From Stdlib Require Import ZArith Lia.
From stdpp Require Import base numbers gmap option list.

Open Scope Z_scope.

Lemma xadd_comm x o o' : xeq (xadd (xadd x o) o') (xadd (xadd x o') o).
Proof. intros r. unfold xadd. lia. Qed.

Lemma StoreSys_ext (s t : StoreSys) :
  base s = base t -> asyncs s = asyncs t -> next_async s = next_async t ->
  store_implementations s = store_implementations t -> store_impl s = store_impl t ->
  pending s = pending t -> stats_get s = stats_get t -> stats_put s = stats_put t ->
  pool s = pool t -> tasks s = tasks t -> memory s = memory t -> files s = files t ->
  called s = called t -> s = t.
Proof. destruct s, t. simpl. intros. by subst. Qed.

Lemma heap_ok_xeq x x' xl s : xeq x x' -> heap_ok x' xl s -> heap_ok x xl s.
Proof. intros E. by rewrite E. Qed.

#[local] Arguments bluesky_store_async_wait : simpl never.
#[local] Arguments bluesky_store_async_ref : simpl never.
#[local] Arguments bluesky_store_async_unref : simpl never.
#[local] Arguments bluesky_store_async_mark_complete : simpl never.
#[local] Arguments bluesky_string_ref : simpl never.
#[local] Arguments bluesky_string_unref : simpl never.

(** ** Symbolic execution *)

Lemma wp_lift {A} (m : M State A) s (Q : A -> StoreSys -> Prop) :
  wp m (base s) (fun a b => Q a (s <| base := b |>)) -> wp (lift m) s Q.
Proof. unfold wp, lift. by destruct (m (base s)). Qed.

Lemma wp_aload p a s (Q : Async.t -> StoreSys -> Prop) :
  asyncs s !! p = Some a -> Q a s -> wp (aload (Some p)) s Q.
Proof. intros Hp HQ. unfold aload. repeat wp_step; eauto. Qed.

Lemma wp_aupd p f a s (Q : unit -> StoreSys -> Prop) :
  asyncs s !! p = Some a -> Q tt (s <| asyncs ::= <[p := f a]> |>) ->
  wp (aupd (Some p) f) s Q.
Proof. intros Hp HQ. unfold aupd. repeat wp_step; eauto. eapply wp_aload; eauto. Qed.

(** A request that is done. *)
Definition completed (a : Async.t) : Async.t :=
  a <| Async.status := ASYNC_COMPLETE |> <| Async.notifiers := [] |>.

(** The state after a request was marked complete, up to the statistics. *)
Definition complete_sys (p : ptr) (a : Async.t) (s : StoreSys) : StoreSys :=
  s <| pending ::= Z.add (if decide (Async.op a = STORE_OP_BARRIER) then 0 else -1) |>
    <| asyncs ::= <[p := completed a]> |>
    <| pool ::= fun l => l ++ Async.notifiers a |>.

Lemma size_pos {A} (m : gmap ptr A) p a : m !! p = Some a -> exists n, size m = S n.
Proof.
  intros Hp. destruct (size m) as [|n] eqn:E; [|by exists n].
  apply map_size_empty_inv in E. subst m. done.
Qed.

(** The second half, for a request without a barrier. *)
Lemma announce_run f p a s (Q : unit -> StoreSys -> Prop) :
  asyncs s !! p = Some a -> Async.barrier a = None ->
  (forall q, Async.data a = Some q -> is_Some (strs (base s) !! q)) ->
  (forall g u, Q tt (s <| asyncs ::= <[p := completed a]> |>
     <| pool ::= fun l => l ++ Async.notifiers a |> <| stats_get := g |> <| stats_put := u |>)) ->
  wp (announce_with f (Some p)) s Q.
Proof.
  intros Hp Hb Hd HQ. unfold announce_with, pool_push. wp_step. eapply wp_aupd; [done|].
  wp_step. eapply wp_aload; [apply lookup_insert_eq|]. simpl. rewrite Hb. do 2 wp_step.
  wp_step. eapply wp_aload; [apply lookup_insert_eq|]. do 2 wp_step. simpl.
  wp_step. eapply wp_aupd; [apply lookup_insert_eq|]. simpl. unfold setf at 1 2 3. simpl.
  match goal with |- wp _ ?s' _ => set (s1 := s') end.
  assert (E : forall g u, s1 <| stats_get := g |> <| stats_put := u |> =
    s <| asyncs ::= <[p := completed a]> |> <| pool ::= fun l => l ++ Async.notifiers a |>
      <| stats_get := g |> <| stats_put := u |>).
  { intros g u. unfold s1, setf. simpl. by rewrite !insert_insert_eq. }
  assert (HQ1 : forall g u, Q tt (s1 <| stats_get := g |> <| stats_put := u |>)).
  { intros g u. rewrite E. apply HQ. }
  destruct (Async.data a) as [q|] eqn:Ed.
  - destruct (Hd q eq_refl) as [str Hq]. wp_step. apply wp_lift. eapply wp_load; [done|].
    destruct (Async.op a); wp_step; first [exact (HQ1 (stats_get s) (stats_put s))
      |exact (HQ1 (bluesky_stats_add (stats_get s) (RCStr.len str)) (stats_put s))
      |exact (HQ1 (stats_get s) (bluesky_stats_add (stats_put s) (RCStr.len str)))].
  - wp_step. apply (HQ1 (stats_get s) (stats_put s)).
Qed.

(** Whether bytes are selected. *)
Definition selects (a : Async.t) : bool :=
  bool_decide (Async.op a = STORE_OP_GET) && negb (Async.range_done a) && (Async.result a =? 0)
  && match Async.data a with Some _ => true | None => false end
  && (negb (Async.start a =? 0) || negb (Async.len a =? 0)).

Definition leave_store (a : Async.t) (n : Z) : Z :=
  if bool_decide (Async.op a = STORE_OP_BARRIER) then n else n - 1.

Lemma mark_complete_split p a s (Q : unit -> StoreSys -> Prop) :
  asyncs s !! p = Some a -> Async.status a <> ASYNC_COMPLETE ->
  (forall f, wp (when (selects a) (select_range (Some p));; announce_with f (Some p))
     (s <| pending := leave_store a (pending s) |>) Q) ->
  wp (bluesky_store_async_mark_complete (Some p)) s Q.
Proof.
  intros Hp Hs Hw. unfold bluesky_store_async_mark_complete. do 2 wp_step.
  destruct (size_pos _ _ _ Hp) as [n ->]. cbn [mark_complete_rec]. wp_step.
  eapply wp_aload; [done|]. rewrite bool_decide_eq_false_2 by done. wp_step.
  specialize (Hw (mark_complete_rec n)). unfold leave_store in Hw.
  destruct (bool_decide (Async.op a = STORE_OP_BARRIER)); cbn [negb when]; wp_step.
  - replace s with (s <| pending := pending s |>) by (by destruct s). exact Hw.
  - replace (setf pending (Z.add (-1)) s) with (s <| pending := pending s - 1 |>); [exact Hw|].
    unfold setf. simpl. f_equal. lia.
Qed.

Lemma mark_complete_run p a s (Q : unit -> StoreSys -> Prop) :
  asyncs s !! p = Some a -> Async.status a <> ASYNC_COMPLETE -> Async.barrier a = None ->
  (forall q, Async.data a = Some q -> is_Some (strs (base s) !! q)) -> selects a = false ->
  (forall g u, Q tt (s <| pending := leave_store a (pending s) |> <| asyncs ::= <[p := completed a]> |>
     <| pool ::= fun l => l ++ Async.notifiers a |> <| stats_get := g |> <| stats_put := u |>)) ->
  wp (bluesky_store_async_mark_complete (Some p)) s Q.
Proof.
  intros Hp Hs Hb Hd Hsel HQ. eapply mark_complete_split; [done|done|]. intros f.
  rewrite Hsel. cbn [when]. do 2 wp_step. by apply (announce_run f p a).
Qed.

(** ** Requests for a part of an object *)

(** The bytes a request asks for; length 0 stands for the rest of the object. *)
Definition requested (b : bytes) (start len : Z) : option bytes :=
  slice b start (if len =? 0 then zlen b - start else len).

Lemma slice_whole (b : bytes) : slice b 0 (zlen b) = Some b.
Proof.
  rewrite <- (app_nil_r b) at 1. exact (slice_mid [] b [] 0 (zlen b) eq_refl eq_refl).
Qed.

Lemma str_len_bytes xs xl s q str b :
  heap_ok xs xl s -> strs s !! q = Some str -> str_bytes s str = Some b -> RCStr.len str = zlen b.
Proof.
  intros Hok Hq Hb. pose proof (ho_wf _ _ _ Hok q str Hq) as W. unfold str_wf in W.
  destruct (RCStr.mmap str).
  - destruct W as (off & b' & _ & Hb' & <-). congruence.
  - destruct W as (buf & E & ->). unfold str_bytes in Hb. rewrite E in Hb. congruence.
Qed.

Lemma select_range_ok xs s p a d str b :
  heap_ok (xadd xs (Some d)) nox (base s) -> xnn xs ->
  asyncs s !! p = Some a -> Async.data a = Some d -> Async.result a = 0 ->
  strs (base s) !! d = Some str -> str_bytes (base s) str = Some b -> zlen b < 2 ^ 32 ->
  0 <= Async.start a -> 0 <= Async.len a -> Async.start a + Async.len a < 2 ^ 64 ->
  wp (select_range (Some p)) s (fun _ s' => exists a', asyncs s' = <[p := a']> (asyncs s) /\
    a' = a <| Async.data := Async.data a' |> <| Async.result := Async.result a' |>
           <| Async.len := Async.len a' |> <| Async.range_done := Async.range_done a' |> /\
    heap_ok (xadd xs (Async.data a')) nox (base s') /\
    exists d' str', Async.data a' = Some d' /\ strs (base s') !! d' = Some str' /\
      match requested b (Async.start a) (Async.len a) with
      | Some r => Async.result a' = 0 /\ str_bytes (base s') str' = Some r
      | None => Async.result a' = -1
      end).
Proof.
  intros Hok Hx Hp Hd Hr Hstr Hb Hlen H0 H1 H2. unfold select_range. wp_step. eapply wp_aload; [done|].
  rewrite Hd. wp_step. apply wp_lift. eapply wp_load; [done|]. rewrite u64_id by lia.
  rewrite (str_len_bytes _ _ _ _ _ _ Hok Hstr Hb).
  replace (s <| base := base s |>) with s by (by destruct s).
  set (n := if Async.len a =? 0 then zlen b - Async.start a else Async.len a).
  assert (Hreq : requested b (Async.start a) (Async.len a) = slice b (Async.start a) n) by done. rewrite Hreq.
  destruct (Z.gtb_spec (Async.start a + Async.len a) (zlen b)) as [Hgt|Hle].
  - eapply wp_aupd; [done|]. eexists. split; [reflexivity|]. split; [by destruct a|]. simpl. rewrite Hd.
    split; [done|]. exists d, str. split_and!; [done|done|].
    destruct (slice b (Async.start a) n) as [r|] eqn:Es; [|done].
    apply slice_Some in Es as (? & ? & ? & ?). unfold n in *. destruct (Z.eqb_spec (Async.len a) 0); lia.
  - assert (Hn : 0 <= n /\ Async.start a + n <= zlen b).
    { unfold n. destruct (Z.eqb_spec (Async.len a) 0); lia. }
    destruct (slice_is_Some b (Async.start a) n) as [r Hsl]; [lia..|]. rewrite Hsl.
    pose proof (slice_Some _ _ _ _ Hsl) as Hsl'.
    wp_step. apply wp_lift. unfold str_read. wp_step. eapply wp_load; [done|]. do 2 wp_step. wp_step.
    wp_step; [done|]. rewrite u32_id by lia. wp_step; [done|]. cbn beta. wp_step. apply wp_lift.
    replace (s <| base := base s |>) with s by (by destruct s).
    assert (Hzr : n = zlen r) by (symmetry; apply Hsl'). rewrite Hzr.
    eapply wp_mono; [apply (bluesky_string_new_ok _ _ _ r Hok)|]. intros q b1 (-> & Eb1 & Hok1).
    rewrite xadd_comm in Hok1. wp_step. apply wp_lift.
    eapply wp_mono; [apply (bluesky_string_unref_ok _ _ _ _ Hok1); auto with bluesky|].
    intros ? b2 (Hok2 & _ & _ & _ & Hkeep). eapply wp_aupd; [done|].
    eexists. split; [reflexivity|]. split; [by destruct a|]. simpl. split; [done|].
    assert (Hne : Some d <> Some (next_ptr (base s))).
    { intros [= ->]. by rewrite (proj1 (ho_fresh _ _ _ Hok (next_ptr (base s)) ltac:(lia))) in Hstr. }
    exists (next_ptr (base s)), (RCStr.mk 1 None (RCStr.Owned r) (zlen r)).
    split_and!; [done| |done|done]. rewrite (Hkeep _ Hne). subst b1. apply lookup_insert_eq.
Qed.

(** when the back end has read a whole object for a request, the client gets
    exactly the bytes it asked for (from an offset, with a length or up to the end),
    or an error if some of them lie outside the object; no byte outside it is read,
    and the references to strings remain right. *)
Theorem range_request_exact xs s p a d str b :
  heap_ok (xadd xs (Some d)) nox (base s) -> xnn xs ->
  asyncs s !! p = Some a -> Async.status a <> ASYNC_COMPLETE -> Async.barrier a = None ->
  Async.op a = STORE_OP_GET -> Async.range_done a = false -> Async.result a = 0 ->
  Async.data a = Some d -> strs (base s) !! d = Some str -> str_bytes (base s) str = Some b ->
  zlen b < 2 ^ 32 -> 0 <= Async.start a -> 0 <= Async.len a -> Async.start a + Async.len a < 2 ^ 64 ->
  wp (bluesky_store_async_mark_complete (Some p)) s (fun _ s' => exists a' d' str',
    asyncs s' !! p = Some a' /\ Async.status a' = ASYNC_COMPLETE /\
    heap_ok (xadd xs (Async.data a')) nox (base s') /\
    Async.data a' = Some d' /\ strs (base s') !! d' = Some str' /\
    match requested b (Async.start a) (Async.len a) with
    | Some r => Async.result a' = 0 /\ str_bytes (base s') str' = Some r
    | None => Async.result a' = -1
    end).
Proof.
  intros Hok Hx Hp Hs Hb Hop Hrd Hr Hd Hstr Hbytes Hlen H0 H1 H2.
  eapply mark_complete_split; [done|done|]. intros f.
  destruct (selects a) eqn:Hsel; cbn [when]; wp_step.
  - eapply wp_mono; [by eapply (select_range_ok xs (s <| pending := _ |>))|].
    intros ? s1 (a1 & E1 & Ea1 & Hok1 & d' & str' & Hd' & Hstr' & Hreq).
    apply (announce_run f p a1); [by rewrite E1, lookup_insert_eq|by rewrite Ea1|by rewrite Hd'; intros ? [= <-]|].
    intros g u. exists (completed a1), d', str'. simpl. split_and!; try done. by rewrite E1, lookup_insert_eq.
  - wp_step. apply (announce_run f p a); [done|done|by rewrite Hd; intros ? [= <-]|].
    intros g u. exists (completed a), d, str. simpl. rewrite lookup_insert_eq, Hd. split_and!; try done.
    unfold selects in Hsel. rewrite (bool_decide_eq_true_2 _ Hop), Hrd, Hr, Hd in Hsel. simpl in Hsel.
    apply orb_false_iff in Hsel as [E1%negb_false_iff%Z.eqb_eq E2%negb_false_iff%Z.eqb_eq].
    rewrite E1, E2. unfold requested. simpl. rewrite Z.sub_0_r, slice_whole. done.
Qed.

(** A request whose end is past 2^64 passes the check of the bounds and is read
    from far outside the object. *)
Definition wrapping_request : StoreSys :=
  mkStoreSys (empty_state <| strs := {[ 1%positive := RCStr.mk 1 None (RCStr.Owned [5; 6]) 2 ]} |>
                          <| next_ptr := 2%positive |>)
    {[ 1%positive := Async.mk 1 ASYNC_RUNNING STORE_OP_GET (Some [107]) (Some 1%positive)
         (2 ^ 64 - 1) 2 false 0 [] 0 None 0 ]} 2 ∅ filestore_impl 1 (Stats.mk 0 0) (Stats.mk 0 0)
    [] [] ∅ ∅ [].
Example range_request_wraps :
  bluesky_store_async_mark_complete (Some 1%positive) wrapping_request = Stop OutOfBounds.
Proof. reflexivity. Qed.

(** ** The last name with a prefix *)

Lemma strcmp_refl a : strcmp a a = Eq.
Proof. induction a as [|x a IH]; [done|]. simpl. by rewrite Z.compare_refl. Qed.

Lemma strcmp_antisym a b : strcmp b a = CompOpp (strcmp a b).
Proof.
  revert b. induction a as [|x a IH]; intros [|y b]; try done. simpl.
  rewrite (Z.compare_antisym x y). destruct (x ?= y); simpl; [apply IH|done|done].
Qed.

Lemma strcmp_trans a b c : strcmp a b <> Gt -> strcmp b c <> Gt -> strcmp a c <> Gt.
Proof.
  revert b c. induction a as [|x a IH]; intros [|y b] [|z c]; try done. simpl.
  destruct (Z.compare_spec x y) as [->|Hxy|Hxy], (Z.compare_spec y z) as [->|Hyz|Hyz]; try done;
    rewrite ?Z.compare_refl; [apply IH|..].
  all: intros _ _; match goal with |- context [?u ?= ?v] => destruct (Z.compare_spec u v) end; lia || done.
Qed.

Definition has_prefix (prefix name : bytes) : Prop := take (length prefix) name = prefix.

(** The last name found so far is the largest of those seen. *)
Lemma lookup_last_spec names prefix last :
  (forall l, last = Some l -> has_prefix prefix l) ->
  match filestore_lookup_last names prefix last with
  | None => last = None /\ forall n, n ∈ names -> ~ has_prefix prefix n
  | Some m =>
    (m ∈ names \/ last = Some m) /\ has_prefix prefix m /\
    (forall n, n ∈ names -> has_prefix prefix n -> strcmp n m <> Gt) /\
    (forall l, last = Some l -> strcmp l m <> Gt)
  end.
Proof.
  revert last. induction names as [|f names IH]; intros last Hl; simpl.
  { destruct last as [l|]; [|split; [done|list_in]].
    split_and!; [by right|by apply Hl|list_in|intros ? [= <-]; by rewrite strcmp_refl]. }
  set (better := _ && _).
  assert (Hb : if better then has_prefix prefix f /\ forall l, last = Some l -> strcmp l f <> Gt
               else has_prefix prefix f -> exists l, last = Some l /\ strcmp f l <> Gt).
  { unfold better, has_prefix. destruct (bool_decide_reflect (take (length prefix) f = prefix)) as [E|E]; simpl; [|done].
    destruct last as [l|]; [|by split].
    destruct (strcmp f l) eqn:Ec; [intros _; exists l; by rewrite Ec..|].
    split; [done|]. intros ? [= <-]. rewrite strcmp_antisym, Ec. done. }
  clearbody better. specialize (IH (if better then Some f else last)).
  destruct better.
  - destruct Hb as [Hf Hmax]. specialize (IH ltac:(by intros ? [= <-])).
    destruct (filestore_lookup_last names prefix (Some f)) as [m|]; [|by destruct IH].
    destruct IH as (Hin & Hm & Hn & Hlast). specialize (Hlast f eq_refl).
    split_and!; [|done| |].
    + left. destruct Hin as [|[= ->]]; [by right|by left].
    + intros n [->|]%elem_of_cons; auto.
    + intros l El. eapply strcmp_trans; eauto.
  - specialize (IH Hl). destruct (filestore_lookup_last names prefix last) as [m|].
    + destruct IH as (Hin & Hm & Hn & Hlast). split_and!; [|done| |done].
      * destruct Hin; [left; by right|by right].
      * intros n [->|]%elem_of_cons Hp; [|auto]. destruct (Hb Hp) as (l & El & Hle).
        eapply strcmp_trans; eauto.
    + destruct IH as [-> Hn]. split; [done|]. intros n [->|]%elem_of_cons Hp; [|by eapply Hn].
      by destruct (Hb Hp) as (? & ? & _).
Qed.

(** The search for the last object, in whatever order the directory lists its
    names, finds the lexicographically largest name with the prefix, and nothing
    only if no name has the prefix. *)
Theorem lookup_last_is_maximum names prefix :
  match filestore_lookup_last names prefix None with
  | None => forall n, n ∈ names -> ~ has_prefix prefix n
  | Some m => m ∈ names /\ has_prefix prefix m /\
      forall n, n ∈ names -> has_prefix prefix n -> strcmp n m <> Gt
  end.
Proof.
  pose proof (lookup_last_spec names prefix None ltac:(done)) as H.
  destruct (filestore_lookup_last _ _ _); [|by destruct H].
  destruct H as ([?|[=]] & ? & ? & _). done.
Qed.

(** ** What is put is what is gotten *)

Definition holds_bytes (st : State) (q : ptr) (b : bytes) : Prop :=
  exists str, strs st !! q = Some str /\ str_bytes st str = Some b.

(** Strings that are still there have the bytes they had. *)
Definition same_bytes (st st' : State) : Prop :=
  forall q b, holds_bytes st q b -> is_Some (strs st' !! q) -> holds_bytes st' q b.

Lemma owned_string X st q : heap_ok X nox st -> 0 < X q -> is_Some (strs st !! q).
Proof.
  intros Hok Hq. destruct (ho_strs _ _ _ Hok q) as (str & ? & _); [|by eexists].
  pose proof (str_owners_nonneg st q). lia.
Qed.

Lemma wp_string_ref X st q (Q : unit -> State -> Prop) :
  heap_ok X nox st -> 0 < X q ->
  (forall st', heap_ok (xadd X (Some q)) nox st' -> same_bytes st st' -> Q tt st') ->
  wp (bluesky_string_ref (Some q)) st Q.
Proof.
  intros Hok Hq HQ. eapply wp_mono; [apply bluesky_string_ref_ok; [done|by eapply owned_string|]|].
  { pose proof (str_owners_nonneg st q). lia. }
  intros [] st' (Hok' & str & n & Hs & ->). apply HQ; [done|].
  intros r b (str' & Hr & Hb) _. destruct (decide (r = q)) as [->|Hne].
  - simplify_eq. eexists. split; [apply lookup_insert_eq|]. exact Hb.
  - exists str'. split; [simpl; by rewrite lookup_insert_ne|exact Hb].
Qed.

Lemma wp_string_unref X st o (Q : unit -> State -> Prop) :
  heap_ok (xadd X o) nox st -> xnn X ->
  (forall st', heap_ok X nox st' -> same_bytes st st' -> Q tt st') ->
  wp (bluesky_string_unref o) st Q.
Proof.
  intros Hok HX HQ. eapply wp_mono; [by apply bluesky_string_unref_ok|].
  intros [] st' (Hok' & Hsv & _). apply HQ; [done|].
  intros r b (str & Hr & Hb) [str' Hr']. destruct (sv_strs _ _ Hsv _ _ Hr') as (str0 & H0 & E & _).
  simplify_eq. exists str'. split; [done|]. rewrite E, (survive_str_bytes _ _ _ _ Hsv). done.
Qed.

Lemma wp_string_new X st b (Q : ptr -> State -> Prop) :
  heap_ok X nox st ->
  (forall q st', heap_ok (xadd X (Some q)) nox st' -> same_bytes st st' -> holds_bytes st' q b ->
     Q q st') ->
  wp (bluesky_string_new b) st Q.
Proof.
  intros Hok HQ. eapply wp_mono; [by apply bluesky_string_new_ok|].
  intros q st' (-> & -> & Hok'). apply HQ; [done| |].
  - intros r b' (str & Hr & Hb) _. exists str. split; [|exact Hb]. simpl.
    rewrite lookup_insert_ne; [done|]. intros <-.
    by rewrite (proj1 (ho_fresh _ _ _ Hok (next_ptr st) ltac:(lia))) in Hr.
  - eexists. split; [apply lookup_insert_eq|done].
Qed.

(** The references to strings held by requests and by the store in memory. *)
Definition async_strs (m : gmap ptr Async.t) (q : ptr) : Z :=
  msum (fun a => points q (Async.data a)) m.
Definition memory_strs (m : gmap bytes ptr) (q : ptr) : Z := msum (fun v => points q (Some v)) m.
Definition store_refs (xs : ptr -> Z) (s : StoreSys) : ptr -> Z :=
  fun q => xs q + async_strs (asyncs s) q + memory_strs (memory s) q.

Record store_ok (xs : ptr -> Z) (s : StoreSys) : Prop := {
  so_heap : heap_ok (store_refs xs s) nox (base s);
  so_fresh : forall p, Pos.le (next_async s) p -> asyncs s !! p = None;
}.

Lemma async_strs_nonneg m q : 0 <= async_strs m q.
Proof. apply msum_nonneg. auto with bluesky. Qed.
Lemma memory_strs_nonneg m q : 0 <= memory_strs m q.
Proof. apply msum_nonneg. auto with bluesky. Qed.

Lemma store_refs_le xs s q : xs q <= store_refs xs s q.
Proof.
  unfold store_refs. pose proof (async_strs_nonneg (asyncs s) q).
  pose proof (memory_strs_nonneg (memory s) q). lia.
Qed.

Lemma store_refs_nonneg xs s : xnn xs -> xnn (store_refs xs s).
Proof. intros Hx q. pose proof (Hx q). pose proof (store_refs_le xs s q). lia. Qed.

Lemma memory_strs_insert m k v q :
  memory_strs (<[k := v]> m) q = memory_strs m q - points q (m !! k) + points q (Some v).
Proof.
  unfold memory_strs. destruct (m !! k) as [o|] eqn:E.
  - by rewrite (msum_insert _ _ _ o).
  - rewrite msum_insert_fresh, points_None by done. lia.
Qed.

Lemma memory_strs_lookup m k q : points q (m !! k) <= memory_strs m q.
Proof.
  destruct (m !! k) as [v|] eqn:E; [|rewrite points_None; apply memory_strs_nonneg].
  apply (msum_elem (fun v => points q (Some v)) m k v); [auto with bluesky|done].
Qed.

(** The last reference to a request. *)
Lemma wp_async_unref_last X s p a (Q : unit -> StoreSys -> Prop) :
  asyncs s !! p = Some a -> Async.refcount a = 1 -> Async.store_private a = 0 ->
  heap_ok (xadd X (Async.data a)) nox (base s) -> xnn X ->
  (forall st, heap_ok X nox st -> same_bytes (base s) st ->
     Q tt (s <| base := st |> <| asyncs ::= delete p |>)) ->
  wp (bluesky_store_async_unref (Some p)) s Q.
Proof.
  intros Hp Hr Hv Hok HX HQ. unfold bluesky_store_async_unref. wp_step. eapply wp_aupd; [done|].
  wp_step. eapply wp_aload; [apply lookup_insert_eq|]. simpl. rewrite Hr. change (-1 + 1 =? 0) with true. cbn [when].
  wp_step. wp_step. wp_step.
  assert (Hc : forall s' (R : unit -> StoreSys -> Prop), R tt s' -> wp (impl_cleanup (store_impl s)
    (a <| Async.refcount ::= Z.add (-1) |>)) s' R).
  { intros s' R HR. unfold impl_cleanup, s3store_cleanup. destruct (store_impl s); try by wp_step.
    apply wp_check; [simpl; by rewrite Hv|done]. }
  apply Hc. wp_step. apply wp_lift. eapply wp_string_unref; [exact Hok|done|].
  intros st Hst Hsame. wp_step.
  replace (setf asyncs (delete p) _) with (s <| base := st |> <| asyncs ::= delete p |>); [by apply HQ|].
  unfold setf. simpl. by rewrite delete_insert_eq.
Qed.

Lemma wp_async_wait p a s (Q : unit -> StoreSys -> Prop) :
  asyncs s !! p = Some a -> Async.status a = ASYNC_COMPLETE -> Async.notifier_count a = 0 -> Q tt s ->
  wp (bluesky_store_async_wait (Some p)) s Q.
Proof.
  intros Hp Hs Hn HQ. unfold bluesky_store_async_wait. wp_step. eapply wp_aload; [done|].
  rewrite Hs, Hn. wp_step. apply wp_check; [done|]. by apply wp_check.
Qed.

(** A request as the two synchronous functions make it. *)
Definition request (op : BlueSkyStoreOp) (key : bytes) (data : option ptr) : Async.t :=
  Async.mk 1 ASYNC_NEW op (Some key) data 0 0 false (-1) [] 0 None 0.

Section synchronous.
Context `{FileSystem} `{Env}.

(** The state in which such a request is submitted. *)
Definition submitted (p : ptr) (a : Async.t) (st : State) (s : StoreSys) : StoreSys :=
  s <| base := st |> <| asyncs ::= <[p := a]> |> <| next_async := Pos.succ p |>.

Lemma store_put_run xs s key v b (Q : unit -> StoreSys -> Prop) :
  store_ok xs s -> xnn xs -> 0 < xs v -> holds_bytes (base s) v b ->
  (forall st, heap_ok (xadd (store_refs xs s) (Some v)) nox st -> holds_bytes st v b ->
     wp (bluesky_store_async_submit (Some (next_async s));;
         bluesky_store_async_wait (Some (next_async s));;
         bluesky_store_async_unref (Some (next_async s)))
       (submitted (next_async s) (request STORE_OP_PUT key (Some v)) st s) Q) ->
  wp (bluesky_store_put key (Some v)) s Q.
Proof.
  intros [Hh Hf] Hx Hv Hb HQ. unfold bluesky_store_put, bluesky_store_async_new. do 6 wp_step.
  wp_step. eapply wp_aupd; [apply lookup_insert_eq|]. wp_step. apply wp_lift.
  pose proof (store_refs_le xs s v) as Hpos.
  eapply wp_string_ref; [exact Hh|lia|]. intros st Hst Hsame. wp_step.
  eapply wp_aupd; [apply lookup_insert_eq|].
  assert (Hbv : holds_bytes st v b).
  { apply Hsame; [done|]. eapply owned_string; [done|]. unfold xadd. rewrite points_self. lia. }
  specialize (HQ st Hst Hbv). unfold submitted, setf in *. simpl in *. by rewrite !insert_insert_eq.
Qed.

Lemma store_get_run xs s key (Q : option ptr -> StoreSys -> Prop) :
  store_ok xs s ->
  wp (bluesky_store_async_submit (Some (next_async s));;
      bluesky_store_async_wait (Some (next_async s));;
      a ← aload (Some (next_async s));
      lift (bluesky_string_ref (Async.data a));;
      bluesky_store_async_unref (Some (next_async s));;
      mret (Async.data a))
    (submitted (next_async s) (request STORE_OP_GET key None) (base s) s) Q ->
  wp (bluesky_store_get key) s Q.
Proof.
  intros [Hh Hf] HQ. unfold bluesky_store_get, bluesky_store_async_new. do 6 wp_step.
  wp_step. eapply wp_aupd; [apply lookup_insert_eq|].
  unfold submitted, setf in *. simpl in *. by rewrite !insert_insert_eq.
Qed.

(** Submission to a store: the count of requests, then the implementation. *)
Lemma submit_run p a s (Q : unit -> StoreSys -> Prop) :
  asyncs s !! p = Some a -> Async.op a <> STORE_OP_BARRIER ->
  wp (impl_submit (store_impl s) (Some p)) (s <| pending ::= Z.add 1 |>) (fun _ s' =>
    wp (bluesky_store_async_wait (Some p)) s' (fun _ s'' => s'' = s') /\ Q tt s') ->
  wp (bluesky_store_async_submit (Some p)) s Q.
Proof.
  intros Hp Hop Hw. unfold bluesky_store_async_submit. wp_step. eapply wp_aload; [done|].
  rewrite (bool_decide_eq_false_2 _ Hop). do 4 wp_step. wp_step. eapply wp_mono; [exact Hw|].
  intros [] s' [Hwait HQ]. destruct (Options.synchronous_stores _); cbn [when]; [|by wp_step].
  eapply wp_mono; [exact Hwait|]. by intros [] ? ->.
Qed.

(** Completion of a plain request, after which a wait returns. *)
Lemma complete_and_wait p a s (Q : StoreSys -> Prop) :
  asyncs s !! p = Some a -> Async.status a <> ASYNC_COMPLETE -> Async.barrier a = None ->
  Async.notifiers a = [] -> Async.notifier_count a = 0 ->
  (forall q, Async.data a = Some q -> is_Some (strs (base s) !! q)) -> selects a = false ->
  (forall n g u, Q (s <| pending := n |> <| asyncs ::= <[p := completed a]> |>
                         <| stats_get := g |> <| stats_put := u |>)) ->
  wp (bluesky_store_async_mark_complete (Some p)) s (fun _ s' =>
    wp (bluesky_store_async_wait (Some p)) s' (fun _ s'' => s'' = s') /\ Q s').
Proof.
  intros Hp Hs Hb Hn Hc Hd Hsel HQ. eapply mark_complete_run; try done. intros g u. split.
  - eapply wp_async_wait; [apply lookup_insert_eq|done|done|done].
  - rewrite Hn. specialize (HQ (leave_store a (pending s)) g u).
    unfold setf in *. simpl in *. by rewrite app_nil_r.
Qed.

Lemma memory_put_ok xs s key v b :
  store_ok xs s -> xnn xs -> store_impl s = memstore_impl -> 0 < xs v -> holds_bytes (base s) v b ->
  wp (bluesky_store_put key (Some v)) s (fun _ s' =>
    store_ok xs s' /\ asyncs s' = asyncs s /\ memory s' = <[key := v]> (memory s) /\
    store_impl s' = memstore_impl /\ holds_bytes (base s') v b).
Proof.
  intros Hok Hx Hi Hv Hb. apply (store_put_run xs s key v b); [done..|]. intros st Hst Hbv.
  set (p := next_async s). wp_step. eapply submit_run; [apply lookup_insert_eq|done|].
  simpl store_impl. rewrite Hi. cbn [impl_submit]. unfold memstore_submit. wp_step.
  eapply wp_aload; [apply lookup_insert_eq|]. simpl. do 3 wp_step.
  unfold memstore_put. wp_step. apply wp_lift.
  pose proof (store_refs_le xs s v) as Hpos.
  eapply wp_string_ref; [exact Hst|unfold xadd; rewrite points_self; lia|]. intros st1 Hst1 Hsame1.
  wp_step. wp_step; [done|]. do 4 wp_step. apply wp_lift. simpl.
  set (Y := fun q => store_refs xs s q - points q (memory s !! key) + points q (Some v)).
  assert (HY : xnn Y).
  { intros q. unfold Y, store_refs. pose proof (Hx q). pose proof (async_strs_nonneg (asyncs s) q).
    pose proof (memory_strs_lookup (memory s) key q). pose proof (points_nonneg q (Some v)). lia. }
  eapply (wp_string_unref (xadd Y (Some v))); [|auto with bluesky|].
  { eapply heap_ok_xeq; [|exact Hst1]. intros q. unfold xadd, Y. lia. }
  intros st2 Hst2 Hsame2.
  assert (Hv2 : holds_bytes st2 v b).
  { apply Hsame2; [apply Hsame1; [done|]|]; eapply owned_string; try done; unfold xadd;
      rewrite points_self; [lia|]. specialize (HY v). lia. }
  eapply complete_and_wait; [apply lookup_insert_eq|done..| |done|].
  { intros q [= <-]. destruct Hv2 as (str & Hq & _). by exists str. }
  intros n g u. simpl. wp_step. eapply wp_async_wait; [apply lookup_insert_eq|done|done|].
  eapply (wp_async_unref_last Y); [apply lookup_insert_eq|done|done|exact Hst2|exact HY|].
  intros st3 Hst3 Hsame3. simpl.
  assert (Hdel : delete p (<[p := completed (request STORE_OP_PUT key (Some v))]> (<[p := request STORE_OP_PUT key (Some v)]> (asyncs s))) = asyncs s).
  { rewrite insert_insert_eq, delete_insert_eq, delete_id; [done|]. apply (so_fresh _ _ Hok). lia. }
  split_and!; [split|exact Hdel|done|done|].
  - eapply heap_ok_xeq; [|exact Hst3]. intros q. unfold store_refs, Y. simpl.
    rewrite Hdel, memory_strs_insert. unfold store_refs. lia.
  - intros r Hr. simpl in *. rewrite Hdel. apply (so_fresh _ _ Hok). unfold p in Hr. lia.
  - apply Hsame3; [exact Hv2|]. eapply owned_string; [exact Hst3|].
    unfold Y, store_refs. rewrite points_self. pose proof (memory_strs_lookup (memory s) key v).
    pose proof (async_strs_nonneg (asyncs s) v). lia.
Qed.

(** The end of a synchronous read. *)
Lemma get_tail X s p a q b (R : option ptr -> StoreSys -> Prop) :
  asyncs s !! p = Some a -> Async.refcount a = 1 -> Async.status a = ASYNC_COMPLETE ->
  Async.notifier_count a = 0 -> Async.store_private a = 0 -> Async.data a = Some q ->
  heap_ok (xadd X (Some q)) nox (base s) -> xnn X -> holds_bytes (base s) q b ->
  (forall st, heap_ok (xadd X (Some q)) nox st -> holds_bytes st q b ->
     R (Some q) (s <| base := st |> <| asyncs ::= delete p |>)) ->
  wp (bluesky_store_async_wait (Some p);;
      a ← aload (Some p);
      lift (bluesky_string_ref (Async.data a));;
      bluesky_store_async_unref (Some p);;
      mret (Async.data a)) s R.
Proof.
  intros Hp Hrc Hs Hc Hv Hd Hok HX Hq HR. wp_step. eapply wp_async_wait; [done..|].
  wp_step. eapply wp_aload; [done|]. rewrite Hd. wp_step. apply wp_lift.
  assert (Hpos : 0 < xadd X (Some q) q) by (unfold xadd; rewrite points_self; specialize (HX q); lia).
  eapply wp_string_ref; [exact Hok|done|]. intros st Hst Hsame. wp_step.
  assert (Hq' : holds_bytes st q b).
  { apply Hsame; [done|]. eapply owned_string; [done|]. unfold xadd in *. rewrite points_self in *. lia. }
  eapply (wp_async_unref_last (xadd X (Some q))); [exact Hp|done|done| |auto with bluesky|].
  { rewrite Hd. exact Hst. }
  intros st' Hst' Hsame'. wp_step. apply (HR st' Hst'). apply Hsame'; [done|]. by eapply owned_string.
Qed.

(** Completion and the end of a synchronous read. *)
Lemma get_finish X s p a q b (R : option ptr -> StoreSys -> Prop) :
  asyncs s !! p = Some a -> Async.refcount a = 1 -> Async.status a <> ASYNC_COMPLETE ->
  Async.barrier a = None -> Async.notifiers a = [] -> Async.notifier_count a = 0 ->
  Async.store_private a = 0 -> selects a = false -> Async.data a = Some q ->
  heap_ok (xadd X (Some q)) nox (base s) -> xnn X -> holds_bytes (base s) q b ->
  (forall s', asyncs s' = delete p (asyncs s) -> memory s' = memory s -> next_async s' = next_async s ->
     heap_ok (xadd X (Some q)) nox (base s') -> holds_bytes (base s') q b -> R (Some q) s') ->
  wp (bluesky_store_async_mark_complete (Some p)) s (fun _ s' =>
    wp (bluesky_store_async_wait (Some p)) s' (fun _ s'' => s'' = s') /\
    wp (bluesky_store_async_wait (Some p);;
        a ← aload (Some p);
        lift (bluesky_string_ref (Async.data a));;
        bluesky_store_async_unref (Some p);;
        mret (Async.data a)) s' R).
Proof.
  intros Hp Hrc Hs Hb Hn Hc Hv Hsel Hd Hok HX Hq HR.
  assert (Hlive : forall q', Async.data a = Some q' -> is_Some (strs (base s) !! q')).
  { rewrite Hd. intros ? [= <-]. destruct Hq as (str & Hstr & _). by exists str. }
  apply (complete_and_wait p a s _ Hp Hs Hb Hn Hc Hlive Hsel). intros n g u.
  set (s' := s <| pending := n |> <| asyncs ::= <[p := completed a]> |> <| stats_get := g |> <| stats_put := u |>).
  assert (Ea : asyncs s' = <[p := completed a]> (asyncs s)) by done.
  assert (Eb : base s' = base s) by done. assert (Em : memory s' = memory s) by done.
  assert (En : next_async s' = next_async s) by done. clearbody s'.
  apply (get_tail X s' p (completed a) q b); try done; try (by rewrite Eb).
  { by rewrite Ea, lookup_insert_eq. }
  intros st Hst Hq'. apply HR; simpl; [|done..]. by rewrite Ea, delete_insert_eq.
Qed.

Lemma memory_get_ok xs s key v b :
  store_ok xs s -> xnn xs -> store_impl s = memstore_impl -> memory s !! key = Some v ->
  holds_bytes (base s) v b ->
  wp (bluesky_store_get key) s (fun r s' => exists q, r = Some q /\ holds_bytes (base s') q b /\
    store_ok (xadd xs (Some q)) s' /\ asyncs s' = asyncs s).
Proof.
  intros Hok Hx Hi Hk Hb. apply (store_get_run xs); [done|]. set (p := next_async s).
  assert (Hfresh : asyncs s !! p = None) by (apply (so_fresh _ _ Hok); lia).
  pose proof (store_refs_nonneg xs s Hx) as HX.
  wp_step. eapply submit_run; [apply lookup_insert_eq|done|].
  simpl store_impl. rewrite Hi. cbn [impl_submit]. unfold memstore_submit. wp_step.
  eapply wp_aload; [apply lookup_insert_eq|]. simpl. do 3 wp_step.
  unfold memstore_get. do 2 wp_step. simpl. rewrite Hk. wp_step. apply wp_lift.
  eapply wp_string_ref; [exact (so_heap _ _ Hok)| |].
  { unfold store_refs. pose proof (Hx v). pose proof (async_strs_nonneg (asyncs s) v).
    pose proof (memory_strs_lookup (memory s) key v) as Hl. rewrite Hk, points_self in Hl. lia. }
  intros st Hst Hsame. do 2 wp_step. eapply wp_aupd; [apply lookup_insert_eq|].
  eapply (get_finish (store_refs xs s)); [apply lookup_insert_eq|done..|exact Hst|exact HX| |].
  { simpl. apply Hsame; [done|]. eapply owned_string; [exact Hst|].
    unfold xadd. rewrite points_self. specialize (HX v). lia. }
  intros s' Ea Em En Hst' Hv'. simpl in *. rewrite insert_insert_eq, delete_insert_eq, delete_id in Ea by done.
  exists v. split_and!; [done|done| |done]. split; [|intros r Hr; rewrite Ea].
  - eapply heap_ok_xeq; [|exact Hst']. intros q. unfold store_refs, xadd. rewrite Ea, Em. lia.
  - apply (so_fresh _ _ Hok). unfold p in En. rewrite En in Hr. lia.
Qed.

Lemma file_put_ok xs s key v b :
  store_ok xs s -> xnn xs -> store_impl s = filestore_impl -> g_file_set_contents_ok key b = true ->
  0 < xs v -> holds_bytes (base s) v b ->
  wp (bluesky_store_put key (Some v)) s (fun _ s' =>
    store_ok xs s' /\ asyncs s' = asyncs s /\ files s' = <[key := b]> (files s) /\
    store_impl s' = filestore_impl).
Proof.
  intros Hok Hx Hi Hg Hv Hb. apply (store_put_run xs s key v b); [done..|]. intros st Hst Hbv.
  set (p := next_async s). assert (Hfresh : asyncs s !! p = None) by (apply (so_fresh _ _ Hok); lia).
  pose proof (store_refs_nonneg xs s Hx) as HX.
  wp_step. eapply submit_run; [apply lookup_insert_eq|done|].
  simpl store_impl. rewrite Hi. cbn [impl_submit]. unfold filestore_submit. wp_step.
  eapply wp_aload; [apply lookup_insert_eq|]. simpl. do 3 wp_step.
  unfold filestore_put. destruct Hbv as (str & Hstr & Hbytes).
  wp_step. apply wp_lift. eapply wp_load; [exact Hstr|]. wp_step. apply wp_lift. unfold g_memdup.
  do 2 wp_step. wp_step; [exact Hbytes|]. rewrite Hg. cbn [when]. do 2 wp_step.
  eapply wp_aupd; [apply lookup_insert_eq|].
  eapply complete_and_wait; [apply lookup_insert_eq|done..| |done|].
  { intros q [= <-]. by exists str. }
  intros n g u. wp_step. eapply wp_async_wait; [apply lookup_insert_eq|done|done|].
  eapply (wp_async_unref_last (store_refs xs s)); [apply lookup_insert_eq|done|done|exact Hst|exact HX|].
  intros st3 Hst3 Hsame3. simpl. rewrite !insert_insert_eq, delete_insert_eq, delete_id by done.
  split_and!; [split|done..]; simpl; rewrite ?insert_insert_eq, ?delete_insert_eq, ?delete_id by done.
  - eapply heap_ok_xeq; [|exact Hst3]. intros q. unfold store_refs. simpl.
    by rewrite !insert_insert_eq, delete_insert_eq, delete_id.
  - intros r Hr. apply (so_fresh _ _ Hok). unfold p in Hr. lia.
Qed.

Lemma file_get_ok xs s key b :
  store_ok xs s -> xnn xs -> store_impl s = filestore_impl -> files s !! key = Some b ->
  wp (bluesky_store_get key) s (fun r s' => exists q, r = Some q /\ holds_bytes (base s') q b /\
    store_ok (xadd xs (Some q)) s' /\ asyncs s' = asyncs s).
Proof.
  intros Hok Hx Hi Hk. apply (store_get_run xs); [done|]. set (p := next_async s).
  assert (Hfresh : asyncs s !! p = None) by (apply (so_fresh _ _ Hok); lia).
  pose proof (store_refs_nonneg xs s Hx) as HX.
  wp_step. eapply submit_run; [apply lookup_insert_eq|done|].
  simpl store_impl. rewrite Hi. cbn [impl_submit]. unfold filestore_submit. wp_step.
  eapply wp_aload; [apply lookup_insert_eq|]. simpl. do 3 wp_step.
  unfold filestore_get. do 2 wp_step. simpl. rewrite Hk. wp_step. apply wp_lift.
  eapply wp_string_new; [exact (so_heap _ _ Hok)|].
  intros q st Hst Hsame Hq. do 2 wp_step. eapply wp_aupd; [apply lookup_insert_eq|].
  eapply (get_finish (store_refs xs s)); [apply lookup_insert_eq|done..|exact Hst|exact HX|exact Hq|].
  intros s' Ea Em En Hst' Hv'. simpl in *. rewrite insert_insert_eq, delete_insert_eq, delete_id in Ea by done.
  exists q. split_and!; [done|done| |done]. split; [|intros r Hr; rewrite Ea].
  - eapply heap_ok_xeq; [|exact Hst']. intros r. unfold store_refs, xadd. rewrite Ea, Em. lia.
  - apply (so_fresh _ _ Hok). unfold p in En. rewrite En in Hr. lia.
Qed.
(** C37: with the store in memory, or on disk when the file can be written, what
    [bluesky_store_put] stores under a key is what [bluesky_store_get] of that key
    returns; both return without waiting for another thread, no request is left
    behind, and the references to strings remain right. *)
Theorem store_put_get xs s key v b :
  store_ok xs s -> xnn xs -> 0 < xs v -> holds_bytes (base s) v b ->
  store_impl s = memstore_impl \/
  store_impl s = filestore_impl /\ g_file_set_contents_ok key b = true ->
  wp (bluesky_store_put key (Some v);; bluesky_store_get key) s (fun r s' => exists q,
    r = Some q /\ holds_bytes (base s') q b /\
    store_ok (xadd xs (Some q)) s' /\ asyncs s' = asyncs s).
Proof.
  intros Hok Hx Hv Hb [Hi|[Hi Hg]]; wp_step.
  - eapply wp_mono; [by apply (memory_put_ok xs s key v b)|].
    intros [] s1 (Hok1 & Ea & Em & Hi1 & Hb1). rewrite <- Ea.
    apply (memory_get_ok xs s1 key v b); [done..| |done]. by rewrite Em, lookup_insert_eq.
  - eapply wp_mono; [by apply (file_put_ok xs s key v b)|].
    intros [] s1 (Hok1 & Ea & Ef & Hi1). rewrite <- Ea.
    apply (file_get_ok xs s1 key b); [done..|]. by rewrite Ef, lookup_insert_eq.
Qed.
End synchronous.

(** *** Witnesses *)

Definition one_string (i : BlueSkyStoreImplementation) : StoreSys :=
  mkStoreSys (alloc_str (RCStr.mk 1 None (RCStr.Owned [5; 6]) 2) empty_state)
    ∅ 1 ∅ i 0 (Stats.mk 0 0) (Stats.mk 0 0) [] [] ∅ ∅ [].

Lemma one_string_ok i : store_ok (xadd nox (Some 1%positive)) (one_string i).
Proof.
  split; [|done]. eapply heap_ok_xeq; [|exact (heap_ok_alloc_str nox nox _ [5; 6] empty_heap_ok)].
  intros q. unfold store_refs, async_strs, memory_strs. simpl. rewrite !msum_empty. lia.
Qed.

#[local] Instance writable : FileSystem := {| g_file_set_contents_ok _ _ := true |}.

Lemma store_put_get_witness :
  wp (bluesky_store_put [107] (Some 1%positive);; bluesky_store_get [107]) (one_string filestore_impl)
    (fun r s' => exists q, r = Some q /\ holds_bytes (base s') q [5; 6]).
Proof.
  refine (wp_mono _ _ _ _ (store_put_get (xadd nox (Some 1%positive)) (one_string filestore_impl)
    [107] 1%positive [5; 6] (one_string_ok _) _ _ _ _) _).
  - auto with bluesky.
  - vm_compute. reflexivity.
  - eexists. split; vm_compute; reflexivity.
  - right. split; reflexivity.
  - intros r s' (q & Hr & Hq & _). by exists q.
Defined.

Definition partial_read : StoreSys :=
  (one_string filestore_impl) <| asyncs := {[ 1%positive :=
    Async.mk 1 ASYNC_RUNNING STORE_OP_GET (Some [107]) (Some 1%positive) 1 0 false 0 [] 0 None 0 ]} |>.

Lemma range_request_exact_witness :
  wp (bluesky_store_async_mark_complete (Some 1%positive)) partial_read (fun _ s' => exists a' d',
    asyncs s' !! 1%positive = Some a' /\ Async.data a' = Some d' /\ holds_bytes (base s') d' [6]).
Proof.
  refine (wp_mono _ _ _ _ (range_request_exact nox partial_read 1%positive
    (Async.mk 1 ASYNC_RUNNING STORE_OP_GET (Some [107]) (Some 1%positive) 1 0 false 0 [] 0 None 0)
    1%positive (RCStr.mk 1 None (RCStr.Owned [5; 6]) 2) [5; 6]
    (heap_ok_alloc_str nox nox _ [5; 6] empty_heap_ok) _ _ _ eq_refl eq_refl eq_refl eq_refl eq_refl
    _ eq_refl _ _ _ _) _); try (by vm_compute).
  intros [] s' (a' & d' & str' & Ha & _ & _ & Hd & Hs & Hr). exists a', d'. split_and!; [done|done|].
  destruct Hr as [_ Hr]. by exists str'.
Defined.

(** A file that cannot be written is reported as written. *)
Definition failed_put : outcome StoreSys (Z * gmap bytes bytes) :=
  let fs := {| g_file_set_contents_ok _ _ := false |} : FileSystem in
  (async ← bluesky_store_async_new;
   aupd (Some async) (fun a => a <| Async.op := STORE_OP_PUT |> <| Async.key := Some [107] |>
                                 <| Async.data := Some 1%positive |>);;
   bluesky_store_async_submit (Some async);;
   a ← aload (Some async);
   f ← gets files;
   mret (Async.result a, f)) (one_string filestore_impl).
Example failed_put_reported_done :
  match failed_put with Ok (result, files) _ => result = 0 /\ files = ∅ | Stop _ => False end.
Proof. by vm_compute. Qed.
