(* ===== verification/StoreThreads.v ===== *)
(** * Requests shared by threads (src/bluesky/store.c, src/bluesky/store-s3.c)

    A request to the asynchronous back end is used at the same time by clients, by
    the threads of the back end and by the threads that run notifiers.  Every step
    below is one call into the storage layer; the calls of different threads may
    come in any order.  In every state that can be reached, each step a thread may
    take is free of faults, each notifier is called exactly once and only after the
    request is complete, and the threads of the storage layer run out of work
    after a bounded number of steps, when every wait returns. *)

From S2P Require Import Prelude State Strings Ownership Store StoreProtocol.
From Stdlib Require Import ZArith Lia.
From stdpp Require Import base numbers gmap option list.

Open Scope Z_scope.

#[local] Arguments bluesky_store_async_wait : simpl never.
#[local] Arguments bluesky_store_async_ref : simpl never.
#[local] Arguments bluesky_store_async_unref : simpl never.
#[local] Arguments bluesky_store_async_mark_complete : simpl never.

(** The storage layer, the references to requests that clients hold, and the
    notifiers they have added. *)
Record Config := mkConfig {
  sys : StoreSys;
  held : list ptr;
  registered : list (nat * ptr);
}.
#[export] Instance Config_eta : Eta Config := fun x => mkConfig (sys x) (held x) (registered x).

Definition on_sys {A} (m : M StoreSys A) : M Config A := fun c =>
  match m (sys c) with
  | Ok a s => Ok a (c <| sys := s |>)
  | Stop e => Stop e
  end.

(** What a thread does next; numbers are positions in [held], [tasks], [pool]. *)
Inductive action :=
  | New                                        (* a client makes a request, *)
  | Ref (i : nat)                              (* takes another reference, *)
  | Unref (i : nat)                            (* drops one, *)
  | Get (i : nat) (key : bytes) (start len : Z)   (* fills in a request to read *)
  | Put (i : nat) (key data : bytes)           (* or to write, *)
  | Notify (i : nat) (k : nat)                 (* adds a notifier, *)
  | Submit (i : nat)                           (* submits it; *)
  | Task (i : nat) (answer : option bytes)     (* a back end thread serves one; *)
  | Run (i : nat).                             (* a notifier is run *)

Section steps.
Context `{FileSystem} `{Env}.

Definition nth_held (i : nat) : M Config ptr := o ← gets (fun c => held c !! i); assume OutOfBounds o.

Definition perform (act : action) : M Config unit :=
  match act with
  | New => p ← on_sys bluesky_store_async_new; modify (fun c => c <| held ::= cons p |>)
  | Ref i =>
    p ← nth_held i; on_sys (bluesky_store_async_ref (Some p));; modify (fun c => c <| held ::= cons p |>)
  | Unref i =>
    p ← nth_held i; modify (fun c => c <| held ::= delete i |>);;
    on_sys (bluesky_store_async_unref (Some p))
  | Get i key start len =>
    p ← nth_held i; on_sys (aupd (Some p) (fun a => a <| Async.op := STORE_OP_GET |>
      <| Async.key := Some key |> <| Async.start := start |> <| Async.len := len |>))
  | Put i key data =>
    p ← nth_held i;
    on_sys (q ← lift (bluesky_string_new data);
            aupd (Some p) (fun a => a <| Async.op := STORE_OP_PUT |> <| Async.key := Some key |>
                                      <| Async.data := Some q |>))
  | Notify i k =>
    p ← nth_held i; on_sys (bluesky_store_async_add_notifier (Some p) (Client k));;
    modify (fun c => c <| registered ::= cons (k, p) |>)
  | Submit i => p ← nth_held i; on_sys (bluesky_store_async_submit (Some p))
  | Task i answer =>
    p ← (o ← gets (fun c => tasks (sys c) !! i); assume OutOfBounds o);
    on_sys (modify (fun s => s <| tasks ::= delete i |>);; s3store_task (Some p) answer)
  | Run i =>
    n ← (o ← gets (fun c => pool (sys c) !! i); assume OutOfBounds o);
    on_sys (modify (fun s => s <| pool ::= delete i |>);; notifier_task n)
  end.

(** What clients may do: use references they hold, fill in a request once before
    it is submitted, and submit it once. *)
Definition fillable (c : Config) (i : nat) : Prop :=
  exists p a, held c !! i = Some p /\ asyncs (sys c) !! p = Some a /\
    Async.status a = ASYNC_NEW /\ Async.op a = STORE_OP_NONE.
Definition submittable (c : Config) (i : nat) : Prop :=
  exists p a, held c !! i = Some p /\ asyncs (sys c) !! p = Some a /\
    Async.status a = ASYNC_NEW /\ Async.op a <> STORE_OP_NONE.
Definition enabled (c : Config) (act : action) : Prop :=
  match act with
  | New => True
  | Ref i | Unref i | Notify i _ => is_Some (held c !! i)
  | Get i _ _ _ | Put i _ _ => fillable c i
  | Submit i => submittable c i
  | Task i _ => is_Some (tasks (sys c) !! i)
  | Run i => is_Some (pool (sys c) !! i)
  end.

(** The asynchronous store, before any request. *)
Definition initial : Config :=
  mkConfig (mkStoreSys empty_state ∅ 1 ∅ s3store_impl 0 (Stats.mk 0 0) (Stats.mk 0 0) [] [] ∅ ∅ []) [] [].

Inductive reachable : Config -> Prop :=
  | reach_initial : reachable initial
  | reach_step c act c' :
      reachable c -> enabled c act -> perform act c = Ok tt c' -> reachable c'.
End steps.

(** ** The invariant *)

(** References to a request among pointers and notifiers. *)
Definition ptrs_to (p : ptr) (l : list ptr) : Z := lsum (fun q => points p (Some q)) l.
Definition notes_to (p : ptr) (l : list Notifier.t) : Z :=
  lsum (fun n => points p (Some (Notifier.async n))) l.

(** How often a notifier occurs. *)
Definition occurs (x : nat * ptr) (l : list (nat * ptr)) : Z :=
  lsum (fun y => if decide (y = x) then 1 else 0) l.
Definition note (n : Notifier.t) : list (nat * ptr) :=
  match Notifier.func n with Client k => [(k, Notifier.async n)] | OpComplete _ => [] end.
Definition notes (l : list Notifier.t) : list (nat * ptr) := l ≫= note.
Definition listed (s : StoreSys) (p : ptr) : list (nat * ptr) :=
  match asyncs s !! p with Some a => notes (Async.notifiers a) | None => [] end.

Definition by_client (n : Notifier.t) : Prop := exists k, Notifier.func n = Client k.

#[local] Arguments ptrs_to : simpl never.
#[local] Arguments notes_to : simpl never.
#[local] Arguments occurs : simpl never.
#[local] Arguments notes : simpl never.

(** One request: [t] and [w] count the back end tasks and the notifiers waiting
    to run for it. *)
Record async_ok (t w : Z) (p : ptr) (a : Async.t) : Prop := {
  ao_self : forall n, n ∈ Async.notifiers a -> Notifier.async n = p /\ by_client n;
  ao_count : Async.notifier_count a = zlen (Async.notifiers a) + w;
  ao_barrier : Async.barrier a = None;
  ao_private : Async.store_private a = 0;
  ao_op : Async.op a <> STORE_OP_BARRIER /\ Async.op a <> STORE_OP_DELETE;
  ao_data : Async.status a <> ASYNC_COMPLETE ->
    if decide (Async.op a = STORE_OP_PUT) then is_Some (Async.data a) else Async.data a = None;
  ao_status :
    match Async.status a with
    | ASYNC_NEW => t = 0 /\ w = 0
    | ASYNC_PENDING => t = 1 /\ w = 0 /\ Async.op a <> STORE_OP_NONE
    | ASYNC_RUNNING => False
    | ASYNC_COMPLETE => t = 0 /\ Async.notifiers a = []
    end;
  ao_key : Async.op a = STORE_OP_NONE \/ is_Some (Async.key a);
}.

(** The back ends that serve requests in threads of their own. *)
Definition threaded (i : BlueSkyStoreImplementation) : Prop := i = s3store_impl \/ i = simplestore_impl.

Record cfg_ok (c : Config) : Prop := {
  co_impl : threaded (store_impl (sys c));
  co_memory : memory (sys c) = ∅;
  co_refs : forall p a, asyncs (sys c) !! p = Some a ->
    Async.refcount a = ptrs_to p (held c) + ptrs_to p (tasks (sys c))
      + zlen (Async.notifiers a) + notes_to p (pool (sys c)) /\ 0 < Async.refcount a;
  co_dom : forall p, 0 < ptrs_to p (held c) + ptrs_to p (tasks (sys c)) + notes_to p (pool (sys c)) ->
    is_Some (asyncs (sys c) !! p);
  co_async : forall p a, asyncs (sys c) !! p = Some a ->
    async_ok (ptrs_to p (tasks (sys c))) (notes_to p (pool (sys c))) p a;
  co_pool : forall n, n ∈ pool (sys c) -> by_client n;
  co_pending : pending (sys c) = zlen (tasks (sys c));
  co_store : store_ok nox (sys c);
  co_called : forall k p, occurs (k, p) (registered c) = occurs (k, p) (called (sys c))
    + occurs (k, p) (notes (pool (sys c))) + occurs (k, p) (listed (sys c) p);
  co_done : forall k p a, (k, p) ∈ called (sys c) -> asyncs (sys c) !! p = Some a ->
    Async.status a = ASYNC_COMPLETE;
  co_called_old : forall k p, (k, p) ∈ registered c -> Pos.lt p (next_async (sys c));
}.

Lemma ptrs_to_nonneg p l : 0 <= ptrs_to p l.
Proof. apply lsum_nonneg. auto with bluesky. Qed.
Lemma notes_to_nonneg p l : 0 <= notes_to p l.
Proof. apply lsum_nonneg. auto with bluesky. Qed.
Lemma occurs_nonneg x l : 0 <= occurs x l.
Proof. apply lsum_nonneg. intros y. destruct (decide _); lia. Qed.

Lemma ptrs_to_cons p q l : ptrs_to p (q :: l) = points p (Some q) + ptrs_to p l.
Proof. done. Qed.
Lemma ptrs_to_app p l l' : ptrs_to p (l ++ l') = ptrs_to p l + ptrs_to p l'.
Proof. apply lsum_app. Qed.
Lemma notes_to_app p l l' : notes_to p (l ++ l') = notes_to p l + notes_to p l'.
Proof. apply lsum_app. Qed.
Lemma occurs_app x l l' : occurs x (l ++ l') = occurs x l + occurs x l'.
Proof. apply lsum_app. Qed.
Lemma notes_app l l' : notes (l ++ l') = notes l ++ notes l'.
Proof. apply bind_app. Qed.

Lemma lsum_take_out {A} (f : A -> Z) l i x : l !! i = Some x -> lsum f l = f x + lsum f (delete i l).
Proof. intros Hi. apply delete_Permutation in Hi. by rewrite (lsum_Permutation f _ _ Hi). Qed.

Lemma ptrs_to_take_out p l i q : l !! i = Some q -> ptrs_to p l = points p (Some q) + ptrs_to p (delete i l).
Proof. apply (lsum_take_out (fun q => points p (Some q))). Qed.
Lemma notes_to_take_out p l i n :
  l !! i = Some n -> notes_to p l = points p (Some (Notifier.async n)) + notes_to p (delete i l).
Proof. apply (lsum_take_out (fun n => points p (Some (Notifier.async n)))). Qed.
Lemma occurs_take_out x l i n :
  l !! i = Some n -> occurs x (notes l) = occurs x (note n) + occurs x (notes (delete i l)).
Proof.
  intros Hi. apply delete_Permutation in Hi. unfold occurs.
  rewrite (lsum_Permutation _ _ (notes (n :: delete i l))); [apply (occurs_app x (note n))|].
  by apply (bind_Permutation note).
Qed.

Lemma ptrs_to_elem p l : p ∈ l -> 0 < ptrs_to p l.
Proof.
  intros (i & Hi)%list_elem_of_lookup. rewrite (ptrs_to_take_out _ _ _ _ Hi), points_self.
  pose proof (ptrs_to_nonneg p (delete i l)). lia.
Qed.
Lemma notes_to_elem n l : n ∈ l -> 0 < notes_to (Notifier.async n) l.
Proof.
  intros (i & Hi)%list_elem_of_lookup. rewrite (notes_to_take_out _ _ _ _ Hi), points_self.
  pose proof (notes_to_nonneg (Notifier.async n) (delete i l)). lia.
Qed.

(** Notifiers of one request. *)
Lemma notes_to_own p l :
  (forall n, n ∈ l -> Notifier.async n = p) -> notes_to p l = zlen l.
Proof.
  intros Hl. unfold notes_to. induction l as [|n l IH]; [done|]. cbn [lsum foldr].
  change (foldr _ 0 l) with (lsum (fun n => points p (Some (Notifier.async n))) l).
  rewrite IH by (intros m Hm; apply Hl; by right). rewrite (Hl n), points_self by (by left). simpl. lia.
Qed.
Lemma notes_to_other p q l :
  (forall n, n ∈ l -> Notifier.async n = p) -> q <> p -> notes_to q l = 0.
Proof.
  intros Hl Hne. unfold notes_to. induction l as [|n l IH]; [done|]. cbn [lsum foldr].
  change (foldr _ 0 l) with (lsum (fun n => points q (Some (Notifier.async n))) l).
  rewrite IH by (intros m Hm; apply Hl; by right). rewrite (Hl n) by (by left). by rewrite points_ne.
Qed.
Lemma occurs_other k p q l :
  (forall n, n ∈ l -> Notifier.async n = p) -> q <> p -> occurs (k, q) (notes l) = 0.
Proof.
  intros Hl Hne. unfold notes. induction l as [|n l IH]; [done|]. rewrite bind_cons, occurs_app, IH.
  - unfold note. destruct (Notifier.func n) as [|k']; [done|]. unfold occurs. simpl.
    rewrite decide_False; [done|]. intros [= _ E]. rewrite (Hl n) in E by (by left). congruence.
  - intros; apply Hl; by right.
Qed.

(** A step that changes one request, the others having the references they had. *)
Lemma cfg_ok_change c c' p a a' :
  cfg_ok c -> asyncs (sys c) !! p = Some a -> asyncs (sys c') = <[p := a']> (asyncs (sys c)) ->
  store_impl (sys c') = store_impl (sys c) -> memory (sys c') = memory (sys c) ->
  next_async (sys c') = next_async (sys c) ->
  (forall q, q <> p -> ptrs_to q (held c') = ptrs_to q (held c) /\
     ptrs_to q (tasks (sys c')) = ptrs_to q (tasks (sys c)) /\
     notes_to q (pool (sys c')) = notes_to q (pool (sys c))) ->
  Async.refcount a' = ptrs_to p (held c') + ptrs_to p (tasks (sys c'))
    + zlen (Async.notifiers a') + notes_to p (pool (sys c')) -> 0 < Async.refcount a' ->
  async_ok (ptrs_to p (tasks (sys c'))) (notes_to p (pool (sys c'))) p a' ->
  (forall n, n ∈ pool (sys c') -> by_client n) ->
  pending (sys c') = zlen (tasks (sys c')) -> heap_ok (store_refs nox (sys c')) nox (base (sys c')) ->
  (forall k q, q <> p -> occurs (k, q) (registered c') - occurs (k, q) (called (sys c'))
     - occurs (k, q) (notes (pool (sys c'))) =
     occurs (k, q) (registered c) - occurs (k, q) (called (sys c)) - occurs (k, q) (notes (pool (sys c)))) ->
  (forall k, occurs (k, p) (registered c') = occurs (k, p) (called (sys c'))
     + occurs (k, p) (notes (pool (sys c'))) + occurs (k, p) (notes (Async.notifiers a'))) ->
  (forall k q, (k, q) ∈ called (sys c') -> (k, q) ∈ called (sys c) /\ q <> p \/
     q = p /\ Async.status a' = ASYNC_COMPLETE) ->
  (forall k q, (k, q) ∈ registered c' -> (k, q) ∈ registered c \/ q = p) ->
  cfg_ok c'.
Proof.
  intros Hok Hp Ea Ei Em En Hq Hr Hpos Hao Hpool Hpend Hh Hoth Hcal Hdone Hreg.
  assert (Hlt : Pos.lt p (next_async (sys c))).
  { destruct (Pos.lt_total p (next_async (sys c))) as [?|Hge]; [done|].
    by rewrite (so_fresh _ _ (co_store _ Hok) p) in Hp by lia. }
  split.
  - rewrite Ei. apply (co_impl _ Hok).
  - by rewrite Em, (co_memory _ Hok).
  - intros q b. rewrite Ea. destruct (decide (q = p)) as [->|Hne].
    + rewrite lookup_insert_eq. by intros [= <-].
    + rewrite lookup_insert_ne by done. destruct (Hq q Hne) as (-> & -> & ->). apply (co_refs _ Hok).
  - intros q. rewrite Ea. destruct (decide (q = p)) as [->|Hne]; [by rewrite lookup_insert_eq|].
    rewrite lookup_insert_ne by done. destruct (Hq q Hne) as (-> & -> & ->). apply (co_dom _ Hok).
  - intros q b. rewrite Ea. destruct (decide (q = p)) as [->|Hne].
    + rewrite lookup_insert_eq. by intros [= <-].
    + rewrite lookup_insert_ne by done. destruct (Hq q Hne) as (_ & -> & ->). apply (co_async _ Hok).
  - done.
  - done.
  - split; [done|]. intros q. rewrite En, Ea. intros Hge. rewrite lookup_insert_ne by lia.
    by apply (so_fresh _ _ (co_store _ Hok)).
  - intros k q. unfold listed. rewrite Ea. destruct (decide (q = p)) as [->|Hne].
    + by rewrite lookup_insert_eq.
    + rewrite lookup_insert_ne by done. pose proof (co_called _ Hok k q) as Hc. unfold listed in Hc.
      specialize (Hoth k q Hne). lia.
  - intros k q b Hin. rewrite Ea. destruct (Hdone k q Hin) as [[Hin' Hne]|[-> Hs]].
    + rewrite lookup_insert_ne by done. by apply (co_done _ Hok k).
    + rewrite lookup_insert_eq. by intros [= <-].
  - intros k q Hin. rewrite En. destruct (Hreg k q Hin) as [?| ->]; [by eapply (co_called_old _ Hok)|done].
Qed.

(** ** Every step preserves it *)

Lemma wp_on_sys {A} (m : M StoreSys A) c (Q : A -> Config -> Prop) :
  wp m (sys c) (fun a s => Q a (c <| sys := s |>)) -> wp (on_sys m) c Q.
Proof. unfold wp, on_sys. by destruct (m (sys c)). Qed.

Lemma wp_nth_held i p c (Q : ptr -> Config -> Prop) :
  held c !! i = Some p -> Q p c -> wp (nth_held i) c Q.
Proof. intros Hi HQ. unfold nth_held. wp_step. wp_step. wp_step; [exact Hi|done]. Qed.

Lemma held_async c i p : cfg_ok c -> held c !! i = Some p -> exists a, asyncs (sys c) !! p = Some a.
Proof.
  intros Hok Hi. apply (co_dom _ Hok).
  pose proof (ptrs_to_elem p (held c) ltac:(by eapply list_elem_of_lookup_2)).
  pose proof (ptrs_to_nonneg p (tasks (sys c))). pose proof (notes_to_nonneg p (pool (sys c))). lia.
Qed.

Lemma async_strs_insert m p a a' q :
  m !! p = Some a ->
  async_strs (<[p := a']> m) q = async_strs m q - points q (Async.data a) + points q (Async.data a').
Proof. apply (msum_insert (fun a => points q (Async.data a))). Qed.

Lemma async_strs_lookup m p a q : m !! p = Some a -> points q (Async.data a) <= async_strs m q.
Proof.
  intros Hp. apply (msum_elem (fun a => points q (Async.data a)) m p a); [|done].
  intros. apply points_nonneg.
Qed.

(** A change that leaves the data alone. *)
Lemma refs_same s s' p a a' st :
  heap_ok (store_refs nox s) nox st -> asyncs s !! p = Some a ->
  asyncs s' = <[p := a']> (asyncs s) -> memory s' = memory s ->
  Async.data a' = Async.data a -> heap_ok (store_refs nox s') nox st.
Proof.
  intros Hok Hp Ea Em Ed. eapply heap_ok_xeq; [|exact Hok].
  intros q. unfold store_refs. rewrite Ea, Em, (async_strs_insert _ _ _ _ _ Hp), Ed. lia.
Qed.

Lemma occurs_called c k p : cfg_ok c -> (k, p) ∈ called (sys c) -> (k, p) ∈ registered c.
Proof.
  intros Hok Hin. destruct (decide ((k, p) ∈ registered c)) as [?|Hn]; [done|]. exfalso.
  pose proof (co_called _ Hok k p). pose proof (occurs_nonneg (k, p) (notes (pool (sys c)))).
  pose proof (occurs_nonneg (k, p) (listed (sys c) p)).
  assert (occurs (k, p) (registered c) = 0).
  { clear -Hn. induction (registered c) as [|x l IH]; [done|]. unfold occurs in *. simpl.
    rewrite decide_False by (intros ->; apply Hn; by left).
    rewrite IH; [done|]. intros ?. apply Hn. by right. }
  assert (0 < occurs (k, p) (called (sys c))); [|lia].
  apply list_elem_of_lookup in Hin as [i Hi]. unfold occurs.
  rewrite (lsum_take_out _ _ _ _ Hi), decide_True by done.
  pose proof (occurs_nonneg (k, p) (delete i (called (sys c)))). unfold occurs in *. lia.
Qed.

(** A request no one else refers to is freed. *)
Lemma cfg_ok_delete c i p a st :
  cfg_ok c -> held c !! i = Some p -> asyncs (sys c) !! p = Some a -> Async.refcount a = 1 ->
  heap_ok (fun q => store_refs nox (sys c) q - points q (Async.data a)) nox st ->
  cfg_ok (mkConfig ((sys c) <| base := st |> <| asyncs ::= delete p |>) (delete i (held c)) (registered c)).
Proof.
  intros Hok Hi Hp E1 Hst. destruct (co_refs _ Hok p a Hp) as [Hr _].
  pose proof (ptrs_to_take_out p (held c) i p Hi) as Ht. rewrite points_self in Ht.
  pose proof (ptrs_to_nonneg p (delete i (held c))). pose proof (ptrs_to_nonneg p (tasks (sys c))).
  pose proof (notes_to_nonneg p (pool (sys c))).
  assert (Hnl : Async.notifiers a = []) by (destruct (Async.notifiers a); [done|simpl in *; lia]).
  assert (Hoth : forall q, q <> p -> ptrs_to q (delete i (held c)) = ptrs_to q (held c)).
  { intros q Hne. rewrite (ptrs_to_take_out q _ _ _ Hi), points_ne by done. lia. }
  split; simpl; try apply Hok.
  - intros q b. destruct (decide (q = p)) as [->|Hne]; [by rewrite lookup_delete_eq|].
    rewrite lookup_delete_ne, Hoth by done. apply (co_refs _ Hok).
  - intros q Hq. destruct (decide (q = p)) as [->|Hne]; [lia|].
    rewrite lookup_delete_ne by done. rewrite Hoth in Hq by done. by apply (co_dom _ Hok).
  - intros q b. destruct (decide (q = p)) as [->|Hne]; [by rewrite lookup_delete_eq|].
    rewrite lookup_delete_ne by done. apply (co_async _ Hok).
  - split; simpl.
    + eapply heap_ok_xeq; [|exact Hst]. intros q. unfold store_refs, async_strs. simpl.
      rewrite (msum_delete _ _ _ _ Hp). lia.
    + intros q Hq. destruct (decide (q = p)) as [->|Hne]; [by rewrite lookup_delete_eq|].
      rewrite lookup_delete_ne by done. by apply (so_fresh _ _ (co_store _ Hok)).
  - intros k q. rewrite (co_called _ Hok k q). f_equal. unfold listed. simpl.
    destruct (decide (q = p)) as [->|Hne]; [by rewrite lookup_delete_eq, Hp, Hnl|].
    by rewrite lookup_delete_ne.
  - intros k q b Hin. destruct (decide (q = p)) as [->|Hne]; [by rewrite lookup_delete_eq|].
    rewrite lookup_delete_ne by done. by apply (co_done _ Hok k).
Qed.

(** Notifiers that are still to be called. *)
Definition notes_left (s : StoreSys) : Z :=
  zlen (pool s) + msum (fun a => zlen (Async.notifiers a)) (asyncs s).

Lemma notes_left_insert s s' p a a' :
  asyncs s !! p = Some a -> asyncs s' = <[p := a']> (asyncs s) ->
  notes_left s' = notes_left s + zlen (pool s') - zlen (pool s)
    + zlen (Async.notifiers a') - zlen (Async.notifiers a).
Proof. intros Hp E. unfold notes_left. rewrite E, (msum_insert _ _ _ _ _ Hp). lia. Qed.

(** A reference is dropped: the request stays, or it was the last one. *)
Lemma unref_ok c i p :
  cfg_ok c -> held c !! i = Some p ->
  wp (bluesky_store_async_unref (Some p)) (sys c) (fun _ s =>
    cfg_ok (mkConfig s (delete i (held c)) (registered c)) /\
    tasks s = tasks (sys c) /\ notes_left s = notes_left (sys c) /\
    forall a, asyncs (sys c) !! p = Some a -> 1 < Async.refcount a ->
      asyncs s !! p = Some (a <| Async.refcount ::= Z.add (-1) |>) /\ base s = base (sys c)).
Proof.
  intros Hok Hi. destruct (held_async c i p Hok Hi) as [a Hp].
  destruct (co_refs _ Hok p a Hp) as [Hr Hpos]. pose proof (co_async _ Hok p a Hp) as Ha.
  pose proof (ptrs_to_take_out p (held c) i p Hi) as Ht. rewrite points_self in Ht.
  pose proof (ptrs_to_nonneg p (delete i (held c))). pose proof (ptrs_to_nonneg p (tasks (sys c))).
  pose proof (notes_to_nonneg p (pool (sys c))).
  assert (Hoth : forall q, q <> p -> ptrs_to q (delete i (held c)) = ptrs_to q (held c)).
  { intros q Hne. rewrite (ptrs_to_take_out q _ _ _ Hi), points_ne by done. lia. }
  destruct (decide (Async.refcount a = 1)) as [E1|Hn1].
  - assert (Hnl : Async.notifiers a = []) by (destruct (Async.notifiers a); [done|simpl in *; lia]).
    eapply (wp_async_unref_last (fun q => store_refs nox (sys c) q - points q (Async.data a)));
      [done|done|apply Ha| | |].
    + eapply heap_ok_xeq; [|exact (so_heap _ _ (co_store _ Hok))]. intros q. unfold xadd. lia.
    + intros q. unfold store_refs, nox. pose proof (memory_strs_nonneg (memory (sys c)) q).
      pose proof (async_strs_lookup _ _ _ q Hp). lia.
    + intros st Hst _. split_and!; [by apply (cfg_ok_delete c i p a)|done| |intros ? ? ?; simplify_eq; lia].
      unfold notes_left. simpl. rewrite (msum_delete _ _ _ _ Hp), Hnl. simpl. lia.
  - unfold bluesky_store_async_unref. wp_step. eapply wp_aupd; [done|]. wp_step.
    eapply wp_aload; [apply lookup_insert_eq|]. simpl.
    rewrite (proj2 (Z.eqb_neq (-1 + Async.refcount a) 0)) by lia. cbn [when]. wp_step.
    split_and!; [|done|erewrite notes_left_insert; [|exact Hp|reflexivity]; simpl; lia|
      intros ? ? _; simplify_eq; simpl; by rewrite lookup_insert_eq].
    eapply (cfg_ok_change c _ p a); try done; simpl.
    + intros q Hne. by rewrite Hoth.
    + lia.
    + lia.
    + destruct Ha; by split.
    + apply (co_pool _ Hok).
    + apply (co_pending _ Hok).
    + eapply refs_same; [exact (so_heap _ _ (co_store _ Hok))|done..].
    + intros k. pose proof (co_called _ Hok k p) as Hc. unfold listed in Hc. by rewrite Hp in Hc.
    + intros k q Hin. destruct (decide (q = p)) as [->|]; [right|by left].
      split; [done|]. by apply (co_done _ Hok k p).
    + by left.
Qed.

(** The notifiers of a request, and the calls made for it. *)
Lemma called_for c p a k :
  cfg_ok c -> asyncs (sys c) !! p = Some a ->
  occurs (k, p) (registered c) = occurs (k, p) (called (sys c))
    + occurs (k, p) (notes (pool (sys c))) + occurs (k, p) (notes (Async.notifiers a)).
Proof. intros Hok Hp. pose proof (co_called _ Hok k p) as Hc. unfold listed in Hc. by rewrite Hp in Hc. Qed.

Lemma called_old c p a k q :
  cfg_ok c -> asyncs (sys c) !! p = Some a -> (k, q) ∈ called (sys c) ->
  (k, q) ∈ called (sys c) /\ q <> p \/ q = p /\ Async.status a = ASYNC_COMPLETE.
Proof.
  intros Hok Hp Hin. destruct (decide (q = p)) as [->|]; [right|by left].
  split; [done|]. by apply (co_done _ Hok k p).
Qed.

(** Fields of a new request are filled in. *)
Lemma fill_ok c p a a' st :
  cfg_ok c -> asyncs (sys c) !! p = Some a -> Async.status a = ASYNC_NEW -> Async.op a = STORE_OP_NONE ->
  a' = a <| Async.op := Async.op a' |> <| Async.key := Async.key a' |> <| Async.start := Async.start a' |>
         <| Async.len := Async.len a' |> <| Async.data := Async.data a' |> ->
  Async.op a' = STORE_OP_GET /\ Async.data a' = None \/ Async.op a' = STORE_OP_PUT /\ is_Some (Async.data a') ->
  is_Some (Async.key a') -> heap_ok (xadd (store_refs nox (sys c)) (Async.data a')) nox st ->
  cfg_ok (c <| sys := (sys c) <| base := st |> <| asyncs ::= <[p := a']> |> |>).
Proof.
  intros Hok Hp Hs Hop Ea Hkind Hkey Hst. destruct (co_refs _ Hok p a Hp) as [Hr Hpos].
  pose proof (co_async _ Hok p a Hp) as Ha.
  assert (Hnone : Async.data a = None).
  { pose proof (ao_data _ _ _ _ Ha) as Hd. rewrite Hs, Hop in Hd. by apply Hd. }
  eapply (cfg_ok_change c _ p a); try done; simpl; try (rewrite Ea; simpl; done).
  - destruct Ha as [Hself Hcnt Hb Hpr Hops Hd Hst']. rewrite Hs in Hst'. rewrite Ea. split; simpl; try done.
    + destruct Hkind as [[-> _]|[-> _]]; done.
    + intros _. destruct Hkind as [[-> ->]|[-> ?]]; [by rewrite decide_False|by rewrite decide_True].
    + by rewrite Hs.
    + by right.
  - apply (co_pool _ Hok).
  - apply (co_pending _ Hok).
  - eapply heap_ok_xeq; [|exact Hst]. intros q. unfold store_refs, xadd. simpl.
    rewrite (async_strs_insert _ _ _ _ _ Hp), Hnone, points_None. lia.
  - rewrite Ea. simpl. intros k. by apply called_for.
  - intros k q Hin. rewrite Ea. simpl. by apply (called_old c p a k q).
  - by left.
Qed.

Lemma new_ok c :
  cfg_ok c -> wp bluesky_store_async_new (sys c) (fun p s =>
    cfg_ok (mkConfig s (p :: held c) (registered c))).
Proof.
  intros Hok. unfold bluesky_store_async_new. do 4 wp_step. wp_step. set (p := next_async (sys c)).
  assert (Hf : asyncs (sys c) !! p = None) by (apply (so_fresh _ _ (co_store _ Hok)); lia).
  assert (Hz : ptrs_to p (held c) + ptrs_to p (tasks (sys c)) + notes_to p (pool (sys c)) <= 0).
  { apply Z.nlt_ge. intros Hlt. destruct (co_dom _ Hok p Hlt) as [? E]. congruence. }
  pose proof (ptrs_to_nonneg p (held c)). pose proof (ptrs_to_nonneg p (tasks (sys c))).
  pose proof (notes_to_nonneg p (pool (sys c))).
  split; simpl; try apply Hok.
  - intros q b. rewrite ptrs_to_cons. destruct (decide (q = p)) as [->|Hne].
    + rewrite lookup_insert_eq, points_self. intros [= <-]. simpl. lia.
    + rewrite lookup_insert_ne, points_ne by done. apply (co_refs _ Hok).
  - intros q. rewrite ptrs_to_cons. destruct (decide (q = p)) as [->|Hne]; [by rewrite lookup_insert_eq|].
    rewrite lookup_insert_ne, points_ne by done. apply (co_dom _ Hok).
  - intros q b. destruct (decide (q = p)) as [->|Hne].
    + rewrite lookup_insert_eq. intros [= <-]. split; simpl; try done; [list_in|lia|lia|by left].
    + rewrite lookup_insert_ne by done. apply (co_async _ Hok).
  - split; simpl.
    + eapply heap_ok_xeq; [|exact (so_heap _ _ (co_store _ Hok))]. intros q. unfold store_refs, async_strs. simpl.
      rewrite msum_insert_fresh by done. simpl. rewrite points_None. lia.
    + intros q Hq. rewrite lookup_insert_ne by lia. apply (so_fresh _ _ (co_store _ Hok)). unfold p in Hq. lia.
  - intros k q. rewrite (co_called _ Hok k q). f_equal. unfold listed. simpl.
    destruct (decide (q = p)) as [->|Hne]; [by rewrite lookup_insert_eq, Hf|by rewrite lookup_insert_ne].
  - intros k q b Hin. pose proof (co_called_old _ Hok k q (occurs_called _ _ _ Hok Hin)).
    rewrite lookup_insert_ne by (unfold p; lia). by apply (co_done _ Hok k).
  - intros k q Hin. pose proof (co_called_old _ Hok k q Hin). lia.
Qed.

Lemma async_ref_run p a s (Q : unit -> StoreSys -> Prop) :
  asyncs s !! p = Some a -> 0 < Async.refcount a ->
  Q tt (s <| asyncs ::= <[p := a <| Async.refcount ::= Z.add 1 |>]> |>) ->
  wp (bluesky_store_async_ref (Some p)) s Q.
Proof.
  intros Hp Hr HQ. unfold bluesky_store_async_ref. wp_step. eapply wp_aload; [done|].
  rewrite (proj2 (Z.ltb_lt 0 _)) by done. cbn [negb]. by eapply wp_aupd.
Qed.

Lemma ref_ok c p a :
  cfg_ok c -> asyncs (sys c) !! p = Some a ->
  wp (bluesky_store_async_ref (Some p)) (sys c) (fun _ s =>
    cfg_ok (mkConfig s (p :: held c) (registered c))).
Proof.
  intros Hok Hp. destruct (co_refs _ Hok p a Hp) as [Hr Hpos]. pose proof (co_async _ Hok p a Hp) as Ha.
  eapply async_ref_run; [done|done|]. eapply (cfg_ok_change c _ p a); try done; simpl.
  - intros q Hne. by rewrite ptrs_to_cons, points_ne.
  - rewrite ptrs_to_cons, points_self. lia.
  - lia.
  - destruct Ha; by split.
  - apply (co_pool _ Hok).
  - apply (co_pending _ Hok).
  - eapply refs_same; [exact (so_heap _ _ (co_store _ Hok))|done..].
  - intros k. by apply called_for.
  - intros k q Hin. by apply (called_old c p a k q).
  - by left.
Qed.

(** One more notifier. *)
Lemma notify_ok c p a k :
  cfg_ok c -> asyncs (sys c) !! p = Some a ->
  wp (bluesky_store_async_add_notifier (Some p) (Client k)) (sys c) (fun _ s =>
    cfg_ok (mkConfig s (held c) ((k, p) :: registered c))).
Proof.
  intros Hok Hp. destruct (co_refs _ Hok p a Hp) as [Hr Hpos]. pose proof (co_async _ Hok p a Hp) as Ha.
  assert (Hocc : forall k' q, occurs (k', q) ((k, p) :: registered c)
    = occurs (k', q) [(k, p)] + occurs (k', q) (registered c)) by (intros; apply (occurs_app _ [(k, p)])).
  assert (Hne0 : forall k' q, q <> p -> occurs (k', q) [(k, p)] = 0).
  { intros k' q Hne. unfold occurs. simpl. rewrite decide_False; [done|]. congruence. }
  unfold bluesky_store_async_add_notifier. wp_step. wp_step; [done|]. cbv zeta.
  wp_step. eapply async_ref_run; [done|done|]. wp_step. eapply wp_aupd; [apply lookup_insert_eq|].
  wp_step. eapply wp_aload; [apply lookup_insert_eq|]. simpl.
  destruct (bool_decide_reflect (Async.status a = ASYNC_COMPLETE)) as [Hs|Hs].
  - unfold pool_push. wp_step.
    eapply (cfg_ok_change c _ p a (a <| Async.refcount ::= Z.add 1 |> <| Async.notifier_count ::= Z.add 1 |>));
      try done; simpl; try (by rewrite insert_insert_eq).
    + intros q Hne. rewrite notes_to_app. unfold notes_to at 2. simpl. rewrite points_ne by done.
      split_and!; [done|done|lia].
    + rewrite notes_to_app. unfold notes_to at 2. simpl. rewrite points_self. lia.
    + lia.
    + destruct Ha as [Hself Hcnt Hb Hpr Hops Hd Hst]. rewrite Hs in Hst. split; simpl; try done.
      * rewrite notes_to_app. unfold notes_to at 2. simpl. rewrite points_self. lia.
      * by rewrite Hs.
    + intros n [Hn| ->%list_elem_of_singleton]%elem_of_app; [by apply (co_pool _ Hok)|by exists k].
    + apply (co_pending _ Hok).
    + eapply refs_same; [exact (so_heap _ _ (co_store _ Hok))|exact Hp|simpl; by rewrite insert_insert_eq|done|done].
    + intros k' q Hne. rewrite Hocc, notes_app, occurs_app, Hne0 by done.
      change (notes [Notifier.mk (Client k) p]) with [(k, p)]. rewrite Hne0 by done. lia.
    + intros k'. rewrite Hocc, notes_app, occurs_app, (called_for c p a k' Hok Hp).
      change (notes [Notifier.mk (Client k) p]) with [(k, p)]. lia.
    + intros k' q Hin. by apply (called_old c p a k' q).
    + intros k' q [[= -> ->]|]%elem_of_cons; [by right|by left].
  - eapply wp_aupd; [apply lookup_insert_eq|].
    eapply (cfg_ok_change c _ p a (a <| Async.refcount ::= Z.add 1 |> <| Async.notifier_count ::= Z.add 1 |>
      <| Async.notifiers ::= cons (Notifier.mk (Client k) p) |>)); try done; simpl; try (by rewrite !insert_insert_eq).
    + lia.
    + lia.
    + destruct Ha as [Hself Hcnt Hb Hpr Hops Hd Hst]. split; simpl; try done.
      * intros n [->|Hn]%elem_of_cons; [split; [done|by exists k]|by apply Hself].
      * lia.
      * by destruct (Async.status a).
    + apply (co_pool _ Hok).
    + apply (co_pending _ Hok).
    + eapply refs_same; [exact (so_heap _ _ (co_store _ Hok))|exact Hp|simpl; by rewrite !insert_insert_eq|done|done].
    + intros k' q Hne. rewrite Hocc, Hne0 by done. lia.
    + intros k'. rewrite Hocc, (called_for c p a k' Hok Hp).
      change (Notifier.mk (Client k) p :: Async.notifiers a) with ([Notifier.mk (Client k) p] ++ Async.notifiers a).
      rewrite notes_app, occurs_app. change (notes [Notifier.mk (Client k) p]) with [(k, p)]. lia.
    + intros k' q Hin. by apply (called_old c p a k' q).
    + intros k' q [[= -> ->]|]%elem_of_cons; [by right|by left].
Qed.

Section background.
Context `{Files : FileSystem} `{Env0 : Env}.
Hypothesis asynchronous : Options.synchronous_stores bluesky_options = false.

(** Both back ends put the request on their queue. *)
Lemma threaded_submit i p a s (Q : unit -> StoreSys -> Prop) :
  threaded i -> asyncs s !! p = Some a ->
  wp (if negb (bool_decide (Async.status a = ASYNC_NEW)) then mret tt else
      match Async.op a with
      | STORE_OP_NONE => mret tt
      | STORE_OP_GET | STORE_OP_PUT =>
        aupd (Some p) (fun a => a <| Async.status := ASYNC_PENDING |>);;
        bluesky_store_async_ref (Some p);; p ← assume NullPointer (Some p);
        modify (fun s => s <| tasks ::= fun l => l ++ [p] |>)
      | _ => bluesky_store_async_mark_complete (Some p)
      end) s Q -> wp (impl_submit i (Some p)) s Q.
Proof. intros [ -> | -> ] Hp Hw; cbn [impl_submit]; unfold s3store_submit, simplestore_submit; wp_step; by eapply wp_aload. Qed.

Lemma submit_ok c p a :
  cfg_ok c -> asyncs (sys c) !! p = Some a -> Async.status a = ASYNC_NEW -> Async.op a <> STORE_OP_NONE ->
  wp (bluesky_store_async_submit (Some p)) (sys c) (fun _ s => cfg_ok (mkConfig s (held c) (registered c))).
Proof.
  intros Hok Hp Hs Hop. destruct (co_refs _ Hok p a Hp) as [Hr Hpos]. pose proof (co_async _ Hok p a Hp) as Ha.
  destruct (ao_op _ _ _ _ Ha) as [Hnb Hnd].
  unfold bluesky_store_async_submit. wp_step. eapply wp_aload; [done|].
  rewrite (bool_decide_eq_false_2 _ Hnb). do 4 wp_step. simpl. rewrite asynchronous. cbn [when].
  wp_step. eapply (threaded_submit _ _ a); [apply (co_impl _ Hok)|done|]. rewrite (bool_decide_eq_true_2 _ Hs). cbn [negb].
  set (a' := a <| Async.status := ASYNC_PENDING |> <| Async.refcount ::= Z.add 1 |>).
  assert (Hgoal : wp (aupd (Some p) (fun a => a <| Async.status := ASYNC_PENDING |>);;
    bluesky_store_async_ref (Some p);; p ← assume NullPointer (Some p);
    modify (fun s => s <| tasks ::= fun l => l ++ [p] |>)) ((sys c) <| pending ::= Z.add 1 |>)
    (fun _ s => wp (mret tt) s (fun _ s => cfg_ok (mkConfig s (held c) (registered c))))).
  { wp_step. eapply wp_aupd; [done|]. wp_step. eapply async_ref_run; [apply lookup_insert_eq|done|].
    wp_step. wp_step; [done|]. do 2 wp_step.
    pose proof (ao_status _ _ _ _ Ha) as Hst. rewrite Hs in Hst. destruct Hst as [Ht Hw].
    eapply (cfg_ok_change c _ p a a'); try done; simpl; try (by rewrite insert_insert_eq).
    - intros q Hne. rewrite ptrs_to_app, ptrs_to_cons, points_ne by done. split_and!; [done|unfold ptrs_to at 2; simpl; lia|done].
    - rewrite ptrs_to_app, ptrs_to_cons, points_self. unfold ptrs_to at 3. simpl. lia.
    - lia.
    - destruct Ha as [Hself Hcnt Hb Hpr Hops Hd _]. split; simpl; try done.
      + intros _. apply Hd. by rewrite Hs.
      + rewrite ptrs_to_app, ptrs_to_cons, points_self, Ht. done.
    - apply (co_pool _ Hok).
    - rewrite (co_pending _ Hok), length_app. simpl. lia.
    - eapply refs_same; [exact (so_heap _ _ (co_store _ Hok))|exact Hp|simpl; by rewrite insert_insert_eq|done|done].
    - intros k. by apply called_for.
    - intros k q Hin. destruct (called_old c p a k q Hok Hp Hin) as [?|[_ E]]; [by left|congruence].
    - by left. }
  destruct (Async.op a); try done; exact Hgoal.
Qed.

(** The state of the request when it is complete and the task still holds its
    reference, before it is dropped. *)
Lemma task_complete_ok c i p a a1 st :
  cfg_ok c -> tasks (sys c) !! i = Some p -> asyncs (sys c) !! p = Some a ->
  a1 = a <| Async.status := Async.status a1 |> <| Async.range_done := Async.range_done a1 |>
         <| Async.result := Async.result a1 |> <| Async.data := Async.data a1 |> ->
  heap_ok (fun q => store_refs nox (sys c) q - points q (Async.data a) + points q (Async.data a1)) nox st ->
  forall g u, cfg_ok (mkConfig ((sys c) <| tasks ::= delete i |> <| base := st |>
      <| pending := leave_store a1 (pending (sys c)) |> <| asyncs ::= <[p := completed a1]> |>
      <| pool ::= fun l => l ++ Async.notifiers a1 |> <| stats_get := g |> <| stats_put := u |>)
    (p :: held c) (registered c)).
Proof.
  intros Hok Hi Hp Ea Hst g u. destruct (co_refs _ Hok p a Hp) as [Hr Hpos].
  pose proof (co_async _ Hok p a Hp) as Ha.
  pose proof (ptrs_to_take_out p (tasks (sys c)) i p Hi) as Ht. rewrite points_self in Ht.
  pose proof (ptrs_to_nonneg p (delete i (tasks (sys c)))).
  pose proof (ao_status _ _ _ _ Ha) as Hs.
  assert (Hpend : Async.status a = ASYNC_PENDING) by (destruct (Async.status a); done || lia).
  rewrite Hpend in Hs. destruct Hs as (Ht1 & Hw & Hop).
  assert (Hn : Async.notifiers a1 = Async.notifiers a) by (by rewrite Ea).
  assert (Hself : forall n, n ∈ Async.notifiers a -> Notifier.async n = p) by (intros; by apply Ha).
  eapply (cfg_ok_change c _ p a (completed a1)); try done; simpl; rewrite ?Hn.
  - intros q Hne. rewrite ptrs_to_cons, points_ne, notes_to_app, (notes_to_other p q (Async.notifiers a)) by done.
    rewrite (ptrs_to_take_out q _ _ _ Hi), points_ne by done. split_and!; lia.
  - rewrite ptrs_to_cons, points_self, notes_to_app, (notes_to_own p (Async.notifiers a)) by done. rewrite Ea. simpl. lia.
  - rewrite Ea. done.
  - destruct Ha as [Hself' Hcnt Hb Hpr Hops Hd _]. rewrite notes_to_app, (notes_to_own p (Async.notifiers a)) by done. rewrite Ea.
    split; simpl; try done; [list_in|lia|]. split; [lia|done].
  - intros n [?|Hin]%elem_of_app; [by apply (co_pool _ Hok)|]. by apply Ha.
  - unfold leave_store. rewrite bool_decide_eq_false_2 by (rewrite Ea; apply Ha).
    rewrite (co_pending _ Hok). rewrite length_delete by eauto.
    apply lookup_lt_Some in Hi. lia.
  - eapply heap_ok_xeq; [|exact Hst]. intros q. unfold store_refs. simpl.
    rewrite (async_strs_insert _ _ _ _ _ Hp). simpl. lia.
  - intros k q Hne. rewrite notes_app, occurs_app, (occurs_other k p q (Async.notifiers a)) by done. lia.
  - intros k. rewrite notes_app, occurs_app, (called_for c p a k Hok Hp). change (occurs (k, p) (notes [])) with 0. lia.
  - intros k q Hin. destruct (called_old c p a k q Hok Hp Hin) as [?|[-> _]]; [by left|by right].
  - by left.
Qed.

(** Completion by a task that holds [a1], and the end of the task. *)
Lemma task_end_ok c i p a a1 st :
  cfg_ok c -> tasks (sys c) !! i = Some p -> asyncs (sys c) !! p = Some a ->
  a1 = a <| Async.status := ASYNC_RUNNING |> <| Async.range_done := Async.range_done a1 |>
         <| Async.result := Async.result a1 |> <| Async.data := Async.data a1 |> ->
  selects a1 = false -> (forall q, Async.data a1 = Some q -> is_Some (strs st !! q)) ->
  heap_ok (fun q => store_refs nox (sys c) q - points q (Async.data a) + points q (Async.data a1)) nox st ->
  wp (bluesky_store_async_mark_complete (Some p);; bluesky_store_async_unref (Some p))
    ((sys c) <| tasks ::= delete i |> <| base := st |> <| asyncs ::= <[p := a1]> |>) (fun _ s =>
    cfg_ok (mkConfig s (held c) (registered c)) /\
    tasks s = delete i (tasks (sys c)) /\ notes_left s = notes_left (sys c) /\
    (1 < Async.refcount a ->
      asyncs s !! p = Some (completed a1 <| Async.refcount ::= Z.add (-1) |>) /\ base s = st)).
Proof.
  intros Hok Hi Hp Ea Hsel Hlive Hst. pose proof (co_async _ Hok p a Hp) as Ha. wp_step.
  eapply (mark_complete_run p a1); [apply lookup_insert_eq|by rewrite Ea|rewrite Ea; apply Ha|done|done|].
  intros g u. assert (Ea' : a1 = a <| Async.status := Async.status a1 |> <| Async.range_done := Async.range_done a1 |>
    <| Async.result := Async.result a1 |> <| Async.data := Async.data a1 |>) by (rewrite Ea at 1; by rewrite Ea).
  pose proof (task_complete_ok c i p a a1 st Hok Hi Hp Ea' Hst g u) as Hc.
  match type of Hc with cfg_ok (mkConfig ?s _ _) => set (s1 := s) in Hc end.
  match goal with |- wp _ ?s _ => replace s with s1
    by (apply StoreSys_ext; try done; simpl; by rewrite insert_insert_eq) end.
  eapply wp_mono; [exact (unref_ok _ 0 p Hc eq_refl)|]. intros [] s (Hs & Et & En & Ek).
  split_and!; [exact Hs|exact Et| |].
  - rewrite En. unfold s1. erewrite notes_left_insert; [|exact Hp|reflexivity]. simpl.
    rewrite length_app, Ea. simpl. lia.
  - intros Hr. apply (Ek (completed a1)); [apply lookup_insert_eq|]. rewrite Ea. exact Hr.
Qed.

(** A task of the back end. *)
Lemma task_ok c i p answer :
  cfg_ok c -> tasks (sys c) !! i = Some p ->
  wp (s3store_task (Some p) answer) ((sys c) <| tasks ::= delete i |>) (fun _ s =>
    cfg_ok (mkConfig s (held c) (registered c)) /\
    tasks s = delete i (tasks (sys c)) /\ notes_left s = notes_left (sys c)).
Proof.
  intros Hok Hi.
  assert (exists a, asyncs (sys c) !! p = Some a) as [a Hp].
  { apply (co_dom _ Hok). pose proof (ptrs_to_elem p (tasks (sys c)) ltac:(by eapply list_elem_of_lookup_2)).
    pose proof (ptrs_to_nonneg p (held c)). pose proof (notes_to_nonneg p (pool (sys c))). lia. }
  pose proof (co_async _ Hok p a Hp) as Ha. pose proof (so_heap _ _ (co_store _ Hok)) as Hh.
  pose proof (ptrs_to_elem p (tasks (sys c)) ltac:(by eapply list_elem_of_lookup_2)).
  pose proof (ao_status _ _ _ _ Ha) as Hs. pose proof (ao_data _ _ _ _ Ha) as Hd.
  assert (Hpend : Async.status a = ASYNC_PENDING) by (destruct (Async.status a); done || lia).
  rewrite Hpend in Hs, Hd. destruct Hs as (_ & _ & Hop). specialize (Hd ltac:(done)).
  unfold s3store_task. wp_step. eapply wp_aupd; [done|]. wp_step. eapply wp_aload; [apply lookup_insert_eq|].
  destruct (ao_op _ _ _ _ Ha) as [Hnb Hnd].
  assert (Hend : forall a1 st s, s = (sys c) <| tasks ::= delete i |> <| base := st |> <| asyncs ::= <[p := a1]> |> ->
    a1 = a <| Async.status := ASYNC_RUNNING |> <| Async.range_done := Async.range_done a1 |>
           <| Async.result := Async.result a1 |> <| Async.data := Async.data a1 |> ->
    selects a1 = false -> (forall q, Async.data a1 = Some q -> is_Some (strs st !! q)) ->
    heap_ok (fun q => store_refs nox (sys c) q - points q (Async.data a) + points q (Async.data a1)) nox st ->
    wp (bluesky_store_async_mark_complete (Some p);; bluesky_store_async_unref (Some p)) s (fun _ s =>
      cfg_ok (mkConfig s (held c) (registered c)) /\
      tasks s = delete i (tasks (sys c)) /\ notes_left s = notes_left (sys c))).
  { intros a1 st s -> Ea Hsel Hl Hst. eapply wp_mono; [by apply (task_end_ok c i p a a1 st Hok Hi Hp)|].
    intros ? s (? & ? & ? & _). done. }
  simpl. wp_step. destruct (Async.op a) eqn:Eop; try done.
  - rewrite decide_False in Hd by done. wp_step. eapply wp_aupd; [apply lookup_insert_eq|].
    destruct answer as [b|]; wp_step.
    + apply wp_lift. eapply wp_string_new; [exact Hh|]. intros q st Hst _ (str & Hq & _).
      eapply wp_aupd; [apply lookup_insert_eq|].
      eapply (Hend _ st); [apply StoreSys_ext; try done; simpl; by rewrite !insert_insert_eq|by destruct a| | |].
      * unfold selects. simpl. by rewrite andb_false_r.
      * intros ? [= <-]. by exists str.
      * eapply heap_ok_xeq; [|exact Hst]. intros r. rewrite Hd. unfold xadd. simpl. rewrite points_None. lia.
    + eapply (Hend _ (base (sys c))); [apply StoreSys_ext; try done; simpl; by rewrite !insert_insert_eq|by destruct a| | |].
      * unfold selects. simpl. by rewrite andb_false_r.
      * simpl. by rewrite Hd.
      * eapply heap_ok_xeq; [|exact Hh]. intros r. simpl. lia.
  - rewrite decide_True in Hd by done. destruct Hd as [q Hd].
    destruct (owned_string (store_refs nox (sys c)) (base (sys c)) q) as [str Hq]; [done| |].
    { unfold store_refs, nox. pose proof (async_strs_lookup _ _ _ q Hp) as Hl. rewrite Hd, points_self in Hl.
      pose proof (memory_strs_nonneg (memory (sys c)) q). lia. }
    wp_step. apply wp_lift. rewrite Hd. eapply wp_load; [exact Hq|].
    destruct answer as [b|]; [eapply wp_aupd; [apply lookup_insert_eq|]|wp_step].
    all: eapply (Hend _ (base (sys c))); [apply StoreSys_ext; try done; simpl; by rewrite ?insert_insert_eq|by destruct a| | |].
    all: try (intros r [= E]; simpl in E; exists str; congruence).
    all: try (unfold selects; simpl; by rewrite bool_decide_eq_false_2 by (by rewrite Eop)).
    all: eapply heap_ok_xeq; [|exact Hh]; intros r; simpl; lia.
Qed.

(** The notifier is called and its thread still holds its reference. *)
Lemma run_called_ok c i k p a :
  cfg_ok c -> pool (sys c) !! i = Some (Notifier.mk (Client k) p) -> asyncs (sys c) !! p = Some a ->
  cfg_ok (mkConfig ((sys c) <| pool ::= delete i |> <| called ::= fun l => l ++ [(k, p)] |>
    <| asyncs ::= <[p := a <| Async.notifier_count ::= Z.add (-1) |>]> |>) (p :: held c) (registered c)).
Proof.
  intros Hok Hi Hp. destruct (co_refs _ Hok p a Hp) as [Hr Hpos]. pose proof (co_async _ Hok p a Hp) as Ha.
  pose proof (notes_to_take_out p _ _ _ Hi) as Ht. simpl in Ht. rewrite points_self in Ht.
  pose proof (notes_to_nonneg p (delete i (pool (sys c)))). pose proof (ao_status _ _ _ _ Ha) as Hs.
  assert (Hc : Async.status a = ASYNC_COMPLETE) by (destruct (Async.status a); done || lia).
  assert (Hocc : forall k' q, occurs (k', q) (notes (pool (sys c)))
    = occurs (k', q) [(k, p)] + occurs (k', q) (notes (delete i (pool (sys c))))).
  { intros. apply (occurs_take_out _ _ _ _ Hi). }
  eapply (cfg_ok_change c _ p a (a <| Async.notifier_count ::= Z.add (-1) |>)); try done; simpl.
  - intros q Hne. rewrite ptrs_to_cons, points_ne by done. rewrite (notes_to_take_out q _ _ _ Hi). simpl.
    rewrite points_ne by done. split_and!; lia.
  - rewrite ptrs_to_cons, points_self. lia.
  - destruct Ha as [Hself Hcnt Hb Hpr Hops Hd _]. split; simpl; try done; [lia|by rewrite Hc in *].
  - intros n Hn. apply (co_pool _ Hok). apply list_elem_of_lookup in Hn as [j Hj].
    rewrite (delete_Permutation _ _ _ Hi). right. by eapply list_elem_of_lookup_2.
  - apply (co_pending _ Hok).
  - eapply refs_same; [exact (so_heap _ _ (co_store _ Hok))|done..].
  - intros k' q Hne. rewrite Hocc, occurs_app. lia.
  - intros k'. rewrite (called_for c p a k' Hok Hp), Hocc, occurs_app. lia.
  - intros k' q [Hin|[= -> ->]%list_elem_of_singleton]%elem_of_app; [|by right].
    by apply (called_old c p a k' q).
  - by left.
Qed.

Lemma run_ok c i n :
  cfg_ok c -> pool (sys c) !! i = Some n ->
  wp (notifier_task n) ((sys c) <| pool ::= delete i |>) (fun _ s =>
    cfg_ok (mkConfig s (held c) (registered c)) /\
    tasks s = tasks (sys c) /\ notes_left s = notes_left (sys c) - 1).
Proof.
  intros Hok Hi. destruct (co_pool _ Hok n ltac:(by eapply list_elem_of_lookup_2)) as [k Hk].
  destruct n as [f p]. simpl in Hk. subst f.
  assert (exists a, asyncs (sys c) !! p = Some a) as [a Hp].
  { apply (co_dom _ Hok). pose proof (notes_to_elem _ (pool (sys c)) ltac:(by eapply list_elem_of_lookup_2)) as He.
    simpl in He. pose proof (ptrs_to_nonneg p (held c)). pose proof (ptrs_to_nonneg p (tasks (sys c))). lia. }
  pose proof (run_called_ok c i k p a Hok Hi Hp) as Hc. pose proof (co_async _ Hok p a Hp) as Ha.
  unfold notifier_task. simpl. wp_step. wp_step. wp_step. eapply wp_aupd; [done|]. wp_step.
  eapply wp_aload; [apply lookup_insert_eq|]. simpl. rewrite (ao_barrier _ _ _ _ Ha). wp_step.
  assert (Hw : forall b s (Q : unit -> StoreSys -> Prop), Q tt s -> wp (when b (mret tt)) s Q)
    by (intros [] ? ? ?; cbn [when]; by apply wp_ret).
  apply Hw. eapply wp_mono; [exact (unref_ok _ 0 p Hc eq_refl)|]. intros [] s (Hs & Et & En & _).
  split_and!; [exact Hs|exact Et|]. rewrite En.
  erewrite notes_left_insert; [|exact Hp|reflexivity]. simpl.
  rewrite length_delete by eauto. apply lookup_lt_Some in Hi. lia.
Qed.

(** Every step that may be taken is free of faults and keeps the invariant. *)
Lemma perform_ok c act : cfg_ok c -> enabled c act -> wp (perform act) c (fun _ c' => cfg_ok c').
Proof.
  intros Hok. destruct act as [|i|i|i key start len|i key data|i k|i|i answer|i]; simpl.
  - intros _. wp_step. apply wp_on_sys. eapply wp_mono; [by apply new_ok|]. intros p s Hs. by wp_step.
  - intros [p Hi]. wp_step. eapply wp_nth_held; [done|]. destruct (held_async c i p Hok Hi) as [a Hp].
    wp_step. apply wp_on_sys. eapply wp_mono; [by apply (ref_ok c p a)|]. intros [] s Hs. by wp_step.
  - intros [p Hi]. wp_step. eapply wp_nth_held; [done|]. wp_step. wp_step. apply wp_on_sys.
    eapply wp_mono; [by apply (unref_ok c i p)|]. by intros [] s [Hs _].
  - intros (p & a & Hi & Hp & Hs & Hop). wp_step. eapply wp_nth_held; [done|]. apply wp_on_sys.
    eapply wp_aupd; [done|].
    pose proof (ao_data _ _ _ _ (co_async _ Hok p a Hp)) as Hd. rewrite Hs, Hop in Hd. specialize (Hd ltac:(done)).
    replace (sys c) with ((sys c) <| base := base (sys c) |>) by (by destruct (sys c)).
    eapply (fill_ok c p a); [done..|by destruct a|left; by split|by eexists|]. simpl. rewrite Hd.
    eapply heap_ok_xeq; [apply xadd_None|exact (so_heap _ _ (co_store _ Hok))].
  - intros (p & a & Hi & Hp & Hs & Hop). wp_step. eapply wp_nth_held; [done|]. apply wp_on_sys.
    wp_step. apply wp_lift. eapply wp_string_new; [exact (so_heap _ _ (co_store _ Hok))|]. intros q st Hst _ _.
    eapply wp_aupd; [done|]. eapply (fill_ok c p a); [done..|by destruct a|right; split; [done|by exists q]|by eexists|done].
  - intros [p Hi]. wp_step. eapply wp_nth_held; [done|]. destruct (held_async c i p Hok Hi) as [a Hp].
    wp_step. apply wp_on_sys. eapply wp_mono; [by apply (notify_ok c p a k)|]. intros [] s Hs. by wp_step.
  - intros (p & a & Hi & Hp & Hs & Hop). wp_step. eapply wp_nth_held; [done|]. apply wp_on_sys.
    eapply wp_mono; [by apply (submit_ok c p a)|]. by intros [] s ?.
  - intros [p Hi]. wp_step. wp_step. wp_step. wp_step; [exact Hi|]. apply wp_on_sys. wp_step. wp_step.
    eapply wp_mono; [by apply (task_ok c i p answer)|]. by intros [] s [? _].
  - intros [n Hi]. wp_step. wp_step. wp_step. wp_step; [exact Hi|]. apply wp_on_sys. wp_step. wp_step.
    eapply wp_mono; [by apply (run_ok c i n)|]. by intros [] s [? _].
Qed.

Lemma initial_ok : cfg_ok initial.
Proof.
  split; simpl; try done; [by left|..].
  all: intros; match goal with Hin : _ ∈ [] |- _ => by apply not_elem_of_nil in Hin end.
Qed.

Lemma reachable_ok c : reachable c -> cfg_ok c.
Proof.
  induction 1 as [|c act c' _ IH He Hp]; [exact initial_ok|].
  pose proof (perform_ok c act IH He) as Hw. unfold wp in Hw. by rewrite Hp in Hw.
Qed.



(** Steps of the threads of the storage layer, as opposed to those of clients. *)
Definition background (act : action) : Prop :=
  match act with Task _ _ | Run _ => True | _ => False end.

(** Work left for these threads. *)
Definition work (c : Config) : Z := zlen (tasks (sys c)) + notes_left (sys c).

Lemma background_work c act c' :
  cfg_ok c -> background act -> enabled c act -> perform act c = Ok tt c' ->
  work c' = work c - 1.
Proof.
  intros Hok Hb He Hp. destruct act as [| | | | | | |i answer|i]; try done.
  - destruct He as [p Hi]. simpl in Hp. unfold mbind, M_bind, gets, assume in Hp. rewrite Hi in Hp.
    unfold on_sys in Hp. simpl in Hp. pose proof (task_ok c i p answer Hok Hi) as Hw. unfold wp in Hw.
    destruct (s3store_task (Some p) answer _) as [[] s|]; [|done]. injection Hp as <-.
    destruct Hw as (_ & Et & En). unfold work. simpl. rewrite Et, En, length_delete by eauto.
    apply lookup_lt_Some in Hi. lia.
  - destruct He as [n Hi]. simpl in Hp. unfold mbind, M_bind, gets, assume in Hp. rewrite Hi in Hp.
    unfold on_sys in Hp. simpl in Hp. pose proof (run_ok c i n Hok Hi) as Hw. unfold wp in Hw.
    destruct (notifier_task n _) as [[] s|]; [|done]. injection Hp as <-.
    destruct Hw as (_ & Et & En). unfold work. simpl. rewrite Et, En. lia.
Qed.

(** A run of the threads of the storage layer alone. *)
Inductive background_run : Config -> nat -> Config -> Prop :=
  | run_nil c : background_run c 0 c
  | run_cons c act c1 n c' :
      background act -> enabled c act -> perform act c = Ok tt c1 ->
      background_run c1 n c' -> background_run c (S n) c'.

Lemma background_run_work c n c' :
  background_run c n c' -> cfg_ok c -> cfg_ok c' /\ work c' = work c - Z.of_nat n.
Proof.
  induction 1 as [c|c act c1 n c' Hb He Hp _ IH]; intros Hok; [split; [done|lia]|].
  pose proof (perform_ok c act Hok He) as Hw. unfold wp in Hw. rewrite Hp in Hw.
  rewrite (background_work c act c1 Hok Hb He Hp) in IH. destruct (IH Hw) as [? ->]. split; [done|lia].
Qed.

(** With no task and no notifier left to run, every submitted request is complete. *)
Lemma quiescent_wait c p a :
  cfg_ok c -> tasks (sys c) = [] -> pool (sys c) = [] -> asyncs (sys c) !! p = Some a ->
  Async.status a <> ASYNC_NEW ->
  bluesky_store_async_wait (Some p) (sys c) = Ok tt (sys c) /\ Async.notifiers a = [].
Proof.
  intros Hok Ht Hpl Hp Hn. destruct (co_async _ Hok p a Hp) as [_ Hcnt _ _ _ _ Hs].
  rewrite Ht, Hpl in *. change (ptrs_to p []) with 0 in Hs. change (notes_to p []) with 0 in *.
  destruct (Async.status a) eqn:E; try done; [lia|]. destruct Hs as [_ Hnl]. rewrite Hnl in *.
  split; [|done]. pose proof (wp_async_wait p a (sys c) (fun _ s => s = sys c) Hp E Hcnt eq_refl) as Hw.
  unfold wp in Hw. by destruct (bluesky_store_async_wait _ _) as [[] ?|]; [subst|].
Qed.

End background.

(** *** Witnesses *)

Section witnesses.
#[local] Instance writable_files : FileSystem := {| g_file_set_contents_ok _ _ := true |}.

Definition after (act : action) (c : Config) : Config :=
  match perform act c with Ok _ c' => c' | Stop _ => c end.

Lemma reachable_after c act :
  reachable c -> enabled c act -> is_Some (match perform act c with Ok _ _ => Some tt | Stop _ => None end) ->
  reachable (after act c).
Proof.
  intros Hc He Hp. unfold after. destruct (perform act c) as [[] c'|] eqn:E; [by eapply reach_step|by destruct Hp].
Qed.

(** One client asks for an object to be written and wants to be told. *)
Definition one_write : Config :=
  after (Submit 0) (after (Notify 0 7) (after (Put 0 [107] [1; 2; 3]) (after New initial))).

Lemma one_write_reachable : reachable one_write.
Proof.
  apply reachable_after; [apply reachable_after; [apply reachable_after; [apply reachable_after;
    [apply reach_initial|exact I|]|..]|..]|..].
  all: try (eexists; vm_compute; reflexivity).
  - eexists _, _. split_and!; vm_compute; reflexivity.
  - eexists _, _. split_and!; [vm_compute; reflexivity..|]. discriminate.
Qed.



End witnesses.

(** ** Barriers

    A notifier added to a completed request makes it count twice for its barrier,
    so that the barrier completes while another request is still pending. *)
Definition barrier_run : M StoreSys (BlueSkyAsyncStatus * BlueSkyAsyncStatus) :=
  let files : FileSystem := {| g_file_set_contents_ok _ _ := true |} in
  barrier ← bluesky_store_async_new;
  aupd (Some barrier) (fun a => a <| Async.op := STORE_OP_BARRIER |>);;
  first ← bluesky_store_async_new;
  aupd (Some first) (fun a => a <| Async.op := STORE_OP_GET |> <| Async.key := Some [1] |>);;
  second ← bluesky_store_async_new;
  aupd (Some second) (fun a => a <| Async.op := STORE_OP_GET |> <| Async.key := Some [2] |>);;
  bluesky_store_add_barrier (Some barrier) (Some first);;
  bluesky_store_add_barrier (Some barrier) (Some second);;
  bluesky_store_async_submit (Some barrier);;
  bluesky_store_async_submit (Some first);;
  bluesky_store_async_submit (Some second);;
  s3store_task (Some first) (Some [9]);;
  bluesky_store_async_add_notifier (Some first) (Client 0);;
  notifier_task (Notifier.mk (Client 0) first);;
  b ← aload (Some barrier);
  a ← aload (Some second);
  mret (Async.status b, Async.status a).

Example barrier_completes_early :
  match barrier_run (sys initial) with
  | Ok (b, a) _ => b = ASYNC_COMPLETE /\ a = ASYNC_PENDING
  | Stop _ => False
  end.
Proof. by vm_compute. Qed.
