(* ===== verification/SimpleStore.v ===== *)
(** * The client of the simple storage server (src/bluesky/store-simple.c)

    A task of this back end sends a line of text over a connection, with the data
    of an object after it, and reads a line back, with the data of an object after
    it.  A socket delivers what the other side sent in pieces of any size. *)

From S2P Require Import Prelude State Strings Ownership CacheFiles LogThread Store.
From Stdlib Require Import ZArith Lia.
From stdpp Require Import base numbers gmap option list.

Open Scope Z_scope.

(** ** Sockets *)

(** What the next calls of [read] and [write] on a socket return.  No bytes stand
    for the end of the stream. *)
Inductive recv :=
  | Received (b : bytes)
  | RecvInterrupted     (* EINTR *)
  | RecvFailed.
Inductive send :=
  | Sent (n : Z)
  | SendInterrupted     (* EINTR *)
  | SendFailed.

(** A socket, with what has been written to it.  When [sending] is used up, writes
    are complete; when [incoming] is used up, reads wait. *)
Module Socket.
Record t := mk {
  incoming : list recv;
  sending : list send;
  sent : bytes;
}.
End Socket.
#[export] Instance Socket_eta : Eta Socket.t := fun x =>
  Socket.mk (Socket.incoming x) (Socket.sending x) (Socket.sent x).

Definition sock_read (n : Z) : M Socket.t recv := fun s =>
  match Socket.incoming s with
  | [] => Stop Blocked
  | Received b :: evs =>
    if bool_decide (b = []) then Ok (Received []) s
    else if zlen b <=? n then Ok (Received b) (s <| Socket.incoming := evs |>)
    else Ok (Received (take (Z.to_nat n) b))
           (s <| Socket.incoming := Received (drop (Z.to_nat n) b) :: evs |>)
  | e :: evs => Ok e (s <| Socket.incoming := evs |>)
  end.

Definition sock_write (b : bytes) : M Socket.t send := fun s =>
  match Socket.sending s with
  | [] => Ok (Sent (zlen b)) (s <| Socket.sent ::= fun l => l ++ b |>)
  | Sent n :: evs =>
    let n := Z.max 0 (Z.min n (zlen b)) in
    Ok (Sent n) (s <| Socket.sending := evs |> <| Socket.sent ::= fun l => l ++ take (Z.to_nat n) b |>)
  | e :: evs => Ok e (s <| Socket.sending := evs |>)
  end.

(** ** Transfers *)

(** Whether all was written. *)
Fixpoint write_data_loop (fuel : nat) (buf : bytes) : M Socket.t bool :=
  if zlen buf <=? 0 then mret true else
  match fuel with
  | O => stop OutOfFuel
  | S fuel =>
    r ← sock_write buf;
    match r with
    | Sent n => write_data_loop fuel (drop (Z.to_nat n) buf)
    | SendInterrupted => write_data_loop fuel buf
    | SendFailed => mret false
    end
  end.
Definition write_data (buf : bytes) : M Socket.t bool :=
  s ← get; write_data_loop (S (length (Socket.sending s))) buf.

(** [None]: the line is too long, or the read failed. *)
Fixpoint read_line_loop (fuel : nat) (buf : bytes) (maxlen : Z) : M Socket.t (option bytes) :=
  if bool_decide (10 ∈ buf) then mret (Some buf) else
  if zlen buf =? maxlen then mret None else
  match fuel with
  | O => stop OutOfFuel
  | S fuel =>
    r ← sock_read (maxlen - zlen buf);
    match r with
    | RecvInterrupted => read_line_loop fuel buf maxlen
    | RecvFailed => mret None
    | Received b =>
      if bool_decide (b = []) then mret (Some buf) else
      check Assertion (zlen b <=? maxlen - zlen buf);;
      read_line_loop fuel (buf ++ b) maxlen
    end
  end.
Definition read_line (maxlen : Z) : M Socket.t (option bytes) :=
  s ← get; read_line_loop (S (length (Socket.incoming s))) [] (maxlen - 1).

Fixpoint read_bytes_loop (fuel : nat) (buf : bytes) (len : Z) : M Socket.t (option bytes) :=
  if len <=? 0 then mret (Some buf) else
  match fuel with
  | O => stop OutOfFuel
  | S fuel =>
    r ← sock_read len;
    match r with
    | RecvInterrupted => read_bytes_loop fuel buf len
    | RecvFailed => mret None
    | Received b =>
      if bool_decide (b = []) then mret None else
      check Assertion (zlen b <=? len);;
      read_bytes_loop fuel (buf ++ b) (len - zlen b)
    end
  end.
Definition read_bytes (len : Z) : M Socket.t (option bytes) :=
  s ← get; read_bytes_loop (S (length (Socket.incoming s))) [] len.

(** ** Text *)

(** [%zd]. *)
Definition format_zd (n : Z) : bytes :=
  let n := s64 n in
  if n <? 0 then 45 :: digits 20 (- n) else digits 20 n.

(** ["GET %s %zd %zd\n"] and ["PUT %s %zd\n"]. *)
Definition get_command (key : bytes) (start len : Z) : bytes :=
  [71; 69; 84; 32] ++ key ++ [32] ++ format_zd start ++ [32] ++ format_zd len ++ [10].
Definition put_command (key : bytes) (len : Z) : bytes :=
  [80; 85; 84; 32] ++ key ++ [32] ++ format_zd len ++ [10].

(** The place of a byte in a string that ends at a null byte. *)
Fixpoint strchr (str : bytes) (c : Z) : option Z :=
  match str with
  | [] => None
  | x :: str => if x =? c then Some 0 else if x =? 0 then None else Z.add 1 <$> strchr str c
  end.

(** ** Connections *)

(** The storage layer with the connections of this back end that are not in use and
    the sockets that are open. *)
Record SimpleStore := mkSimpleStore {
  store : StoreSys;
  fd_pool : list Z;
  sockets : gmap Z Socket.t;
}.
#[export] Instance SimpleStore_eta : Eta SimpleStore := fun x =>
  mkSimpleStore (store x) (fd_pool x) (sockets x).

Definition MAX_IDLE_CONNECTIONS : Z := 8.

(** What [socket] and [connect] do. *)
Inductive dial :=
  | NoSocket
  | Refused (fd : Z)
  | Connected (fd : Z) (s : Socket.t).

Definition on_store {A} (m : M StoreSys A) : M SimpleStore A := fun s =>
  match m (store s) with
  | Ok a b => Ok a (s <| store := b |>)
  | Stop e => Stop e
  end.

Definition on_fd {A} (fd : Z) (m : M Socket.t A) : M SimpleStore A := fun s =>
  match sockets s !! fd with
  | None => Stop Dangling
  | Some k =>
    match m k with
    | Ok a k' => Ok a (s <| sockets ::= <[fd := k']> |>)
    | Stop e => Stop e
    end
  end.

Definition close_fd (fd : Z) : M SimpleStore unit := modify (fun s => s <| sockets ::= delete fd |>).

(** A socket that could not be connected stays open. *)
Definition get_connection (d : dial) : M SimpleStore Z :=
  idle ← gets fd_pool;
  match idle with
  | fd :: idle => modify (fun s => s <| fd_pool := idle |>);; mret fd
  | [] =>
    match d with
    | NoSocket => mret (-1)
    | Refused fd => modify (fun s => s <| sockets ::= <[fd := Socket.mk [] [] []]> |>);; mret (-1)
    | Connected fd k => modify (fun s => s <| sockets ::= <[fd := k]> |>);; mret fd
    end
  end.

(** The connections that have waited longest are closed. *)
Fixpoint trim_pool (fuel : nat) : M SimpleStore unit :=
  idle ← gets fd_pool;
  match fuel, last idle with
  | S fuel, Some fd =>
    if MAX_IDLE_CONNECTIONS <? zlen idle then
      modify (fun s => s <| fd_pool := removelast idle |>);;
      close_fd fd;;
      trim_pool fuel
    else mret tt
  | _, _ => mret tt
  end.
Definition put_connection (fd : Z) : M SimpleStore unit :=
  modify (fun s => s <| fd_pool ::= cons fd |>);;
  idle ← gets fd_pool;
  trim_pool (length idle).

(** ** Requests *)

(** The object after the line [buf], of which the beginning has been read with it. *)
Definition read_object (fd : Z) (buf : bytes) (result : Z) : M SimpleStore (option bytes) :=
  match strchr buf 10 with
  | Some i =>
    let header_size := i + 1 in
    let data_bytes := Z.min (zlen buf - header_size) result in
    data ← assume OutOfBounds (slice buf header_size data_bytes);
    rest ← on_fd fd (read_bytes (result - data_bytes));
    mret (app data <$> rest)
  | None => on_fd fd (read_bytes result)
  end.

Definition simplestore_get (fd : Z) (async : option ptr) : M SimpleStore unit :=
  on_store (aupd async (fun a => a <| Async.result := -1 |>));;
  a ← on_store (aload async);
  key ← assume NullPointer (Async.key a);
  ok ← on_fd fd (write_data (get_command key (Async.start a) (Async.len a)));
  if negb ok then mret tt else
  line ← on_fd fd (read_line 256);
  match line with
  | None => mret tt
  | Some result_buf =>
    let result := atoi result_buf in
    if result <? 0 then mret tt else
    o ← read_object fd result_buf result;
    match o with
    | None => mret tt
    | Some data =>
      q ← on_store (lift (bluesky_string_new data));
      on_store (aupd async (fun a => a <| Async.data := Some q |> <| Async.result := 0 |>
                                       <| Async.range_done := true |>))
    end
  end.

Definition simplestore_put (fd : Z) (async : option ptr) : M SimpleStore unit :=
  on_store (aupd async (fun a => a <| Async.result := -1 |>));;
  a ← on_store (aload async);
  key ← assume NullPointer (Async.key a);
  str ← on_store (lift (load strs (Async.data a)));
  ok ← on_fd fd (write_data (put_command key (RCStr.len str)));
  if negb ok then mret tt else
  data ← on_store (lift (str_read (Async.data a) 0 (RCStr.len str)));
  ok ← on_fd fd (write_data data);
  if negb ok then mret tt else
  line ← on_fd fd (read_line 256);
  match line with
  | None => mret tt
  | Some result_buf =>
    if negb (atoi result_buf =? 0) then mret tt else
    on_store (aupd async (fun a => a <| Async.result := 0 |>))
  end.

(** The end of a task: the connection can be used again if all went well. *)
Definition simplestore_finish (fd : Z) (async : option ptr) : M SimpleStore unit :=
  a ← on_store (aload async);
  let success := Async.result a =? 0 in
  on_store (bluesky_store_async_mark_complete async;; bluesky_store_async_unref async);;
  if success then put_connection fd else close_fd fd.

(** A task of the thread pool. *)
Definition simplestore_task (async : option ptr) (d : dial) : M SimpleStore unit :=
  on_store (aupd async (fun a => a <| Async.status := ASYNC_RUNNING |>));;
  fd ← get_connection d;
  if fd <? 0 then
    on_store (bluesky_store_async_mark_complete async;; bluesky_store_async_unref async)
  else
  a ← on_store (aload async);
  (match Async.op a with
   | STORE_OP_GET => simplestore_get fd async
   | STORE_OP_PUT => simplestore_put fd async
   | _ => mret tt
   end);;
  simplestore_finish fd async.

(** ** The store *)

(** [g_strsplit(path, ":", 0)]: no part of the empty string. *)
Fixpoint split_colon (part : bytes) (path : bytes) : list bytes :=
  match path with
  | [] => [part]
  | c :: path => if c =? 58 then part :: split_colon [] path else split_colon (part ++ [c]) path
  end.
Definition g_strsplit (path : bytes) : list bytes :=
  match path with [] => [] | _ => split_colon [] path end.

(** ["127.0.0.1"] and ["9541"]. *)
Definition default_host : bytes := [49; 50; 55; 46; 48; 46; 48; 46; 49].
Definition default_port : bytes := [57; 53; 52; 49].

Definition simplestore_target (path : option bytes) : bytes * bytes :=
  match path with
  | None => (default_host, default_port)
  | Some path =>
    match g_strsplit path with
    | [] => (default_host, default_port)
    | [host] => (host, default_port)
    | host :: port :: _ => (host, port)
    end
  end.

(** No connections at first; [None] if the name is not known. *)
Definition simplestore_new (path : option bytes) (getaddrinfo : bytes -> bytes -> bool) (s : StoreSys)
    : option SimpleStore :=
  let '(host, port) := simplestore_target path in
  if getaddrinfo host port then Some (mkSimpleStore s [] ∅) else None.
