(* ===== verification/SimpleSockets.v ===== *)
(** * Transfers over sockets (src/bluesky/store-simple.c)

    However the bytes of a stream are cut into pieces, the loops over [read] and
    [write] pass them on completely and in order. *)

From S2P Require Import Prelude State SimpleStore.
From Stdlib Require Import ZArith Lia.
From stdpp Require Import base numbers gmap option list.

Open Scope Z_scope.

(** The reads return the bytes [b], in pieces of any size, with interruptions. *)
Inductive delivers : list recv -> bytes -> Prop :=
  | delivers_nil : delivers [] []
  | delivers_interrupted evs b : delivers evs b -> delivers (RecvInterrupted :: evs) b
  | delivers_piece d evs b : d <> [] -> delivers evs b -> delivers (Received d :: evs) (d ++ b).

(** Writes do not fail. *)
Definition sends (evs : list send) : Prop := Forall (fun e => e <> SendFailed) evs.

(** The other side ends the connection some time, or it breaks. *)
Definition ends (evs : list recv) : Prop := Received [] ∈ evs \/ RecvFailed ∈ evs.

Lemma delivers_not_nil evs b : delivers evs b -> b <> [] -> evs <> [].
Proof. by destruct 1. Qed.

(** ** One read *)

Lemma sock_read_piece k n evs b :
  Socket.incoming k = evs -> delivers evs b -> b <> [] -> 0 < n ->
  wp (sock_read n) k (fun r k' => exists evs', k' = k <| Socket.incoming := evs' |> /\
    match r with
    | RecvInterrupted => delivers evs' b /\ (length evs' < length evs)%nat
    | Received d => exists b', d <> [] /\ zlen d <= n /\ b = d ++ b' /\ delivers evs' b' /\
        ((length evs' < length evs)%nat \/ zlen d = n /\ length evs' = length evs)
    | RecvFailed => False
    end).
Proof.
  intros Hk Hd Hb Hn. unfold sock_read, wp. rewrite Hk.
  destruct Hd as [|evs b Hd|d evs b Hne Hd]; [done|exists evs; split_and!; [done|done|simpl; lia]|].
  rewrite bool_decide_eq_false_2 by done. destruct (Z.leb_spec (zlen d) n) as [Hle|Hgt].
  { exists evs. split; [done|]. exists b. split_and!; [done|lia|done|done|left; simpl; lia]. }
  exists (Received (drop (Z.to_nat n) d) :: evs). split; [done|].
  exists (drop (Z.to_nat n) d ++ b).
  assert (Hl : length (take (Z.to_nat n) d) = Z.to_nat n) by (rewrite length_take; lia).
  split_and!.
  - intros E. rewrite E in Hl. simpl in Hl. lia.
  - lia.
  - by rewrite (assoc_L (++)), take_drop.
  - constructor; [|done]. intros E%(f_equal length). rewrite length_drop in E. simpl in E. lia.
  - right. split; [lia|done].
Qed.

Lemma sock_read_any k n evs :
  Socket.incoming k = evs -> ends evs -> 0 < n ->
  wp (sock_read n) k (fun r k' => exists evs', k' = k <| Socket.incoming := evs' |> /\
    match r with
    | RecvInterrupted => ends evs' /\ (length evs' < length evs)%nat
    | Received d => ends evs' /\ zlen d <= n /\ (d = [] \/
        ((length evs' < length evs)%nat \/ zlen d = n /\ length evs' = length evs))
    | RecvFailed => True
    end).
Proof.
  intros Hk He Hn. unfold sock_read, wp. rewrite Hk. destruct evs as [|[d| |] evs].
  - by destruct He as [?%not_elem_of_nil|?%not_elem_of_nil].
  - assert (Hne : d <> [] -> ends evs).
    { intros Hne. destruct He as [[[= <-]|?]%elem_of_cons|[|?]%elem_of_cons]; [done|by left|done|by right]. }
    case_bool_decide as E; [subst d; exists (Received [] :: evs); split_and!; [destruct k; simpl in *; by subst|done|simpl; lia|by left]|].
    destruct (Z.leb_spec (zlen d) n) as [Hle|Hgt].
    + exists evs. split; [done|]. split_and!; [by apply Hne|lia|right; left; simpl; lia].
    + exists (Received (drop (Z.to_nat n) d) :: evs). split; [done|]. split_and!.
      * destruct (Hne E) as [?|?]; [left|right]; by right.
      * rewrite length_take. lia.
      * right. right. rewrite length_take. split; [lia|done].
  - exists evs. split_and!; [done| |simpl; lia].
    destruct He as [[|?]%elem_of_cons|[|?]%elem_of_cons]; [done|by left|done|by right].
  - by exists evs.
Qed.

(** ** Writing *)

Lemma write_data_loop_ok fuel buf k :
  sends (Socket.sending k) -> (length (Socket.sending k) < fuel)%nat ->
  wp (write_data_loop fuel buf) k (fun ok k' => ok = true /\ exists evs, sends evs /\
    k' = k <| Socket.sending := evs |> <| Socket.sent ::= fun l => l ++ buf |>).
Proof.
  revert buf k. induction fuel as [|fuel IH]; intros buf k Hs Hf; [lia|]. cbn [write_data_loop].
  destruct (Z.leb_spec (zlen buf) 0) as [H0|H0].
  { assert (buf = []) as -> by (destruct buf; [done|simpl in H0; lia]). wp_step. split; [done|].
    exists (Socket.sending k). split; [done|]. destruct k. unfold setf. simpl. by rewrite app_nil_r. }
  wp_step. unfold sock_write at 1. unfold wp at 1. destruct (Socket.sending k) as [|e evs] eqn:Ek.
  - rewrite Nat2Z.id, drop_all.
    assert (E : write_data_loop fuel [] = mret true) by (by destruct fuel). rewrite E. wp_step. split; [done|].
    exists []. split; [constructor|]. destruct k. simpl in *. by subst.
  - apply Forall_cons in Hs as [He Hs]. simpl in Hf. destruct e as [n| |]; [| |done].
    + eapply wp_mono; [apply IH; [done|simpl; lia]|]. intros ? k' (-> & evs' & Hs' & ->). split; [done|].
      exists evs'. split; [done|]. unfold setf. simpl. f_equal. by rewrite <- (assoc_L (++)), take_drop.
    + eapply wp_mono; [apply IH; [done|simpl; lia]|]. intros ? k' (-> & evs' & Hs' & ->). split; [done|].
      by exists evs'.
Qed.

Lemma write_data_ok buf k :
  sends (Socket.sending k) ->
  wp (write_data buf) k (fun ok k' => ok = true /\ exists evs, sends evs /\
    k' = k <| Socket.sending := evs |> <| Socket.sent ::= fun l => l ++ buf |>).
Proof. intros Hs. unfold write_data. wp_step. wp_step. by apply write_data_loop_ok; [|lia]. Qed.

Lemma write_data_loop_any fuel buf k :
  (length (Socket.sending k) < fuel)%nat ->
  wp (write_data_loop fuel buf) k (fun _ k' => Socket.incoming k' = Socket.incoming k).
Proof.
  revert buf k. induction fuel as [|fuel IH]; intros buf k Hf; [lia|]. cbn [write_data_loop].
  destruct (zlen buf <=? 0); [by wp_step|]. wp_step. unfold sock_write at 1. unfold wp at 1.
  destruct (Socket.sending k) as [|e evs] eqn:Ek.
  - rewrite Nat2Z.id, drop_all.
    assert (E : write_data_loop fuel [] = mret true) by (by destruct fuel). rewrite E. by wp_step.
  - simpl in Hf. destruct e; [| |by wp_step];
      (eapply wp_mono; [apply IH; simpl; lia|by intros ? k' ->]).
Qed.

Lemma write_data_any buf k :
  wp (write_data buf) k (fun _ k' => Socket.incoming k' = Socket.incoming k).
Proof. unfold write_data. wp_step. wp_step. apply write_data_loop_any. lia. Qed.

(** ** Reading a line *)

Lemma prefix_of_line (buf b l tail : bytes) :
  buf ++ b = l ++ 10 :: tail -> 10 ∉ l ->
  (10 ∈ buf -> exists t1, buf = l ++ 10 :: t1 /\ tail = t1 ++ b) /\ (10 ∉ buf -> zlen buf <= zlen l /\ b <> []).
Proof.
  intros E Hl. apply app_eq_inv in E as [(k & -> & Ek)|(k & -> & ->)].
  - destruct k as [|c k]; simpl in Ek.
    + subst b. rewrite app_nil_r. split; [done|]. intros _. split; [lia|done].
    + injection Ek as <- ->. split; [by exists k|]. intros Hn. exfalso. apply Hn, elem_of_app. right. by left.
  - split; [intros Hin; exfalso; apply Hl, elem_of_app; by left|]. intros _. rewrite length_app. split; [lia|].
    by destruct k.
Qed.

(** What follows from the state of the socket, apart from what it has still to receive. *)
Lemma wp_after_read {A} (m : M Socket.t A) k evs (P : A -> list recv -> Prop) :
  wp m (k <| Socket.incoming := evs |>) (fun r k' => exists evs', P r evs' /\
    k' = k <| Socket.incoming := evs |> <| Socket.incoming := evs' |>) ->
  wp m (k <| Socket.incoming := evs |>) (fun r k' => exists evs', P r evs' /\ k' = k <| Socket.incoming := evs' |>).
Proof. intros Hw. eapply wp_mono; [exact Hw|]. intros r k' (evs' & ? & ->). by exists evs'. Qed.

Lemma read_line_loop_ok fuel buf maxlen k evs b l tail :
  Socket.incoming k = evs -> delivers evs b -> buf ++ b = l ++ 10 :: tail -> 10 ∉ l -> zlen l < maxlen ->
  10 ∈ buf \/ (length evs < fuel)%nat -> zlen buf <= maxlen ->
  wp (read_line_loop fuel buf maxlen) k (fun r k' => exists evs',
    (exists t1 t2, r = Some (l ++ 10 :: t1) /\ tail = t1 ++ t2 /\ delivers evs' t2) /\
    k' = k <| Socket.incoming := evs' |>).
Proof.
  revert buf k evs b. induction fuel as [|fuel IH]; intros buf k evs b Hk Hd E Hl Hm Hf Hbuf;
    destruct (prefix_of_line _ _ _ _ E Hl) as [Hin Hout]; cbn [read_line_loop]; case_bool_decide as H10.
  1, 3: destruct (Hin H10) as (t1 & -> & Ht); wp_step; exists evs; split; [by exists t1, b|by destruct k; simpl in *; subst].
  { destruct Hf as [?|?]; [done|lia]. }
  destruct Hf as [?|Hf]; [done|]. destruct (Hout H10) as [Hlb Hb].
  rewrite (proj2 (Z.eqb_neq _ _)) by lia. wp_step.
  eapply wp_mono; [apply (sock_read_piece k _ evs b); [done|done|done|lia]|]. intros r k' (evs' & -> & Hr).
  destruct r as [d| |]; [|by apply wp_after_read; eapply (IH buf _ evs' b); try done; [apply Hr|right; lia]|done].
  destruct Hr as (b' & Hne & Hlen & -> & Hd' & Hlt). rewrite bool_decide_eq_false_2 by done. wp_step.
  wp_step; [apply Z.leb_le; lia|]. apply wp_after_read. eapply (IH (buf ++ d) _ evs' b'); try done.
  - by rewrite <- (assoc_L (++)).
  - destruct Hlt as [?|[Hfull _]]; [right; lia|left]. destruct (decide (10 ∈ buf ++ d)) as [|Hno]; [done|].
    rewrite (assoc_L (++)) in E. destruct (prefix_of_line _ _ _ _ E Hl) as [_ Ho]. destruct (Ho Hno) as [Hc _].
    rewrite length_app in Hc. lia.
  - rewrite length_app. lia.
Qed.

Lemma read_line_ok maxlen k evs l tail :
  Socket.incoming k = evs -> delivers evs (l ++ 10 :: tail) -> 10 ∉ l -> zlen l < maxlen - 1 ->
  wp (read_line maxlen) k (fun r k' => exists evs',
    (exists t1 t2, r = Some (l ++ 10 :: t1) /\ tail = t1 ++ t2 /\ delivers evs' t2) /\
    k' = k <| Socket.incoming := evs' |>).
Proof.
  intros Hk Hd Hl Hm. unfold read_line. wp_step. wp_step. rewrite Hk.
  eapply (read_line_loop_ok _ [] _ k evs); try done; [right; lia|simpl; lia].
Qed.

Lemma read_line_loop_any fuel buf maxlen k evs :
  Socket.incoming k = evs -> ends evs -> zlen buf = maxlen \/ (length evs < fuel)%nat -> zlen buf <= maxlen ->
  wp (read_line_loop fuel buf maxlen) k (fun r k' => exists evs', match r with
    | Some line => zlen line <= maxlen /\ ends evs'
    | None => True
    end /\ k' = k <| Socket.incoming := evs' |>).
Proof.
  assert (Hk0 : forall k evs, Socket.incoming k = evs -> k = k <| Socket.incoming := evs |>) by (intros [] ? <-; done).
  revert buf k evs. induction fuel as [|fuel IH]; intros buf k evs Hk He Hf Hb; cbn [read_line_loop]; case_bool_decide.
  1, 3: wp_step; exists evs; split; [by split|by apply Hk0].
  - destruct (Z.eqb_spec (zlen buf) maxlen); [wp_step; exists evs; split; [done|by apply Hk0]|]. destruct Hf; [done|lia].
  - destruct (Z.eqb_spec (zlen buf) maxlen); [wp_step; exists evs; split; [done|by apply Hk0]|].
    destruct Hf as [?|Hf]; [done|]. wp_step.
    eapply wp_mono; [apply (sock_read_any k _ evs); [done|done|lia]|]. intros r k' (evs' & -> & Hr).
    destruct r as [d| |]; [|by apply wp_after_read; eapply (IH buf _ evs'); try done; [apply Hr|right; lia]|by wp_step; exists evs'].
    destruct Hr as (He' & Hlen & Hd). case_bool_decide as Ed; [wp_step; by exists evs'|].
    wp_step. wp_step; [apply Z.leb_le; lia|]. apply wp_after_read. eapply (IH (buf ++ d) _ evs'); try done.
    + rewrite length_app. destruct Hd as [?|[?|[? _]]]; [done|right; lia|left; lia].
    + rewrite length_app. lia.
Qed.

Lemma read_line_any maxlen k :
  ends (Socket.incoming k) -> 1 <= maxlen ->
  wp (read_line maxlen) k (fun r k' => exists evs', match r with
    | Some line => zlen line < maxlen /\ ends evs'
    | None => True
    end /\ k' = k <| Socket.incoming := evs' |>).
Proof.
  intros He Hm. unfold read_line. wp_step. wp_step.
  eapply wp_mono; [eapply (read_line_loop_any _ [] (maxlen - 1) k); [done|done|right; lia|simpl; lia]|].
  intros r k' (evs' & Hr & ->). exists evs'. split; [|done]. destruct r; [|done]. destruct Hr. split; [lia|done].
Qed.

(** ** Reading a number of bytes *)

Lemma read_bytes_loop_ok fuel buf k evs b t :
  Socket.incoming k = evs -> delivers evs (b ++ t) -> b = [] \/ (length evs < fuel)%nat ->
  wp (read_bytes_loop fuel buf (zlen b)) k (fun r k' => exists evs',
    (r = Some (buf ++ b) /\ delivers evs' t) /\ k' = k <| Socket.incoming := evs' |>).
Proof.
  revert buf k evs b. induction fuel as [|fuel IH]; intros buf k evs b Hk Hd Hf; cbn [read_bytes_loop];
    (destruct (Z.leb_spec (zlen b) 0) as [H0|H0];
     [assert (b = []) as -> by (destruct b; [done|simpl in H0; lia]); wp_step; exists evs;
      split_and!; [by rewrite app_nil_r|done|by destruct k; simpl in *; subst]|]).
  { destruct Hf as [->|?]; [simpl in H0; lia|lia]. }
  destruct Hf as [->|Hf]; [simpl in H0; lia|]. wp_step.
  eapply wp_mono; [apply (sock_read_piece k _ evs (b ++ t)); [done|done|by destruct b|lia]|]. intros r k' (evs' & -> & Hr).
  destruct r as [d| |]; [|by apply wp_after_read; eapply (IH buf _ evs' b); try done; [apply Hr|right; lia]|done].
  destruct Hr as (b' & Hne & Hlen & Eb & Hd' & Hlt). rewrite bool_decide_eq_false_2 by done. wp_step.
  wp_step; [apply Z.leb_le; lia|].
  apply app_eq_inv in Eb as [(b1 & -> & ->)|(b1 & -> & ->)].
  - replace (zlen (d ++ b1) - zlen d) with (zlen b1) by (rewrite length_app; lia). rewrite (assoc_L (++)).
    apply wp_after_read. eapply (IH (buf ++ d) _ evs' b1); try done. rewrite length_app in Hlt.
    destruct Hlt as [?|[E _]]; [right; lia|left]. destruct b1; [done|simpl in E; lia].
  - rewrite length_app in Hlen. assert (b1 = []) as -> by (destruct b1; [done|simpl in Hlen; lia]).
    rewrite app_nil_r in *. replace (zlen b - zlen b) with (zlen (@nil Z)) by (simpl; lia).
    apply wp_after_read. eapply wp_mono; [eapply (IH (buf ++ b) _ evs' []); [done|done|by left]|].
    by rewrite app_nil_r.
Qed.

Lemma read_bytes_ok k evs b t :
  Socket.incoming k = evs -> delivers evs (b ++ t) ->
  wp (read_bytes (zlen b)) k (fun r k' => exists evs',
    (r = Some b /\ delivers evs' t) /\ k' = k <| Socket.incoming := evs' |>).
Proof.
  intros Hk Hd. unfold read_bytes. wp_step. wp_step. rewrite Hk.
  eapply (read_bytes_loop_ok _ [] k evs b t); [done|done|right; lia].
Qed.

Lemma read_bytes_loop_any fuel buf len k evs :
  Socket.incoming k = evs -> ends evs -> len <= 0 \/ (length evs < fuel)%nat ->
  wp (read_bytes_loop fuel buf len) k (fun r k' => exists evs', (is_Some r -> ends evs') /\
    k' = k <| Socket.incoming := evs' |>).
Proof.
  revert buf len k evs. induction fuel as [|fuel IH]; intros buf len k evs Hk He Hf; cbn [read_bytes_loop];
    (destruct (Z.leb_spec len 0); [wp_step; exists evs; split; [done|by destruct k; simpl in *; subst]|]); [lia|]. wp_step.
  eapply wp_mono; [apply (sock_read_any k _ evs); [done|done|lia]|]. intros r k' (evs' & -> & Hr).
  destruct r as [d| |].
  - destruct Hr as (He' & Hlen & Hd). case_bool_decide as Ed; [wp_step; by exists evs'|].
    wp_step. wp_step; [apply Z.leb_le; lia|]. apply wp_after_read. eapply (IH _ _ _ evs'); try done.
    destruct Hd as [?|[?|[? _]]]; [done|right; lia|left; lia].
  - apply wp_after_read. by eapply (IH buf _ _ evs'); try done; [apply Hr|right; lia].
  - wp_step. exists evs'. split; [by intros []|done].
Qed.

Lemma read_bytes_any len k :
  ends (Socket.incoming k) -> wp (read_bytes len) k (fun r k' => exists evs', (is_Some r -> ends evs') /\
    k' = k <| Socket.incoming := evs' |>).
Proof. intros He. unfold read_bytes. wp_step. wp_step. eapply read_bytes_loop_any; [done|done|right; lia]. Qed.
