(* ===== verification/SimpleServer.v ===== *)
(** * The simple storage server (src/simplestore/server.c)

    A process of the server reads commands from its connection, one on a line, and
    carries them out on the files of a directory. *)

From S2P Require Import Prelude State CacheFiles LogThread Store SimpleStore.
From Stdlib Require Import ZArith Lia.
From stdpp Require Import base numbers gmap option list.

Open Scope Z_scope.

Definition MAX_ARGS : Z := 4.
Definition MAX_CMD_LEN : Z := 4096.
Definition MAX_OBJECT_SIZE : Z := Z.shiftl 256 20.

(** The system: the directories that can be opened, with their sizes, the files that
    can be created, the memory there is, how many bytes a read of a file returns,
    and after how many bytes a file can grow no further. *)
Class ServerOS := {
  dir_size : bytes -> option Z;
  creat_ok : bytes -> bool;
  malloc_ok : Z -> bool;
  read_count : Z -> Z -> Z;
  read_count_ok : forall pos n, 0 < n -> 0 < read_count pos n <= n;
  disk_full : bytes -> bytes -> option nat;
}.

(** A process: the files, which it shares with others, its connection, and its
    buffer. *)
Record Server := mkServer {
  server_files : gmap bytes bytes;
  client : Socket.t;
  cmdbuf : bytes;
  buflen : Z;
}.
#[export] Instance Server_eta : Eta Server := fun x =>
  mkServer (server_files x) (client x) (cmdbuf x) (buflen x).

Definition on_client {A} (m : M Socket.t A) : M Server A := fun s =>
  match m (client s) with
  | Ok a k => Ok a (s <| client := k |>)
  | Stop e => Stop e
  end.

(** ** Names of files *)

Fixpoint normalize_path (path : bytes) : bytes :=
  match path with
  | [] => []
  | c :: path =>
    (if c =? 47 then [95; 115] else if c =? 95 then [95; 117] else [c]) ++ normalize_path path
  end.

(** ** Commands *)

(** ["-1\n"] and ["0\n"]. *)
Definition response_error : bytes := [45; 49; 10].
Definition response_ok : bytes := [48; 10].

Section server.
Context `{ServerOS}.

(** [datalen] bytes from [pos] on, with zeros for those that cannot be read; a
    directory cannot.  [false] if the process ends. *)
Fixpoint send_file (fuel : nat) (contents : option bytes) (pos datalen : Z) : M Server bool :=
  if datalen <=? 0 then mret true else
  match fuel with
  | O => stop OutOfFuel
  | S fuel =>
    let needed := Z.min datalen 65536 in
    let available := match contents with Some b => drop (Z.to_nat pos) b | None => [] end in
    let buf := match available with
               | [] => replicate (Z.to_nat needed) 0
               | _ => take (Z.to_nat (read_count pos needed)) available
               end in
    ok ← on_client (write_data buf);
    if negb ok then mret false else
    send_file fuel contents (pos + zlen buf) (datalen - zlen buf)
  end.

(** What is sent of an object: its size from [start] on, at most [len]. *)
Definition range_size (st_size start len : Z) : Z :=
  let datalen := if 0 <? start then (if st_size <=? start then 0 else st_size - start) else st_size in
  if (0 <? len) && (len <? datalen) then len else datalen.

Definition cmd_get (path : bytes) (start len : Z) : M Server bool :=
  files ← gets server_files;
  match files !! path, dir_size path with
  | Some contents, _ =>
    let datalen := range_size (zlen contents) start len in
    ok ← on_client (write_data (format_zd datalen ++ [10]));
    if negb ok then mret false else
    send_file (Z.to_nat datalen) (Some contents) (if zlen contents <=? start then 0 else start) datalen
  | None, Some size =>
    let datalen := range_size size start len in
    ok ← on_client (write_data (format_zd datalen ++ [10]));
    if negb ok then mret false else
    send_file (Z.to_nat datalen) None 0 datalen
  | None, None => on_client (write_data response_error)
  end.

(** The rest of the object; [None] if the process ends. *)
Fixpoint read_rest (fuel : nat) (buf : bytes) (object_size : Z) : M Socket.t (option bytes) :=
  if object_size <=? zlen buf then mret (Some buf) else
  match fuel with
  | O => stop OutOfFuel
  | S fuel =>
    r ← sock_read (object_size - zlen buf);
    match r with
    | RecvInterrupted => read_rest fuel buf object_size
    | RecvFailed => mret None
    | Received b =>
      if bool_decide (b = []) then mret None else
      check Assertion (zlen b <=? object_size - zlen buf);;
      read_rest fuel (buf ++ b) object_size
    end
  end.

Definition cmd_put (path : bytes) (buf : bytes) (object_size : Z) : M Server bool :=
  o ← on_client (k ← get; read_rest (S (length (Socket.incoming k))) buf object_size);
  match o with
  | None => mret false
  | Some data =>
    if creat_ok path then
      match disk_full path data with
      | Some n => modify (fun s => s <| server_files ::= <[path := take n data]> |>);; mret false
      | None =>
        modify (fun s => s <| server_files ::= <[path := data]> |>);;
        on_client (write_data response_ok)
      end
    else on_client (write_data response_error)
  end.

(** ** The connection *)

(** The place of a byte among the first [n] bytes; outside if they are not all in
    the buffer. *)
Definition memchr (buf : bytes) (c n : Z) : option (option Z) :=
  match list_find (eq c) (take (Z.to_nat n) buf) with
  | Some (i, _) => Some (Some (Z.of_nat i))
  | None => if n <=? zlen buf then Some None else None
  end.

(** [memmove(buf, buf + from, n)]. *)
Definition memmove (buf : bytes) (from n : Z) : option bytes :=
  b ← slice buf from n; Some (b ++ drop (Z.to_nat n) buf).

Definition is_whitespace (c : Z) : bool := (c =? 32) || (c =? 9) || (c =? 13) || (c =? 10).

(** The string before the null byte. *)
Fixpoint c_string (buf : bytes) : bytes :=
  match buf with
  | [] => []
  | c :: buf => if c =? 0 then [] else c :: c_string buf
  end.

(** The words [strtok] finds, and what it leaves of the string: the byte after a
    word is a null byte. *)
Fixpoint strtok_words (word : bytes) (str : bytes) : list bytes :=
  match str with
  | [] => match word with [] => [] | _ => [word] end
  | c :: str =>
    if is_whitespace c
    then match word with [] => strtok_words [] str | _ => word :: strtok_words [] str end
    else strtok_words (word ++ [c]) str
  end.
Fixpoint strtok_marks (in_word : bool) (str : bytes) : bytes :=
  match str with
  | [] => []
  | c :: str =>
    if is_whitespace c
    then (if in_word then 0 else c) :: strtok_marks false str
    else c :: strtok_marks true str
  end.

Inductive command := GET | PUT | DELETE.

(** The command and its path and numbers; nothing for other commands. *)
Definition parse_command (args : list bytes) : option (command * bytes * Z * Z) :=
  match args with
  | [name; path; a; b] => if bool_decide (name = [71; 69; 84]) then Some (GET, path, atoi a, atoi b) else None
  | [name; path; a] => if bool_decide (name = [80; 85; 84]) then Some (PUT, path, atoi a, 0) else None
  | [name; path] => if bool_decide (name = [68; 69; 76; 69; 84; 69]) then Some (DELETE, path, 0, 0) else None
  | _ => None
  end.

(** What comes after a turn of the loop: another one, the end of the process, or a
    wait for the client. *)
Inductive turn := Again | Over | Waiting.

Definition read_command : M Server turn :=
  s ← get;
  if buflen s =? MAX_CMD_LEN then mret Over else
  match Socket.incoming (client s) with
  | [] => mret Waiting
  | _ =>
    r ← on_client (sock_read (MAX_CMD_LEN - buflen s));
    match r with
    | RecvInterrupted => mret Again
    | RecvFailed => mret Over
    | Received b =>
      if bool_decide (b = []) then mret Over else
      check Assertion (zlen b <=? MAX_CMD_LEN - buflen s);;
      modify (fun s => s <| cmdbuf ::= fun buf => write_at buf (Z.to_nat (buflen s)) b |>
                         <| buflen ::= Z.add (zlen b) |>);;
      mret Again
    end
  end.

(** The part of an object that was read with its command of [cmdlen] bytes. *)
Definition take_object (cmdlen object_size : Z) : M Server bytes :=
  s ← get;
  let data_buflen := if object_size <? buflen s then object_size else buflen s in
  data ← assume OutOfBounds (slice (cmdbuf s) 0 data_buflen);
  (if data_buflen <? buflen s then
     buf ← assume OutOfBounds (memmove (cmdbuf s) data_buflen (buflen s - data_buflen));
     modify (fun s => s <| cmdbuf := buf |> <| buflen ::= fun n => u64 (n - cmdlen) |>)
   else modify (fun s => s <| buflen := 0 |>));;
  mret data.

Definition run_command (cmdlen : Z) (cmd : command * bytes * Z * Z) : M Server turn :=
  let '(c, path, a, b) := cmd in
  let path := normalize_path path in
  match c with
  | GET =>
    alive ← cmd_get path (u64 a) b;
    mret (if (alive : bool) then Again else Over)
  | PUT =>
    let object_size := u64 a in
    if MAX_OBJECT_SIZE <? object_size then mret Over else
    if negb (malloc_ok object_size) then mret Over else
    data ← take_object cmdlen object_size;
    alive ← cmd_put path data object_size;
    mret (if (alive : bool) then Again else Over)
  | DELETE => mret Again
  end.

(** A complete line in the buffer, its newline at [cmdlen - 1]. *)
Definition handle_line (cmdlen : Z) : M Server turn :=
  buf ← gets cmdbuf;
  let str := c_string (take (Z.to_nat (cmdlen - 1)) buf) in
  let args := strtok_words [] str in
  check OutOfBounds (zlen args <=? MAX_ARGS);;
  let marked := strtok_marks false str in
  modify (fun s => s <| cmdbuf ::= fun buf =>
    write_at (write_at buf (Z.to_nat (cmdlen - 1)) [0]) 0 marked |>);;
  match parse_command args with
  | None => mret Over
  | Some cmd =>
    s ← get;
    (if cmdlen <? buflen s then
       buf ← assume OutOfBounds (memmove (cmdbuf s) cmdlen (buflen s - cmdlen));
       modify (fun s => s <| cmdbuf := buf |>)
     else mret tt);;
    modify (fun s => s <| buflen ::= fun n => n - cmdlen |>);;
    run_command cmdlen cmd
  end.

Definition serve_turn : M Server turn :=
  s ← get;
  o ← assume OutOfBounds (memchr (cmdbuf s) 10 (buflen s));
  match o with
  | None => read_command
  | Some i => handle_line (i + 1)
  end.

(** [true] if the process waits for the client; every turn takes bytes or an event
    from the connection or a line from the buffer. *)
Fixpoint handle_connection (fuel : nat) : M Server bool :=
  match fuel with
  | O => stop OutOfFuel
  | S fuel =>
    t ← serve_turn;
    match t with
    | Again => handle_connection fuel
    | Over => mret false
    | Waiting => mret true
    end
  end.
End server.
