(* ===== verification/SimpleServe.v ===== *)
(** * What the simple storage server answers (src/simplestore/server.c)

    A process that waits for its client carries out one command of the client, in
    whatever pieces it arrives, answers, and waits again. *)

From S2P Require Import Prelude State CacheFiles LogThread Names SimpleStore SimpleSockets SimpleServer.
From Stdlib Require Import ZArith Lia.
From stdpp Require Import base numbers gmap option list.

Open Scope Z_scope.

(** ** Text *)

(** A word of a command. *)
Definition plain (c : Z) : Prop := is_whitespace c = false /\ c <> 0.
Definition word (w : bytes) : Prop := w <> [] /\ Forall plain w.

Lemma format_zd_number n :
  0 <= n < 2 ^ 31 -> Forall (fun c => 48 <= c <= 57) (format_zd n) /\ format_zd n <> [] /\
  forall t, (forall c, head t = Some c -> ~ 48 <= c <= 57) -> atoi (format_zd n ++ t) = n.
Proof.
  intros Hn. unfold format_zd. rewrite s64_id, (proj2 (Z.ltb_ge n 0)) by lia.
  destruct (digits_ok 20 n) as [Hd Ha]; [simpl; lia|]. pose proof (digits_not_nil 19 n) as Hne.
  split_and!; [done|done|]. intros t Ht. rewrite atoi_number by done. rewrite Ha, s32_id by lia. lia.
Qed.

Lemma format_zd_word n : 0 <= n < 2 ^ 31 -> word (format_zd n).
Proof.
  intros Hn. destruct (format_zd_number n Hn) as (Hd & Hne & _). split; [done|].
  eapply Forall_impl; [exact Hd|]. intros c Hc. cbv beta in Hc. unfold plain, is_whitespace.
  rewrite (proj2 (Z.eqb_neq c 32)), (proj2 (Z.eqb_neq c 9)), (proj2 (Z.eqb_neq c 13)), (proj2 (Z.eqb_neq c 10)) by lia.
  split; [done|lia].
Qed.

Lemma atoi_format_zd n : 0 <= n < 2 ^ 31 -> atoi (format_zd n) = n.
Proof. intros Hn. rewrite <- (app_nil_r (format_zd n)). by apply format_zd_number. Qed.

Lemma strtok_word w a rest :
  Forall plain a -> strtok_words w (a ++ rest) = strtok_words (w ++ a) rest.
Proof.
  intros Ha. revert w. induction Ha as [|c a [Hc _] Ha IH]; intros w; [by rewrite app_nil_r|].
  simpl. rewrite Hc, IH, <- (assoc_L (++)). done.
Qed.

Lemma strtok_first w rest : word w -> strtok_words [] (w ++ 32 :: rest) = w :: strtok_words [] rest.
Proof. intros [Hne Hw]. rewrite strtok_word by done. simpl. by destruct w. Qed.

Lemma strtok_last w : word w -> strtok_words [] w = [w].
Proof. intros [Hne Hw]. rewrite <- (app_nil_r w), strtok_word by done. simpl. rewrite app_nil_r. by destruct w. Qed.

Lemma length_strtok_marks b str : length (strtok_marks b str) = length str.
Proof. revert b. induction str as [|c str IH]; intros b; [done|]. simpl. destruct (is_whitespace c); simpl; by rewrite IH. Qed.

Lemma c_string_plain str : 0 ∉ str -> c_string str = str.
Proof.
  induction str as [|c str IH]; intros Hn; [done|]. apply not_elem_of_cons in Hn as [Hc Hn]. simpl.
  rewrite (proj2 (Z.eqb_neq c 0)) by done. by rewrite IH.
Qed.

(** ** Lines *)

(** A line without its newline: a name and its arguments. *)
Fixpoint line (args : list bytes) : bytes :=
  match args with
  | [] => []
  | [w] => w
  | w :: args => w ++ 32 :: line args
  end.

Lemma strtok_line args : Forall word args -> strtok_words [] (line args) = args.
Proof.
  induction args as [|w args IH]; intros Hw; [done|]. apply Forall_cons in Hw as [Hw Hargs].
  destruct args as [|w' args]; [by apply strtok_last|]. cbn [line]. rewrite strtok_first by done. f_equal. by apply IH.
Qed.

Lemma line_plain args c : Forall word args -> c ∈ line args -> c = 32 \/ plain c.
Proof.
  induction args as [|w args IH]; intros Hw Hc; [by apply not_elem_of_nil in Hc|].
  apply Forall_cons in Hw as [[_ Hw] Hargs]. rewrite Forall_forall in Hw.
  destruct args as [|w' args]; [right; by apply Hw|].
  cbn [line] in Hc. apply elem_of_app in Hc as [Hc|Hc]; [right; by apply Hw|].
  apply elem_of_cons in Hc as [->|Hc]; [by left|by apply IH].
Qed.

Lemma line_clean args : Forall word args -> (10 ∉ line args) /\ (0 ∉ line args).
Proof.
  intros Hw. split; intros Hin; destruct (line_plain _ _ Hw Hin) as [?|[Hc Hz]]; done.
Qed.

Definition name_get : bytes := [71; 69; 84].
Definition name_put : bytes := [80; 85; 84].

Lemma get_command_line key start len :
  get_command key start len = line [name_get; key; format_zd start; format_zd len] ++ [10].
Proof. unfold get_command. simpl. by rewrite <- !(assoc_L (++)), <- !app_comm_cons, <- !(assoc_L (++)). Qed.

Lemma put_command_line key len : put_command key len = line [name_put; key; format_zd len] ++ [10].
Proof. unfold put_command. simpl. by rewrite <- !(assoc_L (++)), <- !app_comm_cons. Qed.

(** ** The buffer *)

(** The buffer begins with the bytes [b] that were read. *)
Definition holds (s : Server) (b : bytes) : Prop :=
  exists junk, cmdbuf s = b ++ junk /\ zlen (b ++ junk) = MAX_CMD_LEN /\ buflen s = zlen b.

Lemma find_newline (l : bytes) t : 10 ∉ l -> list_find (eq 10) (l ++ 10 :: t) = Some (length l, 10).
Proof.
  intros Hl. apply list_find_Some. split_and!; [by apply list_lookup_middle|done|].
  intros j y Hj Hlt <-. rewrite lookup_app_l in Hj by done. apply Hl. by eapply list_elem_of_lookup_2.
Qed.

Lemma memchr_holds s b l t : holds s b -> b = l ++ 10 :: t -> 10 ∉ l -> memchr (cmdbuf s) 10 (buflen s) = Some (Some (zlen l)).
Proof.
  intros (junk & -> & Hl & ->) -> H10. unfold memchr. rewrite Nat2Z.id, take_app_length, find_newline by done. done.
Qed.

Lemma memchr_none s b : holds s b -> 10 ∉ b -> memchr (cmdbuf s) 10 (buflen s) = Some None.
Proof.
  intros (junk & -> & Hl & ->) H10. unfold memchr. rewrite Nat2Z.id, take_app_length.
  rewrite (proj2 (list_find_None _ _)).
  - rewrite (proj2 (Z.leb_le _ _)); [done|]. rewrite length_app. lia.
  - apply Forall_forall. intros x Hx <-. done.
Qed.

(** ** Turns of the loop *)

(** The process has read [b] and its connection will deliver [evs]. *)
Record at_work (s : Server) (b : bytes) (evs : list recv) : Prop := {
  aw_buffer : holds s b;
  aw_incoming : Socket.incoming (client s) = evs;
  aw_sending : sends (Socket.sending (client s));
}.

(** Files and what was sent are the same. *)
Definition same_work (s s' : Server) : Prop :=
  server_files s' = server_files s /\ Socket.sent (client s') = Socket.sent (client s).

Section serve.
Context `{ServerOS}.

Lemma Server_ext s t :
  server_files s = server_files t -> client s = client t -> cmdbuf s = cmdbuf t -> buflen s = buflen t -> s = t.
Proof. destruct s, t. simpl. congruence. Qed.

Lemma wp_on_client {A} (m : M Socket.t A) s (Q : A -> Server -> Prop) :
  wp m (client s) (fun a k => Q a (s <| client := k |>)) -> wp (on_client m) s Q.
Proof. unfold wp, on_client. by destruct (m (client s)). Qed.

Lemma read_command_ok s b evs b' :
  at_work s b evs -> delivers evs b' -> b' <> [] -> zlen b < MAX_CMD_LEN ->
  wp read_command s (fun t s' => t = Again /\ same_work s s' /\ exists d b1 evs',
    at_work s' (b ++ d) evs' /\ b' = d ++ b1 /\ delivers evs' b1 /\
    ((length evs' < length evs)%nat \/ zlen (b ++ d) = MAX_CMD_LEN /\ length evs' = length evs)).
Proof.
  intros [(junk & Hbuf & Hl & Hn) Hi Hs] Hd Hb' Hlt. unfold read_command. wp_step. wp_step.
  rewrite Hn, (proj2 (Z.eqb_neq _ _)) by lia. rewrite Hi.
  destruct evs as [|e evs]; [by inversion Hd; subst|]. wp_step. apply wp_on_client.
  eapply wp_mono; [apply (sock_read_piece _ _ _ _ Hi Hd Hb'); lia|]. intros r k (evs' & -> & Hr).
  destruct r as [d| |]; [|wp_step|done].
  - destruct Hr as (b1 & Hne & Hle & -> & Hd' & Hlen). rewrite bool_decide_eq_false_2 by done.
    wp_step. wp_step; [by apply Z.leb_le|]. wp_step. wp_step. wp_step. split; [done|]. split; [done|].
    exists d, b1, evs'. rewrite length_app in Hl. split_and!; [|done|done|rewrite length_app; destruct Hlen; [left; done|right; lia]].
    split; [|done|done]. exists (drop (length d) junk). split_and!.
    + simpl. rewrite Hbuf, Hn, Nat2Z.id. unfold write_at. rewrite take_app_length, <- drop_drop, drop_app_length.
      by rewrite (assoc_L (++)).
    + rewrite !length_app, length_drop. lia.
    + simpl. rewrite Hn, length_app. lia.
  - split; [done|]. split; [done|]. exists [], b', evs'. rewrite app_nil_r.
    split_and!; [split; [by exists junk|done|done]|done|apply Hr|left; apply Hr].
Qed.

(** A line, however it arrives: [k] turns are left when it is complete. *)
Lemma receive_line_ok fuel s b evs b' l tail (Q : bool -> Server -> Prop) :
  at_work s b evs -> delivers evs b' -> b ++ b' = l ++ 10 :: tail -> 10 ∉ l -> zlen l < MAX_CMD_LEN ->
  10 ∈ b /\ (length evs + 2 <= fuel)%nat \/ (length evs + 3 <= fuel)%nat ->
  (forall fuel' s' t1 t2 evs', at_work s' (l ++ 10 :: t1) evs' -> delivers evs' t2 -> tail = t1 ++ t2 ->
     same_work s s' -> (length evs' + 2 <= fuel')%nat -> wp (handle_connection fuel') s' Q) ->
  wp (handle_connection fuel) s Q.
Proof.
  revert s b evs b'. induction fuel as [|fuel IH]; intros s b evs b' Hw Hd E Hl Hm Hf HQ; [lia|].
  destruct (prefix_of_line _ _ _ _ E Hl) as [Hin Hout]. destruct (decide (10 ∈ b)) as [H10|H10].
  { destruct (Hin H10) as (t1 & -> & ->). eapply HQ; [exact Hw|exact Hd|done|done|lia]. }
  destruct Hf as [[? _]|Hf]; [done|]. destruct (Hout H10) as [Hlb Hb].
  cbn [handle_connection]. wp_step. unfold serve_turn. wp_step. wp_step.
  wp_step. wp_step; [by apply (memchr_none s b), H10; apply Hw|].
  eapply wp_mono; [apply (read_command_ok s b evs b'); [done|done|done|lia]|].
  intros ? s1 (-> & [Ef Es] & d & b1 & evs' & Hw1 & -> & Hd1 & Hlt). rewrite (assoc_L (++)) in E.
  eapply (IH s1 (b ++ d) evs' b1); try done.
  - destruct Hlt as [?|[Hfull Hev]]; [right; lia|left]. split; [|lia].
    destruct (decide (10 ∈ b ++ d)) as [|Hno]; [done|].
    destruct (prefix_of_line _ _ _ _ E Hl) as [_ Ho]. destruct (Ho Hno) as [Hc _]. lia.
  - intros fuel' s' t1 t2 evs2 Hw2 Hd2 Et [Ef2 Es2]. eapply HQ; try done. split; congruence.
Qed.

(** With nothing more to read, the process waits. *)
Lemma wait_ok fuel s evs :
  at_work s [] evs -> delivers evs [] -> (length evs < fuel)%nat ->
  wp (handle_connection fuel) s (fun w s' => w = true /\ at_work s' [] [] /\ same_work s s').
Proof.
  revert s evs. induction fuel as [|fuel IH]; intros s evs Hw Hd Hf; [lia|].
  cbn [handle_connection]. wp_step. unfold serve_turn. wp_step. wp_step.
  wp_step. wp_step; [apply (memchr_none s []); [apply Hw|apply not_elem_of_nil]|].
  unfold read_command. wp_step. wp_step. destruct (aw_buffer _ _ _ Hw) as (junk & Hb & Hl & Hn).
  rewrite Hn, (aw_incoming _ _ _ Hw). change (zlen [] =? MAX_CMD_LEN) with false. cbv iota.
  inversion Hd as [|evs' b' Hd'|d evs' b' Hne Hd' E1 E2]; subst.
  - wp_step. wp_step. by split_and!.
  - wp_step. apply wp_on_client. unfold sock_read, wp at 1. rewrite (aw_incoming _ _ _ Hw). wp_step.
    eapply wp_mono; [apply (IH _ evs'); [|done|simpl in Hf; lia]|].
    + destruct Hw. by split.
    + intros w s' (-> & Hw' & Hs). by split_and!.
  - by destruct d.
Qed.

(** The command of a line is taken out of the buffer and carried out. *)
Lemma handle_line_ok s l t evs args cmd (Q : turn -> Server -> Prop) :
  at_work s (l ++ 10 :: t) evs -> 10 ∉ l -> 0 ∉ l -> strtok_words [] l = args -> zlen args <= MAX_ARGS ->
  parse_command args = Some cmd ->
  (forall s', at_work s' t evs -> same_work s s' -> wp (run_command (zlen l + 1) cmd) s' Q) ->
  wp serve_turn s Q.
Proof.
  intros Hw H10 H0 Ea Hargs Ep HQ. destruct (aw_buffer _ _ _ Hw) as (junk & Hbuf & Hl & Hn).
  unfold serve_turn. wp_step. wp_step. wp_step. wp_step; [by eapply memchr_holds; [apply Hw| |]|].
  unfold handle_line. wp_step. wp_step. rewrite Hbuf, Z.add_simpl_r, Nat2Z.id, <- (assoc_L (++)), take_app_length.
  rewrite c_string_plain, Ea by done. wp_step. wp_step; [by apply Z.leb_le|]. wp_step. wp_step. rewrite Ep.
  wp_step. wp_step. simpl cmdbuf. simpl buflen. rewrite Hbuf, Hn.
  set (marked := strtok_marks false l).
  assert (Hmk : length marked = length l) by apply length_strtok_marks.
  assert (Emark : write_at (write_at ((l ++ 10 :: t) ++ junk) (length l) [0]) 0 marked = marked ++ 0 :: t ++ junk).
  { unfold write_at. rewrite <- (assoc_L (++)), take_app_length, <- drop_drop, drop_app_length. simpl.
    by rewrite Hmk, drop_app_length. }
  rewrite Emark. rewrite !length_app in Hl. rewrite length_app in Hn |- *. simpl length in *.
  assert (Hfin : forall junk', zlen (t ++ junk') = MAX_CMD_LEN -> forall s1, s1 = s <| cmdbuf := t ++ junk' |> <| buflen := zlen t |> ->
    wp (run_command (zlen l + 1) cmd) s1 Q).
  { intros junk' Hj s1 ->. apply HQ; [|done]. destruct Hw as [_ Hi Hs]. split; [|done|done]. by exists junk'. }
  destruct (Z.ltb_spec (zlen l + 1) (Z.of_nat (length l + S (length t)))) as [Hlt|Hge].
  - wp_step. wp_step. wp_step.
    { unfold memmove. rewrite slice_skip by lia. rewrite Hmk.
      change (0 :: t ++ junk) with ([0] ++ t ++ junk). rewrite slice_skip by (simpl; lia).
      rewrite (slice_mid [] t junk) by (simpl; lia). reflexivity. }
    wp_step. wp_step. wp_step.
    eapply Hfin; [|apply Server_ext; simpl; try done; simpl; rewrite ?Hn; lia].
    rewrite !length_app, length_drop, !length_app. simpl. rewrite length_app. lia.
  - assert (t = []) as -> by (destruct t; [done|simpl in Hge; lia]). simpl in Hn, Hl. wp_step. wp_step. wp_step. wp_step.
    eapply (Hfin (marked ++ 0 :: junk)); [simpl; rewrite length_app; simpl; lia|].
    apply Server_ext; [done|done| |simpl; lia]. simpl. rewrite Hbuf, ?Z.add_simpl_r, ?Nat2Z.id. exact Emark.
Qed.

(** ** Commands *)

(** The process has sent [b], and nothing else has changed. *)
Definition answered (s : Server) (b : bytes) (s' : Server) : Prop :=
  exists evs, sends evs /\ s' = s <| client ::= fun k =>
    k <| Socket.sending := evs |> <| Socket.sent ::= fun l => l ++ b |> |>.

Lemma answered_app s1 s2 s3 b1 b2 : answered s1 b1 s2 -> answered s2 b2 s3 -> answered s1 (b1 ++ b2) s3.
Proof.
  intros (evs1 & Hs1 & ->) (evs2 & Hs2 & ->). exists evs2. split; [done|]. unfold setf. simpl. by rewrite (assoc_L (++)).
Qed.

Lemma answered_work s b s' c evs : at_work s c evs -> answered s b s' -> at_work s' c evs.
Proof. intros [Hb Hi _] (evs' & Hs & ->). by split. Qed.

Lemma server_write_ok b s :
  sends (Socket.sending (client s)) -> wp (on_client (write_data b)) s (fun ok s' => ok = true /\ answered s b s').
Proof.
  intros Hs. apply wp_on_client. eapply wp_mono; [by apply write_data_ok|]. intros ok k (-> & evs & He & ->).
  split; [done|]. by exists evs.
Qed.

(** The bytes of an object that a client asked for. *)
Definition object_range (c : bytes) (start len : Z) : bytes :=
  let d := drop (Z.to_nat start) c in if 0 <? len then take (Z.to_nat len) d else d.

Lemma range_size_ok c start len :
  0 <= start -> range_size (zlen c) start len = zlen (object_range c start len).
Proof.
  intros Hs. unfold range_size, object_range.
  destruct (Z.ltb_spec 0 start), (Z.leb_spec (zlen c) start), (Z.ltb_spec 0 len); simpl;
    try match goal with |- context [?x <? ?y] => destruct (Z.ltb_spec x y) end;
    rewrite ?length_take, ?length_drop; lia.
Qed.

Lemma send_file_ok fuel c pos n s :
  sends (Socket.sending (client s)) -> 0 <= pos -> pos + zlen n <= zlen c -> n = take (length n) (drop (Z.to_nat pos) c) ->
  (length n <= fuel)%nat ->
  wp (send_file fuel (Some c) pos (zlen n)) s (fun alive s' => alive = true /\ answered s n s').
Proof.
  revert pos n s. induction fuel as [|fuel IH]; intros pos n s Hs Hp Hc Hn Hf; cbn [send_file];
    (destruct (Z.leb_spec (zlen n) 0) as [H0|H0];
     [assert (n = []) as -> by (destruct n; [done|simpl in H0; lia]); wp_step; split; [done|];
      exists (Socket.sending (client s)); split; [done|]; destruct s as [? [] ? ?]; unfold setf; simpl; by rewrite app_nil_r|]);
    [lia|].
  set (needed := Z.min (zlen n) 65536). pose proof (read_count_ok pos needed ltac:(lia)) as Hr.
  set (avail := drop (Z.to_nat pos) c) in *. set (m := Z.to_nat (read_count pos needed)).
  assert (Ha : (length n <= length avail)%nat) by (unfold avail; rewrite length_drop; lia).
  assert (match avail with [] => replicate (Z.to_nat needed) 0 | _ :: _ => take m avail end = take m n) as ->.
  { rewrite Hn, take_take, Nat.min_l by lia. destruct avail; [simpl in Ha; lia|done]. }
  assert (Hlm : zlen (take m n) = read_count pos needed) by (rewrite length_take; lia).
  wp_step. eapply wp_mono; [by apply server_write_ok|]. intros ? s1 [-> A1]. cbn [negb]. cbv iota.
  replace (zlen n - zlen (take m n)) with (zlen (drop m n)) by (rewrite length_drop, Hlm; lia).
  eapply wp_mono; [apply (IH (pos + zlen (take m n)) (drop m n) s1)|].
  - destruct A1 as (? & ? & ->). done.
  - lia.
  - rewrite length_drop. lia.
  - rewrite Hn at 1. rewrite skipn_firstn_comm, length_drop. unfold avail. rewrite drop_drop. do 2 f_equal. lia.
  - rewrite length_drop. lia.
  - intros ? s2 [-> A2]. split; [done|]. rewrite <- (take_drop m n). by eapply answered_app.
Qed.

(** The answer to GET. *)
Definition get_answer (o : option bytes) (start len : Z) : bytes :=
  match o with
  | None => response_error
  | Some c => let d := object_range c start len in format_zd (zlen d) ++ [10] ++ d
  end.

Lemma cmd_get_ok path start len s :
  sends (Socket.sending (client s)) -> 0 <= start -> dir_size path = None ->
  wp (cmd_get path start len) s (fun alive s' => alive = true /\
    answered s (get_answer (server_files s !! path) start len) s').
Proof.
  intros Hs H0 Hdir. unfold cmd_get. wp_step. wp_step. rewrite Hdir.
  destruct (server_files s !! path) as [c|]; [|by apply server_write_ok].
  rewrite range_size_ok by done. set (d := object_range c start len). wp_step.
  eapply wp_mono; [by apply server_write_ok|]. intros ? s1 [-> A1]. cbn [negb]. cbv iota. rewrite Nat2Z.id.
  eapply wp_mono; [apply send_file_ok; [by destruct A1 as (? & ? & ->)|..|done]|].
  - destruct (_ <=? _); lia.
  - unfold d, object_range. destruct (Z.leb_spec (zlen c) start), (Z.ltb_spec 0 len); rewrite ?length_take, ?length_drop; lia.
  - destruct (Z.leb_spec (zlen c) start) as [Hge|Hlt].
    + assert (length d = 0%nat) as Hd; [|by destruct d].
      unfold d, object_range. destruct (0 <? len); rewrite ?length_take, length_drop; lia.
    + unfold d, object_range. destruct (0 <? len).
      * set (d0 := drop _ c). rewrite <- (take_app_length (take (Z.to_nat len) d0) (drop (Z.to_nat len) d0)) at 1. by rewrite take_drop.
      * by rewrite take_ge.
  - intros ? s2 [-> A2]. split; [done|]. unfold get_answer. fold d. rewrite (assoc_L (++)). by eapply answered_app.
Qed.

Lemma read_rest_ok fuel buf k evs b t :
  Socket.incoming k = evs -> delivers evs (b ++ t) -> b = [] \/ (length evs < fuel)%nat ->
  wp (read_rest fuel buf (zlen buf + zlen b)) k (fun r k' => exists evs',
    (r = Some (buf ++ b) /\ delivers evs' t /\ (length evs' <= length evs)%nat) /\ k' = k <| Socket.incoming := evs' |>).
Proof.
  revert buf k evs b. induction fuel as [|fuel IH]; intros buf k evs b Hk Hd Hf; cbn [read_rest];
    (destruct (Z.leb_spec (zlen buf + zlen b) (zlen buf)) as [H0|H0];
     [assert (b = []) as -> by (destruct b; [done|simpl in H0; lia]); wp_step; exists evs;
      split_and!; [by rewrite app_nil_r|done|lia|by destruct k; simpl in *; subst]|]).
  { destruct Hf as [->|?]; [simpl in H0; lia|lia]. }
  destruct Hf as [->|Hf]; [simpl in H0; lia|]. wp_step. rewrite Z.add_simpl_l.
  eapply wp_mono; [apply (sock_read_piece k _ evs (b ++ t)); [done|done|by destruct b; [simpl in H0; lia|]|lia]|].
  intros r k' (evs' & -> & Hr). destruct r as [d| |]; [|apply wp_after_read|done].
  2: { eapply wp_mono; [apply (IH buf _ evs' b); [done|apply Hr|right; lia]|].
       intros r k' (evs2 & (? & ? & ?) & ->). exists evs2. split_and!; [done|done|lia|done]. }
  destruct Hr as (b' & Hne & Hlen & Eb & Hd' & Hlt). rewrite bool_decide_eq_false_2 by done. wp_step.
  wp_step; [apply Z.leb_le; lia|]. apply wp_after_read.
  assert (Hb : exists b1, b = d ++ b1 /\ b' = b1 ++ t).
  { apply app_eq_inv in Eb as [(b1 & -> & ->)|(b1 & -> & ->)]; [by exists b1|].
    rewrite length_app in Hlen. assert (b1 = []) as -> by (destruct b1; [done|simpl in Hlen; lia]).
    exists []. by rewrite !app_nil_r. }
  destruct Hb as (b1 & -> & ->). replace (zlen buf + zlen (d ++ b1)) with (zlen (buf ++ d) + zlen b1) by (rewrite !length_app; lia).
  eapply wp_mono; [apply (IH (buf ++ d) _ evs' b1); [done|done|]|].
  - rewrite length_app in Hlt. destruct Hlt as [?|[E _]]; [right; lia|left]. destruct b1; [done|simpl in E; lia].
  - intros r k' (evs2 & (-> & ? & ?) & ->). exists evs2. rewrite (assoc_L (++)). split_and!; [done|done|lia|done].
Qed.

(** The part of the object that came with the command; the rest follows. *)
Lemma take_object_ok s b evs cmdlen size :
  at_work s b evs -> zlen b <= size ->
  wp (take_object cmdlen size) s (fun data s' => data = b /\ at_work s' [] evs /\ same_work s s').
Proof.
  intros Hw Hs. destruct Hw as [(junk & Hbuf & Hl & Hn) Hi Hsend]. unfold take_object. wp_step. wp_step.
  rewrite Hn, (proj2 (Z.ltb_ge size (zlen b))) by lia. wp_step. wp_step; [rewrite Hbuf; by apply slice_head|].
  wp_step. rewrite Z.ltb_irrefl. wp_step. wp_step. split_and!; [done| |done]. split; [|done|done].
  exists (b ++ junk). by split_and!.
Qed.

Lemma cmd_put_ok path buf rest s evs :
  at_work s [] evs -> delivers evs rest -> creat_ok path = true -> disk_full path (buf ++ rest) = None ->
  wp (cmd_put path buf (zlen buf + zlen rest)) s (fun alive s' => alive = true /\ exists evs',
    at_work s' [] evs' /\ delivers evs' [] /\ (length evs' <= length evs)%nat /\
    server_files s' = <[path := buf ++ rest]> (server_files s) /\
    Socket.sent (client s') = Socket.sent (client s) ++ response_ok).
Proof.
  intros [Hb Hi Hs] Hd Hc Hf. unfold cmd_put. wp_step. apply wp_on_client. wp_step. wp_step.
  eapply wp_mono; [apply (read_rest_ok _ buf _ evs rest []); [done|by rewrite app_nil_r|right; rewrite Hi; lia]|].
  intros r k (evs' & (-> & Hd' & Hl) & ->). rewrite Hc, Hf. wp_step. wp_step.
  eapply wp_mono; [by apply server_write_ok|]. intros ? s' [-> (out & Ho & ->)]. split; [done|].
  exists evs'. split_and!; try done.
Qed.

(** ** One command *)

Definition idle (s : Server) : Prop := at_work s [] [].
Definition deliver (evs : list recv) (s : Server) : Server :=
  s <| client ::= fun k => k <| Socket.incoming := evs |> |>.

(** A key that can be sent, and whose file is not a directory. *)
Record key_ok (key : bytes) : Prop := {
  ko_word : word key;
  ko_size : zlen key < 4000;
  ko_file : dir_size (normalize_path key) = None;
}.

Lemma length_number n : 0 <= n < 2 ^ 31 -> zlen (format_zd n) <= 20.
Proof.
  intros Hn. unfold format_zd. rewrite s64_id, (proj2 (Z.ltb_ge n 0)) by lia.
  assert (forall fuel m, (length (digits fuel m) <= fuel)%nat) as Hd; [|specialize (Hd 20%nat n); lia].
  intros fuel. induction fuel as [|fuel IH]; intros m; simpl; [lia|]. destruct (m <? 10); simpl; [lia|].
  rewrite length_app. specialize (IH (m / 10)). simpl. lia.
Qed.

(** A command of words, as it is carried out when its line is complete. *)
Lemma serve_command args tail cmd s evs (Q : bool -> Server -> Prop) :
  idle s -> Forall word args -> zlen args <= MAX_ARGS -> zlen (line args) < MAX_CMD_LEN ->
  parse_command args = Some cmd -> delivers evs (line args ++ 10 :: tail) ->
  (forall fuel s' t1 t2 evs', at_work s' t1 evs' -> delivers evs' t2 -> tail = t1 ++ t2 -> same_work s s' ->
     (length evs' < fuel)%nat ->
     wp (run_command (zlen (line args) + 1) cmd) s' (fun t s'' => wp (
       match t with Again => handle_connection fuel | Over => mret false | Waiting => mret true end) s'' Q)) ->
  wp (handle_connection (length evs + 3)) (deliver evs s) Q.
Proof.
  intros Hw Hargs Hn Hl Ep Hd HQ. destruct (line_clean _ Hargs) as [H10 H0].
  eapply (receive_line_ok _ _ [] evs); [|exact Hd|done|done|done|right; lia|].
  { destruct Hw as [Hb Hi Hs]. by split. }
  intros fuel s1 t1 t2 evs1 Hw1 Hd1 Et Hs1 Hf. destruct fuel as [|fuel]; [lia|]. cbn [handle_connection]. wp_step.
  eapply handle_line_ok; [exact Hw1|done|done|by apply strtok_line|done|done|].
  intros s2 Hw2 [Ef Es]. eapply HQ; [done|done|done| |lia]. destruct Hs1. split; simpl in *; congruence.
Qed.

Lemma serve_get_ok s key start len evs :
  idle s -> key_ok key -> 0 <= start < 2 ^ 31 -> 0 <= len < 2 ^ 31 -> delivers evs (get_command key start len) ->
  wp (handle_connection (length evs + 3)) (deliver evs s) (fun w s' => w = true /\ idle s' /\
    server_files s' = server_files s /\ Socket.sent (client s') = Socket.sent (client s)
      ++ get_answer (server_files s !! normalize_path key) start len).
Proof.
  intros Hi [Hk Hks Hkd] Hst Hlen Hd. rewrite get_command_line in Hd.
  eapply (serve_command [name_get; key; format_zd start; format_zd len] [] (GET, key, start, len)); try done.
  - repeat constructor; try apply Hk; try done; by apply format_zd_word.
  - cbn [line]. rewrite !length_app. simpl. rewrite !length_app. simpl. rewrite length_app. simpl.
    pose proof (length_number _ Hst). pose proof (length_number _ Hlen). unfold MAX_CMD_LEN. lia.
  - simpl. by rewrite !atoi_format_zd.
  - intros fuel s1 t1 t2 evs1 Hw1 Hd1 Et [Ef Es] Hf. symmetry in Et. apply app_nil in Et as [-> ->].
    cbn [run_command]. wp_step. rewrite u64_id by lia.
    eapply wp_mono; [by apply cmd_get_ok; [apply Hw1|lia|]|]. intros ? s2 [-> A]. wp_step.
    eapply wp_mono; [by apply (wait_ok fuel s2 evs1); [eapply answered_work| |]|].
    intros ? s3 (-> & Hw3 & Ef3 & Es3). destruct A as (? & _ & ->). simpl in *.
    split_and!; [done|done|congruence|]. rewrite Es3, Ef, Es. done.
Qed.

Lemma serve_put_ok s key data evs :
  idle s -> key_ok key -> zlen data <= MAX_OBJECT_SIZE -> malloc_ok (zlen data) = true ->
  creat_ok (normalize_path key) = true -> disk_full (normalize_path key) data = None ->
  delivers evs (put_command key (zlen data) ++ data) ->
  wp (handle_connection (length evs + 3)) (deliver evs s) (fun w s' => w = true /\ idle s' /\
    server_files s' = <[normalize_path key := data]> (server_files s) /\
    Socket.sent (client s') = Socket.sent (client s) ++ response_ok).
Proof.
  intros Hi [Hk Hks Hkd] Hsz Hm Hc Hdf Hd. rewrite put_command_line in Hd.
  assert (Hn : 0 <= zlen data < 2 ^ 31) by (change MAX_OBJECT_SIZE with (2 ^ 28) in Hsz; lia).
  eapply (serve_command [name_put; key; format_zd (zlen data)] data (PUT, key, zlen data, 0)); try done.
  - repeat constructor; try apply Hk; try done; by apply format_zd_word.
  - cbn [line]. rewrite !length_app. simpl. rewrite !length_app. simpl.
    pose proof (length_number _ Hn). unfold MAX_CMD_LEN. lia.
  - cbn -[atoi format_zd]. by rewrite atoi_format_zd.
  - by rewrite <- (assoc_L (++)) in Hd.
  - intros fuel s1 t1 t2 evs1 Hw1 Hd1 -> [Ef Es] Hf. cbn [run_command]. rewrite u64_id by lia.
    rewrite (proj2 (Z.ltb_ge _ _)) by lia. rewrite Hm. cbn [negb]. cbv iota. wp_step.
    eapply wp_mono; [apply (take_object_ok s1 t1 evs1); [done|rewrite length_app; lia]|].
    intros ? s2 (-> & Hw2 & Ef2 & Es2). wp_step. rewrite length_app, Nat2Z.inj_add.
    eapply wp_mono; [by apply (cmd_put_ok _ t1 t2 s2 evs1)|]. intros ? s3 (-> & evs3 & Hw3 & Hd3 & Hl3 & Ef3 & Es3). wp_step.
    eapply wp_mono; [apply (wait_ok fuel s3 evs3); [done|done|lia]|]. intros ? s4 (-> & Hw4 & Ef4 & Es4).
    split_and!; [done|done|congruence|]. rewrite Es4, Es3. congruence.
Qed.
End serve.
