(* ===== verification/SimpleProtocol.v ===== *)
(** * The client and the server of the simple store together

    Requests through src/bluesky/store-simple.c to src/simplestore/server.c refine a
    finite map from keys to objects, however the network cuts what is sent into
    pieces; and whatever arrives instead, a task completes its request. *)

From S2P Require Import Prelude State Strings Ownership CacheFiles LogThread Names Store StoreProtocol StoreThreads SimpleStore SimpleSockets SimpleServer SimpleServe.
From Stdlib Require Import ZArith Lia.
From stdpp Require Import base numbers gmap option list.

Open Scope Z_scope.

#[local] Arguments bluesky_store_async_unref : simpl never.
#[local] Arguments bluesky_store_async_mark_complete : simpl never.

(** ** Symbolic execution *)

Lemma wp_on_store {A} (m : M StoreSys A) st (Q : A -> SimpleStore -> Prop) :
  wp m (store st) (fun a s => Q a (st <| store := s |>)) -> wp (on_store m) st Q.
Proof. unfold wp, on_store. by destruct (m (store st)). Qed.

Lemma wp_on_fd {A} fd (m : M Socket.t A) k st (Q : A -> SimpleStore -> Prop) :
  sockets st !! fd = Some k -> wp m k (fun a k' => Q a (st <| sockets ::= <[fd := k']> |>)) -> wp (on_fd fd m) st Q.
Proof. intros Hk Hw. unfold wp, on_fd in *. rewrite Hk. by destruct (m k). Qed.

Lemma SimpleStore_ext s t : store s = store t -> fd_pool s = fd_pool t -> sockets s = sockets t -> s = t.
Proof. destruct s, t. simpl. congruence. Qed.

(** The request [p] is [a], memory is [b] and the socket of [fd] is [k]. *)
Definition with_request (st : SimpleStore) (p : ptr) (fd : Z) (a : Async.t) (b : State) (k : Socket.t) : SimpleStore :=
  st <| store := (store st) <| base := b |> <| asyncs ::= <[p := a]> |> |> <| sockets ::= <[fd := k]> |>.

Lemma with_request_twice st p fd a b k a' b' k' :
  with_request (with_request st p fd a b k) p fd a' b' k' = with_request st p fd a' b' k'.
Proof.
  unfold with_request, setf. simpl. apply SimpleStore_ext; simpl; [|done|by rewrite insert_insert_eq].
  apply StoreSys_ext; simpl; try done. by rewrite insert_insert_eq.
Qed.

(** ** Names *)

(** Different keys are different files. *)
Lemma normalize_path_inj k1 k2 : normalize_path k1 = normalize_path k2 -> k1 = k2.
Proof.
  revert k2. induction k1 as [|c1 k1 IH]; intros [|c2 k2]; simpl;
    repeat match goal with |- context [?x =? ?y] => destruct (Z.eqb_spec x y) end; subst; simpl; intros E;
    try done; simplify_eq; f_equal; by apply IH.
Qed.

(** ** A task at work *)
Section request.
Context (st : SimpleStore) (p : ptr) (fd : Z).
Implicit Types (a : Async.t) (b : State) (k : Socket.t).

Lemma wp_req_upd f a b k (Q : unit -> SimpleStore -> Prop) :
  Q tt (with_request st p fd (f a) b k) -> wp (on_store (aupd (Some p) f)) (with_request st p fd a b k) Q.
Proof.
  intros HQ. apply wp_on_store. eapply wp_aupd; [apply lookup_insert_eq|].
  replace (setf store _ _) with (with_request st p fd (f a) b k); [done|].
  apply SimpleStore_ext; [|done|done]. apply StoreSys_ext; simpl; try done. by rewrite insert_insert_eq.
Qed.

Lemma wp_req_load a b k (Q : Async.t -> SimpleStore -> Prop) :
  Q a (with_request st p fd a b k) -> wp (on_store (aload (Some p))) (with_request st p fd a b k) Q.
Proof. intros HQ. apply wp_on_store. eapply wp_aload; [apply lookup_insert_eq|done]. Qed.

Lemma wp_req_base {A} (m : M State A) a b k (Q : A -> SimpleStore -> Prop) :
  wp m b (fun r b' => Q r (with_request st p fd a b' k)) -> wp (on_store (lift m)) (with_request st p fd a b k) Q.
Proof. intros Hw. apply wp_on_store, wp_lift. exact Hw. Qed.

Lemma wp_req_sock {A} (m : M Socket.t A) a b k (Q : A -> SimpleStore -> Prop) :
  wp m k (fun r k' => Q r (with_request st p fd a b k')) -> wp (on_fd fd m) (with_request st p fd a b k) Q.
Proof.
  intros Hw. eapply wp_on_fd; [apply lookup_insert_eq|]. eapply wp_mono; [exact Hw|]. intros r k' HQ.
  replace (setf sockets _ _) with (with_request st p fd a b k'); [done|].
  apply SimpleStore_ext; [done|done|]. simpl. by rewrite insert_insert_eq.
Qed.

(** *** GET *)

(** The request has failed, or it holds an object. *)
Definition failed a : Async.t := a <| Async.result := -1 |>.
Definition fetched a (q : ptr) : Async.t :=
  a <| Async.data := Some q |> <| Async.result := 0 |> <| Async.range_done := true |>.

Lemma atoi_answer n t : 0 <= n < 2 ^ 31 -> atoi (format_zd n ++ 10 :: t) = n.
Proof. intros Hn. apply (format_zd_number n Hn). intros c [= <-]. lia. Qed.

Lemma strchr_line l t : 10 ∉ l -> 0 ∉ l -> strchr (l ++ 10 :: t) 10 = Some (zlen l).
Proof.
  induction l as [|c l IH]; intros H10 H0; [done|]. apply not_elem_of_cons in H10 as [Hc H10].
  apply not_elem_of_cons in H0 as [Hz H0]. cbn [strchr app]. rewrite (proj2 (Z.eqb_neq c 10)), (proj2 (Z.eqb_neq c 0)) by done.
  rewrite (IH H10 H0). simpl. f_equal. lia.
Qed.

Lemma number_clean n : 0 <= n < 2 ^ 31 -> (10 ∉ format_zd n) /\ (0 ∉ format_zd n).
Proof.
  intros Hn. destruct (format_zd_number n Hn) as (Hd & _). rewrite Forall_forall in Hd.
  split; intros Hin; specialize (Hd _ Hin); simpl in Hd; lia.
Qed.

Lemma get_ok a b k key data X :
  Async.key a = Some key -> heap_ok X nox b -> sends (Socket.sending k) -> zlen data < 2 ^ 31 ->
  delivers (Socket.incoming k) (format_zd (zlen data) ++ [10] ++ data) ->
  wp (simplestore_get fd (Some p)) (with_request st p fd a b k) (fun _ st' => exists q b' k',
    st' = with_request st p fd (fetched a q) b' k' /\ heap_ok (xadd X (Some q)) nox b' /\ holds_bytes b' q data /\
    Socket.sent k' = Socket.sent k ++ get_command key (Async.start a) (Async.len a)).
Proof.
  intros Hkey Hok Hs Hn Hd. assert (Hn' : 0 <= zlen data < 2 ^ 31) by lia.
  destruct (number_clean _ Hn') as [H10 H0]. unfold simplestore_get. wp_step. apply wp_req_upd.
  wp_step. apply wp_req_load. wp_step. wp_step; [exact Hkey|]. wp_step. apply wp_req_sock.
  eapply wp_mono; [by apply write_data_ok|]. intros ? k1 (-> & evs1 & _ & ->). cbn [negb]. cbv iota. wp_step. apply wp_req_sock.
  eapply wp_mono; [apply (read_line_ok 256 _ (Socket.incoming k) (format_zd (zlen data)) data); [done|done|done|]|].
  { pose proof (length_number _ Hn'). lia. }
  intros ? k2 (evs2 & (t1 & t2 & -> & -> & Hd2) & ->). rewrite atoi_answer by done.
  rewrite (proj2 (Z.ltb_ge _ 0)) by lia. wp_step. unfold read_object. rewrite strchr_line by done.
  rewrite !length_app, Z.min_l by (simpl; lia). simpl length. wp_step. wp_step.
  { change (10 :: t1) with ([10] ++ t1). rewrite (assoc_L (++)), slice_skip by (rewrite length_app; simpl; lia).
    rewrite <- (app_nil_r t1) at 1. apply slice_head_at; rewrite ?length_app; simpl; lia. }
  wp_step. apply wp_req_sock.
  replace (Z.of_nat (length t1 + length t2) - _) with (zlen t2) by lia.
  eapply wp_mono; [apply (read_bytes_ok _ evs2 t2 []); [done|by rewrite app_nil_r]|].
  intros ? k3 (evs3 & (-> & _) & ->). wp_step. simpl. wp_step. apply wp_req_base.
  eapply wp_string_new; [exact Hok|]. intros q b' Hb' _ Hq. apply wp_req_upd. exists q, b'. eexists.
  split; [reflexivity|]. by split_and!.
Qed.

Lemma get_missing_ok a b k key :
  Async.key a = Some key -> sends (Socket.sending k) -> delivers (Socket.incoming k) response_error ->
  wp (simplestore_get fd (Some p)) (with_request st p fd a b k) (fun _ st' => exists k',
    st' = with_request st p fd (failed a) b k' /\
    Socket.sent k' = Socket.sent k ++ get_command key (Async.start a) (Async.len a)).
Proof.
  intros Hkey Hs Hd. unfold simplestore_get. wp_step. apply wp_req_upd.
  wp_step. apply wp_req_load. wp_step. wp_step; [exact Hkey|]. wp_step. apply wp_req_sock.
  eapply wp_mono; [by apply write_data_ok|]. intros ? k1 (-> & evs1 & _ & ->). cbn [negb]. cbv iota. wp_step. apply wp_req_sock.
  eapply wp_mono; [apply (read_line_ok 256 _ (Socket.incoming k) [45; 49] []); [done|done| |done]|].
  { intros [|[|?%not_elem_of_nil]%elem_of_cons]%elem_of_cons; done. }
  intros ? k2 (evs2 & (t1 & t2 & -> & Et & _) & ->). symmetry in Et. apply app_nil in Et as [-> ->].
  change (atoi ([45; 49] ++ [10])) with (-1). simpl. wp_step. eexists. split; [reflexivity|]. done.
Qed.

(** Whatever arrives, until the connection ends. *)
Lemma get_any a b k X :
  is_Some (Async.key a) -> heap_ok X nox b -> ends (Socket.incoming k) ->
  wp (simplestore_get fd (Some p)) (with_request st p fd a b k) (fun _ st' => exists k',
    st' = with_request st p fd (failed a) b k' \/ ends (Socket.incoming k') /\ exists q b' data,
    st' = with_request st p fd (fetched a q) b' k' /\ heap_ok (xadd X (Some q)) nox b' /\ holds_bytes b' q data).
Proof.
  intros [key Hkey] Hok He. unfold simplestore_get. wp_step. apply wp_req_upd. wp_step. apply wp_req_load.
  wp_step. wp_step; [exact Hkey|]. wp_step. apply wp_req_sock. eapply wp_mono; [apply write_data_any|].
  intros ok k1 Hk1. destruct ok; cbn [negb]; cbv iota; [|wp_step; exists k1; by left]. wp_step. apply wp_req_sock.
  eapply wp_mono; [apply (read_line_any 256); [by rewrite Hk1|lia]|]. intros line k2 (evs2 & Hl & ->).
  destruct line as [line|]; [|wp_step; eexists; by left]. destruct Hl as [Hl He2].
  destruct (Z.ltb_spec (atoi line) 0); [wp_step; eexists; by left|]. wp_step.
  assert (Hrest : forall n k3 (Q : option bytes -> SimpleStore -> Prop), ends (Socket.incoming k3) ->
    (forall r k', (is_Some r -> ends (Socket.incoming k')) -> Q r (with_request st p fd (failed a) b k')) ->
    wp (on_fd fd (read_bytes n)) (with_request st p fd (failed a) b k3) Q).
  { intros n k3 Q He3 HQ. apply wp_req_sock. eapply wp_mono; [by apply read_bytes_any|].
    intros r k' (evs & Hr & ->). apply HQ. exact Hr. }
  assert (Hend : forall (r : option bytes) k', (is_Some r -> ends (Socket.incoming k')) ->
    wp (match r with
      | None => mret tt
      | Some data => q ← on_store (lift (bluesky_string_new data));
        on_store (aupd (Some p) (fun a => a <| Async.data := Some q |> <| Async.result := 0 |> <| Async.range_done := true |>))
      end) (with_request st p fd (failed a) b k') (fun _ st' => exists k',
    st' = with_request st p fd (failed a) b k' \/ ends (Socket.incoming k') /\ exists q b' data,
    st' = with_request st p fd (fetched a q) b' k' /\ heap_ok (xadd X (Some q)) nox b' /\ holds_bytes b' q data)).
  { intros [data|] k' Hr; [|wp_step; eexists; by left]. wp_step. apply wp_req_base. eapply wp_string_new; [exact Hok|].
    intros q b' Hb' _ Hq. apply wp_req_upd. exists k'. right. split; [by apply Hr|]. by exists q, b', data. }
  unfold read_object. destruct (strchr line 10) as [i|] eqn:Ei.
  - assert (Hi : 0 <= i < zlen line).
    { clear -Ei. revert i Ei. induction line as [|c line IH]; intros i; simpl; [done|]. destruct (c =? 10); [intros [= <-]; lia|].
      destruct (c =? 0); [done|]. destruct (strchr line 10) as [j|]; [|done]. intros [= <-]. specialize (IH j eq_refl). lia. }
    destruct (slice_is_Some line (i + 1) (Z.min (zlen line - (i + 1)) (atoi line))) as [d Hd]; [lia..|].
    wp_step. wp_step; [exact Hd|]. wp_step. eapply Hrest; [done|]. intros r k' Hr. wp_step. apply Hend.
    destruct r; [by intros _; apply Hr|by intros []].
  - eapply Hrest; [done|]. intros r k' Hr. by apply Hend.
Qed.

(** *** PUT *)

Definition stored a : Async.t := a <| Async.result := 0 |>.

(** The string of a request to write. *)
Lemma put_string b X q :
  heap_ok X nox b -> 0 < X q -> exists str data, strs b !! q = Some str /\ str_bytes b str = Some data /\
    RCStr.len str = zlen data.
Proof.
  intros Hok HX. destruct (owned_string X b q Hok HX) as [str Hq]. exists str.
  pose proof (ho_wf _ _ _ Hok q str Hq) as W. unfold str_wf in W. destruct (RCStr.mmap str).
  - destruct W as (off & d & _ & Hd & E). by exists d.
  - destruct W as (buf & E & El). exists buf. unfold str_bytes. by rewrite E.
Qed.

Lemma str_read_all b q str data (Q : bytes -> State -> Prop) :
  strs b !! q = Some str -> str_bytes b str = Some data -> RCStr.len str = zlen data -> Q data b ->
  wp (str_read (Some q) 0 (RCStr.len str)) b Q.
Proof.
  intros Hq Hb El HQ. unfold str_read. wp_step. eapply wp_load; [exact Hq|]. wp_step. wp_step. wp_step.
  wp_step; [exact Hb|]. wp_step; [rewrite El; apply slice_whole|]. exact HQ.
Qed.

Lemma put_ok a b k key q str data :
  Async.key a = Some key -> Async.data a = Some q -> strs b !! q = Some str -> str_bytes b str = Some data ->
  RCStr.len str = zlen data -> sends (Socket.sending k) -> delivers (Socket.incoming k) response_ok ->
  wp (simplestore_put fd (Some p)) (with_request st p fd a b k) (fun _ st' => exists k',
    st' = with_request st p fd (stored a) b k' /\
    Socket.sent k' = Socket.sent k ++ put_command key (zlen data) ++ data).
Proof.
  intros Hkey Hq Hstr Hb El Hs Hd. unfold simplestore_put. wp_step. apply wp_req_upd. wp_step. apply wp_req_load.
  wp_step. wp_step; [exact Hkey|]. wp_step. apply wp_req_base. simpl Async.data. rewrite Hq. eapply wp_load; [exact Hstr|].
  wp_step. apply wp_req_sock. eapply wp_mono; [by apply write_data_ok|]. intros ? k1 (-> & evs1 & Hs1 & ->). cbn [negb]. cbv iota.
  wp_step. apply wp_req_base. eapply str_read_all; [done|done|done|]. wp_step. apply wp_req_sock.
  eapply wp_mono; [by apply write_data_ok|]. intros ? k2 (-> & evs2 & Hs2 & ->). cbn [negb]. cbv iota. wp_step. apply wp_req_sock.
  eapply wp_mono; [apply (read_line_ok 256 _ (Socket.incoming k) [48] []); [done|done| |done]|].
  { intros [|?%not_elem_of_nil]%elem_of_cons; done. }
  intros ? k3 (evs3 & (t1 & t2 & -> & Et & _) & ->). symmetry in Et. apply app_nil in Et as [-> ->].
  change (atoi ([48] ++ [10])) with 0. simpl. apply wp_req_upd. eexists. split; [reflexivity|].
  simpl. by rewrite <- (assoc_L (++)), El.
Qed.

Lemma put_any a b k X q :
  is_Some (Async.key a) -> Async.data a = Some q -> heap_ok X nox b -> 0 < X q -> ends (Socket.incoming k) ->
  wp (simplestore_put fd (Some p)) (with_request st p fd a b k) (fun _ st' => exists k',
    st' = with_request st p fd (failed a) b k' \/
    ends (Socket.incoming k') /\ st' = with_request st p fd (stored a) b k').
Proof.
  intros [key Hkey] Hq Hok HX He. destruct (put_string b X q Hok HX) as (str & data & Hstr & Hb & El).
  unfold simplestore_put. wp_step. apply wp_req_upd. wp_step. apply wp_req_load.
  wp_step. wp_step; [exact Hkey|]. wp_step. apply wp_req_base. simpl Async.data. rewrite Hq. eapply wp_load; [exact Hstr|].
  wp_step. apply wp_req_sock. eapply wp_mono; [apply write_data_any|]. intros ok k1 Hk1.
  destruct ok; cbn [negb]; cbv iota; [|wp_step; exists k1; by left].
  wp_step. apply wp_req_base. eapply str_read_all; [done|done|done|]. wp_step. apply wp_req_sock.
  eapply wp_mono; [apply write_data_any|]. intros ok k2 Hk2.
  destruct ok; cbn [negb]; cbv iota; [|wp_step; exists k2; by left]. wp_step. apply wp_req_sock.
  eapply wp_mono; [apply (read_line_any 256); [by rewrite Hk2, Hk1|lia]|]. intros line k3 (evs3 & Hl & ->).
  destruct line as [line|]; [|wp_step; eexists; by left]. destruct Hl as [Hl He3].
  destruct (atoi line =? 0); cbn [negb]; cbv iota; [|wp_step; eexists; by left].
  apply wp_req_upd. eexists. right. split; [|reflexivity]. done.
Qed.
End request.

(** ** Connections *)

(** The connections in the pool are open sockets, each listed once, and not more than
    the pool is to hold. *)
Record pool_ok (st : SimpleStore) : Prop := {
  po_nodup : NoDup (fd_pool st);
  po_open : forall fd, fd ∈ fd_pool st -> 0 <= fd /\ exists k, sockets st !! fd = Some k /\ ends (Socket.incoming k);
  po_size : zlen (fd_pool st) <= MAX_IDLE_CONNECTIONS;
}.

(** A connection goes back to the pool; the one that waited longest may have to go. *)
Lemma put_connection_ok fd k st :
  NoDup (fd :: fd_pool st) -> zlen (fd_pool st) <= MAX_IDLE_CONNECTIONS -> sockets st !! fd = Some k ->
  wp (put_connection fd) st (fun _ st' => store st' = store st /\ NoDup (fd_pool st') /\
    zlen (fd_pool st') <= MAX_IDLE_CONNECTIONS /\ fd ∈ fd_pool st' /\
    forall fd', fd' ∈ fd_pool st' -> fd' ∈ fd :: fd_pool st /\ sockets st' !! fd' = sockets st !! fd').
Proof.
  intros Hnd Hl Hk. unfold put_connection. wp_step. wp_step. wp_step. wp_step. simpl fd_pool.
  set (pool := fd :: fd_pool st) in *. simpl length. cbn [trim_pool]. wp_step. wp_step. simpl fd_pool. fold pool.
  destruct (last pool) as [old|] eqn:Eo; [|by apply last_None in Eo].
  apply last_Some in Eo as [front Ef].
  destruct (Z.ltb_spec MAX_IDLE_CONNECTIONS (zlen pool)) as [Hgt|Hle].
  2: { wp_step. split_and!; [done|done|done|by left|done]. }
  wp_step. wp_step. wp_step. unfold close_fd. wp_step.
  assert (Er : removelast pool = front) by (rewrite Ef; apply removelast_last).
  assert (Hfr : zlen front <= MAX_IDLE_CONNECTIONS).
  { unfold pool in Ef. apply (f_equal length) in Ef. rewrite length_app in Ef. simpl in *. lia. }
  rewrite Ef in Hnd. apply NoDup_app in Hnd as (Hnf & Hdis & _).
  assert (Hin : fd ∈ front).
  { destruct front as [|f front]; [unfold pool in Ef; destruct (fd_pool st); [unfold MAX_IDLE_CONNECTIONS in *; simpl in Hgt; lia|done]|].
    unfold pool in Ef. injection Ef as <- _. by left. }
  assert (Hdone : forall fuel st', fd_pool st' = front -> wp (trim_pool fuel) st' (fun _ st'' => st'' = st')).
  { intros fuel st' Ep. destruct fuel; cbn [trim_pool]; wp_step; wp_step; [by wp_step|]. rewrite Ep.
    destruct (last front); [|by wp_step]. rewrite (proj2 (Z.ltb_ge _ _)) by lia. by wp_step. }
  match goal with |- wp _ ?s _ => set (st1 := s) end.
  assert (E1 : fd_pool st1 = front) by exact Er. assert (E2 : sockets st1 = delete old (sockets st)) by done.
  assert (E3 : store st1 = store st) by done. clearbody st1.
  eapply wp_mono; [by apply Hdone|]. intros ? st' ->. rewrite E1, E2.
  split_and!; [done|done|done|done|]. intros fd' Hfd. split; [fold pool; rewrite Ef; apply elem_of_app; by left|].
  apply lookup_delete_ne. intros <-. apply (Hdis _ Hfd). by left.
Qed.

(** ** Tasks *)

(** The connection a task gets, and the ones left in the pool. *)
Definition connects (st : SimpleStore) (d : dial) (fd : Z) (k : Socket.t) (idle : list Z) : Prop :=
  fd_pool st = fd :: idle /\ sockets st !! fd = Some k \/ fd_pool st = [] /\ idle = [] /\ d = Connected fd k.

(** The task [i] is taken from the queue. *)
Definition take_task (i : nat) (st : SimpleStore) : SimpleStore :=
  st <| store ::= fun s => s <| tasks ::= delete i |> |>.

Definition running (a : Async.t) : Async.t := a <| Async.status := ASYNC_RUNNING |>.

Lemma task_run st i p a d fd k idle (Q : unit -> SimpleStore -> Prop) :
  asyncs (store st) !! p = Some a -> connects st d fd k idle -> 0 <= fd ->
  wp (match Async.op a with
      | STORE_OP_GET => simplestore_get fd (Some p)
      | STORE_OP_PUT => simplestore_put fd (Some p)
      | _ => mret tt
      end) (with_request ((take_task i st) <| fd_pool := idle |>) p fd (running a) (base (store st)) k)
    (fun _ st1 => wp (simplestore_finish fd (Some p)) st1 Q) ->
  wp (simplestore_task (Some p) d) (take_task i st) Q.
Proof.
  intros Hp Hc Hfd Hw. unfold simplestore_task. wp_step. apply wp_on_store. eapply wp_aupd; [exact Hp|].
  assert (Hconn : forall R : Z -> SimpleStore -> Prop,
    R fd (with_request ((take_task i st) <| fd_pool := idle |>) p fd (running a) (base (store st)) k) ->
    wp (get_connection d) ((take_task i st) <| store := (store (take_task i st)) <| asyncs ::= <[p := running a]> |> |>) R).
  { intros R HR. unfold get_connection. wp_step. wp_step. simpl fd_pool.
    destruct Hc as [[-> Hk]|(Ep & -> & ->)]; [|rewrite Ep]; wp_step; wp_step; wp_step.
    - replace (setf fd_pool _ _) with (with_request ((take_task i st) <| fd_pool := idle |>) p fd (running a) (base (store st)) k); [done|].
      apply SimpleStore_ext; [|done|simpl; by apply insert_id]. by apply StoreSys_ext.
    - replace (setf sockets _ _) with (with_request ((take_task i st) <| fd_pool := [] |>) p fd (running a) (base (store st)) k); [done|].
      apply SimpleStore_ext; [|simpl; by rewrite Ep|done]. by apply StoreSys_ext. }
  wp_step. apply Hconn. rewrite (proj2 (Z.ltb_ge fd 0)) by lia. wp_step. apply wp_req_load. wp_step. exact Hw.
Qed.

(** What a finished task leaves. *)
Record task_done (st : SimpleStore) (held : list ptr) (reg : list (nat * ptr)) (i : nat) (p : ptr) (a a1 : Async.t)
    (b : State) (st' : SimpleStore) : Prop := {
  td_ok : cfg_ok (mkConfig (store st') held reg);
  td_tasks : tasks (store st') = delete i (tasks (store st));
  td_request : 1 < Async.refcount a ->
    asyncs (store st') !! p = Some (completed a1 <| Async.refcount ::= Z.add (-1) |>) /\ base (store st') = b;
}.

(** The end of a task that left the request as [a1]. *)
Lemma finish_run st held reg i p a a1 b fd k idle (Q : unit -> SimpleStore -> Prop) :
  cfg_ok (mkConfig (store st) held reg) -> tasks (store st) !! i = Some p -> asyncs (store st) !! p = Some a ->
  a1 = (running a) <| Async.range_done := Async.range_done a1 |> <| Async.result := Async.result a1 |>
         <| Async.data := Async.data a1 |> ->
  selects a1 = false -> (forall q, Async.data a1 = Some q -> is_Some (strs b !! q)) ->
  heap_ok (fun q => store_refs nox (store st) q - points q (Async.data a) + points q (Async.data a1)) nox b ->
  (forall s, task_done st held reg i p a a1 b (mkSimpleStore s [] ∅) ->
     wp (if Async.result a1 =? 0 then put_connection fd else close_fd fd)
       (mkSimpleStore s idle (<[fd := k]> (sockets st))) Q) ->
  wp (simplestore_finish fd (Some p)) (with_request ((take_task i st) <| fd_pool := idle |>) p fd a1 b k) Q.
Proof.
  intros Hok Hi Hp Ea Hsel Hl Hh HQ. unfold simplestore_finish. wp_step. apply wp_req_load. wp_step. apply wp_on_store.
  pose proof (task_end_ok (mkConfig (store st) held reg) i p a a1 b Hok Hi Hp Ea Hsel Hl Hh) as Hend.
  match type of Hend with wp _ ?s _ => match goal with |- wp _ ?t _ => replace t with s; [|by apply StoreSys_ext] end end.
  eapply wp_mono; [exact Hend|]. intros ? s (H1 & H2 & _ & H4). apply HQ. by split.
Qed.

(** The request of a task. *)
Lemma pending_task st held reg i p :
  cfg_ok (mkConfig (store st) held reg) -> tasks (store st) !! i = Some p ->
  exists a, asyncs (store st) !! p = Some a /\ is_Some (Async.key a) /\ (p ∈ held -> 1 < Async.refcount a) /\
    (Async.op a = STORE_OP_GET /\ Async.data a = None \/
     Async.op a = STORE_OP_PUT /\ exists q, Async.data a = Some q /\ 0 < store_refs nox (store st) q).
Proof.
  intros Hok Hi. set (c := mkConfig (store st) held reg) in Hok.
  pose proof (ptrs_to_elem p (tasks (store st)) ltac:(by eapply list_elem_of_lookup_2)) as Ht.
  pose proof (notes_to_nonneg p (pool (store st))). pose proof (ptrs_to_nonneg p held).
  destruct (co_dom _ Hok p) as [a Hp]; [simpl; lia|]. change (asyncs (store st) !! p = Some a) in Hp. exists a.
  pose proof (co_async _ Hok p a Hp) as Ha. destruct (co_refs _ Hok p a Hp) as [Hr _]. simpl in Hr.
  pose proof (ao_status _ _ _ _ Ha) as Hs. pose proof (ao_data _ _ _ _ Ha) as Hd. simpl in Hs.
  assert (Hpend : Async.status a = ASYNC_PENDING) by (destruct (Async.status a); done || lia).
  rewrite Hpend in Hs, Hd. destruct Hs as (_ & _ & Hop). specialize (Hd ltac:(done)).
  destruct (ao_op _ _ _ _ Ha) as [Hnb Hnd]. split_and!; [done| | |].
  - by destruct (ao_key _ _ _ _ Ha).
  - intros Hin. pose proof (ptrs_to_elem p held Hin). lia.
  - destruct (Async.op a) eqn:Eop; try done; [left|right]; (split; [done|]); [done|].
    destruct Hd as [q Hd]. exists q. split; [done|]. unfold store_refs, nox.
    pose proof (async_strs_lookup _ _ _ q Hp) as Hl. rewrite Hd, points_self in Hl.
    pose proof (memory_strs_nonneg (memory (store st)) q). lia.
Qed.

(** What [socket] and [connect] may do: new connections end some time. *)
Definition dial_ok (d : dial) : Prop :=
  match d with Connected fd k => 0 <= fd /\ ends (Socket.incoming k) | _ => True end.

(** The connection goes back to the pool or is closed. *)
Lemma release_connection_ok (ok : bool) s fd k idle socks (Q : SimpleStore -> Prop) :
  NoDup (fd :: idle) -> zlen idle <= MAX_IDLE_CONNECTIONS -> 0 <= fd -> (ok = true -> ends (Socket.incoming k)) ->
  (forall f, f ∈ idle -> 0 <= f /\ exists k', socks !! f = Some k' /\ ends (Socket.incoming k')) ->
  (forall st', store st' = s -> pool_ok st' -> (ok = true -> sockets st' !! fd = Some k /\ fd ∈ fd_pool st') -> Q st') ->
  wp (if ok then put_connection fd else close_fd fd) (mkSimpleStore s idle (<[fd := k]> socks)) (fun _ => Q).
Proof.
  intros Hnd Hl Hfd Hk Hi HQ. pose proof Hnd as [Hnin Hnd']%NoDup_cons. destruct ok.
  - eapply wp_mono; [by apply (put_connection_ok fd k); [| |apply lookup_insert_eq]|].
    intros ? st' (Es & Hnd1 & Hl1 & Hin & Hpool). simpl in Hpool. apply HQ; [done| |].
    + split; [done| |done]. intros f Hf. destruct (Hpool f Hf) as [Hin' ->].
      apply elem_of_cons in Hin' as [->|Hin']; [split; [done|]; exists k; split; [apply lookup_insert_eq|by apply Hk]|].
      rewrite lookup_insert_ne by (intros ->; done). by apply Hi.
    + intros _. destruct (Hpool fd Hin) as [_ ->]. split; [apply lookup_insert_eq|done].
  - unfold close_fd. wp_step. apply HQ; [done| |done]. split; [done| |done]. simpl. intros f Hf.
    rewrite lookup_delete_ne, lookup_insert_ne by (intros ->; done). by apply Hi.
Qed.

(** The data of a request is there. *)
Lemma request_data st held reg p a q :
  cfg_ok (mkConfig (store st) held reg) -> asyncs (store st) !! p = Some a -> Async.data a = Some q ->
  is_Some (strs (base (store st)) !! q).
Proof.
  intros Hok Hp Hq. apply (owned_string _ _ q (so_heap _ _ (co_store _ Hok))).
  pose proof (async_strs_lookup _ _ _ q Hp) as Hl. rewrite Hq, points_self in Hl. simpl. unfold store_refs, nox.
  pose proof (memory_strs_nonneg (memory (store st)) q). lia.
Qed.

(** The request after the body of a task. *)
Inductive worked (st : SimpleStore) (a : Async.t) : Async.t -> State -> Prop :=
  | worked_failed : worked st a (failed (running a)) (base (store st))
  | worked_fetched q b : Async.op a = STORE_OP_GET -> Async.data a = None ->
      heap_ok (xadd (store_refs nox (store st)) (Some q)) nox b -> is_Some (strs b !! q) ->
      worked st a (fetched (running a) q) b
  | worked_stored : Async.op a = STORE_OP_PUT -> worked st a (stored (running a)) (base (store st)).

(** The end of a task, for what its body may have done. *)
Lemma worked_finish st held reg i p a a1 b fd k idle (Q : unit -> SimpleStore -> Prop) :
  cfg_ok (mkConfig (store st) held reg) -> tasks (store st) !! i = Some p -> asyncs (store st) !! p = Some a ->
  worked st a a1 b ->
  (forall s, task_done st held reg i p a a1 b (mkSimpleStore s [] ∅) ->
     wp (if Async.result a1 =? 0 then put_connection fd else close_fd fd)
       (mkSimpleStore s idle (<[fd := k]> (sockets st))) Q) ->
  wp (simplestore_finish fd (Some p)) (with_request ((take_task i st) <| fd_pool := idle |>) p fd a1 b k) Q.
Proof.
  intros Hok Hi Hp Hw HQ. pose proof (so_heap _ _ (co_store _ Hok)) as Hh. simpl in Hh.
  pose proof (fun q => request_data st held reg p a q Hok Hp) as Hlive.
  destruct Hw as [|q b Hop Hd Hst Hq|Hop]; eapply (finish_run st held reg i p a); try done; try (by destruct a).
  all: try (unfold selects; simpl; rewrite ?andb_false_r; simpl; rewrite ?andb_false_r; done).
  all: try (eapply heap_ok_xeq; [|exact Hh]; intros r; simpl; lia).
  - by intros ? [= <-].
  - eapply heap_ok_xeq; [|exact Hst]. intros r. rewrite Hd. unfold xadd. simpl. rewrite points_None. lia.
  - unfold selects. simpl. by rewrite bool_decide_eq_false_2 by (by rewrite Hop).
Qed.

(** A connection is found, or the task ends at once. *)
Lemma connection_cases st d :
  pool_ok st -> dial_ok d ->
  (exists fd k idle, connects st d fd k idle /\ 0 <= fd /\ ends (Socket.incoming k) /\ NoDup (fd :: idle) /\
     zlen idle <= MAX_IDLE_CONNECTIONS /\ (forall f, f ∈ idle -> f ∈ fd_pool st)) \/
  fd_pool st = [] /\ (d = NoSocket \/ exists fd, d = Refused fd).
Proof.
  intros [Hnd Ho Hl] Hd. destruct (fd_pool st) as [|fd idle] eqn:Ep.
  - destruct d as [|fd|fd k]; [right; by split; [|left]|right; split; [done|right; by exists fd]|left].
    destruct Hd as [Hfd He]. exists fd, k, []. split_and!; [right; by split_and!|done|done|apply NoDup_singleton|done|].
    by intros f ?%not_elem_of_nil.
  - left. destruct (Ho fd) as (Hfd & k & Hk & He); [by left|]. exists fd, k, idle.
    split_and!; [left; by split|done|done|done|simpl in Hl; lia|]. intros f Hf. by right.
Qed.

(** Without a connection the request is complete, with the result it had. *)
Lemma no_connection_ok st held reg i p a d :
  cfg_ok (mkConfig (store st) held reg) -> tasks (store st) !! i = Some p -> asyncs (store st) !! p = Some a ->
  Async.op a = STORE_OP_GET /\ Async.data a = None \/ Async.op a = STORE_OP_PUT ->
  fd_pool st = [] -> d = NoSocket \/ (exists fd, d = Refused fd) ->
  wp (simplestore_task (Some p) d) (take_task i st) (fun _ st' =>
    task_done st held reg i p a (running a) (base (store st)) st' /\ fd_pool st' = []).
Proof.
  intros Hok Hi Hp Hop Ep Hd. pose proof (so_heap _ _ (co_store _ Hok)) as Hh. simpl in Hh.
  pose proof (task_end_ok (mkConfig (store st) held reg) i p a (running a) (base (store st)) Hok Hi Hp) as Hend.
  unfold simplestore_task. wp_step. apply wp_on_store. eapply wp_aupd; [exact Hp|]. wp_step.
  assert (Hconn : forall st1 (R : Z -> SimpleStore -> Prop), fd_pool st1 = [] ->
    (forall st2, store st2 = store st1 -> fd_pool st2 = [] -> R (-1) st2) -> wp (get_connection d) st1 R).
  { intros st1 R E1 HR. unfold get_connection. wp_step. wp_step. rewrite E1.
    destruct Hd as [->|[fd ->]]; [wp_step; by apply HR|wp_step; wp_step; wp_step; by apply HR]. }
  apply Hconn; [done|]. intros st2 E2 Ep2. simpl. apply wp_on_store. rewrite E2.
  match type of Hend with _ -> _ -> _ -> _ -> wp _ ?s _ => match goal with |- wp _ ?t _ => replace t with s; [|by apply StoreSys_ext] end end.
  eapply wp_mono; [apply Hend|].
  - by destruct a.
  - unfold selects. simpl. destruct Hop as [[_ ->]| ->]; [by rewrite !andb_false_r|done].
  - intros q Hq. by eapply (request_data st held reg p a).
  - eapply heap_ok_xeq; [|exact Hh]. intros r. simpl. lia.
  - intros ? s (H1 & H2 & _ & H4). by split.
Qed.


(** ** Client and server *)
Section exchange.
Context `{ServerOS}.

(** The task [m] uses the connection [fd] to a process [srv] of the server: it sends
    [command], and however this arrives, the process carries it out and waits again;
    however its answer arrives, the task ends, and [Q] holds.  What was sent can be
    told as long as the connection is open. *)
Definition exchange (m : M SimpleStore unit) (fd : Z) (command : bytes) (st : SimpleStore) (srv : Server)
    (Q : SimpleStore -> Server -> Prop) : Prop :=
  forall evs, delivers evs command ->
  wp (handle_connection (length evs + 3)) (deliver evs srv) (fun w srv' => w = true /\ exists answer,
    Socket.sent (client srv') = Socket.sent (client srv) ++ answer /\
    forall evs' outs, delivers evs' answer -> sends outs ->
    wp m (st <| sockets ::= <[fd := Socket.mk evs' outs []]> |>) (fun _ st' =>
      (forall k, sockets st' !! fd = Some k -> Socket.sent k = command) /\ Q st' srv')).

(** A process that waits for its client, with the objects [m] in its directory. *)
Definition stores_map (srv : Server) (m : gmap bytes bytes) : Prop :=
  idle srv /\ forall key, key_ok key -> server_files srv !! normalize_path key = m !! key.

(** A client with the connection [fd] in its pool. *)
Record client_ok (st : SimpleStore) (held : list ptr) (reg : list (nat * ptr)) (fd : Z) (idle : list Z) : Prop := {
  cl_store : cfg_ok (mkConfig (store st) held reg);
  cl_pool : fd_pool st = fd :: idle;
  cl_nodup : NoDup (fd :: idle);
  cl_size : zlen idle <= MAX_IDLE_CONNECTIONS;
  cl_fd : 0 <= fd;
}.

(** The task up to its end, on a connection whose socket is known. *)
Lemma client_run st held reg i p a d fd idle k Q :
  client_ok st held reg fd idle -> asyncs (store st) !! p = Some a ->
  wp (match Async.op a with
      | STORE_OP_GET => simplestore_get fd (Some p)
      | STORE_OP_PUT => simplestore_put fd (Some p)
      | _ => mret tt
      end) (with_request ((take_task i st) <| fd_pool := idle |>) p fd (running a) (base (store st)) k)
    (fun _ st1 => wp (simplestore_finish fd (Some p)) st1 Q) ->
  wp (simplestore_task (Some p) d) ((take_task i st) <| sockets ::= <[fd := k]> |>) Q.
Proof.
  intros [Hok Hpool Hnd Hl Hfd] Hp Hw. change ((take_task i st) <| sockets ::= <[fd := k]> |>) with
    (take_task i (st <| sockets ::= <[fd := k]> |>)).
  eapply (task_run _ i p a d fd k idle); [done|left; split; [done|apply lookup_insert_eq]|done|].
  replace (with_request _ _ _ _ _ _) with (with_request ((take_task i st) <| fd_pool := idle |>) p fd (running a) (base (store st)) k);
    [exact Hw|]. apply SimpleStore_ext; [done|done|]. simpl. by rewrite insert_insert_eq.
Qed.

(** Its end. *)
Lemma client_finish st held reg i p a a1 b fd idle k (Q : SimpleStore -> Prop) :
  client_ok st held reg fd idle -> tasks (store st) !! i = Some p -> asyncs (store st) !! p = Some a ->
  worked st a a1 b ->
  (forall st', task_done st held reg i p a a1 b st' -> NoDup (fd_pool st') ->
     (Async.result a1 = 0 -> sockets st' !! fd = Some k /\ fd ∈ fd_pool st') ->
     (Async.result a1 <> 0 -> sockets st' !! fd = None /\ fd ∉ fd_pool st') -> Q st') ->
  wp (simplestore_finish fd (Some p)) (with_request ((take_task i st) <| fd_pool := idle |>) p fd a1 b k) (fun _ => Q).
Proof.
  intros [Hok Hpool Hnd Hl Hfd] Hi Hp Hw HQ. eapply worked_finish; [exact Hok|done|done|exact Hw|]. intros s [H1 H2 H3]. simpl in *.
  destruct (Z.eqb_spec (Async.result a1) 0) as [E|E].
  - eapply wp_mono; [by apply (put_connection_ok fd k); [| |apply lookup_insert_eq]|].
    intros ? st' (Es & Hnd1 & _ & Hin & Hsock). destruct (Hsock fd Hin) as [_ Hk]. simpl in Hk. rewrite lookup_insert_eq in Hk.
    apply HQ; [split; by rewrite Es|done|by split|done].
  - unfold close_fd. wp_step. apply NoDup_cons in Hnd as [Hnin Hnd]. apply HQ; [by split|done|done|].
    intros _. simpl. by rewrite lookup_delete_eq.
Qed.

(** What becomes of a request that its client still holds. *)
Definition finished (st : SimpleStore) (held : list ptr) (p : ptr) (P : Async.t -> Prop) : Prop :=
  p ∈ held -> exists a, asyncs (store st) !! p = Some a /\ Async.status a = ASYNC_COMPLETE /\ P a.

(** C16: a PUT request through the simple store puts the object into the map that the
    server keeps, whatever pieces the network makes of the command, the object and the
    answer; the request is complete with result 0, the invariant of the storage layer
    holds, and the connection is in the pool again. *)
Theorem simplestore_put_refines st held reg i p a d fd idle srv m key q data :
  client_ok st held reg fd idle -> tasks (store st) !! i = Some p -> asyncs (store st) !! p = Some a ->
  Async.op a = STORE_OP_PUT -> Async.key a = Some key -> Async.data a = Some q -> holds_bytes (base (store st)) q data ->
  stores_map srv m -> key_ok key -> zlen data <= MAX_OBJECT_SIZE -> malloc_ok (zlen data) = true ->
  creat_ok (normalize_path key) = true -> disk_full (normalize_path key) data = None ->
  exchange (simplestore_task (Some p) d) fd (put_command key (zlen data) ++ data) (take_task i st) srv (fun st' srv' =>
    stores_map srv' (<[key := data]> m) /\ cfg_ok (mkConfig (store st') held reg) /\ fd ∈ fd_pool st' /\
    finished st' held p (fun a' => Async.result a' = 0)).
Proof.
  intros Hcl Hi Hp Hop Hkey Hq (str & Hstr & Hb) [Hidle Hm] Hk Hsz Hmal Hcr Hdf evs Hd.
  pose proof (cl_store _ _ _ _ _ Hcl) as Hok. pose proof (so_heap _ _ (co_store _ Hok)) as Hh. simpl in Hh.
  destruct (pending_task _ _ _ _ _ Hok Hi) as (a0 & Hp0 & _ & Hheld & _). assert (a0 = a) as -> by congruence.
  eapply wp_mono; [by apply (serve_put_ok srv key data evs)|]. intros w srv' (-> & Hidle' & Ef & Es). split; [done|].
  exists response_ok. split; [done|]. intros evs' outs Hd' Ho.
  eapply client_run; [exact Hcl|exact Hp|]. rewrite Hop.
  eapply wp_mono; [apply (put_ok _ p fd (running a) _ _ key q str data); try done; by eapply str_len_bytes|].
  intros ? st1 (k' & -> & Ek). eapply client_finish; [done|done|done|by constructor|].
  intros st' [H1 H2 H3] _ Hin _. destruct (Hin eq_refl) as [Hsock Hpool]. split; [intros k; rewrite Hsock; by intros [= <-]|].
  split_and!; [|done|done|].
  - split; [done|]. intros key' Hk'. rewrite Ef. destruct (decide (key' = key)) as [->|Hne]; [by rewrite !lookup_insert_eq|].
    rewrite !lookup_insert_ne; [by apply Hm|done|]. intros E. by apply Hne, normalize_path_inj.
  - intros Hh'. destruct (H3 (Hheld Hh')) as [Ea _]. eexists. split_and!; [exact Ea|done|done].
Qed.

(** C15: a GET request through the simple store reads the map that the server keeps: if
    the key has an object, the request is complete with the bytes of the object at the
    offset asked for, at most as many as asked for; if not, it fails and the connection
    is closed.  The map stays as it was. *)
Theorem simplestore_get_refines st held reg i p a d fd idle srv m key :
  client_ok st held reg fd idle -> tasks (store st) !! i = Some p -> asyncs (store st) !! p = Some a ->
  Async.op a = STORE_OP_GET -> Async.key a = Some key -> 0 <= Async.start a < 2 ^ 31 -> 0 <= Async.len a < 2 ^ 31 ->
  stores_map srv m -> key_ok key -> (forall c, m !! key = Some c -> zlen c < 2 ^ 31) ->
  exchange (simplestore_task (Some p) d) fd (get_command key (Async.start a) (Async.len a)) (take_task i st) srv
    (fun st' srv' => stores_map srv' m /\ cfg_ok (mkConfig (store st') held reg) /\
      match m !! key with
      | Some c => fd ∈ fd_pool st' /\ finished st' held p (fun a' => Async.result a' = 0 /\ exists q,
          Async.data a' = Some q /\ holds_bytes (base (store st')) q (object_range c (Async.start a) (Async.len a)))
      | None => (fd ∉ fd_pool st') /\ finished st' held p (fun a' => Async.result a' = -1 /\ Async.data a' = None)
      end).
Proof.
  intros Hcl Hi Hp Hop Hkey Hst Hln [Hidle Hm] Hk Hsize evs Hd.
  pose proof (cl_store _ _ _ _ _ Hcl) as Hok. pose proof (so_heap _ _ (co_store _ Hok)) as Hh. simpl in Hh.
  destruct (pending_task _ _ _ _ _ Hok Hi) as (a0 & Hp0 & _ & Hheld & Hkind). assert (a0 = a) as -> by congruence.
  destruct Hkind as [[_ Hnone]|[? _]]; [|congruence].
  eapply wp_mono; [by apply (serve_get_ok srv key (Async.start a) (Async.len a) evs)|]. intros w srv' (-> & Hidle' & Ef & Es). split; [done|].
  rewrite (Hm key Hk) in Es. exists (get_answer (m !! key) (Async.start a) (Async.len a)). split; [done|].
  assert (Hmap : stores_map srv' m) by (split; [done|by rewrite Ef]). intros evs' outs Hd' Ho.
  eapply client_run; [exact Hcl|exact Hp|]. rewrite Hop. destruct (m !! key) as [c|].
  - eapply wp_mono; [apply (get_ok _ p fd (running a) _ _ key (object_range c (Async.start a) (Async.len a)) (store_refs nox (store st))); try done|].
    { specialize (Hsize c eq_refl). unfold object_range. destruct (0 <? Async.len a); rewrite ?length_take, ?length_drop; lia. }
    intros ? st1 (q & b' & k' & -> & Hb' & Hq & Ek). pose proof Hq as (str & Hstr & _).
    eapply client_finish; [done|done|done|by constructor; [..|exists str]|].
    intros st' [H1 H2 H3] _ Hin _. destruct (Hin eq_refl) as [Hsock Hpool]. split; [intros k; rewrite Hsock; by intros [= <-]|].
    split_and!; [done|done|done|]. intros Hh'. destruct (H3 (Hheld Hh')) as [Ea Eb]. eexists.
    split_and!; [exact Ea|done|done|]. exists q. split; [done|]. by rewrite Eb.
  - eapply wp_mono; [by apply (get_missing_ok _ p fd (running a) _ _ key)|].
    intros ? st1 (k' & -> & Ek). eapply client_finish; [done|done|done|constructor|].
    intros st' [H1 H2 H3] _ _ Hout. destruct (Hout ltac:(done)) as [Hsock Hpool]. split; [by rewrite Hsock|].
    split_and!; [done|done|done|]. intros Hh'. destruct (H3 (Hheld Hh')) as [Ea _]. eexists.
    split_and!; [exact Ea|done|done|exact Hnone].
Qed.
End exchange.

(** ** Instances *)
Section witnesses.
#[local] Instance any_files : FileSystem := {| g_file_set_contents_ok _ _ := true |}.
#[local] Existing Instance counter_env.

(** A system without limits. *)
#[local] Instance plain_os : ServerOS.
Proof.
  refine {| dir_size _ := None; creat_ok _ := true; malloc_ok _ := true; read_count _ n := n; disk_full _ _ := None |}.
  lia.
Defined.

Definition simple_initial : Config := initial <| sys ::= fun s => s <| store_impl := simplestore_impl |> |>.

Lemma simple_initial_ok : cfg_ok simple_initial.
Proof. destruct initial_ok. split; try done. by right. Qed.

Lemma client_step_ok c act :
  cfg_ok c -> enabled c act -> is_Some (match perform act c with Ok _ _ => Some tt | Stop _ => None end) -> cfg_ok (after act c).
Proof.
  intros Hc He Hp. pose proof (perform_ok eq_refl c act Hc He) as Hw. unfold after, wp in *.
  destruct (perform act c); [done|by destruct Hp].
Qed.

(** One client wants an object to be written, another one wants the second and the
    third byte of it. *)
Definition put_request : Config := after (Submit 0) (after (Put 0 [107] [1; 2; 3; 4]) (after New simple_initial)).
Definition get_request : Config := after (Submit 0) (after (Get 0 [107] 1 2) (after New simple_initial)).

Lemma put_request_ok : cfg_ok put_request.
Proof.
  apply client_step_ok; [apply client_step_ok; [apply client_step_ok; [apply simple_initial_ok|exact I|]|..]|..].
  all: try (eexists; vm_compute; reflexivity).
  - eexists _, _. split_and!; vm_compute; reflexivity.
  - eexists _, _. split_and!; [vm_compute; reflexivity..|]. discriminate.
Qed.

Lemma get_request_ok : cfg_ok get_request.
Proof.
  apply client_step_ok; [apply client_step_ok; [apply client_step_ok; [apply simple_initial_ok|exact I|]|..]|..].
  all: try (eexists; vm_compute; reflexivity).
  - eexists _, _. split_and!; vm_compute; reflexivity.
  - eexists _, _. split_and!; [vm_compute; reflexivity..|]. discriminate.
Qed.

Definition one_client (c : Config) : SimpleStore := mkSimpleStore (sys c) [5] {[5 := Socket.mk [Received []] [] []]}.
Definition new_server (files : gmap bytes bytes) : Server :=
  mkServer files (Socket.mk [] [] []) (replicate 4096 0) 0.

Lemma one_client_ok c : cfg_ok c -> client_ok (one_client c) (held c) (registered c) 5 [].
Proof. intros Hc. destruct c as [s h r]. split; try done. apply NoDup_singleton. Qed.

Lemma new_server_idle files : idle (new_server files).
Proof. split; [|done|constructor]. exists (replicate 4096 0). by split_and!. Qed.

Lemma key_107_ok : key_ok [107].
Proof. split; [|done|done]. split; [done|]. by repeat constructor. Qed.


Lemma simplestore_put_refines_witness :
  exchange (simplestore_task (Some 1%positive) NoSocket) 5 (put_command [107] 4 ++ [1; 2; 3; 4])
    (take_task 0 (one_client put_request)) (new_server ∅) (fun st' srv' =>
    stores_map srv' {[[107] := [1; 2; 3; 4]]}).
Proof.
  intros evs Hd.
  refine (wp_mono _ _ _ _ (simplestore_put_refines (one_client put_request) (held put_request) (registered put_request) 0 1%positive _
    NoSocket 5 [] (new_server ∅) ∅ [107] 1%positive [1; 2; 3; 4] (one_client_ok _ put_request_ok) eq_refl eq_refl eq_refl
    eq_refl eq_refl _ _ key_107_ok _ eq_refl eq_refl eq_refl evs Hd) _).
  - eexists. by split.
  - split; [apply new_server_idle|done].
  - by vm_compute.
  - intros w srv' (-> & answer & Ea & Hc). split; [done|]. exists answer. split; [done|]. intros evs' outs Hd' Ho.
    eapply wp_mono; [by apply (Hc evs' outs)|]. intros ? st' (Hk & Hmap & _). by split.
Defined.

Lemma simplestore_get_refines_witness :
  exchange (simplestore_task (Some 1%positive) NoSocket) 5 (get_command [107] 1 2)
    (take_task 0 (one_client get_request)) (new_server {[[107] := [1; 2; 3; 4]]}) (fun st' srv' =>
    exists a q, asyncs (store st') !! 1%positive = Some a /\ Async.data a = Some q /\
      holds_bytes (base (store st')) q [2; 3]).
Proof.
  intros evs Hd.
  refine (wp_mono _ _ _ _ (simplestore_get_refines (one_client get_request) (held get_request) (registered get_request) 0 1%positive _
    NoSocket 5 [] (new_server {[[107] := [1; 2; 3; 4]]}) {[[107] := [1; 2; 3; 4]]} [107] (one_client_ok _ get_request_ok)
    eq_refl eq_refl eq_refl eq_refl _ _ _ key_107_ok _ evs Hd) _).
  - by vm_compute.
  - by vm_compute.
  - split; [apply new_server_idle|]. intros key _. simpl. destruct (decide (key = [107])) as [->|Hne]; [done|].
    rewrite !lookup_singleton_ne; [done|done|]. intros E. apply Hne. by apply normalize_path_inj.
  - intros c. rewrite lookup_singleton_eq. intros [= <-]. by vm_compute.
  - intros w srv' (-> & answer & Ea & Hc). split; [done|]. exists answer. split; [done|]. intros evs' outs Hd' Ho.
    eapply wp_mono; [by apply (Hc evs' outs)|]. intros [] st' (Hk & _ & _ & Hget). split; [done|].
    rewrite lookup_singleton_eq in Hget. destruct Hget as [_ Hfin]. destruct Hfin as (a & Hp & _ & _ & q & Hq & Hb); [by left|].
    by exists a, q.
Defined.

(** ** What goes wrong *)

(** The request of a task, and its data, when the server closes the connection without
    an answer. *)
Definition unanswered (c : Config) : option (Z * option bytes) :=
  match simplestore_task (Some 1%positive) NoSocket (take_task 0 (one_client c)) with
  | Ok _ st =>
    a ← asyncs (store st) !! 1%positive;
    q ← Async.data a;
    str ← strs (base (store st)) !! q;
    Some (Async.result a, str_bytes (base (store st)) str)
  | Stop _ => None
  end.

(** An object that was never stored is reported as stored. *)
Example closed_connection_stores : unanswered put_request = Some (0, Some [1; 2; 3; 4]).
Proof. vm_compute. reflexivity. Qed.

(** An object that could not be read is reported as an empty one. *)
Example closed_connection_reads : unanswered get_request = Some (0, Some []).
Proof. vm_compute. reflexivity. Qed.

(** What a server answers to one piece of input, and the files it has then. *)
Definition answer_to (files : gmap bytes bytes) (input : bytes) : option (bytes * gmap bytes bytes) + fault :=
  match handle_connection 100 (deliver [Received input] (new_server files)) with
  | Ok true s => inl (Some (Socket.sent (client s), server_files s))
  | Ok false _ => inl None
  | Stop e => inr e
  end.

(** A line of five words overflows the array of arguments: ["GET k 0 0 0\n"]. *)
Example five_words_overflow :
  answer_to ∅ [71; 69; 84; 32; 107; 32; 48; 32; 48; 32; 48; 10] = inr OutOfBounds.
Proof. vm_compute. reflexivity. Qed.

(** A command that arrives together with the object before it is lost: only the PUT is
    answered. *)
Example command_after_object_lost :
  answer_to ∅ (put_command [107] 1 ++ [88] ++ get_command [107] 0 0)
  = inl (Some (response_ok, {[[107] := [88]]})).
Proof. vm_compute. reflexivity. Qed.

(** DELETE is not answered and removes nothing. *)
Example delete_ignored :
  answer_to {[[107] := [88]]} [68; 69; 76; 69; 84; 69; 32; 107; 10] = inl (Some ([], {[[107] := [88]]})).
Proof. vm_compute. reflexivity. Qed.
End witnesses.
