(* ===== verification/ItemTable.v ===== *)
(** * The table of log items (src/bluesky/cloudlog.c)

    [fs->locations] leads from identifiers to items.  It holds exactly the items
    in use, and dropping references keeps it that way: an item whose last reference
    goes leaves the table, and takes no other entry with it. *)

From S2P Require Import Prelude State Strings Ownership CloudLog Roundtrip RoundtripItem.
From Stdlib Require Import ZArith Lia.
From stdpp Require Import base numbers gmap option list.

Open Scope Z_scope.

Definition table_ok (s : State) : Prop := forall id p,
  FS.locations (fs s) !! id = Some p <->
  exists l, cloudlogs s !! p = Some l /\ 0 < CloudLog.refcount l /\ CloudLog.id l = id.

Lemma table_ok_live s : table_ok s -> table_live s.
Proof. intros T id p Hp. apply T in Hp as (l & Hl & Hr & _). eauto. Qed.

(** No count grows, and the table stays in order. *)
Record lowers (s s' : State) : Prop := {
  lw_count : forall p l', cloudlogs s' !! p = Some l' ->
    exists l, cloudlogs s !! p = Some l /\ CloudLog.refcount l' <= CloudLog.refcount l;
  lw_table : table_ok s -> table_ok s';
}.

#[export] Instance lowers_preorder : PreOrder lowers.
Proof.
  split.
  - intros s. split; [|done]. intros p l Hl. exists l. split; [done|lia].
  - intros s1 s2 s3 [C1 T1] [C2 T2]. split; [|auto]. intros p l3 H3.
    destruct (C2 p l3 H3) as (l2 & H2 & R2). destruct (C1 p l2 H2) as (l1 & H1 & R1).
    exists l1. split; [done|lia].
Qed.

Lemma table_ok_same s s' :
  cloudlogs s' = cloudlogs s -> FS.locations (fs s') = FS.locations (fs s) -> table_ok s -> table_ok s'.
Proof. intros El Ef T id p. rewrite El, Ef. apply T. Qed.

Lemma lowers_same s s' :
  cloudlogs s' = cloudlogs s -> FS.locations (fs s') = FS.locations (fs s) -> lowers s s'.
Proof.
  intros El Ef. split; [|by apply table_ok_same]. rewrite El. intros p l Hl. exists l. split; [done|lia].
Qed.

(** Changing an item: the table does not notice, as long as the item keeps its
    identifier and stays in use. *)
Lemma table_ok_set_log s p l l' :
  cloudlogs s !! p = Some l -> CloudLog.id l' = CloudLog.id l ->
  (0 < CloudLog.refcount l' <-> 0 < CloudLog.refcount l) -> table_ok s -> table_ok (set_log p l' s).
Proof.
  intros Hp Ei Hr T id q. simpl. rewrite (T id q). destruct (decide (q = p)) as [->|Hne].
  - rewrite Hp, lookup_insert_eq. split; intros (x & [= <-] & ? & ?); eexists;
      (split; [done|]); (split; [tauto|congruence]).
  - by rewrite lookup_insert_ne.
Qed.

(** The item that loses its last reference is taken out of the table. *)
Lemma table_ok_detach s s' p l l' :
  cloudlogs s !! p = Some l -> 0 < CloudLog.refcount l -> CloudLog.refcount l' <= 0 ->
  cloudlogs s' = <[p := l']> (cloudlogs s) ->
  FS.locations (fs s') = delete (CloudLog.id l) (FS.locations (fs s)) -> table_ok s -> table_ok s'.
Proof.
  intros Hp Hr Hr' El Ef T id q. rewrite El, Ef.
  assert (Hid : FS.locations (fs s) !! CloudLog.id l = Some p) by (apply T; eauto).
  split.
  - intros H. apply lookup_delete_Some in H as [Hne H]. apply T in H as (x & Hx & ? & ?).
    exists x. split; [|done]. rewrite lookup_insert_ne; [done|]. intros ->. congruence.
  - intros (x & Hx & Hrx & Hi). destruct (decide (q = p)) as [->|Hne].
    { rewrite lookup_insert_eq in Hx. injection Hx as <-. lia. }
    rewrite lookup_insert_ne in Hx by done. assert (Hq : FS.locations (fs s) !! id = Some q) by (apply T; eauto).
    apply lookup_delete_Some. split; [congruence|done].
Qed.

Lemma table_ok_free s p l :
  cloudlogs s !! p = Some l -> CloudLog.refcount l <= 0 -> table_ok s -> table_ok (s <| cloudlogs ::= delete p |>).
Proof.
  intros Hp Hr T id q. simpl. rewrite (T id q). destruct (decide (q = p)) as [->|Hne].
  - rewrite lookup_delete_eq, Hp. split; intros (x & Hx & ? & ?); [simplify_eq; lia|done].
  - by rewrite lookup_delete_ne.
Qed.

(** ** Runs that end normally *)
Definition wlp {A} (m : M State A) (s : State) (Q : A -> State -> Prop) : Prop :=
  match m s with Ok a s' => Q a s' | Stop _ => True end.

Lemma wlp_bind {A B} (m : M State A) (k : A -> M State B) s Q :
  wlp m s (fun a s' => wlp (k a) s' Q) -> wlp (m ≫= k) s Q.
Proof. unfold wlp, mbind, M_bind. by destruct (m s). Qed.

Lemma wlp_mono {A} (m : M State A) s (P Q : A -> State -> Prop) :
  wlp m s P -> (forall a s', P a s' -> Q a s') -> wlp m s Q.
Proof. unfold wlp. destruct (m s); auto. Qed.

Lemma wp_wlp {A} (m : M State A) s (P Q : A -> State -> Prop) :
  wp m s P -> wlp m s Q -> wp m s (fun a s' => P a s' /\ Q a s').
Proof. unfold wp, wlp. by destruct (m s). Qed.

Lemma wlp_load {V} (heap : State -> gmap ptr V) p s Q :
  (forall v, heap s !! p = Some v -> Q v s) -> wlp (load heap (Some p)) s Q.
Proof.
  intros HQ. unfold wlp, load, get, mbind, M_bind, assume, mret, M_ret. simpl.
  destruct (heap s !! p) eqn:E; [auto|done].
Qed.

Lemma wlp_upd {V} (heap : State -> gmap ptr V) `{!Setter heap} p f s (Q : unit -> State -> Prop) :
  (forall v, heap s !! p = Some v -> Q tt (s <| heap ::= <[p := f v]> |>)) -> wlp (upd heap (Some p) f) s Q.
Proof.
  intros HQ. unfold upd. apply wlp_bind. unfold assume. apply wlp_bind, wlp_load. intros v Hv. by apply HQ.
Qed.

Lemma wlp_free {V} (heap : State -> gmap ptr V) `{!Setter heap} p s (Q : unit -> State -> Prop) :
  (forall v, heap s !! p = Some v -> Q tt (s <| heap ::= delete p |>)) -> wlp (free heap p) s Q.
Proof. intros HQ. unfold free. apply wlp_bind, wlp_load. intros v Hv. by apply (HQ v). Qed.

(** Runs that leave the items and the table alone. *)
Definition calm {A} (m : M State A) : Prop := forall s, wlp m s (fun _ s' =>
  cloudlogs s' = cloudlogs s /\ FS.locations (fs s') = FS.locations (fs s)).

Lemma calm_bind {A B} (m : M State A) (k : A -> M State B) :
  calm m -> (forall a, calm (k a)) -> calm (m ≫= k).
Proof.
  intros Hm Hk s. apply wlp_bind. eapply wlp_mono; [apply Hm|]. intros a s1 [E1 F1].
  eapply wlp_mono; [apply Hk|]. intros b s2 [E2 F2]. split; congruence.
Qed.

Lemma calm_load {V} (heap : State -> gmap ptr V) o : calm (load heap o).
Proof. intros s. destruct o as [p|]; [by apply wlp_load|done]. Qed.

Lemma calm_upd {V} (heap : State -> gmap ptr V) `{!Setter heap} o f :
  (forall s g, cloudlogs (s <| heap ::= g |>) = cloudlogs s /\ fs (s <| heap ::= g |>) = fs s) ->
  calm (upd heap o f).
Proof.
  intros Hs s. destruct o as [p|]; [|done]. apply wlp_upd. intros v _.
  destruct (Hs s (<[p := f v]>)) as [E F]. by rewrite E, F.
Qed.

Lemma calm_free {V} (heap : State -> gmap ptr V) `{!Setter heap} p :
  (forall s g, cloudlogs (s <| heap ::= g |>) = cloudlogs s /\ fs (s <| heap ::= g |>) = fs s) ->
  calm (free heap p).
Proof. intros Hs s. apply wlp_free. intros v _. destruct (Hs s (delete p)) as [E F]. by rewrite E, F. Qed.

Lemma calm_check e b : calm (check e b).
Proof. intros s. by destruct b. Qed.

Lemma calm_when b (m : M State unit) : calm m -> calm (when b m).
Proof. intros Hm. by destruct b. Qed.

Ltac calm :=
  repeat first [ apply calm_when | apply calm_load | apply calm_check | apply calm_upd; done
               | apply calm_free; done | apply calm_bind; [|intros ?]
               | match goal with |- calm (match ?x with _ => _ end) => destruct x end | done ].

Section unref.
Context `{Env}.

Lemma calm_string_unref q : calm (bluesky_string_unref q).
Proof. unfold bluesky_string_unref, bluesky_mmap_unref. calm. Qed.

Lemma detach_lowers p l s s0 :
  cloudlogs s0 !! p = Some l -> 0 < CloudLog.refcount l -> CloudLog.refcount l = 1 ->
  s = set_log p (l <| CloudLog.refcount := 0 |>) s0 ->
  wlp (cloudlog_detach p (l <| CloudLog.refcount := 0 |>)) s (fun _ s' => lowers s0 s' /\
    exists l', cloudlogs s' !! p = Some l' /\ CloudLog.refcount l' <= 0).
Proof.
  intros Hp Hr E1 ->. unfold cloudlog_detach, bluesky_cloudlog_stats_update.
  do 3 apply wlp_bind. unfold modify at 1, wlp at 1. apply wlp_load. intros v Hv. apply wlp_upd.
  intros l1 Hl1. simpl in Hl1. rewrite lookup_insert_eq in Hl1. injection Hl1 as <-.
  set (l' := setf CloudLog.type _ _). split; [split|].
  - intros q lq. simpl. rewrite insert_insert_eq. destruct (decide (q = p)) as [->|Hne].
    + rewrite lookup_insert_eq. intros [= <-]. exists l. split; [done|]. simpl. lia.
    + rewrite lookup_insert_ne by done. intros Hq. exists lq. split; [done|lia].
  - apply (table_ok_detach _ _ p l l'); [done|done|simpl; lia|simpl; by rewrite insert_insert_eq|].
    simpl. destruct (stats_add_fs (-1) (stats_counter v) ((fs s0) <| FS.locations ::= delete (CloudLog.id l) |>))
      as (d & j & cl & Ef). unfold setf in Ef |- *. simpl in Ef |- *. by rewrite Ef.
  - exists l'. split; [simpl; apply lookup_insert_eq|simpl; lia].
Qed.

Lemma unref_count_lowers s p l :
  cloudlogs s !! p = Some l -> -1 + CloudLog.refcount l <> 0 ->
  lowers s (s <| cloudlogs ::= <[p := l <| CloudLog.refcount ::= Z.add (-1) |>]> |>).
Proof.
  intros Hp Hn. split.
  - intros q lq. simpl. destruct (decide (q = p)) as [->|Hne].
    + rewrite lookup_insert_eq. intros [= <-]. exists l. split; [done|]. simpl. lia.
    + rewrite lookup_insert_ne by done. intros Hq. exists lq. split; [done|lia].
  - apply (table_ok_set_log s p l); [done|done|]. simpl. lia.
Qed.

Lemma for_each_lowers {A} (f : A -> M State unit) :
  (forall a s, wlp (f a) s (fun _ s' => lowers s s')) ->
  forall links s, wlp (for_each links f) s (fun _ s' => lowers s s').
Proof.
  intros Hf links. induction links as [|a links IH]; intros s; [by apply lowers_same|].
  apply wlp_bind. eapply wlp_mono; [apply Hf|]. intros ? s1 L1.
  eapply wlp_mono; [apply IH|]. intros ? s2 L2. exact (transitivity L1 L2).
Qed.

(** Dropping a reference, with everything that goes with it. *)
Lemma unref_rec_lowers fuel o s : wlp (cloudlog_unref_rec fuel o) s (fun _ s' => lowers s s').
Proof.
  revert o s. induction fuel as [|fuel IH]; intros [p|] s; try (change (lowers s s); reflexivity);
    cbn [cloudlog_unref_rec]; apply wlp_bind, wlp_upd; intros l Hp;
    apply wlp_bind, wlp_load; intros l1 Hl1; simpl in Hl1; rewrite lookup_insert_eq in Hl1; injection Hl1 as <-;
    unfold when; change (CloudLog.refcount (setf _ _ l)) with (-1 + CloudLog.refcount l);
    (destruct (Z.eqb_spec (-1 + CloudLog.refcount l) 0) as [E|E]; [|by apply (unref_count_lowers s p l)]); [done|].
  apply wlp_bind, wlp_load. intros l1 Hl1. simpl in Hl1. rewrite lookup_insert_eq in Hl1. injection Hl1 as <-.
  change (CloudLog.refcount (setf _ _ l)) with (-1 + CloudLog.refcount l). rewrite E. simpl (0 <? 0). cbv iota.
  assert (El : l <| CloudLog.refcount ::= Z.add (-1) |> = l <| CloudLog.refcount := 0 |>).
  { rewrite <- E. by destruct l. }
  rewrite El. apply wlp_bind. eapply wlp_mono; [by apply (detach_lowers p l _ s); [|lia|lia|]|].
  intros ? s1 (L1 & l' & Hl' & Hr'). apply wlp_bind.
  eapply wlp_mono; [apply (for_each_lowers (cloudlog_unref_rec fuel) IH)|]. intros ? s2 L2.
  apply wlp_bind. eapply wlp_mono; [apply calm_string_unref|]. intros ? s3 [El3 Ef3].
  apply wlp_free. intros l3 H3. rewrite El3 in H3. destruct (lw_count _ _ L2 p l3 H3) as (l2 & H2 & R2).
  assert (l2 = l') as -> by congruence. transitivity s1; [exact L1|]. transitivity s2; [exact L2|]. rewrite <- El3 in H3.
  transitivity s3; [by apply lowers_same|]. split.
  - intros q lq. simpl. intros Hq. apply lookup_delete_Some in Hq as [_ Hq]. exists lq. split; [done|lia].
  - apply (table_ok_free s3 p l3); [done|lia].
Qed.

Lemma unref_table xs xl s p :
  heap_ok xs (xadd xl p) s -> xnn xs -> xnn xl -> table_ok s ->
  wp (bluesky_cloudlog_unref p) s (fun _ s' => heap_ok xs xl s' /\ survive s s' /\ table_ok s').
Proof.
  intros Hok Hxs Hxl T. eapply wp_mono; [eapply wp_wlp; [by apply bluesky_cloudlog_unref_ok|]|].
  - apply unref_rec_lowers.
  - intros ? s' ((? & ?) & [_ L]). auto.
Qed.
End unref.
