(* ===== verification/Replay.v ===== *)
(** * Starting a file system (src/bluesky/log.c, src/bluesky/imap.c, src/bluesky/inode.c)

    Loading the last checkpoint from the cloud ([bluesky_checkpoint_load]),
    replaying the journal from its last commit point ([bluesky_replay]), and
    [bluesky_init_fs], which does both or creates an empty file system. *)

From S2P Require Import Prelude Crc32c Glib Rangeset State Strings Ownership CloudLog Lru Inodes Fetch Imap Serialize Journal Crypto CacheFiles LogThread InodeSync Store.
From Stdlib Require Import ZArith Lia.
From stdpp Require Import base numbers gmap option list.

Open Scope Z_scope.

(** ** Replaying the journal *)

(** Insertion into a list sorted by [strcmp]. *)
Fixpoint insert_name (name : bytes) (names : list bytes) : list bytes :=
  match names with
  | [] => [name]
  | n :: names' => match strcmp name n with Gt => n :: insert_name name names' | _ => name :: names end
  end.

(** [names] are the files of the directory in the order they are listed. *)
Definition directory_contents (names : list bytes) : list bytes :=
  foldr insert_name [] (filter (fun n => is_journal n) names).

Section replay.
Context `{GSequenceLib} `{Env} `{Gcrypt} `{DiskUsage} `{Fetch}.
Context (keys : CryptKeys.t).

(** The links of an item read back: known items only. *)
Fixpoint reload_links (link_count : nat) (data2 : bytes) : M State (list (option ptr)) :=
  match link_count with
  | O => mret []
  | S n =>
    id ← assume OutOfBounds (slice data2 0 16);
    ref ←
      (if bool_decide (id = id0) then mret None else
       s ← get;
       match FS.locations (fs s) !! id with
       | Some ref => bluesky_cloudlog_ref (Some ref);; mret (Some ref)
       | None => mret None
       end);
    rest ← reload_links n (drop 16 data2);
    mret (ref :: rest)
  end.

Definition reload_item (log_item : option ptr) (data2 : bytes) (len2 : Z) : M State unit :=
  bluesky_cloudlog_stats_update log_item (-1);;
  l ← load cloudlogs log_item;
  bluesky_string_unref (CloudLog.data l);;
  upd cloudlogs log_item (fun l =>
    l <| CloudLog.data := None |> <| CloudLog.location_flags := CLOUDLOG_JOURNAL |>);;
  bluesky_cloudlog_stats_update log_item 1;;
  new_links ← reload_links (Z.to_nat (len2 / 16)) data2;
  l ← load cloudlogs log_item;
  for_each (CloudLog.links l) bluesky_cloudlog_unref;;
  upd cloudlogs log_item (fun l => l <| CloudLog.links := new_links |>).

(** The inode of this number, if need be a new one. *)
Definition replay_find_inode (inum : Z) : M State ptr :=
  s ← get;
  match FS.inodes (fs s) !! inum with
  | Some inode => mret inode
  | None =>
    inode ← bluesky_new_inode inum BLUESKY_PENDING;
    upd inodes (Some inode) (fun i => i <| Inode.change_count := 0 |>);;
    bluesky_insert_inode (Some inode);;
    mret inode
  end.

(** The inode read from [log_item] enters the lists; it is in the journal but not in
    the cloud. *)
Definition replay_adopt (log_item inode : ptr) (inum : Z) : M State unit :=
  modify (fun s => s <| fs ::= (fun f =>
    f <| FS.next_inum ::= fun n => Z.max n (u64 (inum + 1)) |>) |>);;
  i ← load inodes (Some inode);
  fs_list_unlink FS.accessed_list (Inode.accessed_list i);;
  link ← fs_list_prepend FS.accessed_list inode;
  upd inodes (Some inode) (fun i => i <| Inode.accessed_list := Some link |>);;
  fs_list_unlink FS.dirty_list (Inode.dirty_list i);;
  link ← fs_list_prepend FS.dirty_list inode;
  upd inodes (Some inode) (fun i => i <| Inode.dirty_list := Some link |>);;
  fs_list_unlink FS.unlogged_list (Inode.unlogged_list i);;
  upd inodes (Some inode) (fun i =>
    i <| Inode.unlogged_list := None |> <| Inode.change_cloud := Inode.change_commit i |>);;
  bluesky_cloudlog_ref (Some log_item);;
  i ← load inodes (Some inode);
  bluesky_cloudlog_unref (Inode.committed_item i);;
  upd inodes (Some inode) (fun i => i <| Inode.committed_item := Some log_item |>).

(** An inode found in the journal replaces what was known of it. *)
Definition replay_inode (log_item : ptr) (inum : Z) : M State unit :=
  inode ← replay_find_inode inum;
  bluesky_inode_free_resources (Some inode);;
  bluesky_deserialize_inode (Some inode) (Some log_item);;
  replay_adopt log_item inode inum.

(** The item of a record with its links and its data.  The size in the header is
    stored as read, without byte order conversion, and the offset is that of the
    data. *)
Definition replay_load (log_seq : Z) (buf : bytes) (offset : Z) (header : LogHeader.t) : M State ptr :=
  let body := offset + LogHeader.size in
  item ← bluesky_cloudlog_get (LogHeader.id header);
  p ← assume NullPointer item;
  upd cloudlogs item (fun l => l <| CloudLog.inum := LogHeader.inum header |>);;
  data2 ← assume OutOfBounds (slice buf (body + LogHeader.size1 header) (LogHeader.size2 header));
  reload_item item data2 (LogHeader.size2 header);;
  upd cloudlogs item (fun l =>
    l <| CloudLog.log_seq := log_seq |> <| CloudLog.log_offset := s32 body |>
      <| CloudLog.log_size := s32 (LogHeader.size1 header) |>);;
  l ← load cloudlogs item;
  bluesky_string_unref (CloudLog.data l);;
  data ← assume OutOfBounds (slice buf body (LogHeader.size1 header));
  str ← bluesky_string_new data;
  upd cloudlogs item (fun l => l <| CloudLog.data := Some str |>);;
  mret p.

(** One valid item of the journal; an inode is read from it, and then the data is
    dropped again. *)
Definition replay_item (log_seq : Z) (buf : bytes) (offset : Z) (header : LogHeader.t) : M State ptr :=
  p ← replay_load log_seq buf offset header;
  when (LogHeader.type header - 48 =? LOGTYPE_INODE) (replay_inode p (LogHeader.inum header));;
  l ← load cloudlogs (Some p);
  bluesky_string_unref (CloudLog.data l);;
  upd cloudlogs (Some p) (fun l => l <| CloudLog.data := None |>);;
  mret p.

(** The items of a file; each takes at least 53 bytes. *)
Fixpoint bluesky_replay_scan_journal2 (fuel : nat) (objects : list ptr) (log_seq : Z) (buf : bytes)
    (offset : Z) : M State (list ptr) :=
  match fuel with
  | O => stop OutOfFuel
  | S fuel =>
    ok ← assume OutOfBounds (validate_journal_item buf offset);
    if negb ok then mret objects else
    h ← assume OutOfBounds (slice buf offset LogHeader.size);
    let header := LogHeader.decode h in
    p ← replay_item log_seq buf offset header;
    bluesky_replay_scan_journal2 fuel (p :: objects) log_seq buf
      (offset + LogHeader.size + record_size header + LogFooter.size)
  end.

(** The scan of the files, the last one first, for a commit point. *)
Fixpoint replay_find_commit (files : list bytes) (point : Z * Z) : M State (Z * Z) :=
  match files with
  | [] => mret point
  | file :: files =>
    s ← get;
    point ←
      (match disk s !! file with
       | None => mret point
       | Some f =>
         let buf := DiskFile.contents f in
         assume OutOfBounds (bluesky_replay_scan_journal (S (length buf)) buf 0 point)
       end);
    if negb (point.1 =? 0) || negb (point.2 =? 0) then mret point else
    replay_find_commit files point
  end.

(** The files from the commit point on; each exists. *)
Fixpoint replay_files (fuel : nat) (objects : list ptr) (seq_num start_offset : Z) : M State (list ptr) :=
  s ← get;
  match disk s !! journal_name seq_num with
  | None => mret objects
  | Some f =>
    match fuel with
    | O => stop OutOfFuel
    | S fuel =>
      let buf := DiskFile.contents f in
      objects ← bluesky_replay_scan_journal2 (S (length buf)) objects (s32 seq_num) buf (s32 start_offset);
      replay_files fuel objects (u32 (seq_num + 1)) 0
    end
  end.

Definition bluesky_replay (names : list bytes) : M State unit :=
  point ← replay_find_commit (rev (directory_contents names)) (0, 0);
  s ← get;
  objects ← replay_files (size (disk s)) [] point.1 point.2;
  for_each objects (fun p => bluesky_cloudlog_unref (Some p)).

(** ** Loading the last checkpoint *)

(** The last checkpoint record of a segment: its offset and its size. *)
Fixpoint find_checkpoint (fuel : nat) (buf : bytes) (offset : Z) (found : option (Z * Z))
    : M State (option (Z * Z)) :=
  if zlen buf <=? CloudLogHeader.size then mret found else
  let header := CloudLogHeader.decode (take (Z.to_nat CloudLogHeader.size) buf) in
  if negb (bool_decide (CloudLogHeader.magic header = CLOUDLOG_MAGIC)) then mret found else
  let size := s32 (CloudLogHeader.size + CloudLogHeader.size1 header + CloudLogHeader.size2 header
                   + CloudLogHeader.size3 header) in
  if zlen buf <? u64 size then mret found else
  let found := if CloudLogHeader.type header - 48 =? LOGTYPE_CHECKPOINT
               then Some (offset, size) else found in
  match fuel with
  | O => stop OutOfFuel
  | S fuel => find_checkpoint fuel (drop (Z.to_nat size) buf) (offset + size) found
  end.

(** [names] are the objects of the storage service in the order they are listed. *)
Definition bluesky_checkpoint_load (names : list bytes) : M State bool :=
  s ← get;
  let prefix := [108; 111; 103; 45] ++
    format_08d (s32 (CloudPointer.directory (CloudLogState.location (log_state s)))) in
  match filestore_lookup_last names prefix None with
  | None => mret false
  | Some last_segment =>
    let seq := atoi (drop 13 last_segment) in
    modify (fun s => s <| log_state ::= (fun st => st <| CloudLogState.location ::=
      (fun l => l <| CloudPointer.sequence := u32 (seq + 1) |>) |>) |>);;
    match cloud s !! last_segment with
    | None => mret false
    | Some last =>
      r ← bluesky_cloudlog_decrypt keys last [] false;
      let buf := r.1 in
      found ← find_checkpoint (length buf) buf 0 None;
      point ← assume Fatal found;
      id ← assume OutOfBounds (slice buf (point.1 + 53) 16);
      commit ← bluesky_cloudlog_get id;
      upd cloudlogs commit (fun l =>
        l <| CloudLog.location_flags ::= fun f => Z.lor f CLOUDLOG_CLOUD |>
          <| CloudLog.location := CloudPointer.mk 0 (u32 seq) (u32 point.1) (u32 point.2) |>);;
      bluesky_cloudlog_stats_update commit 1;;
      bluesky_inode_map_deserialize commit;;
      bluesky_cloudlog_unref commit;;
      mret true
    end
  end.

(** ** Mounting *)

(** [journal] and [objects] are the names in the journal directory and in the
    store; the file system object and the log state are new. *)
Definition bluesky_init_fs (journal objects : list bytes) : M State unit :=
  modify (fun s => s <| fs := bluesky_new_fs.1 |> <| log_state := bluesky_new_fs.2 |>);;
  bluesky_log_new journal;;
  loaded ← bluesky_checkpoint_load objects;
  if (loaded : bool) then bluesky_replay journal else
  root ← bluesky_new_inode BLUESKY_ROOT_INUM BLUESKY_DIRECTORY;
  upd inodes (Some root) (fun i => i <| Inode.nlink := 1 |> <| Inode.mode := 0x1ed |>);;
  bluesky_insert_inode (Some root);;
  bluesky_inode_update_ctime (Some root) true;;
  bluesky_inode_do_sync keys root.
End replay.
