(* ===== verification/NameOrder.v ===== *)
(** * The order of names (src/bluesky/log.c, src/cleaner/cleaner)

    Names are sorted as strings: what that means for the numbers in them. *)

From S2P Require Import Prelude State CacheFiles LogThread Names Store StoreProtocol Replay.
From Stdlib Require Import ZArith Lia Sorted.
From stdpp Require Import base numbers option list sorting.

Open Scope Z_scope.

(** Smaller or equal in the order of [strcmp]. *)
Definition str_le (a b : bytes) : Prop := strcmp a b <> Gt.

#[export] Instance str_le_trans : Transitive str_le.
Proof. intros a b c. apply strcmp_trans. Qed.

Lemma strcmp_eq a b : strcmp a b = Eq -> a = b.
Proof.
  revert b. induction a as [|x a IH]; intros [|y b]; try done. simpl.
  destruct (Z.compare_spec x y) as [->|?|?]; try done. intros E. f_equal. by apply IH.
Qed.

#[export] Instance str_le_antisym : AntiSymm (=) str_le.
Proof.
  intros a b. unfold str_le. rewrite (strcmp_antisym a b). intros Hab Hba. apply strcmp_eq.
  by destruct (strcmp a b).
Qed.

Lemma strcmp_app c a b : strcmp (c ++ a) (c ++ b) = strcmp a b.
Proof. induction c as [|x c IH]; [done|]. simpl. by rewrite Z.compare_refl. Qed.

Definition is_digit (c : Z) : Prop := 48 <= c <= 57.

Lemma atoi_digits_val d n :
  Forall is_digit d -> atoi_digits n d = n * 10 ^ zlen d + atoi_digits 0 d /\ 0 <= atoi_digits 0 d < 10 ^ zlen d.
Proof.
  intros Hd. revert n. induction Hd as [|c d Hc Hd IH]; intros n; [simpl; lia|]. cbn [atoi_digits length].
  unfold is_digit in Hc.
  rewrite (proj2 (Z.leb_le 48 c)), (proj2 (Z.leb_le c 57)) by lia. simpl andb. cbv iota.
  rewrite Nat2Z.inj_succ, Z.pow_succ_r by lia.
  destruct (IH (10 * n + (c - 48))) as [-> Hb]. destruct (IH (10 * 0 + (c - 48))) as [-> _]. nia.
Qed.

(** Numbers of the same width are in the order of their digits. *)
Lemma strcmp_digits a b :
  Forall is_digit a -> Forall is_digit b -> length a = length b ->
  atoi_digits 0 a <= atoi_digits 0 b -> str_le a b.
Proof.
  intros Ha. revert b. induction Ha as [|x a Hx Ha IH]; intros b Hb Hl; [by destruct b|].
  destruct Hb as [|y b Hy Hb]; [done|]. injection Hl as Hl. cbn [atoi_digits].
  unfold is_digit in Hx, Hy.
  rewrite !(proj2 (Z.leb_le 48 _)), !(proj2 (Z.leb_le _ 57)) by lia. simpl andb. cbv iota.
  destruct (atoi_digits_val a (10 * 0 + (x - 48)) Ha) as [-> Ba], (atoi_digits_val b (10 * 0 + (y - 48)) Hb) as [-> Bb].
  rewrite Hl in *. intros Hle. unfold str_le. simpl. destruct (Z.compare_spec x y) as [->|?|?]; [|done|nia].
  apply IH; [done|done|nia].
Qed.

Lemma length_digits fuel n k :
  0 <= n < 10 ^ Z.of_nat k -> (0 < k)%nat -> (length (digits fuel n) <= k)%nat.
Proof.
  revert n k. induction fuel as [|fuel IH]; intros n k Hn Hk; simpl; [lia|].
  destruct (Z.ltb_spec n 10); simpl; [lia|]. rewrite length_app. simpl.
  destruct k as [|[|k]]; [lia|simpl in Hn; lia|].
  assert (length (digits fuel (n / 10)) <= S k)%nat; [|lia]. apply IH; [|lia].
  rewrite Nat2Z.inj_succ, Z.pow_succ_r in Hn by lia. split; [apply Z.div_pos; lia|apply Z.div_lt_upper_bound; lia].
Qed.

Lemma format_08d_val n : 0 <= n < 10 ^ 8 ->
  Forall is_digit (format_08d n) /\ length (format_08d n) = 8%nat /\ atoi_digits 0 (format_08d n) = n.
Proof.
  intros Hn. unfold format_08d. rewrite (proj2 (Z.ltb_ge n 0)), Z.abs_eq by lia.
  destruct (digits_ok 10 n) as [Hd Ha]; [simpl; lia|]. split_and!.
  - apply Forall_app. split; [apply Forall_replicate; unfold is_digit; lia|done].
  - rewrite length_app, length_replicate. pose proof (length_digits 10 n 8 Hn ltac:(lia)). lia.
  - by rewrite atoi_digits_zeros, Ha.
Qed.

Lemma journal_name_le m n : 0 <= m <= n -> n < 10 ^ 8 -> str_le (journal_name m) (journal_name n).
Proof.
  intros Hm Hn. unfold str_le, journal_name. rewrite strcmp_app, !s32_id by lia.
  destruct (format_08d_val m) as (? & ? & Em); [lia|]. destruct (format_08d_val n) as (? & ? & En); [lia|].
  apply strcmp_digits; [done|done|congruence|lia].
Qed.

Lemma insert_name_perm a l : insert_name a l ≡ₚ a :: l.
Proof.
  induction l as [|b l IH]; [done|]. simpl. destruct (strcmp a b); [done|done|]. rewrite IH. constructor.
Qed.

Lemma insert_name_sorted a l : StronglySorted str_le l -> StronglySorted str_le (insert_name a l).
Proof.
  induction 1 as [|b l Hs IH Hb]; simpl; [repeat constructor|]. destruct (strcmp a b) eqn:E.
  1, 2: assert (str_le a b) by (unfold str_le; by rewrite E); constructor; [by constructor|]; constructor; [done|];
    eapply Forall_impl; [exact Hb|]; intros c Hc; by transitivity b.
  constructor; [done|]. rewrite insert_name_perm. constructor; [|done]. unfold str_le. rewrite strcmp_antisym, E. done.
Qed.
