(* ===== verification/Cache.v ===== *)
(** * The cache and its daemon (src/bluesky/cache.c)

    Writing dirty inodes to the journal and then to the cloud, dropping clean data
    from memory, reclaiming files of the journal directory, and the pressure that
    delays writers. *)

From S2P Require Import Prelude Crc32c Glib Rangeset State Strings Ownership CloudLog Lru Inodes Fetch File Imap Serialize Journal Crypto CacheFiles LogThread Upload InodeSync.
From Stdlib Require Import ZArith Lia.
From stdpp Require Import base numbers gmap option list.

Open Scope Z_scope.

Definition WRITEBACK_DELAY : Z := 20 * 1000000.
Definition CACHE_DROP_DELAY : Z := 20 * 1000000.

(** The watermarks of src/bluesky/init.c, in blocks. *)
Definition bluesky_watermark_low_dirty : Z := 64 * 2 ^ 20 / BLUESKY_BLOCK_SIZE.
Definition bluesky_watermark_medium_dirty : Z := 96 * 2 ^ 20 / BLUESKY_BLOCK_SIZE.
Definition bluesky_watermark_med2_dirty : Z := 160 * 2 ^ 20 / BLUESKY_BLOCK_SIZE.
Definition bluesky_watermark_high_dirty : Z := 192 * 2 ^ 20 / BLUESKY_BLOCK_SIZE.

Section cache.
Context `{GSequenceLib} `{Env} `{Gcrypt} `{DiskUsage} `{Fetch}.
Context (keys : CryptKeys.t).

(** ** Writing to the journal *)

Definition flushd_dirty_inode (inode : ptr) : M State unit :=
  i ← load inodes (Some inode);
  fs_list_unlink FS.unlogged_list (Inode.unlogged_list i);;
  upd inodes (Some inode) (fun i => i <| Inode.unlogged_list := None |>);;
  if Inode.change_count i =? Inode.change_commit i then mret tt
  else bluesky_inode_start_sync keys inode.

(** The inode at the old end of a list of the file system. *)
Definition list_oldest (which : FS.t -> ListHead.t) : M State (option ptr) :=
  s ← get; mret (bluesky_list_tail (which (fs s))).

(** Every turn takes an inode off the list. *)
Fixpoint flushd_dirty_loop (fuel : nat) (start_time : Z) : M State unit :=
  o ← list_oldest FS.unlogged_list;
  match o with
  | None => mret tt
  | Some inode =>
    i ← load inodes (Some inode);
    now ← bluesky_get_current_time;
    s ← get;
    let elapsed := u64 (now - Inode.change_time i) in
    if (FS.cache_dirty (fs s) <? bluesky_watermark_low_dirty) && (elapsed <? WRITEBACK_DELAY)
    then mret tt else
    if start_time <? Inode.change_time i then mret tt else
    match fuel with
    | O => stop OutOfFuel
    | S fuel =>
      bluesky_inode_ref (Some inode);;
      flushd_dirty_inode inode;;
      bluesky_inode_unref (Some inode);;
      flushd_dirty_loop fuel start_time
    end
  end.

Definition flushd_dirty : M State unit :=
  start_time ← bluesky_get_current_time;
  s ← get;
  flushd_dirty_loop (length (ListHead.next (FS.unlogged_list (fs s)))) start_time.

(** ** Writing to the cloud *)

Definition flushd_cloud_inode (inode : ptr) : M State unit :=
  bluesky_inode_ref (Some inode);;
  i ← load inodes (Some inode);
  check Assertion (Inode.change_cloud i =? Inode.change_commit i);;
  fs_list_unlink FS.dirty_list (Inode.dirty_list i);;
  upd inodes (Some inode) (fun i => i <| Inode.dirty_list := None |>);;
  upd inodes (Some inode) (fun i => i <| Inode.committed_item := None |>);;
  match Inode.committed_item i with
  | Some log => bluesky_cloudlog_serialize keys log;; mret tt
  | None => mret tt
  end;;
  bluesky_inode_unref (Some inode);;
  bluesky_cloudlog_unref (Inode.committed_item i).

Fixpoint flushd_cloud_loop (fuel : nat) : M State unit :=
  o ← list_oldest FS.dirty_list;
  match o with
  | None => mret tt
  | Some inode =>
    match fuel with
    | O => stop OutOfFuel
    | S fuel => flushd_cloud_inode inode;; flushd_cloud_loop fuel
    end
  end.

(** The wait for one segment after the other. *)
Definition finish_segment (segment : ptr) : M State unit :=
  wait_segment keys segment;;
  free records segment;;
  modify (fun s => s <| log_state ::= (fun st => st <| CloudLogState.pending_segments ::= tail |>) |>).

Definition flushd_cloud : M State unit :=
  marker ← bluesky_log_get_commit_point keys;
  s ← get;
  let journal_seq_start := Log.seq_num (log s) in
  flushd_cloud_loop (length (ListHead.next (FS.dirty_list (fs s))));;
  commit_record ← bluesky_inode_map_serialize;
  match commit_record with
  | Some log => bluesky_cloudlog_serialize keys log;; mret tt
  | None => mret tt
  end;;
  bluesky_cloudlog_flush keys;;
  s ← get;
  for_each (CloudLogState.pending_segments (log_state s)) finish_segment;;
  bluesky_log_write_commit_point keys marker;;
  bluesky_cloudlog_unref commit_record;;
  modify (fun s => s <| log ::= (fun g => g <| Log.journal_watermark := journal_seq_start |>) |>);;
  bluesky_inode_map_minimize.

(** ** Dropping clean data *)

Definition drop_caches (inode : ptr) : M State unit :=
  i ← load inodes (Some inode);
  when (Inode.type i =? BLUESKY_REGULAR) (bluesky_file_drop_cached (Some inode));;
  match Inode.committed_item i with
  | None => mret tt
  | Some log =>
    l ← load cloudlogs (Some log);
    when (match CloudLog.data l with Some _ => true | None => false end
          && (CloudLog.data_lock_count l =? 0) && negb (CloudLog.location_flags l =? 0))
      (bluesky_cloudlog_stats_update (Some log) (-1);;
       bluesky_string_unref (CloudLog.data l);;
       upd cloudlogs (Some log) (fun l => l <| CloudLog.data := None |>);;
       bluesky_cloudlog_stats_update (Some log) 1)
  end.

Fixpoint flushd_clean_loop (inode_count : nat) (aggressive : bool) : M State unit :=
  match inode_count with
  | O => mret tt
  | S inode_count =>
    o ← list_oldest FS.accessed_list;
    match o with
    | None => mret tt
    | Some inode =>
      i ← load inodes (Some inode);
      now ← bluesky_get_current_time;
      if (u64 (now - Inode.access_time i) <? CACHE_DROP_DELAY) && negb aggressive then mret tt else
      bluesky_inode_ref (Some inode);;
      fs_list_unlink FS.accessed_list (Inode.accessed_list i);;
      link ← fs_list_prepend FS.accessed_list inode;
      upd inodes (Some inode) (fun i => i <| Inode.accessed_list := Some link |>);;
      drop_caches inode;;
      bluesky_inode_unref (Some inode);;
      flushd_clean_loop inode_count aggressive
    end
  end.

Definition flushd_clean (aggressive : bool) : M State unit :=
  s ← get;
  flushd_clean_loop (Nat.max 1 (size (FS.inodes (fs s)))) aggressive.

(** ** Reclaiming files *)

(** Insertion by time of access; [g_list_sort] is stable. *)
Fixpoint insert_by_atime (f : ptr * CacheFile.t) (l : list (ptr * CacheFile.t)) : list (ptr * CacheFile.t) :=
  match l with
  | [] => [f]
  | g :: l' => if CacheFile.atime g.2 <? CacheFile.atime f.2 then g :: insert_by_atime f l' else f :: l
  end.

(** May the file be removed? *)
Definition deletion_candidate (s : State) (cachefile : CacheFile.t) : bool :=
  (Options.cache_size bluesky_options <? Log.disk_used (log s))
  && (CacheFile.refcount cachefile =? 0) && (CacheFile.mapcount cachefile =? 0)
  && negb ((CacheFile.type cachefile =? CLOUDLOG_JOURNAL)
           && (Log.journal_watermark (log s) <=? CacheFile.log_seq cachefile)).

Definition gc_file (f : ptr) : M State unit :=
  bluesky_get_current_time;;
  cachefile ← load cachefiles (Some f);
  s ← get;
  when (deletion_candidate s cachefile)
    (modify (fun s => s <| disk ::= delete (CacheFile.filename cachefile) |>
       <| log ::= (fun g => g <| Log.disk_used ::= Z.add (- CacheFile.disk_used cachefile) |>
                              <| Log.mmap_cache ::= delete (CacheFile.filename cachefile) |>) |>);;
     free cachefiles f).

(** [files] is the table of cache files in the order its entries are gathered;
    none is locked by another thread. *)
Definition bluesky_cachefile_gc (files : list ptr) : M State unit :=
  s ← get;
  let with_time := omap (fun f => (fun cf => (f, cf)) <$> cachefiles s !! f) files in
  for_each (foldr insert_by_atime [] with_time) (fun f => gc_file f.1).

(** The table in some order. *)
Definition gather_cachefiles : M State (list ptr) :=
  s ← get; mret (map_to_list (Log.mmap_cache (log s))).*2.

(** ** The daemon *)

Definition flushd_task : M State unit :=
  flushd_dirty;;
  flushd_cloud;;
  flushd_clean false;;
  files ← gather_cachefiles;
  bluesky_cachefile_gc files;;
  s ← get;
  when (Options.cache_size bluesky_options <? Log.disk_used (log s))
    (flushd_clean true;;
     files ← gather_cachefiles;
     bluesky_cachefile_gc files).

Definition compute_pressure (s : State) : Z :=
  let f := fs s in
  if bluesky_watermark_high_dirty <? FS.cache_dirty f + FS.cache_log_dirty f then 3 else
  let dirty_limit := Z.quot (Z.quot (Options.cache_size bluesky_options) (Z.quot LOG_SEGMENT_SIZE 1024)) 2 in
  let dirty_journals := s32 (Log.seq_num (log s) - Log.journal_watermark (log s) + 1) in
  if (1 <? dirty_journals) && (dirty_limit <=? dirty_journals) then 3 else
  if bluesky_watermark_med2_dirty <? FS.cache_dirty f then 2 else
  if (1 <? dirty_journals) && (Z.quot (dirty_limit * 3) 4 <? dirty_journals) then 2 else
  if bluesky_watermark_medium_dirty <? FS.cache_dirty f then 1 else
  if (1 <? dirty_journals) && (Z.quot dirty_limit 2 <? dirty_journals) then 1 else 0.

(** A writer under pressure: the daemon runs while the writer waits, once for
    every unit of fuel. *)
Fixpoint pressure_wait (fuel : nat) (pressure : Z) : M State unit :=
  if pressure <=? 1 then mret tt else
  match fuel with
  | O => stop Blocked
  | S fuel =>
    s ← get;
    when (1 <? compute_pressure s) flushd_task;;
    s ← get;
    let pressure := compute_pressure s in
    if pressure =? 1 then mret tt else pressure_wait fuel pressure
  end.

Definition bluesky_flushd_invoke_conditional (fuel : nat) : M State unit :=
  s ← get; pressure_wait fuel (compute_pressure s).
End cache.
