(* ===== verification/CacheGC.v ===== *)
(** * Reclaiming files of the journal directory is safe

    [bluesky_cachefile_gc] removes files without a reference or a mapping, and no
    journal file that recovery may need. *)

From S2P Require Import Prelude Crc32c Glib Rangeset State Strings Ownership CloudLog Lru Inodes Fetch File Imap Serialize Journal Crypto CacheFiles JournalFetch LogThread Names Upload InodeSync Cache.
From Stdlib Require Import ZArith Lia.
From stdpp Require Import base numbers gmap option list.

Open Scope Z_scope.

(** ** Numbers of files *)

(** The number [bluesky_log_new] starts with is larger than that of every journal
    file in the directory. *)
Lemma first_seq_num_fresh names n :
  journal_name n ∈ names -> 0 <= n < 2 ^ 31 - 1 -> n < first_seq_num names.
Proof.
  intros Hin Hn. unfold first_seq_num.
  set (step := fun n file => if is_journal file then Z.max n (s32 (atoi (drop 8 file) + 1)) else n).
  assert (Hmono : forall l z, z <= foldl step z l).
  { intros l. induction l as [|x l IH]; intros z; simpl; [lia|].
    etransitivity; [|apply IH]. unfold step. destruct (is_journal x); lia. }
  apply list_elem_of_split in Hin as (l1 & l2 & ->). rewrite foldl_app. simpl.
  eapply Z.lt_le_trans; [|apply Hmono]. unfold step at 1.
  assert (is_journal (journal_name n) = true) as -> by done.
  change (drop 8 (journal_name n)) with (format_08d (s32 n)). rewrite (s32_id n), atoi_format, s32_id by lia. lia.
Qed.

(** ** Files that may go *)

(** Cache files are named after what they hold. *)
Definition file_names (s : State) : Prop := forall f cf, cachefiles s !! f = Some cf ->
  (CacheFile.type cf = CLOUDLOG_JOURNAL /\ 0 <= CacheFile.log_seq cf < 2 ^ 31 /\
   CacheFile.filename cf = journal_name (CacheFile.log_seq cf)) \/
  (CacheFile.type cf = CLOUDLOG_CLOUD /\
   CacheFile.filename cf = segment_name (CacheFile.log_dir cf) (CacheFile.log_seq cf)).

(** Nobody uses the file, and recovery starts behind it. *)
Definition reclaimable (watermark : Z) (cf : CacheFile.t) : Prop :=
  CacheFile.refcount cf = 0 /\ CacheFile.mapcount cf = 0 /\
  (CacheFile.type cf = CLOUDLOG_JOURNAL -> CacheFile.log_seq cf < watermark).

(** Some files that may go are gone. *)
Record gc_step (s s' : State) : Prop := {
  gc_strs : strs s' = strs s;
  gc_logs : cloudlogs s' = cloudlogs s;
  gc_inodes : inodes s' = inodes s;
  gc_log : exists m n, log s' = (log s) <| Log.mmap_cache := m |> <| Log.disk_used := n |>;
  gc_bytes : forall q str, strs s !! q = Some str -> str_bytes s' str = str_bytes s str;
  gc_files : forall f cf, cachefiles s' !! f = Some cf -> cachefiles s !! f = Some cf;
  gc_kept : forall f cf, cachefiles s !! f = Some cf -> ~ reclaimable (Log.journal_watermark (log s)) cf ->
    cachefiles s' !! f = Some cf;
  gc_disk : forall n, (forall f cf, cachefiles s !! f = Some cf -> CacheFile.filename cf = n ->
    ~ reclaimable (Log.journal_watermark (log s)) cf) -> disk s' !! n = disk s !! n;
}.

#[export] Instance gc_step_preorder : PreOrder gc_step.
Proof.
  split.
  - intros s. split; try done. exists (Log.mmap_cache (log s)), (Log.disk_used (log s)). by destruct (log s).
  - intros s1 s2 s3 A B. destruct (gc_log _ _ A) as (m1 & n1 & L1), (gc_log _ _ B) as (m2 & n2 & L2).
    assert (Ew : Log.journal_watermark (log s2) = Log.journal_watermark (log s1)) by (by rewrite L1).
    split.
    + rewrite (gc_strs _ _ B). apply A.
    + rewrite (gc_logs _ _ B). apply A.
    + rewrite (gc_inodes _ _ B). apply A.
    + exists m2, n2. by rewrite L2, L1.
    + intros q str Hq. rewrite (gc_bytes _ _ B q), (gc_bytes _ _ A q); [done..|]. by rewrite (gc_strs _ _ A).
    + intros f cf Hf. by apply (gc_files _ _ A), (gc_files _ _ B).
    + intros f cf Hf Hn. apply (gc_kept _ _ B); [by apply (gc_kept _ _ A)|by rewrite Ew].
    + intros n Hn. rewrite (gc_disk _ _ B), (gc_disk _ _ A); [done|done|]. intros f cf Hf En. rewrite Ew.
      apply (Hn f cf); [by apply (gc_files _ _ A)|done].
Qed.

(** The state without the file. *)
Definition without_file (f : ptr) (cf : CacheFile.t) (s : State) : State :=
  s <| disk ::= delete (CacheFile.filename cf) |>
    <| log ::= (fun g => g <| Log.disk_used ::= Z.add (- CacheFile.disk_used cf) |>
                           <| Log.mmap_cache ::= delete (CacheFile.filename cf) |>) |>
    <| cachefiles ::= delete f |>.

Section without.
Context (xs xl : ptr -> Z) (s : State) (f : ptr) (cf : CacheFile.t).
Context (Hok : heap_ok xs xl s) (Hfo : files_ok s) (Hf : cachefiles s !! f = Some cf).

(** A mapped string is in another file. *)
Lemma mapped_elsewhere q str g :
  CacheFile.mapcount cf = 0 -> strs s !! q = Some str -> RCStr.mmap str = Some g -> g <> f.
Proof using Hok Hf.
  intros Hmc Hq Hm ->. pose proof (map_owners_pos _ _ _ f Hq Hm). pose proof (ho_files _ _ _ Hok f) as Hle.
  rewrite Hf in Hle. simpl in Hle. lia.
Qed.

Lemma other_name g cg : cachefiles s !! g = Some cg -> g <> f -> CacheFile.filename cg <> CacheFile.filename cf.
Proof using Hfo Hf.
  intros Hg Hne E. pose proof (fo_named _ Hfo _ _ Hf) as N1. pose proof (fo_named _ Hfo _ _ Hg) as N2. congruence.
Qed.

Lemma without_bytes q str :
  CacheFile.mapcount cf = 0 -> strs s !! q = Some str -> str_bytes (without_file f cf s) str = str_bytes s str.
Proof using Hok Hfo Hf.
  intros Hmc Hq. unfold str_bytes. destruct (RCStr.data str); [done|].
  destruct (RCStr.mmap str) as [g|] eqn:Em; [|done]. simpl.
  pose proof (mapped_elsewhere q str g Hmc Hq Em) as Hne. rewrite lookup_delete_ne by done.
  destruct (cachefiles s !! g) as [cg|] eqn:Hg; [|done]. simpl.
  rewrite lookup_delete_ne; [done|]. intros E. by apply (other_name g cg Hg Hne).
Qed.

Lemma without_heap_ok : CacheFile.mapcount cf = 0 -> heap_ok xs xl (without_file f cf s).
Proof using Hok Hfo Hf.
  intros Hmc. split.
  - apply (ho_strs _ _ _ Hok).
  - apply (ho_logs _ _ _ Hok).
  - intros g. simpl. change (map_owners _ g) with (map_owners s g). pose proof (ho_files _ _ _ Hok g) as Hg.
    destruct (decide (g = f)) as [->|Hne]; [|by rewrite lookup_delete_ne].
    rewrite lookup_delete_eq. rewrite Hf in Hg. simpl in *. pose proof (map_owners_nonneg s f). lia.
  - intros q str Hq. pose proof (ho_wf _ _ _ Hok q str Hq) as Hw. unfold str_wf in *.
    by rewrite (without_bytes q str Hmc Hq).
  - apply (ho_loc _ _ _ Hok).
  - apply (ho_alive _ _ _ Hok).
  - intros p Hp. destruct (ho_fresh _ _ _ Hok p Hp) as (? & ? & Hc & ?). simpl.
    split_and!; [done|done| |tauto..]. by rewrite lookup_delete_None; right.
Qed.

Lemma without_files_ok : files_ok (without_file f cf s).
Proof using Hfo Hf.
  split; simpl.
  - intros n g Hn. apply lookup_delete_Some in Hn as [Hne Hn]. destruct (fo_cache _ Hfo n g Hn) as (cg & Hg & En).
    exists cg. split; [|done]. rewrite lookup_delete_ne; [done|]. intros ->. congruence.
  - intros g cg Hg. apply lookup_delete_Some in Hg as [Hne Hg]. rewrite lookup_delete_ne; [by apply (fo_named _ Hfo)|].
    intros E. by apply (other_name g cg Hg).
  - intros g cg Hg Ha. apply lookup_delete_Some in Hg as [Hne Hg]. rewrite lookup_delete_ne; [by apply (fo_mapped _ Hfo g)|].
    intros E. by apply (other_name g cg Hg).
  - intros n df Hn. apply lookup_delete_Some in Hn as [_ Hn]. by apply (fo_size _ Hfo n).
Qed.

Lemma without_gc_step : reclaimable (Log.journal_watermark (log s)) cf -> gc_step s (without_file f cf s).
Proof using Hok Hfo Hf.
  intros Hrec. split; try done; simpl.
  - by do 2 eexists.
  - intros q str. apply without_bytes, Hrec.
  - intros g cg Hg. by apply lookup_delete_Some in Hg as [_ Hg].
  - intros g cg Hg Hn. rewrite lookup_delete_ne; [done|]. intros ->. congruence.
  - intros n Hn. rewrite lookup_delete_ne; [done|]. intros <-. by apply (Hn f cf Hf).
Qed.
End without.

(** ** Collection *)

Definition gc_ok (xs xl : ptr -> Z) (s : State) : Prop := heap_ok xs xl s /\ files_ok s /\ file_names s.

Section gc.
Context `{Env}.

Lemma deletion_candidate_ok s cf :
  deletion_candidate s cf = true -> reclaimable (Log.journal_watermark (log s)) cf /\
  Options.cache_size bluesky_options < Log.disk_used (log s).
Proof.
  unfold deletion_candidate, reclaimable. intros E. apply andb_prop in E as [E E4].
  apply andb_prop in E as [E E3]. apply andb_prop in E as [E1 E2].
  split_and!; [lia|lia| |lia]. intros Ht. rewrite (proj2 (Z.eqb_eq _ _)) in E4 by done. simpl in E4.
  apply negb_true_iff in E4. lia.
Qed.

Lemma gc_file_ok xs xl s f cf :
  gc_ok xs xl s -> cachefiles s !! f = Some cf ->
  wp (gc_file f) s (fun _ s' =>
    gc_ok xs xl s' /\ gc_step s s' /\ (forall g, g <> f -> cachefiles s' !! g = cachefiles s !! g) /\
    (Log.disk_used (log s) <= Options.cache_size bluesky_options ->
     cachefiles s' = cachefiles s /\ disk s' = disk s /\ log s' = log s)).
Proof.
  intros (Hok & Hfo & Hna) Hf. unfold gc_file, bluesky_get_current_time. do 6 wp_step.
  set (s1 := s <| ticks := _ |>).
  assert (Hg1 : gc_step s s1) by (split; try done; simpl; exists (Log.mmap_cache (log s)), (Log.disk_used (log s)); by destruct (log s)).
  assert (Hok1 : heap_ok xs xl s1) by by apply heap_ok_ticks.
  assert (Hfo1 : files_ok s1) by by apply files_ok_ticks.
  wp_step. eapply wp_load; [done|]. wp_step. wp_step. unfold when.
  destruct (deletion_candidate s1 cf) eqn:Ed; [|by wp_step].
  apply deletion_candidate_ok in Ed as [Hrec Hused]. pose proof Hrec as (_ & Hmc & _).
  wp_step. wp_step. eapply wp_free; [exact Hf|]. change (setf cachefiles _ _) with (without_file f cf s1).
  split; [|split; [|split]].
  - split; [by apply without_heap_ok|]. split; [by apply without_files_ok|].
    intros g cg Hg. simpl in Hg. apply lookup_delete_Some in Hg as [_ Hg]. by apply (Hna g).
  - transitivity s1; [done|]. by eapply without_gc_step.
  - intros g Hne. simpl. by rewrite lookup_delete_ne.
  - simpl in Hused. lia.
Qed.

Lemma gc_loop_ok xs xl L s :
  gc_ok xs xl s -> NoDup L.*1 -> (forall f cf, (f, cf) ∈ L -> is_Some (cachefiles s !! f)) ->
  wp (for_each L (fun f : ptr * CacheFile.t => gc_file f.1)) s (fun _ s' =>
    gc_ok xs xl s' /\ gc_step s s' /\
    (Log.disk_used (log s) <= Options.cache_size bluesky_options ->
     cachefiles s' = cachefiles s /\ disk s' = disk s /\ log s' = log s)).
Proof.
  revert s. induction L as [|[f cf0] L IH]; intros s Hs Hnd Hin; simpl.
  - wp_step. split; [done|]. split; [reflexivity|done].
  - destruct (Hin f cf0 ltac:(by left)) as [cf Hf]. inversion_clear Hnd as [|? ? Hnot Hnd'].
    wp_step. eapply wp_mono; [by eapply gc_file_ok|]. intros _ s1 (Hs1 & Hg1 & Hoth & Hq1).
    eapply wp_mono; [apply IH; [done|done|]|].
    + intros g cg Hg. rewrite Hoth; [by eapply Hin; right|]. intros ->. apply Hnot.
      apply list_elem_of_fmap. by exists (f, cg).
    + intros _ s2 (Hs2 & Hg2 & Hq2). split; [done|]. split; [by etransitivity|]. intros Hle.
      destruct (Hq1 Hle) as (Ec1 & Ed1 & El1). rewrite El1 in Hq2. destruct (Hq2 Hle) as (-> & -> & ->). done.
Qed.

(** Sorting keeps the files. *)
Lemma insert_by_atime_perm f l : insert_by_atime f l ≡ₚ f :: l.
Proof.
  induction l as [|g l IH]; simpl; [done|]. destruct (_ <? _); [|done]. rewrite IH. apply Permutation_swap.
Qed.

Lemma sort_by_atime_perm l : foldr insert_by_atime [] l ≡ₚ l.
Proof. induction l as [|f l IH]; simpl; [done|]. by rewrite insert_by_atime_perm, IH. Qed.

(** The table names every file once. *)
Lemma gather_nodup s : files_ok s -> NoDup (map_to_list (Log.mmap_cache (log s))).*2.
Proof.
  intros Hfo. assert (Hin : forall n f, (n, f) ∈ map_to_list (Log.mmap_cache (log s)) ->
    exists cf, cachefiles s !! f = Some cf /\ CacheFile.filename cf = n).
  { intros n f Hnf. apply (fo_cache _ Hfo). by apply elem_of_map_to_list. }
  pose proof (NoDup_fst_map_to_list (Log.mmap_cache (log s))) as Hnd. revert Hin Hnd.
  generalize (map_to_list (Log.mmap_cache (log s))). intros L. induction L as [|[n f] L IH]; intros Hin Hnd; simpl; [constructor|].
  simpl in Hnd. inversion_clear Hnd as [|? ? Hnot Hnd']. constructor.
  - intros ([n' f'] & E & Hf')%list_elem_of_fmap. simpl in E. subst f'.
    destruct (Hin n f ltac:(by left)) as (cf & Hcf & <-), (Hin n' f ltac:(by right)) as (cf' & Hcf' & <-).
    assert (cf' = cf) as -> by congruence. apply Hnot. apply list_elem_of_fmap. by exists (CacheFile.filename cf, f).
  - apply IH; [|done]. intros n' f' Hin'. apply Hin. by right.
Qed.

(** C13: Reclaiming files takes nothing that is in use.  A pass of
    [bluesky_cachefile_gc] over the table of cache files finishes; the heap and the
    table are in order afterwards; every string reads the same bytes; every item
    whose data is in memory, or in a journal file that recovery may need (at the
    watermark or above), keeps its bytes; a file with a reference or a mapping
    stays, on disk too; and below the limit nothing is removed at all. *)
Theorem cachefile_gc_safe xs xl s :
  gc_ok xs xl s ->
  wp (files ← gather_cachefiles; bluesky_cachefile_gc files) s (fun _ s' =>
    gc_ok xs xl s' /\ strs s' = strs s /\ cloudlogs s' = cloudlogs s /\ inodes s' = inodes s /\
    (forall q str, strs s !! q = Some str -> str_bytes s' str = str_bytes s str) /\
    (forall l b, CloudLog.data l = None -> 0 <= CloudLog.log_seq l < 2 ^ 31 ->
       Log.journal_watermark (log s) <= CloudLog.log_seq l ->
       item_bytes s l = Some b -> item_bytes s' l = Some b) /\
    (forall f cf, cachefiles s !! f = Some cf -> 0 < CacheFile.refcount cf \/ 0 < CacheFile.mapcount cf ->
       cachefiles s' !! f = Some cf /\ disk s' !! CacheFile.filename cf = disk s !! CacheFile.filename cf) /\
    (Log.disk_used (log s) <= Options.cache_size bluesky_options ->
       cachefiles s' = cachefiles s /\ disk s' = disk s)).
Proof.
  intros Hs. pose proof Hs as (Hok & Hfo & Hna). unfold gather_cachefiles, bluesky_cachefile_gc.
  wp_step. wp_step. wp_step. wp_step. wp_step. wp_step.
  set (files := (map_to_list _).*2). set (L := foldr insert_by_atime [] _).
  assert (HL : L ≡ₚ omap (fun f => (fun cf => (f, cf)) <$> cachefiles s !! f) files) by apply sort_by_atime_perm.
  assert (Hin : forall f cf, (f, cf) ∈ L -> cachefiles s !! f = Some cf).
  { intros f cf. rewrite HL, list_elem_of_omap. intros (f' & _ & E).
    destruct (cachefiles s !! f') eqn:Hf'; simplify_eq/=. done. }
  eapply wp_mono; [apply (gc_loop_ok xs xl L s Hs)|].
  - rewrite HL. pose proof (gather_nodup s Hfo) as Hnd. fold files in Hnd. clear -Hnd.
    induction files as [|f l IH]; simpl; [constructor|]. inversion_clear Hnd as [|? ? Hnot Hnd'].
    destruct (cachefiles s !! f) as [cf|]; simpl; [|by apply IH]. constructor; [|by apply IH].
    intros ([f' cf'] & E & (g & Hg & Eg)%list_elem_of_omap)%list_elem_of_fmap. simpl in E. subst f'.
    destruct (cachefiles s !! g); simplify_eq/=. done.
  - intros f cf Hf. rewrite (Hin f cf Hf). by eexists.
  - intros _ s' (Hs' & Hg & Hq). split_and!; [done|apply Hg|apply Hg|apply Hg|apply Hg| | |].
    + intros l b Ed Hseq Hw. unfold item_bytes. rewrite Ed. cbn [stored journal_storage]. unfold journal_bytes.
      destruct (_ && _); [|done]. rewrite (gc_disk _ _ Hg); [done|]. intros f cf Hf En (_ & _ & Hj).
      destruct (Hna f cf Hf) as [(Ht & Hs1 & En1)|(_ & En1)]; rewrite En1 in En; [|by apply (journal_segment_name _ _ _ (eq_sym En))].
      apply journal_name_inj in En; [|done|done]. specialize (Hj Ht). lia.
    + intros f cf Hf Huse. assert (Hn : ~ reclaimable (Log.journal_watermark (log s)) cf)
        by (intros (? & ? & _); lia). split; [by apply (gc_kept _ _ Hg)|]. apply (gc_disk _ _ Hg).
      intros g cg Hcg En. pose proof (fo_named _ Hfo _ _ Hf). pose proof (fo_named _ Hfo _ _ Hcg).
      assert (g = f) as -> by congruence. by simplify_eq.
    + intros Hle. by destruct (Hq Hle) as (? & ? & _).
Qed.
End gc.

(** ** Two journal files, the second in use *)
Definition gc_cachefile (refs seq : Z) : CacheFile.t :=
  CacheFile.mk refs CLOUDLOG_JOURNAL (-1) seq (journal_name seq) 0 false 0 4096 false false 0 [] None.
Definition sample_gc_state : State :=
  empty_state <| next_ptr := 3%positive |>
    <| cachefiles := {[1%positive := gc_cachefile 0 0; 2%positive := gc_cachefile 1 5]} |>
    <| disk := {[journal_name 0 := DiskFile.empty; journal_name 5 := DiskFile.empty]} |>
    <| log := Log.mk [] None 6 [] None {[journal_name 0 := 1%positive; journal_name 5 := 2%positive]} (2 ^ 40) 5 |>.

Lemma sample_gc_ok : gc_ok nox nox sample_gc_state.
Proof.
  assert (Hcf : forall f cf, cachefiles sample_gc_state !! f = Some cf ->
    (f = 1%positive /\ cf = gc_cachefile 0 0) \/ (f = 2%positive /\ cf = gc_cachefile 1 5)).
  { intros f cf Hf. simpl in Hf. apply lookup_insert_Some in Hf as [[<- <-]|[_ Hf]]; [by left|].
    apply lookup_singleton_Some in Hf as [<- <-]. by right. }
  split; [split; try done|split; [split|]].
  - intros f. destruct (cachefiles sample_gc_state !! f) as [cf|] eqn:Hf; [|done].
    by destruct (Hcf f cf Hf) as [[-> ->]|[-> ->]].
  - intros p Hp. simpl in *. split_and!; try done. rewrite lookup_insert_ne, lookup_singleton_ne by lia. done.
  - intros n f Hn. simpl in Hn. apply lookup_insert_Some in Hn as [[<- <-]|[_ Hn]]; [by exists (gc_cachefile 0 0)|].
    apply lookup_singleton_Some in Hn as [<- <-]. by exists (gc_cachefile 1 5).
  - intros f cf Hf. by destruct (Hcf f cf Hf) as [[-> ->]|[-> ->]].
  - intros f cf Hf. by destruct (Hcf f cf Hf) as [[-> ->]|[-> ->]].
  - intros n df Hn. simpl in Hn. apply lookup_insert_Some in Hn as [[_ <-]|[_ Hn]]; [done|].
    by apply lookup_singleton_Some in Hn as [_ <-].
  - intros f cf Hf. left. destruct (Hcf f cf Hf) as [[-> ->]|[-> ->]]; simpl; lia || (split_and!; [done|lia|lia|done]).
Qed.

Lemma cachefile_gc_safe_witness :
  wp (files ← gather_cachefiles; bluesky_cachefile_gc files) sample_gc_state (fun _ s' =>
    gc_ok nox nox s' /\ cachefiles s' !! 2%positive = Some (gc_cachefile 1 5)).
Proof.
  refine (wp_mono _ _ _ _ (cachefile_gc_safe nox nox sample_gc_state sample_gc_ok) _).
  intros _ s' (Hs & _ & _ & _ & _ & _ & Hf & _). split; [done|]. apply (Hf 2%positive); [done|simpl; lia].
Defined.

(** The first one goes. *)
Example reclaims_unused_journal :
  match (files ← gather_cachefiles; bluesky_cachefile_gc files) sample_gc_state with
  | Ok _ s' => disk s' !! journal_name 0 = None /\ cachefiles s' !! 1%positive = None
  | Stop _ => False
  end.
Proof. vm_compute. done. Qed.
