(* ===== verification/Recovery.v ===== *)
(** * Recovering inodes from the journal

    What [bluesky_replay] makes of a journal: every inode is the one of its last
    record, and the blocks of a file refer to the items whose identifiers were
    written with the inode. *)

From S2P Require Import Prelude Glib State Strings Ownership CloudLog Lru Inodes Fetch File Dir Serialize Roundtrip RoundtripItem Journal Crypto CacheFiles ItemTable Replay Cache CacheGC.
From Stdlib Require Import ZArith Lia.
From stdpp Require Import base numbers gmap option list.

Open Scope Z_scope.

(** ** Frames *)

(** Items other than [x] keep identifier, links and data, [x] keeps its
    identifier or is new. *)
Record replays (x : ptr) (s s' : State) : Prop := {
  rp_other : forall r l', cloudlogs s' !! r = Some l' -> r <> x -> exists l, cloudlogs s !! r = Some l /\
    CloudLog.id l' = CloudLog.id l /\ CloudLog.links l' = CloudLog.links l /\ CloudLog.data l' = CloudLog.data l;
  rp_item : forall l', cloudlogs s' !! x = Some l' -> Pos.le (next_ptr s) x \/
    exists l, cloudlogs s !! x = Some l /\ CloudLog.id l' = CloudLog.id l;
  rp_next : Pos.le (next_ptr s) (next_ptr s');
  rp_disk : disk s' = disk s;
}.

#[export] Instance replays_preorder x : PreOrder (replays x).
Proof.
  split.
  - intros s. split; [|eauto|lia|done]. intros r l Hl _. by exists l.
  - intros s1 s2 s3 A B. split.
    + intros r l3 K3 Hne. destruct (rp_other _ _ _ B r l3 K3 Hne) as (l2 & K2 & ? & ? & ?).
      destruct (rp_other _ _ _ A r l2 K2 Hne) as (l1 & K1 & ? & ? & ?). exists l1. split_and!; congruence.
    + intros l3 K3. pose proof (rp_next _ _ _ A). destruct (rp_item _ _ _ B l3 K3) as [?|(l2 & K2 & ?)]; [left; lia|].
      destruct (rp_item _ _ _ A l2 K2) as [?|(l1 & K1 & ?)]; [by left|]. right. exists l1. split; congruence.
    + pose proof (rp_next _ _ _ A). pose proof (rp_next _ _ _ B). lia.
    + by rewrite (rp_disk _ _ _ B), (rp_disk _ _ _ A).
Qed.

(** All items keep identifier, links and data. *)
Record quiet (s s' : State) : Prop := {
  qt_logs : forall r l', cloudlogs s' !! r = Some l' -> exists l, cloudlogs s !! r = Some l /\
    CloudLog.id l' = CloudLog.id l /\ CloudLog.links l' = CloudLog.links l /\ CloudLog.data l' = CloudLog.data l;
  qt_strs : forall q str', strs s' !! q = Some str' -> exists str, strs s !! q = Some str /\
    str' = str <| RCStr.refcount := RCStr.refcount str' |> /\ RCStr.refcount str' <= RCStr.refcount str;
  qt_next : Pos.le (next_ptr s) (next_ptr s');
  qt_disk : disk s' = disk s;
}.

#[export] Instance quiet_preorder : PreOrder quiet.
Proof.
  split.
  - intros s. split; [| |lia|done].
    + intros r l Hl. by exists l.
    + eauto using RCStr_set_refcount_id, Z.le_refl.
  - intros s1 s2 s3 A B. split.
    + intros r l3 K3. destruct (qt_logs _ _ B r l3 K3) as (l2 & K2 & ? & ? & ?).
      destruct (qt_logs _ _ A r l2 K2) as (l1 & K1 & ? & ? & ?). exists l1. split_and!; congruence.
    + intros r t3 K3. destruct (qt_strs _ _ B r t3 K3) as (t2 & K2 & E3 & ?).
      destruct (qt_strs _ _ A r t2 K2) as (t1 & K1 & E2 & ?). exists t1. split_and!; [done| |lia].
      rewrite E3, E2. by destruct t1.
    + pose proof (qt_next _ _ A). pose proof (qt_next _ _ B). lia.
    + by rewrite (qt_disk _ _ B), (qt_disk _ _ A).
Qed.

Lemma quiet_replays x s s' : quiet s s' -> replays x s s'.
Proof.
  intros Q. split; [|intros l' Hx|apply Q..].
  - intros r l' Hr _. by apply (qt_logs _ _ Q).
  - destruct (qt_logs _ _ Q x l' Hx) as (l & ? & ? & _). eauto.
Qed.

Lemma quiet_survive s s' : survive s s' -> quiet s s'.
Proof.
  intros Hs. split; [|apply Hs|rewrite (sv_next _ _ Hs); lia|apply Hs].
  intros r l' Hr. destruct (sv_logs _ _ Hs r l' Hr) as (l & Hl & ->). by exists l.
Qed.

Lemma quiet_same s s' :
  cloudlogs s' = cloudlogs s -> strs s' = strs s -> Pos.le (next_ptr s) (next_ptr s') -> disk s' = disk s -> quiet s s'.
Proof. intros El Es En Ed. split; rewrite ?El, ?Es; eauto using RCStr_set_refcount_id, Z.le_refl. Qed.

Lemma replays_same x s s' :
  cloudlogs s' = cloudlogs s -> Pos.le (next_ptr s) (next_ptr s') -> disk s' = disk s -> replays x s s'.
Proof. intros El En Ed. split; rewrite ?El; eauto. Qed.

Lemma replays_set_log s p l l' :
  cloudlogs s !! p = Some l -> CloudLog.id l' = CloudLog.id l -> replays p s (set_log p l' s).
Proof.
  intros Hp Ei. split; simpl; [| |lia|done].
  - intros r lr. intros Hr Hne. rewrite lookup_insert_ne in Hr by done. by exists lr.
  - intros lr. rewrite lookup_insert_eq. intros [= <-]. right. eauto.
Qed.

(** The parts of the file system object that items do not touch. *)
Definition fs_rest (s : State) : gmap Z ptr * Z := (FS.inodes (fs s), FS.next_inum (fs s)).

Lemma stats_add_rest type c f :
  FS.locations (stats_add type c f) = FS.locations f /\ FS.inodes (stats_add type c f) = FS.inodes f /\
  FS.next_inum (stats_add type c f) = FS.next_inum f.
Proof. by destruct c as [[]|]. Qed.

Lemma survive_fs_rest s s' : survive s s' -> fs_rest s' = fs_rest s.
Proof. intros Hs. destruct (sv_fs _ _ Hs) as (?&?&?&?&?&E). unfold fs_rest. by rewrite E. Qed.

(** ** Links by identifier *)

(** The item an identifier leads to. *)
Definition link_of (s : State) (id : BlueSkyCloudID) : option ptr :=
  if bool_decide (id = id0) then None else FS.locations (fs s) !! id.

Section recovery.
Context `{GSequenceLib} `{Env}.

Lemma table_owned xs xl s id p :
  heap_ok xs xl s -> table_ok s -> FS.locations (fs s) !! id = Some p ->
  exists l, cloudlogs s !! p = Some l /\ 0 < CloudLog.refcount l /\ log_owners s p + xl p <= CloudLog.refcount l.
Proof.
  intros Hok T Hp. apply T in Hp as (l & Hl & Hr & _). exists l. split_and!; [done|done|by eapply owners_refcount].
Qed.

Lemma reload_links_ok ids rest xl s :
  heap_ok nox xl s -> xnn xl -> table_ok s -> Forall (fun id => length id = 16%nat) ids ->
  wp (reload_links (length ids) (mjoin ids ++ rest)) s (fun L s' =>
    heap_ok nox (xadds xl L) s' /\ survive s s' /\ table_ok s' /\ L = link_of s <$> ids).
Proof.
  revert xl s. induction ids as [|id ids IH]; intros xl s Hok Hx T Hw.
  { simpl. wp_step. split_and!; [by rewrite xadds_nil|reflexivity|done|done]. }
  apply Forall_cons in Hw as [Hid Hw]. cbn [length reload_links]. change (mjoin (id :: ids)) with (id ++ mjoin ids).
  rewrite <- (assoc_L (++)). wp_step. wp_step; [apply slice_head; lia|]. wp_step.
  rewrite drop_app_length' by done.
  assert (Hrec : forall o s1, heap_ok nox (xadd xl o) s1 -> survive s s1 -> table_ok s1 -> o = link_of s id ->
    FS.locations (fs s1) = FS.locations (fs s) ->
    wp (rest0 ← reload_links (length ids) (mjoin ids ++ rest); mret (o :: rest0)) s1 (fun L s' =>
      heap_ok nox (xadds xl L) s' /\ survive s s' /\ table_ok s' /\ L = link_of s <$> id :: ids)).
  { intros o s1 Hok1 Hs1 T1 Eo El. wp_step. eapply wp_mono; [apply (IH _ s1 Hok1); auto with bluesky|].
    intros L s2 (Hok2 & Hs2 & T2 & EL). wp_step. split_and!; [|by etransitivity|done|].
    - rewrite xadds_cons. revert Hok2. apply heap_ok_proper; [done| |done].
      intros q. unfold xadds, xadd. lia.
    - rewrite EL, fmap_cons, Eo. f_equal. unfold link_of. by rewrite El. }
  unfold link_of in Hrec at 1. destruct (bool_decide (id = id0)).
  - wp_step. apply Hrec; [by rewrite xadd_None|reflexivity|done..].
  - wp_step. wp_step. destruct (FS.locations (fs s) !! id) as [r|] eqn:Er.
    + destruct (table_owned _ _ _ _ _ Hok T Er) as (l & Hl & Hr & Hle). wp_step.
      eapply wp_mono; [by eapply bluesky_cloudlog_ref_ok|]. intros ? s1 (Hok1 & Hs1 & ->). wp_step.
      apply Hrec; try done. apply (table_ok_set_log s r l); [done|done|simpl; lia|done].
    + wp_step. apply Hrec; [by rewrite xadd_None|reflexivity|done..].
Qed.

Lemma stats_update_step xs xl s p l type :
  heap_ok xs xl s -> table_ok s -> cloudlogs s !! p = Some l ->
  wp (bluesky_cloudlog_stats_update (Some p) type) s (fun _ s' => heap_ok xs xl s' /\ table_ok s' /\
    s' = s <| fs ::= stats_add type (stats_counter l) |> /\ fs_rest s' = fs_rest s).
Proof.
  intros Hok T Hp. eapply wp_mono; [by apply (stats_update_ok xs xl s p l)|]. intros ? s' [Hok' ->].
  destruct (stats_add_rest type (stats_counter l) (fs s)) as (E1 & E2 & E3). split_and!; [done| |done|].
  - revert T. by apply table_ok_same.
  - unfold fs_rest. simpl. by rewrite E2, E3.
Qed.

Lemma set_fields_step xs xl s p l l' :
  heap_ok xs xl s -> table_ok s -> cloudlogs s !! p = Some l -> 0 < CloudLog.refcount l ->
  CloudLog.id l' = CloudLog.id l -> CloudLog.refcount l' = CloudLog.refcount l ->
  CloudLog.links l' = CloudLog.links l -> CloudLog.data l' = CloudLog.data l ->
  CloudLog.type l' = CloudLog.type l ->
  heap_ok xs xl (set_log p l' s) /\ table_ok (set_log p l' s) /\ replays p s (set_log p l' s).
Proof.
  intros Hok T Hp Hr Ei Er El Ed Et. split_and!.
  - eapply heap_ok_set_fields; try done. unfold dead. rewrite Et. apply (ho_alive _ _ _ Hok _ _ Hp Hr).
  - eapply table_ok_set_log; [done|done|lia|done].
  - by eapply replays_set_log.
Qed.

Lemma reload_item_ok xl s p l ids :
  heap_ok nox xl s -> xnn xl -> table_ok s -> cloudlogs s !! p = Some l -> 0 < xl p ->
  CloudLog.data l = None -> CloudLog.links l = [] -> Forall (fun id => length id = 16%nat) ids ->
  wp (reload_item (Some p) (mjoin ids) (zlen (mjoin ids))) s (fun _ s' =>
    heap_ok nox xl s' /\ table_ok s' /\ replays p s s' /\ inodes s' = inodes s /\ fs_rest s' = fs_rest s /\
    exists l', cloudlogs s' !! p = Some l' /\ CloudLog.data l' = None /\ CloudLog.links l' = link_of s <$> ids).
Proof.
  intros Hok Hx T Hp Hh Hd Hl Hw.
  assert (Hrc : 0 < CloudLog.refcount l).
  { pose proof (log_owners_nonneg s p). destruct (ho_logs _ _ _ Hok p) as (l1 & Hl1 & ?); [lia|]. simplify_eq. lia. }
  unfold reload_item. wp_step. eapply wp_mono; [by apply (stats_update_step nox xl s p l)|].
  intros ? s1 (Hok1 & T1 & E1 & F1). wp_step. eapply wp_load; [by rewrite E1|]. rewrite Hd.
  wp_step. simpl (bluesky_string_unref None). wp_step. wp_step. eapply wp_upd; [by rewrite E1|].
  set (l2 := setf CloudLog.location_flags _ _). change (setf cloudlogs _ s1) with (set_log p l2 s1).
  assert (Hp1 : cloudlogs s1 !! p = Some l) by (by rewrite E1).
  destruct (set_fields_step nox xl s1 p l l2) as (Hok2 & T2 & R2); try done.
  wp_step. eapply wp_mono; [apply (stats_update_step nox xl _ p l2); [done|done|apply lookup_insert_eq]|].
  intros ? s3 (Hok3 & T3 & E3 & F3). wp_step.
  assert (Hn : Z.to_nat (zlen (mjoin ids) / 16) = length ids).
  { assert (zlen (mjoin ids) = zlen ids * 16) as ->; [|by rewrite Z.div_mul, Nat2Z.id].
    clear -Hw. induction Hw as [|id ids Hid _ IH]; [done|]. change (mjoin (id :: ids)) with (id ++ mjoin ids).
    rewrite length_app. simpl length. lia. }
  rewrite Hn, <- (app_nil_r (mjoin ids)). eapply wp_mono; [by apply (reload_links_ok ids [] xl s3)|].
  intros L s4 (Hok4 & Hs4 & T4 & EL). wp_step.
  assert (Hp3 : cloudlogs s3 !! p = Some l2) by (rewrite E3; apply lookup_insert_eq).
  assert (Hown : log_owners s4 p + xadds xl L p > 0).
  { pose proof (log_owners_nonneg s4 p). pose proof (lsum_nonneg (points p) L (points_nonneg p)). unfold xadds. lia. }
  destruct (ho_logs _ _ _ Hok4 p ltac:(lia)) as (l4 & Hp4 & Hle).
  destruct (sv_logs _ _ Hs4 p l4 Hp4) as (l0 & Hl0 & E4). assert (l0 = l2) as -> by congruence.
  eapply wp_load; [done|]. assert (CloudLog.links l4 = []) as -> by (by rewrite E4). cbn [for_each]. wp_step. wp_step.
  eapply wp_upd; [done|]. set (l5 := setf CloudLog.links _ l4). change (setf cloudlogs _ s4) with (set_log p l5 s4).
  assert (Ha : dead l4 = false) by (apply (ho_alive _ _ _ Hok4 _ _ Hp4); lia).
  assert (Hl4 : CloudLog.links l4 = []) by (by rewrite E4).
  split_and!.
  - eapply (heap_ok_set_log _ _ nox xl s4 p l4 l5 Hok4); [done|done|by intros _| | |].
    + intros q. unfold log_strs. change (dead l5) with (dead l4). rewrite Ha. simpl. lia.
    + intros r _. unfold log_logs, xadds. change (dead l5) with (dead l4). rewrite Ha, Hl4. simpl. lia.
    + unfold log_logs, xadds in *. change (dead l5) with (dead l4). rewrite Ha, Hl4. simpl. lia.
  - apply (table_ok_set_log s4 p l4); [done|done|simpl; lia|done].
  - transitivity s1; [apply quiet_replays, quiet_same; by rewrite E1|]. transitivity (set_log p l2 s1); [done|].
    transitivity s3; [apply quiet_replays, quiet_same; by rewrite E3|]. transitivity s4; [by apply quiet_replays, quiet_survive|].
    by apply (replays_set_log s4 p l4).
  - simpl. rewrite (sv_inodes _ _ Hs4), E3. simpl. by rewrite E1.
  - change (fs_rest s4 = fs_rest s). rewrite (survive_fs_rest _ _ Hs4), F3. exact F1.
  - exists l5. split; [simpl; apply lookup_insert_eq|]. split; [simpl; by rewrite E4|].
    change (CloudLog.links l5) with L. rewrite EL. apply list_fmap_ext. intros _ id _. unfold link_of. f_equal. rewrite E3, E1. simpl.
    rewrite !(proj1 (stats_add_rest _ _ _)). done.
Qed.

(** ** Inodes *)

(** An inode without data in memory only. *)
Definition clean (j : Inode.t) : Prop :=
  (Inode.type j = BLUESKY_REGULAR -> exists links, Inode.blocks j = Some (ref_block <$> links)) /\
  (Inode.type j <> BLUESKY_REGULAR -> Inode.blocks j = None).

(** Dropping the references of blocks that the inode still records: [g] are the
    inodes without them. *)
Lemma free_blocks_ok links xl s g :
  heap_ok nox (xadds xl links) (s <| inodes := g |>) -> xnn xl -> table_ok s ->
  wp (for_each (ref_block <$> links) (fun b =>
        check Fatal (negb (bool_decide (Block.type b = Block.DIRTY)));;
        bluesky_cloudlog_unref (Block.ref b);;
        bluesky_string_unref (Block.dirty b))) s (fun _ s' =>
    heap_ok nox xl (s' <| inodes := g |>) /\ survive (s <| inodes := g |>) (s' <| inodes := g |>) /\
    inodes s' = inodes s /\ table_ok s').
Proof.
  revert s. induction links as [|o links IH]; intros s Hok Hx T.
  { simpl. rewrite xadds_nil in Hok. by split_and!. }
  rewrite xadds_cons in Hok. rewrite fmap_cons. cbn [for_each]. wp_step. wp_step. wp_step; [done|]. wp_step.
  eapply wp_mono; [eapply wp_wlp; [apply unref_recorded_ok; [exact Hok|auto with bluesky..]|apply unref_rec_lowers]|].
  intros ? s1 ((Hok1 & Hs1 & E1) & [_ L1]). simpl (bluesky_string_unref _). wp_step.
  eapply wp_mono; [apply IH; auto|]. intros ? s2 (Hok2 & Hs2 & E2 & T2).
  split_and!; [done|by etransitivity|congruence|done].
Qed.

Lemma free_resources_ok xl s q j :
  heap_ok nox xl s -> xnn xl -> table_ok s -> inodes s !! q = Some j -> clean j ->
  wp (bluesky_inode_free_resources (Some q)) s (fun _ s' => heap_ok nox xl s' /\ table_ok s' /\ quiet s s' /\
    fs_rest s' = fs_rest s /\ exists j', inodes s' = <[q := j']> (inodes s) /\ Inode.blocks j' = None /\
      Inode.inum j' = Inode.inum j /\ Inode.committed_item j' = Inode.committed_item j).
Proof.
  intros Hok Hx T Hq [Cr Cn]. unfold bluesky_inode_free_resources. wp_step. eapply wp_load; [done|].
  destruct (Z.eqb_spec (Inode.type j) BLUESKY_REGULAR) as [E|E].
  { destruct (Cr E) as [links Hb]. rewrite Hb. wp_step.
    set (j' := j <| Inode.blocks := None |>). set (g := <[q := j']> (inodes s)).
    assert (Hg : heap_ok nox (xadds xl links) (s <| inodes := g |>)).
    { apply (heap_ok_set_inode nox xl _ _ s q j j'); [done|done| |]; intros r;
        unfold inode_strs, inode_logs, blocks_of; simpl; rewrite Hb; simpl; rewrite lsum_fmap.
      - simpl. rewrite lsum_zero by (intros; apply points_None). unfold nox. lia.
      - unfold xadds. simpl. change (lsum (fun o => points r o) links) with (lsum (points r) links). lia. }
    eapply wp_mono; [by apply (free_blocks_ok links xl s g)|].
    intros ? s1 (Hok1 & Hs1 & E1 & T1). eapply wp_upd; [by rewrite E1|].
    assert (Es : setf inodes (<[q := setf Inode.blocks (fun _ => None) j]>) s1 = s1 <| inodes := g |>).
    { apply State_ext; try reflexivity. simpl. by rewrite E1. }
    rewrite Es. split_and!; [done|done| | |].
    - destruct (quiet_survive _ _ Hs1). by split.
    - exact (survive_fs_rest _ _ Hs1).
    - by exists j'. }
  assert (Hset : forall j', Inode.blocks j' = None -> Inode.inum j' = Inode.inum j ->
    Inode.committed_item j' = Inode.committed_item j ->
    let s' := set_inode q j' s in heap_ok nox xl s' /\ table_ok s' /\ quiet s s' /\
    fs_rest s' = fs_rest s /\ exists j', inodes s' = <[q := j']> (inodes s) /\ Inode.blocks j' = None /\
      Inode.inum j' = Inode.inum j /\ Inode.committed_item j' = Inode.committed_item j).
  { intros j' Eb Ei Ec. split_and!; [|done|by apply quiet_same|done|by exists j'].
    apply (heap_ok_set_inode nox xl _ _ s q j j' Hok Hq); intros r; unfold inode_strs, inode_logs, blocks_of;
      rewrite Eb, (Cn E), ?Ec; simpl; lia. }
  destruct (Inode.type j =? BLUESKY_DIRECTORY); [eapply wp_upd; [done|]; apply Hset; try done; by apply Cn|].
  destruct (Inode.type j =? BLUESKY_SYMLINK); [eapply wp_upd; [done|]; apply Hset; try done; by apply Cn|].
  wp_step. split_and!; [done|done|reflexivity|done|]. exists j. rewrite insert_id by done. split_and!; try done. by apply Cn.
Qed.

(** [i] with blocks that refer to [links]. *)
Definition relink (i : Inode.t) (links : list (option ptr)) : Inode.t :=
  if Inode.type i =? BLUESKY_REGULAR then i <| Inode.blocks := Some (ref_block <$> links) |> else i.

(** [j] has the attributes and the contents of [i]. *)
Record same_contents (i j : Inode.t) : Prop := {
  sc_type : Inode.type j = Inode.type i;
  sc_inum : Inode.inum j = Inode.inum i;
  sc_owner : (Inode.mode j, Inode.uid j, Inode.gid j, Inode.nlink j) = (Inode.mode i, Inode.uid i, Inode.gid i, Inode.nlink i);
  sc_times : (Inode.atime j, Inode.ctime j, Inode.mtime j, Inode.ntime j) = (Inode.atime i, Inode.ctime i, Inode.mtime i, Inode.ntime i);
  sc_changes : Inode.change_count j = Inode.change_count i /\ Inode.change_commit j = Inode.change_count i;
  sc_file : Inode.type i = BLUESKY_REGULAR -> Inode.size j = Inode.size i /\ Inode.blocks j = Inode.blocks i;
  sc_dir : Inode.type i = BLUESKY_DIRECTORY -> exists l h hf, Inode.dirents i = Some l /\ Inode.dirhash i = Some h /\ dir_ok j l h hf;
  sc_link : Inode.type i = BLUESKY_SYMLINK -> Inode.symlink_contents j = Inode.symlink_contents i;
  sc_blocks : Inode.type i <> BLUESKY_REGULAR -> Inode.blocks j = None;
}.

Lemma relink_type i links : Inode.type (relink i links) = Inode.type i.
Proof. unfold relink. by destruct (_ =? _). Qed.

Lemma relink_inum i links : Inode.inum (relink i links) = Inode.inum i.
Proof. unfold relink. by destruct (_ =? _). Qed.

Lemma ref_block_links (links : list (option ptr)) : block_link <$> (ref_block <$> links) = links.
Proof. induction links as [|o links IH]; [done|]. rewrite !fmap_cons, IH. done. Qed.

Lemma restored_same_contents i links j j' :
  Inode.inum j = Inode.inum i -> Inode.blocks j = None -> restored (relink i links) j j' ->
  same_contents (relink i links) j'.
Proof.
  intros Ei Eb. unfold restored. rewrite relink_type.
  intros [[Et ->]|[[Et (l & h & hf & Hl & Hh & -> & D)]|[[Et ->]|(N1 & N2 & N3 & ->)]]]; split;
    rewrite ?relink_type, ?relink_inum; try done; try apply relink_type;
    try (intros ?; unfold BLUESKY_REGULAR, BLUESKY_DIRECTORY, BLUESKY_SYMLINK in *; lia).
  - intros _. split; [done|]. unfold relink, blocks_of. rewrite (proj2 (Z.eqb_eq _ _) Et). simpl.
    by rewrite ref_block_links.
  - intros _. by exists l, h, hf.
Qed.

(** Every inode in the table of inodes is there, under its number, and clean. *)
Definition inodes_clean (s : State) : Prop := forall n q, FS.inodes (fs s) !! n = Some q ->
  exists j, inodes s !! q = Some j /\ Inode.inum j = n /\ clean j.

(** An inode of number [n] in the table, or a new one that has been entered. *)
Record entered (n : Z) (q : ptr) (j : Inode.t) (s s' : State) : Prop := {
  en_table : FS.inodes (fs s') = <[n := q]> (FS.inodes (fs s));
  en_inode : inodes s' !! q = Some j;
  en_inum : Inode.inum j = n;
  en_clean : clean j;
  en_other : forall r, r <> q -> inodes s' !! r = inodes s !! r;
  en_next : FS.next_inum (fs s') = FS.next_inum (fs s);
  en_known : FS.inodes (fs s) !! n = Some q \/ inodes s !! q = None;
}.

Lemma find_inode_ok xl s n :
  heap_ok nox xl s -> table_ok s -> inodes_clean s ->
  wp (replay_find_inode n) s (fun q s' => heap_ok nox xl s' /\ table_ok s' /\ quiet s s' /\ exists j, entered n q j s s').
Proof.
  intros Hok T C. unfold replay_find_inode. wp_step. wp_step. destruct (FS.inodes (fs s) !! n) as [q|] eqn:En.
  { wp_step. destruct (C n q En) as (j & Hj & Ej & Cj). split_and!; [done|done|reflexivity|].
    exists j. split; try done; [by rewrite insert_id|by left]. }
  unfold bluesky_new_inode, bluesky_init_inode, bluesky_insert_inode.
  change (BLUESKY_PENDING =? BLUESKY_REGULAR) with false. change (BLUESKY_PENDING =? BLUESKY_DIRECTORY) with false.
  cbv iota. wp_run.
  set (j := inode_zero <| Inode.refcount := 1 |> <| Inode.inum := n |> <| Inode.change_count := 0 |>).
  match goal with |- heap_ok _ _ ?t /\ _ => set (s' := t) end.
  assert (Fr : inodes s !! next_ptr s = None) by (apply (ho_fresh _ _ _ Hok); lia).
  assert (Ei : inodes s' = <[next_ptr s := j]> (inodes s)) by (simpl; by rewrite !insert_insert_eq).
  split_and!.
  - apply (heap_ok_move nox xl _ _ s); try done; simpl.
    + intros r. unfold str_owners. rewrite Ei, msum_insert_fresh by done. simpl. change (inode_strs r j) with 0. lia.
    + intros r. unfold log_owners, queue_logs. rewrite Ei, msum_insert_fresh by done. simpl.
      assert (inode_logs r j = 0) as -> by (unfold inode_logs, j; simpl; rewrite points_None; done). lia.
    + lia.
    + intros r Hr. rewrite !insert_insert_eq, lookup_insert_ne by lia.
      destruct (ho_fresh _ _ _ Hok r) as (_ & _ & _ & ? & ?); [lia|]. done.
  - done.
  - apply quiet_same; [done|done|simpl; lia|done].
  - exists j. split; try done.
    + rewrite Ei. apply lookup_insert_eq.
    + intros r Hr. rewrite Ei. by rewrite lookup_insert_ne.
    + by right.
Qed.

(** An item that running code holds. *)
Lemma held_item xs xl s x :
  heap_ok xs xl s -> xnn xl -> 0 < xl x ->
  exists l, cloudlogs s !! x = Some l /\ 0 < CloudLog.refcount l /\ log_owners s x + xl x <= CloudLog.refcount l.
Proof.
  intros Hok Hx Hh. pose proof (log_owners_nonneg s x).
  destruct (ho_logs _ _ _ Hok x) as (l & Hl & ?); [lia|]. exists l. split_and!; [done|lia|lia].
Qed.

(** An inode without the fields that [replay_adopt] sets. *)
Definition core_inode (j : Inode.t) : Inode.t :=
  j <| Inode.accessed_list := None |> <| Inode.dirty_list := None |> <| Inode.unlogged_list := None |>
    <| Inode.change_cloud := 0 |> <| Inode.committed_item := None |>.

Lemma relist_ok s x q j n Q :
  inodes s !! q = Some j ->
  (forall s1 j1,
     touches_inode q j1 (s <| fs := (fs s) <| FS.next_inum := Z.max (FS.next_inum (fs s)) (u64 (n + 1)) |> |>) s1 ->
     core_inode j1 = core_inode j -> Inode.committed_item j1 = Inode.committed_item j ->
     wp (bluesky_cloudlog_ref (Some x);;
         i ← load inodes (Some q);
         bluesky_cloudlog_unref (Inode.committed_item i);;
         upd inodes (Some q) (fun i => i <| Inode.committed_item := Some x |>)) s1 Q) ->
  wp (replay_adopt x q n) s Q.
Proof.
  intros Hq. unfold replay_adopt, fs_list_unlink, fs_list_prepend. generalize (u64 (n + 1)). intros m HQ. wp_run.
  apply wp_bind_inv. eapply HQ; clear HQ.
  - split; cbn; [reflexivity|reflexivity|reflexivity| |reflexivity..|lia|reflexivity].
    rewrite !insert_insert_eq. reflexivity.
  - reflexivity.
  - reflexivity.
Qed.

Lemma replay_adopt_ok xl s x q j n :
  heap_ok nox xl s -> xnn xl -> table_ok s -> 0 < xl x -> inodes s !! q = Some j ->
  wp (replay_adopt x q n) s (fun _ s' => heap_ok nox xl s' /\ table_ok s' /\ quiet s s' /\
    fs_rest s' = (FS.inodes (fs s), Z.max (FS.next_inum (fs s)) (u64 (n + 1))) /\
    exists j', inodes s' = <[q := j']> (inodes s) /\ core_inode j' = core_inode j).
Proof.
  intros Hok Hx T Hh Hq. apply (relist_ok s x q j n); [done|]. intros s1 j1 Ti Ad Ec.
  set (s0 := s <| fs := (fs s) <| FS.next_inum := Z.max (FS.next_inum (fs s)) (u64 (n + 1)) |> |>) in *.
  assert (Hok0 : heap_ok nox xl s0) by (apply heap_ok_fs; [done..|apply (ho_loc _ _ _ Hok)]).
  assert (Eb : blocks_of j1 = blocks_of j) by exact (f_equal blocks_of Ad).
  assert (Hok1 : heap_ok nox xl s1).
  { eapply (heap_ok_touches _ _ s0 s1 q j j1); [done|done|done| |]; intros r; unfold inode_strs, inode_logs;
      by rewrite Eb, ?Ec. }
  assert (T1 : table_ok s1).
  { revert T. apply table_ok_same; [apply Ti|]. by rewrite (ti_fs _ _ _ _ Ti). }
  assert (Hq1 : inodes s1 !! q = Some j1) by (rewrite (ti_inodes _ _ _ _ Ti); apply lookup_insert_eq).
  wp_step. destruct (held_item _ _ _ _ Hok1 Hx Hh) as (l & Hl & Hr & Hle).
  eapply wp_mono; [by eapply (bluesky_cloudlog_ref_ok nox xl s1 x l)|]. intros ? s2 (Hok2 & Hs2 & E2).
  wp_step. eapply wp_load; [by rewrite E2|]. wp_step.
  set (j2 := j1 <| Inode.committed_item := Some x |>). set (g := <[q := j2]> (inodes s1)).
  assert (Hg : heap_ok nox (xadd xl (Inode.committed_item j1)) (s2 <| inodes := g |>)).
  { rewrite E2 in Hok2 |- *. eapply (heap_ok_set_inode nox _ _ _ _ q j1 j2 Hok2 Hq1); intros r.
    - unfold inode_strs, blocks_of. simpl. lia.
    - unfold inode_logs, blocks_of, xadd. simpl. lia. }
  assert (T2 : table_ok s2) by (rewrite E2; apply (table_ok_set_log s1 x l); [done|done|simpl; lia|done]).
  eapply wp_mono; [eapply wp_wlp; [apply unref_recorded_ok; [exact Hg|auto with bluesky..]|apply unref_rec_lowers]|].
  intros ? s3 ((Hok3 & Hs3 & E3) & [_ L3]). eapply wp_upd; [by rewrite E3, E2|].
  assert (Es : setf inodes (<[q := setf Inode.committed_item (fun _ => Some x) j1]>) s3 = s3 <| inodes := g |>).
  { apply State_ext; try reflexivity. simpl. by rewrite E3, E2. }
  rewrite Es. split_and!; [done|by apply L3| | |].
  - transitivity s1; [apply quiet_same; apply Ti|]. transitivity s2; [by apply quiet_survive|].
    destruct (quiet_survive _ _ Hs3). by split.
  - etransitivity; [exact (survive_fs_rest _ _ Hs3)|]. rewrite E2.
    unfold fs_rest. simpl. by rewrite (ti_fs _ _ _ _ Ti).
  - exists j2. split; [simpl; unfold g; rewrite (ti_inodes _ _ _ _ Ti); by rewrite insert_insert_eq|].
    rewrite <- Ad. by destruct j1.
Qed.

(** The item still holds its inode. *)
Lemma item_holds_quiet xl s s' x i :
  heap_ok nox xl s' -> xnn xl -> 0 < xl x -> quiet s s' -> item_holds s x i -> item_holds s' x i.
Proof.
  intros Hok Hx Hh Q (l & sq & Hl & Hr & Hk & Hd & Hs).
  destruct (held_item _ _ _ _ Hok Hx Hh) as (l' & Hl' & Hr' & _).
  destruct (qt_logs _ _ Q x l' Hl') as (l0 & Hl0 & _ & Ek & Ed). assert (l0 = l) as -> by congruence.
  rewrite Hd in Ed. destruct (heap_ok_log_data _ _ _ _ _ _ Hok xnn_nox Hl' Hr' Ed) as (str & Hstr & Hle).
  destruct (qt_strs _ _ Q sq str Hstr) as (t & Ht & Et & Hn). rewrite Hs in Ht. injection Ht as <-. simpl in Hn.
  exists l', sq. split_and!; [done|done|congruence|done|]. rewrite Hstr, Et.
  assert (RCStr.refcount str = 1) as -> by (unfold nox in Hle; lia). done.
Qed.

Lemma same_contents_core i j j' : core_inode j' = core_inode j -> same_contents i j -> same_contents i j'.
Proof.
  intros E [S1 S2 S3 S4 [S5 S6] S7 S8 S9 S10].
  pose proof (f_equal Inode.type E). pose proof (f_equal Inode.inum E). pose proof (f_equal Inode.blocks E).
  pose proof (f_equal Inode.dirents E). pose proof (f_equal Inode.dirhash E).
  pose proof (f_equal Inode.dirhash_folded E). pose proof (f_equal Inode.symlink_contents E).
  pose proof (f_equal Inode.size E). pose proof (f_equal Inode.change_count E). pose proof (f_equal Inode.change_commit E).
  pose proof (f_equal (fun j => (Inode.mode j, Inode.uid j, Inode.gid j, Inode.nlink j)) E).
  pose proof (f_equal (fun j => (Inode.atime j, Inode.ctime j, Inode.mtime j, Inode.ntime j)) E).
  cbn in *. clear E. split; try congruence.
  - split; congruence.
  - intros Et. destruct (S7 Et). split; congruence.
  - intros Et. destruct (S8 Et) as (l & h & hf & ? & ? & []). exists l, h, hf. split_and!; [done|done|]. split; congruence || done.
  - intros Et. rewrite <- S9; [congruence|done].
  - intros Et. rewrite <- S10; [congruence|done].
Qed.

Lemma same_contents_clean i links j : same_contents (relink i links) j -> clean j.
Proof.
  intros S. split; intros Et; rewrite (sc_type _ _ S), relink_type in Et.
  - exists links. destruct (sc_file _ _ S) as [_ ->]; [by rewrite relink_type|].
    unfold relink. by rewrite (proj2 (Z.eqb_eq _ _) Et).
  - apply (sc_blocks _ _ S). by rewrite relink_type.
Qed.

Lemma table_ok_gained s s' :
  (forall r, option_Forall2 gained (cloudlogs s !! r) (cloudlogs s' !! r)) ->
  FS.locations (fs s') = FS.locations (fs s) -> table_ok s -> table_ok s'.
Proof.
  intros Hg El T id p. rewrite El, (T id p). specialize (Hg p). split; intros (l & Hl & Hr & Ei).
  - rewrite Hl in Hg. inversion Hg as [? l' (Hle & _ & E) Ea Eb|]; subst. exists l'.
    split_and!; [done|lia|by rewrite E].
  - rewrite Hl in Hg. inversion Hg as [l0 ? (Hle & Hp & E) Ea Eb|]; subst. exists l0.
    split_and!; [done|by apply Hp|by rewrite E].
Qed.

Lemma quiet_restores q j s s' : restores q j s s' -> quiet s s'.
Proof.
  intros [E Hg]. split; [|rewrite E; eauto using RCStr_set_refcount_id, Z.le_refl|rewrite E; simpl; lia|by rewrite E].
  intros r l' Hl'. specialize (Hg r). rewrite Hl' in Hg. inversion Hg as [l0 ? (_ & _ & E1) Ea Eb|]; subst.
  exists l0. by rewrite E1.
Qed.

Lemma replay_inode_ok xl s x i links :
  heap_ok nox xl s -> xnn xl -> table_ok s -> 0 < xl x -> item_holds s x (relink i links) ->
  inode_wf (relink i links) -> inodes_clean s ->
  wp (replay_inode x (Inode.inum i)) s (fun _ s' => heap_ok nox xl s' /\ table_ok s' /\ quiet s s' /\
    FS.next_inum (fs s') = Z.max (FS.next_inum (fs s)) (u64 (Inode.inum i + 1)) /\
    exists q j, FS.inodes (fs s') = <[Inode.inum i := q]> (FS.inodes (fs s)) /\ inodes s' !! q = Some j /\
      same_contents (relink i links) j /\ (forall r, r <> q -> inodes s' !! r = inodes s !! r) /\
      (FS.inodes (fs s) !! Inode.inum i = Some q \/ inodes s !! q = None)).
Proof.
  intros Hok Hx T Hh Hi W C. unfold replay_inode. wp_step.
  eapply wp_mono; [by apply (find_inode_ok xl s)|]. intros q s1 (Hok1 & T1 & Q1 & j0 & En). wp_step.
  eapply wp_mono; [by apply (free_resources_ok xl s1 q j0 Hok1 Hx T1 (en_inode _ _ _ _ _ En) (en_clean _ _ _ _ _ En))|].
  intros ? s2 (Hok2 & T2 & Q2 & F2 & j1 & E2 & Hb1 & Hn1 & _). wp_step.
  assert (Hi2 : item_holds s2 x (relink i links)).
  { apply (item_holds_quiet xl s s2); [done|done|done|by etransitivity|done]. }
  assert (Hj1 : inodes s2 !! q = Some j1) by (rewrite E2; apply lookup_insert_eq).
  assert (Hin : Inode.inum j1 = Inode.inum i) by (rewrite Hn1; apply En).
  eapply wp_mono; [apply (deserialize_inode_ok xl s2 x q (relink i links) j1); try done; by rewrite relink_inum|].
  intros ? s3 (_ & Hok3 & j2 & R & Rs). pose proof Rs as [E3 G3].
  assert (T3 : table_ok s3) by (revert T2; apply table_ok_gained; [done|by rewrite E3]).
  assert (Hj2 : inodes s3 !! q = Some j2) by (rewrite E3; apply lookup_insert_eq).
  eapply wp_mono; [by apply (replay_adopt_ok xl s3 x q j2 (Inode.inum i))|].
  intros ? s4 (Hok4 & T4 & Q4 & F4 & j3 & E4 & Ec).
  assert (F3 : fs s3 = fs s2) by (by rewrite E3).
  unfold fs_rest in F2, F4. injection F2 as F2 N2. injection F4 as F4 N4.
  split_and!; [done|done| | |].
  - transitivity s1; [done|]. transitivity s2; [done|]. transitivity s3; [by eapply quiet_restores|done].
  - rewrite N4, F3, N2, (en_next _ _ _ _ _ En). done.
  - exists q, j3. rewrite F4, F3, F2, (en_table _ _ _ _ _ En), E4. split_and!; [done|apply lookup_insert_eq| | |apply En].
    + apply (same_contents_core _ j2); [done|]. by apply (restored_same_contents i links j1).
    + intros r Hr. rewrite lookup_insert_ne by done. rewrite E3. simpl. rewrite lookup_insert_ne, E2, lookup_insert_ne by done.
      by apply En.
Qed.

(** ** Records *)

(** The record [e] holds links to the items [ids] and, if it is that of an inode,
    the inode [v], whose blocks count but not their contents. *)
Record stores (e : Entry.t) (ids : list BlueSkyCloudID) (v : option Inode.t) : Prop := {
  st_id : LogHeader.id (Entry.header e) <> id0;
  st_links : Entry.data2 e = mjoin ids;
  st_ids : Forall (fun id => length id = 16%nat) ids;
  st_inode : match v with
    | Some i => LogHeader.type (Entry.header e) = LOGTYPE_INODE + 48 /\
        LogHeader.inum (Entry.header e) = Inode.inum i /\
        Entry.data1 e = serialized_inode i ++ inode_rest i /\ inode_wf i /\ Inode.inum i < 2 ^ 64 - 1 /\
        length ids = (if Inode.type i =? BLUESKY_REGULAR then length (blocks_of i) else 0%nat)
    | None => LogHeader.type (Entry.header e) <> LOGTYPE_INODE + 48
    end;
}.

Lemma relink_wf i links :
  inode_wf i -> length links = (if Inode.type i =? BLUESKY_REGULAR then length (blocks_of i) else 0%nat) ->
  inode_wf (relink i links).
Proof.
  intros W Hl. unfold relink. destruct (Z.eqb_spec (Inode.type i) BLUESKY_REGULAR) as [E|E]; [|done].
  split; try apply W; simpl.
  - intros _. destruct (iw_file _ W E) as (? & bl & Hb & Hn). split; [done|]. eexists. split; [done|].
    rewrite length_fmap, Hl. unfold blocks_of. by rewrite Hb.
  - intros Ed. unfold BLUESKY_REGULAR, BLUESKY_DIRECTORY in *. lia.
Qed.

Lemma relink_data i links :
  serialized_inode (relink i links) ++ inode_rest (relink i links) = serialized_inode i ++ inode_rest i.
Proof. unfold relink. by destruct (Inode.type i =? BLUESKY_REGULAR). Qed.

Lemma relink_links i links :
  length links = (if Inode.type i =? BLUESKY_REGULAR then length (blocks_of i) else 0%nat) ->
  inode_links (relink i links) = links.
Proof.
  intros Hl. unfold inode_links. rewrite relink_type. unfold relink.
  destruct (Inode.type i =? BLUESKY_REGULAR); [apply ref_block_links|]. by destruct links.
Qed.

(** The parts of a record in a file. *)
Lemma record_slices pre e post off :
  Entry.wf off e -> let buf := pre ++ Entry.record e ++ post in
  slice buf (zlen pre + LogHeader.size) (LogHeader.size1 (Entry.header e)) = Some (Entry.data1 e) /\
  slice buf (zlen pre + LogHeader.size + LogHeader.size1 (Entry.header e)) (LogHeader.size2 (Entry.header e))
    = Some (Entry.data2 e).
Proof.
  intros [W _ _] buf. unfold buf, Entry.record, journal_record.
  pose proof (length_log_header _ (LogHeaderWf.id _ (ew_header _ _ _ _ W))) as Hlh.
  rewrite (ew_size1 _ _ _ _ W), (ew_size2 _ _ _ _ W), <- !(assoc_L (++)). split.
  - rewrite !slice_skip by lia. apply slice_head_at; lia.
  - rewrite !slice_skip by lia. apply slice_head_at; lia.
Qed.

(** ** One record *)

(** No item with this identifier has been read yet. *)
Definition unread (s : State) (id : BlueSkyCloudID) : Prop := forall p l,
  cloudlogs s !! p = Some l -> CloudLog.id l = id -> CloudLog.data l = None /\ CloudLog.links l = [].

(** The table grows. *)
Definition knows (s s' : State) : Prop := forall id r,
  FS.locations (fs s) !! id = Some r -> FS.locations (fs s') !! id = Some r.

Lemma get_item_ok xl s id :
  heap_ok nox xl s -> xnn xl -> table_ok s -> id <> id0 -> unread s id ->
  wp (bluesky_cloudlog_get id) s (fun o s' => exists p l, o = Some p /\ heap_ok nox (xadd xl (Some p)) s' /\
    table_ok s' /\ replays p s s' /\ knows s s' /\ inodes s' = inodes s /\ fs_rest s' = fs_rest s /\
    cloudlogs s' !! p = Some l /\ CloudLog.id l = id /\ CloudLog.data l = None /\ CloudLog.links l = []).
Proof.
  intros Hok Hx T Hid U. eapply wp_mono; [apply (cloudlog_get_ok xl s id); auto using table_ok_live|].
  intros o s' (p & l & -> & Hok' & Ct & Tl & Hl & Ei & Hloc & Hother & Hp). exists p, l.
  pose proof (ct_state _ _ Ct) as Es.
  assert (Hold : forall l0, cloudlogs s !! p = Some l0 -> CloudLog.id l0 = id /\
    CloudLog.data l = CloudLog.data l0 /\ CloudLog.links l = CloudLog.links l0).
  { intros l0 H0'. destruct (ct_logs _ _ Ct p l0 H0') as (l1 & Hl1 & _ & E1). assert (l1 = l) as -> by congruence.
    rewrite E1 in Ei |- *. done. }
  assert (T' : table_ok s').
  { intros i r. split.
    - intros Hi. destruct (Tl i r Hi) as (lr & Hlr & Hr). destruct (ho_loc _ _ _ Hok' i r Hi) as (lr' & Hlr' & Er).
      exists lr. split_and!; [done|done|congruence].
    - intros (lr & Hlr & Hr & Er). destruct (decide (r = p)) as [->|Hne]; [congruence|].
      apply (ct_table _ _ Ct), T. exists lr. split_and!; [by apply Hother|done|done]. }
  split_and!; try done.
  - split; [|intros lp Hlp|apply Ct|by rewrite Es].
    + intros r lr Hlr Hne. exists lr. split_and!; try done. by apply Hother.
    + destruct Hp as [[-> _]|[l0 Hl0]]; [left; lia|]. right. exists l0. split; [done|].
      destruct (Hold l0 Hl0) as (E0 & _). congruence.
  - exact (ct_table _ _ Ct).
  - by rewrite Es.
  - unfold fs_rest. by rewrite Es.
  - destruct Hp as [[_ ->]|[l0 Hl0]]; [done|]. destruct (Hold l0 Hl0) as (E0 & -> & _). by apply (U p l0).
  - destruct Hp as [[_ ->]|[l0 Hl0]]; [done|]. destruct (Hold l0 Hl0) as (E0 & _ & ->). by apply (U p l0).
Qed.

(** The links lead to the items with these identifiers. *)
Definition linked (s : State) (ids : list BlueSkyCloudID) (links : list (option ptr)) : Prop :=
  Forall2 (fun id o => if bool_decide (id = id0) then o = None else
    exists r l, o = Some r /\ cloudlogs s !! r = Some l /\ CloudLog.id l = id) ids links.

Lemma linked_of s ids :
  table_ok s -> (forall id, id ∈ ids -> id = id0 \/ is_Some (FS.locations (fs s) !! id)) ->
  linked s ids (link_of s <$> ids).
Proof.
  intros T Hk. unfold linked. apply Forall2_fmap_r, Forall_Forall2_diag, Forall_forall. intros id Hid.
  unfold compose, link_of. destruct (bool_decide (id = id0)) eqn:E; [done|]. apply bool_decide_eq_false in E.
  destruct (Hk id Hid) as [?|[r Hr]]; [done|].
  rewrite Hr. apply T in Hr as (l & ? & _ & ?). eauto.
Qed.

(** Links that are still there lead to the same items. *)
Lemma linked_replays xs xl x s s' ids links :
  heap_ok xs xl s -> replays x s s' -> (forall r, Some r ∈ links -> is_Some (cloudlogs s' !! r)) ->
  linked s ids links -> linked s' ids links.
Proof.
  intros Hok R Ha Hl. unfold linked in *. revert Ha. induction Hl as [|id o ids links Ho Hl IH]; [constructor|].
  intros Ha. constructor; [|apply IH; intros r Hr; apply Ha; by right].
  case_bool_decide; [done|]. destruct Ho as (r & l & -> & Hr & Ei). destruct (Ha r ltac:(by left)) as [l' Hr'].
  exists r, l'. split_and!; [done|done|]. destruct (decide (r = x)) as [->|Hne].
  - destruct (rp_item _ _ _ R l' Hr') as [Hf|(l0 & ? & ?)]; [|congruence].
    destruct (ho_fresh _ _ _ Hok x Hf) as (_ & ? & _). congruence.
  - destruct (rp_other _ _ _ R r l' Hr' Hne) as (l0 & ? & ? & _). congruence.
Qed.

(** The items a clean inode refers to. *)
Lemma inode_block_owned s q j links r :
  inodes s !! q = Some j -> Inode.blocks j = Some (ref_block <$> links) -> Some r ∈ links -> 1 <= log_owners s r.
Proof.
  intros Hq Hb Hr. pose proof (msum_elem (inode_logs r) (inodes s) q j (inode_logs_nonneg r) Hq) as Hm.
  assert (1 <= inode_logs r j).
  { unfold inode_logs, blocks_of. rewrite Hb. simpl. rewrite lsum_fmap. simpl.
    pose proof (points_nonneg r (Inode.committed_item j)).
    pose proof (lsum_elem (points r) links (Some r) (points_nonneg r) Hr) as Hl. rewrite points_self in Hl.
    change (lsum (fun o => points r o) links) with (lsum (points r) links). lia. }
  pose proof (msum_nonneg _ (cloudlogs s) (log_logs_nonneg r)).
  pose proof (msum_nonneg _ (records s) (fun x => ptrs_nonneg r (SerializedRecord.items x))).
  pose proof (lsum_nonneg _ (FS.inode_map (fs s)) (range_logs_nonneg r)).
  pose proof (ptrs_nonneg r (FS.unref_queue (fs s))).
  pose proof (ptrs_nonneg r (Log.queue (log s))).
  pose proof (ptrs_nonneg r (Log.committed (log s))).
  pose proof (ptrs_nonneg r (CloudLogState.writeback_list (log_state s))).
  unfold log_owners, queue_logs, record_logs in *. lia.
Qed.

Lemma links_alive xs xl s q i links j :
  heap_ok xs xl s -> xnn xl -> inodes s !! q = Some j -> same_contents (relink i links) j ->
  length links = (if Inode.type i =? BLUESKY_REGULAR then length (blocks_of i) else 0%nat) ->
  forall r, Some r ∈ links -> is_Some (cloudlogs s !! r).
Proof.
  intros Hok Hx Hq S Hn r Hr. destruct (Z.eqb_spec (Inode.type i) BLUESKY_REGULAR) as [E|E].
  - destruct (sc_file _ _ S) as [_ Hb]; [by rewrite relink_type|].
    unfold relink in Hb. rewrite (proj2 (Z.eqb_eq _ _) E) in Hb. simpl in Hb.
    pose proof (inode_block_owned s q j links r Hq Hb Hr). specialize (Hx r).
    destruct (ho_logs _ _ _ Hok r) as (l & Hl & _); [lia|eauto].
  - apply length_zero_iff_nil in Hn as ->. by apply not_elem_of_nil in Hr.
Qed.

Lemma replay_load_ok xl s seq pre e post off ids v :
  heap_ok nox xl s -> xnn xl -> table_ok s -> Entry.wf off e -> stores e ids v ->
  unread s (LogHeader.id (Entry.header e)) ->
  (forall id, id ∈ ids -> id = id0 \/ is_Some (FS.locations (fs s) !! id)) ->
  wp (replay_load seq (pre ++ Entry.record e ++ post) (zlen pre) (Entry.header e)) s (fun p s' =>
    heap_ok nox (xadd xl (Some p)) s' /\ table_ok s' /\ replays p s s' /\ inodes s' = inodes s /\
    fs_rest s' = fs_rest s /\
    exists l q links, cloudlogs s' !! p = Some l /\ CloudLog.id l = LogHeader.id (Entry.header e) /\
      CloudLog.links l = links /\ CloudLog.data l = Some q /\ linked s' ids links /\
      strs s' !! q = Some (RCStr.mk 1 None (RCStr.Owned (Entry.data1 e)) (zlen (Entry.data1 e)))).
Proof.
  intros Hok Hx T We St U Hk. destruct (record_slices pre e post off We) as [Hd1 Hd2].
  unfold replay_load. cbv zeta. wp_step. eapply wp_mono; [apply (get_item_ok xl s); try done; apply St|].
  intros o s1 (p & l & -> & Hok1 & T1 & R1 & Kn & I1 & F1 & Hl & Ei & Ed & Ek).
  set (xl1 := xadd xl (Some p)) in *. assert (Hx1 : xnn xl1) by (unfold xl1; auto with bluesky).
  assert (Hh : 0 < xl1 p) by (unfold xl1, xadd; rewrite points_self; specialize (Hx p); lia).
  assert (Hr : 0 < CloudLog.refcount l) by (destruct (held_item _ _ _ _ Hok1 Hx1 Hh) as (l0 & ? & ? & _); congruence || (simplify_eq; lia)).
  wp_step. wp_step; [done|]. wp_step. eapply wp_upd; [done|]. set (l2 := setf CloudLog.inum _ l).
  change (setf cloudlogs _ s1) with (set_log p l2 s1).
  destruct (set_fields_step nox xl1 s1 p l l2) as (Hok2 & T2 & R2); try done.
  wp_step. wp_step; [exact Hd2|]. wp_step. rewrite (st_links _ _ _ St).
  assert (Hsz : LogHeader.size2 (Entry.header e) = zlen (mjoin ids)).
  { destruct We as [W _ _]. by rewrite (ew_size2 _ _ _ _ W), (st_links _ _ _ St). }
  rewrite Hsz. eapply wp_mono; [apply (reload_item_ok xl1 _ p l2 ids Hok2 Hx1 T2); try done; [apply lookup_insert_eq|apply St]|].
  intros ? s3 (Hok3 & T3 & R3 & I3 & F3 & l3 & Hl3 & Ed3 & Ek3). set (links := link_of _ <$> ids) in Ek3.
  assert (Hr3 : 0 < CloudLog.refcount l3) by (destruct (held_item _ _ _ _ Hok3 Hx1 Hh) as (l0 & ? & ? & _); simplify_eq; lia).
  wp_step. eapply wp_upd; [done|]. set (l4 := setf CloudLog.log_size _ _). change (setf cloudlogs _ s3) with (set_log p l4 s3).
  destruct (set_fields_step nox xl1 s3 p l3 l4) as (Hok4 & T4 & R4); try done.
  wp_step. eapply wp_load; [apply lookup_insert_eq|]. assert (CloudLog.data l4 = None) as -> by done.
  wp_step. simpl (bluesky_string_unref None). wp_step. wp_step. wp_step; [exact Hd1|]. wp_step.
  eapply wp_mono; [by apply (bluesky_string_new_ok nox xl1)|]. intros q s5 (Eq & E5 & Hok5). wp_step.
  assert (Hl5 : cloudlogs s5 !! p = Some l4) by (rewrite E5; apply lookup_insert_eq).
  eapply wp_upd; [done|]. set (l6 := setf CloudLog.data _ l4). change (setf cloudlogs _ s5) with (set_log p l6 s5). wp_step.
  assert (Ha : dead l4 = false) by exact (ho_alive _ _ _ Hok5 _ _ Hl5 Hr3).
  assert (Hok6 : heap_ok nox xl1 (set_log p l6 s5)).
  { eapply (heap_ok_set_log _ _ nox xl1 s5 p l4 l6 Hok5); [done|done|by intros _| | |].
    - intros r. unfold log_strs, xadd. change (dead l6) with (dead l4). rewrite Ha. simpl. rewrite Ed3, points_None. lia.
    - intros r _. unfold log_logs. change (dead l6) with (dead l4). simpl. lia.
    - unfold log_logs. change (dead l6) with (dead l4). pose proof (owners_refcount _ _ _ _ _ Hok5 Hl5 Hr3). simpl in *. lia. }
  assert (R26 : replays p (set_log p l2 s1) (set_log p l6 s5)).
  { transitivity s3; [done|]. transitivity (set_log p l4 s3); [done|].
    transitivity s5; [apply replays_same; rewrite E5; [done|simpl; lia|done]|]. by apply (replays_set_log s5 p l4). }
  assert (Hl6 : cloudlogs (set_log p l6 s5) !! p = Some l6) by (simpl; apply lookup_insert_eq).
  split_and!; [done| | |simpl; rewrite E5; simpl; by rewrite I3|change (fs_rest s5 = fs_rest s); rewrite E5; by rewrite <- F1|].
  - apply (table_ok_set_log s5 p l4); [done|done|done|]. rewrite E5. exact T4.
  - transitivity s1; [done|]. by transitivity (set_log p l2 s1).
  - exists l6, q, links. split_and!; [done| |done|done| |].
    + destruct (rp_item _ _ _ R26 l6 Hl6) as [Hf|(l0 & Hl0 & E0)].
      * destruct (ho_fresh _ _ _ Hok2 p Hf) as (_ & Hn & _). simpl in Hn. by rewrite lookup_insert_eq in Hn.
      * simpl in Hl0. rewrite lookup_insert_eq in Hl0. injection Hl0 as <-. rewrite E0. exact Ei.
    + eapply (linked_replays _ _ p (set_log p l2 s1)); [exact Hok2|done| |].
      * intros r Hr6. specialize (Hx1 r).
        assert (1 <= log_owners (set_log p l6 s5) r).
        { apply (log_link_owned _ p l6 r Hl6 Ha). change (CloudLog.links l6) with (CloudLog.links l3). by rewrite Ek3. }
        destruct (ho_logs _ _ _ Hok6 r) as (lr & Hlr & _); [lia|]. by exists lr.
      * apply linked_of; [done|]. intros id Hid. destruct (Hk id Hid) as [|[r Hr']]; [by left|]. right.
        exists r. by apply Kn.
    + rewrite E5, Eq. simpl. by rewrite lookup_insert_eq.
Qed.

(** What a record does to the inodes: the inode [v] takes its place. *)
Definition recovers (v : option Inode.t) (ids : list BlueSkyCloudID) (s s' : State) : Prop :=
  match v with
  | None => inodes s' = inodes s /\ fs_rest s' = fs_rest s
  | Some i =>
    FS.next_inum (fs s') = Z.max (FS.next_inum (fs s)) (u64 (Inode.inum i + 1)) /\
    exists q j links, FS.inodes (fs s') = <[Inode.inum i := q]> (FS.inodes (fs s)) /\ inodes s' !! q = Some j /\
      linked s' ids links /\ same_contents (relink i links) j /\
      (forall r, r <> q -> inodes s' !! r = inodes s !! r) /\
      (FS.inodes (fs s) !! Inode.inum i = Some q \/ inodes s !! q = None)
  end.

(** The data of the item goes again. *)
Lemma forget_data_ok xl s p l :
  heap_ok nox xl s -> table_ok s -> cloudlogs s !! p = Some l -> 0 < CloudLog.refcount l ->
  is_Some (CloudLog.data l) ->
  wp (bluesky_string_unref (CloudLog.data l);;
      upd cloudlogs (Some p) (fun l => l <| CloudLog.data := None |>)) s (fun _ s' =>
    heap_ok nox xl s' /\ table_ok s' /\ replays p s s' /\ inodes s' = inodes s /\ fs s' = fs s /\
    exists l', cloudlogs s' !! p = Some l' /\ CloudLog.id l' = CloudLog.id l).
Proof.
  intros Hok T Hl Hr [q Hq]. eapply wp_mono; [by apply (drop_data_ok nox xl s p l q)|].
  intros ? s' (Hok' & s1 & Hs & El & Ef & ->). assert (Hl1 : cloudlogs s1 !! p = Some l) by (by rewrite El).
  split_and!; [done| | |apply Hs|done|].
  - apply (table_ok_set_log s1 p l); [done|done|done|]. revert T. apply table_ok_same; [done|by rewrite Ef].
  - transitivity s1; [by apply quiet_replays, quiet_survive|]. by apply (replays_set_log s1 p l).
  - eexists. split; [simpl; apply lookup_insert_eq|done].
Qed.

Lemma replay_content_ok xl s p e ids v l q :
  heap_ok nox xl s -> xnn xl -> table_ok s -> 0 < xl p -> inodes_clean s -> stores e ids v ->
  cloudlogs s !! p = Some l -> CloudLog.data l = Some q -> linked s ids (CloudLog.links l) ->
  strs s !! q = Some (RCStr.mk 1 None (RCStr.Owned (Entry.data1 e)) (zlen (Entry.data1 e))) ->
  wp (when (LogHeader.type (Entry.header e) - 48 =? LOGTYPE_INODE)
        (replay_inode p (LogHeader.inum (Entry.header e)))) s (fun _ s' =>
    heap_ok nox xl s' /\ table_ok s' /\ quiet s s' /\ forall x t, heap_ok nox xl t -> replays x s' t ->
      inodes t = inodes s' -> fs t = fs s' -> recovers v ids s t).
Proof.
  intros Hok Hx T Hh C St Hl Hd HL Hs. pose proof (st_inode _ _ _ St) as Hv. unfold when. destruct v as [i|].
  - destruct Hv as (Et & En & E1 & W & _ & Hn). rewrite Et, En, Z.add_simpl_r, Z.eqb_refl.
    assert (Hlen : length (CloudLog.links l) = (if Inode.type i =? BLUESKY_REGULAR then length (blocks_of i) else 0%nat))
      by (rewrite <- Hn; symmetry; by eapply Forall2_length).
    destruct (held_item _ _ _ _ Hok Hx Hh) as (l0 & Hl0 & Hr & _). assert (l0 = l) as -> by congruence.
    eapply wp_mono; [apply (replay_inode_ok xl s p i (CloudLog.links l)); try done; [|by apply relink_wf]|].
    { exists l, q. rewrite relink_links, relink_data, <- E1 by done. by split_and!. }
    intros ? s' (Hok' & T' & Q & Nx & j & jj & Ft & Hj & S & Fr & Kn). split_and!; [done|done|done|].
    intros x t Hokt R It Ft'. split; [by rewrite Ft'|]. exists j, jj, (CloudLog.links l). rewrite Ft', It.
    split_and!; [done|done| |done|done|done].
    eapply (linked_replays _ _ x s t); [done|by transitivity s'; [apply quiet_replays|]| |done].
    eapply (links_alive _ _ t j i); [done|done|by rewrite It|done|done].
  - rewrite (proj2 (Z.eqb_neq _ _)) by lia. wp_step. split_and!; [done|done|reflexivity|].
    intros x t _ _ It Ft. split; [done|]. unfold fs_rest. by rewrite Ft.
Qed.

Lemma replay_item_ok xl s seq pre e post off ids v :
  heap_ok nox xl s -> xnn xl -> table_ok s -> Entry.wf off e -> stores e ids v ->
  unread s (LogHeader.id (Entry.header e)) -> inodes_clean s ->
  (forall id, id ∈ ids -> id = id0 \/ is_Some (FS.locations (fs s) !! id)) ->
  wp (replay_item seq (pre ++ Entry.record e ++ post) (zlen pre) (Entry.header e)) s (fun p s' =>
    heap_ok nox (xadd xl (Some p)) s' /\ table_ok s' /\ replays p s s' /\ recovers v ids s s' /\
    exists l, cloudlogs s' !! p = Some l /\ CloudLog.id l = LogHeader.id (Entry.header e)).
Proof.
  intros Hok Hx T We St U C Hk. unfold replay_item. wp_step.
  eapply wp_mono; [by apply (replay_load_ok xl s seq pre e post off ids v)|].
  intros p s1 (Hok1 & T1 & R1 & I1 & F1 & l & q & links & Hl & Ei & <- & Ed & HL & Hs).
  set (xl1 := xadd xl (Some p)) in *. assert (Hx1 : xnn xl1) by (unfold xl1; auto with bluesky).
  assert (Hh : 0 < xl1 p) by (unfold xl1, xadd; rewrite points_self; specialize (Hx p); lia).
  assert (C1 : inodes_clean s1).
  { unfold fs_rest in F1. injection F1 as F1 _. unfold inodes_clean. by rewrite F1, I1. }
  wp_step. eapply wp_mono; [by apply (replay_content_ok xl1 s1 p e ids v l q)|].
  intros ? s2 (Hok2 & T2 & Q2 & Rec). destruct (held_item _ _ _ _ Hok2 Hx1 Hh) as (l2 & Hl2 & Hr2 & _).
  destruct (qt_logs _ _ Q2 p l2 Hl2) as (l0 & Hl0 & Ei2 & _ & Ed2). assert (l0 = l) as -> by congruence.
  wp_step. eapply wp_load; [done|]. 
  assert (Hf := forget_data_ok xl1 s2 p l2 Hok2 T2 Hl2 Hr2 ltac:(rewrite Ed2; eauto)).
  wp_along Hf. wp_step. eapply wp_mono; [exact Hf|].
  intros ? s3 (Hok3 & T3 & R3 & I3 & F3 & l3 & Hl3 & Ei3). wp_step.
  assert (R23 : replays p s1 s3) by (transitivity s2; [by apply quiet_replays|done]).
  split_and!; [done|done|by transitivity s1| |exists l3; split; [done|congruence]].
  specialize (Rec p s3 Hok3 R3 I3 F3). unfold recovers in *. unfold fs_rest in F1. injection F1 as F1 N1.
  destruct v; [by rewrite I1, F1, N1 in Rec|]. unfold fs_rest in *. by rewrite I1, F1, N1 in Rec.
Qed.

(** ** The whole journal *)

(** A record with what it stands for. *)
Record logged := Logged {
  lg_entry : Entry.t;
  lg_ids : list BlueSkyCloudID;
  lg_inode : option Inode.t;
}.
Definition lg_id (e : logged) : BlueSkyCloudID := LogHeader.id (Entry.header (lg_entry e)).
Definition lg_ok (e : logged) : Prop := stores (lg_entry e) (lg_ids e) (lg_inode e).

(** The last version of every inode, with the identifiers of its blocks. *)
Definition latest (es : list logged) : gmap Z (Inode.t * list BlueSkyCloudID) :=
  foldl (fun m e => match lg_inode e with Some i => <[Inode.inum i := (i, lg_ids e)]> m | None => m end) ∅ es.

(** The items an inode refers to come before it. *)
Definition closed (es : list logged) : Prop := forall k e id,
  es !! k = Some e -> id ∈ lg_ids e -> id = id0 \/ exists k' e', (k' < k)%nat /\ es !! k' = Some e' /\ lg_id e' = id.

(** [j] is the version [v] of an inode in this state. *)
Definition is_version (s : State) (v : Inode.t * list BlueSkyCloudID) (j : Inode.t) : Prop :=
  exists links, linked s v.2 links /\ same_contents (relink v.1 links) j /\
    length links = (if Inode.type v.1 =? BLUESKY_REGULAR then length (blocks_of v.1) else 0%nat).

Record recovering (es : list logged) (objects : list ptr) (s : State) : Prop := {
  rc_heap : heap_ok nox (xadds nox (Some <$> objects)) s;
  rc_table : table_ok s;
  rc_clean : inodes_clean s;
  rc_items : forall e, e ∈ es -> exists p l, p ∈ objects /\ cloudlogs s !! p = Some l /\ CloudLog.id l = lg_id e;
  rc_inodes : forall n v, latest es !! n = Some v ->
    n < FS.next_inum (fs s) /\ exists q j, FS.inodes (fs s) !! n = Some q /\ inodes s !! q = Some j /\ is_version s v j;
  rc_only : forall n, latest es !! n = None -> FS.inodes (fs s) !! n = None;
}.

Lemma latest_snoc es e :
  latest (es ++ [e]) = match lg_inode e with Some i => <[Inode.inum i := (i, lg_ids e)]> (latest es) | None => latest es end.
Proof. unfold latest. by rewrite foldl_app. Qed.

Lemma unread_replays p s s' l' id :
  replays p s s' -> cloudlogs s' !! p = Some l' -> CloudLog.id l' <> id -> unread s id -> unread s' id.
Proof.
  intros R Hp Hne U r l Hr Ei. destruct (decide (r = p)) as [->|Hn]; [congruence|].
  destruct (rp_other _ _ _ R r l Hr Hn) as (l0 & H0' & E0 & -> & ->). apply (U r l0); congruence.
Qed.

Lemma version_replays xl xl' p s s' v q j :
  heap_ok nox xl s -> heap_ok nox xl' s' -> xnn xl' -> replays p s s' -> inodes s' !! q = Some j ->
  is_version s v j -> is_version s' v j.
Proof.
  intros Hok Hok' Hx R Hq (links & HL & S & Hn). exists links. split_and!; [|done|done].
  eapply linked_replays; [exact Hok|done| |done]. by eapply links_alive.
Qed.

Lemma objects_held objects p : p ∈ objects -> 0 < xadds nox (Some <$> objects) p.
Proof.
  intros Hp. unfold xadds, nox. rewrite lsum_fmap.
  pose proof (lsum_elem (fun q => points p (Some q)) objects p (fun _ => points_nonneg _ _) Hp) as Hl.
  cbv beta in Hl. rewrite points_self in Hl. lia.
Qed.

(** Items already read are in the table. *)
Lemma recovering_known es objects s e :
  recovering es objects s -> e ∈ es -> is_Some (FS.locations (fs s) !! lg_id e).
Proof.
  intros R He. destruct (rc_items _ _ _ R e He) as (p & l & Hp & Hl & Ei). exists p. apply (rc_table _ _ _ R).
  destruct (held_item _ _ _ p (rc_heap _ _ _ R)) as (l0 & Hl0 & Hr & _); [auto with bluesky|by apply objects_held|].
  exists l. simplify_eq. done.
Qed.

(** Inodes under other numbers are other inodes. *)
Lemma other_inode s n n' q q' :
  inodes_clean s -> FS.inodes (fs s) !! n' = Some q' -> n' <> n ->
  FS.inodes (fs s) !! n = Some q \/ inodes s !! q = None -> q' <> q.
Proof.
  intros C Hn' Hne Hq ->. destruct (C n' q Hn') as (j' & Hj' & Ej' & _).
  destruct Hq as [Hq|Hq]; [|congruence]. destruct (C n q Hq) as (j & Hj & Ej & _). congruence.
Qed.

(** An item that is held keeps its identifier. *)
Lemma held_id xl xl' p s s' r l :
  heap_ok nox xl s -> heap_ok nox xl' s' -> xnn xl' -> replays p s s' -> cloudlogs s !! r = Some l -> 0 < xl' r ->
  exists l', cloudlogs s' !! r = Some l' /\ CloudLog.id l' = CloudLog.id l.
Proof.
  intros Hok Hok' Hx' R Hl Hh. destruct (held_item _ _ _ r Hok' Hx' Hh) as (l' & Hl' & _). exists l'. split; [done|].
  destruct (decide (r = p)) as [->|Hne].
  - destruct (rp_item _ _ _ R l' Hl') as [Hf|(l1 & ? & ?)]; [|congruence].
    destruct (ho_fresh _ _ _ Hok p Hf) as (_ & ? & _). congruence.
  - destruct (rp_other _ _ _ R r l' Hl' Hne) as (l1 & ? & ? & _). congruence.
Qed.

Lemma recovering_step es objects s s' p e :
  recovering es objects s -> lg_ok e -> heap_ok nox (xadds nox (Some <$> p :: objects)) s' -> table_ok s' ->
  replays p s s' -> recovers (lg_inode e) (lg_ids e) s s' ->
  (exists l, cloudlogs s' !! p = Some l /\ CloudLog.id l = lg_id e) -> recovering (es ++ [e]) (p :: objects) s'.
Proof.
  intros R St Hok' T' Rp Rec (l & Hl & Ei). pose proof (rc_heap _ _ _ R) as Hok. pose proof (rc_clean _ _ _ R) as C.
  set (xl' := xadds nox (Some <$> p :: objects)) in *. assert (Hx' : xnn xl') by (unfold xl'; auto with bluesky).
  assert (Hitems : forall e', e' ∈ es ++ [e] -> exists p' l', p' ∈ p :: objects /\ cloudlogs s' !! p' = Some l' /\ CloudLog.id l' = lg_id e').
  { intros e' He. apply elem_of_app in He as [He|He].
    - destruct (rc_items _ _ _ R e' He) as (p' & l0 & Hp' & Hl0 & E0). exists p'.
      destruct (held_id _ xl' p s s' p' l0 Hok Hok' Hx' Rp Hl0) as (l' & ? & ?); [apply objects_held; by right|].
      exists l'. split_and!; [by right|done|congruence].
    - apply list_elem_of_singleton in He as ->. exists p, l. split_and!; [by left|done|done]. }
  pose proof (st_inode _ _ _ St) as Hv. unfold recovers in Rec. destruct (lg_inode e) as [i|] eqn:Ee.
  2: { destruct Rec as [I F]. unfold fs_rest in F. injection F as F N.
       split; try done; rewrite ?latest_snoc, ?Ee, ?F, ?N; [unfold inodes_clean; by rewrite F, I| |apply R].
       intros n v Hn. destruct (rc_inodes _ _ _ R n v Hn) as (? & q & j & ? & ? & ?). split; [done|]. exists q, j.
       rewrite I. split_and!; [done|done|]. eapply version_replays; [exact Hok|exact Hok'|done|done|by rewrite I|done]. }
  destruct Hv as (_ & _ & _ & W & Hmax & Hlen). destruct Rec as (Nx & q & j & links & F & Hj & HL & S & Fr & Kn).
  rewrite u64_id in Nx by (pose proof (iw_inum _ W); lia).
  assert (Hother : forall n' q', n' <> Inode.inum i -> FS.inodes (fs s) !! n' = Some q' ->
    inodes s' !! q' = inodes s !! q').
  { intros n' q' Hne Hq'. apply Fr. by apply (other_inode s (Inode.inum i) n' q q'). }
  split; try done; rewrite ?latest_snoc, ?Ee, ?F.
  - intros n q'. rewrite F. intros [[<- <-]|[Hne Hq']]%lookup_insert_Some.
    + exists j. split_and!; [done| |by eapply same_contents_clean]. by rewrite (sc_inum _ _ S), relink_inum.
    + rewrite (Hother n q') by done. by apply C.
  - intros n v. rewrite Nx. intros [[<- <-]|[Hne Hn]]%lookup_insert_Some.
    + split; [lia|]. exists q, j. split_and!; [apply lookup_insert_eq|done|]. exists links.
      split_and!; [done|done|]. simpl. rewrite <- Hlen. symmetry. by eapply Forall2_length.
    + destruct (rc_inodes _ _ _ R n v Hn) as (Hlt & q' & j' & Hq' & Hj' & V). split; [lia|]. exists q', j'.
      rewrite lookup_insert_ne by done. rewrite <- (Hother n q') in Hj' by done. split_and!; [done|done|].
      by eapply (version_replays _ _ p s s').
  - intros n [Hn Hne]%lookup_insert_None. rewrite lookup_insert_ne by done. by apply (rc_only _ _ _ R).
Qed.

(** The header of a record in a file. *)
Lemma record_header pre e post off :
  Entry.wf off e -> exists h, slice (pre ++ Entry.record e ++ post) (zlen pre) LogHeader.size = Some h /\
    LogHeader.decode h = Entry.header e.
Proof.
  intros [W _ _]. exists (LogHeader.encode (Entry.header e)). split.
  - unfold Entry.record, journal_record. rewrite <- !(assoc_L (++)), slice_skip by lia.
    apply slice_head_at; [lia|]. by rewrite length_log_header by apply (ew_header _ _ _ _ W).
  - rewrite <- (app_nil_r (LogHeader.encode _)). apply log_header_roundtrip, W.
Qed.

Lemma scan_journal2_ok todo seq fuel pre post old objects s :
  entries_wf (zlen pre) (lg_entry <$> todo) -> (length todo < fuel)%nat ->
  zlen (pre ++ journal_file (lg_entry <$> todo) ++ post) < 2 ^ 62 ->
  validate_journal_item (pre ++ journal_file (lg_entry <$> todo) ++ post)
    (zlen (pre ++ journal_file (lg_entry <$> todo))) = Some false ->
  recovering old objects s -> Forall lg_ok todo -> closed (old ++ todo) -> NoDup (lg_id <$> todo) ->
  (forall e, e ∈ todo -> unread s (lg_id e)) ->
  wp (bluesky_replay_scan_journal2 fuel objects seq (pre ++ journal_file (lg_entry <$> todo) ++ post) (zlen pre)) s
    (fun objects' s' => recovering (old ++ todo) objects' s' /\ disk s' = disk s /\
       forall id, id ∉ lg_id <$> todo -> unread s id -> unread s' id).
Proof.
  revert fuel pre old objects s. induction todo as [|e todo IH]; intros fuel pre old objects s Hw Hf Hl Hv R Hok Hc Hnd Hu;
    (destruct fuel as [|fuel]; [simpl in Hf; lia|]); cbn [bluesky_replay_scan_journal2].
  { change (journal_file (lg_entry <$> [])) with ([] : bytes) in *. rewrite app_nil_r in Hv.
    wp_step. wp_step; [exact Hv|]. simpl. wp_step. rewrite app_nil_r. by split_and!. }
  rewrite !fmap_cons in *. destruct Hw as [We Hw]. rewrite journal_file_cons, <- (assoc_L (++)) in *.
  apply Forall_cons in Hok as [He Hok]. apply NoDup_cons in Hnd as [Hnin Hnd].
  set (rest := journal_file (lg_entry <$> todo) ++ post) in *. destruct (record_header pre (lg_entry e) rest _ We) as (h & Hh & Eh).
  wp_step. wp_step.
  { apply (validate_record _ _ _ _ (Entry.wf_entry _ _ We)); [exact (Entry.wf_offset _ _ We)|unfold Entry.record in Hl; lia]. }
  simpl negb. cbv iota. wp_step. wp_step; [exact Hh|]. rewrite Eh. wp_step.
  pose proof (rc_heap _ _ _ R) as Hheap. set (xl := xadds nox (Some <$> objects)) in *.
  eapply wp_mono; [apply (replay_item_ok xl s seq pre (lg_entry e) rest (zlen pre) (lg_ids e) (lg_inode e)); try done|].
  - unfold xl. auto with bluesky.
  - apply R.
  - apply (Hu e). by left.
  - apply R.
  - intros id Hid. destruct (Hc (length old) e id) as [|(k' & e' & Hk & He' & <-)]; [|done|by left|right].
    + by rewrite list_lookup_middle.
    + eapply recovering_known; [done|]. rewrite lookup_app_l in He' by done. by eapply list_elem_of_lookup_2.
  - intros p s1 (Hok1 & T1 & R1 & Rec & l & Hlp & Ei).
    assert (R' : recovering (old ++ [e]) (p :: objects) s1).
    { eapply recovering_step; try done; [|by exists l]. rewrite fmap_cons, xadds_cons. exact Hok1. }
    pose proof (length_journal_record _ _ _ _ (Entry.wf_entry _ _ We)) as Hlr.
    assert (Epre : zlen pre + LogHeader.size + record_size (Entry.header (lg_entry e)) + LogFooter.size
      = zlen (pre ++ Entry.record (lg_entry e))) by (unfold Entry.record; rewrite length_app; lia).
    rewrite Epre. unfold rest in *. rewrite !(assoc_L (++) pre) in *.
    assert (Hnew : forall id, id <> lg_id e -> unread s id -> unread s1 id).
    { intros id Hne U. eapply unread_replays; [exact R1|exact Hlp|by rewrite Ei|done]. }
    eapply wp_mono; [apply (IH fuel _ (old ++ [e]) (p :: objects) s1); try done|].
    + by rewrite length_app, Nat2Z.inj_add.
    + simpl in Hf. lia.
    + by rewrite <- (assoc_L (++)).
    + intros e' He'. apply Hnew; [|apply Hu; by right]. intros E. apply Hnin. rewrite <- E. by apply list_elem_of_fmap_2.
    + intros objects' s2 (R2 & D2 & U2). rewrite <- (assoc_L (++)) in R2. split_and!; [done|by rewrite D2, (rp_disk _ _ _ R1)|].
      intros id Hid U. apply not_elem_of_cons in Hid as [Hne Hid]. by apply U2, Hnew.
Qed.
End recovery.
