(* ===== verification/JournalRecovery.v ===== *)
(** * Recovering the file system from the files of the journal

    [bluesky_replay] finds the last commit point in the files of the journal
    directory and reads every record from there on. *)

From S2P Require Import Prelude Glib State Strings Ownership CloudLog Inodes Fetch File Serialize Roundtrip Journal Crypto CacheFiles JournalFetch LogThread Names InodeSync Store StoreProtocol ItemTable Replay NameOrder Cache CacheGC Recovery.
From Stdlib Require Import ZArith Lia Sorted.
From stdpp Require Import base numbers gmap option list sorting fin_maps.

Open Scope Z_scope.

(** ** The order of the files *)

Lemma directory_contents_spec names :
  directory_contents names ≡ₚ filter (fun n => is_journal n) names /\ StronglySorted str_le (directory_contents names).
Proof.
  unfold directory_contents. induction (filter _ names) as [|a l [IHp IHs]]; simpl; [by split; constructor|].
  split; [by rewrite insert_name_perm, IHp|by apply insert_name_sorted].
Qed.

(** The files are read in the order of their numbers, while the numbers have eight
    digits. *)
Lemma directory_contents_ordered names first n :
  filter (fun n => is_journal n) names ≡ₚ journal_name <$> seqZ first n -> 0 <= first -> first + n <= 10 ^ 8 ->
  directory_contents names = journal_name <$> seqZ first n.
Proof.
  intros Hp H0 Hn. destruct (directory_contents_spec names) as [Hp' Hs]. rewrite Hp in Hp'.
  apply (StronglySorted_unique str_le); [done| |done].
  assert (Hsq : StronglySorted Z.le (seqZ first n)).
  { clear. unfold seqZ. generalize 0%nat. induction (Z.to_nat n) as [|k IH]; intros m; simpl; constructor; [apply IH|].
    apply Forall_fmap, Forall_forall. intros x Hx%elem_of_seq. simpl. lia. }
  assert (Hb : Forall (fun z => 0 <= z < 10 ^ 8) (seqZ first n)).
  { apply Forall_forall. intros z Hz%elem_of_seqZ. lia. }
  clear -Hsq Hb. induction Hsq as [|z l Hs IH Hz]; [constructor|]. apply Forall_cons in Hb as [Hz0 Hb].
  rewrite fmap_cons. constructor; [by apply IH|]. apply Forall_fmap, Forall_forall. intros x Hx.
  rewrite Forall_forall in Hz, Hb. specialize (Hz x Hx). specialize (Hb x Hx). simpl. apply journal_name_le; lia.
Qed.

(** Larger numbers come first. *)
Example large_numbers_first :
  directory_contents [journal_name 99999999; journal_name 100000000] = [journal_name 100000000; journal_name 99999999].
Proof. vm_compute. reflexivity. Qed.

(** ** Reading the files *)

Section recovery.
Context `{GSequenceLib} `{Env}.

(** The journal file number [seq] holds the records [es], and then something that is
    not a record. *)
Definition file_holds (d : gmap bytes DiskFile.t) (seq : Z) (es : list Entry.t) : Prop :=
  exists f post, d !! journal_name seq = Some f /\ DiskFile.contents f = journal_file es ++ post /\
    zlen (journal_file es ++ post) < 2 ^ 62 /\ entries_wf 0 es /\
    validate_journal_item (journal_file es ++ post) (zlen (journal_file es)) = Some false.

(** The files of the journal from [seq] on; the first is read from behind [pre]. *)
Fixpoint files_hold (d : gmap bytes DiskFile.t) (seq : Z) (pre : list Entry.t) (files : list (list logged)) : Prop :=
  match files with
  | [] => d !! journal_name seq = None
  | es :: files => file_holds d seq (pre ++ (lg_entry <$> es)) /\ files_hold d (seq + 1) [] files
  end.

Lemma replay_files_ok files fuel seq pre old objects s :
  files_hold (disk s) seq pre files -> (length files <= fuel)%nat ->
  0 <= seq -> seq + zlen files < 2 ^ 31 -> zlen (journal_file pre) < 2 ^ 31 ->
  recovering old objects s -> Forall lg_ok (mjoin files) -> closed (old ++ mjoin files) ->
  NoDup (lg_id <$> mjoin files) -> (forall e, e ∈ mjoin files -> unread s (lg_id e)) ->
  wp (replay_files fuel objects seq (zlen (journal_file pre))) s (fun objects' s' =>
    recovering (old ++ mjoin files) objects' s' /\ disk s' = disk s).
Proof.
  revert fuel seq pre old objects s.
  induction files as [|es files IH]; intros fuel seq pre old objects s Hd Hf H0s Hs Hp R Hok Hc Hnd Hu.
  { destruct fuel; simpl in *; wp_step; wp_step; rewrite Hd; wp_step; by rewrite app_nil_r. }
  destruct fuel as [|fuel]; [simpl in Hf; lia|]. cbn [replay_files]. destruct Hd as [(f & post & Hd & Ec & Hl & Hw & Hv) Hds].
  wp_step. wp_step. rewrite Hd. cbv zeta. wp_step. rewrite Ec, (s32_id (zlen (journal_file pre))) by lia.
  change (mjoin (es :: files)) with (es ++ mjoin files) in *. rewrite fmap_app in Hnd.
  apply Forall_app in Hok as [Hok1 Hok2]. apply NoDup_app in Hnd as (Hnd1 & Hdis & Hnd2).
  apply entries_wf_app in Hw as [Hw1 Hw2]. rewrite journal_file_app, <- (assoc_L (++)) in *. rewrite Z.add_0_l in Hw2.
  eapply wp_mono; [eapply (scan_journal2_ok es (s32 seq) _ (journal_file pre) post old objects s); try done|].
  - pose proof (length_entries _ _ Hw2) as Hlen. rewrite length_fmap in Hlen. rewrite !length_app. lia.
  - intros k e id Hk Hid. destruct (Hc k e id) as [|(k' & e' & Hlt & He' & Ei)]; [|done|by left|right].
    + rewrite (assoc_L (++)). by apply lookup_app_l_Some.
    + exists k', e'. split_and!; [done| |done]. apply lookup_lt_Some in Hk.
      rewrite (assoc_L (++)), lookup_app_l in He' by lia. done.
  - intros e He. apply Hu. apply elem_of_app. by left.
  - intros objects1 s1 (R1 & D1 & U1). rewrite u32_id by (simpl in Hs; lia).
    change 0 with (zlen (journal_file [])).
    eapply wp_mono; [apply (IH fuel (seq + 1) [] (old ++ es) objects1 s1); try done|].
    + by rewrite D1.
    + simpl in Hf. lia.
    + lia.
    + simpl in Hs. lia.
    + by rewrite <- (assoc_L (++)).
    + intros e He. apply U1; [|apply Hu, elem_of_app; by right]. intros Hin. apply (Hdis _ Hin).
      by apply list_elem_of_fmap_2.
    + intros objects2 s2 (R2 & D2). rewrite <- (assoc_L (++)) in R2. split; [done|congruence].
Qed.
(** The last commit point of the journal, the last file first. *)
Fixpoint last_commit (files : list (list Entry.t)) : Z * Z :=
  match files with
  | [] => (0, 0)
  | es :: files => let point := commit_point (0, 0) es in
    if decide (point = (0, 0)) then last_commit files else point
  end.

Lemma find_commit_ok s names files :
  Forall2 (fun name es => exists seq, name = journal_name seq /\ file_holds (disk s) seq es) names files ->
  wp (replay_find_commit names (0, 0)) s (fun point s' => point = last_commit files /\ s' = s).
Proof.
  induction 1 as [|name es names files (seq & -> & f & post & Hd & Ec & Hl & Hw & Hv) Hf IH]; [done|].
  cbn [replay_find_commit last_commit].
  wp_step. wp_step. rewrite Hd. cbv zeta. wp_step. wp_step.
  { rewrite Ec. apply scan_file; [done| |done|done].
    pose proof (length_entries _ _ Hw). rewrite length_app. lia. }
  destruct (commit_point (0, 0) es) as [a b]. simpl. case_decide as E.
  - injection E as -> ->. simpl. exact IH.
  - destruct (Z.eqb_spec a 0) as [->|?]; simpl; [|done]. by destruct (Z.eqb_spec b 0) as [->|?].
Qed.

(** The records of a file. *)
Definition lg_entries (es : list logged) : list Entry.t := lg_entry <$> es.

(** The files of a journal by their numbers. *)
Lemma files_hold_app d first pre files1 es files2 :
  files_hold d first [] (files1 ++ (pre ++ es) :: files2) ->
  files_hold d (first + zlen files1) (lg_entry <$> pre) (es :: files2).
Proof.
  revert first. induction files1 as [|es1 files1 IH]; intros first.
  - rewrite Z.add_0_r. simpl. by rewrite fmap_app.
  - intros [_ Hd]. apply IH in Hd. simpl length.
    by rewrite Nat2Z.inj_succ, <- Z.add_1_l, Z.add_assoc.
Qed.

Lemma files_hold_all d first files :
  files_hold d first [] files ->
  Forall2 (fun name es => exists seq, name = journal_name seq /\ file_holds d seq es)
    (journal_name <$> seqZ first (zlen files)) (lg_entries <$> files).
Proof.
  revert first. induction files as [|es files IH]; intros first; [by constructor|]. intros [Hf Hd].
  rewrite seqZ_cons by (simpl; lia). simpl length. rewrite Nat2Z.inj_succ, Z.pred_succ.
  rewrite !fmap_cons. constructor; [by exists first|]. apply (IH (Z.succ first)), Hd.
Qed.

(** There are as many files on disk. *)
Lemma files_hold_size d first files :
  files_hold d first [] files -> 0 <= first -> first + zlen files < 2 ^ 31 -> (length files <= size d)%nat.
Proof.
  intros Hd H0' Hn. apply files_hold_all in Hd.
  assert (Hs : list_to_set (journal_name <$> seqZ first (zlen files)) ⊆ dom d).
  { intros x. rewrite elem_of_list_to_set. intros [k Hk]%list_elem_of_lookup_1.
    destruct (Forall2_lookup_l _ _ _ _ _ Hd Hk) as (es & _ & seq & -> & f & post & Hf & _). by apply elem_of_dom_2 in Hf. }
  apply subseteq_size in Hs. rewrite size_list_to_set, size_dom, length_fmap, length_seqZ in Hs; [lia|].
  apply NoDup_fmap_2_strong; [|apply NoDup_seqZ].
  intros x y Hx%elem_of_seqZ Hy%elem_of_seqZ. apply journal_name_inj; lia.
Qed.

(** ** The file system recovered *)

(** Every inode of the records is as it was last written, and there are no others. *)
Record recovered (es : list logged) (s : State) : Prop := {
  rd_heap : heap_ok nox nox s;
  rd_table : table_ok s;
  rd_inodes : forall n v, latest es !! n = Some v ->
    n < FS.next_inum (fs s) /\ exists q j, FS.inodes (fs s) !! n = Some q /\ inodes s !! q = Some j /\ is_version s v j;
  rd_only : forall n, latest es !! n = None -> FS.inodes (fs s) !! n = None;
}.

(** The references to the items read are dropped. *)
Lemma release_ok objects s :
  heap_ok nox (xadds nox (Some <$> objects)) s -> table_ok s ->
  wp (for_each objects (fun p => bluesky_cloudlog_unref (Some p))) s (fun _ s' =>
    heap_ok nox nox s' /\ survive s s' /\ table_ok s').
Proof.
  revert s. induction objects as [|p objects IH]; intros s Hok T; simpl.
  { wp_step. split_and!; [|reflexivity|done]. by rewrite xadds_nil in Hok. }
  rewrite fmap_cons, xadds_cons in Hok. wp_step.
  eapply wp_mono; [apply (unref_table nox _ s (Some p) Hok); auto with bluesky|].
  intros ? s1 (Hok1 & Hs1 & T1). eapply wp_mono; [by apply IH|]. intros ? s2 (Hok2 & Hs2 & T2).
  split_and!; [done|by transitivity s1|done].
Qed.

Lemma recovering_release es objects s s' :
  recovering es objects s -> heap_ok nox nox s' -> survive s s' -> table_ok s' -> recovered es s'.
Proof.
  intros R Hok' Hs T'. pose proof (survive_fs_rest _ _ Hs) as F. unfold fs_rest in F. injection F as F N.
  split; [done|done| |]; rewrite ?F, ?N; [|apply R]. intros n v Hn.
  destruct (rc_inodes _ _ _ R n v Hn) as (? & q & j & ? & Hj & V). split; [done|]. exists q, j.
  rewrite (sv_inodes _ _ Hs). split_and!; [done|done|].
  eapply (version_replays _ nox q s s'); [apply R|done|auto with bluesky|by apply quiet_replays, quiet_survive| |done].
  by rewrite (sv_inodes _ _ Hs).
Qed.

End recovery.

(** ** Instances *)
#[local] Existing Instance linear_gsequence.

(** A journal with a commit point, a block and the inode of a file with this block. *)
Definition logged_commit : logged := Logged (sample_entry 65 0 [0; 0; 0; 0; 61; 0; 0; 0]) [] None.
Definition logged_block : logged := Logged (sample_entry (LOGTYPE_DATA + 48) 61 [97; 98; 99]) [] None.
Definition logged_inode : logged :=
  let data := serialized_inode stored_inode ++ inode_rest stored_inode in
  let ids := [replicate 16 7] in
  Logged (Entry.mk (LogHeader.mk HEADER_MAGIC (LOGTYPE_INODE + 48) 117 (zlen data) 16 0 2 (replicate 16 8))
    data (mjoin ids) []) ids (Some stored_inode).
Definition logged_file : bytes := journal_file (lg_entry <$> [logged_commit; logged_block; logged_inode]).
Definition logged_state : State :=
  empty_state <| disk := {[journal_name 0 := DiskFile.mk logged_file (zlen logged_file + 80)]} |>.

Lemma logged_heap_ok : heap_ok nox nox logged_state.
Proof. destruct empty_heap_ok. by split. Qed.

Lemma logged_inode_wf : Entry.wf 117 (lg_entry logged_inode).
Proof.
  split; [split|done|done]; try done; try (by vm_compute); try (vm_compute; lia).
  all: repeat constructor; vm_compute; done.
Qed.

Lemma logged_ok : Forall lg_ok [logged_block; logged_inode].
Proof.
  repeat apply Forall_cons_2; [| |constructor]; (split; [done|done|by repeat constructor|]); [done|].
  split_and!; [done|done|done|apply stored_inode_wf|simpl; lia|by vm_compute].
Qed.

Lemma logged_files : files_hold (disk logged_state) 0 [] [[logged_commit; logged_block; logged_inode]].
Proof.
  split; [|by vm_compute]. eexists _, (replicate 80 0). split_and!; [apply lookup_singleton_eq| | | |].
  - by vm_compute.
  - vm_compute. reflexivity.
  - split; [|split; [|split; [|exact I]]].
    + apply sample_entry_wf; try (simpl; lia). repeat constructor; lia.
    + replace (0 + _) with 61 by (vm_compute; reflexivity).
      apply sample_entry_wf; try (simpl; unfold LOGTYPE_DATA; lia). repeat constructor; lia.
    + replace (_ + _ + _) with 117 by (vm_compute; reflexivity). apply logged_inode_wf.
  - vm_compute. reflexivity.
Qed.


(** ** Data after a crash *)

#[local] Instance sample_fetch : Fetch := journal_fetch_instance sample_keys.

Definition mounted (d : gmap bytes DiskFile.t) : State :=
  empty_state <| fs := bluesky_new_fs.1 |> <| log_state := bluesky_new_fs.2 |> <| disk := d |>.

(** A file of eight bytes is written and synchronized to the journal. *)
Definition write_and_sync : M State unit :=
  bluesky_log_new [];;
  p ← bluesky_new_inode 5 BLUESKY_REGULAR;
  bluesky_insert_inode (Some p);;
  bluesky_file_truncate (Some p) 8;;
  bluesky_file_write (Some p) 0 [104; 105; 33; 1; 2; 3; 4; 5];;
  bluesky_inode_start_sync sample_keys p.

(** The files of the journal up to what was written. *)
Definition after_crash : option (gmap bytes DiskFile.t) :=
  match write_and_sync (mounted ∅) with
  | Ok _ s => Some ((fun f => DiskFile.mk (DiskFile.prefix f) (zlen (DiskFile.prefix f))) <$> disk s)
  | Stop _ => None
  end.

(** The journal is replayed, and [k] is run on the inode. *)
Definition recover {A} (k : option ptr -> M State A) : option (A + fault) :=
  d ← after_crash;
  match (bluesky_log_new [journal_name 0];; bluesky_replay [journal_name 0];;
         p ← bluesky_get_inode 5; k p) (mounted d) with
  | Ok a _ => Some (inl a)
  | Stop e => Some (inr e)
  end.

(** Replay brings back the file with its size and its block. *)
Example replayed_inode :
  recover (fun p => i ← load inodes p; mret (Inode.size i, length (blocks_of i))) = Some (inl (8, 1%nat)).
Proof. vm_compute. reflexivity. Qed.

(** The data of the block is in the journal, but it cannot be read: the item has the
    offset of the data instead of that of its record. *)
Example replayed_data_unreadable : recover (fun p => bluesky_file_read p 0 8) = Some (inr OutOfBounds).
Proof. vm_compute. reflexivity. Qed.
