(* ===== verification/Cleaner.v ===== *)
(** * Merging the work of the cleaner (src/bluesky/cleaner.c)

    The cleaner runs in the cloud and writes new versions of items to a log of its
    own.  The proxy finds the last checkpoint of that log, walks the inode maps and
    inodes that are new in it, and takes over the new locations of blocks it still
    refers to. *)

From S2P Require Import Prelude Crc32c Glib Rangeset State Strings Ownership CloudLog Lru Inodes Fetch File Imap Serialize Journal Crypto CacheFiles LogThread InodeSync Store.
From Stdlib Require Import ZArith Lia.
From stdpp Require Import base numbers gmap option list.

Open Scope Z_scope.

Module CleanerLink.
Record t := mk {
  id : BlueSkyCloudID;
  location : CloudPointer.t;
}.
End CleanerLink.

Module CleanerItem.
Record t := mk {
  type : Z;
  id : BlueSkyCloudID;
  location : CloudPointer.t;
  inum : Z;
  links : list CleanerLink.t;
}.
End CleanerItem.
#[export] Instance CleanerItem_eta : Eta CleanerItem.t := fun x =>
  CleanerItem.mk (CleanerItem.type x) (CleanerItem.id x) (CleanerItem.location x)
    (CleanerItem.inum x) (CleanerItem.links x).

(** Only new items of the cleaner's log are merged; the sequence numbers are
    compared as unsigned integers. *)
Definition needs_merging (latest_cleaner_seq_seen : Z) (location : CloudPointer.t) : bool :=
  if CloudPointer.directory location =? BLUESKY_CLOUD_DIR_PRIMARY then false else
  if (CloudPointer.directory location =? BLUESKY_CLOUD_DIR_CLEANER)
     && (CloudPointer.sequence location <=? u32 latest_cleaner_seq_seen) then false else
  true.

Section cleaner.
Context `{GSequenceLib} `{Env} `{Gcrypt} `{DiskUsage} `{Fetch}.
Context (keys : CryptKeys.t).

Fixpoint cleaner_links (link_count : nat) (data2 data3 : bytes) : M State (list CleanerLink.t) :=
  match link_count with
  | O => mret []
  | S n =>
    id ← assume Assertion (slice data2 0 16);
    location ← assume Assertion (slice data3 0 16);
    rest ← cleaner_links n (drop 16 data2) (drop 16 data3);
    mret (CleanerLink.mk id (pointer_of_bytes location) :: rest)
  end.

Definition bluesky_cleaner_deserialize (data : bytes) : M State (option CleanerItem.t) :=
  check Assertion (4 <? zlen data);;
  if (zlen data <? CloudLogHeader.size) || negb (bool_decide (take 4 data = CLOUDLOG_MAGIC))
  then mret None else
  let header := CloudLogHeader.decode (take (Z.to_nat CloudLogHeader.size) data) in
  let len1 := CloudLogHeader.size1 header in
  let len2 := CloudLogHeader.size2 header in
  let len3 := CloudLogHeader.size3 header in
  check Assertion (CloudLogHeader.size + len1 + len2 + len3 <=? zlen data);;
  data2 ← assume OutOfBounds (slice data (CloudLogHeader.size + len1) len2);
  data3 ← assume OutOfBounds (slice data (CloudLogHeader.size + len1 + len2) len3);
  links ← cleaner_links (Z.to_nat (len2 / 16)) data2 data3;
  mret (Some (CleanerItem.mk (CloudLogHeader.type header - 48) (CloudLogHeader.id header)
                CloudPointer.zero (CloudLogHeader.inum header) links)).

(** The wait for the whole segment. *)
Definition wait_complete (cachefile : option ptr) : M State unit :=
  m ← load cachefiles cachefile;
  when (negb (CacheFile.complete m)) (cloudlog_fetch_wait keys cachefile).

(** The last item of a segment: its offset and its size. *)
Fixpoint last_item (fuel : nat) (items : list BlueSkyRangesetItem) (offset length : Z) : M State (Z * Z) :=
  match bluesky_rangeset_lookup_next items (u64 (offset + 1)) with
  | None => mret (offset, length)
  | Some item =>
    match fuel with
    | O => stop OutOfFuel
    | S fuel => last_item fuel items (Rangeset.start item) (Rangeset.rlength item)
    end
  end.

(** The bytes of part of a file; a failed mapping is a null pointer. *)
Definition raw_item (data : option ptr) : M State (option CleanerItem.t) :=
  str ← load strs data;
  s ← get;
  b ← assume OutOfBounds (str_bytes s str);
  item ← bluesky_cleaner_deserialize b;
  mret item.

(** [names] are the objects of the storage service in the order they are listed. *)
Definition bluesky_cleaner_find_checkpoint (names : list bytes) : M State (option CleanerItem.t) :=
  let prefix := [108; 111; 103; 45] ++ format_08d BLUESKY_CLOUD_DIR_CLEANER in
  match filestore_lookup_last names prefix None with
  | None => mret None
  | Some last_segment =>
    let seq := atoi (drop 13 last_segment) in
    s ← get;
    if seq <=? CloudLogState.latest_cleaner_seq_seen (log_state s) then mret None else
    cachefile ← bluesky_cachefile_lookup BLUESKY_CLOUD_DIR_CLEANER seq true;
    wait_complete cachefile;;
    m ← load cachefiles cachefile;
    r ← last_item (S (length (CacheFile.items m))) (CacheFile.items m) (-1) 0;
    if r.2 =? 0 then bluesky_cachefile_unref cachefile;; mret None else
    data ← bluesky_cachefile_map_raw cachefile r.1 r.2;
    bluesky_cachefile_unref cachefile;;
    item ← raw_item data;
    checkpoint ← assume NullPointer item;
    bluesky_string_unref data;;
    mret (Some (checkpoint <| CleanerItem.location :=
      CloudPointer.mk BLUESKY_CLOUD_DIR_CLEANER (u32 seq) 0 0 |>))
  end.

Definition cleaner_load_item (location : CloudPointer.t) : M State (option CleanerItem.t) :=
  cachefile ← bluesky_cachefile_lookup (CloudPointer.directory location) (CloudPointer.sequence location) true;
  wait_complete cachefile;;
  data ← bluesky_cachefile_map_raw cachefile (CloudPointer.offset location) (CloudPointer.size location);
  bluesky_cachefile_unref cachefile;;
  item ← raw_item data;
  bluesky_string_unref data;;
  mret item.

Definition cleaner_flush_inode (inode : ptr) : M State unit := bluesky_inode_start_sync keys inode.

(** A block whose item the cleaner has moved takes over the new location. *)
Fixpoint merge_blocks (blocks : list Block.t) (links : list CleanerLink.t) : M State unit :=
  match blocks, links with
  | b :: blocks, cb :: links =>
    when (bool_decide (Block.type b = Block.REF))
      (l ← load cloudlogs (Block.ref b);
       when (bool_decide (CloudLog.id l = CleanerLink.id cb))
         (upd cloudlogs (Block.ref b) (fun l => l <| CloudLog.location := CleanerLink.location cb |>)));;
    merge_blocks blocks links
  | _, _ => mret tt
  end.

Definition merge_inode (cleaner_inode : CleanerItem.t) : M State unit :=
  let inum := CleanerItem.inum cleaner_inode in
  o ← bluesky_inode_map_lookup inum 0;
  match o with
  | None => mret tt
  | Some entry =>
    load cloudlogs (InodeMap.item entry);;
    o ← bluesky_get_inode inum;
    proxy_inode ← assume NullPointer o;
    i ← load inodes (Some proxy_inode);
    when (Inode.type i =? BLUESKY_REGULAR)
      (blocks ← assume NullPointer (Inode.blocks i);
       merge_blocks blocks (CleanerItem.links cleaner_inode));;
    cleaner_flush_inode proxy_inode
  end.

Definition needs_merging_now (location : CloudPointer.t) : M State bool :=
  s ← get; mret (needs_merging (CloudLogState.latest_cleaner_seq_seen (log_state s)) location).

Definition merge_imap (imap : CleanerItem.t) : M State unit :=
  for_each (CleanerItem.links imap) (fun link =>
    b ← needs_merging_now (CleanerLink.location link);
    when b
      (inode ← cleaner_load_item (CleanerLink.location link);
       match inode with Some inode => merge_inode inode | None => mret tt end)).

Definition bluesky_cleaner_merge (names : list bytes) : M State unit :=
  o ← bluesky_cleaner_find_checkpoint names;
  match o with
  | None => mret tt
  | Some checkpoint =>
    if negb (CleanerItem.type checkpoint =? LOGTYPE_CHECKPOINT) then mret tt else
    for_each (CleanerItem.links checkpoint) (fun link =>
      b ← needs_merging_now (CleanerLink.location link);
      when b
        (imap ← cleaner_load_item (CleanerLink.location link);
         match imap with Some imap => merge_imap imap | None => mret tt end));;
    modify (fun s => s <| log_state ::= (fun st =>
      st <| CloudLogState.latest_cleaner_seq_seen :=
              s32 (CloudPointer.sequence (CleanerItem.location checkpoint)) |>) |>)
  end.
End cleaner.

(** Before anything was merged [latest_cleaner_seq_seen] is -1, which the comparison
    reads as 2^32 - 1: no item of the cleaner's log counts as new. *)
Example first_merge_skips_all (location : CloudPointer.t) :
  CloudPointer.directory location = BLUESKY_CLOUD_DIR_CLEANER ->
  0 <= CloudPointer.sequence location < 2 ^ 32 -> needs_merging (-1) location = false.
Proof.
  intros D R. unfold needs_merging. rewrite D. simpl.
  rewrite (proj2 (Z.leb_le _ _)); [done|]. change (u32 (-1)) with (2 ^ 32 - 1). lia.
Qed.
