(* ===== verification/CleanItems.v ===== *)
(** * Log items in the segment cleaner (src/cleaner/cleaner)

    The segment cleaner is a program of its own that works on the segments in the
    storage service.  Items of the log as it reads and writes them: the formats, and
    that they are those of the file system (CloudItem of Crypto).  A Python
    exception that is not caught is [None] here. *)

From S2P Require Import Prelude Glib State Serialize RoundtripItem Crypto.
From Stdlib Require Import ZArith Lia.
From stdpp Require Import base numbers gmap option list.

Open Scope Z_scope.

#[export] Instance CloudPointer_eq_dec : EqDecision CloudPointer.t.
Proof. solve_decision. Defined.

Definition HEADER_CRYPTBYTES : Z := 48.
(** ["AgI-"], data that is not encrypted, and ["AgI="], encrypted data. *)
Definition HEADER_MAGIC1 : bytes := [65; 103; 73; 45].
Definition HEADER_MAGIC2 : bytes := [65; 103; 73; 61].
(** The size of ['<4s48sb16sQIII']. *)
Definition HEADER_SIZE : Z := 4 + 48 + 1 + 16 + 8 + 4 + 4 + 4.

(** ['1'] to ['4']. *)
Module ITEM_TYPE.
Definition DATA : Z := 49.
Definition INODE : Z := 50.
Definition INODE_MAP : Z := 51.
Definition CHECKPOINT : Z := 52.
End ITEM_TYPE.

(** ** [struct] *)

(** An unsigned integer of [n] bytes; an error if it does not fit. *)
Definition pack_uint (n : nat) (x : Z) : option bytes :=
  if (0 <=? x) && (x <? 256 ^ Z.of_nat n) then Some (le_bytes n x) else None.

(** ['b'], a signed byte. *)
Definition pack_sbyte (x : Z) : option bytes :=
  if (-128 <=? x) && (x <=? 127) then Some [u8 x] else None.
Definition unpack_sbyte (b : bytes) : Z := let x := le_val b in if x <? 128 then x else x - 256.

(** A string of [n] bytes, cut or filled with zeros. *)
Definition pack_str (n : nat) (s : bytes) : bytes := take n (s ++ replicate n 0).

(** [data[i:j]]. *)
Definition substr (data : bytes) (i j : Z) : bytes := take (Z.to_nat (j - i)) (drop (Z.to_nat i) data).

(** [chr] of a number from a byte. *)
Definition chr (x : Z) : option Z := if (0 <=? x) && (x <? 256) then Some x else None.

(** ** Items *)

(** A location is a tuple (directory, sequence, offset, size). *)
Module LogItem.
Record t := mk {
  encrypted : bool;
  cryptkeys : bytes;
  type : Z;
  id : bytes;
  inum : Z;
  location : option CloudPointer.t;
  data : bytes;
  links : list (bytes * option CloudPointer.t);
}.
End LogItem.
#[export] Instance LogItem_eta : Eta LogItem.t := fun x =>
  LogItem.mk (LogItem.encrypted x) (LogItem.cryptkeys x) (LogItem.type x) (LogItem.id x)
    (LogItem.inum x) (LogItem.location x) (LogItem.data x) (LogItem.links x).

(** [LogItem()] with the fields its user sets. *)
Definition new_item (type : Z) (id data : bytes) (links : list (bytes * option CloudPointer.t)) : LogItem.t :=
  LogItem.mk false (replicate (Z.to_nat HEADER_CRYPTBYTES) 0) type id 0 None data links.

(** [struct.pack('<IIII', *l)]. *)
Definition pack_location (l : CloudPointer.t) : option bytes :=
  a ← pack_uint 4 (CloudPointer.directory l); b ← pack_uint 4 (CloudPointer.sequence l);
  c ← pack_uint 4 (CloudPointer.offset l); d ← pack_uint 4 (CloudPointer.size l);
  Some (a ++ b ++ c ++ d).

(** [link_ids] and [link_locs]: a link to nothing has no location. *)
Fixpoint pack_links (links : list (bytes * option CloudPointer.t)) : option (bytes * bytes) :=
  match links with
  | [] => Some ([], [])
  | (i, l) :: links =>
    loc ← (if bool_decide (i = id0) then Some [] else l ← l; pack_location l);
    r ← pack_links links;
    Some (i ++ r.1, loc ++ r.2)
  end.

Definition serialize (item : LogItem.t) : option bytes :=
  r ← pack_links (LogItem.links item);
  let magic := if LogItem.encrypted item then HEADER_MAGIC2 else HEADER_MAGIC1 in
  type ← pack_sbyte (LogItem.type item);
  inum ← pack_uint 8 (LogItem.inum item);
  size1 ← pack_uint 4 (zlen (LogItem.data item));
  size2 ← pack_uint 4 (zlen r.1);
  size3 ← pack_uint 4 (zlen r.2);
  let header := pack_str 4 magic ++ pack_str 48 (LogItem.cryptkeys item) ++ type ++
                pack_str 16 (LogItem.id item) ++ inum ++ size1 ++ size2 ++ size3 in
  Some (header ++ LogItem.data item ++ r.1 ++ r.2).

(** [struct.unpack_from(HEADER_FORMAT, ...)]. *)
Module Header.
Record t := mk {
  magic : bytes;
  cryptkeys : bytes;
  type : Z;
  id : bytes;
  inum : Z;
  size1 : Z;
  size2 : Z;
  size3 : Z;
}.
Definition unpack (b : bytes) : t :=
  mk (take 4 b) (take 48 (drop 4 b)) (unpack_sbyte (take 1 (drop 52 b))) (take 16 (drop 53 b))
     (le_val (take 8 (drop 69 b))) (le_val (take 4 (drop 77 b))) (le_val (take 4 (drop 81 b)))
     (le_val (take 4 (drop 85 b))).
(** [HEADER_SIZE + sum(header[5:8])]. *)
Definition item_size (h : t) : Z := HEADER_SIZE + (size1 h + size2 h + size3 h).
Definition magic_ok (h : t) : bool := bool_decide (magic h = HEADER_MAGIC1) || bool_decide (magic h = HEADER_MAGIC2).
End Header.

Fixpoint parse_links (n : nat) (link_ids link_locs : bytes) : option (list (bytes * option CloudPointer.t)) :=
  match n with
  | O => Some []
  | S n =>
    let id := take 16 link_ids in
    if bool_decide (id = id0) then
      r ← parse_links n (drop 16 link_ids) link_locs; Some ((id, None) :: r)
    else if zlen link_locs <? 16 then None else
      r ← parse_links n (drop 16 link_ids) (drop 16 link_locs);
      Some ((id, Some (pointer_of_bytes (take 16 link_locs))) :: r)
  end.

(** The inner option is what the function returns. *)
Definition parse_item (data : bytes) : option (option LogItem.t) :=
  if zlen data <? HEADER_SIZE then Some None else
  let header := Header.unpack data in
  if negb (Header.magic_ok header) then Some None else
  if negb (zlen data =? Header.item_size header) then Some None else
  type ← chr (Header.type header);
  let a := HEADER_SIZE + Header.size1 header in
  let b := a + Header.size2 header in
  let link_ids := substr data a b in
  let link_locs := substr data b (Header.item_size header) in
  links ← parse_links (Nat.div (length link_ids) 16) link_ids link_locs;
  Some (Some (LogItem.mk (bool_decide (Header.magic header = HEADER_MAGIC2)) (Header.cryptkeys header) type
    (Header.id header) (Header.inum header) None (substr data HEADER_SIZE a) links)).

(** The items of a segment, with their places if that of the segment is known.  An
    item takes at least the bytes of its header. *)
Fixpoint parse_log_loop (fuel : nat) (data : bytes) (location : option (Z * Z)) (offset : Z)
    : option (list LogItem.t) :=
  if zlen data - offset <? HEADER_SIZE then Some [] else
  match fuel with
  | O => None
  | S fuel =>
    let header := Header.unpack (drop (Z.to_nat offset) data) in
    let size := Header.item_size header in
    if negb (Header.magic_ok header) then Some [] else
    if zlen data <? size + offset then Some [] else
    r ← parse_item (substr data offset (offset + size));
    r ← (match location, r with
         | Some (d, n), Some item => Some (Some (item <| LogItem.location := Some (CloudPointer.mk d n offset size) |>))
         | Some _, None => None
         | None, _ => Some r
         end);
    rest ← parse_log_loop fuel data location (offset + size);
    Some (match r with Some item => item :: rest | None => rest end)
  end.
Definition parse_log (data : bytes) (location : option (Z * Z)) : option (list LogItem.t) :=
  parse_log_loop (length data) data location 0.

(** ** Items that can be written *)

Definition link_ok (l : bytes * option CloudPointer.t) : Prop :=
  length l.1 = 16%nat /\ are_bytes l.1 /\
  if bool_decide (l.1 = id0) then l.2 = None else exists p, l.2 = Some p /\ pointer_wf p.

Record writable (it : LogItem.t) : Prop := {
  io_keys : length (LogItem.cryptkeys it) = 48%nat /\ are_bytes (LogItem.cryptkeys it);
  io_type : 0 <= LogItem.type it < 128;
  io_id : length (LogItem.id it) = 16%nat /\ are_bytes (LogItem.id it);
  io_inum : is_u 8 (LogItem.inum it);
  io_data : are_bytes (LogItem.data it) /\ zlen (LogItem.data it) < 2 ^ 32;
  io_links : Forall link_ok (LogItem.links it) /\ 16 * zlen (LogItem.links it) < 2 ^ 32;
}.

(** The same item as the file system writes it. *)
Definition link_ids (links : list (bytes * option CloudPointer.t)) : bytes := concat (fst <$> links).
Definition link_loc (l : bytes * option CloudPointer.t) : bytes :=
  match l.2 with Some p => pointer_bytes p | None => [] end.
Definition link_locs (links : list (bytes * option CloudPointer.t)) : bytes := concat (link_loc <$> links).

Definition cloud_item (it : LogItem.t) : CloudItem.t :=
  let ids := link_ids (LogItem.links it) in
  let locs := link_locs (LogItem.links it) in
  CloudItem.mk
    (CloudLogHeader.mk (if LogItem.encrypted it then HEADER_MAGIC2 else HEADER_MAGIC1)
      (take 32 (LogItem.cryptkeys it)) (drop 32 (LogItem.cryptkeys it)) (LogItem.type it) (LogItem.id it)
      (LogItem.inum it) (zlen (LogItem.data it)) (zlen ids) (zlen locs))
    (LogItem.data it) ids locs.

Lemma pack_uint_ok n x : is_u n x -> pack_uint n x = Some (le_bytes n x).
Proof.
  unfold pack_uint, is_u. intros [??]. by rewrite (proj2 (Z.leb_le 0 x)), (proj2 (Z.ltb_lt x _)) by done.
Qed.

Lemma pack_location_ok p : pointer_wf p -> pack_location p = Some (pointer_bytes p).
Proof. intros (? & ? & ? & ?). unfold pack_location. by rewrite !pack_uint_ok by done. Qed.

Lemma pack_str_id n s : length s = n -> pack_str n s = s.
Proof. intros <-. apply take_app_length. Qed.

Lemma pack_links_ok links : Forall link_ok links -> pack_links links = Some (link_ids links, link_locs links).
Proof.
  induction 1 as [|[i l] links (_ & _ & Hl) _ IH]; [done|]. simpl in *. rewrite IH.
  destruct (bool_decide (i = id0)); [subst; done|]. destruct Hl as (p & -> & Hp). simpl.
  by rewrite pack_location_ok.
Qed.

Lemma length_links links :
  Forall link_ok links ->
  zlen (link_ids links) = 16 * zlen links /\ 0 <= zlen (link_locs links) <= 16 * zlen links.
Proof.
  unfold link_ids, link_locs. induction 1 as [|[i l] links (Hi & _ & Hl) _ [IH1 IH2]]; [done|].
  assert (length (link_loc (i, l)) <= 16)%nat.
  { unfold link_loc. simpl. destruct l; [rewrite length_pointer_bytes|]; simpl; lia. }
  simpl in Hi. rewrite !fmap_cons. cbn [concat fst length]. rewrite !length_app. lia.
Qed.

Lemma cloud_item_wf it : writable it -> CloudItem.wf (cloud_item it).
Proof.
  intros [[Hk _] Ht [Hid _] Hn [_ Hd] [Hl Hll]]. destruct (length_links _ Hl) as [E1 E2].
  split; [|done..]. split; simpl; try done.
  - by destruct (LogItem.encrypted it).
  - rewrite length_take. lia.
  - rewrite length_drop. lia.
  - unfold is_u. simpl. lia.
  - unfold is_u. lia.
  - unfold is_u. lia.
  - unfold is_u. lia.
Qed.

Lemma serialize_ok it : writable it -> serialize it = Some (CloudItem.encode (cloud_item it)).
Proof.
  intros Ho. pose proof (cloud_item_wf it Ho) as [[] _ _ _]. destruct Ho as [[Hk _] Ht [Hid _] Hn _ [Hl _]].
  unfold serialize. rewrite pack_links_ok by done. cbn [mbind option_bind fst snd].
  unfold pack_sbyte. rewrite (proj2 (Z.leb_le _ _)), (proj2 (Z.leb_le _ _)) by lia. cbn [andb].
  rewrite !pack_uint_ok by done. cbn [mbind option_bind fst snd]. f_equal.
  rewrite !pack_str_id by (done || by destruct (LogItem.encrypted it)).
  unfold CloudItem.encode, CloudLogHeader.encode. simpl.
  rewrite <- !(assoc_L (++)). do 1 f_equal. rewrite (assoc_L (++) (take 32 _)), take_drop. f_equal.
Qed.

(** ** Reading what was written *)

Lemma parse_links_ok links :
  Forall link_ok links -> parse_links (length links) (link_ids links) (link_locs links) = Some links.
Proof.
  unfold link_ids, link_locs. induction 1 as [|[i l] links (Hi & _ & Hl) _ IH]; [done|].
  rewrite !fmap_cons. cbn [concat fst length parse_links]. simpl in Hi, Hl.
  rewrite take_app_length', drop_app_length' by done.
  destruct (bool_decide (i = id0)); [by subst; simpl; rewrite IH|].
  destruct Hl as (p & -> & Hp). change (link_loc (i, Some p)) with (pointer_bytes p).
  rewrite length_app, length_pointer_bytes. destruct (Z.ltb_spec (Z.of_nat (16 + length (concat (link_loc <$> links)))) 16); [lia|].
  rewrite take_app_length', drop_app_length' by (by rewrite length_pointer_bytes).
  by rewrite IH, pointer_roundtrip.
Qed.

(** The header of an item, whatever follows it. *)
Definition header_of (it : LogItem.t) : Header.t :=
  Header.mk (if LogItem.encrypted it then HEADER_MAGIC2 else HEADER_MAGIC1) (LogItem.cryptkeys it)
    (LogItem.type it) (LogItem.id it) (LogItem.inum it) (zlen (LogItem.data it))
    (zlen (link_ids (LogItem.links it))) (zlen (link_locs (LogItem.links it))).

Lemma unpack_encode it rest :
  writable it -> Header.unpack (CloudItem.encode (cloud_item it) ++ rest) = header_of it.
Proof.
  intros Ho. pose proof (cloud_item_wf it Ho) as [[] _ _ _]. destruct Ho as [[Hk _] Ht [Hid _] Hn _ _].
  unfold Header.unpack, CloudItem.encode, CloudLogHeader.encode, header_of. cbn [CloudItem.header cloud_item
    CloudLogHeader.magic CloudLogHeader.crypt_auth CloudLogHeader.crypt_iv CloudLogHeader.type CloudLogHeader.id
    CloudLogHeader.inum CloudLogHeader.size1 CloudLogHeader.size2 CloudLogHeader.size3
    CloudItem.data1 CloudItem.data2 CloudItem.data3] in *.
  set (m := if LogItem.encrypted it then HEADER_MAGIC2 else HEADER_MAGIC1) in *. clearbody m.
  rewrite <- !(assoc_L (++)), (assoc_L (++) (take 32 _)), take_drop.
  set (ids := link_ids _) in *. set (locs := link_locs _) in *. clearbody ids locs.
  decode_fields. rewrite !le_val_u by done. f_equal.
  unfold unpack_sbyte. rewrite le_val_u by done. by rewrite (proj2 (Z.ltb_lt _ _)) by lia.
Qed.

Lemma header_item_size it : writable it -> Header.item_size (header_of it) = CloudItem.size (cloud_item it).
Proof.
  intros Ho. unfold Header.item_size, CloudItem.size, CloudItem.encode.
  rewrite length_app, !Nat2Z.inj_add, length_cloudlog_header by apply cloud_item_wf, Ho. simpl.
  rewrite !length_app. unfold HEADER_SIZE, CloudLogHeader.size. lia.
Qed.

Lemma magic_known it : Header.magic_ok (header_of it) = true.
Proof. unfold Header.magic_ok, header_of. simpl. by destruct (LogItem.encrypted it). Qed.

Lemma substr_mid (a b c : bytes) i j : i = zlen a -> j = i + zlen b -> substr (a ++ b ++ c) i j = b.
Proof.
  intros -> ->. unfold substr. rewrite Nat2Z.id, drop_app_length. apply take_app_length'. lia.
Qed.

Lemma parse_encode it :
  writable it -> parse_item (CloudItem.encode (cloud_item it)) = Some (Some (it <| LogItem.location := None |>)).
Proof.
  intros Ho. pose proof (header_item_size it Ho) as Hs. unfold CloudItem.size in Hs.
  pose proof (length_cloudlog_header _ (CloudItem.wf_header _ (cloud_item_wf it Ho))) as Hh.
  unfold CloudLogHeader.size in Hh.
  pose proof (unpack_encode it [] Ho) as Hu. rewrite app_nil_r in Hu.
  assert (Hl : 0 <= Header.size1 (header_of it) /\ 0 <= Header.size2 (header_of it) /\ 0 <= Header.size3 (header_of it))
    by (simpl; lia).
  unfold parse_item. rewrite <- Hs, Hu. unfold Header.item_size at 1.
  destruct (Z.ltb_spec (HEADER_SIZE + (Header.size1 (header_of it) + Header.size2 (header_of it) + Header.size3 (header_of it)))
    HEADER_SIZE); [lia|].
  rewrite magic_known, Z.eqb_refl. cbn [negb].
  destruct (length_links _ (proj1 (io_links _ Ho))) as [El _]. pose proof (io_type _ Ho).
  unfold chr at 1. rewrite (proj2 (Z.leb_le 0 _)), (proj2 (Z.ltb_lt _ _)) by (simpl; lia). cbn [andb mbind option_bind].
  unfold CloudItem.encode, Header.item_size, HEADER_SIZE. cbn [CloudItem.data1 CloudItem.data2 CloudItem.data3 cloud_item].
  set (h := CloudLogHeader.encode _) in *. clearbody h.
  rewrite (substr_mid h (LogItem.data it)) by (simpl; lia).
  rewrite (assoc_L (++) h), (substr_mid (h ++ LogItem.data it) (link_ids _))
    by (rewrite ?length_app; simpl; lia).
  rewrite (assoc_L (++) (h ++ LogItem.data it)), <- (app_nil_r (_ ++ link_locs _)), <- (assoc_L (++) _ (link_locs _)).
  rewrite (substr_mid _ (link_locs _)) by (rewrite ?length_app; simpl; lia).
  replace (Nat.div (length (link_ids (LogItem.links it))) 16) with (length (LogItem.links it))
    by (replace (length (link_ids (LogItem.links it))) with (length (LogItem.links it) * 16)%nat by lia; by rewrite Nat.div_mul).
  rewrite parse_links_ok by apply Ho. cbn [mbind option_bind]. do 2 f_equal.
  destruct it; unfold header_of. cbn. f_equal. by destruct encrypted.
Qed.

(** ** What can be read can be written *)

Lemma are_bytes_take n (b : bytes) : are_bytes b -> are_bytes (take n b).
Proof. apply Forall_take. Qed.
Lemma are_bytes_drop n (b : bytes) : are_bytes b -> are_bytes (drop n b).
Proof. apply Forall_drop. Qed.
Lemma are_bytes_substr (b : bytes) i j : are_bytes b -> are_bytes (substr b i j).
Proof. intros. by apply Forall_take, Forall_drop. Qed.
#[local] Hint Resolve are_bytes_take are_bytes_drop are_bytes_substr : bluesky.

Lemma le_val_field n (b : bytes) : are_bytes b -> is_u n (le_val (take n b)).
Proof.
  intros Hb. pose proof (le_val_range (take n b) (are_bytes_take n b Hb)) as Hr. unfold is_u.
  rewrite length_take in Hr.
  pose proof (Z.pow_le_mono_r 256 (Z.of_nat (n `min` length b)) (Z.of_nat n) ltac:(lia) ltac:(lia)). lia.
Qed.

Lemma pointer_of_bytes_wf b : are_bytes b -> pointer_wf (pointer_of_bytes b).
Proof. intros Hb. unfold pointer_wf, pointer_of_bytes. simpl. split_and!; apply le_val_field; auto with bluesky. Qed.

Lemma parse_links_links_ok n ids locs links :
  are_bytes ids -> are_bytes locs -> (16 * n <= length ids)%nat -> parse_links n ids locs = Some links ->
  Forall link_ok links /\ length links = n.
Proof.
  revert ids locs links. induction n as [|n IH]; intros ids locs links Hi Hl Hn; simpl; [by intros [= <-]|].
  assert (Hid : length (take 16 ids) = 16%nat) by (rewrite length_take; lia).
  destruct (bool_decide (take 16 ids = id0)) eqn:E.
  - destruct (parse_links n (drop 16 ids) locs) as [r|] eqn:Er; [|done]. simpl. intros [= <-].
    apply IH in Er as [? ?]; [|auto with bluesky..|rewrite length_drop; lia]. split; [|simpl; by f_equal].
    constructor; [|done]. split_and!; simpl; [done|auto with bluesky|by rewrite E].
  - destruct (zlen locs <? 16); [done|].
    destruct (parse_links n (drop 16 ids) (drop 16 locs)) as [r|] eqn:Er; [|done]. simpl. intros [= <-].
    apply IH in Er as [? ?]; [|auto with bluesky..|rewrite length_drop; lia]. split; [|simpl; by f_equal].
    constructor; [|done]. split_and!; simpl; [done|auto with bluesky|]. rewrite E. eexists. split; [done|].
    apply pointer_of_bytes_wf. auto with bluesky.
Qed.

Lemma parse_item_ok b it :
  are_bytes b -> parse_item b = Some (Some it) -> writable it /\ LogItem.location it = None /\ HEADER_SIZE <= zlen b.
Proof.
  intros Hb. unfold parse_item. destruct (Z.ltb_spec (zlen b) HEADER_SIZE) as [|Hlen]; [done|].
  unfold HEADER_SIZE in Hlen. set (h := Header.unpack b).
  destruct (Header.magic_ok h); [|done]. cbn [negb].
  destruct (Z.eqb_spec (zlen b) (Header.item_size h)) as [Es|]; [|done]. cbn [negb].
  destruct (chr (Header.type h)) as [ty|] eqn:Ec; [|done]. cbn [mbind option_bind].
  destruct (parse_links _ _ _) as [links|] eqn:El; [|done]. cbn [mbind option_bind]. intros [= <-].
  assert (H1 : is_u 4 (Header.size1 h)) by (apply le_val_field; auto with bluesky).
  assert (H2 : is_u 4 (Header.size2 h)) by (apply le_val_field; auto with bluesky).
  unfold is_u in H1, H2. change (256 ^ Z.of_nat 4) with (2 ^ 32) in H1, H2.
  apply parse_links_links_ok in El as [Hl En]; [|auto with bluesky..|apply Nat.Div0.mul_div_le].
  assert (Hids : (length (substr b (HEADER_SIZE + Header.size1 h) (HEADER_SIZE + Header.size1 h + Header.size2 h))
                  <= Z.to_nat (Header.size2 h))%nat) by (unfold substr; rewrite length_take; lia).
  split; [|done]. split; simpl.
  - split; [rewrite length_take, length_drop; lia|auto with bluesky].
  - unfold chr in Ec. destruct ((0 <=? Header.type h) && (Header.type h <? 256)) eqn:E; [|done]. injection Ec as <-.
    apply andb_prop in E as [E1%Z.leb_le E2%Z.ltb_lt]. split; [done|].
    unfold h, Header.unpack. cbn [Header.type]. unfold unpack_sbyte. pose proof (le_val_field 1 (drop 52 b) ltac:(auto with bluesky)) as Hr.
    unfold is_u in Hr. simpl in Hr. destruct (Z.ltb_spec (le_val (take 1 (drop 52 b))) 128); lia.
  - split; [rewrite length_take, length_drop; lia|auto with bluesky].
  - apply le_val_field. auto with bluesky.
  - split; [auto with bluesky|]. unfold substr. rewrite length_take. change (le_val (take 4 (drop 77 b))) with (Header.size1 h). lia.
  - split; [done|]. pose proof (Nat.Div0.mul_div_le (length (substr b (HEADER_SIZE + Header.size1 h) (HEADER_SIZE + Header.size1 h + Header.size2 h))) 16). lia.
Qed.

(** ** Segments *)

(** The bytes of a segment, and its items with their places. *)
Definition segment_bytes (its : list LogItem.t) : bytes := segment (cloud_item <$> its).
Definition item_size (it : LogItem.t) : Z := CloudItem.size (cloud_item it).
Definition place (d n off : Z) (it : LogItem.t) : LogItem.t :=
  it <| LogItem.location := Some (CloudPointer.mk d n off (item_size it)) |>.
Fixpoint located (d n off : Z) (its : list LogItem.t) : list LogItem.t :=
  match its with
  | [] => []
  | it :: its => place d n off it :: located d n (off + item_size it) its
  end.

Lemma item_size_min it : writable it -> HEADER_SIZE <= item_size it.
Proof. intros Ho. unfold item_size. rewrite <- header_item_size by done. unfold Header.item_size. simpl. lia. Qed.

Lemma segment_bytes_cons it its :
  segment_bytes (it :: its) = CloudItem.encode (cloud_item it) ++ segment_bytes its.
Proof. done. Qed.

Lemma segment_bytes_app l1 l2 : segment_bytes (l1 ++ l2) = segment_bytes l1 ++ segment_bytes l2.
Proof. unfold segment_bytes, segment. rewrite fmap_app. apply bind_app. Qed.

Lemma length_segment_bytes its : Forall writable its -> (length its <= length (segment_bytes its))%nat.
Proof.
  induction 1 as [|it its Ho _ IH]; [done|]. rewrite segment_bytes_cons, length_app. simpl.
  pose proof (item_size_min it Ho) as Hs. unfold item_size, CloudItem.size, HEADER_SIZE in Hs. lia.
Qed.

(** The parser finds every item of a segment. *)
Lemma parse_log_loop_ok its pre fuel d n :
  Forall writable its -> (length its <= fuel)%nat ->
  parse_log_loop fuel (pre ++ segment_bytes its) (Some (d, n)) (zlen pre) = Some (located d n (zlen pre) its).
Proof.
  intros Hits. revert pre fuel. induction Hits as [|it its Ho Hits IH]; intros pre fuel Hf.
  { change (segment_bytes []) with (@nil Z). rewrite app_nil_r. destruct fuel; cbn [parse_log_loop]; by rewrite Z.sub_diag. }
  destruct fuel as [|fuel]; [simpl in Hf; lia|]. cbn [parse_log_loop].
  rewrite segment_bytes_cons. set (e := CloudItem.encode (cloud_item it)).
  pose proof (item_size_min it Ho) as Hs.
  assert (Esz : item_size it = zlen e) by done. rewrite Esz in Hs.
  destruct (Z.ltb_spec (zlen (pre ++ e ++ segment_bytes its) - zlen pre) HEADER_SIZE); [rewrite !length_app in *; lia|].
  assert (Hu : Header.unpack (e ++ segment_bytes its) = header_of it) by (by apply unpack_encode).
  assert (Hp : parse_item e = Some (Some (it <| LogItem.location := None |>))) by (by apply parse_encode).
  assert (Hh : Header.item_size (header_of it) = zlen e) by (by apply header_item_size).
  rewrite Nat2Z.id, drop_app_length, Hu, magic_known, Hh. cbn [negb].
  destruct (Z.ltb_spec (zlen (pre ++ e ++ segment_bytes its)) (zlen e + zlen pre)); [rewrite !length_app in *; lia|].
  rewrite substr_mid, Hp by done. cbn [mbind option_bind].
  rewrite (assoc_L (++)). replace (zlen pre + zlen e) with (zlen (pre ++ e)) by (rewrite length_app; lia).
  rewrite IH by (simpl in Hf; lia). cbn [mbind option_bind located].
  rewrite length_app, Nat2Z.inj_add, Esz. unfold place. by rewrite Esz.
Qed.

Lemma parse_log_ok its d n :
  Forall writable its -> parse_log (segment_bytes its) (Some (d, n)) = Some (located d n 0 its).
Proof. intros Hits. by apply (parse_log_loop_ok its []); [|apply length_segment_bytes]. Qed.

(** ** Links to other locations *)

(** The same identifiers. *)
Abbreviation same_ids := (Forall2 (fun l m : bytes * option CloudPointer.t => l.1 = m.1)).

Lemma same_link_ids l m : same_ids l m -> link_ids l = link_ids m.
Proof. unfold link_ids. induction 1 as [|x y l m E _ IH]; [done|]. rewrite !fmap_cons. simpl. by rewrite E, IH. Qed.

Lemma same_locs_length l m :
  same_ids l m -> Forall link_ok l -> Forall link_ok m -> length (link_locs l) = length (link_locs m).
Proof.
  unfold link_locs. induction 1 as [|[i p] [j q] l m E _ IH]; intros Hl Hm; [done|]. simpl in E. subst j.
  inversion_clear Hl as [|? ? (_ & _ & Hp) Hl']. inversion_clear Hm as [|? ? (_ & _ & Hq) Hm'].
  rewrite !fmap_cons. cbn [concat]. rewrite !length_app, IH by done. f_equal. simpl in Hp, Hq.
  unfold link_loc. cbn [snd]. destruct (bool_decide (i = id0)); [by subst|].
  destruct Hp as (? & -> & _), Hq as (? & -> & _). by rewrite !length_pointer_bytes.
Qed.

Lemma same_item_size it links :
  same_ids (LogItem.links it) links -> Forall link_ok (LogItem.links it) -> Forall link_ok links -> writable it ->
  writable (it <| LogItem.links := links |>) /\ item_size (it <| LogItem.links := links |>) = item_size it.
Proof.
  intros Hs Hl Hl' W.
  assert (W' : writable (it <| LogItem.links := links |>)).
  { destruct W as [? ? ? ? ? [_ Hn]]. split; try done. split; [done|]. simpl. by rewrite <- (Forall2_length _ _ _ Hs). }
  split; [done|]. unfold item_size. rewrite <- !header_item_size by done. unfold Header.item_size. simpl.
  by rewrite (same_link_ids _ _ Hs), (same_locs_length _ _ Hs).
Qed.

Lemma writable_place it loc : writable it -> writable (it <| LogItem.location := loc |>).
Proof. by intros []. Qed.

(** ** What is written is not longer than what was read *)

Lemma parse_links_locs n ids locs links :
  parse_links n ids locs = Some links -> (length (link_locs links) <= length locs)%nat.
Proof.
  unfold link_locs. revert ids locs links. induction n as [|n IH]; intros ids locs links; cbn [parse_links]; [intros [= <-]; simpl; lia|].
  destruct (bool_decide (take 16 ids = id0)).
  - destruct (parse_links n (drop 16 ids) locs) as [r|] eqn:E; [|done]. cbn [mbind option_bind]. intros [= <-].
    apply IH in E. rewrite fmap_cons. exact E.
  - destruct (Z.ltb_spec (zlen locs) 16); [done|].
    destruct (parse_links n (drop 16 ids) (drop 16 locs)) as [r|] eqn:E; [|done]. cbn [mbind option_bind]. intros [= <-].
    apply IH in E. rewrite length_drop in E. rewrite fmap_cons. cbn [concat]. rewrite length_app.
    unfold link_loc at 1. cbn [snd]. rewrite length_pointer_bytes. lia.
Qed.

Lemma parse_item_size b it : are_bytes b -> parse_item b = Some (Some it) -> item_size it <= zlen b.
Proof.
  intros Hb Hp. destruct (parse_item_ok b it Hb Hp) as (W & _ & _). unfold item_size. rewrite <- header_item_size by done.
  destruct (length_links _ (proj1 (io_links _ W))) as [El _].
  revert Hp. unfold parse_item. destruct (zlen b <? HEADER_SIZE); [done|]. set (h := Header.unpack b).
  assert (H1 : is_u 4 (Header.size1 h)) by (apply le_val_field; auto with bluesky).
  assert (H2 : is_u 4 (Header.size2 h)) by (apply le_val_field; auto with bluesky).
  assert (H3 : is_u 4 (Header.size3 h)) by (apply le_val_field; auto with bluesky).
  unfold is_u in H1, H2, H3. clearbody h. destruct (Header.magic_ok h); [|done]. cbn [negb].
  destruct (Z.eqb_spec (zlen b) (Header.item_size h)) as [Es|]; [|done]. cbn [negb].
  destruct (chr _); [|done]. cbn [mbind option_bind].
  destruct (parse_links _ _ _) as [links|] eqn:Hl; [|done]. cbn [mbind option_bind]. intros [= <-].
  pose proof (parse_links_locs _ _ _ _ Hl) as Hlocs.
  apply parse_links_links_ok in Hl as [_ En]; [|auto with bluesky..|apply Nat.Div0.mul_div_le].
  revert El. unfold Header.item_size in *. simpl. intros El. rewrite El, En.
  unfold substr in *. rewrite !length_take in *.
  match goal with |- context [Nat.div ?x 16] => pose proof (Nat.Div0.mul_div_le x 16) end. lia.
Qed.
