(* ===== verification/CleanFormat.v ===== *)
(** * Items between the file system and the segment cleaner

    The segment cleaner (src/cleaner/cleaner) copies items that the file system has
    encrypted and authenticated (src/bluesky/crypto.c), with other locations in their
    links.  It has no keys.  The file system then reads the copies
    (src/bluesky/cleaner.c). *)

From S2P Require Import Prelude Glib State Serialize RoundtripItem Crypto CleanItems Cleaner.
From Stdlib Require Import ZArith Lia.
From stdpp Require Import base numbers gmap option list.

Open Scope Z_scope.

(** The item with other locations in its links. *)
Definition relocated (i : CloudItem.t) (links : list (bytes * option CloudPointer.t)) : CloudItem.t :=
  CloudItem.mk (CloudItem.header i) (CloudItem.data1 i) (CloudItem.data2 i) (link_locs links).

Section format.
Context `{GSequenceLib} `{Env0 : Env} `{!EnvSpec Env0} `{Gcrypt}.
Context (keys : CryptKeys.t).

(** An item as the file system has it in memory, with its links. *)
Record plain_item (i : CloudItem.t) (links : list (bytes * option CloudPointer.t)) : Prop := {
  pi_wf : CloudItem.wf i;
  pi_magic : CloudItem.magic i = CLOUDLOG_MAGIC;
  pi_type : CloudLogHeader.type (CloudItem.header i) < 128;
  pi_ids : CloudItem.data2 i = link_ids links;
  pi_locs : CloudItem.data3 i = link_locs links;
  pi_links : Forall link_ok links;
}.

Lemma relocated_plain i links moved :
  plain_item i links -> same_ids links moved -> Forall link_ok moved -> plain_item (relocated i moved) moved.
Proof.
  intros [[] ? ? Hi Hl ?] Hs Hm. split; simpl; try done; [|by rewrite Hi; apply same_link_ids].
  split; simpl; try done. rewrite wf_size3, Hl. by rewrite (same_locs_length links moved).
Qed.

(** The stored form of an item is that of an item of the cleaner. *)
Lemma sealed_is_item i links b :
  plain_item i links -> sealed keys i b -> are_bytes b ->
  exists it, b = CloudItem.encode (cloud_item it) /\ writable it /\ LogItem.links it = links /\
    LogItem.location it = None /\
    forall moved, same_ids links moved -> Forall link_ok moved ->
      sealed keys (relocated i moved) (CloudItem.encode (cloud_item (it <| LogItem.links := moved |>))).
Proof.
  intros P Hb Hbytes. pose proof (pi_wf _ _ P) as W. pose proof (CloudItem.wf_header _ W) as [_ Wauth Wiv Wtype Wid Winum Wsize1 Wsize2 Wsize3].
  assert (exists enc auth iv d1, length auth = 32%nat /\ length iv = 16%nat /\ length d1 = length (CloudItem.data1 i) /\
    b = CloudItem.encode (CloudItem.with_crypt (if (enc : bool) then HEADER_MAGIC2 else HEADER_MAGIC1) auth iv d1 i) /\
    forall moved, same_ids links moved -> Forall link_ok moved ->
      sealed keys (relocated i moved) (CloudItem.encode (CloudItem.with_crypt
        (if enc then HEADER_MAGIC2 else HEADER_MAGIC1) auth iv d1 (relocated i moved))))
    as (enc & auth & iv & d1 & Ha & Hiv & Hd1 & -> & Hmove).
  { unfold sealed in *. destruct (Options.disable_crypto bluesky_options).
    - exists false, (CloudLogHeader.crypt_auth (CloudItem.header i)), (CloudLogHeader.crypt_iv (CloudItem.header i)), (CloudItem.data1 i).
      assert (Hm : CloudLogHeader.magic (CloudItem.header i) = HEADER_MAGIC1) by apply P.
      split_and!; [done..| |]; [|intros moved _ _]; subst; clear - Hm; destruct i as [[] ? ? ?]; simpl in *; by subst.
    - destruct Hb as (iv & Hiv & ->). exists (CloudItem.needs_encryption i). eexists _, iv, _.
      split_and!; [..|reflexivity|]; [apply hmac_length|done|destruct (CloudItem.needs_encryption i); [apply aes_ctr_length|done]|].
      intros moved _ _. exists iv. split; [done|]. done. }
  exists (LogItem.mk enc (auth ++ iv) (CloudLogHeader.type (CloudItem.header i)) (CloudLogHeader.id (CloudItem.header i))
    (CloudLogHeader.inum (CloudItem.header i)) None d1 links).
  assert (Henc : forall l, plain_item (relocated i l) l ->
    cloud_item (LogItem.mk enc (auth ++ iv) (CloudLogHeader.type (CloudItem.header i)) (CloudLogHeader.id (CloudItem.header i))
      (CloudLogHeader.inum (CloudItem.header i)) None d1 l)
    = CloudItem.with_crypt (if enc then HEADER_MAGIC2 else HEADER_MAGIC1) auth iv d1 (relocated i l)).
  { intros l [[_ E1 E2 E3] _ _ Ei El _]. unfold cloud_item, CloudItem.with_crypt. simpl in *. rewrite E1, E2, E3, Hd1, Ei.
    by rewrite take_app_length', drop_app_length' by done. }
  assert (Hself : relocated i links = i) by (unfold relocated; rewrite <- (pi_locs _ _ P); by destruct i).
  split_and!; [|..|done|done|].
  - rewrite Henc; by rewrite Hself.
  - unfold CloudItem.encode, CloudLogHeader.encode in Hbytes. cbn [CloudItem.header CloudItem.with_crypt
      CloudItem.data1 CloudItem.data2 CloudItem.data3 CloudLogHeader.magic CloudLogHeader.crypt_auth CloudLogHeader.crypt_iv
      CloudLogHeader.id] in Hbytes.
    rewrite !Forall_app in Hbytes.
    destruct Hbytes as ((_ & Hba & Hbiv & _ & Hbid & _) & Hbd & _). pose proof (length_links _ (pi_links _ _ P)) as [El _].
    unfold is_u in *. change (256 ^ Z.of_nat 4) with (2 ^ 32) in *.
    pose proof (CloudItem.wf_size1 _ W). pose proof (CloudItem.wf_size2 _ W) as E2. rewrite (pi_ids _ _ P) in E2.
    split; simpl.
    + split; [rewrite length_app; lia|]. by apply Forall_app.
    + split; [lia|apply P].
    + done.
    + done.
    + split; [done|]. lia.
    + split; [apply P|]. lia.
  - intros moved Hs Hm. change (setf _ _ _) with (LogItem.mk enc (auth ++ iv) (CloudLogHeader.type (CloudItem.header i))
      (CloudLogHeader.id (CloudItem.header i)) (CloudLogHeader.inum (CloudItem.header i)) None d1 moved).
    rewrite Henc by (by eapply relocated_plain). by apply Hmove.
Qed.

(** A link as the file system reads it. *)
Definition cleaner_link (l : bytes * option CloudPointer.t) : CleanerLink.t :=
  CleanerLink.mk l.1 (default CloudPointer.zero l.2).

Lemma cleaner_links_ok links s :
  Forall link_ok links -> Forall (fun l => l.1 <> id0) links ->
  wp (cleaner_links (length links) (link_ids links) (link_locs links)) s (fun r s' =>
    s' = s /\ r = cleaner_link <$> links).
Proof.
  unfold link_ids, link_locs. induction links as [|[i l] links IH]; intros Hl Hn; [done|].
  inversion_clear Hl as [|? ? (Hi & _ & Hp) Hl']. inversion_clear Hn as [|? ? Hne Hn']. simpl in Hi, Hp, Hne.
  rewrite bool_decide_eq_false_2 in Hp by done. destruct Hp as (p & -> & Hp).
  rewrite !fmap_cons. cbn [concat length cleaner_links fst]. change (link_loc (i, Some p)) with (pointer_bytes p).
  wp_step. wp_step; [apply slice_head; by rewrite Hi|]. wp_step. wp_step; [apply slice_head; by rewrite length_pointer_bytes|].
  wp_step. rewrite !drop_app_length' by (done || by rewrite length_pointer_bytes).
  eapply wp_mono; [by apply IH|]. intros r s' [-> ->]. wp_step. split; [done|].
  by rewrite pointer_roundtrip.
Qed.

(** Reading an item that was decrypted. *)
Lemma deserialize_opened i links b s :
  plain_item i links -> Forall (fun l => l.1 <> id0) links -> opened i b ->
  wp (bluesky_cleaner_deserialize b) s (fun r s' => s' = s /\
    r = Some (CleanerItem.mk (CloudLogHeader.type (CloudItem.header i) - 48) (CloudLogHeader.id (CloudItem.header i))
          CloudPointer.zero (CloudLogHeader.inum (CloudItem.header i)) (cleaner_link <$> links))).
Proof.
  intros P Hn (auth & iv & Ha & Hiv & ->). set (j := CloudItem.with_crypt _ _ _ _ i).
  assert (W : CloudItem.wf j) by (apply with_crypt_wf; try done; apply P).
  pose proof (encode_length j W) as Hlen. unfold CloudItem.size in Hlen.
  pose proof (length_cloudlog_header _ (CloudItem.wf_header _ W)) as Hh.
  destruct (length_links _ (pi_links _ _ P)) as [El _].
  pose proof W as [_ E1 E2 E3]. change (CloudItem.data2 j) with (CloudItem.data2 i) in *.
  change (CloudItem.data3 j) with (CloudItem.data3 i) in *. rewrite (pi_ids _ _ P) in *. rewrite (pi_locs _ _ P) in *.
  assert (Ht : take 89 (CloudItem.encode j) = CloudLogHeader.encode (CloudItem.header j))
    by (apply take_app_length'; unfold CloudLogHeader.size in Hh; lia).
  assert (Hm : take 4 (CloudItem.encode j) = CLOUDLOG_MAGIC).
  { unfold CloudItem.encode, CloudLogHeader.encode. rewrite <- !(assoc_L (++)). by apply take_app_length'. }
  assert (Hd : CloudLogHeader.decode (CloudLogHeader.encode (CloudItem.header j)) = CloudItem.header j).
  { rewrite <- (app_nil_r (CloudLogHeader.encode _)). apply cloudlog_header_roundtrip, W. }
  unfold bluesky_cleaner_deserialize. change (Z.to_nat CloudLogHeader.size) with 89%nat. rewrite Ht, Hd, Hm.
  rewrite E1, E2, E3, Hlen. unfold CloudLogHeader.size in *. wp_step. wp_step; [apply Z.ltb_lt; lia|].
  rewrite bool_decide_eq_true_2 by done. rewrite (proj2 (Z.ltb_ge _ 89)) by lia. cbn [negb orb].
  wp_step. wp_step; [apply Z.leb_le; lia|]. unfold CloudItem.encode.
  change (CloudItem.data2 j) with (CloudItem.data2 i). change (CloudItem.data3 j) with (CloudItem.data3 i).
  rewrite (pi_ids _ _ P), (pi_locs _ _ P). set (h := CloudLogHeader.encode _) in *.
  wp_step. wp_step; [rewrite (assoc_L (++) h); apply slice_mid; [rewrite length_app; lia|done]|].
  wp_step. wp_step; [rewrite (assoc_L (++) h), (assoc_L (++) (h ++ _)), <- (app_nil_r (_ ++ link_locs _)), <- (assoc_L (++) _ (link_locs _));
    apply slice_mid; [rewrite !length_app; lia|done]|].
  wp_step. replace (Z.to_nat (zlen (link_ids links) / 16)) with (length links)
    by (rewrite El, Z.mul_comm, Z.div_mul by lia; lia).
  eapply wp_mono; [apply cleaner_links_ok; [apply P|done]|]. intros r s' [-> ->]. wp_step. done.
Qed.

(** C17: The cleaner can move items it cannot read.  Take an item as the file system
    stores it, encrypted and authenticated: the cleaner parses it, finds its links,
    and writes it with other locations in them.  The file system accepts the copy as
    authentic and decrypts it to the item with only the locations changed; and when
    no link is empty, merging finds the type, the identifier, the inode and exactly
    the new locations in it.  (An empty link stops the file system:
    [empty_link_stops_merge].) *)
Theorem relocated_item_authentic (i : CloudItem.t) (links moved : list (bytes * option CloudPointer.t)) (b : bytes)
    (u : bool) (s : State)
    (Hi : plain_item i links) (Hb : sealed keys i b) (Hbytes : are_bytes b)
    (Hids : same_ids links moved) (Hmoved : Forall link_ok moved) :
  exists it b', parse_item b = Some (Some it) /\ LogItem.links it = links /\
    serialize (it <| LogItem.links := moved |>) = Some b' /\
    wp (bluesky_crypt_block_decrypt keys b' u) s (fun r s' => s' = s /\ r.1 = true /\
      opened (relocated i moved) r.2 /\
      (Forall (fun l => l.1 <> id0) links ->
       wp (bluesky_cleaner_deserialize r.2) s (fun c s' => s' = s /\
         c = Some (CleanerItem.mk (CloudLogHeader.type (CloudItem.header i) - 48) (CloudLogHeader.id (CloudItem.header i))
               CloudPointer.zero (CloudLogHeader.inum (CloudItem.header i)) (cleaner_link <$> moved))))).
Proof.
  destruct (sealed_is_item i links b Hi Hb Hbytes) as (it & -> & Hw & Hl & Hnone & Hmove).
  pose proof (relocated_plain i links moved Hi Hids Hmoved) as Hr.
  exists it, (CloudItem.encode (cloud_item (it <| LogItem.links := moved |>))). split_and!.
  - rewrite parse_encode by done. by destruct it; simpl in *; subst.
  - done.
  - apply serialize_ok. destruct Hw as [? ? ? ? ? [_ Hn]]. split; try done. split; [done|].
    simpl. rewrite <- (Forall2_length _ _ _ Hids). by rewrite Hl in Hn.
  - eapply wp_mono; [apply (block_decrypt_ok keys (relocated i moved)); [apply Hr|apply Hr|by apply Hmove]|].
    intros r s' (-> & Hok & Ho). split_and!; [done..|]. intros Hn.
    eapply wp_mono; [apply (deserialize_opened (relocated i moved) moved); [done| |done]|by intros c s' [-> ->]].
    clear -Hids Hn. induction Hids as [|x y l m E _ IH]; [done|]. inversion_clear Hn. constructor; [congruence|auto].
Qed.
End format.

(** ** Instances *)
#[local] Existing Instance linear_gsequence.

Definition sample_link_id : bytes := replicate 16 9.
Definition sample_old_place : CloudPointer.t := CloudPointer.mk 0 3 0 120.
Definition sample_new_place : CloudPointer.t := CloudPointer.mk 1 7 500 120.

(** An inode with one block. *)
Definition sample_plain_inode : CloudItem.t :=
  CloudItem.mk (CloudLogHeader.mk CLOUDLOG_MAGIC (replicate 32 0) (replicate 16 0) 50 (replicate 16 7) 2 3 16 16)
    [1; 2; 3] sample_link_id (pointer_bytes sample_old_place).
Definition sample_iv : bytes := replicate 16 5.
Definition sample_stored_inode : bytes :=
  let d1 := aes_ctr_encrypt (CryptKeys.encryption_key sample_keys) sample_iv [1; 2; 3] in
  CloudItem.encode (CloudItem.with_crypt CLOUDLOG_MAGIC_ENCRYPTED
    (bluesky_crypt_hmac (sample_iv ++ header_tail (CloudItem.header sample_plain_inode) ++ d1 ++ sample_link_id)
       (CryptKeys.authentication_key sample_keys)) sample_iv d1 sample_plain_inode).

Lemma sample_link_ok p : pointer_wf p -> Forall link_ok [(sample_link_id, Some p)].
Proof. intros Hp. repeat constructor; try done. simpl. by exists p. Qed.

Lemma relocated_item_authentic_witness :
  exists it b', parse_item sample_stored_inode = Some (Some it) /\
    serialize (it <| LogItem.links := [(sample_link_id, Some sample_new_place)] |>) = Some b' /\
    wp (bluesky_crypt_block_decrypt sample_keys b' false) empty_state (fun r _ => r.1 = true /\
      wp (bluesky_cleaner_deserialize r.2) empty_state (fun c _ =>
        c = Some (CleanerItem.mk 2 (replicate 16 7) CloudPointer.zero 2 [CleanerLink.mk sample_link_id sample_new_place]))).
Proof.
  destruct (relocated_item_authentic sample_keys sample_plain_inode [(sample_link_id, Some sample_old_place)]
    [(sample_link_id, Some sample_new_place)] sample_stored_inode false empty_state) as (it & b' & Hp & _ & Hs & Hd).
  - split; [|done..|by apply sample_link_ok]. split; [|done..]. split; simpl; unfold is_u; try lia; done.
  - exists sample_iv. done.
  - apply (bool_decide_unpack _). vm_compute. exact I.
  - by repeat constructor.
  - by apply sample_link_ok.
  - exists it, b'. split_and!; [done..|]. refine (wp_mono _ _ _ _ Hd _).
    intros r s' (_ & Hr & _ & Hc). split; [done|]. refine (wp_mono _ _ _ _ (Hc _) _); [by repeat constructor|].
    by intros c s'' [_ ->].
Defined.

(** A file with a hole: the cleaner writes the empty link without a location, as the
    file system does, and merging expects one. *)
Example empty_link_stops_merge :
  exists b, serialize (new_item ITEM_TYPE.INODE (replicate 16 7) [1] [(id0, None)]) = Some b /\
    bluesky_cleaner_deserialize b empty_state = Stop Assertion.
Proof. eexists. split; vm_compute; reflexivity. Qed.
