(* ===== verification/CleanStore.v ===== *)
(** * The storage of the segment cleaner (src/cleaner/cleaner)

    The names of segments; the interface through which the cleaner uses the storage,
    with what it promises; and its two implementations: files in a directory, and
    objects of Amazon S3 with a cache of files beside them. *)

From S2P Require Import Prelude State CacheFiles LogThread Names Store StoreProtocol Replay NameOrder CleanItems.
From Stdlib Require Import ZArith Lia Sorted.
From stdpp Require Import base numbers gmap option list sorting.

Open Scope Z_scope.

(** ** Names *)

(** ["%08d" % n]. *)
Definition pct_08d (n : Z) : bytes :=
  let d := digits (S (Z.to_nat (Z.log2 (Z.abs n)))) (Z.abs n) in
  if n <? 0 then 45 :: replicate (7 - length d) 48 ++ d else replicate (8 - length d) 48 ++ d.

(** ["log-"]. *)
Definition log_dash : bytes := [108; 111; 103; 45].

Definition loc_to_name (location : Z * Z) : bytes :=
  log_dash ++ pct_08d location.1 ++ [45] ++ pct_08d location.2.

(** The longest start of a string that consists of digits, and the rest. *)
Fixpoint span_digits (s : bytes) : bytes * bytes :=
  match s with
  | c :: s' => if (48 <=? c) && (c <=? 57) then let r := span_digits s' in (c :: r.1, r.2) else ([], s)
  | [] => ([], [])
  end.

(** [\d+]: at least one digit. *)
Definition match_number (s : bytes) : option (Z * bytes) :=
  let r := span_digits s in
  match r.1 with [] => None | d => Some (atoi_digits 0 d, r.2) end.

(** The expression [^log-(\d+)-(\d+)$]; [$] also matches before a newline at the end. *)
Definition name_to_loc (name : bytes) : option (Z * Z) :=
  if negb (bool_decide (take 4 name = log_dash)) then None else
  a ← match_number (drop 4 name);
  if negb (bool_decide (take 1 a.2 = [45])) then None else
  b ← match_number (drop 1 a.2);
  if bool_decide (b.2 = []) || bool_decide (b.2 = [10]) then Some (a.1, b.1) else None.

Definition dir_prefix (directory : Z) : bytes := log_dash ++ pct_08d directory ++ [45].

(** ** The interface *)

Class Backend (B : Type) := {
  backend_list : Z -> M B (list (bytes * Z));
  backend_read : bytes -> Z -> option Z -> M B bytes;
  backend_write : bytes -> bytes -> M B unit;
  backend_delete : bytes -> M B unit;
}.

(** [data[offset:][0:length]]. *)
Definition part (data : bytes) (offset : Z) (length : option Z) : bytes :=
  let rest := drop (Z.to_nat offset) data in
  match length with Some n => take (Z.to_nat n) rest | None => rest end.

(** The names in a map with a prefix, in order. *)
Definition has_start (prefix name : bytes) : bool := bool_decide (take (length prefix) name = prefix).
Definition names_from (prefix : bytes) (m : gmap bytes bytes) : list bytes :=
  foldr insert_name [] (filter (fun n => has_start prefix n) (map_to_list m).*1).

(** The segments of a directory and their sizes. *)
Definition listing (m : gmap bytes bytes) (directory : Z) : list (bytes * Z) :=
  (fun name => (name, zlen (default [] (m !! name)))) <$> names_from (dir_prefix directory) m.

(** What the storage promises: it is a map from names to data. *)
Class BackendSpec (B : Type) `{Backend B} := {
  backend_ok : B -> Prop;
  objects : B -> gmap bytes bytes;
  list_ok : forall b d, backend_ok b ->
    wp (backend_list d) b (fun r b' => backend_ok b' /\ objects b' = objects b /\ r = listing (objects b) d);
  read_ok : forall b name offset length data, backend_ok b -> objects b !! name = Some data -> 0 <= offset ->
    wp (backend_read name offset length) b (fun r b' =>
      backend_ok b' /\ objects b' = objects b /\ r = part data offset length);
  write_ok : forall b name data, backend_ok b ->
    wp (backend_write name data) b (fun _ b' => backend_ok b' /\ objects b' = <[name := data]> (objects b));
  delete_ok : forall b name, backend_ok b -> is_Some (objects b !! name) ->
    wp (backend_delete name) b (fun _ b' => backend_ok b' /\ objects b' = delete name (objects b));
}.

(** ** Files in a directory *)

Module FileBackend.
Record t := mk {
  files : gmap bytes bytes;
}.
End FileBackend.
#[export] Instance FileBackend_eta : Eta FileBackend.t := fun x => FileBackend.mk (FileBackend.files x).

Definition FileBackend_list (directory : Z) : M FileBackend.t (list (bytes * Z)) :=
  b ← get;
  let files := names_from (dir_prefix directory) (FileBackend.files b) in
  mret ((fun f => (f, zlen (default [] (FileBackend.files b !! f)))) <$> files).

(** [fp.seek(offset)] when the offset is positive. *)
Definition FileBackend_read (filename : bytes) (offset : Z) (length : option Z) : M FileBackend.t bytes :=
  b ← get;
  data ← assume Exception (FileBackend.files b !! filename);
  let rest := if 0 <? offset then drop (Z.to_nat offset) data else data in
  mret (match length with None => rest | Some n => take (Z.to_nat n) rest end).

Definition FileBackend_write (filename data : bytes) : M FileBackend.t unit :=
  modify (fun b => b <| FileBackend.files ::= <[filename := data]> |>).

Definition FileBackend_delete (filename : bytes) : M FileBackend.t unit :=
  b ← get;
  assume Exception (FileBackend.files b !! filename);;
  modify (fun b => b <| FileBackend.files ::= delete filename |>).

#[export] Instance file_backend : Backend FileBackend.t := {|
  backend_list := FileBackend_list;
  backend_read := FileBackend_read;
  backend_write := FileBackend_write;
  backend_delete := FileBackend_delete;
|}.

(** ** Objects of Amazon S3 *)

(** [bucket] is what the storage service holds, [cachedir] the files of the cache
    directory, and [cache] the names that are thought to be there. *)
Module S3Backend.
Record t := mk {
  bucket : gmap bytes bytes;
  path : bytes;
  cachedir : gmap bytes bytes;
  cache : gset bytes;
}.
End S3Backend.
#[export] Instance S3Backend_eta : Eta S3Backend.t := fun x =>
  S3Backend.mk (S3Backend.bucket x) (S3Backend.path x) (S3Backend.cachedir x) (S3Backend.cache x).

(** All files in the cache directory are taken for copies of objects. *)
Definition S3Backend_init (bucket : gmap bytes bytes) (path : bytes) (cachedir : gmap bytes bytes) : S3Backend.t :=
  S3Backend.mk bucket path cachedir (dom cachedir).

(** The service lists the keys with a prefix in their order. *)
Definition S3Backend_list (directory : Z) : M S3Backend.t (list (bytes * Z)) :=
  b ← get;
  let keys := names_from (S3Backend.path b ++ dir_prefix directory) (S3Backend.bucket b) in
  mret ((fun k => (k, zlen (default [] (S3Backend.bucket b !! k)))) <$> keys).

Definition S3Backend_read (filename : bytes) (offset : Z) (length : option Z) : M S3Backend.t bytes :=
  b ← get;
  if decide (filename ∈ S3Backend.cache b) then
    data ← assume Exception (S3Backend.cachedir b !! filename);
    let rest := if 0 <? offset then drop (Z.to_nat offset) data else data in
    mret (match length with None => rest | Some n => take (Z.to_nat n) rest end)
  else
    data ← assume Exception (S3Backend.bucket b !! (S3Backend.path b ++ filename));
    modify (fun b => b <| S3Backend.cachedir ::= <[filename := data]> |> <| S3Backend.cache ::= union {[filename]} |>);;
    let data := if 0 <? offset then drop (Z.to_nat offset) data else data in
    mret (match length with None => data | Some n => take (Z.to_nat n) data end).

Definition S3Backend_write (filename data : bytes) : M S3Backend.t unit :=
  modify (fun b => b <| S3Backend.bucket ::= <[S3Backend.path b ++ filename := data]> |>
                     <| S3Backend.cache ::= fun c => c ∖ {[filename]} |>).

Definition S3Backend_delete (filename : bytes) : M S3Backend.t unit :=
  modify (fun b => b <| S3Backend.bucket ::= delete (S3Backend.path b ++ filename) |>
                     <| S3Backend.cache ::= fun c => c ∖ {[filename]} |>).

#[export] Instance s3_backend : Backend S3Backend.t := {|
  backend_list := S3Backend_list;
  backend_read := S3Backend_read;
  backend_write := S3Backend_write;
  backend_delete := S3Backend_delete;
|}.

(** ** The implementations keep the promise *)

Lemma part_seek data offset n :
  0 <= offset ->
  (let rest := if 0 <? offset then drop (Z.to_nat offset) data else data in
   match n with None => rest | Some n => take (Z.to_nat n) rest end) = part data offset n.
Proof.
  intros Ho. unfold part. destruct (Z.ltb_spec 0 offset); [done|]. replace offset with 0 by lia. done.
Qed.

#[export] Instance file_backend_spec : BackendSpec FileBackend.t.
Proof.
  refine {| backend_ok := fun _ => True; objects := FileBackend.files |}.
  - intros b d _. cbn [backend_list file_backend]. unfold FileBackend_list. by do 3 wp_step.
  - intros b name offset n data _ Hd Ho. cbn [backend_read file_backend]. unfold FileBackend_read. wp_step. wp_step.
    wp_step. wp_step; [done|]. wp_step. split_and!; [done..|]. by apply part_seek.
  - intros b name data _. done.
  - intros b name _ [x Hx]. cbn [backend_delete file_backend]. unfold FileBackend_delete. wp_step. wp_step. wp_step.
    by wp_step.
Defined.

(** The copies in the cache directory are those of the objects. *)
Definition cache_coherent (b : S3Backend.t) : Prop :=
  S3Backend.path b = [] /\
  forall f, f ∈ S3Backend.cache b -> S3Backend.cachedir b !! f = S3Backend.bucket b !! f.

#[export] Instance s3_backend_spec : BackendSpec S3Backend.t.
Proof.
  refine {| backend_ok := cache_coherent; objects := S3Backend.bucket |}.
  - intros b d [Hp Hc]. cbn [backend_list s3_backend]. unfold S3Backend_list. wp_step. wp_step. wp_step.
    rewrite Hp. done.
  - intros b name offset n data [Hp Hc] Hd Ho. cbn [backend_read s3_backend]. unfold S3Backend_read.
    wp_step. wp_step. rewrite Hp. case_decide as Hin.
    + wp_step. wp_step; [by rewrite Hc|]. wp_step. split_and!; [done..|]. by apply part_seek.
    + wp_step. wp_step; [done|]. wp_step. wp_step. wp_step. split_and!; [|done|by apply part_seek].
      split; [done|]. simpl. intros f. rewrite elem_of_union, elem_of_singleton. intros [->|Hf].
      * by rewrite lookup_insert_eq.
      * destruct (decide (f = name)) as [->|]; [by rewrite lookup_insert_eq|]. rewrite lookup_insert_ne by done. by apply Hc.
  - intros b name data [Hp Hc]. cbn [backend_write s3_backend]. unfold S3Backend_write. wp_step. simpl. rewrite Hp.
    split; [|done]. split; [done|]. simpl. intros f [Hf Hne]%elem_of_difference. rewrite elem_of_singleton in Hne.
    rewrite lookup_insert_ne by done. by apply Hc.
  - intros b name [Hp Hc] _. cbn [backend_delete s3_backend]. unfold S3Backend_delete. wp_step. simpl. rewrite Hp.
    split; [|done]. split; [done|]. simpl. intros f [Hf Hne]%elem_of_difference. rewrite elem_of_singleton in Hne.
    rewrite lookup_delete_ne by done. by apply Hc.
Defined.

(** ** Names and locations *)

Lemma pct_08d_val n : 0 <= n ->
  Forall is_digit (pct_08d n) /\ pct_08d n <> [] /\ atoi_digits 0 (pct_08d n) = n.
Proof.
  intros Hn. unfold pct_08d. rewrite (proj2 (Z.ltb_ge n 0)), Z.abs_eq by lia.
  set (fuel := S (Z.to_nat (Z.log2 n))).
  assert (Hb : 0 <= n < 10 ^ Z.of_nat fuel).
  { split; [done|]. pose proof (Z.log2_nonneg n). unfold fuel. rewrite Nat2Z.inj_succ, Z2Nat.id by done.
    destruct (decide (n = 0)) as [->|]; [simpl; lia|].
    pose proof (Z.log2_spec n ltac:(lia)) as [_ Hl]. pose proof (Z.pow_le_mono_l 2 10 (Z.succ (Z.log2 n)) ltac:(lia)). lia. }
  destruct (digits_ok fuel n Hb) as [Hd Ha]. split_and!.
  - apply Forall_app. split; [apply Forall_replicate; unfold is_digit; lia|done].
  - intros [_ E]%app_nil. by apply digits_not_nil in E.
  - by rewrite atoi_digits_zeros, Ha.
Qed.

Lemma span_digits_app d rest :
  Forall is_digit d -> (forall c, head rest = Some c -> ~ is_digit c) -> span_digits (d ++ rest) = (d, rest).
Proof.
  unfold is_digit. induction 1 as [|c d Hc _ IH]; intros Hr; simpl.
  - destruct rest as [|c rest]; [done|]. simpl. destruct (Z.leb_spec 48 c), (Z.leb_spec c 57); try done.
    by destruct (Hr c eq_refl).
  - rewrite (proj2 (Z.leb_le 48 c)), (proj2 (Z.leb_le c 57)) by lia. simpl. by rewrite IH.
Qed.

Lemma match_number_ok n rest :
  0 <= n -> (forall c, head rest = Some c -> ~ is_digit c) -> match_number (pct_08d n ++ rest) = Some (n, rest).
Proof.
  intros Hn Hr. destruct (pct_08d_val n Hn) as (Hd & Hne & Hv). unfold match_number.
  rewrite span_digits_app by done. cbn [fst snd]. destruct (pct_08d n); [done|]. by rewrite Hv.
Qed.

Lemma name_to_loc_name d n : 0 <= d -> 0 <= n -> name_to_loc (loc_to_name (d, n)) = Some (d, n).
Proof.
  intros Hd Hn. unfold name_to_loc, loc_to_name. cbn [fst snd].
  rewrite take_app_length', drop_app_length' by done. rewrite bool_decide_eq_true_2 by done. cbn [negb].
  rewrite match_number_ok; [|done|intros c [= <-]; unfold is_digit; lia]. cbn [mbind option_bind fst snd].
  change (take 1 ([45] ++ pct_08d n)) with [45]. rewrite bool_decide_eq_true_2 by done. cbn [negb].
  change (drop 1 ([45] ++ pct_08d n)) with (pct_08d n). rewrite <- (app_nil_r (pct_08d n)).
  by rewrite match_number_ok.
Qed.

Lemma loc_to_name_inj l l' :
  0 <= l.1 -> 0 <= l.2 -> 0 <= l'.1 -> 0 <= l'.2 -> loc_to_name l = loc_to_name l' -> l = l'.
Proof.
  destruct l as [d n], l' as [d' n']. simpl. intros ? ? ? ? E.
  assert (Some (d, n) = Some (d', n')) as [= -> ->]; [|done].
  rewrite <- !name_to_loc_name, E by done. done.
Qed.

Lemma name_has_start d n : has_start (dir_prefix d) (loc_to_name (d, n)) = true.
Proof.
  unfold has_start, dir_prefix, loc_to_name. apply bool_decide_eq_true. cbn [fst snd].
  rewrite <- (take_app_length (log_dash ++ pct_08d d ++ [45]) (pct_08d n)) at 2.
  by rewrite <- !(assoc_L (++)).
Qed.

Lemma sort_names_perm l : foldr insert_name [] l ≡ₚ l.
Proof. induction l as [|a l IH]; [done|]. simpl. by rewrite insert_name_perm, IH. Qed.

Lemma elem_of_names_from p m name :
  name ∈ names_from p m <-> is_Some (m !! name) /\ has_start p name = true.
Proof.
  unfold names_from. rewrite sort_names_perm, list_elem_of_filter, list_elem_of_fmap. split.
  - intros [Hs ([k v] & -> & Hkv%elem_of_map_to_list)]. simpl in *. split; [eauto|]. by apply Is_true_true.
  - intros [[v Hv] Hs]. split; [by apply Is_true_true|]. exists (name, v). split; [done|]. by apply elem_of_map_to_list.
Qed.

Lemma elem_of_listing m d name size :
  (name, size) ∈ listing m d <->
  exists data, m !! name = Some data /\ size = zlen data /\ has_start (dir_prefix d) name = true.
Proof.
  unfold listing. rewrite list_elem_of_fmap. split.
  - intros (n & [= -> ->] & [[data Hd] Hs]%elem_of_names_from). exists data. by rewrite Hd.
  - intros (data & Hd & -> & Hs). exists name. rewrite Hd. split; [done|]. apply elem_of_names_from. eauto.
Qed.

(** With a path, the names that are listed have it, and reading adds it again. *)
Example s3_path_added_twice :
  let b := S3Backend.mk {[ [112; 47] ++ loc_to_name (0, 0) := [1; 2; 3] ]} [112; 47] ∅ ∅ in
  exists name, S3Backend_list 0 b = Ok [(name, 3)] b /\ S3Backend_read name 0 None b = Stop Exception /\ name_to_loc name = None.
Proof. eexists. split_and!; vm_compute; reflexivity. Qed.
