(* ===== verification/CleanRun.v ===== *)
(** * The segment cleaner (src/cleaner/cleaner)

    The cleaner reads the last checkpoint of the file system, deletes the segments
    that nothing refers to any more, and copies what is still in use of the segments
    that are mostly garbage to segments of its own, together with a new checkpoint.
    What it prints is left out.  A recursion follows a list or a number read from
    the data. *)

From S2P Require Import Prelude State LogThread Store Replay CleanItems CleanStore.
From Stdlib Require Import ZArith Lia.
From stdpp Require Import base numbers gmap option list sorting.

Open Scope Z_scope.

Definition CHECKPOINT_MAGIC : bytes := le_bytes 8 0x7ad7dafb42a498b4.
Definition TARGET_SIZE : Z := Z.shiftl 4 20.

Module LogSegment.
Record t := mk {
  location : Z * Z;
  data : list bytes;
}.
End LogSegment.
#[export] Instance LogSegment_eta : Eta LogSegment.t := fun x =>
  LogSegment.mk (LogSegment.location x) (LogSegment.data x).

Module LogDirectory.
Record t := mk {
  dir_num : Z;
  seq_num : Z;
  groups : gmap Z LogSegment.t;
}.
End LogDirectory.
#[export] Instance LogDirectory_eta : Eta LogDirectory.t := fun x =>
  LogDirectory.mk (LogDirectory.dir_num x) (LogDirectory.seq_num x) (LogDirectory.groups x).

(** [InodeMap], with [segments] for the segments of its [UtilizationTracker]: the
    size of each and the bytes in use. *)
Module CleanMap.
Record t := mk {
  version_vector : gmap Z Z;
  checkpoint_record : LogItem.t;
  obsolete_segments : gset (Z * Z);
  vvsize : Z;
  inodes : gmap Z LogItem.t;
  segments : gmap bytes (Z * Z);
  updated_inodes : gset Z;
}.
End CleanMap.
#[export] Instance CleanMap_eta : Eta CleanMap.t := fun x =>
  CleanMap.mk (CleanMap.version_vector x) (CleanMap.checkpoint_record x) (CleanMap.obsolete_segments x)
    (CleanMap.vvsize x) (CleanMap.inodes x) (CleanMap.segments x) (CleanMap.updated_inodes x).

(** The storage and the objects of the program; [rand] counts the identifiers drawn. *)
Record World (B : Type) := mkWorld {
  be : B;
  log_dir : LogDirectory.t;
  inode_map : CleanMap.t;
  rand : Z;
}.
Arguments mkWorld {B} _ _ _ _.
Arguments be {B} _.
Arguments log_dir {B} _.
Arguments inode_map {B} _.
Arguments rand {B} _.
#[export] Instance World_eta {B} : Eta (World B) := fun x => mkWorld (be x) (log_dir x) (inode_map x) (rand x).

(** ** Reading numbers *)

(** [struct.unpack_from("<I", data, offset)]. *)
Definition unpack_u32 (data : bytes) (offset : nat) : option Z :=
  if (offset + 4 <=? length data)%nat then Some (le_val (take 4 (drop offset data))) else None.

Fixpoint vv_loop (vvlen : nat) (data : bytes) (vv : gmap Z Z) : option (gmap Z Z) :=
  match vvlen with
  | O => Some vv
  | S n =>
    v1 ← unpack_u32 data 0; v2 ← unpack_u32 data 4;
    vv_loop n (drop 8 data) (<[v1 := v2]> vv)
  end.

(** The version vector at the start of the data, and its size. *)
Definition read_version_vector (data : bytes) : option (gmap Z Z * Z) :=
  vvlen ← unpack_u32 data 0;
  vv ← vv_loop (Z.to_nat vvlen) (drop 4 data) ∅;
  Some (vv, 4 + 8 * vvlen).

(** The numbers of eight bytes in a string, and the pairs of them. *)
Fixpoint words (n : nat) (data : bytes) : list Z :=
  match n with O => [] | S n => le_val (take 8 data) :: words n (drop 8 data) end.
Fixpoint word_pairs (n : nat) (data : bytes) : list (Z * Z) :=
  match n with
  | O => []
  | S n => (le_val (take 8 data), le_val (take 8 (drop 8 data))) :: word_pairs n (drop 16 data)
  end.
Definition imap_inums (data : bytes) : list Z := words (Nat.div (length data) 8) data.
Definition imap_ranges (data : bytes) : list (Z * Z) := word_pairs (Nat.div (length data) 16) data.

(** Strings and numbers in order. *)
Definition sorted_names (l : list bytes) : list bytes := foldr insert_name [] l.
Definition sorted_numbers (l : list Z) : list Z := merge_sort Z.le l.

Section run.
Context {B : Type} `{Backend B}.
(** What [/dev/urandom] gives. *)
Context (urandom : Z -> bytes).

(** The operations of the storage, and what is caught by [except]. *)
Definition on_backend {A} (m : M B A) : M (World B) A := fun w =>
  match m (be w) with Ok a b => Ok a (w <| be := b |>) | Stop e => Stop e end.
Definition try_except (m : M (World B) unit) : M (World B) unit := fun w =>
  match m w with Stop Exception => Ok tt w | r => r end.

Definition random_id : M (World B) bytes :=
  n ← gets rand;
  modify (fun w => w <| rand ::= Z.add 1 |>);;
  mret (urandom n).

(** ** Writing segments *)

Definition LogSegment_len (s : LogSegment.t) : Z := lsum (fun b => zlen b) (LogSegment.data s).

(** The segment with the item, and the item with its location. *)
Definition LogSegment_write (s : LogSegment.t) (item : LogItem.t) : option (LogSegment.t * LogItem.t) :=
  data ← serialize item;
  let offset := LogSegment_len s in
  Some (s <| LogSegment.data ::= fun l => l ++ [data] |>,
        item <| LogItem.location := Some (CloudPointer.mk (LogSegment.location s).1 (LogSegment.location s).2
                                            offset (zlen data)) |>).

Definition LogSegment_close (s : LogSegment.t) : M (World B) unit :=
  on_backend (backend_write (loc_to_name (LogSegment.location s)) (concat (LogSegment.data s))).

Definition LogDirectory_init (dir : Z) : M (World B) LogDirectory.t :=
  names ← on_backend (backend_list dir);
  let seq_num := foldl (fun seq_num (logname : bytes * Z) =>
    match name_to_loc logname.1 with
    | Some loc => if loc.1 =? dir then Z.max seq_num (loc.2 + 1) else seq_num
    | None => seq_num
    end) 0 names in
  mret (LogDirectory.mk dir seq_num ∅).

Definition open_segment : M (World B) LogSegment.t :=
  l ← gets log_dir;
  modify (fun w => w <| log_dir ::= fun l => l <| LogDirectory.seq_num ::= Z.add 1 |> |>);;
  mret (LogSegment.mk (LogDirectory.dir_num l, LogDirectory.seq_num l) []).

Definition set_group (group : Z) (s : LogSegment.t) : M (World B) unit :=
  modify (fun w => w <| log_dir ::= fun l => l <| LogDirectory.groups ::= <[group := s]> |> |>).
Definition del_group (group : Z) : M (World B) unit :=
  modify (fun w => w <| log_dir ::= fun l => l <| LogDirectory.groups ::= delete group |> |>).

(** [log.write(item, segment_group)], which gives the item its location. *)
Definition LogDirectory_write (item : LogItem.t) (segment_group : Z) : M (World B) LogItem.t :=
  l ← gets log_dir;
  seg ← match LogDirectory.groups l !! segment_group with
        | Some seg => mret seg
        | None => seg ← open_segment; set_group segment_group seg;; mret seg
        end;
  r ← assume Exception (LogSegment_write seg item);
  set_group segment_group r.1;;
  when (TARGET_SIZE <=? LogSegment_len r.1)
    (LogSegment_close r.1;; del_group segment_group);;
  mret r.2.

Definition close_all : M (World B) unit :=
  l ← gets log_dir;
  for_each (map_to_list (LogDirectory.groups l)).*1 (fun k =>
    l ← gets log_dir;
    seg ← assume Exception (LogDirectory.groups l !! k);
    LogSegment_close seg;; del_group k).

(** ** Utilization *)

Definition UtilizationTracker_init : M (World B) (gmap bytes (Z * Z)) :=
  l0 ← on_backend (backend_list 0);
  l1 ← on_backend (backend_list 1);
  mret (foldl (fun m (p : bytes * Z) => <[p.1 := (p.2, 0)]> m) ∅ (l0 ++ l1)).

(** The segment of a location. *)
Definition segment_of (l : CloudPointer.t) : Z * Z := (CloudPointer.directory l, CloudPointer.sequence l).

Definition add_item (segments : gmap bytes (Z * Z)) (location : option CloudPointer.t)
    : option (gmap bytes (Z * Z)) :=
  match location with
  | None => Some segments
  | Some l =>
    let filename := loc_to_name (segment_of l) in
    u ← segments !! filename;
    Some (<[filename := (u.1, u.2 + CloudPointer.size l)]> segments)
  end.

Fixpoint add_links (segments : gmap bytes (Z * Z)) (links : list (bytes * option CloudPointer.t))
    : option (gmap bytes (Z * Z)) :=
  match links with
  | [] => Some segments
  | l :: links => segments ← add_item segments l.2; add_links segments links
  end.

(** ** Reading the log *)

Definition load_item (location : CloudPointer.t) : M (World B) LogItem.t :=
  data ← on_backend (backend_read (loc_to_name (segment_of location)) (CloudPointer.offset location)
                       (Some (CloudPointer.size location)));
  r ← assume Exception (parse_item data);
  item ← assume Exception r;
  mret (item <| LogItem.location := Some location |>).

(** [parse_log(backend.read(log), log)]. *)
Definition read_log (log : bytes) : M (World B) (list LogItem.t) :=
  data ← on_backend (backend_read log 0 None);
  assume Exception (parse_log data (name_to_loc log)).

Definition is_checkpoint (item : LogItem.t) : bool := LogItem.type item =? ITEM_TYPE.CHECKPOINT.

(** [logs] is the list of segments, the last one first. *)
Fixpoint find_checkpoint_record (logs : list (bytes * Z)) : M (World B) (option LogItem.t) :=
  match logs with
  | [] => mret None
  | (log, _) :: logs =>
    items ← read_log log;
    match filter (fun i => is_checkpoint i) (rev items) with
    | item :: _ => mret (Some item)
    | [] => find_checkpoint_record logs
    end
  end.
Definition load_checkpoint_record (directory : Z) : M (World B) (option LogItem.t) :=
  logs ← on_backend (backend_list directory);
  find_checkpoint_record (rev logs).

(** ** The inode map *)

(** The inodes of one block of the map; [acc] is the utilization and the inodes. *)
Fixpoint build_inodes (inums : list Z) (links : list (bytes * option CloudPointer.t))
    (acc : gmap bytes (Z * Z) * gmap Z LogItem.t) : M (World B) (gmap bytes (Z * Z) * gmap Z LogItem.t) :=
  match inums with
  | [] => mret acc
  | inum :: inums =>
    l ← assume Exception (head links);
    location ← assume Exception l.2;
    inode ← load_item location;
    segments ← assume Exception (add_item acc.1 (LogItem.location inode));
    segments ← assume Exception (add_links segments (LogItem.links inode));
    build_inodes inums (tail links) (segments, <[inum := inode]> acc.2)
  end.

Fixpoint build_ranges (ranges : list (Z * Z)) (links : list (bytes * option CloudPointer.t))
    (acc : gmap bytes (Z * Z) * gmap Z LogItem.t) : M (World B) (gmap bytes (Z * Z) * gmap Z LogItem.t) :=
  match ranges with
  | [] => mret acc
  | _ :: ranges =>
    l ← assume Exception (head links);
    location ← assume Exception l.2;
    imap ← load_item location;
    segments ← assume Exception (add_item acc.1 (LogItem.location imap));
    acc ← build_inodes (imap_inums (LogItem.data imap)) (LogItem.links imap) (segments, acc.2);
    build_ranges ranges (tail links) acc
  end.

(** A segment that is not in use is deleted if it is older than the checkpoint.  The
    fraction that is printed is a division by the size. *)
Definition delete_unused (version_vector : gmap Z Z) (s : bytes) (u : Z * Z) : M (World B) unit :=
  check Exception (negb (u.1 =? 0));;
  when (u.2 =? 0)
    (loc ← assume Exception (name_to_loc s);
     try_except
       (v ← assume Exception (version_vector !! loc.1);
        when (loc.2 <? v) (on_backend (backend_delete s)))).

(** [sorted(util.segments.items())]. *)
Definition segment_items (segments : gmap bytes (Z * Z)) : list (bytes * (Z * Z)) :=
  (fun s => (s, default (0, 0) (segments !! s))) <$> sorted_names (map_to_list segments).*1.

Definition InodeMap_build (checkpoint_record : LogItem.t) : M (World B) unit :=
  util ← UtilizationTracker_init;
  util ← assume Exception (add_item util (LogItem.location checkpoint_record));
  let data := LogItem.data checkpoint_record in
  check Exception (bool_decide (take (length CHECKPOINT_MAGIC) data = CHECKPOINT_MAGIC));;
  let data := drop (length CHECKPOINT_MAGIC) data in
  vv ← assume Exception (read_version_vector data);
  location ← assume Exception (LogItem.location checkpoint_record);
  let version_vector := <[CloudPointer.directory location := CloudPointer.sequence location]> vv.1 in
  let data := drop (Z.to_nat vv.2) data in
  acc ← build_ranges (imap_ranges data) (LogItem.links checkpoint_record) (util, ∅);
  for_each (segment_items acc.1) (fun su => delete_unused version_vector su.1 su.2);;
  modify (fun w => w <| inode_map :=
    CleanMap.mk version_vector checkpoint_record ∅ vv.2 acc.2 acc.1 ∅ |>).

(** The entries of a new block of the map. *)
Fixpoint block_entries (inodes : gmap Z LogItem.t) (inums : list Z)
    : option (bytes * list (bytes * option CloudPointer.t)) :=
  match inums with
  | [] => Some ([], [])
  | j :: inums =>
    n ← pack_uint 8 j;
    inode ← inodes !! j;
    r ← block_entries inodes inums;
    Some (n ++ r.1, (LogItem.id inode, LogItem.location inode) :: r.2)
  end.

Definition write_block (start end_ : Z) : M (World B) LogItem.t :=
  m ← gets inode_map;
  let inums := sorted_numbers (filter (fun k => start <= k /\ k <= end_) (map_to_list (CleanMap.inodes m)).*1) in
  id ← random_id;
  e ← assume Exception (block_entries (CleanMap.inodes m) inums);
  LogDirectory_write (new_item ITEM_TYPE.INODE_MAP id e.1 e.2) 2.

(** [while len(updated_inodes) > 0 and updated_inodes[-1] <= end: updated_inodes.pop()];
    the list is kept with its end first. *)
Fixpoint pop_updated (updated_inodes : list Z) (end_ : Z) : list Z :=
  match updated_inodes with
  | [] => []
  | k :: rest => if k <=? end_ then pop_updated rest end_ else updated_inodes
  end.

(** The loop over the ranges: the links of the new checkpoint. *)
Fixpoint write_ranges (ranges : list (Z * Z)) (links : list (bytes * option CloudPointer.t))
    (updated_inodes : list Z) : M (World B) (list (bytes * option CloudPointer.t)) :=
  match ranges with
  | [] => mret []
  | (start, end_) :: ranges =>
    let rewrite :=
      block ← write_block start end_;
      rest ← write_ranges ranges (tail links) (pop_updated updated_inodes end_);
      mret ((LogItem.id block, LogItem.location block) :: rest) in
    if match updated_inodes with [] => true | k :: _ => end_ <? k end then
      l ← assume Exception (head links);
      location ← assume Exception l.2;
      m ← gets inode_map;
      if decide (segment_of location ∈ CleanMap.obsolete_segments m) then rewrite
      else
        rest ← write_ranges ranges (tail links) updated_inodes;
        mret (l :: rest)
    else rewrite
  end.

Fixpoint pack_vv (vv : list (Z * Z)) : option bytes :=
  match vv with
  | [] => Some []
  | (d, v) :: vv => a ← pack_uint 4 d; b ← pack_uint 4 v; r ← pack_vv vv; Some (a ++ b ++ r)
  end.

(** The version vector as it is stored. *)
Definition version_vector_bytes (vv : gmap Z Z) : option bytes :=
  n ← pack_uint 4 (Z.of_nat (size vv));
  r ← pack_vv ((fun d => (d, default 0 (vv !! d))) <$> sorted_numbers (map_to_list vv).*1);
  Some (n ++ r).

Definition InodeMap_write : M (World B) unit :=
  m ← gets inode_map;
  let updated_inodes := sorted_numbers (elements (CleanMap.updated_inodes m)) in
  id ← random_id;
  vv ← assume Exception (version_vector_bytes (CleanMap.version_vector m));
  let data := drop (Z.to_nat (CleanMap.vvsize m + zlen CHECKPOINT_MAGIC)) (LogItem.data (CleanMap.checkpoint_record m)) in
  links ← write_ranges (imap_ranges data) (LogItem.links (CleanMap.checkpoint_record m)) updated_inodes;
  let ranges := take (16 * Nat.div (length data) 16) data in
  new_checkpoint ← LogDirectory_write
    (new_item ITEM_TYPE.CHECKPOINT id (CHECKPOINT_MAGIC ++ vv ++ ranges) links) 2;
  modify (fun w => w <| inode_map ::= fun m => m <| CleanMap.checkpoint_record := new_checkpoint |> |>).

(** ** Cleaning *)

Fixpoint copy_links (links : list (bytes * option CloudPointer.t)) : M (World B) (list (bytes * option CloudPointer.t)) :=
  match links with
  | [] => mret []
  | l :: links =>
    l' ← match l.2 with
         | Some location =>
           data ← load_item location;
           data ← LogDirectory_write data 0;
           mret (LogItem.id data, LogItem.location data)
         | None => mret l
         end;
    rest ← copy_links links;
    mret (l' :: rest)
  end.

(** The inode is an object of the map: what is set here is seen there. *)
Definition rewrite_inode (inum : Z) (copy_data : bool) : M (World B) unit :=
  m ← gets inode_map;
  inode ← assume Exception (CleanMap.inodes m !! inum);
  inode ← (if copy_data then
             newlinks ← copy_links (LogItem.links inode);
             mret (inode <| LogItem.links := newlinks |>)
           else mret inode);
  inode ← LogDirectory_write inode 1;
  modify (fun w => w <| inode_map ::= fun m => m <| CleanMap.inodes ::= <[inum := inode]> |>
                                                 <| CleanMap.updated_inodes ::= union {[inum]} |> |>).

(** Less than six tenths are in use, but something is.  The quotient of floating
    point numbers is compared with 0.6, which is exact for sizes below [2 ^ 50]. *)
Definition poorly_utilized (u : Z * Z) : bool := (5 * u.2 <? 3 * u.1) && (0 <? u.2).

Fixpoint find_obsolete (segments : list (bytes * (Z * Z))) : option (gset (Z * Z)) :=
  match segments with
  | [] => Some ∅
  | (s, u) :: segments =>
    if u.1 =? 0 then None else
    r ← find_obsolete segments;
    if poorly_utilized u then loc ← name_to_loc s; Some ({[loc]} ∪ r) else Some r
  end.

(** The inodes that have to be written again for one item of segment [s]: those
    that are in it, and those with data in it. *)
Definition scan_item (inodes : gmap Z LogItem.t) (s : Z * Z) (acc : gset Z * gset Z) (item : LogItem.t)
    : option (gset Z * gset Z) :=
  if ((LogItem.type item =? ITEM_TYPE.DATA) || (LogItem.type item =? ITEM_TYPE.INODE)) && negb (LogItem.inum item =? 0)
  then
    inode ← inodes !! LogItem.inum item;
    location ← LogItem.location inode;
    let dirty_inodes := if bool_decide (s = segment_of location) then {[LogItem.inum item]} ∪ acc.1 else acc.1 in
    let has_data := existsb (fun b : bytes * option CloudPointer.t =>
      match b.2 with Some l => bool_decide (s = segment_of l) | None => false end) (LogItem.links inode) in
    Some (dirty_inodes, if has_data then {[LogItem.inum item]} ∪ acc.2 else acc.2)
  else Some acc.

Fixpoint scan_items (inodes : gmap Z LogItem.t) (s : Z * Z) (acc : gset Z * gset Z) (items : list LogItem.t)
    : option (gset Z * gset Z) :=
  match items with
  | [] => Some acc
  | item :: items => acc ← scan_item inodes s acc item; scan_items inodes s acc items
  end.

(** The order of the segments in the set does not matter: sets are collected. *)
Fixpoint scan_segments (inodes : gmap Z LogItem.t) (segments : list (Z * Z)) (acc : gset Z * gset Z)
    : M (World B) (gset Z * gset Z) :=
  match segments with
  | [] => mret acc
  | s :: segments =>
    items ← read_log (loc_to_name s);
    acc ← assume Exception (scan_items inodes s acc items);
    scan_segments inodes segments acc
  end.

Definition run_cleaner (repack_inodes : bool) : M (World B) unit :=
  m ← gets inode_map;
  obsolete ← assume Exception (find_obsolete (segment_items (CleanMap.segments m)));
  modify (fun w => w <| inode_map ::= fun m => m <| CleanMap.obsolete_segments ::= union obsolete |> |>);;
  m ← gets inode_map;
  let dirty_inodes := if repack_inodes then dom (CleanMap.inodes m) else ∅ in
  dirty ← scan_segments (CleanMap.inodes m) (elements (CleanMap.obsolete_segments m)) (dirty_inodes, ∅);
  for_each (sorted_numbers (elements (dirty.1 ∪ dirty.2))) (fun i =>
    rewrite_inode i (bool_decide (i ∈ dirty.2))).

(** ** The program *)

(** The result tells whether segments were cleaned: the file system first has to
    take over the result of the last run. *)
Definition main : M (World B) bool :=
  chkpt ← load_checkpoint_record 0;
  log ← LogDirectory_init 1;
  modify (fun w => w <| log_dir := log |>);;
  chkpt ← assume Exception chkpt;
  InodeMap_build chkpt;;
  m ← gets inode_map;
  if negb (default (-1) (CleanMap.version_vector m !! 1) =? LogDirectory.seq_num log - 1) then mret false else
  run_cleaner false;;
  InodeMap_write;;
  close_all;;
  mret true.
End run.
