(* ===== verification/CleanView.v ===== *)
(** * What the segment cleaner relies on (src/cleaner/cleaner)

    The state of the cleaner up to the implementation of its storage, with rules for
    running its operations; items in the objects of the storage; and what it takes
    for a checkpoint to describe a file system ([store_ok]). *)

From S2P Require Import Prelude State Serialize RoundtripItem Crypto LogThread Store Replay NameOrder CleanItems CleanStore CleanRun.
From Stdlib Require Import ZArith Lia Sorted.
From stdpp Require Import base numbers gmap option list sorting.

Open Scope Z_scope.

(** ** The state up to the storage *)

Record View := mkView {
  objs : gmap bytes bytes;
  vlog : LogDirectory.t;
  vimap : CleanMap.t;
  vrand : Z;
}.
#[export] Instance View_eta : Eta View := fun x => mkView (objs x) (vlog x) (vimap x) (vrand x).

Section view.
Context {B : Type} `{BackendSpec B}.

Definition view (w : World B) : View := mkView (objects (be w)) (log_dir w) (inode_map w) (rand w).

(** [m] ends without exception, with [Q], whatever the storage is that holds the
    objects of [v]. *)
Definition wpv {A} (m : M (World B) A) (v : View) (Q : A -> View -> Prop) : Prop :=
  forall w, backend_ok (be w) -> view w = v -> wp m w (fun a w' => backend_ok (be w') /\ Q a (view w')).

Lemma wpv_ret {A} (a : A) v (Q : A -> View -> Prop) : Q a v -> wpv (mret a) v Q.
Proof. intros HQ w Hw <-. by wp_step. Qed.

Lemma wpv_bind {A C} (m : M (World B) A) (k : A -> M (World B) C) v Q :
  wpv m v (fun a v' => wpv (k a) v' Q) -> wpv (m ≫= k) v Q.
Proof.
  intros Hm w Hw Hv. wp_step. eapply wp_mono; [by apply Hm|]. intros a w' [Hw' Hk]. by apply Hk.
Qed.

Lemma wpv_mono {A} (m : M (World B) A) v (P Q : A -> View -> Prop) :
  wpv m v P -> (forall a v', P a v' -> Q a v') -> wpv m v Q.
Proof. intros Hm HPQ w Hw Hv. eapply wp_mono; [by apply Hm|]. intros a w' [? ?]. auto. Qed.

Lemma wpv_assume {A} e (o : option A) a v (Q : A -> View -> Prop) : o = Some a -> Q a v -> wpv (assume e o) v Q.
Proof. intros -> HQ w Hw <-. by wp_step. Qed.

Lemma wpv_check e b v (Q : unit -> View -> Prop) : b = true -> Q tt v -> wpv (check e b) v Q.
Proof. intros -> HQ w Hw <-. by wp_step. Qed.

Lemma wpv_log v (Q : LogDirectory.t -> View -> Prop) : Q (vlog v) v -> wpv (gets log_dir) v Q.
Proof. intros HQ w Hw <-. by wp_step. Qed.
Lemma wpv_map v (Q : CleanMap.t -> View -> Prop) : Q (vimap v) v -> wpv (gets inode_map) v Q.
Proof. intros HQ w Hw <-. by wp_step. Qed.
Lemma wpv_set_log f v (Q : unit -> View -> Prop) :
  Q tt (v <| vlog ::= f |>) -> wpv (modify (fun w => w <| log_dir ::= f |>)) v Q.
Proof. intros HQ w Hw <-. by wp_step. Qed.
Lemma wpv_set_map f v (Q : unit -> View -> Prop) :
  Q tt (v <| vimap ::= f |>) -> wpv (modify (fun w => w <| inode_map ::= f |>)) v Q.
Proof. intros HQ w Hw <-. by wp_step. Qed.

Lemma wpv_random urandom v (Q : bytes -> View -> Prop) :
  Q (urandom (vrand v)) (v <| vrand ::= Z.add 1 |>) -> wpv (random_id urandom) v Q.
Proof. intros HQ w Hw <-. unfold random_id. do 5 wp_step. done. Qed.

Lemma wp_on_backend {A} (m : M B A) w (Q : A -> World B -> Prop) :
  wp m (be w) (fun a b => Q a (w <| be := b |>)) -> wp (on_backend m) w Q.
Proof. unfold wp, on_backend. by destruct (m (be w)). Qed.

Lemma wpv_list d v (Q : list (bytes * Z) -> View -> Prop) :
  Q (listing (objs v) d) v -> wpv (on_backend (backend_list d)) v Q.
Proof.
  intros HQ w Hw <-. apply wp_on_backend. eapply wp_mono; [by apply list_ok|]. intros r b (Hb & E & ->).
  split; [done|]. unfold view. simpl. by rewrite E.
Qed.

Lemma wpv_read name offset n data v (Q : bytes -> View -> Prop) :
  objs v !! name = Some data -> 0 <= offset -> Q (part data offset n) v ->
  wpv (on_backend (backend_read name offset n)) v Q.
Proof.
  intros Hd Ho HQ w Hw <-. apply wp_on_backend. eapply wp_mono; [by apply read_ok|]. intros r b (Hb & E & ->).
  split; [done|]. unfold view. simpl. by rewrite E.
Qed.

Lemma wpv_write name data v (Q : unit -> View -> Prop) :
  Q tt (v <| objs ::= <[name := data]> |>) -> wpv (on_backend (backend_write name data)) v Q.
Proof.
  intros HQ w Hw <-. apply wp_on_backend. eapply wp_mono; [by apply write_ok|]. intros r b (Hb & E).
  split; [done|]. unfold view. simpl. rewrite E. by destruct r.
Qed.

Lemma wpv_delete name v (Q : unit -> View -> Prop) :
  is_Some (objs v !! name) -> Q tt (v <| objs ::= delete name |>) -> wpv (on_backend (backend_delete name)) v Q.
Proof.
  intros Hn HQ w Hw <-. apply wp_on_backend. eapply wp_mono; [by apply delete_ok|]. intros r b (Hb & E).
  split; [done|]. unfold view. simpl. rewrite E. by destruct r.
Qed.

Lemma wpv_try m v (Q : unit -> View -> Prop) : wpv m v Q -> wpv (try_except m) v Q.
Proof. intros Hm w Hw Hv. specialize (Hm w Hw Hv). unfold wp, try_except in *. by destruct (m w). Qed.

Lemma wpv_when b (m : M (World B) unit) v (Q : unit -> View -> Prop) :
  (b = true -> wpv m v Q) -> (b = false -> Q tt v) -> wpv (when b m) v Q.
Proof. intros H1 H2. destruct b; [by apply H1|]. by apply wpv_ret, H2. Qed.
End view.

(** One step of a program of the cleaner. *)
Ltac wpv_step :=
  lazymatch goal with
  | |- wpv (_ ≫= _) _ _ => apply wpv_bind
  | |- wpv (mret _) _ _ => apply wpv_ret
  | |- wpv (gets log_dir) _ _ => apply wpv_log
  | |- wpv (gets inode_map) _ _ => apply wpv_map
  | |- wpv (assume _ _) _ _ => eapply wpv_assume
  | |- wpv (check _ _) _ _ => apply wpv_check
  | |- wpv (modify (fun w => w <| log_dir ::= _ |>)) _ _ => apply wpv_set_log
  | |- wpv (modify (fun w => w <| inode_map ::= _ |>)) _ _ => apply wpv_set_map
  | |- wpv (random_id _) _ _ => apply wpv_random
  | |- wpv (on_backend (backend_list _)) _ _ => apply wpv_list
  end.

(** ** Items in segments *)

(** The item is found at the location by reading the segment from its start. *)
Definition listed (data : bytes) (loc : CloudPointer.t) (it : LogItem.t) : Prop :=
  exists its, parse_log data (Some (segment_of loc)) = Some its /\ it ∈ its /\ LogItem.location it = Some loc.

Lemma parse_item_location b it : parse_item b = Some (Some it) -> LogItem.location it = None /\ HEADER_SIZE <= zlen b.
Proof.
  unfold parse_item. destruct (Z.ltb_spec (zlen b) HEADER_SIZE); [done|]. destruct (Header.magic_ok _); [|done]. cbn [negb].
  destruct (zlen b =? _); [|done]. cbn [negb]. destruct (chr _); [|done]. cbn [mbind option_bind].
  destruct (parse_links _ _ _); [|done]. cbn [mbind option_bind]. by intros [= <-].
Qed.

(** The slice of a segment that an item takes. *)
Definition item_slice (data : bytes) (loc : CloudPointer.t) (it : LogItem.t) : Prop :=
  LogItem.location it = Some loc /\ 0 <= CloudPointer.offset loc /\ HEADER_SIZE <= CloudPointer.size loc /\
  CloudPointer.offset loc + CloudPointer.size loc <= zlen data /\
  parse_item (part data (CloudPointer.offset loc) (Some (CloudPointer.size loc)))
  = Some (Some (it <| LogItem.location := None |>)).

Lemma parse_log_loop_elem fuel data d n offset its it :
  0 <= offset -> parse_log_loop fuel data (Some (d, n)) offset = Some its -> it ∈ its ->
  exists loc, segment_of loc = (d, n) /\ item_slice data loc it.
Proof.
  revert offset its. induction fuel as [|fuel IH]; intros offset its Ho; cbn [parse_log_loop];
    (destruct (Z.ltb_spec (zlen data - offset) HEADER_SIZE) as [|Hlen]; [intros [= <-] Hit; by apply not_elem_of_nil in Hit|]); [done|].
  set (h := Header.unpack _). set (size := Header.item_size h).
  destruct (Header.magic_ok h); [|intros [= <-] Hit; by apply not_elem_of_nil in Hit]. cbn [negb].
  destruct (Z.ltb_spec (zlen data) (size + offset)) as [|Hfit]; [intros [= <-] Hit; by apply not_elem_of_nil in Hit|].
  destruct (parse_item _) as [[i|]|] eqn:Hp; [|done..]. cbn [mbind option_bind].
  destruct (parse_log_loop fuel data _ _) as [rest|] eqn:Hr; [|done]. cbn [mbind option_bind]. intros [= <-] Hit.
  destruct (parse_item_location _ _ Hp) as [Hi Hs]. unfold substr in Hs. rewrite length_take in Hs.
  assert (Hsz : HEADER_SIZE <= size) by (unfold HEADER_SIZE in *; lia). unfold HEADER_SIZE in Hsz.
  apply elem_of_cons in Hit as [->|Hit].
  - exists (CloudPointer.mk d n offset size). split; [done|]. split_and!; [done|done|done|simpl; lia|].
    unfold part. cbn [CloudPointer.offset CloudPointer.size]. unfold substr in Hp.
    replace (offset + size - offset) with size in Hp by lia. rewrite Hp. do 2 f_equal. destruct i; simpl in *. by subst.
  - by apply (IH (offset + size) rest); [lia|..].
Qed.

Lemma listed_slice data loc it : listed data loc it -> item_slice data loc it.
Proof.
  intros (its & Hp & Hit & Hl). unfold segment_of in Hp.
  destruct (parse_log_loop_elem _ _ _ _ 0 its it ltac:(lia) Hp Hit) as (loc' & _ & Hs).
  destruct Hs as (Hl' & Hs). assert (loc' = loc) as -> by congruence. by split.
Qed.

Lemma listed_inj data loc it it' : listed data loc it -> listed data loc it' -> it = it'.
Proof.
  intros (Hl & _ & _ & _ & Hp)%listed_slice (Hl' & _ & _ & _ & Hp')%listed_slice.
  rewrite Hp in Hp'. injection Hp' as E. destruct it, it'; simpl in *. congruence.
Qed.

(** The item at a location of the directories of the file system and the cleaner. *)
Definition in_objs (m : gmap bytes bytes) (loc : CloudPointer.t) (it : LogItem.t) : Prop :=
  (CloudPointer.directory loc = 0 \/ CloudPointer.directory loc = 1) /\ pointer_wf loc /\
  exists data, m !! loc_to_name (segment_of loc) = Some data /\ listed data loc it.

Lemma in_objs_inj m loc it it' : in_objs m loc it -> in_objs m loc it' -> it = it'.
Proof. intros (_ & _ & d & Hd & Hl) (_ & _ & d' & Hd' & Hl'). simplify_eq. by eapply listed_inj. Qed.

Lemma in_objs_location m loc it : in_objs m loc it -> LogItem.location it = Some loc.
Proof. by intros (_ & _ & data & _ & its & _ & _ & Hl). Qed.

Lemma in_objs_mono m m' loc it : m ⊆ m' -> in_objs m loc it -> in_objs m' loc it.
Proof. intros Hm (? & ? & data & Hd & Hl). split_and!; [done..|]. exists data. split; [|done]. by eapply lookup_weaken. Qed.

(** ** A file system in the storage *)

(** The link leads to the item. *)
Definition link_to (m : gmap bytes bytes) (l : bytes * option CloudPointer.t) (it : LogItem.t) : Prop :=
  exists loc, l = (LogItem.id it, Some loc) /\ in_objs m loc it.

(** A block of the inode map, for a range of numbers: the inodes of [T]. *)
Definition block_ok (m : gmap bytes bytes) (T : gmap Z LogItem.t) (r : Z * Z) (block : LogItem.t) : Prop :=
  Forall2 (fun inum l => r.1 <= inum <= r.2 /\ exists it, T !! inum = Some it /\ link_to m l it)
    (imap_inums (LogItem.data block)) (LogItem.links block).

(** The inode and its data carry its number and are of the right type. *)
Definition data_ok (m : gmap bytes bytes) (inum : Z) (l : bytes * option CloudPointer.t) : Prop :=
  l.2 = None \/ exists d, link_to m l d /\ LogItem.inum d = inum /\ LogItem.type d = ITEM_TYPE.DATA.
Definition inode_ok (m : gmap bytes bytes) (inum : Z) (it : LogItem.t) : Prop :=
  inum <> 0 /\ LogItem.inum it = inum /\ LogItem.type it = ITEM_TYPE.INODE /\ Forall (data_ok m inum) (LogItem.links it).

(** Items of files in a segment belong to inodes of [T]. *)
Definition known_item (T : gmap Z LogItem.t) (it : LogItem.t) : Prop :=
  LogItem.type it = ITEM_TYPE.DATA \/ LogItem.type it = ITEM_TYPE.INODE -> LogItem.inum it <> 0 ->
  is_Some (T !! LogItem.inum it).

(** The parts of the data of a checkpoint: the version vector and the ranges. *)
Definition checkpoint_data (chk : LogItem.t) (vvb rb : bytes) (vv : gmap Z Z) : Prop :=
  LogItem.data chk = CHECKPOINT_MAGIC ++ vvb ++ rb /\ read_version_vector (vvb ++ rb) = Some (vv, zlen vvb) /\
  Nat.modulo (length rb) 16 = 0%nat.

(** [chk] is a checkpoint whose inodes are those of [T], and the segments are those
    of such a file system. *)
Record store_ok (m : gmap bytes bytes) (chk : LogItem.t) (T : gmap Z LogItem.t) : Prop := {
  so_bytes : forall name data, m !! name = Some data -> are_bytes data;
  so_segments : forall d name data, d = 0 \/ d = 1 -> m !! name = Some data -> has_start (dir_prefix d) name = true ->
    data <> [] /\ exists n its, 0 <= n /\ name = loc_to_name (d, n) /\ parse_log data (Some (d, n)) = Some its /\
      Forall (known_item T) its;
  so_here : exists loc, in_objs m loc chk;
  so_table : exists vvb rb vv, checkpoint_data chk vvb rb vv /\
    StronglySorted (fun r r' : Z * Z => r.2 < r'.1) (imap_ranges rb) /\
    Forall2 (fun r l => exists block, link_to m l block /\ block_ok m T r block) (imap_ranges rb) (LogItem.links chk);
  so_complete : forall k it, T !! k = Some it -> exists l block, l ∈ LogItem.links chk /\ link_to m l block /\
    k ∈ imap_inums (LogItem.data block);
  so_inodes : forall k it, T !! k = Some it -> inode_ok m k it;
}.
