(* ===== verification/CleanLog.v ===== *)
(** * Writing items in the segment cleaner

    [LogDirectory.write] of src/cleaner/cleaner: items that were written are found
    at the locations they got, whether their segment was closed or is still open, and
    nothing that was in the log is lost. *)

From S2P Require Import Prelude State Serialize RoundtripItem Crypto LogThread Store Replay NameOrder CleanItems CleanStore CleanRun CleanView.
From Stdlib Require Import ZArith Lia Sorted.
From stdpp Require Import base numbers gmap option list sorting.

Open Scope Z_scope.

(** The bytes of an item. *)
Definition item_bytes (it : LogItem.t) : bytes := CloudItem.encode (cloud_item it).

Lemma concat_items its : concat (item_bytes <$> its) = segment_bytes its.
Proof. induction its as [|it its IH]; [done|]. rewrite fmap_cons. cbn [concat]. by rewrite IH. Qed.

Lemma lsum_items its : lsum (fun b : bytes => zlen b) (item_bytes <$> its) = zlen (segment_bytes its).
Proof.
  induction its as [|it its IH]; [done|]. rewrite segment_bytes_cons, length_app, fmap_cons.
  unfold lsum in *. cbn [foldr]. rewrite IH. unfold item_bytes. lia.
Qed.

Lemma located_app d n off l1 l2 :
  located d n off (l1 ++ l2) = located d n off l1 ++ located d n (off + zlen (segment_bytes l1)) l2.
Proof.
  revert off. induction l1 as [|it l1 IH]; intros off; simpl; [f_equal; lia|]. rewrite IH, segment_bytes_cons, length_app.
  unfold item_size, CloudItem.size. do 3 f_equal. lia.
Qed.

Lemma elem_of_located d n off its it :
  it ∈ located d n off its -> exists it0 o, it0 ∈ its /\ it = place d n o it0.
Proof.
  revert off. induction its as [|i its IH]; intros off; simpl; [by intros ?%not_elem_of_nil|].
  intros [->|(it0 & o & ? & ->)%IH]%elem_of_cons; [|by exists it0, o; split; [by right|]].
  exists i, off. split; [by left|done].
Qed.

(** Every item of a file belongs to an inode of [T], and can be written. *)
Definition new_ok (T : gmap Z LogItem.t) (it : LogItem.t) : Prop := writable it /\ known_item T it.

(** The state of the log after some writes: [base] are the objects there were, and
    [seq0] is the first number of a new segment. *)
Section log.
Context (base : gmap bytes bytes) (seq0 : Z) (T : gmap Z LogItem.t).

(** An open segment holds some items; it is not stored yet. *)
Definition open_ok (v : View) (s : LogSegment.t) : Prop :=
  exists n its, LogSegment.location s = (1, n) /\ seq0 <= n < LogDirectory.seq_num (vlog v) /\
    LogSegment.data s = item_bytes <$> its /\ Forall (new_ok T) its /\ objs v !! loc_to_name (1, n) = None.

Record log_wf (v : View) : Prop := {
  lw_dir : LogDirectory.dir_num (vlog v) = 1;
  lw_seq0 : 0 <= seq0;
  lw_seq : seq0 <= LogDirectory.seq_num (vlog v);
  lw_base : base ⊆ objs v;
  lw_fresh : forall n, LogDirectory.seq_num (vlog v) <= n -> objs v !! loc_to_name (1, n) = None;
  lw_groups : forall g s, LogDirectory.groups (vlog v) !! g = Some s -> open_ok v s;
  lw_distinct : forall g g' s s', LogDirectory.groups (vlog v) !! g = Some s ->
    LogDirectory.groups (vlog v) !! g' = Some s' -> LogSegment.location s = LogSegment.location s' -> g = g';
  lw_new : forall name data, objs v !! name = Some data -> base !! name = None ->
    exists n its, name = loc_to_name (1, n) /\ seq0 <= n /\ its <> [] /\ data = segment_bytes its /\ Forall (new_ok T) its;
}.

(** Between writes no open segment is empty or large enough to be closed. *)
Definition settled (v : View) : Prop :=
  forall g s, LogDirectory.groups (vlog v) !! g = Some s ->
    LogSegment.data s <> [] /\ LogSegment_len s < TARGET_SIZE.

(** What is in the log under a name: stored or in an open segment. *)
Definition stored (v : View) (name data : bytes) : Prop :=
  objs v !! name = Some data \/
  exists g s, LogDirectory.groups (vlog v) !! g = Some s /\ loc_to_name (LogSegment.location s) = name /\
    concat (LogSegment.data s) = data.

Definition in_log (v : View) (loc : CloudPointer.t) (it : LogItem.t) : Prop :=
  (CloudPointer.directory loc = 0 \/ CloudPointer.directory loc = 1) /\ pointer_wf loc /\
  exists data, stored v (loc_to_name (segment_of loc)) data /\ listed data loc it.

(** Nothing is lost. *)
Definition keeps_log (v v' : View) : Prop := forall loc it, in_log v loc it -> in_log v' loc it.

Lemma in_log_stored v v' : (forall name data, stored v name data -> stored v' name data) -> keeps_log v v'.
Proof. intros Hs loc it (? & ? & data & Hd & Hl). split_and!; [done..|]. eauto. Qed.

(** ** Opening, appending, closing *)

Definition opened_segment (g : Z) (v : View) : View :=
  v <| vlog ::= fun l => l <| LogDirectory.seq_num ::= Z.add 1 |> |>
    <| vlog ::= fun l => l <| LogDirectory.groups ::= <[g := LogSegment.mk (1, LogDirectory.seq_num (vlog v)) []]> |> |>.

Lemma open_segment_wf v g :
  log_wf v -> LogDirectory.groups (vlog v) !! g = None ->
  log_wf (opened_segment g v) /\ keeps_log v (opened_segment g v).
Proof.
  intros W Hg. split.
  - destruct W as [Hd H0 Hs Hb Hf Hgr Hdi Hn]. split; simpl; try done.
    + lia.
    + intros n Hle. apply Hf. lia.
    + intros g' s. destruct (decide (g' = g)) as [->|Hne].
      * rewrite lookup_insert_eq. intros [= <-]. exists (LogDirectory.seq_num (vlog v)), []. simpl.
        split_and!; [done|lia|lia|done|done|apply Hf; lia].
      * rewrite lookup_insert_ne by done. intros (n & its & ? & ? & ? & ? & ?)%Hgr. exists n, its. simpl. split_and!; try done; lia.
    + intros g1 g2 s1 s2. destruct (decide (g1 = g)) as [->|H1], (decide (g2 = g)) as [->|H2]; [done|..].
      * rewrite lookup_insert_eq, lookup_insert_ne by done. intros [= <-] (n & ? & -> & ? & _)%Hgr. simpl. intros [= <-]. lia.
      * rewrite lookup_insert_eq, lookup_insert_ne by done. intros (n & ? & -> & ? & _)%Hgr [= <-]. simpl. intros [= ->]. lia.
      * rewrite !lookup_insert_ne by done. apply Hdi.
  - apply in_log_stored. intros name data [Hd|(g' & s & Hg' & ? & ?)]; [by left|]. right. exists g', s. simpl.
    rewrite lookup_insert_ne by congruence. done.
Qed.

(** The place of an item that is appended to a segment. *)
Definition next_place (s : LogSegment.t) (it : LogItem.t) : CloudPointer.t :=
  CloudPointer.mk (LogSegment.location s).1 (LogSegment.location s).2 (LogSegment_len s) (item_size it).
Definition appended (g : Z) (s : LogSegment.t) (it : LogItem.t) (v : View) : View :=
  v <| vlog ::= fun l => l <| LogDirectory.groups ::= <[g := s <| LogSegment.data ::= fun l => l ++ [item_bytes it] |>]> |> |>.

Lemma append_listed n its it loc x :
  Forall writable (its ++ [it]) -> segment_of loc = (1, n) ->
  listed (segment_bytes its) loc x -> listed (segment_bytes (its ++ [it])) loc x.
Proof.
  intros Hw Hs (l & Hp & Hx & Hl). rewrite Hs in Hp. apply Forall_app in Hw as Hw'. destruct Hw' as [Hw' _].
  rewrite parse_log_ok in Hp by done. injection Hp as <-. exists (located 1 n 0 (its ++ [it])).
  rewrite Hs, parse_log_ok by done. split_and!; [done| |done]. rewrite located_app. apply elem_of_app. by left.
Qed.

Lemma append_wf v g s it :
  log_wf v -> LogDirectory.groups (vlog v) !! g = Some s -> new_ok T it -> pointer_wf (next_place s it) ->
  log_wf (appended g s it v) /\ keeps_log v (appended g s it v) /\
  in_log (appended g s it v) (next_place s it) (it <| LogItem.location := Some (next_place s it) |>).
Proof.
  intros W Hg Hnew Hp. destruct (lw_groups _ W _ _ Hg) as (n & its & El & Hn & Ed & Hits & Hnone).
  assert (Hw : Forall writable (its ++ [it])).
  { apply Forall_app. split; [|constructor; [apply Hnew|done]]. eapply Forall_impl; [exact Hits|]. by intros x []. }
  set (s' := s <| LogSegment.data ::= fun l => l ++ [item_bytes it] |>).
  assert (Ed' : LogSegment.data s' = item_bytes <$> its ++ [it]) by (simpl; by rewrite Ed, fmap_app).
  split_and!.
  - destruct W as [Hd H0 Hs Hb Hf Hgr Hdi Hnn]. split; simpl; try done.
    + intros g' s1. destruct (decide (g' = g)) as [->|Hne].
      * rewrite lookup_insert_eq. intros [= <-]. exists n, (its ++ [it]). split; [done|]. split; [done|]. split; [done|]. split; [|done].
        apply Forall_app. split; [done|]. by apply Forall_singleton.
      * rewrite lookup_insert_ne by done. apply Hgr.
    + intros g1 g2 s1 s2. destruct (decide (g1 = g)) as [->|H1], (decide (g2 = g)) as [->|H2]; [done|..].
      * rewrite lookup_insert_eq, lookup_insert_ne by done. intros [= <-] ?. by apply (Hdi g g2 s s2).
      * rewrite lookup_insert_eq, lookup_insert_ne by done. intros ? [= <-]. by apply (Hdi g1 g s1 s).
      * rewrite !lookup_insert_ne by done. apply Hdi.
  - intros loc x (Hdir & Hlw & data & [Hobj|(g' & s1 & Hg' & En & Econ)] & Hl); (split_and!; [done..|]).
    { exists data. split; [by left|done]. }
    destruct (decide (g' = g)) as [->|Hne].
    + assert (s1 = s) as -> by congruence. subst data. exists (concat (LogSegment.data s')). split.
      * right. exists g, s'. split_and!; [apply lookup_insert_eq|done|done].
      * rewrite El in En. pose proof (lw_seq0 _ W). pose proof Hlw as (Hw1 & Hw2 & _). unfold is_u in Hw1, Hw2.
        apply loc_to_name_inj in En; [|unfold segment_of; simpl; lia..].
        rewrite Ed', concat_items. apply (append_listed n); [done..|]. by rewrite <- concat_items, <- Ed.
    + exists data. split; [|done]. right. exists g', s1. simpl. by rewrite lookup_insert_ne.
  - split_and!; [right; simpl; by rewrite El|done|]. exists (concat (LogSegment.data s')). split.
    + right. exists g, s'. split_and!; [apply lookup_insert_eq| |done]. unfold next_place, segment_of. cbn [CloudPointer.directory CloudPointer.sequence]. change (LogSegment.location s') with (LogSegment.location s). by rewrite El.
    + rewrite Ed', concat_items. exists (located 1 n 0 (its ++ [it])). unfold next_place. rewrite El.
      split_and!; [by apply (parse_log_ok (its ++ [it]) 1 n)| |done]. rewrite located_app. apply elem_of_app. right.
      simpl. apply list_elem_of_singleton. unfold place, LogSegment_len. by rewrite Ed, lsum_items, Z.add_0_l.
Qed.

Definition closed (g : Z) (s : LogSegment.t) (v : View) : View :=
  v <| objs ::= <[loc_to_name (LogSegment.location s) := concat (LogSegment.data s)]> |>
    <| vlog ::= fun l => l <| LogDirectory.groups ::= delete g |> |>.

Lemma close_wf v g s :
  log_wf v -> LogDirectory.groups (vlog v) !! g = Some s -> LogSegment.data s <> [] ->
  log_wf (closed g s v) /\ keeps_log v (closed g s v).
Proof.
  intros W Hg Hne. destruct (lw_groups _ W _ _ Hg) as (n & its & El & Hn & Ed & Hits & Hnone).
  pose proof W as [Hd H0 Hs Hb Hf Hgr Hdi Hnn]. split.
  - split; simpl; try done; rewrite ?El.
    + etransitivity; [exact Hb|]. by apply insert_subseteq.
    + intros n' Hn'. rewrite lookup_insert_ne; [by apply Hf|]. intros E. apply loc_to_name_inj in E; simpl in *; [|lia..].
      injection E as ->. lia.
    + intros g' s' (Hne' & Hg')%lookup_delete_Some. destruct (Hgr _ _ Hg') as (n' & its' & El' & ? & ? & ? & ?).
      exists n', its'. split; [done|]. split; [done|]. split; [done|]. split; [done|].
      change (<[loc_to_name (LogSegment.location s) := concat (LogSegment.data s)]> (objs v) !! loc_to_name (1, n') = None).
      rewrite El, lookup_insert_ne; [done|].
      intros E. apply loc_to_name_inj in E; simpl in *; [|lia..]. apply Hne'. apply (Hdi _ _ _ _ Hg Hg'). congruence.
    + intros g1 g2 s1 s2 [_ H1]%lookup_delete_Some [_ H2]%lookup_delete_Some. by apply Hdi.
    + intros name data. destruct (decide (name = loc_to_name (1, n))) as [->|Hname].
      * rewrite lookup_insert_eq. intros [= <-] _. exists n, its. split_and!; [done|lia| |by rewrite Ed, concat_items|done].
        intros ->. by rewrite Ed in Hne.
      * rewrite lookup_insert_ne by done. apply Hnn.
  - apply in_log_stored. intros name data [Hobj|(g' & s' & Hg' & En & Ec)].
    + left. simpl. rewrite El, lookup_insert_ne; [done|]. congruence.
    + destruct (decide (g' = g)) as [->|Hne'].
      * simplify_eq. left. simpl. by rewrite lookup_insert_eq.
      * right. exists g', s'. simpl. by rewrite lookup_delete_ne.
Qed.

(** ** Writing an item *)

Definition new_place (loc : CloudPointer.t) : Prop := CloudPointer.directory loc = 1 /\ seq0 <= CloudPointer.sequence loc.

(** What has happened when an item is written. *)
Definition written (v : View) (it : LogItem.t) (it' : LogItem.t) (v' : View) : Prop :=
  log_wf v' /\ settled v' /\ keeps_log v v' /\ vimap v' = vimap v /\
  LogDirectory.seq_num (vlog v') <= LogDirectory.seq_num (vlog v) + 1 /\
  exists loc, it' = it <| LogItem.location := Some loc |> /\ in_log v' loc it' /\ new_place loc.

Context {B : Type} `{BackendSpec B}.

Lemma wpv_close (s : LogSegment.t) g v (Q : unit -> View -> Prop) :
  Q tt (closed g s v) -> wpv (B := B) (LogSegment_close s;; del_group g) v Q.
Proof. intros HQ. wpv_step. apply wpv_write. unfold del_group. wpv_step. exact HQ. Qed.

(** Appending to an open segment, which is closed if it has become large. *)
Lemma append_item_ok v g s it :
  log_wf v -> LogDirectory.groups (vlog v) !! g = Some s -> LogSegment_len s < TARGET_SIZE ->
  (forall g' s', g' <> g -> LogDirectory.groups (vlog v) !! g' = Some s' ->
    LogSegment.data s' <> [] /\ LogSegment_len s' < TARGET_SIZE) ->
  new_ok T it -> LogDirectory.seq_num (vlog v) <= 2 ^ 32 -> item_size it < 2 ^ 32 ->
  wpv (B := B) (r ← assume Exception (LogSegment_write s it);
       set_group g r.1;;
       when (TARGET_SIZE <=? LogSegment_len r.1) (LogSegment_close r.1;; del_group g);;
       mret r.2) v (fun it' v' =>
    log_wf v' /\ settled v' /\ keeps_log v v' /\ vimap v' = vimap v /\
    LogDirectory.seq_num (vlog v') = LogDirectory.seq_num (vlog v) /\
    exists loc, it' = it <| LogItem.location := Some loc |> /\ in_log v' loc it' /\ new_place loc).
Proof.
  intros W Hg Hlen Hset Hnew Hseq Hsize. destruct (lw_groups _ W _ _ Hg) as (n & its & El & Hn & Ed & Hits & Hnone).
  pose proof (lw_seq0 _ W) as Hs0. pose proof (item_size_min it (proj1 Hnew)) as Hmin.
  assert (Hl0 : 0 <= LogSegment_len s) by (apply lsum_nonneg; lia).
  assert (Hp : pointer_wf (next_place s it)).
  { unfold pointer_wf, next_place, is_u. rewrite El. cbn [fst snd CloudPointer.directory CloudPointer.sequence
      CloudPointer.offset CloudPointer.size]. change (256 ^ Z.of_nat 4) with (2 ^ 32).
    unfold HEADER_SIZE in Hmin. change TARGET_SIZE with 4194304 in *. lia. }
  destruct (append_wf v g s it W Hg Hnew Hp) as (W1 & K1 & Hin).
  unfold LogSegment_write. rewrite serialize_ok by apply Hnew. cbn [mbind option_bind].
  wpv_step. wpv_step; [done|]. cbn [fst snd]. wpv_step. unfold set_group. wpv_step.
  change (setf vlog _ v) with (appended g s it v).
  set (s1 := s <| LogSegment.data ::= _ |>).
  assert (Hs1 : LogDirectory.groups (vlog (appended g s it v)) !! g = Some s1) by apply lookup_insert_eq.
  assert (Hne : LogSegment.data s1 <> []) by (simpl; intros [_ E]%app_nil; done).
  assert (Hnp : new_place (next_place s it)).
  { split; simpl; rewrite El; simpl; lia. }
  wpv_step. apply wpv_when.
  - intros _. apply wpv_close. wpv_step. destruct (close_wf _ g s1 W1 Hs1 Hne) as [W2 K2].
    split; [done|]. split; [|split; [intros loc x Hx; by apply K2, K1|]].
    + intros g' s' Hg'. apply (lookup_delete_Some (LogDirectory.groups (vlog (appended g s it v)))) in Hg' as [Hne' Hg'].
      simpl in Hg'. rewrite lookup_insert_ne in Hg' by done. by apply (Hset g').
    + split; [done|]. split; [done|]. exists (next_place s it). split; [done|]. split; [|done]. by apply K2.
  - intros Hle%Z.leb_gt. wpv_step. split; [done|]. split; [|split; [done|]].
    + intros g' s' Hg'. destruct (decide (g' = g)) as [->|Hne'].
      * rewrite Hs1 in Hg'. injection Hg' as <-. done.
      * apply (Hset g'); [done|]. simpl in Hg'. by rewrite lookup_insert_ne in Hg'.
    + split; [done|]. split; [done|]. exists (next_place s it). done.
Qed.

Lemma log_write_ok v it g :
  log_wf v -> settled v -> new_ok T it -> LogDirectory.seq_num (vlog v) < 2 ^ 32 -> item_size it < 2 ^ 32 ->
  wpv (B := B) (LogDirectory_write it g) v (written v it).
Proof.
  intros W S Hnew Hseq Hsize. unfold LogDirectory_write. wpv_step. wpv_step. wpv_step.
  destruct (LogDirectory.groups (vlog v) !! g) as [s|] eqn:Hg.
  - wpv_step. eapply wpv_mono; [apply append_item_ok; try done; [by apply (S g)|intros g' s' _; apply S|lia]|].
    intros it' v' (? & ? & ? & ? & E & ?). split_and!; try done. by rewrite E; lia.
  - destruct (open_segment_wf v g W Hg) as [W1 K1]. unfold open_segment. do 7 wpv_step.
    unfold set_group at 1. wpv_step. rewrite (lw_dir _ W). wpv_step.
    change (setf vlog _ (setf vlog _ v)) with (opened_segment g v).
    eapply wpv_mono; [apply append_item_ok; try done; [apply lookup_insert_eq| |simpl; lia]|].
    + intros g' s' Hne Hg'. apply (S g'). simpl in Hg'. by rewrite lookup_insert_ne in Hg'.
    + intros it' v' (? & ? & K & ? & E & ?). split_and!; try done; [|by rewrite E; simpl; lia].
      intros loc x Hx. by apply K, K1.
Qed.

(** Closing what is left. *)
Lemma close_all_ok v :
  log_wf v -> settled v ->
  wpv (B := B) close_all v (fun _ v' => log_wf v' /\ LogDirectory.groups (vlog v') = ∅ /\ keeps_log v v' /\ vimap v' = vimap v /\
    LogDirectory.seq_num (vlog v') = LogDirectory.seq_num (vlog v)).
Proof.
  intros W S. unfold close_all. wpv_step. wpv_step.
  assert (Hd : NoDup (map_to_list (LogDirectory.groups (vlog v))).*1) by apply NoDup_fst_map_to_list.
  assert (Hk : forall g, g ∈ (map_to_list (LogDirectory.groups (vlog v))).*1 <-> is_Some (LogDirectory.groups (vlog v) !! g)).
  { intros g. rewrite list_elem_of_fmap. split.
    - intros ([k s] & -> & Hks%elem_of_map_to_list). eauto.
    - intros [s Hs]. exists (g, s). split; [done|]. by apply elem_of_map_to_list. }
  revert Hd Hk. generalize (map_to_list (LogDirectory.groups (vlog v))).*1. intros l. revert v W S.
  induction l as [|g l IH]; intros v W S Hd Hk; cbn [for_each].
  - wpv_step. split; [done|]. split; [|by split; [intros loc x|]]. apply map_empty. intros g. apply eq_None_not_Some. rewrite <- Hk. apply not_elem_of_nil.
  - apply NoDup_cons in Hd as [Hnin Hd]. destruct (proj1 (Hk g)) as [s Hs]; [by left|].
    wpv_step. wpv_step. wpv_step. wpv_step. wpv_step; [done|]. apply wpv_close.
    destruct (close_wf v g s W Hs (proj1 (S g s Hs))) as [W1 K1].
    eapply wpv_mono; [apply IH; [done| |done|]|].
    + intros g' s' Hg'. apply (lookup_delete_Some (LogDirectory.groups (vlog v))) in Hg' as [_ Hg']. by apply (S g').
    + intros g'. simpl. destruct (decide (g' = g)) as [->|Hne].
      * rewrite lookup_delete_eq. split; [done|by intros []].
      * rewrite lookup_delete_ne by done. rewrite <- Hk, elem_of_cons. naive_solver.
    + intros _ v' (? & ? & K & ? & ?). split_and!; try done. intros loc x Hx. by apply K, K1.
Qed.
End log.
