(* ===== verification/CleanBuild.v ===== *)
(** * Reading the checkpoint in the segment cleaner

    [InodeMap.build] of src/cleaner/cleaner finds the inodes of the checkpoint, counts
    the use of every segment, and deletes segments that are not in use: everything the
    checkpoint leads to stays. *)

From S2P Require Import Prelude State Serialize RoundtripItem Crypto LogThread Store Replay NameOrder CleanItems CleanStore CleanRun CleanView CleanLog.
From Stdlib Require Import ZArith Lia Sorted.
From stdpp Require Import base numbers gmap option list sorting.

Open Scope Z_scope.

(** The last checkpoint in the segments of the file system. *)
Fixpoint last_checkpoint_in (m : gmap bytes bytes) (logs : list (bytes * Z)) : option LogItem.t :=
  match logs with
  | [] => None
  | (log, _) :: logs =>
    match filter (fun i => is_checkpoint i) (rev (default [] (data ← m !! log; parse_log data (name_to_loc log)))) with
    | item :: _ => Some item
    | [] => last_checkpoint_in m logs
    end
  end.
Definition last_checkpoint (m : gmap bytes bytes) : option LogItem.t := last_checkpoint_in m (rev (listing m 0)).

(** Where an inode and its data are. *)
Definition inode_places (it : LogItem.t) (loc : CloudPointer.t) : Prop :=
  LogItem.location it = Some loc \/ exists l, l ∈ LogItem.links it /\ l.2 = Some loc.

(** A file system in fewer objects. *)
Lemma store_ok_shrink m m' chk T (P : CloudPointer.t -> Prop) :
  store_ok m chk T -> m' ⊆ m ->
  (forall loc it, P loc -> in_objs m loc it -> in_objs m' loc it) ->
  (forall loc, LogItem.location chk = Some loc -> P loc) ->
  (forall l loc, l ∈ LogItem.links chk -> l.2 = Some loc -> P loc) ->
  (forall k it loc, T !! k = Some it -> inode_places it loc -> P loc) ->
  store_ok m' chk T.
Proof.
  intros S Hm HP Hc Hl HT.
  assert (Hto : forall l it, (forall loc, l.2 = Some loc -> P loc) -> link_to m l it -> link_to m' l it).
  { intros l it Hp (loc & -> & Hin). exists loc. split; [done|]. apply HP; [by apply Hp|done]. }
  assert (Hlc : forall l it, l ∈ LogItem.links chk -> link_to m l it -> link_to m' l it).
  { intros l it Hin. apply Hto. intros loc. by apply (Hl l). }
  assert (Hin : forall k l it, T !! k = Some it -> link_to m l it -> link_to m' l it).
  { intros k l it Hk Hto'. apply Hto; [|done]. destruct Hto' as (loc & -> & Hloc). intros loc' [= <-].
    apply (HT k it); [done|]. left. by eapply in_objs_location. }
  destruct S as [S1 S2 (cl & S3) (vvb & rb & vv & S4 & S4s & S4t) S5 S6]. split.
  - intros name data Hd. eapply S1, lookup_weaken, Hm. done.
  - intros d name data Hd Hn. apply S2; [done|]. by eapply lookup_weaken.
  - exists cl. apply HP; [|done]. by apply Hc, (in_objs_location m).
  - exists vvb, rb, vv. split_and!; [done..|]. apply Forall2_same_length_lookup. split; [by eapply Forall2_length|].
    intros i r l Hr Hli. destruct (Forall2_lookup_lr _ _ _ _ _ _ S4t Hr Hli) as (block & Hb & Hok).
    exists block. split; [eapply Hlc, Hb; by eapply list_elem_of_lookup_2|].
    eapply Forall2_impl; [exact Hok|]. intros inum l' (Hr' & it & Hit & Hto'). split; [done|]. exists it. eauto.
  - intros k it Hk. destruct (S5 k it Hk) as (l & block & Hl' & Hto' & Hk'). exists l, block. eauto.
  - intros k it Hk. destruct (S6 k it Hk) as (? & ? & ? & Hd). split_and!; try done. apply Forall_forall. intros l Hl'.
    rewrite Forall_forall in Hd. destruct (Hd l Hl') as [?|(d & Hto' & ?)]; [by left|]. right. exists d. split; [|done].
    apply Hto; [|done]. intros loc Hloc. apply (HT k it); [done|]. right. eauto.
Qed.

(** ** Utilization *)

Definition segment_dir (d : Z) : Prop := d = 0 \/ d = 1.

(** The table covers the segments, with their sizes. *)
Record utils (m : gmap bytes bytes) (segs : gmap bytes (Z * Z)) : Prop := {
  ut_dom : forall name u, segs !! name = Some u -> exists data d, segment_dir d /\ m !! name = Some data /\
    has_start (dir_prefix d) name = true /\ u.1 = zlen data /\ 0 <= u.2;
  ut_all : forall name data d, segment_dir d -> m !! name = Some data -> has_start (dir_prefix d) name = true ->
    is_Some (segs !! name);
}.

(** The bytes of an item are counted for its segment. *)
Definition counted (segs : gmap bytes (Z * Z)) (loc : CloudPointer.t) : Prop :=
  exists u, segs !! loc_to_name (segment_of loc) = Some u /\ CloudPointer.size loc <= u.2.
Definition counts_more (segs segs' : gmap bytes (Z * Z)) : Prop := forall loc, counted segs loc -> counted segs' loc.

#[export] Instance counts_more_trans : Transitive counts_more.
Proof. intros a b c Hab Hbc loc Hl. auto. Qed.
#[export] Instance counts_more_refl : Reflexive counts_more.
Proof. by intros a loc. Qed.

Lemma in_objs_size m loc it : in_objs m loc it -> HEADER_SIZE <= CloudPointer.size loc.
Proof. by intros (_ & _ & data & _ & (_ & _ & Hs & _)%listed_slice). Qed.

Lemma add_item_ok m segs loc it :
  utils m segs -> in_objs m loc it ->
  exists segs', add_item segs (Some loc) = Some segs' /\ utils m segs' /\ counted segs' loc /\ counts_more segs segs'.
Proof.
  intros [U1 U2] Hin. pose proof (in_objs_size _ _ _ Hin) as Hs. destruct Hin as (Hd & _ & data & Hm & _).
  assert (Hst : has_start (dir_prefix (CloudPointer.directory loc)) (loc_to_name (segment_of loc)) = true) by apply name_has_start.
  destruct (U2 _ _ _ Hd Hm Hst) as [u Hu]. destruct (U1 _ _ Hu) as (_ & _ & _ & _ & _ & _ & Hu0).
  unfold HEADER_SIZE in Hs. unfold add_item. rewrite Hu. cbn [mbind option_bind]. eexists. split; [done|]. split_and!.
  - split.
    + intros name u'. destruct (decide (name = loc_to_name (segment_of loc))) as [->|Hne].
      * rewrite lookup_insert_eq. intros [= <-]. destruct (U1 _ _ Hu) as (data' & d & ? & ? & ? & ? & ?).
        exists data', d. simpl. split_and!; try done. lia.
      * rewrite lookup_insert_ne by done. apply U1.
    + intros name data' d ? ? ?. destruct (decide (name = loc_to_name (segment_of loc))) as [->|Hne].
      * rewrite lookup_insert_eq. eauto.
      * rewrite lookup_insert_ne by done. by eapply U2.
  - eexists. rewrite lookup_insert_eq. split; [done|]. simpl. lia.
  - intros loc' (u' & Hu' & Hle). unfold counted.
    destruct (decide (loc_to_name (segment_of loc') = loc_to_name (segment_of loc))) as [E|Hne].
    + rewrite E in *. rewrite lookup_insert_eq. eexists. split; [done|]. simplify_eq. simpl. lia.
    + rewrite lookup_insert_ne by done. eauto.
Qed.

Lemma add_links_ok m segs inum links :
  utils m segs -> Forall (data_ok m inum) links ->
  exists segs', add_links segs links = Some segs' /\ utils m segs' /\ counts_more segs segs' /\
    forall l loc, l ∈ links -> l.2 = Some loc -> counted segs' loc.
Proof.
  intros U Hl. revert segs U. induction Hl as [|l links Hl Hls IH]; intros segs U; cbn [add_links].
  { exists segs. split_and!; [done..|]. by intros l loc ?%not_elem_of_nil. }
  assert (exists segs1, add_item segs l.2 = Some segs1 /\ utils m segs1 /\ counts_more segs segs1 /\
    forall loc, l.2 = Some loc -> counted segs1 loc) as (segs1 & -> & U1 & M1 & C1).
  { destruct Hl as [->|(d & (loc & -> & Hin) & _)]; [by exists segs|].
    destruct (add_item_ok m segs loc d U Hin) as (segs1 & ? & ? & ? & ?). exists segs1. split_and!; try done.
    by intros loc' [= <-]. }
  destruct (IH segs1 U1) as (segs2 & E2 & U2 & M2 & C2). exists segs2. cbn [mbind option_bind].
  split_and!; [done|done|by etransitivity|]. intros l' loc [->|Hl']%elem_of_cons Hloc; [by apply M2, C1|by eapply C2].
Qed.

(** Everything of an inode is counted. *)
Definition inode_counted (segs : gmap bytes (Z * Z)) (it : LogItem.t) : Prop :=
  forall loc, inode_places it loc -> counted segs loc.

Section build.
Context {B : Type} `{BackendSpec B}.
Context (m : gmap bytes bytes) (T : gmap Z LogItem.t).

Lemma load_item_ok v loc it :
  m ⊆ objs v -> in_objs m loc it -> wpv (B := B) (load_item loc) v (fun r v' => r = it /\ v' = v).
Proof.
  intros Hm (_ & Hw & data & Hd & Hl). apply listed_slice in Hl as (E & Ho & _ & _ & Hp). unfold load_item.
  wpv_step. eapply wpv_read; [by eapply lookup_weaken|done|]. wpv_step. wpv_step; [done|]. wpv_step. wpv_step; [done|].
  wpv_step. split; [|done]. destruct it; simpl in *. by subst.
Qed.

Lemma read_log_ok v name data d n its :
  objs v !! name = Some data -> name_to_loc name = Some (d, n) -> parse_log data (Some (d, n)) = Some its ->
  wpv (B := B) (read_log name) v (fun r v' => r = its /\ v' = v).
Proof.
  intros Hd Hn Hp. unfold read_log. wpv_step. eapply wpv_read; [done|done|]. rewrite Hn. by wpv_step.
Qed.

(** [utils], the inodes found so far, and what is counted. *)
Definition build_ok (acc : gmap bytes (Z * Z) * gmap Z LogItem.t) : Prop := utils m acc.1 /\ acc.2 ⊆ T.
Definition build_more (acc acc' : gmap bytes (Z * Z) * gmap Z LogItem.t) : Prop :=
  counts_more acc.1 acc'.1 /\ acc.2 ⊆ acc'.2.

Lemma build_inodes_ok v r inums links acc :
  m ⊆ objs v -> (forall k it, T !! k = Some it -> inode_ok m k it) ->
  Forall2 (fun inum l => r.1 <= inum <= r.2 /\ exists it, T !! inum = Some it /\ link_to m l it) inums links ->
  build_ok acc ->
  wpv (B := B) (build_inodes inums links acc) v (fun acc' v' => v' = v /\ build_ok acc' /\ build_more acc acc' /\
    forall k, k ∈ inums -> exists it, acc'.2 !! k = Some it /\ inode_counted acc'.1 it).
Proof.
  intros Hm Hino Hf. revert acc. induction Hf as [|k l inums links (_ & it & Hk & loc & -> & Hin) _ IH];
    intros [segs tab] [U HT]; cbn [build_inodes].
  { wpv_step. split_and!; [done|done|done|]. by intros k ?%not_elem_of_nil. }
  cbn [head tail fst snd] in *. wpv_step. wpv_step; [done|]. wpv_step. wpv_step; [done|]. wpv_step.
  eapply wpv_mono; [by apply load_item_ok|]. intros r' v' [-> ->]. rewrite (in_objs_location _ _ _ Hin).
  destruct (add_item_ok m segs loc it U Hin) as (segs1 & E1 & U1 & C1 & M1).
  destruct (Hino k it Hk) as (_ & _ & _ & Hd). destruct (add_links_ok m segs1 k _ U1 Hd) as (segs2 & E2 & U2 & M2 & C2).
  wpv_step. wpv_step; [done|]. wpv_step. wpv_step; [done|].
  assert (Hc : inode_counted segs2 it).
  { intros loc' [E|(l & Hl & El)]; [|by eapply C2]. rewrite (in_objs_location _ _ _ Hin) in E. injection E as <-. by apply M2. }
  eapply wpv_mono; [apply IH|].
  { split; [done|]. apply insert_subseteq_l; [done|]. done. }
  intros acc' v' (-> & Hok & [Hm1 Hm2] & Hall). cbn [fst snd] in *. split_and!; [done|done| |].
  - split; [by etransitivity; [|exact Hm1]; etransitivity|]. apply map_subseteq_spec. intros j x Ej.
    eapply lookup_weaken; [|exact Hm2]. destruct (decide (j = k)) as [->|]; [|by rewrite lookup_insert_ne].
    rewrite lookup_insert_eq. pose proof (lookup_weaken tab T k x Ej HT). congruence.
  - intros j [->|Hj]%elem_of_cons; [|by apply Hall]. exists it. split; [|intros loc' Hl; by apply Hm1, Hc].
    eapply lookup_weaken; [|exact Hm2]. apply lookup_insert_eq.
Qed.

Lemma build_ranges_ok v ranges links acc :
  m ⊆ objs v -> (forall k it, T !! k = Some it -> inode_ok m k it) ->
  Forall2 (fun r l => exists block, link_to m l block /\ block_ok m T r block) ranges links -> build_ok acc ->
  wpv (B := B) (build_ranges ranges links acc) v (fun acc' v' => v' = v /\ build_ok acc' /\ build_more acc acc' /\
    (forall l loc, l ∈ links -> l.2 = Some loc -> counted acc'.1 loc) /\
    forall l block k, l ∈ links -> link_to m l block -> k ∈ imap_inums (LogItem.data block) ->
      exists it, acc'.2 !! k = Some it /\ inode_counted acc'.1 it).
Proof.
  intros Hm Hino Hf. revert acc. induction Hf as [|r l ranges links (block & (loc & -> & Hin) & Hb) _ IH];
    intros [segs tab] [U HT]; cbn [build_ranges].
  { wpv_step. split_and!; [done|done|done|..]; [by intros l loc ?%not_elem_of_nil|by intros l b k ?%not_elem_of_nil]. }
  cbn [head tail fst snd] in *. wpv_step. wpv_step; [done|]. wpv_step. wpv_step; [done|]. wpv_step.
  eapply wpv_mono; [by apply load_item_ok|]. intros r' v' [-> ->]. rewrite (in_objs_location _ _ _ Hin).
  destruct (add_item_ok m segs loc block U Hin) as (segs1 & E1 & U1 & C1 & M1). wpv_step. wpv_step; [done|]. wpv_step.
  eapply wpv_mono; [by apply (build_inodes_ok v r)|]. intros acc1 v' (-> & Hok1 & [Hm1 Hm2] & Hall). cbn [fst snd] in *.
  eapply wpv_mono; [by apply IH|]. intros acc2 v' (-> & Hok2 & [Hm3 Hm4] & Hl2 & Hall2). split_and!; [done|done| |..].
  - split; [by transitivity segs1; [|transitivity acc1.1]|]. simpl. by transitivity acc1.2.
  - intros l loc' [->|Hl]%elem_of_cons Hloc; [|by eapply Hl2]. injection Hloc as <-. by apply Hm3, Hm1.
  - intros l b k [->|Hl]%elem_of_cons Hto Hk; [|by eapply Hall2].
    destruct Hto as (loc' & [= _ <-] & Hin'). assert (b = block) as -> by by eapply in_objs_inj.
    destruct (Hall k Hk) as (it & Hit & Hc). exists it. split; [by eapply lookup_weaken|]. intros loc' Hl. by apply Hm3, Hc.
Qed.

Lemma init_table (l : list (bytes * Z)) (t : gmap bytes (Z * Z)) :
  let f := foldl (fun m (p : bytes * Z) => <[p.1 := (p.2, 0)]> m) t l in
  (forall name u, f !! name = Some u -> t !! name = Some u \/ exists size, (name, size) ∈ l /\ u = (size, 0)) /\
  (forall name, is_Some (t !! name) \/ (exists size, (name, size) ∈ l) -> is_Some (f !! name)).
Proof.
  revert t. induction l as [|[n s] l IH]; intros t; simpl.
  - split; [by left|]. intros name [?|(size & ?%not_elem_of_nil)]; done.
  - destruct (IH (<[n := (s, 0)]> t)) as [IH1 IH2]. split.
    + intros name u Hu. destruct (IH1 name u Hu) as [Ht|(size & Hin & ->)].
      * destruct (decide (name = n)) as [->|Hne].
        { rewrite lookup_insert_eq in Ht. injection Ht as <-. right. exists s. split; [by left|done]. }
        rewrite lookup_insert_ne in Ht by done. by left.
      * right. exists size. split; [by right|done].
    + intros name Hn. apply IH2. destruct (decide (name = n)) as [->|Hne]; [left; rewrite lookup_insert_eq; eauto|].
      destruct Hn as [?|(size & [[= -> ->]|Hin]%elem_of_cons)]; [left; by rewrite lookup_insert_ne|done|eauto].
Qed.

Lemma utilization_init_ok v :
  wpv (B := B) UtilizationTracker_init v (fun segs v' => v' = v /\ utils (objs v) segs).
Proof.
  unfold UtilizationTracker_init. do 5 wpv_step. split; [done|].
  destruct (init_table (listing (objs v) 0 ++ listing (objs v) 1) ∅) as [H1 H2]. split.
  - intros name u [Hu|(size & Hin & ->)]%H1; [by rewrite lookup_empty in Hu|].
    apply elem_of_app in Hin as [Hin|Hin]; apply elem_of_listing in Hin as (data & Hd & -> & Hs);
      [exists data, 0|exists data, 1]; split_and!; try done; [by left|by right].
  - intros name data d Hd Hn Hs. apply H2. right. exists (zlen data). apply elem_of_app.
    destruct Hd as [-> | ->]; [left|right]; apply elem_of_listing; eauto.
Qed.

(** ** Deleting segments *)

Lemma delete_loop_ok segs vv l v :
  utils m segs -> NoDup l -> (forall s, s ∈ l -> is_Some (segs !! s) /\ is_Some (objs v !! s)) ->
  (forall d name data, segment_dir d -> m !! name = Some data -> has_start (dir_prefix d) name = true ->
    data <> [] /\ is_Some (name_to_loc name)) ->
  wpv (B := B) (for_each ((fun s => (s, default (0, 0) (segs !! s))) <$> l) (fun su => delete_unused vv su.1 su.2)) v
    (fun _ v' => vlog v' = vlog v /\ vimap v' = vimap v /\ objs v' ⊆ objs v /\
      forall s, (s ∈ l -> exists u, segs !! s = Some u /\ u.2 <> 0) -> objs v' !! s = objs v !! s).
Proof.
  intros U Hd Hl Hseg. revert v Hl. induction Hd as [|s l Hnin Hd IH]; intros v Hl; rewrite ?fmap_nil, ?fmap_cons; cbn [for_each].
  { wpv_step. done. }
  destruct (Hl s) as [[u Hu] Hs]; [by left|]. rewrite Hu. change (default (0, 0) (Some u)) with u. cbn [fst snd].
  destruct (ut_dom _ _ U s u Hu) as (data & d & Hdir & Hdata & Hst & Hsz & _).
  destruct (Hseg d s data Hdir Hdata Hst) as [Hne [loc Hloc]].
  assert (Hgo : forall v1, vlog v1 = vlog v -> vimap v1 = vimap v -> objs v1 ⊆ objs v ->
    (forall s', s' <> s \/ u.2 <> 0 -> objs v1 !! s' = objs v !! s') ->
    wpv (B := B) (for_each ((fun s => (s, default (0, 0) (segs !! s))) <$> l) (fun su => delete_unused vv su.1 su.2)) v1
      (fun _ v' => vlog v' = vlog v /\ vimap v' = vimap v /\ objs v' ⊆ objs v /\
        forall s', (s' ∈ s :: l -> exists u, segs !! s' = Some u /\ u.2 <> 0) -> objs v' !! s' = objs v !! s')).
  { intros v1 E1 E2 Hsub Heq. eapply wpv_mono; [apply IH|].
    - intros s' Hs'. assert (s' <> s) by congruence. rewrite Heq by (by left). apply Hl. by right.
    - intros _ v' (-> & -> & Hsub' & Heq'). split_and!; [done|done|by etransitivity|]. intros s' Hs'. rewrite Heq'.
      + apply Heq. destruct (decide (s' = s)) as [->|]; [|by left]. right. destruct Hs' as (u' & Hu' & ?); [by left|]. congruence.
      + intros Hin. apply Hs'. by right. }
  wpv_step. unfold delete_unused. wpv_step. wpv_step.
  { apply negb_true_iff, Z.eqb_neq. rewrite Hsz. destruct data; [done|simpl; lia]. }
  apply wpv_when.
  - intros Hz%Z.eqb_eq. wpv_step. wpv_step; [done|]. destruct (vv !! loc.1) as [x|].
    + apply wpv_try. wpv_step. wpv_step; [done|]. apply wpv_when; [intros _|intros _; apply Hgo; try done].
      apply wpv_delete; [done|]. apply Hgo; try done; simpl; [apply delete_subseteq|].
      intros s' [?|?]; [by rewrite lookup_delete_ne|done].
    + intros w Hw Hv. unfold wp, try_except. simpl. split; [done|]. rewrite Hv. apply Hgo; try done.
  - intros _. apply Hgo; try done.
Qed.

(** ** The whole of it *)

(** The table of a segment: it has a proper name and is not empty, and it is there if
    something of it is in use. *)
Definition table_ok (m' : gmap bytes bytes) (segs : gmap bytes (Z * Z)) : Prop :=
  forall s u, segs !! s = Some u -> u.1 <> 0 /\ (exists d n, segment_dir d /\ 0 <= n /\ s = loc_to_name (d, n)) /\
    (u.2 <> 0 -> is_Some (m' !! s)).

Lemma segment_dir_nonneg d : segment_dir d -> 0 <= d.
Proof. intros [-> | ->]; lia. Qed.

Lemma inode_map_build_ok v chk loc :
  objs v = m -> store_ok m chk T -> LogItem.location chk = Some loc ->
  wpv (B := B) (InodeMap_build chk) v (fun _ v' => vlog v' = vlog v /\ objs v' ⊆ m /\ store_ok (objs v') chk T /\
    exists vvb rb vv segs, checkpoint_data chk vvb rb vv /\ table_ok (objs v') segs /\
      vimap v' = CleanMap.mk (<[CloudPointer.directory loc := CloudPointer.sequence loc]> vv) chk ∅ (zlen vvb) T segs ∅).
Proof.
  intros Hm S Hloc. pose proof S as [S1 S2 (cl & S3) (vvb & rb & vv & (Edata & Evv & E16) & S4s & S4t) S5 S6].
  assert (cl = loc) as -> by (rewrite (in_objs_location _ _ _ S3) in Hloc; congruence).
  unfold InodeMap_build. wpv_step. eapply wpv_mono; [apply utilization_init_ok|]. intros segs0 v0 [-> U0]. rewrite Hm in U0.
  destruct (add_item_ok m segs0 loc chk U0 S3) as (segs1 & E1 & U1 & C1 & M1).
  wpv_step. wpv_step; [by rewrite Hloc|]. wpv_step. wpv_step.
  { apply bool_decide_eq_true. rewrite Edata. by apply take_app_length'. }
  rewrite Edata, drop_app_length' by done. wpv_step. wpv_step; [done|]. wpv_step. wpv_step; [done|]. cbn [fst snd].
  rewrite Nat2Z.id, drop_app_length. wpv_step.
  eapply wpv_mono; [apply (build_ranges_ok v (imap_ranges rb)); [by rewrite Hm|done|done|]|].
  { split; [done|]. apply map_empty_subseteq. }
  intros [segs tab] v0 (-> & [U2 HT] & [M2 _] & Hl2 & Hall). cbn [fst snd] in *. wpv_step.
  assert (tab = T) as ->.
  { apply map_eq. intros k. destruct (T !! k) as [it|] eqn:Ek.
    - destruct (S5 k it Ek) as (l & block & Hl & Hto & Hk). destruct (Hall l block k Hl Hto Hk) as (it' & Hit' & _).
      rewrite Hit'. pose proof (lookup_weaken _ _ _ _ Hit' HT). congruence.
    - destruct (tab !! k) as [it|] eqn:Et; [|done]. pose proof (lookup_weaken _ _ _ _ Et HT). congruence. }
  assert (HT2 : forall k it, T !! k = Some it -> inode_counted segs it).
  { intros k it Ek. destruct (S5 k it Ek) as (l & block & Hl & Hto & Hk). destruct (Hall l block k Hl Hto Hk) as (it' & Hit' & Hc).
    assert (it' = it) as -> by congruence. done. }
  unfold segment_items, sorted_names.
  assert (Hseg : forall d name data, segment_dir d -> m !! name = Some data -> has_start (dir_prefix d) name = true ->
    data <> [] /\ is_Some (name_to_loc name)).
  { intros d name data Hd Hn Hs. destruct (S2 d name data Hd Hn Hs) as (? & n & its & ? & -> & _). split; [done|].
    rewrite name_to_loc_name by (done || by apply segment_dir_nonneg). eauto. }
  eapply wpv_mono; [apply (delete_loop_ok segs); [done| | |done]|].
  { rewrite sort_names_perm. apply NoDup_fst_map_to_list. }
  { intros s. rewrite sort_names_perm, list_elem_of_fmap. intros ([s' u] & -> & Hu%elem_of_map_to_list). simpl.
    split; [eauto|]. rewrite Hm. destruct (ut_dom _ _ U2 _ _ Hu) as (data & _ & _ & -> & _). eauto. }
  intros _ v1 (El & Ei & Hsub & Hkeep). rewrite Hm in *. wpv_step. simpl.
  assert (Hkept : forall s u, segs !! s = Some u -> u.2 <> 0 -> objs v1 !! s = m !! s).
  { intros s u Hu Hz. apply Hkeep. eauto. }
  split; [done|]. split; [done|]. split.
  - apply (store_ok_shrink m _ chk T (counted segs)); [done|done|..].
    + intros l it (u & Hu & Hle) Hin. pose proof (in_objs_size _ _ _ Hin) as Hs. unfold HEADER_SIZE in Hs.
      destruct Hin as (? & ? & data & Hd & ?). split_and!; [done..|]. exists data. split; [|done].
      rewrite (Hkept _ u); [done|done|lia].
    + intros l Hl. assert (l = loc) as -> by congruence. by apply M2.
    + done.
    + intros k it l Hk Hp. by apply (HT2 k it).
  - exists vvb, rb, vv, segs. split; [done|]. split; [|done].
    intros s u Hu. destruct (ut_dom _ _ U2 _ _ Hu) as (data & d & Hd & Hdata & Hst & Hsz & _).
    destruct (S2 d s data Hd Hdata Hst) as (Hne & n & its & Hn & -> & _). split_and!.
    + rewrite Hsz. destruct data; [done|simpl; lia].
    + eauto.
    + intros Hz. rewrite (Hkept _ u) by done. eauto.
Qed.
End build.

(** ** The checkpoint and the directory of the cleaner *)

Section start.
Context {B : Type} `{BackendSpec B}.

Lemma find_checkpoint_ok v logs :
  (forall name size, (name, size) ∈ logs -> exists data its, objs v !! name = Some data /\
    parse_log data (name_to_loc name) = Some its) ->
  wpv (B := B) (find_checkpoint_record logs) v (fun r v' => r = last_checkpoint_in (objs v) logs /\ v' = v).
Proof.
  induction logs as [|[name size] logs IH]; intros Hl; cbn [find_checkpoint_record last_checkpoint_in]; [by wpv_step|].
  destruct (Hl name size) as (data & its & Hd & Hp); [by left|]. rewrite Hd. cbn [mbind option_bind]. rewrite Hp.
  wpv_step. unfold read_log. wpv_step. eapply wpv_read; [done|done|]. change (part data 0 None) with data.
  wpv_step; [done|]. change (default [] (Some its)) with its. destruct (filter _ (rev its)); [|by wpv_step].
  apply IH. intros n s Hin. apply (Hl n s). by right.
Qed.

Lemma load_checkpoint_ok v chk T :
  store_ok (objs v) chk T ->
  wpv (B := B) (load_checkpoint_record 0) v (fun r v' => r = last_checkpoint (objs v) /\ v' = v).
Proof.
  intros S. unfold load_checkpoint_record. wpv_step. wpv_step. apply find_checkpoint_ok.
  intros name size Hin. apply list_elem_of_In, in_rev, list_elem_of_In in Hin.
  apply elem_of_listing in Hin as (data & Hd & _ & Hs).
  destruct (so_segments _ _ _ S 0 name data (or_introl eq_refl) Hd Hs) as (_ & n & its & Hn & -> & Hp & _).
  exists data, its. by rewrite name_to_loc_name.
Qed.

(** The first number of a new segment. *)
Lemma foldl_max_ok d names s0 :
  let f := foldl (fun seq_num (logname : bytes * Z) =>
    match name_to_loc logname.1 with
    | Some loc => if loc.1 =? d then Z.max seq_num (loc.2 + 1) else seq_num
    | None => seq_num
    end) s0 names in
  s0 <= f /\ (forall name size n, (name, size) ∈ names -> name_to_loc name = Some (d, n) -> n < f) /\
  (forall b, s0 <= b -> (forall name size n, (name, size) ∈ names -> name_to_loc name = Some (d, n) -> n + 1 <= b) -> f <= b).
Proof.
  revert s0. induction names as [|[name size] names IH]; intros s0; simpl.
  { split_and!; [lia|by intros ? ? ? ?%not_elem_of_nil|done]. }
  set (s1 := match name_to_loc name with Some loc => _ | None => s0 end). destruct (IH s1) as (H1 & H2 & H3). clear IH.
  assert (Hs : s0 <= s1 /\ (forall n, name_to_loc name = Some (d, n) -> n < s1) /\
    (forall b, s0 <= b -> (forall n, name_to_loc name = Some (d, n) -> n + 1 <= b) -> s1 <= b)).
  { unfold s1. destruct (name_to_loc name) as [[d' n']|]; [|split_and!; [lia|done|done]]. simpl.
    destruct (Z.eqb_spec d' d) as [->|]; [|split_and!; [lia|congruence|done]].
    split_and!; [lia|intros n [= ->]; lia|]. intros b Hb Hn. specialize (Hn n' eq_refl). lia. }
  destruct Hs as (Ha & Hb & Hc). split_and!.
  - lia.
  - intros name' size' n [[= -> ->]|Hin]%elem_of_cons Hn; [specialize (Hb n Hn); lia|by eapply H2].
  - intros b Hb' Hall. apply H3.
    + apply Hc; [done|]. intros n Hn. apply (Hall name size n); [by left|done].
    + intros name' size' n Hin Hn. apply (Hall name' size' n); [by right|done].
Qed.

Lemma log_directory_init_ok v :
  wpv (B := B) (LogDirectory_init 1) v (fun l v' => v' = v /\ exists seq0, l = LogDirectory.mk 1 seq0 ∅ /\ 0 <= seq0 /\
    (forall n, seq0 <= n -> objs v !! loc_to_name (1, n) = None) /\
    forall b, 0 <= b -> (forall name n, is_Some (objs v !! name) -> name_to_loc name = Some (1, n) -> n + 1 <= b) -> seq0 <= b).
Proof.
  unfold LogDirectory_init. do 3 wpv_step. split; [done|].
  destruct (foldl_max_ok 1 (listing (objs v) 1) 0) as (H1 & H2 & H3). eexists. split; [reflexivity|]. split_and!; [done|..].
  - intros n Hn. apply eq_None_not_Some. intros [data Hd].
    assert (n < n) by (eapply Z.lt_le_trans; [|exact Hn]; eapply H2; [apply elem_of_listing; exists data; split_and!; [exact Hd|reflexivity|apply name_has_start]|apply name_to_loc_name; lia]).
    lia.
  - intros b Hb Hall. apply H3; [done|]. intros name size n (data & Hd & _)%elem_of_listing Hn. eapply Hall; eauto.
Qed.
End start.
