(* ===== verification/CleanCopy.v ===== *)
(** * Copying what is in use in the segment cleaner

    [run_cleaner] of src/cleaner/cleaner: scanning the segments to be cleaned finds
    every inode that is in one of them or has data there, and writing these inodes
    again moves them without changing what they say. *)

From S2P Require Import Prelude State Serialize RoundtripItem Crypto LogThread Store Replay NameOrder CleanItems CleanStore CleanRun CleanView CleanLog CleanBuild.
From Stdlib Require Import ZArith Lia Sorted.
From stdpp Require Import base numbers gmap option list sorting.

Open Scope Z_scope.

(** ** The segments to clean *)

Lemma find_obsolete_ok (m : gmap bytes bytes) (l : list (bytes * (Z * Z))) :
  (forall s u, (s, u) ∈ l -> u.1 <> 0 /\ (exists d n, segment_dir d /\ 0 <= n /\ s = loc_to_name (d, n)) /\
    (u.2 <> 0 -> is_Some (m !! s))) ->
  exists obs, find_obsolete l = Some obs /\
    (forall s, s ∈ obs -> segment_dir s.1 /\ 0 <= s.2 /\ is_Some (m !! loc_to_name s)) /\
    forall s u, (s, u) ∈ l -> poorly_utilized u = true -> exists loc, s = loc_to_name loc /\ loc ∈ obs.
Proof.
  induction l as [|[s u] l IH]; intros Hl; cbn [find_obsolete].
  { exists ∅. split_and!; [done|set_solver|]. by intros s u ?%not_elem_of_nil. }
  destruct (Hl s u) as (Hu & (d & n & Hd & Hn & ->) & Hm); [by left|].
  destruct IH as (obs & -> & Hobs & Hall). { intros s' u' Hin. apply Hl. by right. }
  rewrite (proj2 (Z.eqb_neq _ _) Hu). cbn [mbind option_bind].
  destruct (poorly_utilized u) eqn:Ep.
  - rewrite name_to_loc_name by (done || by apply segment_dir_nonneg). cbn [mbind option_bind]. eexists. split; [done|]. split.
    + intros s' [->%elem_of_singleton|?]%elem_of_union; [|by apply Hobs]. simpl. split_and!; [done|done|].
      apply Hm. unfold poorly_utilized in Ep. apply andb_prop in Ep as [_ Ep%Z.ltb_lt]. lia.
    + intros s' u' [[= -> ->]|Hin]%elem_of_cons Hp; [exists (d, n); set_solver|].
      destruct (Hall s' u' Hin Hp) as (loc & ? & ?). exists loc. split; [done|]. apply elem_of_union. by right.
  - exists obs. split_and!; [done|done|]. intros s' u' [[= -> ->]|Hin]%elem_of_cons Hp; [congruence|by apply (Hall s' u')].
Qed.

Lemma elem_of_segment_items segs s u : (s, u) ∈ segment_items segs <-> segs !! s = Some u.
Proof.
  unfold segment_items, sorted_names. rewrite list_elem_of_fmap. setoid_rewrite sort_names_perm.
  setoid_rewrite list_elem_of_fmap. split.
  - intros (s' & [= -> ->] & [k x] & -> & Hk%elem_of_map_to_list). simpl. by rewrite Hk.
  - intros Hs. exists s. rewrite Hs. split; [done|]. exists (s, u). split; [done|]. by apply elem_of_map_to_list.
Qed.

(** ** Scanning *)

Lemma store_inode m chk T k it : store_ok m chk T -> T !! k = Some it -> exists loc, in_objs m loc it.
Proof.
  intros S Hk. destruct (so_complete _ _ _ S k it Hk) as (l & block & Hl & Hto & Hin).
  destruct (so_table _ _ _ S) as (vvb & rb & vv & _ & _ & Hf). apply list_elem_of_lookup_1 in Hl as [i Hi].
  destruct (Forall2_lookup_r _ _ _ _ _ Hf Hi) as (r & _ & block' & Hto' & Hb).
  assert (block' = block) as ->.
  { destruct Hto as (loc & -> & ?), Hto' as (loc' & [= _ <-] & ?). by eapply in_objs_inj. }
  apply list_elem_of_lookup_1 in Hin as [j Hj]. destruct (Forall2_lookup_l _ _ _ _ _ Hb Hj) as (l' & _ & _ & it' & Hk' & loc & _ & Hloc).
  assert (it' = it) as -> by congruence. eauto.
Qed.

(** An inode with data in segment [s]. *)
Definition data_in (s : Z * Z) (it : LogItem.t) : Prop :=
  exists l loc, l ∈ LogItem.links it /\ l.2 = Some loc /\ segment_of loc = s.

Lemma has_data_spec s it :
  existsb (fun b : bytes * option CloudPointer.t =>
    match b.2 with Some l => bool_decide (s = segment_of l) | None => false end) (LogItem.links it) = true <-> data_in s it.
Proof.
  rewrite existsb_exists. split.
  - intros ([i [loc|]] & Hin & E); [|done]. apply bool_decide_eq_true in E. exists (i, Some loc), loc.
    split_and!; [by apply list_elem_of_In|done|done].
  - intros ([i o] & loc & Hin & Ho & Hs). simpl in Ho. subst o. exists (i, Some loc). split; [by apply list_elem_of_In|].
    by apply bool_decide_eq_true.
Qed.

Section scan.
Context (T : gmap Z LogItem.t).
Context (HT : forall k it, T !! k = Some it -> is_Some (LogItem.location it)).

(** The sets grow, and only by inodes of the map. *)
Definition scan_more (acc acc' : gset Z * gset Z) : Prop :=
  acc.1 ⊆ acc'.1 /\ acc.2 ⊆ acc'.2 /\ acc'.1 ⊆ acc.1 ∪ dom T /\ acc'.2 ⊆ acc.2 ∪ dom T.

(** An item of a file: its inode is found if it has to be written again. *)
Definition scanned (s : Z * Z) (item : LogItem.t) (acc : gset Z * gset Z) : Prop :=
  forall it, LogItem.type item = ITEM_TYPE.DATA \/ LogItem.type item = ITEM_TYPE.INODE -> LogItem.inum item <> 0 ->
    T !! LogItem.inum item = Some it ->
    ((exists loc, LogItem.location it = Some loc /\ segment_of loc = s) -> LogItem.inum item ∈ acc.1) /\
    (data_in s it -> LogItem.inum item ∈ acc.2).

Lemma scan_item_ok s acc item :
  known_item T item ->
  exists acc', scan_item T s acc item = Some acc' /\ scan_more acc acc' /\ scanned s item acc'.
Proof.
  intros Hk. unfold scan_item.
  destruct (((LogItem.type item =? ITEM_TYPE.DATA) || (LogItem.type item =? ITEM_TYPE.INODE)) && negb (LogItem.inum item =? 0)) eqn:E.
  - apply andb_prop in E as [Et%orb_true_iff En]. rewrite !Z.eqb_eq in Et. apply negb_true_iff, Z.eqb_neq in En.
    destruct (Hk Et En) as [it Hit]. destruct (HT _ _ Hit) as [loc Hloc].
    assert (Hd : LogItem.inum item ∈ dom T) by (apply elem_of_dom; eauto).
    rewrite Hit. cbn [mbind option_bind]. rewrite Hloc. cbn [mbind option_bind]. eexists. split; [done|]. split.
    + unfold scan_more. cbn [fst snd]. destruct (bool_decide _), (existsb _ _); set_solver.
    + intros it' _ _ Hit'. assert (it' = it) as -> by congruence. cbn [fst snd]. split.
      * intros (loc' & Hl & <-). assert (loc' = loc) as -> by congruence. rewrite bool_decide_eq_true_2 by done. set_solver.
      * intros Hdata%has_data_spec. rewrite Hdata. set_solver.
  - exists acc. split; [done|]. split; [unfold scan_more; set_solver|]. intros it Ht Hn _.
    rewrite <- !Z.eqb_eq in Ht. apply orb_true_iff in Ht. rewrite Ht in E. apply Z.eqb_neq in Hn. by rewrite Hn in E.
Qed.

Lemma scanned_more s item acc acc' : scan_more acc acc' -> scanned s item acc -> scanned s item acc'.
Proof.
  intros (H1 & H2 & _) Hs it Ht Hn Hit. destruct (Hs it Ht Hn Hit) as [Ha Hb]. split; intros Hx; [apply H1|apply H2]; auto.
Qed.

Lemma scan_more_trans a b c : scan_more a b -> scan_more b c -> scan_more a c.
Proof. clear HT. unfold scan_more. set_solver. Qed.

Lemma scan_items_ok s acc items :
  Forall (known_item T) items ->
  exists acc', scan_items T s acc items = Some acc' /\ scan_more acc acc' /\ forall item, item ∈ items -> scanned s item acc'.
Proof.
  intros Hi. revert acc. induction Hi as [|item items Hk _ IH]; intros acc; cbn [scan_items].
  { exists acc. split_and!; [done|unfold scan_more; set_solver|]. by intros item ?%not_elem_of_nil. }
  destruct (scan_item_ok s acc item Hk) as (acc1 & -> & M1 & S1). cbn [mbind option_bind].
  destruct (IH acc1) as (acc2 & E2 & M2 & S2). exists acc2. split_and!; [done|by eapply scan_more_trans|].
  intros i [->|Hin]%elem_of_cons; [by eapply scanned_more|by apply S2].
Qed.
End scan.

Section copy.
Context {B : Type} `{BackendSpec B}.
Context (base : gmap bytes bytes) (chk : LogItem.t) (T : gmap Z LogItem.t) (Hstore : store_ok base chk T).

(** What scanning the segments finds. *)
Definition found (segments : list (Z * Z)) (acc : gset Z * gset Z) : Prop :=
  forall s k it, s ∈ segments -> T !! k = Some it ->
    ((exists loc, LogItem.location it = Some loc /\ segment_of loc = s) -> k ∈ acc.1) /\ (data_in s it -> k ∈ acc.2).

Lemma inode_located k it : T !! k = Some it -> is_Some (LogItem.location it).
Proof. intros Hk. destruct (store_inode _ _ _ _ _ Hstore Hk) as [loc Hl]. rewrite (in_objs_location _ _ _ Hl). eauto. Qed.

(** One segment: all items there belong to inodes, and all that is in it is listed. *)
Lemma scan_segment_found s data its acc :
  segment_dir s.1 -> 0 <= s.2 -> base !! loc_to_name s = Some data -> parse_log data (Some s) = Some its ->
  (forall item, item ∈ its -> scanned T s item acc) -> found [s] acc.
Proof.
  intros Hd Hn Hb Hp Hs s' k it ->%list_elem_of_singleton Hk.
  destruct (so_inodes _ _ _ Hstore k it Hk) as (Hk0 & Einum & Etype & Hlinks).
  assert (Hlisted : forall loc x, in_objs base loc x -> segment_of loc = s -> x ∈ its).
  { intros loc x (_ & _ & data' & Hd' & its' & Hp' & Hx & _) E. rewrite E in *. congruence. }
  split.
  - intros (loc & Hloc & Hseg). destruct (store_inode _ _ _ _ _ Hstore Hk) as [loc' Hin].
    assert (loc' = loc) as -> by (rewrite (in_objs_location _ _ _ Hin) in Hloc; congruence).
    destruct (Hs it (Hlisted _ _ Hin Hseg) it) as [Ha _]; [by right|by rewrite Einum|by rewrite Einum|].
    rewrite Einum in Ha. eauto.
  - intros Hdata. pose proof Hdata as (l & loc & Hl & Hloc & Hseg). rewrite Forall_forall in Hlinks.
    destruct (Hlinks l Hl) as [?|(d & (loc' & -> & Hin) & Ed & Et)]; [congruence|]. simpl in Hloc. injection Hloc as ->.
    destruct (Hs d (Hlisted _ _ Hin Hseg) it) as [_ Hb']; [by left|by rewrite Ed|by rewrite Ed|]. rewrite Ed in Hb'. auto.
Qed.

Lemma scan_segments_ok v segments acc :
  base ⊆ objs v ->
  (forall s, s ∈ segments -> segment_dir s.1 /\ 0 <= s.2 /\ is_Some (base !! loc_to_name s)) ->
  wpv (B := B) (scan_segments T segments acc) v (fun acc' v' => v' = v /\ scan_more T acc acc' /\ found segments acc').
Proof.
  intros Hb. revert acc. induction segments as [|s segments IH]; intros acc Hs; cbn [scan_segments].
  { wpv_step. split_and!; [done|unfold scan_more; set_solver|]. by intros s k it ?%not_elem_of_nil. }
  destruct (Hs s) as (Hd & Hn & data & Hdata); [by left|]. destruct s as [d n]. simpl in Hd, Hn.
  destruct (so_segments _ _ _ Hstore d (loc_to_name (d, n)) data Hd Hdata (name_has_start d n)) as (_ & n' & its & Hn' & En & Hp & Hk).
  assert (n' = n) as ->.
  { apply loc_to_name_inj in En; simpl; try done; [congruence|by apply segment_dir_nonneg..]. }
  wpv_step. eapply wpv_mono; [eapply read_log_ok|].
  { by eapply lookup_weaken. } { by apply name_to_loc_name; [apply segment_dir_nonneg|]. } { done. }
  intros r v' [-> ->]. destruct (scan_items_ok T inode_located (d, n) acc its Hk) as (acc1 & E1 & M1 & S1).
  wpv_step. wpv_step; [done|]. eapply wpv_mono; [apply IH; intros s Hin; apply Hs; by right|].
  intros acc' v' (-> & M2 & F2). split; [done|]. split; [exact (scan_more_trans T acc acc1 acc' M1 M2)|].
  intros s k it [->|Hin]%elem_of_cons Hk'; [|by apply F2].
  destruct (scan_segment_found (d, n) data its acc1 Hd Hn Hdata Hp S1 (d, n) k it) as [Ha Hb']; [by left|done|].
  destruct M2 as (M2a & M2b & _). split; intros Hx; [apply M2a|apply M2b]; auto.
Qed.

(** ** Writing inodes again *)

Context (seq0 : Z).
Abbreviation log_wf := (log_wf base seq0 T).
Abbreviation new_place := (new_place seq0).
Abbreviation seq_of v := (LogDirectory.seq_num (vlog v)).

(** Items in the storage can be written, and are not too long. *)
Lemma stored_item loc it : in_objs base loc it -> writable it /\ item_size it < 2 ^ 32.
Proof.
  intros (_ & Hw & data & Hd & Hl). apply listed_slice in Hl as (_ & Ho & _ & Hlen & Hp).
  assert (Hb : are_bytes (part data (CloudPointer.offset loc) (Some (CloudPointer.size loc)))).
  { apply are_bytes_take, are_bytes_drop. by apply (so_bytes _ _ _ Hstore (loc_to_name (segment_of loc))). }
  destruct (parse_item_ok _ _ Hb Hp) as (W & _ & _). pose proof (parse_item_size _ _ Hb Hp) as Hs. split.
  - by apply (writable_place _ (LogItem.location it)) in W; destruct it.
  - destruct Hw as (_ & _ & _ & Hsz). unfold is_u in Hsz. change (256 ^ Z.of_nat 4) with (2 ^ 32) in Hsz.
    unfold part in Hs. rewrite length_take in Hs. change (item_size (it <| LogItem.location := None |>)) with (item_size it) in Hs. lia.
Qed.

(** What has become of a link: nothing if data is not copied. *)
Definition link_moved (v : View) (copy : bool) (l l' : bytes * option CloudPointer.t) : Prop :=
  match l.2 with
  | Some loc =>
    if copy then exists d loc', in_objs base loc d /\ l' = (l.1, Some loc') /\
      in_log v loc' (d <| LogItem.location := Some loc' |>) /\ new_place loc'
    else l' = l
  | None => l' = l
  end.
Definition moved (v : View) (copy : bool) (it it' : LogItem.t) : Prop :=
  exists loc' links', it' = it <| LogItem.links := links' |> <| LogItem.location := Some loc' |> /\
    in_log v loc' it' /\ new_place loc' /\ Forall2 (link_moved v copy) (LogItem.links it) links'.

Lemma link_moved_keeps v v' copy l l' : keeps_log v v' -> link_moved v copy l l' -> link_moved v' copy l l'.
Proof.
  unfold link_moved. intros K. destruct l.2; [|done]. destruct copy; [|done]. intros (d & loc' & ? & ? & Hin & ?).
  exists d, loc'. split_and!; try done. by apply K.
Qed.

Lemma moved_keeps v v' copy it it' : keeps_log v v' -> moved v copy it it' -> moved v' copy it it'.
Proof.
  intros K (loc' & links' & ? & ? & ? & Hl). exists loc', links'. split_and!; try done; [by apply K|].
  eapply Forall2_impl; [exact Hl|]. intros l l'. by apply link_moved_keeps.
Qed.

Lemma keeps_log_trans v1 v2 v3 : keeps_log v1 v2 -> keeps_log v2 v3 -> keeps_log v1 v3.
Proof. intros K1 K2 loc it Hin. by apply K2, K1. Qed.

Lemma copy_links_ok v k links :
  log_wf v -> settled v -> is_Some (T !! k) -> Forall (data_ok base k) links -> seq_of v + zlen links <= 2 ^ 32 ->
  wpv (B := B) (copy_links links) v (fun links' v' => log_wf v' /\ settled v' /\ keeps_log v v' /\ vimap v' = vimap v /\
    seq_of v' <= seq_of v + zlen links /\ Forall2 (link_moved v' true) links links').
Proof.
  intros W S Hk Hl. revert v W S. induction Hl as [|l links Hl Hls IH]; intros v W S Hseq; cbn [copy_links].
  { wpv_step. split_and!; try done; [by intros loc it|simpl; lia]. }
  cbn [length] in Hseq. wpv_step.
  assert (Hone : forall l' v1, log_wf v1 -> settled v1 -> keeps_log v v1 -> vimap v1 = vimap v ->
    seq_of v1 <= seq_of v + 1 -> link_moved v1 true l l' ->
    wpv (B := B) (rest ← copy_links links; mret (l' :: rest)) v1 (fun links' v' => log_wf v' /\ settled v' /\ keeps_log v v' /\
      vimap v' = vimap v /\ seq_of v' <= seq_of v + zlen (l :: links) /\ Forall2 (link_moved v' true) (l :: links) links')).
  { intros l' v1 W1 S1 K1 E1 Hq1 Hm. wpv_step. eapply wpv_mono; [apply IH; [done|done|lia]|].
    intros rest v2 (W2 & S2 & K2 & E2 & Hq2 & Hf). wpv_step. cbn [length]. split_and!; try done; try congruence; try lia.
    - by eapply keeps_log_trans.
    - constructor; [by eapply link_moved_keeps|done]. }
  destruct Hl as [E|(d & (loc & -> & Hin) & Ed & Et)].
  - rewrite E. wpv_step. apply Hone; try done; [by intros loc it|lia|]. unfold link_moved. by rewrite E.
  - cbn [snd]. destruct (stored_item loc d Hin) as [Wd Hsz]. wpv_step.
    eapply wpv_mono; [by apply (load_item_ok base v loc d (lw_base _ _ _ _ W))|]. intros r v' [-> ->]. wpv_step.
    eapply wpv_mono; [apply (log_write_ok base seq0 T); [done|done| |lia|done]|].
    { split; [done|]. intros _ _. by rewrite Ed. }
    intros d' v1 (W1 & S1 & K1 & E1 & Hq & loc' & -> & Hin' & Hnp). wpv_step. apply Hone; try done.
    exists d, loc'. done.
Qed.

(** The identifiers stay, and the links can be written. *)
Lemma moved_links_ok v copy k links links' :
  Forall (data_ok base k) links -> Forall link_ok links -> Forall2 (link_moved v copy) links links' ->
  same_ids links links' /\ Forall link_ok links'.
Proof.
  intros Hd Hok Hf. induction Hf as [|l l' links links' Hm Hf IH]; [done|].
  apply Forall_cons in Hd as [Hl Hd]. apply Forall_cons in Hok as [Ho Hok]. destruct (IH Hd Hok) as [IH1 IH2].
  assert (l'.1 = l.1 /\ link_ok l') as [E Hl'].
  { unfold link_moved in Hm. destruct l.2 as [loc|] eqn:E; [|by subst]. destruct copy; [|by subst].
    destruct Hm as (d & loc' & _ & -> & (_ & Hw & _) & _). split; [done|]. destruct Ho as (? & ? & Ho). split_and!; try done.
    simpl. rewrite E in Ho. destruct (bool_decide (l.1 = id0)); [done|]. eauto. }
  split; constructor; done.
Qed.

Lemma rewrite_inode_ok v k it copy :
  log_wf v -> settled v -> T !! k = Some it -> CleanMap.inodes (vimap v) !! k = Some it ->
  seq_of v + zlen (LogItem.links it) < 2 ^ 32 ->
  wpv (B := B) (rewrite_inode k copy) v (fun _ v' => log_wf v' /\ settled v' /\ keeps_log v v' /\
    seq_of v' <= seq_of v + 1 + zlen (LogItem.links it) /\
    exists it', moved v' copy it it' /\
      vimap v' = (vimap v) <| CleanMap.inodes ::= <[k := it']> |> <| CleanMap.updated_inodes ::= union {[k]} |>).
Proof.
  intros W S Hk Hi Hseq. destruct (so_inodes _ _ _ Hstore k it Hk) as (Hk0 & Einum & Etype & Hlinks).
  destruct (store_inode _ _ _ _ _ Hstore Hk) as [loc Hin]. destruct (stored_item loc it Hin) as [Wit Hsz].
  unfold rewrite_inode. wpv_step. wpv_step. wpv_step. wpv_step; [done|]. wpv_step.
  assert (Hgo : forall links' v1, log_wf v1 -> settled v1 -> keeps_log v v1 -> vimap v1 = vimap v ->
    seq_of v1 <= seq_of v + zlen (LogItem.links it) -> Forall2 (link_moved v1 copy) (LogItem.links it) links' ->
    wpv (B := B) (inode ← LogDirectory_write (it <| LogItem.links := links' |>) 1;
      modify (fun w => w <| inode_map ::= fun m => m <| CleanMap.inodes ::= <[k := inode]> |>
                                                     <| CleanMap.updated_inodes ::= union {[k]} |> |>)) v1
      (fun _ v' => log_wf v' /\ settled v' /\ keeps_log v v' /\ seq_of v' <= seq_of v + 1 + zlen (LogItem.links it) /\
        exists it', moved v' copy it it' /\
          vimap v' = (vimap v) <| CleanMap.inodes ::= <[k := it']> |> <| CleanMap.updated_inodes ::= union {[k]} |>)).
  { intros links' v1 W1 S1 K1 E1 Hq1 Hf.
    destruct (moved_links_ok v1 copy k _ _ Hlinks (proj1 (io_links _ Wit)) Hf) as [Hids Hok].
    destruct (same_item_size it links' Hids (proj1 (io_links _ Wit)) Hok Wit) as [Wit' Hsz'].
    wpv_step. eapply wpv_mono; [apply (log_write_ok base seq0 T); [done|done| |lia|lia]|].
    { split; [done|]. intros _ _. simpl. rewrite Einum. eauto. }
    intros it' v2 (W2 & S2 & K2 & E2 & Hq2 & loc' & -> & Hin' & Hnp). wpv_step.
    split; [by destruct W2|]. split; [done|]. split; [by eapply keeps_log_trans|]. split; [simpl; lia|].
    eexists. split; [|simpl; by rewrite E2, E1]. exists loc', links'. split; [done|]. split; [exact Hin'|]. split; [done|].
    eapply Forall2_impl; [exact Hf|]. intros l l' Hl. exact (link_moved_keeps v1 v2 copy l l' K2 Hl). }
  destruct copy.
  - wpv_step. eapply wpv_mono; [apply (copy_links_ok v k); [done|done|eauto|done|lia]|].
    intros links' v1 (? & ? & ? & ? & ? & ?). wpv_step. by apply Hgo.
  - wpv_step. replace it with (it <| LogItem.links := LogItem.links it |>) at 1 by (by destruct it).
    apply Hgo; try done; [by intros l x|lia|]. apply Forall2_same_length_lookup. split; [done|].
    intros i l l' Hl Hl'. assert (l' = l) as -> by congruence. unfold link_moved. by destruct l.2.
Qed.

(** ** The whole run *)

(** The writes that moving inode [k] takes. *)
Definition cost (it : LogItem.t) : Z := 1 + zlen (LogItem.links it).
Definition cost_of (k : Z) : Z := match T !! k with Some it => cost it | None => 0 end.

(** The inodes after those of [done] were written again, with the data of [dd]. *)
Definition table_moved (dd done : gset Z) (v : View) (tab : gmap Z LogItem.t) : Prop :=
  (forall k it, T !! k = Some it ->
    (k ∈ done -> exists it', tab !! k = Some it' /\ moved v (bool_decide (k ∈ dd)) it it') /\
    (k ∉ done -> tab !! k = Some it)) /\
  (forall k, T !! k = None -> tab !! k = None).

Lemma table_moved_keeps dd done v v' tab : keeps_log v v' -> table_moved dd done v tab -> table_moved dd done v' tab.
Proof.
  intros K [Ht Hn]. split; [|done]. intros k it Hk. destruct (Ht k it Hk) as [H1 H2]. split; [|done].
  intros Hd. destruct (H1 Hd) as (it' & ? & ?). exists it'. split; [done|]. by eapply moved_keeps.
Qed.

Lemma rewrite_loop_ok dd l done v m0 tab :
  NoDup l -> (forall k, k ∈ l -> is_Some (T !! k) /\ k ∉ done) ->
  log_wf v -> settled v -> vimap v = m0 <| CleanMap.inodes := tab |> <| CleanMap.updated_inodes := done |> ->
  table_moved dd done v tab -> seq_of v + lsum cost_of l <= 2 ^ 32 ->
  wpv (B := B) (for_each l (fun i => rewrite_inode i (bool_decide (i ∈ dd)))) v (fun _ v' =>
    log_wf v' /\ settled v' /\ keeps_log v v' /\ seq_of v' <= seq_of v + lsum cost_of l /\
    exists tab' done', vimap v' = m0 <| CleanMap.inodes := tab' |> <| CleanMap.updated_inodes := done' |> /\
      table_moved dd done' v' tab' /\ forall k, k ∈ done' <-> k ∈ done \/ k ∈ l).
Proof.
  intros Hd. revert done v tab. induction Hd as [|k l Hnin Hd IH]; intros done v tab Hl W S E Ht Hseq; cbn [for_each].
  { wpv_step. split_and!; [by destruct W..|by intros loc it|simpl; lia|]. exists tab, done. split_and!; [done|done|].
    intros k. split; [by left|]. by intros [?|?%not_elem_of_nil]. }
  destruct (Hl k) as [[it Hk] Hnd]; [by left|]. cbn [lsum foldr] in Hseq. change (foldr _ 0 l) with (lsum cost_of l) in Hseq.
  assert (Hlk : 0 <= lsum cost_of l) by (apply lsum_nonneg; intros j; unfold cost_of, cost; destruct (T !! j); lia).
  assert (Ec : cost_of k = 1 + zlen (LogItem.links it)) by (unfold cost_of; by rewrite Hk).
  wpv_step. eapply wpv_mono; [apply (rewrite_inode_ok v k it); [done|done|done| |lia]|].
  { rewrite E. simpl. by apply (proj1 Ht). }
  intros _ v1 (W1 & S1 & K1 & Hq1 & it' & Hm & E1).
  eapply wpv_mono; [apply (IH ({[k]} ∪ done) v1 (<[k := it']> tab)); [|done|done|by rewrite E1, E| |lia]|].
  - intros j Hj. split; [apply Hl; by right|]. assert (j <> k) by congruence. destruct (Hl j) as [_ Hj']; [by right|].
    by intros [?%elem_of_singleton|?]%elem_of_union.
  - destruct (table_moved_keeps _ _ _ _ _ K1 Ht) as [Ht1 Ht2]. split.
    + intros j x Hj. destruct (decide (j = k)) as [->|Hne].
      * rewrite lookup_insert_eq. assert (x = it) as -> by congruence. split; [eauto|].
        intros Hn. destruct Hn. apply elem_of_union. left. by apply elem_of_singleton.
      * rewrite lookup_insert_ne by done. destruct (Ht1 j x Hj) as [Ha Hb]. split.
        { intros [?%elem_of_singleton|?]%elem_of_union; [done|auto]. }
        intros Hn. apply Hb. intros ?. apply Hn, elem_of_union. by right.
    + intros j Hj. rewrite lookup_insert_ne by congruence. by apply Ht2.
  - intros _ v2 (W2 & S2 & K2 & Hq2 & tab' & done' & E2 & Ht' & Hd'). split_and!; [by destruct W2..|by eapply keeps_log_trans| |].
    + cbn [lsum foldr]. change (foldr _ 0 l) with (lsum cost_of l). lia.
    + exists tab', done'. split_and!; [done|done|]. intros j. rewrite Hd', elem_of_cons, elem_of_union, elem_of_singleton. tauto.
Qed.

Lemma lsum_cost l : NoDup l -> (forall k, k ∈ l -> is_Some (T !! k)) -> lsum cost_of l <= msum cost T.
Proof.
  clear Hstore. intros Hd Hl. unfold cost_of. revert T Hl. induction Hd as [|k l Hnin Hd IH]; intros T' Hl.
  { simpl. apply msum_nonneg. intros it. unfold cost. lia. }
  destruct (Hl k) as [it Hk]; [by left|]. pose proof (msum_delete cost T' k it Hk) as Hms.
  cbn [lsum foldr]. change (foldr _ 0 l) with (lsum (fun k => match T' !! k with Some it => cost it | None => 0 end) l).
  rewrite Hk. rewrite (lsum_ext _ (fun k' => match delete k T' !! k' with Some it => cost it | None => 0 end)).
  - specialize (IH (delete k T')). assert (lsum (fun k' => match delete k T' !! k' with Some it => cost it | None => 0 end) l <= msum cost (delete k T')); [|lia].
    apply IH. intros j Hj. rewrite lookup_delete_ne by congruence. apply Hl. by right.
  - intros j Hj. by rewrite lookup_delete_ne by congruence.
Qed.

(** Nothing of an inode is in one of the segments. *)
Definition clear_of (obs : gset (Z * Z)) (it : LogItem.t) : Prop := forall loc, inode_places it loc -> segment_of loc ∉ obs.

Lemma moved_clear obs v copy it it' :
  (forall s, s ∈ obs -> is_Some (base !! loc_to_name s)) -> (forall n, seq0 <= n -> base !! loc_to_name (1, n) = None) ->
  moved v copy it it' -> (copy = false -> forall s, s ∈ obs -> ~ data_in s it) -> clear_of obs it'.
Proof.
  intros Hobs Hfresh (loc' & links' & -> & _ & Hnp & Hf) Hcopy.
  assert (Hnew : forall loc, new_place loc -> segment_of loc ∉ obs).
  { intros loc [E1 E2] Hin. destruct (Hobs _ Hin) as [x Hx]. unfold segment_of in Hx. rewrite E1, Hfresh in Hx; done. }
  intros loc [E|(l' & Hl' & El)]; [injection E as <-; by apply Hnew|]. simpl in Hl'.
  apply list_elem_of_lookup_1 in Hl' as [i Hi]. destruct (Forall2_lookup_r _ _ _ _ _ Hf Hi) as (l & Hl & Hm).
  unfold link_moved in Hm. destruct l.2 as [loc0|] eqn:El0; [|congruence]. destruct copy.
  - destruct Hm as (d & loc1 & _ & -> & _ & Hn1). simpl in El. injection El as <-. by apply Hnew.
  - subst l'. intros Hin. apply (Hcopy eq_refl _ Hin). exists l, loc. split_and!; [by eapply list_elem_of_lookup_2|done|done].
Qed.

Lemma run_cleaner_ok v :
  log_wf v -> settled v -> objs v = base -> seq_of v + msum cost T <= 2 ^ 32 ->
  (forall n, seq0 <= n -> base !! loc_to_name (1, n) = None) ->
  CleanMap.inodes (vimap v) = T -> CleanMap.updated_inodes (vimap v) = ∅ -> CleanMap.obsolete_segments (vimap v) = ∅ ->
  table_ok base (CleanMap.segments (vimap v)) ->
  wpv (B := B) (run_cleaner false) v (fun _ v' => log_wf v' /\ settled v' /\ seq_of v' <= seq_of v + msum cost T /\
    exists obs dd done tab, (forall s, s ∈ obs -> is_Some (base !! loc_to_name s)) /\
      (forall s u, CleanMap.segments (vimap v) !! s = Some u -> poorly_utilized u = true ->
        exists loc, s = loc_to_name loc /\ loc ∈ obs) /\
      vimap v' = (vimap v) <| CleanMap.obsolete_segments := obs |> <| CleanMap.inodes := tab |> <| CleanMap.updated_inodes := done |> /\
      table_moved dd done v' tab /\ done ⊆ dom T /\ forall k it, tab !! k = Some it -> clear_of obs it).
Proof.
  intros W S Eo Hseq Hfresh ET EU EO Htab. unfold run_cleaner. wpv_step. wpv_step.
  destruct (find_obsolete_ok base (segment_items (CleanMap.segments (vimap v)))) as (obs & Hobs & Hobs' & Hpoor).
  { intros s u Hin%elem_of_segment_items. by apply Htab. }
  wpv_step. wpv_step; [done|]. wpv_step. wpv_step. wpv_step. wpv_step. wpv_step.
  set (v1 := setf vimap _ v).
  assert (E1 : vimap v1 = (vimap v) <| CleanMap.obsolete_segments := obs |>).
  { unfold v1. simpl. unfold setf. simpl. rewrite EO. by rewrite union_empty_r_L. }
  assert (W1 : log_wf v1) by (by destruct W). assert (S1 : settled v1) by done. assert (Eq1 : seq_of v1 = seq_of v) by done.
  assert (Eo1 : objs v1 = base) by done. clearbody v1.
  assert (CleanMap.inodes (vimap v1) = T) as -> by (by rewrite E1). assert (CleanMap.obsolete_segments (vimap v1) = obs) as -> by (by rewrite E1).
  eapply wpv_mono; [apply scan_segments_ok; [by rewrite Eo1|]|].
  { intros s Hs%elem_of_elements. by apply Hobs'. }
  intros [di dd] v' (-> & (_ & _ & Hd1 & Hd2) & Hfound). cbn [fst snd] in *.
  set (l := sorted_numbers (elements (di ∪ dd))).
  assert (Hperm : l ≡ₚ elements (di ∪ dd)) by apply merge_sort_Permutation.
  assert (Hdup : NoDup l) by (rewrite Hperm; apply NoDup_elements).
  assert (Hl : forall k, k ∈ l <-> k ∈ di \/ k ∈ dd) by (intros k; by rewrite Hperm, elem_of_elements, elem_of_union).
  assert (HlT : forall k, k ∈ l -> is_Some (T !! k)).
  { intros k [Hk|Hk]%Hl; apply elem_of_dom; [apply Hd1 in Hk|apply Hd2 in Hk];
      apply elem_of_union in Hk as [Hk|Hk]; (done || by apply elem_of_empty in Hk). }
  pose proof (lsum_cost l Hdup HlT) as Hcost.
  eapply wpv_mono; [apply (rewrite_loop_ok dd l ∅ v1 ((vimap v) <| CleanMap.obsolete_segments := obs |>) T); try done|].
  - intros k Hk. split; [by apply HlT|apply not_elem_of_empty].
  - rewrite E1. destruct (vimap v); simpl in *. unfold setf. simpl. by subst.
  - lia.
  - intros _ v2 (W2 & S2 & _ & Hq & tab & done & E2 & Ht & Hdone). split_and!; [by destruct W2..|lia|].
    exists obs, dd, done, tab. split_and!; [intros s Hs; by apply Hobs'| |done|done| |].
    { intros s u Hs. by apply Hpoor, elem_of_segment_items. }
    { intros k Hk. apply elem_of_dom, HlT. apply Hdone in Hk as [?%elem_of_empty|?]; done. }
    intros k it' Hk. destruct (T !! k) as [it|] eqn:ETk; [|by rewrite (proj2 Ht k ETk) in Hk].
    destruct (proj1 Ht k it ETk) as [Hin Hout]. destruct (decide (k ∈ done)) as [Hkd|Hkd].
    + destruct (Hin Hkd) as (it1 & Hk1 & Hm). assert (it1 = it') as -> by congruence.
      apply (moved_clear obs v2 (bool_decide (k ∈ dd)) it it'); [intros s Hs; by apply Hobs'|done|done|]. intros Hc%bool_decide_eq_false s Hs Hdata.
      apply Hc. apply (Hfound s k it); [by apply elem_of_elements|done|done].
    + assert (it' = it) as -> by (rewrite (Hout Hkd) in Hk; congruence).
      assert (Hk' : (k ∉ di) /\ (k ∉ dd)) by (split; intros Hx; apply Hkd, Hdone; right; apply Hl; auto).
      intros loc Hp Hs. destruct (Hfound (segment_of loc) k it) as [Ha Hb]; [by apply elem_of_elements|done|].
      destruct Hp as [Hp|(x & Hx & Ex)]; [apply (proj1 Hk'), Ha; eauto|]. apply (proj2 Hk'), Hb. exists x, loc. done.
Qed.
End copy.
