(* ===== verification/CleanDone.v ===== *)
(** * The result of the segment cleaner

    [InodeMap.write] of src/cleaner/cleaner writes the new blocks of the inode map and
    a new checkpoint; then the whole program keeps every file. *)

From S2P Require Import Prelude State Serialize RoundtripItem Crypto LogThread Store Replay NameOrder CleanItems CleanStore CleanRun CleanView CleanLog CleanBuild CleanCopy.
From Stdlib Require Import ZArith Lia Sorted.
From stdpp Require Import base numbers gmap option list sorting.

Open Scope Z_scope.

(** ** Numbers in blocks *)

Lemma words_le l rest : Forall (is_u 8) l -> words (length l) (concat (le_bytes 8 <$> l) ++ rest) = l.
Proof.
  induction 1 as [|x l Hx _ IH]; [done|]. rewrite fmap_cons. cbn [concat length words]. rewrite <- (assoc_L (++)).
  rewrite take_app_length', drop_app_length' by (by rewrite length_le_bytes). by rewrite le_val_u, IH.
Qed.

Lemma length_concat_le n (l : list Z) : length (concat (le_bytes n <$> l)) = (n * length l)%nat.
Proof. induction l as [|x l IH]; [simpl; lia|]. rewrite fmap_cons. cbn [concat length]. rewrite length_app, length_le_bytes, IH. lia. Qed.

Lemma are_bytes_concat_le n (l : list Z) : are_bytes (concat (le_bytes n <$> l)).
Proof.
  induction l as [|x l IH]; [constructor|]. rewrite fmap_cons. cbn [concat]. apply Forall_app. split; [apply le_bytes_are_bytes|done].
Qed.

Lemma imap_inums_le l : Forall (is_u 8) l -> imap_inums (concat (le_bytes 8 <$> l)) = l.
Proof.
  intros Hl. unfold imap_inums. rewrite length_concat_le, Nat.mul_comm, Nat.div_mul by done.
  rewrite <- (app_nil_r (concat _)). by apply words_le.
Qed.

Lemma words_range n data : are_bytes data -> Forall (is_u 8) (words n data).
Proof.
  revert data. induction n as [|n IH]; intros data Hd; cbn [words]; constructor; [by apply le_val_field|].
  apply IH. by apply are_bytes_drop.
Qed.

(** ** The version vector *)

Definition vv_wf (vv : gmap Z Z) : Prop := forall d v, vv !! d = Some v -> is_u 4 d /\ is_u 4 v.

Lemma unpack_u32_ok data off x : are_bytes data -> unpack_u32 data off = Some x -> is_u 4 x.
Proof.
  intros Hd. unfold unpack_u32. destruct (_ <=? _)%nat; [|done]. intros [= <-]. apply le_val_field. by apply are_bytes_drop.
Qed.

Lemma vv_loop_wf n data vv0 vv :
  are_bytes data -> vv_wf vv0 -> vv_loop n data vv0 = Some vv -> vv_wf vv /\ Z.of_nat (size vv) <= Z.of_nat (size vv0) + Z.of_nat n.
Proof.
  revert data vv0. induction n as [|n IH]; intros data vv0 Hd Hv; cbn [vv_loop]; [intros [= <-]; split; [done|lia]|].
  destruct (unpack_u32 data 0) as [v1|] eqn:E1; [|done]. destruct (unpack_u32 data 4) as [v2|] eqn:E2; [|done].
  cbn [mbind option_bind]. intros Hl. apply IH in Hl as [Hw Hs]; [|by apply are_bytes_drop|].
  - split; [done|]. destruct (vv0 !! v1) as [x|] eqn:E.
    + rewrite map_size_insert_Some in Hs by eauto. lia.
    + rewrite map_size_insert_None in Hs by done. lia.
  - intros d v. destruct (decide (d = v1)) as [->|].
    + rewrite lookup_insert_eq. intros [= <-]. split; by eapply unpack_u32_ok.
    + rewrite lookup_insert_ne by done. apply Hv.
Qed.

Definition vv_pairs (vv : list (Z * Z)) : bytes := concat ((fun p => le_bytes 4 p.1 ++ le_bytes 4 p.2) <$> vv).

Lemma pack_vv_ok l : Forall (fun p => is_u 4 p.1 /\ is_u 4 p.2) l -> pack_vv l = Some (vv_pairs l).
Proof.
  unfold vv_pairs. induction 1 as [|[d v] l [Hd Hv] _ IH]; [done|]. cbn [pack_vv]. rewrite !pack_uint_ok by done.
  cbn [mbind option_bind]. rewrite IH. cbn [mbind option_bind]. rewrite fmap_cons. cbn [concat fst snd]. by rewrite <- (assoc_L (++)).
Qed.

Lemma length_vv_pairs l : length (vv_pairs l) = (8 * length l)%nat.
Proof.
  unfold vv_pairs. induction l as [|p l IH]; [done|]. rewrite fmap_cons. cbn [concat length].
  rewrite !length_app, !length_le_bytes, IH. lia.
Qed.

Lemma are_bytes_vv_pairs l : are_bytes (vv_pairs l).
Proof.
  unfold vv_pairs. induction l as [|p l IH]; [constructor|]. rewrite fmap_cons. cbn [concat]. rewrite !Forall_app.
  split_and!; [apply le_bytes_are_bytes..|done].
Qed.

Lemma vv_loop_pairs l rest vv0 :
  Forall (fun p => is_u 4 p.1 /\ is_u 4 p.2) l ->
  vv_loop (length l) (vv_pairs l ++ rest) vv0 = Some (foldl (fun m p => <[p.1 := p.2]> m) vv0 l).
Proof.
  unfold vv_pairs. intros Hl. revert vv0. induction Hl as [|[d v] l [Hd Hv] _ IH]; intros vv0; [done|].
  rewrite fmap_cons. cbn [concat length vv_loop foldl fst snd]. rewrite <- !(assoc_L (++)).
  set (r := concat _ ++ rest). unfold unpack_u32.
  rewrite (proj2 (Nat.leb_le _ _)) by (rewrite !length_app, !length_le_bytes; lia). cbn [mbind option_bind].
  rewrite (proj2 (Nat.leb_le _ _)) by (rewrite !length_app, !length_le_bytes; lia). cbn [mbind option_bind].
  rewrite drop_0, take_app_length' by (by rewrite length_le_bytes). rewrite (drop_app_length' (le_bytes 4 d) _ 4) by (by rewrite length_le_bytes).
  rewrite take_app_length' by (by rewrite length_le_bytes). rewrite (assoc_L (++)), drop_app_length'
    by (by rewrite length_app, !length_le_bytes).
  rewrite !le_val_u by done. apply IH.
Qed.

(** The version vector is read back. *)
Lemma version_vector_ok vv rest :
  vv_wf vv -> Z.of_nat (size vv) < 2 ^ 32 ->
  exists vvb, version_vector_bytes vv = Some vvb /\ zlen vvb = 4 + 8 * Z.of_nat (size vv) /\ are_bytes vvb /\
    read_version_vector (vvb ++ rest) = Some (vv, zlen vvb).
Proof.
  intros Hv Hs. unfold version_vector_bytes. set (l := (fun d => (d, default 0 (vv !! d))) <$> _).
  assert (Hk : sorted_numbers (map_to_list vv).*1 ≡ₚ (map_to_list vv).*1) by apply merge_sort_Permutation.
  assert (Hlen : length l = size vv).
  { unfold l. rewrite length_fmap, Hk, length_fmap. apply length_map_to_list. }
  assert (Hl : forall p, p ∈ l <-> vv !! p.1 = Some p.2).
  { intros [d v]. unfold l. rewrite list_elem_of_fmap. setoid_rewrite Hk. setoid_rewrite list_elem_of_fmap. simpl. split.
    - intros (d' & [= -> ->] & [k x] & -> & Hx%elem_of_map_to_list). simpl. by rewrite Hx.
    - intros E. exists d. rewrite E. split; [done|]. exists (d, v). split; [done|]. by apply elem_of_map_to_list. }
  assert (Hf : Forall (fun p => is_u 4 p.1 /\ is_u 4 p.2) l).
  { apply Forall_forall. intros p Hp%Hl. by apply Hv. }
  rewrite (pack_uint_ok 4) by (unfold is_u; change (256 ^ Z.of_nat 4) with (2 ^ 32); lia). cbn [mbind option_bind].
  rewrite pack_vv_ok by done. cbn [mbind option_bind]. eexists. split; [done|].
  assert (Hzl : zlen (le_bytes 4 (Z.of_nat (size vv)) ++ vv_pairs l) = 4 + 8 * Z.of_nat (size vv))
    by (rewrite length_app, length_le_bytes, length_vv_pairs; lia).
  split; [done|]. split; [apply Forall_app; split; [apply le_bytes_are_bytes|apply are_bytes_vv_pairs]|]. rewrite Hzl.
  rewrite <- (assoc_L (++)). unfold read_version_vector, unpack_u32.
  rewrite (proj2 (Nat.leb_le _ _)) by (rewrite !length_app, !length_le_bytes; lia). cbn [mbind option_bind].
  rewrite drop_0, take_app_length' by (by rewrite length_le_bytes). rewrite drop_app_length' by (by rewrite length_le_bytes).
  rewrite le_val_u by (unfold is_u; change (256 ^ Z.of_nat 4) with (2 ^ 32); lia). rewrite Nat2Z.id, <- Hlen, vv_loop_pairs by done.
  cbn [mbind option_bind]. do 2 f_equal.
  assert (Hfold : forall (l : list (Z * Z)) (m0 : gmap Z Z), (forall p, p ∈ l -> vv !! p.1 = Some p.2) ->
    forall k, foldl (fun m (p : Z * Z) => <[p.1 := p.2]> m) m0 l !! k = if decide (k ∈ l.*1) then vv !! k else m0 !! k).
  { clear. induction l as [|[d v] l IH]; intros m0 Hp k; [done|]. cbn [foldl fst snd]. rewrite IH by (intros p ?; apply Hp; by right).
    rewrite fmap_cons. cbn [fst]. case_decide as H1; [by rewrite decide_True by (by right)|].
    destruct (decide (k = d)) as [->|Hne].
    - rewrite lookup_insert_eq, decide_True by (by left). symmetry. apply (Hp (d, v)). by left.
    - rewrite lookup_insert_ne, decide_False; [done| |done]. by intros [?|?]%elem_of_cons. }
  apply map_eq. intros k. rewrite Hfold by (intros p; by apply Hl). case_decide as Hk'; [done|].
  rewrite lookup_empty. symmetry. apply eq_None_not_Some. intros [x Hx]. apply Hk'. apply list_elem_of_fmap.
  exists (k, x). split; [done|]. by apply Hl.
Qed.

(** ** Blocks of the inode map *)

(** The link leads to the item in the log. *)
Definition link_log (v : View) (l : bytes * option CloudPointer.t) (it : LogItem.t) : Prop :=
  exists loc, l = (LogItem.id it, Some loc) /\ in_log v loc it.

Lemma link_log_keeps v v' l it : keeps_log v v' -> link_log v l it -> link_log v' l it.
Proof. intros K (loc & -> & Hin). exists loc. split; [done|]. by apply K. Qed.

Lemma in_objs_log m v loc it : m ⊆ objs v -> in_objs m loc it -> in_log v loc it.
Proof.
  intros Hm (? & ? & data & Hd & Hl). split_and!; [done..|]. exists data. split; [|done]. left. by eapply lookup_weaken.
Qed.

Lemma link_to_log m v l it : m ⊆ objs v -> link_to m l it -> link_log v l it.
Proof. intros Hm (loc & -> & Hin). exists loc. split; [done|]. by eapply in_objs_log. Qed.

Lemma in_log_location v loc it : in_log v loc it -> LogItem.location it = Some loc.
Proof. by intros (_ & _ & data & _ & its & _ & _ & Hl). Qed.

(** An inode that a block can refer to. *)
Definition entry_ok (v : View) (k : Z) (it : LogItem.t) : Prop :=
  is_u 8 k /\ exists loc, in_log v loc it /\ link_ok (LogItem.id it, Some loc).

Lemma entry_ok_keeps v v' k it : keeps_log v v' -> entry_ok v k it -> entry_ok v' k it.
Proof. intros K (? & loc & Hin & ?). split; [done|]. exists loc. split; [by apply K|done]. Qed.

(** A block in the log. *)
Definition block_log (v : View) (tab : gmap Z LogItem.t) (r : Z * Z) (block : LogItem.t) : Prop :=
  Forall2 (fun inum l => r.1 <= inum <= r.2 /\ exists it, tab !! inum = Some it /\ link_log v l it)
    (imap_inums (LogItem.data block)) (LogItem.links block).

Lemma block_log_keeps v v' tab r block : keeps_log v v' -> block_log v tab r block -> block_log v' tab r block.
Proof.
  intros K Hb. eapply Forall2_impl; [exact Hb|]. intros inum l (? & it & ? & ?). split; [done|]. exists it.
  split; [done|]. by eapply link_log_keeps.
Qed.

Lemma block_entries_ok v tab inums :
  (forall k it, tab !! k = Some it -> entry_ok v k it) -> (forall k, k ∈ inums -> is_Some (tab !! k)) ->
  exists links, block_entries tab inums = Some (concat (le_bytes 8 <$> inums), links) /\ Forall link_ok links /\
    Forall2 (fun inum l => exists it, tab !! inum = Some it /\ link_log v l it) inums links.
Proof.
  intros Htab. induction inums as [|k inums IH]; intros Hin; [by exists []|]. cbn [block_entries].
  destruct (Hin k) as [it Hk]; [by left|]. destruct (Htab k it Hk) as (Hu & loc & Hloc & Hlo).
  destruct IH as (links & E & Hl & Hf). { intros j Hj. apply Hin. by right. }
  rewrite pack_uint_ok by done. cbn [mbind option_bind]. rewrite Hk. cbn [mbind option_bind]. rewrite E. cbn [mbind option_bind].
  rewrite (in_log_location _ _ _ Hloc). eexists. split; [done|]. split; constructor; try done. exists it. split; [done|]. by exists loc.
Qed.

Lemma new_item_writable type id data links :
  0 <= type < 128 -> length id = 16%nat -> are_bytes id -> are_bytes data -> Forall link_ok links ->
  zlen data + 16 * zlen links < 2 ^ 32 ->
  writable (new_item type id data links) /\ item_size (new_item type id data links) <= 89 + zlen data + 32 * zlen links.
Proof.
  intros Ht Hid Hidb Hd Hl Hs. destruct (length_links links Hl) as [E1 E2].
  assert (W : writable (new_item type id data links)).
  { split; simpl; try done.
    - split; [done|]. by apply (Forall_replicate is_byte 48 0).
    - split; [done|lia].
    - split; [done|lia]. }
  split; [done|]. unfold item_size. rewrite <- header_item_size by done. unfold Header.item_size, HEADER_SIZE. simpl. lia.
Qed.

Section result.
Context {B : Type} `{BackendSpec B} (urandom : Z -> bytes).
Context (Hrand : forall n, length (urandom n) = 16%nat /\ are_bytes (urandom n) /\ urandom n <> id0).
Context (base : gmap bytes bytes) (T : gmap Z LogItem.t) (seq0 : Z).
Abbreviation log_wf := (log_wf base seq0 T).
Abbreviation new_place := (new_place seq0).
Abbreviation seq_of v := (LogDirectory.seq_num (vlog v)).

Lemma random_link_ok n loc : pointer_wf loc -> link_ok (urandom n, Some loc).
Proof.
  intros Hw. destruct (Hrand n) as (? & ? & ?). split_and!; try done. simpl. rewrite bool_decide_eq_false_2 by done. eauto.
Qed.

Lemma map_block_written v start end_ :
  log_wf v -> settled v -> seq_of v < 2 ^ 32 -> 40 * Z.of_nat (size (CleanMap.inodes (vimap v))) + 89 < 2 ^ 32 ->
  (forall k it, CleanMap.inodes (vimap v) !! k = Some it -> entry_ok v k it) ->
  wpv (B := B) (write_block urandom start end_) v (fun block v' => log_wf v' /\ settled v' /\ keeps_log v v' /\
    vimap v' = vimap v /\ seq_of v' <= seq_of v + 1 /\
    exists loc, in_log v' loc block /\ new_place loc /\ link_ok (LogItem.id block, Some loc) /\
      block_log v' (CleanMap.inodes (vimap v)) (start, end_) block /\
      forall k, is_Some (CleanMap.inodes (vimap v) !! k) -> start <= k <= end_ -> k ∈ imap_inums (LogItem.data block)).
Proof.
  intros W S Hseq Hcap Htab. unfold write_block. set (tab := CleanMap.inodes (vimap v)) in *.
  wpv_step. wpv_step. fold tab. set (inums := sorted_numbers _).
  assert (Hperm : inums ≡ₚ filter (fun k => start <= k /\ k <= end_) (map_to_list tab).*1) by apply merge_sort_Permutation.
  assert (Hin : forall k, k ∈ inums <-> (start <= k <= end_) /\ is_Some (tab !! k)).
  { intros k. rewrite Hperm, list_elem_of_filter, list_elem_of_fmap. split.
    - intros [Hr ([k' it] & -> & Hk%elem_of_map_to_list)]. simpl in *. split; [lia|eauto].
    - intros [Hr [it Hk]]. split; [lia|]. exists (k, it). split; [done|]. by apply elem_of_map_to_list. }
  assert (Hlen : zlen inums <= Z.of_nat (size tab)).
  { rewrite Hperm. etransitivity; [apply inj_le, length_filter|]. rewrite length_fmap, length_map_to_list. lia. }
  destruct (block_entries_ok v tab inums Htab) as (links & E & Hlok & Hf). { intros k Hk. by apply Hin. }
  assert (Hu : Forall (is_u 8) inums).
  { apply Forall_forall. intros k [_ [it Hk]]%Hin. by apply (Htab k it). }
  pose proof (Forall2_length _ _ _ Hf) as Hll. pose proof (length_concat_le 8 inums) as Hcl.
  destruct (Hrand (vrand v)) as (Hr1 & Hr2 & Hr3).
  destruct (new_item_writable ITEM_TYPE.INODE_MAP (urandom (vrand v)) (concat (le_bytes 8 <$> inums)) links) as [Wb Hsz];
    [done|done|done|apply are_bytes_concat_le|done|lia|].
  wpv_step. wpv_step. wpv_step. wpv_step; [done|]. cbn [fst snd].
  eapply wpv_mono; [apply (log_write_ok base seq0 T); [by destruct W|done| |done|lia]|].
  { split; [done|]. by intros [E'|E']. }
  intros block v' (W' & S' & K & Ev & Hq & loc & -> & Hloc & Hnp). split_and!; [by destruct W'|done|exact K|done|done|].
  assert (Hfl : Forall2 (fun inum l => start <= inum <= end_ /\ exists it, tab !! inum = Some it /\ link_log v' l it) inums links).
  { apply Forall2_same_length_lookup. split; [done|]. intros i k l Hi Hl.
    destruct (Forall2_lookup_lr _ _ _ _ _ _ Hf Hi Hl) as (it & Hk & Hto). split.
    - apply (Hin k). by eapply list_elem_of_lookup_2.
    - exists it. split; [done|]. eapply link_log_keeps; [exact K|exact Hto]. }
  exists loc. split; [done|]. split; [done|]. split; [apply random_link_ok; apply Hloc|]. unfold block_log. simpl.
  rewrite imap_inums_le by done. split; [done|]. intros k Hk Hr. apply Hin. done.
Qed.

(** ** The loop over the ranges *)

Context (obs : gset (Z * Z)).
Context (Hobs : forall s, s ∈ obs -> is_Some (base !! loc_to_name s)).
Context (Hfresh : forall n, seq0 <= n -> base !! loc_to_name (1, n) = None).

Lemma new_place_clear loc : new_place loc -> segment_of loc ∉ obs.
Proof.
  intros [E1 E2] Hin. destruct (Hobs _ Hin) as [x Hx]. unfold segment_of in Hx. rewrite E1, Hfresh in Hx; done.
Qed.

Lemma pop_updated_spec upd e k : k ∈ upd -> k <= e \/ k ∈ pop_updated upd e.
Proof.
  induction upd as [|j upd IH]; [by intros ?%not_elem_of_nil|]. cbn [pop_updated].
  destruct (Z.leb_spec j e); [|by right]. intros [->|Hk]%elem_of_cons; [by left|auto].
Qed.
Lemma pop_updated_sorted upd e : StronglySorted Z.le upd -> StronglySorted Z.le (pop_updated upd e).
Proof. induction 1 as [|j upd Hs IH Hj]; cbn [pop_updated]; [constructor|]. destruct (j <=? e); [done|by constructor]. Qed.

(** A range of the new checkpoint: its link leads to a block of [tab] outside the
    segments that are cleaned. *)
Definition range_ok (v : View) (tab : gmap Z LogItem.t) (r : Z * Z) (l : bytes * option CloudPointer.t) : Prop :=
  exists block loc, l = (LogItem.id block, Some loc) /\ in_log v loc block /\ (segment_of loc ∉ obs) /\ link_ok l /\
    block_log v tab r block.
(** The inodes of the old block are in the new one. *)
Definition range_complete (v : View) (l l' : bytes * option CloudPointer.t) : Prop :=
  forall block k, link_to base l block -> k ∈ imap_inums (LogItem.data block) ->
    exists block', link_log v l' block' /\ k ∈ imap_inums (LogItem.data block').

Lemma range_ok_keeps v v' tab r l : keeps_log v v' -> range_ok v tab r l -> range_ok v' tab r l.
Proof.
  intros K (block & loc & ? & ? & ? & ? & ?). exists block, loc. split_and!; try done; [by apply K|by eapply block_log_keeps].
Qed.
Lemma range_complete_keeps v v' l l' : keeps_log v v' -> range_complete v l l' -> range_complete v' l l'.
Proof. intros K Hc block k Hto Hk. destruct (Hc block k Hto Hk) as (b' & ? & ?). exists b'. split; [by eapply link_log_keeps|done]. Qed.

(** What the loop leaves. *)
Definition ranges_written (v : View) (ranges : list (Z * Z)) (links links' : list (bytes * option CloudPointer.t)) (v' : View) : Prop :=
  log_wf v' /\ settled v' /\ keeps_log v v' /\ vimap v' = vimap v /\ seq_of v' <= seq_of v + zlen ranges /\
  Forall2 (range_ok v' (CleanMap.inodes (vimap v))) ranges links' /\ Forall2 (range_complete v') links links'.

Lemma ranges_written_cons v v1 r ranges l links l' links' v' :
  keeps_log v v1 -> vimap v1 = vimap v -> seq_of v1 <= seq_of v + 1 ->
  range_ok v1 (CleanMap.inodes (vimap v)) r l' -> range_complete v1 l l' ->
  ranges_written v1 ranges links links' v' -> ranges_written v (r :: ranges) (l :: links) (l' :: links') v'.
Proof.
  intros K1 E1 Hq1 Ho Hc (W & S & K & E & Hq & Hf1 & Hf2). rewrite E1 in *. split_and!; try done.
  - by eapply keeps_log_trans.
  - cbn [length]. lia.
  - constructor; [by eapply range_ok_keeps|done].
  - constructor; [by eapply range_complete_keeps|done].
Qed.

Lemma write_ranges_ok v ranges links upd (done : gset Z) :
  log_wf v -> settled v -> seq_of v + zlen ranges <= 2 ^ 32 ->
  40 * Z.of_nat (size (CleanMap.inodes (vimap v))) + 89 < 2 ^ 32 ->
  (forall k it, CleanMap.inodes (vimap v) !! k = Some it -> entry_ok v k it) ->
  CleanMap.obsolete_segments (vimap v) = obs ->
  (forall k it, T !! k = Some it -> is_Some (CleanMap.inodes (vimap v) !! k) /\ (k ∉ done -> CleanMap.inodes (vimap v) !! k = Some it)) ->
  Forall2 (fun r l => link_ok l /\ exists block, link_to base l block /\ block_ok base T r block) ranges links ->
  StronglySorted (fun r r' : Z * Z => r.2 < r'.1) ranges -> StronglySorted Z.le upd ->
  (forall k, k ∈ done -> k ∈ upd \/ forall r, r ∈ ranges -> k < r.1) ->
  wpv (B := B) (write_ranges urandom ranges links upd) v (ranges_written v ranges links).
Proof.
  intros W S Hseq Hcap Hent Eobs Htab Hf. revert v upd W S Hseq Hcap Hent Eobs Htab.
  induction Hf as [|[start end_] l ranges links (Hlo & block & Hto & Hb) Hf IH];
    intros v upd W S Hseq Hcap Hent Eobs Htab Hsr Hsu Hupd; cbn [write_ranges].
  { wpv_step. split_and!; try done; [by intros loc it|simpl; lia]. }
  cbn [length] in Hseq. apply StronglySorted_cons in Hsr as [Hr Hsr].
  set (rewrite := block ← write_block urandom start end_; _).
  assert (Hrange : forall k b, link_to base l b -> k ∈ imap_inums (LogItem.data b) ->
    start <= k <= end_ /\ exists it l', T !! k = Some it /\ link_to base l' it).
  { intros k b Hto' Hk. assert (b = block) as ->.
    { destruct Hto as (? & -> & ?), Hto' as (? & [= _ <-] & ?). by eapply in_objs_inj. }
    apply list_elem_of_lookup_1 in Hk as [i Hi]. destruct (Forall2_lookup_l _ _ _ _ _ Hb Hi) as (l' & _ & ? & it & ? & ?). eauto. }
  assert (Hrewrite : wpv (B := B) rewrite v (ranges_written v ((start, end_) :: ranges) (l :: links))).
  { unfold rewrite. wpv_step. eapply wpv_mono; [apply map_block_written; [done|done|lia|done|done]|].
    intros nb v1 (W1 & S1 & K1 & E1 & Hq1 & loc & Hloc & Hnp & Hlk & Hbl & Hall). wpv_step. cbn [tail].
    eapply wpv_mono; [apply IH; try rewrite E1; try done; [lia|..]|].
    - intros k it Hk. eapply entry_ok_keeps; [exact K1|by apply Hent].
    - by apply pop_updated_sorted.
    - intros k Hk. destruct (Hupd k Hk) as [Hin|Hlt]; [|right; intros r Hin; apply Hlt; by right].
      destruct (pop_updated_spec upd end_ k Hin) as [Hle|?]; [|by left]. right. intros r Hin'.
      rewrite Forall_forall in Hr. specialize (Hr r Hin'). simpl in Hr. lia.
    - intros links' v2 Hw. wpv_step. rewrite (in_log_location _ _ _ Hloc).
      apply (ranges_written_cons v v1); [done|done|done| | |done].
      + exists nb, loc. split_and!; [done|done|by apply new_place_clear|done..].
      + intros b k Hto' Hk. destruct (Hrange k b Hto' Hk) as (Hkr & it & _ & Hit & _). exists nb. split; [by exists loc|].
        apply Hall; [by apply (Htab k it)|done]. }
  destruct (match upd with [] => true | k :: _ => end_ <? k end) eqn:Ecase; [|done].
  pose proof Hto as (loc & El & Hloc). wpv_step. wpv_step; [done|]. wpv_step. wpv_step; [by rewrite El|]. wpv_step. wpv_step.
  rewrite Eobs. case_decide as Hin; [done|]. wpv_step. cbn [tail].
  eapply wpv_mono; [apply IH; try done; [lia|]|].
  { intros k Hk. destruct (Hupd k Hk) as [?|Hlt]; [by left|]. right. intros r Hr'. apply Hlt. by right. }
  intros links' v2 Hw. wpv_step. pose proof (lw_base _ _ _ _ W) as Hbase.
  apply (ranges_written_cons v v); [by intros ? ?|done|lia| | |done].
  - exists block, loc. split_and!; [done|by eapply in_objs_log|done|done|].
    eapply Forall2_impl; [exact Hb|]. intros k l' (Hkr & it & Hk & Hto'). split; [done|]. exists it.
    split; [|by eapply link_to_log]. apply (Htab k it Hk). intros Hd. simpl in Hkr. destruct (Hupd k Hd) as [Hku|Hlt].
    + destruct upd as [|j upd]; [by apply not_elem_of_nil in Hku|]. apply Z.ltb_lt in Ecase.
      apply StronglySorted_cons in Hsu as [Hj _]. apply elem_of_cons in Hku as [->|Hku]; [lia|].
      rewrite Forall_forall in Hj. specialize (Hj k Hku). lia.
    + specialize (Hlt (start, end_) ltac:(by left)). simpl in Hlt. lia.
  - intros b k Hto' Hk. exists b. split; [by eapply link_to_log|done].
Qed.

(** ** The checkpoint *)

Context (chk : LogItem.t) (Hstore : store_ok base chk T).
Context (chkloc : CloudPointer.t) (Hchk : in_objs base chkloc chk).
Context (vvb rb : bytes) (vv : gmap Z Z) (Hdata : checkpoint_data chk vvb rb vv).
Abbreviation version := (<[CloudPointer.directory chkloc := CloudPointer.sequence chkloc]> vv).

Lemma chk_table :
  StronglySorted (fun r r' : Z * Z => r.2 < r'.1) (imap_ranges rb) /\
  Forall2 (fun r l => link_ok l /\ exists block, link_to base l block /\ block_ok base T r block)
    (imap_ranges rb) (LogItem.links chk).
Proof.
  destruct (so_table _ _ _ Hstore) as (vvb' & rb' & vv' & (E1 & E2 & _) & Hs & Hf). destruct Hdata as (E1' & E2' & _).
  rewrite E1 in E1'. apply app_inv_head in E1'.
  assert (rb' = rb) as ->.
  { rewrite E1', E2' in E2. injection E2 as _ El. apply app_inj_1 in E1' as [_ ?]; [done|lia]. }
  split; [done|]. destruct (stored_item base chk T Hstore chkloc chk Hchk) as [[_ _ _ _ _ [Hl _]] _].
  apply Forall2_same_length_lookup. split; [by eapply Forall2_length|]. intros i r l Hr Hli.
  split; [by eapply Forall_lookup_1|]. exact (Forall2_lookup_lr _ _ _ _ _ _ Hf Hr Hli).
Qed.

(** The version vector of the new checkpoint. *)
Lemma version_ok :
  vv_wf version /\ 8 * Z.of_nat (size version) <= zlen vvb + 4 /\ are_bytes rb.
Proof.
  destruct (stored_item base chk T Hstore chkloc chk Hchk) as [W _]. pose proof (io_data _ W) as [Hb _].
  destruct Hdata as (E1 & E2 & _). rewrite E1, !Forall_app in Hb. destruct Hb as (_ & Hb1 & Hb2).
  revert E2. unfold read_version_vector. destruct (unpack_u32 _ 0) as [n|] eqn:En; [|done]. cbn [mbind option_bind].
  destruct (vv_loop _ _ _) as [vv'|] eqn:Ev; [|done]. cbn [mbind option_bind]. intros [= -> El].
  assert (Hbb : are_bytes (vvb ++ rb)) by (by apply Forall_app).
  pose proof (unpack_u32_ok _ _ _ Hbb En) as [Hn _]. apply vv_loop_wf in Ev as [Hw Hs]; [|by apply are_bytes_drop|done].
  destruct Hchk as (_ & (Hw1 & Hw2 & _) & _). split_and!; [| |done].
  - intros d x. destruct (decide (d = CloudPointer.directory chkloc)) as [->|].
    + rewrite lookup_insert_eq. by intros [= <-].
    + rewrite lookup_insert_ne by done. apply Hw.
  - assert (Z.of_nat (size version) <= Z.of_nat (size vv) + 1).
    { destruct (vv !! CloudPointer.directory chkloc) eqn:E;
        [rewrite map_size_insert_Some by eauto|rewrite map_size_insert_None by done]; lia. }
    rewrite map_size_empty in Hs. lia.
Qed.

Lemma length_locs_full links :
  Forall link_ok links -> Forall (fun l => is_Some l.2) links -> zlen (link_locs links) = 16 * zlen links.
Proof.
  unfold link_locs. intros Ho Hs. induction Hs as [|[i l] links [p Hp] Hs IH]; [done|]. simpl in Hp. subst l.
  apply Forall_cons in Ho as [_ Ho]. rewrite fmap_cons. cbn [concat length]. change (link_loc (i, Some p)) with (pointer_bytes p).
  rewrite length_app, length_pointer_bytes. specialize (IH Ho). lia.
Qed.

(** The size of the checkpoint. *)
Lemma chk_size : item_size chk = 89 + 8 + zlen vvb + zlen rb + 32 * zlen (LogItem.links chk).
Proof.
  destruct (stored_item base chk T Hstore chkloc chk Hchk) as [W _]. pose proof (io_links _ W) as [Hl _].
  destruct (length_links _ Hl) as [E1 _]. pose proof chk_table as [_ Hf].
  assert (Hs : Forall (fun l => is_Some l.2) (LogItem.links chk)).
  { apply Forall_lookup_2. intros i l Hi. destruct (Forall2_lookup_r _ _ _ _ _ Hf Hi) as (r & _ & _ & b & (loc & -> & _) & _). simpl. eauto. }
  pose proof (length_locs_full _ Hl Hs) as E2. destruct Hdata as (Ed & _ & _).
  unfold item_size. rewrite <- header_item_size by done. unfold Header.item_size, HEADER_SIZE. simpl.
  rewrite Ed, !length_app. unfold CHECKPOINT_MAGIC. rewrite length_le_bytes. lia.
Qed.

Lemma inode_map_write_ok v (done : gset Z) segs :
  log_wf v -> settled v -> seq_of v + zlen (imap_ranges rb) < 2 ^ 32 -> item_size chk + 8 < 2 ^ 32 ->
  40 * Z.of_nat (size (CleanMap.inodes (vimap v))) + 89 < 2 ^ 32 ->
  (forall k it, CleanMap.inodes (vimap v) !! k = Some it -> entry_ok v k it) ->
  (forall k it, T !! k = Some it -> is_Some (CleanMap.inodes (vimap v) !! k) /\ (k ∉ done -> CleanMap.inodes (vimap v) !! k = Some it)) ->
  vimap v = CleanMap.mk version chk obs (zlen vvb) (CleanMap.inodes (vimap v)) segs done ->
  wpv (B := B) (InodeMap_write urandom) v (fun _ v' => log_wf v' /\ settled v' /\ keeps_log v v' /\
    exists chk' loc vvb', vimap v' = (vimap v) <| CleanMap.checkpoint_record := chk' |> /\ in_log v' loc chk' /\ new_place loc /\
      LogItem.type chk' = ITEM_TYPE.CHECKPOINT /\ checkpoint_data chk' vvb' rb version /\
      Forall2 (range_ok v' (CleanMap.inodes (vimap v))) (imap_ranges rb) (LogItem.links chk') /\
      Forall2 (range_complete v') (LogItem.links chk) (LogItem.links chk')).
Proof.
  intros W S Hseq Hcs Hcap Hent Htab Em. pose proof chk_table as [Hsr Hf]. pose proof version_ok as (Hvw & Hvs & Hrb).
  pose proof (Forall2_length _ _ _ Hf) as Hlen. pose proof chk_size as Esz. destruct Hdata as (Ed & _ & E16).
  destruct (version_vector_ok version rb Hvw ltac:(lia)) as (vvb' & Ev & Evl & Hvb & Hvr).
  assert (Edrop : drop (Z.to_nat (zlen vvb + zlen CHECKPOINT_MAGIC)) (LogItem.data chk) = rb).
  { rewrite Ed, (assoc_L (++)). apply drop_app_length'. rewrite length_app. lia. }
  assert (Etake : take (16 * Nat.div (length rb) 16) rb = rb).
  { apply take_ge. pose proof (Nat.div_mod_eq (length rb) 16). lia. }
  destruct (Hrand (vrand v)) as (Hr1 & Hr2 & Hr3).
  unfold InodeMap_write. wpv_step. wpv_step. rewrite Em. cbn [CleanMap.updated_inodes CleanMap.version_vector CleanMap.vvsize
    CleanMap.checkpoint_record]. rewrite <- Em, Edrop.
  wpv_step. wpv_step. wpv_step. wpv_step; [done|]. wpv_step. set (v1 := setf vrand _ v).
  assert (K1 : keeps_log v v1) by (by intros ? ?).
  eapply wpv_mono; [apply (write_ranges_ok v1 _ _ _ done); try done|].
  { by destruct W. } { change (seq_of v1) with (seq_of v). lia. } { unfold v1. simpl. by rewrite Em. }
  { apply (StronglySorted_merge_sort Z.le). }
  { intros k Hk. left. unfold sorted_numbers. rewrite merge_sort_Permutation. by apply elem_of_elements. }
  intros links' v2 (W2 & S2 & K2 & E2 & Hq2 & Hf1 & Hf2). change (vimap v1) with (vimap v) in *. change (seq_of v1) with (seq_of v) in *.
  assert (Hlo : Forall link_ok links').
  { apply Forall_lookup_2. intros i l Hi. by destruct (Forall2_lookup_r _ _ _ _ _ Hf1 Hi) as (r & _ & b & loc & _ & _ & _ & ? & _). }
  pose proof (Forall2_length _ _ _ Hf2) as Hlen'. rewrite Etake.
  assert (Hmb : zlen (CHECKPOINT_MAGIC ++ vvb' ++ rb) = 8 + zlen vvb' + zlen rb)
    by (rewrite !length_app; unfold CHECKPOINT_MAGIC; rewrite length_le_bytes; lia).
  destruct (new_item_writable ITEM_TYPE.CHECKPOINT (urandom (vrand v)) (CHECKPOINT_MAGIC ++ vvb' ++ rb) links') as [Wc Hsz];
    [done|done|done| |done|lia|].
  { rewrite !Forall_app. split_and!; [apply le_bytes_are_bytes|done|done]. }
  wpv_step. eapply wpv_mono; [apply (log_write_ok base seq0 T); [done|done| |lia|lia]|].
  { split; [done|]. by intros [E'|E']. }
  intros c v3 (W3 & S3 & K3 & E3 & Hq3 & loc & -> & Hin & Hnp). wpv_step.
  split; [by destruct W3|]. split; [done|]. split; [exact (keeps_log_trans v v2 v3 (keeps_log_trans v v1 v2 K1 K2) K3)|].
  eexists _, loc, vvb'. split; [simpl; by rewrite E3, E2|]. split; [exact Hin|]. split; [done|]. split; [done|]. split; [by split|].
  split; [eapply Forall2_impl; [exact Hf1|]; intros r l Hr; exact (range_ok_keeps v2 v3 _ r l K3 Hr)|].
  eapply Forall2_impl; [exact Hf2|]. intros l l' Hr. exact (range_complete_keeps v2 v3 l l' K3 Hr).
Qed.
End result.
