(* ===== verification/CleanMain.v ===== *)
(** * The segment cleaner keeps every file

    What the program of src/cleaner/cleaner leaves in the storage: a checkpoint with
    the same files, nothing of which is in a segment that was to be cleaned. *)

From S2P Require Import Prelude State Serialize RoundtripItem Crypto LogThread Store Replay NameOrder CleanItems CleanStore CleanRun CleanView CleanLog CleanBuild CleanCopy CleanDone.
From Stdlib Require Import ZArith Lia Sorted.
From stdpp Require Import base numbers gmap option list sorting.

Open Scope Z_scope.

(** ** The same files *)

(** Links to the same data, wherever it is. *)
Definition same_link (m m' : gmap bytes bytes) (l l' : bytes * option CloudPointer.t) : Prop :=
  (l.2 = None /\ l' = l) \/
  exists d loc', link_to m l d /\ l' = (l.1, Some loc') /\ in_objs m' loc' (d <| LogItem.location := Some loc' |>).
(** Inodes that agree in all but where they and their data are. *)
Definition same_inode (m m' : gmap bytes bytes) (it it' : LogItem.t) : Prop :=
  exists loc' links', it' = it <| LogItem.links := links' |> <| LogItem.location := Some loc' |> /\
    Forall2 (same_link m m') (LogItem.links it) links'.
Definition same_files (m m' : gmap bytes bytes) (T T' : gmap Z LogItem.t) : Prop :=
  forall k, option_Forall2 (same_inode m m') (T !! k) (T' !! k).

(** Nothing that the checkpoint leads to is in one of the segments. *)
Definition vacated (obs : gset (Z * Z)) (chk : LogItem.t) (T : gmap Z LogItem.t) : Prop :=
  (forall loc, LogItem.location chk = Some loc -> segment_of loc ∉ obs) /\
  (forall l loc, l ∈ LogItem.links chk -> l.2 = Some loc -> segment_of loc ∉ obs) /\
  (forall k it, T !! k = Some it -> clear_of obs it).

(** There are enough numbers for new segments, and the new items are not too long. *)
Record room (m : gmap bytes bytes) (chk : LogItem.t) (T : gmap Z LogItem.t) : Prop := {
  rm_new : msum cost T + zlen (LogItem.links chk) < 2 ^ 32;
  rm_next : forall name n, is_Some (m !! name) -> name_to_loc name = Some (1, n) ->
    n + 1 + msum cost T + zlen (LogItem.links chk) < 2 ^ 32;
  rm_blocks : 40 * Z.of_nat (size T) + 89 < 2 ^ 32;
  rm_checkpoint : item_size chk + 8 < 2 ^ 32;
}.

(** ** The inodes that are left *)

Lemma data_ok_mono m m' k l : m ⊆ m' -> data_ok m k l -> data_ok m' k l.
Proof.
  intros Hm [?|(d & (loc & -> & Hin) & ? & ?)]; [by left|]. right. exists d. split; [|done]. exists loc. split; [done|].
  by eapply in_objs_mono.
Qed.

Lemma segment_are_bytes its : Forall writable its -> are_bytes (segment_bytes its).
Proof.
  induction 1 as [|it its W _ IH]; [constructor|]. rewrite segment_bytes_cons. apply Forall_app. split; [|done].
  destruct W as [[_ Hk] Ht [_ Hid] _ [Hd _] [Hl _]]. unfold CloudItem.encode, CloudLogHeader.encode, cloud_item.
  cbn [CloudItem.header CloudItem.data1 CloudItem.data2 CloudItem.data3 CloudLogHeader.magic CloudLogHeader.crypt_auth
    CloudLogHeader.crypt_iv CloudLogHeader.id].
  rewrite !Forall_app. split_and!; try done; try apply le_bytes_are_bytes.
  - destruct (LogItem.encrypted it); by repeat constructor.
  - by apply are_bytes_take.
  - by apply are_bytes_drop.
  - unfold link_ids. clear -Hl. induction Hl as [|l links (_ & Hb & _) _ IH]; [constructor|]. rewrite fmap_cons. cbn [concat].
    by apply Forall_app.
  - unfold link_locs. clear. induction (LogItem.links it) as [|[i [p|]] links IH]; [constructor|..]; rewrite fmap_cons; cbn [concat];
      [|done]. apply Forall_app. split; [|done]. unfold link_loc, pointer_bytes. cbn [snd]. rewrite !Forall_app.
    split_and!; apply le_bytes_are_bytes.
Qed.

Section done.
Context (base : gmap bytes bytes) (chk : LogItem.t) (T : gmap Z LogItem.t) (Hstore : store_ok base chk T) (seq0 : Z).
Abbreviation log_wf := (log_wf base seq0 T).

(** An inode has a number that a block can hold, and the link to it can be written. *)
Lemma store_entry k it :
  T !! k = Some it -> is_u 8 k /\ exists loc, in_objs base loc it /\ link_ok (LogItem.id it, Some loc).
Proof.
  intros Hk. destruct (so_complete _ _ _ Hstore k it Hk) as (l & block & Hl & Hto & Hin).
  destruct (so_table _ _ _ Hstore) as (vvb & rb & vv & _ & _ & Hf). apply list_elem_of_lookup_1 in Hl as [i Hi].
  destruct (Forall2_lookup_r _ _ _ _ _ Hf Hi) as (r & _ & block' & Hto' & Hb).
  destruct Hto as (bl & -> & Hbin), Hto' as (bl' & [= _ <-] & Hbin').
  assert (block' = block) as -> by (by eapply in_objs_inj).
  destruct (stored_item _ _ _ Hstore _ _ Hbin) as [W _]. split.
  - pose proof (words_range (Nat.div (length (LogItem.data block)) 8) _ (proj1 (io_data _ W))) as Hw.
    rewrite Forall_forall in Hw. by apply Hw.
  - apply list_elem_of_lookup_1 in Hin as [j Hj].
    destruct (Forall2_lookup_l _ _ _ _ _ Hb Hj) as (l' & Hl' & _ & it' & Hk' & loc & -> & Hloc).
    assert (it' = it) as -> by congruence. exists loc. split; [done|]. by eapply Forall_lookup_1; [apply (io_links _ W)|].
Qed.

Lemma moved_entry v copy k it it' :
  T !! k = Some it -> moved base seq0 v copy it it' -> entry_ok v k it'.
Proof.
  intros Hk (loc' & links' & -> & Hin & _). destruct (store_entry k it Hk) as (Hu & loc & _ & Hid & Hidb & Hlo).
  split; [done|]. exists loc'. split; [done|]. split; [done|]. split; [done|]. simpl in *.
  destruct (bool_decide _); [done|]. exists loc'. split; [done|]. apply Hin.
Qed.

Lemma table_entry dd done v tab k it :
  base ⊆ objs v -> table_moved base T seq0 dd done v tab -> tab !! k = Some it -> entry_ok v k it.
Proof.
  intros Hb [Ht Hn] Hk. destruct (T !! k) as [it0|] eqn:E; [|by rewrite Hn in Hk].
  destruct (Ht k it0 E) as [H1 H2]. destruct (decide (k ∈ done)) as [Hd|Hd].
  - destruct (H1 Hd) as (it' & Hk' & Hm). assert (it' = it) as -> by congruence. by eapply moved_entry.
  - specialize (H2 Hd). assert (it0 = it) as -> by congruence. destruct (store_entry k it E) as (Hu & loc & Hin & Hlo).
    split; [done|]. exists loc. split; [by eapply in_objs_log|done].
Qed.

(** ** When all segments are closed *)

Lemma closed_log v loc it :
  LogDirectory.groups (vlog v) = ∅ -> in_log v loc it -> in_objs (objs v) loc it.
Proof.
  intros Hg (? & ? & data & [Hd|(g & s & Hs & _)] & Hl); [|by rewrite Hg in Hs]. split_and!; [done..|]. by exists data.
Qed.

Lemma moved_same v copy k it it' :
  LogDirectory.groups (vlog v) = ∅ -> base ⊆ objs v -> T !! k = Some it -> moved base seq0 v copy it it' ->
  same_inode base (objs v) it it' /\ inode_ok (objs v) k it'.
Proof.
  intros Hg Hb Hk (loc' & links' & -> & Hin & _ & Hf). destruct (so_inodes _ _ _ Hstore k it Hk) as (Hk0 & Hnum & Htype & Hl).
  assert (Hboth : forall l l', data_ok base k l -> link_moved base seq0 v copy l l' ->
    same_link base (objs v) l l' /\ data_ok (objs v) k l').
  { intros l l' Hd Hm. destruct l as [i [loc|]]; unfold link_moved in Hm; cbn [fst snd] in *.
    - destruct Hd as [?|(d & Hto & Hdn & Hdt)]; [done|]. pose proof Hto as (loc1 & [= -> <-] & Hd1). destruct copy.
      + destruct Hm as (d' & loc2 & Hd' & -> & Hin2 & _). assert (d' = d) as -> by (by eapply in_objs_inj).
        apply closed_log in Hin2; [|done]. split.
        * right. exists d, loc2. done.
        * right. exists (d <| LogItem.location := Some loc2 |>). split; [by exists loc2|done].
      + subst l'. pose proof (in_objs_mono _ _ _ _ Hb Hd1) as Hd2. split.
        * right. exists d, loc. split_and!; [done|done|]. pose proof (in_objs_location _ _ _ Hd1).
          by replace (d <| LogItem.location := Some loc |>) with d by (destruct d; simpl in *; by subst).
        * right. exists d. split; [by exists loc|done].
    - subst l'. split; by left. }
  split.
  - exists loc', links'. split; [done|]. apply Forall2_same_length_lookup. split; [by eapply Forall2_length|].
    intros i l l' Hi Hi'. apply Hboth; [by eapply Forall_lookup_1|by eapply Forall2_lookup_lr].
  - split_and!; [done..|]. simpl. apply Forall_lookup_2. intros i l' Hi.
    destruct (Forall2_lookup_r _ _ _ _ _ Hf Hi) as (l & Hli & Hm). apply (Hboth l); [by eapply Forall_lookup_1|done].
Qed.

Lemma unmoved_same v k it :
  base ⊆ objs v -> T !! k = Some it -> same_inode base (objs v) it it /\ inode_ok (objs v) k it.
Proof.
  intros Hb Hk. destruct (so_inodes _ _ _ Hstore k it Hk) as (Hk0 & Hnum & Htype & Hl).
  destruct (store_inode _ _ _ _ _ Hstore Hk) as [loc Hloc]. pose proof (in_objs_location _ _ _ Hloc) as E. split.
  - exists loc, (LogItem.links it). split; [destruct it; simpl in *; by subst|].
    apply Forall_Forall2_diag. eapply Forall_impl; [exact Hl|]. intros [i [lc|]] Hd0; [|by left].
    destruct Hd0 as [?|(d & Hto & _)]; [done|]. pose proof Hto as (loc1 & [= -> <-] & Hd). right. exists d, lc. split_and!; [done|done|].
    pose proof (in_objs_location _ _ _ Hd). replace (d <| LogItem.location := Some lc |>) with d by (destruct d; simpl in *; by subst).
    by eapply in_objs_mono.
  - split_and!; [done..|]. eapply Forall_impl; [exact Hl|]. intros l. by apply data_ok_mono.
Qed.

Lemma table_same dd done v tab :
  LogDirectory.groups (vlog v) = ∅ -> base ⊆ objs v -> table_moved base T seq0 dd done v tab ->
  same_files base (objs v) T tab /\ forall k it, tab !! k = Some it -> inode_ok (objs v) k it.
Proof.
  intros Hg Hb [Ht Hn].
  assert (Hone : forall k it, T !! k = Some it -> exists it', tab !! k = Some it' /\ same_inode base (objs v) it it' /\ inode_ok (objs v) k it').
  { intros k it Hk. destruct (Ht k it Hk) as [H1 H2]. destruct (decide (k ∈ done)) as [Hd|Hd].
    - destruct (H1 Hd) as (it' & ? & ?). exists it'. split; [done|]. by eapply moved_same.
    - exists it. split; [by apply H2|]. by apply unmoved_same. }
  split.
  - intros k. destruct (T !! k) as [it|] eqn:E; [|rewrite Hn by done; constructor].
    destruct (Hone k it E) as (it' & -> & ? & _). by constructor.
  - intros k it' Hk. destruct (T !! k) as [it|] eqn:E; [|by rewrite Hn in Hk].
    destruct (Hone k it E) as (it1 & Hk1 & _ & ?). by assert (it1 = it') as <- by congruence.
Qed.

(** ** The store that is left *)

Lemma cleaner_prefix n : has_start (dir_prefix 0) (loc_to_name (1, n)) = false.
Proof. apply bool_decide_eq_false. unfold loc_to_name. cbn [snd]. generalize (pct_08d n). intros l E. by vm_compute in E. Qed.

Lemma known_more (tab : gmap Z LogItem.t) it :
  (forall k, is_Some (T !! k) -> is_Some (tab !! k)) -> known_item T it -> known_item tab it.
Proof. intros Ht Hk Htype Hn. by apply Ht, Hk. Qed.

Lemma done_segments v tab d name data :
  log_wf v -> (forall k, is_Some (T !! k) -> is_Some (tab !! k)) ->
  d = 0 \/ d = 1 -> objs v !! name = Some data -> has_start (dir_prefix d) name = true ->
  data <> [] /\ exists n its, 0 <= n /\ name = loc_to_name (d, n) /\ parse_log data (Some (d, n)) = Some its /\
    Forall (known_item tab) its.
Proof.
  intros W Ht Hd Hn Hs. destruct (base !! name) as [data0|] eqn:E.
  - pose proof (lookup_weaken _ _ _ _ E (lw_base _ _ _ _ W)) as E'. assert (data0 = data) as -> by congruence.
    destruct (so_segments _ _ _ Hstore d name data Hd E Hs) as (? & n & its & ? & ? & ? & Hk). split; [done|]. exists n, its.
    split_and!; try done. eapply Forall_impl; [exact Hk|]. intros it. by apply known_more.
  - destruct (lw_new _ _ _ _ W name data Hn E) as (n & its & -> & Hseq & Hne & -> & Hits). pose proof (lw_seq0 _ _ _ _ W).
    destruct Hd as [-> | ->]; [by rewrite cleaner_prefix in Hs|].
    assert (Hw : Forall writable its) by (eapply Forall_impl; [exact Hits|]; by intros it []). split.
    + intros E0. pose proof (length_segment_bytes its Hw) as Hl. rewrite E0 in Hl. by destruct its; [|simpl in Hl; lia].
    + exists n, (located 1 n 0 its). split_and!; [lia|done|by apply parse_log_ok|]. apply Forall_forall.
      intros it (it0 & o & Hin & ->)%elem_of_located. rewrite Forall_forall in Hits.
      apply (known_more tab it0 Ht). by apply Hits.
Qed.

Lemma done_bytes v name data : log_wf v -> objs v !! name = Some data -> are_bytes data.
Proof.
  intros W Hn. destruct (base !! name) as [data0|] eqn:E.
  - pose proof (lookup_weaken _ _ _ _ E (lw_base _ _ _ _ W)) as E'. assert (data0 = data) as -> by congruence.
    by apply (so_bytes _ _ _ Hstore name).
  - destruct (lw_new _ _ _ _ W name data Hn E) as (n & its & _ & _ & _ & -> & Hits). apply segment_are_bytes.
    eapply Forall_impl; [exact Hits|]. by intros it [].
Qed.

Context (obs : gset (Z * Z)).

Lemma store_done v chk' loc vvb rb vv dd done tab :
  log_wf v -> LogDirectory.groups (vlog v) = ∅ -> table_moved base T seq0 dd done v tab ->
  in_log v loc chk' -> checkpoint_data chk' vvb rb vv ->
  StronglySorted (fun r r' : Z * Z => r.2 < r'.1) (imap_ranges rb) ->
  Forall2 (range_ok obs v tab) (imap_ranges rb) (LogItem.links chk') ->
  Forall2 (range_complete base v) (LogItem.links chk) (LogItem.links chk') ->
  store_ok (objs v) chk' tab.
Proof.
  intros W Hg Ht Hin Hd Hs Hf1 Hf2. pose proof (lw_base _ _ _ _ W) as Hb.
  destruct (table_same dd done v tab Hg Hb Ht) as [Hsame Hino].
  assert (Hto : forall l it, link_log v l it -> link_to (objs v) l it).
  { intros l it (lc & -> & Hlc). exists lc. split; [done|]. by apply closed_log. }
  assert (Hdom : forall k, is_Some (T !! k) <-> is_Some (tab !! k)).
  { intros k. destruct (Hsame k); [|by split; intros []]. by split; eauto. }
  split.
  - intros name data. by apply done_bytes.
  - intros d name data. apply done_segments; [done|]. intros k. apply Hdom.
  - exists loc. by apply closed_log.
  - exists vvb, rb, vv. split; [done|]. split; [done|]. eapply Forall2_impl; [exact Hf1|].
    intros r l (block & lc & -> & Hlc & _ & _ & Hbl). exists block. split; [apply Hto; by exists lc|].
    eapply Forall2_impl; [exact Hbl|]. intros k l (? & it & ? & ?). split; [done|]. exists it. split; [done|by apply Hto].
  - intros k it Hk. destruct (proj2 (Hdom k) (ex_intro _ it Hk)) as [it0 Hk0].
    destruct (so_complete _ _ _ Hstore k it0 Hk0) as (l & block & Hl & Hlt & Hkin). apply list_elem_of_lookup_1 in Hl as [i Hi].
    destruct (Forall2_lookup_l _ _ _ _ _ Hf2 Hi) as (l' & Hl' & Hc). destruct (Hc block k Hlt Hkin) as (block' & ? & ?).
    exists l', block'. split_and!; [by eapply list_elem_of_lookup_2|by apply Hto|done].
  - done.
Qed.
End done.

(** ** The program *)

Section program.
Context {B : Type} `{BackendSpec B} (urandom : Z -> bytes).
Context (Hrand : forall n, length (urandom n) = 16%nat /\ are_bytes (urandom n) /\ urandom n <> id0).

(** What cleaning leaves. *)
Definition cleaned (base : gmap bytes bytes) (T : gmap Z LogItem.t) (v : View) : Prop :=
  let m := vimap v in
  store_ok (objs v) (CleanMap.checkpoint_record m) (CleanMap.inodes m) /\
  same_files base (objs v) T (CleanMap.inodes m) /\
  (exists loc, LogItem.location (CleanMap.checkpoint_record m) = Some loc /\ CloudPointer.directory loc = 1) /\
  vacated (CleanMap.obsolete_segments m) (CleanMap.checkpoint_record m) (CleanMap.inodes m) /\
  (forall s u, CleanMap.segments m !! s = Some u -> poorly_utilized u = true ->
    exists loc, s = loc_to_name loc /\ loc ∈ CleanMap.obsolete_segments m).

Lemma table_size base T seq0 dd done v tab : table_moved base T seq0 dd done v tab -> size tab = size T.
Proof.
  intros [Ht Hn]. rewrite <- !(size_dom (D := gset Z)). f_equal. apply set_eq. intros k. rewrite !elem_of_dom.
  destruct (T !! k) as [it|] eqn:E; [|rewrite Hn by done; done]. destruct (Ht k it E) as [H1 H2].
  destruct (decide (k ∈ done)) as [Hd|Hd]; [destruct (H1 Hd) as (it' & -> & _)|rewrite H2 by done]; by split; eauto.
Qed.

Lemma clean_ok base T chk chkloc vvb rb vv segs seq0 v :
  objs v = base -> store_ok base chk T -> in_objs base chkloc chk -> checkpoint_data chk vvb rb vv -> table_ok base segs ->
  vimap v = CleanMap.mk (<[CloudPointer.directory chkloc := CloudPointer.sequence chkloc]> vv) chk ∅ (zlen vvb) T segs ∅ ->
  vlog v = LogDirectory.mk 1 seq0 ∅ -> 0 <= seq0 -> (forall n, seq0 <= n -> base !! loc_to_name (1, n) = None) ->
  seq0 + msum cost T + zlen (LogItem.links chk) < 2 ^ 32 -> 40 * Z.of_nat (size T) + 89 < 2 ^ 32 -> item_size chk + 8 < 2 ^ 32 ->
  wpv (B := B) (run_cleaner false;; InodeMap_write urandom;; close_all;; mret true) v (fun r v' => r = true /\ cleaned base T v').
Proof.
  intros Eo S Hchk Hdata Htab Em El Hs0 Hfresh Hseq Hcap Hsz.
  assert (W : log_wf base seq0 T v).
  { split; rewrite ?El, ?Eo; simpl; try done. intros name data Hd Hn. congruence. }
  assert (St : settled v) by (intros g s; rewrite El; done).
  pose proof (chk_table base T chk S chkloc Hchk vvb rb vv Hdata) as [Hsr Hf]. pose proof (Forall2_length _ _ _ Hf) as Hlen.
  wpv_step. eapply wpv_mono; [apply (run_cleaner_ok base chk T S seq0); rewrite ?Em, ?El; try done; simpl; lia|].
  intros _ v1 (W1 & S1 & Hq1 & obs & dd & done & tab & Hobs & Hpoor & E1 & Ht & Hdone & Hclear).
  rewrite Em in E1, Hpoor. rewrite El in Hq1. simpl in Hq1, Hpoor.
  assert (Ei : CleanMap.inodes (vimap v1) = tab) by (by rewrite E1).
  wpv_step. eapply wpv_mono; [apply (inode_map_write_ok urandom Hrand base T seq0 obs Hobs Hfresh chk S chkloc Hchk vvb rb vv Hdata v1 done segs);
    rewrite ?Ei; try done; [lia| | |]|].
  { by rewrite (table_size _ _ _ _ _ _ _ Ht). }
  { intros k it Hk. exact (table_entry base chk T S seq0 dd done v1 tab k it (lw_base _ _ _ _ W1) Ht Hk). }
  { intros k it Hk. destruct (proj1 Ht k it Hk) as [Ha Hb]. split; [|done].
    destruct (decide (k ∈ done)) as [Hd|Hd]; [destruct (Ha Hd) as (? & ? & _)|specialize (Hb Hd)]; eauto. }
  intros _ v2 (W2 & S2 & K2 & chk' & loc & vvb' & E2 & Hin & Hnp & _ & Hdata' & Hf1 & Hf2).
  wpv_step. eapply wpv_mono; [exact (close_all_ok base seq0 T v2 W2 S2)|].
  intros _ v3 (W3 & Hg & K3 & E3 & _). wpv_step. split; [done|].
  assert (Ht3 : table_moved base T seq0 dd done v3 tab).
  { eapply table_moved_keeps; [|exact Ht]. by eapply keeps_log_trans. }
  rewrite Ei in *. unfold cleaned. rewrite E3, E2, E1. cbn [setf CleanMap_eta CleanMap.checkpoint_record CleanMap.inodes CleanMap.segments CleanMap.obsolete_segments].
  pose proof (in_log_location _ _ _ Hin) as Eloc.
  assert (Hvac : vacated obs chk' tab).
  { split_and!; [|intros l lc Hl El'|done].
    - intros lc Elc. assert (lc = loc) as -> by congruence. exact (new_place_clear base seq0 obs Hobs Hfresh loc Hnp).
    - apply list_elem_of_lookup_1 in Hl as [i Hi]. destruct (Forall2_lookup_r _ _ _ _ _ Hf1 Hi) as (r & _ & block & lc' & -> & _ & Hc & _).
      simpl in El'. by assert (lc' = lc) as -> by congruence. }
  split; [|split; [|split; [|split]]].
  - apply (store_done base chk T S seq0 obs v3 chk' loc vvb' rb (<[CloudPointer.directory chkloc := CloudPointer.sequence chkloc]> vv)
      dd done tab); try done; [by apply K3|..].
    + eapply Forall2_impl; [exact Hf1|]. intros r l Hr. exact (range_ok_keeps obs v2 v3 tab r l K3 Hr).
    + eapply Forall2_impl; [exact Hf2|]. intros l l' Hr. exact (range_complete_keeps base v2 v3 l l' K3 Hr).
  - exact (proj1 (table_same base chk T S seq0 dd done v3 tab Hg (lw_base _ _ _ _ W3) Ht3)).
  - exists loc. split; [done|apply Hnp].
  - done.
  - done.
Qed.

Lemma same_files_shrink m0 m m' T T' : m0 ⊆ m -> same_files m0 m' T T' -> same_files m m' T T'.
Proof.
  intros Hm Hs k. destruct (Hs k) as [it it' (loc' & links' & -> & Hf)|]; constructor. exists loc', links'.
  split; [done|]. eapply Forall2_impl; [exact Hf|]. intros l l' [?|(d & loc & (lc & -> & Hlc) & ? & ?)]; [by left|].
  right. exists d, loc. split_and!; [|done..]. exists lc. split; [done|by eapply in_objs_mono].
Qed.

Lemma same_files_refl m m' chk T : m' ⊆ m -> store_ok m' chk T -> same_files m m' T T.
Proof.
  intros Hm S. apply (same_files_shrink m'); [done|]. intros k. destruct (T !! k) as [it|] eqn:E; constructor.
  by apply (unmoved_same m' chk T S (mkView m' (LogDirectory.mk 0 0 ∅) (CleanMap.mk ∅ chk ∅ 0 ∅ ∅ ∅) 0) k it).
Qed.

(** The state after the program. *)
Definition main_done (m : gmap bytes bytes) (chk : LogItem.t) (T : gmap Z LogItem.t) (result : bool) (v : View) : Prop :=
  if result then cleaned m T v else objs v ⊆ m /\ store_ok (objs v) chk T.

Lemma main_ok v chk T :
  store_ok (objs v) chk T -> last_checkpoint (objs v) = Some chk -> room (objs v) chk T ->
  wpv (B := B) (main urandom) v (main_done (objs v) chk T).
Proof.
  intros S Hlast [R1 R2 R3 R4]. destruct (so_here _ _ _ S) as [loc Hloc]. pose proof (in_objs_location _ _ _ Hloc) as Eloc.
  unfold main. wpv_step. eapply wpv_mono; [by apply (load_checkpoint_ok v chk T)|]. intros r v' [-> ->].
  wpv_step. eapply wpv_mono; [apply log_directory_init_ok|]. intros l v' (-> & seq0 & -> & Hs0 & Hfresh & Hbound).
  specialize (Hbound (2 ^ 32 - 1 - msum cost T - zlen (LogItem.links chk)) ltac:(lia)).
  assert (Hseq : seq0 <= 2 ^ 32 - 1 - msum cost T - zlen (LogItem.links chk)).
  { apply Hbound. intros name n Hn En. specialize (R2 name n Hn En). lia. }
  wpv_step. wpv_step. wpv_step. wpv_step; [done|]. wpv_step. set (v1 := setf vlog _ v).
  eapply wpv_mono; [by apply (inode_map_build_ok (objs v) T v1 chk loc)|].
  intros _ v2 (El & Hm & S2 & vvb & rb & vv & segs & Hdata & Htab & Em). wpv_step. wpv_step.
  destruct (negb _); [by wpv_step|].
  destruct (so_here _ _ _ S2) as [loc2 Hloc2]. assert (loc2 = loc) as ->.
  { rewrite (in_objs_location _ _ _ Hloc2) in Eloc. congruence. }
  eapply wpv_mono; [apply (clean_ok (objs v2) T chk loc vvb rb vv segs seq0); try done; [|lia]|].
  { intros n Hn. eapply lookup_weaken_None; [by apply Hfresh|done]. }
  intros r v3 (-> & C1 & C2 & C). split; [done|]. split; [|done]. by apply (same_files_shrink (objs v2)).
Qed.

(** C6: the segment cleaner loses no file, whatever storage it runs on.  If the last
    checkpoint of the file system describes the inodes [T] and there is room for new
    segments, then the whole program ends without an exception, and the storage
    again holds a file system: the same inodes with the same data, at other places.
    Either the file system has not taken over the last result yet, and all that
    happened is that segments nothing refers to were deleted; or there is a new
    checkpoint in the directory of the cleaner, nothing of which is in a segment
    that was marked for cleaning, and all segments with less than six tenths in use
    are marked. *)
Theorem cleaner_preserves_files w chk T :
  backend_ok (be w) -> store_ok (objects (be w)) chk T -> last_checkpoint (objects (be w)) = Some chk ->
  room (objects (be w)) chk T ->
  wp (main urandom) w (fun result w' => backend_ok (be w') /\
    exists chk' T', store_ok (objects (be w')) chk' T' /\ same_files (objects (be w)) (objects (be w')) T T' /\
    if result then
      chk' = CleanMap.checkpoint_record (inode_map w') /\
      (exists loc, LogItem.location chk' = Some loc /\ CloudPointer.directory loc = 1) /\
      vacated (CleanMap.obsolete_segments (inode_map w')) chk' T' /\
      forall s u, CleanMap.segments (inode_map w') !! s = Some u -> poorly_utilized u = true ->
        exists loc, s = loc_to_name loc /\ loc ∈ CleanMap.obsolete_segments (inode_map w')
    else chk' = chk /\ T' = T /\ objects (be w') ⊆ objects (be w)).
Proof.
  intros Hok S Hlast R. eapply wp_mono; [exact (main_ok (view w) chk T S Hlast R w Hok eq_refl)|].
  intros [] w' [Hok' Hd]; (split; [done|]).
  - destruct Hd as (D1 & D2 & D3 & D4 & D5). eexists _, _. by split_and!.
  - destruct Hd as [D1 D2]. exists chk, T. split_and!; try done. by eapply same_files_refl.
Qed.
End program.
