(* ===== verification/CleanExample.v ===== *)
(** * A run of the segment cleaner

    A store of one segment, most of which is an old version of the data of a file:
    the cleaner (src/cleaner/cleaner) moves the file out of it. *)

From S2P Require Import Prelude State Serialize RoundtripItem Crypto LogThread Store Replay NameOrder CleanItems CleanStore CleanRun CleanView CleanLog CleanBuild CleanCopy CleanDone CleanMain.
From Stdlib Require Import ZArith Lia Sorted.
From stdpp Require Import base numbers gmap option list sorting.

Open Scope Z_scope.

Definition example_id (n : Z) : bytes := 1 :: le_bytes 15 n.
Definition example_item (type inum id : Z) (data : bytes) (links : list (bytes * option CloudPointer.t)) : LogItem.t :=
  (new_item type (example_id id) data links) <| LogItem.inum := inum |>.

(** Old data, the data of the file, its inode, a block of the inode map, and a checkpoint. *)
Definition example_items : list LogItem.t := [
  example_item ITEM_TYPE.DATA 1 1 (replicate 1000 0) [];
  example_item ITEM_TYPE.DATA 1 2 [104; 105] [];
  example_item ITEM_TYPE.INODE 1 3 [] [(example_id 2, Some (CloudPointer.mk 0 0 1089 91)); (id0, None)];
  example_item ITEM_TYPE.INODE_MAP 0 4 (le_bytes 8 1) [(example_id 3, Some (CloudPointer.mk 0 0 1180 137))];
  example_item ITEM_TYPE.CHECKPOINT 0 5 (CHECKPOINT_MAGIC ++ le_bytes 4 0 ++ le_bytes 8 0 ++ le_bytes 8 100)
    [(example_id 4, Some (CloudPointer.mk 0 0 1317 129))]].
Definition example_log : list LogItem.t := located 0 0 0 example_items.
Definition example_at (i : nat) : LogItem.t := nth i example_log (example_item 0 0 0 [] []).
Definition example_store : gmap bytes bytes := {[ loc_to_name (0, 0) := segment_bytes example_items ]}.
Definition example_inodes : gmap Z LogItem.t := {[ 1 := example_at 2 ]}.
Definition example_world : World FileBackend.t :=
  mkWorld (FileBackend.mk example_store) (LogDirectory.mk 0 0 ∅) (CleanMap.mk ∅ (example_at 4) ∅ 0 ∅ ∅ ∅) 0.

Lemma example_store_lookup name data :
  example_store !! name = Some data -> loc_to_name (0, 0) = name /\ segment_bytes example_items = data.
Proof. apply lookup_singleton_Some. Qed.
Lemma example_inodes_lookup k it : example_inodes !! k = Some it -> 1 = k /\ example_at 2 = it.
Proof. apply lookup_singleton_Some. Qed.

Lemma example_id_ok n : length (example_id n) = 16%nat /\ are_bytes (example_id n) /\ example_id n <> id0.
Proof. split; [done|]. split; [|done]. apply Forall_cons. split; [done|apply le_bytes_are_bytes]. Qed.

Lemma example_writable : Forall writable example_items.
Proof.
  assert (Hl : forall n d o s, 0 <= o < 2 ^ 32 -> 0 <= s < 2 ^ 32 -> 0 <= d < 2 ^ 32 -> link_ok (example_id n, Some (CloudPointer.mk 0 d o s))).
  { intros n d o s ? ? ?. destruct (example_id_ok n) as (? & ? & ?). split_and!; [done..|]. cbn [fst snd].
    rewrite bool_decide_eq_false_2 by done. eexists. split; [done|]. by split_and!. }
  assert (Hz : link_ok (id0, None)) by (split_and!; [done|by apply (Forall_replicate is_byte 16 0)|done]).
  assert (Hi : forall type inum id data links, 0 <= type < 128 -> is_u 8 inum -> are_bytes data -> Forall link_ok links ->
    zlen data + 16 * zlen links < 2 ^ 32 -> writable (example_item type inum id data links)).
  { intros type inum id data links Ht Hn Hd Hls Hs. destruct (example_id_ok id) as (? & ? & ?).
    destruct (new_item_writable type (example_id id) data links) as [[] _]; [done..|]. by split. }
  unfold example_items. repeat apply Forall_cons_2; [..|apply Forall_nil_2]; apply Hi; try done;
    try (apply (Forall_replicate is_byte 1000 0); done); try (repeat constructor; lia);
    try apply le_bytes_are_bytes; try (repeat apply Forall_cons_2; [..|apply Forall_nil_2]; by try apply Hl).
Qed.

Lemma example_in_objs i it :
  example_log !! i = Some it -> exists loc, LogItem.location it = Some loc /\ in_objs example_store loc it.
Proof.
  intros Hi. assert (Hall : Forall (fun it => exists loc, LogItem.location it = Some loc /\
    CloudPointer.directory loc = 0 /\ segment_of loc = (0, 0) /\ pointer_wf loc) example_log).
  { repeat apply Forall_cons_2; [..|apply Forall_nil_2]; eexists; (split; [reflexivity|]); split_and!; by vm_compute. }
  destruct (Forall_lookup_1 _ _ _ _ Hall Hi) as (loc & El & Hd & Hs & Hw). exists loc. split; [done|]. split_and!; [by left|done|].
  exists (segment_bytes example_items). rewrite Hs. split; [apply lookup_singleton_eq|]. exists example_log.
  rewrite Hs. split; [apply parse_log_ok, example_writable|]. split; [by eapply list_elem_of_lookup_2|done].
Qed.

Lemma example_link i it id loc :
  example_log !! i = Some it -> LogItem.location it = Some loc -> LogItem.id it = id -> link_to example_store (id, Some loc) it.
Proof.
  intros Hi Hl <-. destruct (example_in_objs i it Hi) as (loc' & Hl' & Hin). exists loc. split; [done|].
  by assert (loc' = loc) as <- by congruence.
Qed.

Lemma example_store_ok : store_ok example_store (example_at 4) example_inodes.
Proof.
  assert (Hblock : link_to example_store (example_id 4, Some (CloudPointer.mk 0 0 1317 129)) (example_at 3)).
  { by apply (example_link 3). }
  split.
  - intros name data [<- <-]%example_store_lookup. apply segment_are_bytes, example_writable.
  - intros d name data Hd [<- <-]%example_store_lookup Hs. destruct Hd as [-> | ->]; [|by vm_compute in Hs]. split; [done|].
    exists 0, example_log. split_and!; [done|done|apply parse_log_ok, example_writable|].
    repeat apply Forall_cons_2; [..|apply Forall_nil_2]; intros [Ht|Ht] Hn; done || by eexists.
  - destruct (example_in_objs 4 (example_at 4)) as (loc & _ & ?); eauto.
  - exists (le_bytes 4 0), (le_bytes 8 0 ++ le_bytes 8 100), ∅. split; [by split|].
    change (imap_ranges _) with [(0, 100)]. split; [by repeat constructor|]. constructor; [|done].
    exists (example_at 3). split; [done|]. change (Forall2 (fun inum l => 0 <= inum <= 100 /\ exists it, example_inodes !! inum = Some it /\
      link_to example_store l it) [1] [(example_id 3, Some (CloudPointer.mk 0 0 1180 137))]).
    constructor; [|done]. split; [lia|]. exists (example_at 2). split; [apply lookup_singleton_eq|by apply (example_link 2)].
  - intros k it [<- <-]%example_inodes_lookup. eexists _, (example_at 3). split_and!; [by left|done|by left].
  - intros k it [<- <-]%example_inodes_lookup. split_and!; [done|done|done|].
    constructor; [|by constructor; [left|]]. right. exists (example_at 1). split_and!; [by apply (example_link 1)|done|done].
Qed.

Lemma example_room : room example_store (example_at 4) example_inodes.
Proof.
  split; [by vm_compute| |by vm_compute|by vm_compute]. intros name n [data [<- <-]%example_store_lookup] Hn. by vm_compute in Hn.
Qed.

Lemma cleaner_preserves_files_witness :
  exists w', main example_id example_world = Ok true w' /\
    exists chk' T', store_ok (FileBackend.files (be w')) chk' T' /\
      same_files example_store (FileBackend.files (be w')) example_inodes T' /\
      vacated {[ (0, 0) ]} chk' T'.
Proof.
  pose proof (cleaner_preserves_files example_id example_id_ok example_world (example_at 4) example_inodes I
    example_store_ok ltac:(vm_compute; reflexivity) example_room) as Hmain.
  assert (Hrun : match main example_id example_world with
    | Ok r w => r && bool_decide (CleanMap.obsolete_segments (inode_map w) = {[ (0, 0) ]})
    | Stop _ => false
    end = true) by (vm_compute; reflexivity).
  unfold wp in Hmain. destruct (main example_id example_world) as [r w'|]; [|done].
  apply andb_prop in Hrun as [Hr Hobs]. destruct r; [|done]. apply bool_decide_eq_true in Hobs.
  exists w'. split; [done|]. destruct Hmain as (_ & chk' & T' & Hs & Hf & _ & _ & Hv & _). exists chk', T'.
  rewrite Hobs in Hv. done.
Defined.
