(* ===== verification/CleanMerge.v ===== *)
(** * Taking over moved blocks

    [merge_blocks], the loop of merge_inode in src/bluesky/cleaner.c: a file whose
    blocks the segment cleaner has moved keeps its contents, and refers to the new
    places of the blocks it still has. *)

From S2P Require Import Prelude Glib State Strings Ownership CloudLog Inodes Fetch File FileOps Serialize Roundtrip Cleaner.
From Stdlib Require Import ZArith Lia.
From stdpp Require Import base numbers gmap option list.

Open Scope Z_scope.

Section merge.
Context `{Fetch}.

(** An item of the state takes over the location of a link with its identifier. *)
Definition takes_over (links : list CleanerLink.t) (l l' : CloudLog.t) : Prop :=
  exists cb, cb ∈ links /\ CloudLog.id l = CleanerLink.id cb /\
    l' = l <| CloudLog.location := CleanerLink.location cb |>.
(** Nothing but locations of items has changed. *)
Definition items_moved (links : list CleanerLink.t) (s s' : State) : Prop :=
  s' = s <| cloudlogs := cloudlogs s' |> /\
  forall q, option_Forall2 (fun l l' => l' = l \/ takes_over links l l') (cloudlogs s !! q) (cloudlogs s' !! q).

(** The links lead to copies: an item that is not in memory has the same bytes at
    the place of a link with its identifier. *)
Definition links_copy (links : list CleanerLink.t) (s : State) : Prop :=
  forall q l l', cloudlogs s !! q = Some l -> CloudLog.data l = None -> takes_over links l l' ->
    stored (disk s) (cloud s) l' = stored (disk s) (cloud s) l.

(** One item: the heap stays well formed. *)
Lemma set_location_heap_ok s q l loc :
  heap_ok nox nox s -> cloudlogs s !! q = Some l -> 0 < CloudLog.refcount l ->
  heap_ok nox nox (set_log q (l <| CloudLog.location := loc |>) s).
Proof.
  intros Hok Hq Hr. pose proof (ho_alive _ _ _ Hok q l Hq Hr) as Ha. eapply heap_ok_set_log; [exact Hok|exact Hq|done|done|..].
  - intros r. unfold log_strs. change (dead (l <| CloudLog.location := loc |>)) with (dead l). simpl. lia.
  - intros r _. unfold log_logs. change (dead (l <| CloudLog.location := loc |>)) with (dead l). simpl. lia.
  - pose proof (owners_refcount _ _ _ _ _ Hok Hq Hr). unfold log_logs. change (dead (l <| CloudLog.location := loc |>)) with (dead l).
    simpl. unfold nox in *. lia.
Qed.

Lemma set_location_moved links s0 s q l cb :
  items_moved links s0 s -> cloudlogs s !! q = Some l -> cb ∈ links -> CloudLog.id l = CleanerLink.id cb ->
  items_moved links s0 (set_log q (l <| CloudLog.location := CleanerLink.location cb |>) s).
Proof.
  intros [E Hm] Hq Hcb Hid. split; [rewrite E; done|]. intros r. simpl. destruct (decide (r = q)) as [->|Hne].
  - rewrite lookup_insert_eq. specialize (Hm q). rewrite Hq in Hm. inversion Hm as [l0 l' Hl E1 E2|]; subst. constructor. right.
    exists cb. destruct Hl as [->|(cb' & _ & Hid' & ->)]; done.
  - by rewrite lookup_insert_ne.
Qed.

Lemma items_moved_keeps links s s' : links_copy links s -> items_moved links s s' -> keeps s s'.
Proof.
  intros Hc [E Hm]. split.
  - intros q str' Hq _. rewrite E in Hq. exists str'. rewrite E. done.
  - intros p l' Hl' Hr _. specialize (Hm p). rewrite Hl' in Hm. inversion Hm as [l x Hl E1 E2|]; subst.
    exists l. split; [done|]. destruct Hl as [->|Ht]; [split; [done|]; rewrite E; done|].
    pose proof Ht as (cb & _ & _ & ->). split; [done|]. intros b. unfold item_bytes. rewrite E.
    cbn [CloudLog.data setf CloudLog_eta]. simpl. destruct (CloudLog.data l) eqn:Ed; [done|].
    by rewrite (Hc p l _ (eq_sym E1) Ed Ht).
  - rewrite E. simpl. lia.
Qed.

(** The blocks: their items are in use. *)
Definition refs_alive (bl : list Block.t) (s : State) : Prop :=
  forall b, b ∈ bl -> Block.type b = Block.REF -> exists q l, Block.ref b = Some q /\
    cloudlogs s !! q = Some l /\ 0 < CloudLog.refcount l.

Lemma refs_alive_moved bl links s s' : items_moved links s s' -> refs_alive bl s -> refs_alive bl s'.
Proof.
  intros [_ Hm] Ha b Hb Ht. destruct (Ha b Hb Ht) as (q & l & Hq & Hl & Hr). specialize (Hm q). rewrite Hl in Hm.
  inversion Hm as [? l' Hl' E1 E2|]; subst. exists q, l'. split_and!; [done|done|]. by destruct Hl' as [->|(? & _ & _ & ->)].
Qed.

(** A block that was taken over stays so. *)
Definition taken (links : list CleanerLink.t) (s s' : State) (b : Block.t) (cb : CleanerLink.t) : Prop :=
  forall q l, Block.type b = Block.REF -> Block.ref b = Some q -> cloudlogs s !! q = Some l ->
    CloudLog.id l = CleanerLink.id cb -> exists l', cloudlogs s' !! q = Some l' /\ takes_over links l l'.

Lemma merge_blocks_loop all bl links s0 s :
  (forall cb, cb ∈ links -> cb ∈ all) -> heap_ok nox nox s -> items_moved all s0 s -> refs_alive bl s ->
  wp (merge_blocks bl links) s (fun _ s' => heap_ok nox nox s' /\ items_moved all s0 s' /\
    (forall q l l', cloudlogs s0 !! q = Some l -> cloudlogs s !! q = Some l' -> takes_over all l l' ->
      exists l'', cloudlogs s' !! q = Some l'' /\ takes_over all l l'') /\
    forall k b cb, bl !! k = Some b -> links !! k = Some cb -> taken all s0 s' b cb).
Proof.
  revert links s. induction bl as [|b bl IH]; intros [|cb links] s Hall Hok Hm Ha; cbn [merge_blocks];
    try (wp_step; split_and!; [done|done|eauto|intros k ? ? Hk Hl; by destruct k]).
  wp_step.
  assert (Hgo : forall s1, heap_ok nox nox s1 -> items_moved all s0 s1 -> taken all s0 s1 b cb ->
    (forall q l l', cloudlogs s0 !! q = Some l -> cloudlogs s !! q = Some l' -> takes_over all l l' ->
      exists l'', cloudlogs s1 !! q = Some l'' /\ takes_over all l l'') -> refs_alive bl s1 ->
    wp (merge_blocks bl links) s1 (fun _ s' => heap_ok nox nox s' /\ items_moved all s0 s' /\
      (forall q l l', cloudlogs s0 !! q = Some l -> cloudlogs s !! q = Some l' -> takes_over all l l' ->
        exists l'', cloudlogs s' !! q = Some l'' /\ takes_over all l l'') /\
      forall k b' cb', (b :: bl) !! k = Some b' -> (cb :: links) !! k = Some cb' -> taken all s0 s' b' cb')).
  { intros s1 Hok1 Hm1 Ht1 Hkeep Ha1. eapply wp_mono; [apply (IH links s1); try done; intros c Hc; apply Hall; by right|].
    intros _ s' (Hok' & Hm' & Hkeep' & Htk). split_and!; [done|done| |].
    - intros q l l' Hl Hl' Ht. destruct (Hkeep q l l' Hl Hl' Ht) as (l1 & Hl1 & Ht'). by eapply Hkeep'.
    - intros [|k] b' cb' Hb Hcb; [|by eapply Htk]. injection Hb as <-. injection Hcb as <-.
      intros q l Hty Hq Hl Hid. destruct (Ht1 q l Hty Hq Hl Hid) as (l1 & Hl1 & Ht). by eapply Hkeep'. }
  assert (Ha' : refs_alive bl s) by (intros x Hx; apply Ha; by right).
  destruct (bool_decide (Block.type b = Block.REF)) eqn:Et; cbn [when].
  - apply bool_decide_eq_true in Et. destruct (Ha b ltac:(by left) Et) as (q & l & Hq & Hl & Hr). rewrite Hq.
    wp_step. eapply wp_load; [done|]. destruct Hm as [E Hm']. specialize (Hm' q) as Hmq. rewrite Hl in Hmq.
    inversion Hmq as [l0 x Hx E1 E2|]; subst.
    assert (Hid0 : CloudLog.id l = CloudLog.id l0) by (by destruct Hx as [->|(? & _ & _ & ->)]).
    destruct (bool_decide (CloudLog.id l = CleanerLink.id cb)) eqn:Eid; cbn [when].
    + apply bool_decide_eq_true in Eid. eapply wp_upd; [done|].
      change (setf cloudlogs _ s) with (set_log q (l <| CloudLog.location := CleanerLink.location cb |>) s).
      assert (Hcb : cb ∈ all) by (apply Hall; by left).
      pose proof (set_location_moved all s0 s q l cb (conj E Hm') Hl Hcb Eid) as Hm1.
      assert (Htk : takes_over all l0 (l <| CloudLog.location := CleanerLink.location cb |>)).
      { exists cb. split_and!; [done|congruence|]. by destruct Hx as [->|(? & _ & _ & ->)]. }
      apply Hgo; [by apply set_location_heap_ok|exact Hm1| | |].
      * intros q' l' _ Hq' Hl' _. assert (q' = q) as -> by congruence. assert (l' = l0) as -> by congruence.
        eexists. split; [apply lookup_insert_eq|done].
      * intros r x x' Hx0 Hx' Ht. simpl. destruct (decide (r = q)) as [->|Hne].
        { rewrite lookup_insert_eq. eexists. split; [done|]. by assert (x = l0) as -> by congruence. }
        rewrite lookup_insert_ne by done. eauto.
      * intros x Hx' Ht. destruct (Ha' x Hx' Ht) as (r & y & Hr' & Hy & Hpos). destruct (decide (r = q)) as [->|Hne].
        { eexists q, _. split_and!; [done|apply lookup_insert_eq|done]. }
        exists r, y. split_and!; [done|simpl; by rewrite lookup_insert_ne|done].
    + apply bool_decide_eq_false in Eid. wp_step. apply Hgo; try done; [|eauto].
      intros q' l' _ Hq' Hl' Hid. assert (q' = q) as -> by congruence. congruence.
  - apply bool_decide_eq_false in Et. wp_step. apply Hgo; try done; [|by eauto]. by intros q l Ht.
Qed.

End merge.

