(* ===== verification/Xdr.v ===== *)
(** * The wire format of NFS (src/nfs3/nfs3_prot_xdr.c, src/nfs3/common.c)

    Filters that encode and decode the arguments and results of the NFS protocol,
    version 3, built as the generated code builds them from the primitives of the
    XDR library.  Each filter returns what was encoded when it decodes, and every
    encoding is a multiple of four bytes long. *)

From S2P Require Import Prelude.
From Stdlib Require Import ZArith Lia.
From stdpp Require Import base numbers option list.

Open Scope Z_scope.

(** ** Filters *)

(** An XDR filter: encoding appends bytes to the message, decoding takes bytes off
    its front; both may fail.  [xdr_ok] tells the values that can be sent. *)
Record xdrproc (A : Type) := mkXdr {
  xdr_enc : A -> option bytes;
  xdr_dec : bytes -> option (A * bytes);
  xdr_ok : A -> bool;
}.
Arguments mkXdr {A} _ _ _.
Arguments xdr_enc {A} _ _.
Arguments xdr_dec {A} _ _.
Arguments xdr_ok {A} _ _.

(** What a filter promises. *)
Class Lawful {A} (x : xdrproc A) := {
  xdr_total : forall a, xdr_ok x a = true -> is_Some (xdr_enc x a);
  xdr_inverse : forall a b rest, xdr_ok x a = true -> xdr_enc x a = Some b ->
    xdr_dec x (b ++ rest) = Some (a, rest);
  xdr_aligned : forall a b, xdr_enc x a = Some b -> zlen b mod 4 = 0;
}.

(** ** Primitives of the library *)

(** [xdr_getbytes]. *)
Definition get_bytes (n : nat) (b : bytes) : option (bytes * bytes) :=
  if (n <=? length b)%nat then Some (take n b, drop n b) else None.

(** The functions of src/nfs3/common.c append to the message. *)
Definition xdr_string_putint32 (x : Z) : bytes := be_bytes 4 x.
Definition xdr_string_putlong (x : Z) : bytes := be_bytes 4 x.
Definition xdr_string_putbytes (b : bytes) : bytes := b.

Definition xdr_u_int : xdrproc Z := mkXdr
  (fun x => Some (xdr_string_putint32 x))
  (fun b => r ← get_bytes 4 b; Some (be_val r.1, r.2))
  (fun x => (0 <=? x) && (x <? 2 ^ 32)).

Definition xdr_int : xdrproc Z := mkXdr
  (fun x => Some (xdr_string_putint32 (u32 x)))
  (fun b => r ← get_bytes 4 b; Some (s32 (be_val r.1), r.2))
  (fun x => (- 2 ^ 31 <=? x) && (x <? 2 ^ 31)).

Definition xdr_enum : xdrproc Z := xdr_int.

Definition xdr_u_quad_t : xdrproc Z := mkXdr
  (fun x => Some (xdr_string_putint32 (x / 2 ^ 32) ++ xdr_string_putint32 x))
  (fun b => r ← get_bytes 8 b; Some (be_val r.1, r.2))
  (fun x => (0 <=? x) && (x <? 2 ^ 64)).

(** A boolean that is not zero is [TRUE]. *)
Definition xdr_bool : xdrproc bool := mkXdr
  (fun x : bool => Some (xdr_string_putlong (if x then 1 else 0)))
  (fun b => r ← get_bytes 4 b; Some (negb (be_val r.1 =? 0), r.2))
  (fun _ => true).

Definition padding (n : nat) : nat := Z.to_nat (- Z.of_nat n mod 4).

(** [n] bytes, filled up to a multiple of four. *)
Definition xdr_opaque (n : nat) : xdrproc bytes := mkXdr
  (fun x => Some (xdr_string_putbytes (x ++ replicate (padding (length x)) 0)))
  (fun b => r ← get_bytes n b; p ← get_bytes (padding n) r.2; Some (r.1, p.2))
  (fun x => Nat.eqb (length x) n).

(** A counted string of bytes of at most [max]. *)
Definition xdr_bytes (max : Z) : xdrproc bytes := mkXdr
  (fun x => if max <? zlen x then None else
            b ← xdr_enc (xdr_opaque (length x)) x; Some (xdr_string_putint32 (zlen x) ++ b))
  (fun b => r ← xdr_dec xdr_u_int b;
            if max <? r.1 then None else xdr_dec (xdr_opaque (Z.to_nat r.1)) r.2)
  (fun x => zlen x <=? max).

(** The C string in a buffer: up to the first zero. *)
Fixpoint cut_at_nul (b : bytes) : bytes :=
  match b with
  | [] => []
  | c :: b => if c =? 0 then [] else c :: cut_at_nul b
  end.

Definition xdr_string (max : Z) : xdrproc bytes := mkXdr
  (xdr_enc (xdr_bytes max))
  (fun b => r ← xdr_dec (xdr_bytes max) b; Some (cut_at_nul r.1, r.2))
  (fun x => (zlen x <=? max) && forallb (fun c => negb (c =? 0)) x).

Definition xdr_void : xdrproc unit := mkXdr (fun _ => Some []) (fun b => Some (tt, b)) (fun _ => true).

(** ** Ways to combine filters *)

(** One after the other. *)
Definition xdr_pair {A B} (x : xdrproc A) (y : xdrproc B) : xdrproc (A * B) := mkXdr
  (fun p => a ← xdr_enc x p.1; b ← xdr_enc y p.2; Some (a ++ b))
  (fun b => r ← xdr_dec x b; q ← xdr_dec y r.2; Some ((r.1, q.1), q.2))
  (fun p => xdr_ok x p.1 && xdr_ok y p.2).

(** The fields of a structure as a tuple. *)
Definition xdr_map {A B} (f : A -> B) (g : B -> A) (x : xdrproc A) : xdrproc B := mkXdr
  (fun b => xdr_enc x (g b))
  (fun b => r ← xdr_dec x b; Some (f r.1, r.2))
  (fun b => xdr_ok x (g b)).

(** A union over a boolean with nothing in the false case. *)
Definition xdr_optional {A} (x : xdrproc A) : xdrproc (option A) := mkXdr
  (fun o => match o with
            | Some a => t ← xdr_enc xdr_bool true; b ← xdr_enc x a; Some (t ++ b)
            | None => xdr_enc xdr_bool false
            end)
  (fun b => r ← xdr_dec xdr_bool b;
            if (r.1 : bool) then q ← xdr_dec x r.2; Some (Some q.1, q.2) else Some (None, r.2))
  (fun o => match o with Some a => xdr_ok x a | None => true end).

(** [xdr_pointer] in a linked list: a flag before each element and one at the end.
    Every element takes at least the four bytes of its flag. *)
Fixpoint xdr_list_dec {A} (fuel : nat) (x : xdrproc A) (b : bytes) : option (list A * bytes) :=
  match fuel with
  | O => None
  | S fuel =>
    r ← xdr_dec xdr_bool b;
    if (r.1 : bool) then
      q ← xdr_dec x r.2;
      l ← xdr_list_dec fuel x q.2;
      Some (q.1 :: l.1, l.2)
    else Some ([], r.2)
  end.
Fixpoint xdr_list_enc {A} (x : xdrproc A) (l : list A) : option bytes :=
  match l with
  | [] => xdr_enc xdr_bool false
  | a :: l =>
    t ← xdr_enc xdr_bool true; b ← xdr_enc x a; r ← xdr_list_enc x l; Some (t ++ b ++ r)
  end.
Definition xdr_pointer {A} (x : xdrproc A) : xdrproc (list A) := mkXdr
  (xdr_list_enc x)
  (fun b => xdr_list_dec (S (length b)) x b)
  (fun l => forallb (xdr_ok x) l).

(** The result of a call: something on success and something else on failure. *)
Inductive nfsres (A B : Type) :=
  | ResOk (a : A)
  | ResFail (status : Z) (b : B).
Arguments ResOk {A B} _.
Arguments ResFail {A B} _ _.

Definition NFS3_OK : Z := 0.

Definition xdr_res {A B} (x : xdrproc A) (y : xdrproc B) : xdrproc (nfsres A B) := mkXdr
  (fun r => match r with
            | ResOk a => s ← xdr_enc xdr_enum NFS3_OK; b ← xdr_enc x a; Some (s ++ b)
            | ResFail st f => s ← xdr_enc xdr_enum st; b ← xdr_enc y f; Some (s ++ b)
            end)
  (fun b => r ← xdr_dec xdr_enum b;
            if r.1 =? NFS3_OK then q ← xdr_dec x r.2; Some (ResOk q.1, q.2)
            else q ← xdr_dec y r.2; Some (ResFail r.1 q.1, q.2))
  (fun r => match r with
            | ResOk a => xdr_ok x a
            | ResFail st f => xdr_ok xdr_enum st && negb (st =? NFS3_OK) && xdr_ok y f
            end).

(** A status and a body for every status but -1. *)
Definition xdr_stat {A} (x : xdrproc A) : xdrproc (Z * option A) := mkXdr
  (fun r => s ← xdr_enc xdr_enum r.1;
            if r.1 =? -1 then Some s else a ← r.2; b ← xdr_enc x a; Some (s ++ b))
  (fun b => r ← xdr_dec xdr_enum b;
            if r.1 =? -1 then Some ((r.1, None), r.2)
            else q ← xdr_dec x r.2; Some ((r.1, Some q.1), q.2))
  (fun r => xdr_ok xdr_enum r.1 &&
            (if r.1 =? -1 then match r.2 with None => true | Some _ => false end
             else match r.2 with Some a => xdr_ok x a | None => false end)).

(** ** The laws *)

Lemma get_bytes_app n a b : length a = n -> get_bytes n (a ++ b) = Some (a, b).
Proof.
  intros <-. unfold get_bytes. rewrite length_app.
  replace (length a <=? length a + length b)%nat with true by (symmetry; apply Nat.leb_le; lia).
  by rewrite take_app_length, drop_app_length.
Qed.

Lemma s32_u32 x : - 2 ^ 31 <= x < 2 ^ 31 -> s32 (u32 x) = x.
Proof. intros. unfold s32, u32. rewrite Z.add_mod_idemp_l by lia. by apply s32_id. Qed.

#[export] Instance lawful_u_int : Lawful xdr_u_int.
Proof.
  split; simpl.
  - eauto.
  - intros a b rest Ha [= <-]. unfold xdr_string_putint32.
    rewrite get_bytes_app by apply length_be_bytes. simpl. rewrite be_val_be_bytes, Z.mod_small by lia. done.
  - intros a b [= <-]. unfold xdr_string_putint32. by rewrite length_be_bytes.
Qed.

#[export] Instance lawful_int : Lawful xdr_int.
Proof.
  split; simpl.
  - eauto.
  - intros a b rest Ha [= <-]. unfold xdr_string_putint32.
    rewrite get_bytes_app by apply length_be_bytes. simpl. rewrite be_val_be_bytes.
    rewrite (Z.mod_small (u32 a)) by (pose proof (u32_range a); lia). do 2 f_equal.
    by apply s32_u32; lia.
  - intros a b [= <-]. unfold xdr_string_putint32. by rewrite length_be_bytes.
Qed.

#[export] Instance lawful_enum : Lawful xdr_enum.
Proof. apply lawful_int. Qed.

Lemma be_bytes_split x : be_bytes 8 x = be_bytes 4 (x / 2 ^ 32) ++ be_bytes 4 x.
Proof.
  unfold be_bytes. rewrite <- rev_app_distr. f_equal. simpl. rewrite !Z.div_div by lia. done.
Qed.

#[export] Instance lawful_u_quad_t : Lawful xdr_u_quad_t.
Proof.
  assert (He : forall a b, xdr_enc xdr_u_quad_t a = Some b -> b = be_bytes 8 a).
  { intros a b He. rewrite be_bytes_split.
    assert (Some (be_bytes 4 (a / 2 ^ 32) ++ be_bytes 4 a) = Some b) as He' by exact He. congruence. }
  split.
  - simpl. eauto.
  - intros a b rest Ha ->%He. cbn [xdr_u_quad_t xdr_dec xdr_ok] in *.
    rewrite get_bytes_app by apply length_be_bytes. cbn [mbind option_bind fst snd].
    rewrite be_val_be_bytes, Z.mod_small; [done|lia].
  - intros a b ->%He. by rewrite length_be_bytes.
Qed.

#[export] Instance lawful_bool : Lawful xdr_bool.
Proof.
  split; simpl.
  - eauto.
  - intros a b rest _ [= <-]. unfold xdr_string_putlong.
    rewrite get_bytes_app by apply length_be_bytes. simpl. rewrite be_val_be_bytes. by destruct a.
  - intros a b [= <-]. unfold xdr_string_putlong. by rewrite length_be_bytes.
Qed.

Lemma padding_aligned n : (Z.of_nat n + Z.of_nat (padding n)) mod 4 = 0.
Proof.
  unfold padding. rewrite Z2Nat.id by (apply Z.mod_pos_bound; lia).
  rewrite Z.add_mod_idemp_r, Z.add_opp_diag_r by lia. done.
Qed.

Lemma xdr_opaque_inverse x rest :
  xdr_dec (xdr_opaque (length x)) ((x ++ replicate (padding (length x)) 0) ++ rest) = Some (x, rest).
Proof.
  simpl. rewrite <- app_assoc, get_bytes_app by done. simpl.
  by rewrite get_bytes_app by apply length_replicate.
Qed.

#[export] Instance lawful_opaque n : Lawful (xdr_opaque n).
Proof.
  split.
  - simpl. eauto.
  - intros a b rest Ha [= <-]. simpl in Ha. apply Nat.eqb_eq in Ha as <-. apply xdr_opaque_inverse.
  - intros a b [= <-]. unfold xdr_string_putbytes.
    rewrite length_app, length_replicate, Nat2Z.inj_add. apply padding_aligned.
Qed.

Lemma xdr_bytes_inverse max x b rest :
  max < 2 ^ 32 -> xdr_enc (xdr_bytes max) x = Some b ->
  xdr_dec (xdr_bytes max) (b ++ rest) = Some (x, rest).
Proof.
  intros Hm. unfold xdr_bytes. cbn [xdr_enc xdr_dec]. destruct (Z.ltb_spec max (zlen x)) as [|Hle]; [done|].
  cbn [xdr_opaque xdr_u_int xdr_enc xdr_dec mbind option_bind]. intros He. apply (inj Some) in He. subst b.
  unfold xdr_string_putint32, xdr_string_putbytes. rewrite <- app_assoc.
  rewrite get_bytes_app by apply length_be_bytes. cbn [mbind option_bind fst snd].
  rewrite be_val_be_bytes, Z.mod_small by lia.
  destruct (Z.ltb_spec max (zlen x)); [lia|]. rewrite Nat2Z.id. apply xdr_opaque_inverse.
Qed.

Lemma xdr_bytes_aligned max x b : xdr_enc (xdr_bytes max) x = Some b -> zlen b mod 4 = 0.
Proof.
  unfold xdr_bytes. cbn [xdr_enc]. destruct (max <? zlen x); [done|].
  cbn [xdr_opaque xdr_enc mbind option_bind]. intros He. apply (inj Some) in He. subst b.
  unfold xdr_string_putint32, xdr_string_putbytes.
  rewrite !length_app, length_be_bytes, length_replicate, !Nat2Z.inj_add.
  rewrite Z.add_mod, padding_aligned by lia. done.
Qed.

Lemma xdr_bytes_total max x : zlen x <= max -> is_Some (xdr_enc (xdr_bytes max) x).
Proof. intros. simpl. destruct (Z.ltb_spec max (zlen x)); [lia|eauto]. Qed.

(** [~0] as the bound on a length. *)
Definition no_limit : Z := 2 ^ 32 - 1.

#[export] Instance lawful_bytes max : TCEq (max <? 2 ^ 32) true -> Lawful (xdr_bytes max).
Proof.
  rewrite TCEq_eq. intros Hm. split.
  - intros a Ha. apply xdr_bytes_total. simpl in Ha. lia.
  - intros a b rest _. apply xdr_bytes_inverse. lia.
  - intros a b. apply xdr_bytes_aligned.
Qed.

Lemma cut_at_nul_id x : forallb (fun c => negb (c =? 0)) x = true -> cut_at_nul x = x.
Proof.
  induction x as [|c x IH]; simpl; [done|]. destruct (c =? 0); [done|]. simpl. intros. by rewrite IH.
Qed.

#[export] Instance lawful_string max : TCEq (max <? 2 ^ 32) true -> Lawful (xdr_string max).
Proof.
  rewrite TCEq_eq. intros Hm. split; cbn [xdr_string xdr_enc xdr_dec xdr_ok].
  - intros a Ha. apply andb_prop in Ha as [Ha _]. apply xdr_bytes_total. lia.
  - intros a b rest Ha He. apply andb_prop in Ha as [_ Ha].
    rewrite (xdr_bytes_inverse max a b rest) by (done || lia). simpl. by rewrite cut_at_nul_id.
  - intros a b. apply xdr_bytes_aligned.
Qed.

#[export] Instance lawful_void : Lawful xdr_void.
Proof. split; simpl; [eauto| |]; [intros [] b rest _ [= <-]|intros [] b [= <-]]; done. Qed.

Lemma xdr_bool_ok v : xdr_ok xdr_bool v = true.
Proof. done. Qed.
Lemma xdr_status_ok : xdr_ok xdr_enum NFS3_OK = true.
Proof. done. Qed.
Lemma xdr_bool_length v t : xdr_enc xdr_bool v = Some t -> length t = 4%nat.
Proof. simpl. intros [= <-]. apply length_be_bytes. Qed.
Lemma xdr_enum_total v : is_Some (xdr_enc xdr_enum v).
Proof. simpl. eauto. Qed.
#[local] Opaque xdr_bool xdr_enum.

Lemma aligned_app (a b : bytes) : zlen a mod 4 = 0 -> zlen b mod 4 = 0 -> zlen (a ++ b) mod 4 = 0.
Proof. intros Ha Hb. rewrite length_app, Nat2Z.inj_add, Z.add_mod, Ha, Hb by lia. done. Qed.

Ltac solve_aligned :=
  repeat apply aligned_app;
  lazymatch goal with
  | H : xdr_enc ?x ?a = Some ?b |- zlen ?b mod 4 = 0 => exact (xdr_aligned (x := x) a b H)
  | _ => eauto
  end.

#[export] Instance lawful_pair {A B} (x : xdrproc A) (y : xdrproc B) :
  Lawful x -> Lawful y -> Lawful (xdr_pair x y).
Proof.
  intros Hx Hy. split; simpl.
  - intros [a b] H. apply andb_prop in H as [Ha Hb]. simpl in *.
    destruct (xdr_total a Ha) as [ea ->], (xdr_total b Hb) as [eb ->]. simpl. eauto.
  - intros [a b] e rest H. apply andb_prop in H as [Ha Hb]. simpl in *.
    destruct (xdr_enc x a) as [ea|] eqn:Ea; [|done]. simpl.
    destruct (xdr_enc y b) as [eb|] eqn:Eb; [|done]. simpl. intros [= <-].
    rewrite <- app_assoc, (xdr_inverse a ea _ Ha Ea). simpl. by rewrite (xdr_inverse b eb _ Hb Eb).
  - intros [a b] e. simpl. destruct (xdr_enc x a) as [ea|] eqn:Ea; [|done]. simpl.
    destruct (xdr_enc y b) as [eb|] eqn:Eb; [|done]. simpl. intros [= <-].
    solve_aligned.
Qed.

Lemma lawful_map {A B} (f : A -> B) (g : B -> A) (x : xdrproc A) :
  (forall b, f (g b) = b) -> Lawful x -> Lawful (xdr_map f g x).
Proof.
  intros Hfg Hx. split; simpl.
  - intros b. apply xdr_total.
  - intros b e rest Hb He. rewrite (xdr_inverse _ _ _ Hb He). simpl. by rewrite Hfg.
  - intros b e. apply xdr_aligned.
Qed.

#[export] Instance lawful_optional {A} (x : xdrproc A) : Lawful x -> Lawful (xdr_optional x).
Proof.
  intros Hx. split; cbn [xdr_optional xdr_enc xdr_dec xdr_ok].
  - intros [a|] H; [|by apply xdr_total]. destruct (xdr_total a H) as [e ->].
    destruct (xdr_total (x := xdr_bool) true (xdr_bool_ok _)) as [t ->]. simpl. eauto.
  - intros [a|] e rest H.
    + destruct (xdr_enc xdr_bool true) as [t|] eqn:Et; [|done]. simpl.
      destruct (xdr_enc x a) as [ea|] eqn:Ea; [|done]. simpl. intros [= <-].
      rewrite <- app_assoc, (xdr_inverse (x := xdr_bool) true t _ (xdr_bool_ok _) Et). simpl. by rewrite (xdr_inverse a ea _ H Ea).
    + intros He. by rewrite (xdr_inverse (x := xdr_bool) false e _ (xdr_bool_ok _) He).
  - intros [a|] e; [|apply xdr_aligned]. destruct (xdr_enc xdr_bool true) as [t|] eqn:Et; [|done]. simpl.
    destruct (xdr_enc x a) as [ea|] eqn:Ea; [|done]. simpl. intros [= <-].
    solve_aligned.
Qed.

Lemma xdr_list_inverse {A} (x : xdrproc A) (Hx : Lawful x) l e rest fuel :
  forallb (xdr_ok x) l = true -> xdr_list_enc x l = Some e -> (length l < fuel)%nat ->
  xdr_list_dec fuel x (e ++ rest) = Some (l, rest).
Proof.
  revert e fuel. induction l as [|a l IH]; intros e fuel Hl He Hf; (destruct fuel as [|fuel]; [simpl in Hf; lia|]).
  - cbn [xdr_list_enc] in He. cbn [xdr_list_dec]. by rewrite (xdr_inverse (x := xdr_bool) false e _ (xdr_bool_ok _) He).
  - cbn [forallb] in Hl. apply andb_prop in Hl as [Ha Hl]. cbn [xdr_list_enc] in He.
    destruct (xdr_enc xdr_bool true) as [t|] eqn:Et; [|done]. simpl in He.
    destruct (xdr_enc x a) as [ea|] eqn:Ea; [|done]. simpl in He.
    destruct (xdr_list_enc x l) as [el|] eqn:El; [|done]. simpl in He. injection He as <-.
    cbn [xdr_list_dec]. rewrite <- !app_assoc, (xdr_inverse (x := xdr_bool) true t _ (xdr_bool_ok _) Et). simpl.
    rewrite (xdr_inverse a ea _ Ha Ea). simpl. rewrite IH; [done|done|done|simpl in Hf; lia].
Qed.

Lemma xdr_list_length {A} (x : xdrproc A) l e : xdr_list_enc x l = Some e -> (length l < length e)%nat.
Proof.
  revert e. induction l as [|a l IH]; intros e.
  - intros He. apply xdr_bool_length in He. simpl. lia.
  - cbn [xdr_list_enc]. destruct (xdr_enc xdr_bool true) as [t|] eqn:Et; [|done]. simpl.
    destruct (xdr_enc x a) as [ea|]; [|done]. simpl.
    destruct (xdr_list_enc x l) as [el|]; [|done]. simpl. intros [= <-].
    apply xdr_bool_length in Et. specialize (IH el eq_refl). rewrite !length_app. lia.
Qed.

#[export] Instance lawful_pointer {A} (x : xdrproc A) : Lawful x -> Lawful (xdr_pointer x).
Proof.
  intros Hx. split; cbn [xdr_pointer xdr_enc xdr_dec xdr_ok].
  - intros l. induction l as [|a l IH]; cbn [forallb xdr_list_enc]; [by intros; apply xdr_total|].
    intros H. apply andb_prop in H as [Ha Hl]. destruct (xdr_total a Ha) as [ea ->], (IH Hl) as [el ->].
    destruct (xdr_total (x := xdr_bool) true (xdr_bool_ok _)) as [t ->]. simpl. eauto.
  - intros l e rest Hl He. apply xdr_list_inverse; [done..|].
    pose proof (xdr_list_length x l e He). rewrite length_app. lia.
  - intros l. induction l as [|a l IH]; intros e; cbn [xdr_list_enc]; [apply xdr_aligned|].
    destruct (xdr_enc xdr_bool true) as [t|] eqn:Et; [|done]. simpl.
    destruct (xdr_enc x a) as [ea|] eqn:Ea; [|done]. simpl.
    destruct (xdr_list_enc x l) as [el|] eqn:El; [|done]. simpl. intros [= <-].
    solve_aligned.
Qed.

#[export] Instance lawful_res {A B} (x : xdrproc A) (y : xdrproc B) :
  Lawful x -> Lawful y -> Lawful (xdr_res x y).
Proof.
  intros Hx Hy. split; cbn [xdr_res xdr_enc xdr_dec xdr_ok].
  - intros [a|st f] H.
    + destruct (xdr_total a H) as [e ->], (xdr_enum_total NFS3_OK) as [t ->]. simpl. eauto.
    + apply andb_prop in H as [H Hf]. destruct (xdr_total f Hf) as [e ->], (xdr_enum_total st) as [t ->].
      simpl. eauto.
  - intros [a|st f] e rest H.
    + destruct (xdr_enc xdr_enum NFS3_OK) as [t|] eqn:Et; [|done]. simpl.
      destruct (xdr_enc x a) as [ea|] eqn:Ea; [|done]. simpl. intros [= <-].
      rewrite <- app_assoc, (xdr_inverse (x := xdr_enum) NFS3_OK t _ xdr_status_ok Et). simpl. by rewrite (xdr_inverse a ea _ H Ea).
    + apply andb_prop in H as [H Hf]. apply andb_prop in H as [Hs Hn].
      destruct (xdr_enc xdr_enum st) as [t|] eqn:Et; [|done]. simpl.
      destruct (xdr_enc y f) as [ef|] eqn:Ef; [|done]. simpl. intros [= <-].
      rewrite <- app_assoc, (xdr_inverse st t _ Hs Et). simpl. destruct (st =? NFS3_OK); [done|].
      by rewrite (xdr_inverse f ef _ Hf Ef).
  - intros [a|st f] e; destruct (xdr_enc xdr_enum _) as [t|] eqn:Et; try done; simpl.
    + destruct (xdr_enc x a) as [ea|] eqn:Ea; [|done]. simpl. intros [= <-].
      solve_aligned.
    + destruct (xdr_enc y f) as [ef|] eqn:Ef; [|done]. simpl. intros [= <-].
      solve_aligned.
Qed.

#[export] Instance lawful_stat {A} (x : xdrproc A) : Lawful x -> Lawful (xdr_stat x).
Proof.
  intros Hx. split; cbn [xdr_stat xdr_enc xdr_dec xdr_ok].
  - intros [st o] H. simpl in *. apply andb_prop in H as [_ H]. destruct (xdr_enum_total st) as [t ->].
    simpl. destruct (st =? -1); [eauto|].
    destruct o as [a|]; [|done]. simpl. destruct (xdr_total a H) as [e ->]. simpl. eauto.
  - intros [st o] e rest H. cbn [fst snd] in *. apply andb_prop in H as [Hs H].
    destruct (xdr_enc xdr_enum st) as [t|] eqn:Et; [|done]. cbn [mbind option_bind].
    destruct (st =? -1) eqn:E.
    + destruct o; [done|]. intros [= <-]. rewrite (xdr_inverse st t _ Hs Et). cbn [mbind option_bind fst snd].
      by rewrite E.
    + destruct o as [a|]; [|done]. simpl. destruct (xdr_enc x a) as [ea|] eqn:Ea; [|done]. simpl. intros [= <-].
      rewrite <- app_assoc, (xdr_inverse st t _ Hs Et). cbn [mbind option_bind fst snd]. rewrite E.
      by rewrite (xdr_inverse a ea _ H Ea).
  - intros [st o] e. cbn [fst snd]. destruct (xdr_enc xdr_enum st) as [t|] eqn:Et; [|done]. cbn [mbind option_bind].
    destruct (st =? -1); [intros [= <-]; solve_aligned|]. destruct o as [a|]; [|done]. simpl.
    destruct (xdr_enc x a) as [ea|] eqn:Ea; [|done]. simpl. intros [= <-].
    solve_aligned.
Qed.
