(* ===== verification/NfsTypes.v ===== *)
(** * The types of NFS (src/nfs3/nfs3_prot.h, src/nfs3/nfs3_prot_xdr.c)

    The structures of the protocol, version 3, with the filter of each.  A union
    over a boolean is an option; a result is what is sent on success or on failure.
    Linked lists are lists. *)

From S2P Require Import Prelude Xdr.
From Stdlib Require Import ZArith Lia.
From stdpp Require Import base numbers option list.

Open Scope Z_scope.

Declare Scope xdr_scope.
Notation "x ⊗ y" := (xdr_pair x y) (at level 40, left associativity) : xdr_scope.
Open Scope xdr_scope.

Definition NFS3_FHSIZE : Z := 64.

(** [enum nfsstat3]. *)
Definition NFS3ERR_PERM : Z := 1.
Definition NFS3ERR_NOENT : Z := 2.
Definition NFS3ERR_EXIST : Z := 17.
Definition NFS3ERR_NOTDIR : Z := 20.
Definition NFS3ERR_INVAL : Z := 22.
Definition NFS3ERR_NAMETOOLONG : Z := 63.
Definition NFS3ERR_NOTEMPTY : Z := 66.
Definition NFS3ERR_STALE : Z := 70.
Definition NFS3ERR_NOT_SYNC : Z := 10002.
Definition NFS3ERR_NOTSUPP : Z := 10004.

(** [enum ftype3]. *)
Definition NF3BLK : Z := 3.
Definition NF3CHR : Z := 4.
Definition NF3SOCK : Z := 6.
Definition NF3FIFO : Z := 7.

(** [enum time_how]. *)
Definition DONT_CHANGE : Z := 0.
Definition SET_TO_SERVER_TIME : Z := 1.
Definition SET_TO_CLIENT_TIME : Z := 2.

(** [enum stable_how]. *)
Definition UNSTABLE : Z := 0.
Definition FILE_SYNC : Z := 2.

(** A body that is there for one value of the tag only. *)
Definition xdr_when {A} (tag : Z) (x : xdrproc A) : xdrproc (Z * option A) := mkXdr
  (fun r => s ← xdr_enc xdr_enum r.1;
            if r.1 =? tag then a ← r.2; b ← xdr_enc x a; Some (s ++ b) else Some s)
  (fun b => r ← xdr_dec xdr_enum b;
            if r.1 =? tag then q ← xdr_dec x r.2; Some ((r.1, Some q.1), q.2)
            else Some ((r.1, None), r.2))
  (fun r => xdr_ok xdr_enum r.1 &&
            (if r.1 =? tag then match r.2 with Some a => xdr_ok x a | None => false end
             else match r.2 with None => true | Some _ => false end)).

(** ** Basic types *)

Definition xdr_uint64 : xdrproc Z := xdr_u_quad_t.
Definition xdr_uint32 : xdrproc Z := xdr_u_int.
Definition xdr_int32 : xdrproc Z := xdr_int.
Definition xdr_filename3 : xdrproc bytes := xdr_string no_limit.
Definition xdr_nfspath3 : xdrproc bytes := xdr_string no_limit.
Definition xdr_cookieverf3 : xdrproc bytes := xdr_opaque 8.
Definition xdr_createverf3 : xdrproc bytes := xdr_opaque 8.
Definition xdr_writeverf3 : xdrproc bytes := xdr_opaque 8.
Definition xdr_nfsstat3 : xdrproc Z := xdr_enum.
Definition xdr_ftype3 : xdrproc Z := xdr_enum.

Module specdata3.
Record t := mk {
  major : Z;
  minor : Z;
}.
End specdata3.
Definition xdr_specdata3 : xdrproc specdata3.t := xdr_map
  (fun '(x1, x2) => specdata3.mk x1 x2)
  (fun r => (specdata3.major r, specdata3.minor r))
  (xdr_uint32 ⊗ xdr_uint32).

Definition xdr_nfs_fh3 : xdrproc bytes := xdr_bytes NFS3_FHSIZE.

Module nfstime3.
Record t := mk {
  seconds : Z;
  nseconds : Z;
}.
End nfstime3.
Definition xdr_nfstime3 : xdrproc nfstime3.t := xdr_map
  (fun '(x1, x2) => nfstime3.mk x1 x2)
  (fun r => (nfstime3.seconds r, nfstime3.nseconds r))
  (xdr_uint32 ⊗ xdr_uint32).

(** ** Attributes *)

Module fattr3.
Record t := mk {
  type : Z;
  mode : Z;
  nlink : Z;
  uid : Z;
  gid : Z;
  size : Z;
  used : Z;
  rdev : specdata3.t;
  fsid : Z;
  fileid : Z;
  atime : nfstime3.t;
  mtime : nfstime3.t;
  ctime : nfstime3.t;
}.
End fattr3.
Definition xdr_fattr3 : xdrproc fattr3.t := xdr_map
  (fun '(x1, x2, x3, x4, x5, x6, x7, x8, x9, x10, x11, x12, x13) => fattr3.mk x1 x2 x3 x4 x5 x6
    x7 x8 x9 x10 x11 x12 x13)
  (fun r => (fattr3.type r, fattr3.mode r, fattr3.nlink r, fattr3.uid r, fattr3.gid r,
    fattr3.size r, fattr3.used r, fattr3.rdev r, fattr3.fsid r, fattr3.fileid r, fattr3.atime r,
    fattr3.mtime r, fattr3.ctime r))
  (xdr_ftype3 ⊗ xdr_uint32 ⊗ xdr_uint32 ⊗ xdr_uint32 ⊗ xdr_uint32 ⊗ xdr_uint64 ⊗ xdr_uint64 ⊗
    xdr_specdata3 ⊗ xdr_uint64 ⊗ xdr_uint64 ⊗ xdr_nfstime3 ⊗ xdr_nfstime3 ⊗ xdr_nfstime3).

Definition xdr_post_op_attr : xdrproc (option fattr3.t) := xdr_optional xdr_fattr3.

Module wcc_attr.
Record t := mk {
  size : Z;
  mtime : nfstime3.t;
  ctime : nfstime3.t;
}.
End wcc_attr.
Definition xdr_wcc_attr : xdrproc wcc_attr.t := xdr_map
  (fun '(x1, x2, x3) => wcc_attr.mk x1 x2 x3)
  (fun r => (wcc_attr.size r, wcc_attr.mtime r, wcc_attr.ctime r))
  (xdr_uint64 ⊗ xdr_nfstime3 ⊗ xdr_nfstime3).

Definition xdr_pre_op_attr : xdrproc (option wcc_attr.t) := xdr_optional xdr_wcc_attr.

Module wcc_data.
Record t := mk {
  before : option wcc_attr.t;
  after : option fattr3.t;
}.
End wcc_data.
Definition xdr_wcc_data : xdrproc wcc_data.t := xdr_map
  (fun '(x1, x2) => wcc_data.mk x1 x2)
  (fun r => (wcc_data.before r, wcc_data.after r))
  (xdr_pre_op_attr ⊗ xdr_post_op_attr).

Definition xdr_post_op_fh3 : xdrproc (option bytes) := xdr_optional xdr_nfs_fh3.
Definition xdr_set_uint32 : xdrproc (option Z) := xdr_optional xdr_uint32.
Definition xdr_set_uint64 : xdrproc (option Z) := xdr_optional xdr_uint64.
Definition xdr_time_how : xdrproc Z := xdr_enum.
(** The time is there only if the client sets it. *)
Definition xdr_set_time : xdrproc (Z * option nfstime3.t) := xdr_when SET_TO_CLIENT_TIME xdr_nfstime3.

Module sattr3.
Record t := mk {
  mode : option Z;
  uid : option Z;
  gid : option Z;
  size : option Z;
  atime : Z * option nfstime3.t;
  mtime : Z * option nfstime3.t;
}.
End sattr3.
Definition xdr_sattr3 : xdrproc sattr3.t := xdr_map
  (fun '(x1, x2, x3, x4, x5, x6) => sattr3.mk x1 x2 x3 x4 x5 x6)
  (fun r => (sattr3.mode r, sattr3.uid r, sattr3.gid r, sattr3.size r, sattr3.atime r,
    sattr3.mtime r))
  (xdr_set_uint32 ⊗ xdr_set_uint32 ⊗ xdr_set_uint32 ⊗ xdr_set_uint64 ⊗ xdr_set_time ⊗
    xdr_set_time).

Module diropargs3.
Record t := mk {
  dir : bytes;
  name : bytes;
}.
End diropargs3.
Definition xdr_diropargs3 : xdrproc diropargs3.t := xdr_map
  (fun '(x1, x2) => diropargs3.mk x1 x2)
  (fun r => (diropargs3.dir r, diropargs3.name r))
  (xdr_nfs_fh3 ⊗ xdr_filename3).

Module diropres3ok.
Record t := mk {
  obj : option bytes;
  obj_attributes : option fattr3.t;
  dir_wcc : wcc_data.t;
}.
End diropres3ok.
Definition xdr_diropres3ok : xdrproc diropres3ok.t := xdr_map
  (fun '(x1, x2, x3) => diropres3ok.mk x1 x2 x3)
  (fun r => (diropres3ok.obj r, diropres3ok.obj_attributes r, diropres3ok.dir_wcc r))
  (xdr_post_op_fh3 ⊗ xdr_post_op_attr ⊗ xdr_wcc_data).

Definition xdr_diropres3 : xdrproc (nfsres diropres3ok.t wcc_data.t) := xdr_res xdr_diropres3ok xdr_wcc_data.
Definition xdr_wccstat3 : xdrproc (Z * option wcc_data.t) := xdr_stat xdr_wcc_data.

(** ** The procedures *)

Definition xdr_getattr3res : xdrproc (nfsres fattr3.t unit) := xdr_res xdr_fattr3 xdr_void.
Definition xdr_sattrguard3 : xdrproc (option nfstime3.t) := xdr_optional xdr_nfstime3.

Module setattr3args.
Record t := mk {
  object : bytes;
  new_attributes : sattr3.t;
  guard : option nfstime3.t;
}.
End setattr3args.
Definition xdr_setattr3args : xdrproc setattr3args.t := xdr_map
  (fun '(x1, x2, x3) => setattr3args.mk x1 x2 x3)
  (fun r => (setattr3args.object r, setattr3args.new_attributes r, setattr3args.guard r))
  (xdr_nfs_fh3 ⊗ xdr_sattr3 ⊗ xdr_sattrguard3).

Module lookup3resok.
Record t := mk {
  object : bytes;
  obj_attributes : option fattr3.t;
  dir_attributes : option fattr3.t;
}.
End lookup3resok.
Definition xdr_lookup3resok : xdrproc lookup3resok.t := xdr_map
  (fun '(x1, x2, x3) => lookup3resok.mk x1 x2 x3)
  (fun r => (lookup3resok.object r, lookup3resok.obj_attributes r, lookup3resok.dir_attributes
    r))
  (xdr_nfs_fh3 ⊗ xdr_post_op_attr ⊗ xdr_post_op_attr).

Definition xdr_lookup3res : xdrproc (nfsres lookup3resok.t (option fattr3.t)) := xdr_res xdr_lookup3resok xdr_post_op_attr.

Module access3args.
Record t := mk {
  object : bytes;
  access : Z;
}.
End access3args.
Definition xdr_access3args : xdrproc access3args.t := xdr_map
  (fun '(x1, x2) => access3args.mk x1 x2)
  (fun r => (access3args.object r, access3args.access r))
  (xdr_nfs_fh3 ⊗ xdr_uint32).

Module access3resok.
Record t := mk {
  obj_attributes : option fattr3.t;
  access : Z;
}.
End access3resok.
Definition xdr_access3resok : xdrproc access3resok.t := xdr_map
  (fun '(x1, x2) => access3resok.mk x1 x2)
  (fun r => (access3resok.obj_attributes r, access3resok.access r))
  (xdr_post_op_attr ⊗ xdr_uint32).

Definition xdr_access3res : xdrproc (nfsres access3resok.t (option fattr3.t)) := xdr_res xdr_access3resok xdr_post_op_attr.

Module readlink3resok.
Record t := mk {
  symlink_attributes : option fattr3.t;
  data : bytes;
}.
End readlink3resok.
Definition xdr_readlink3resok : xdrproc readlink3resok.t := xdr_map
  (fun '(x1, x2) => readlink3resok.mk x1 x2)
  (fun r => (readlink3resok.symlink_attributes r, readlink3resok.data r))
  (xdr_post_op_attr ⊗ xdr_nfspath3).

Definition xdr_readlink3res : xdrproc (nfsres readlink3resok.t (option fattr3.t)) := xdr_res xdr_readlink3resok xdr_post_op_attr.

Module read3args.
Record t := mk {
  file : bytes;
  offset : Z;
  count : Z;
}.
End read3args.
Definition xdr_read3args : xdrproc read3args.t := xdr_map
  (fun '(x1, x2, x3) => read3args.mk x1 x2 x3)
  (fun r => (read3args.file r, read3args.offset r, read3args.count r))
  (xdr_nfs_fh3 ⊗ xdr_uint64 ⊗ xdr_uint32).

Module read3resok.
Record t := mk {
  file_attributes : option fattr3.t;
  count : Z;
  eof : bool;
  data : bytes;
}.
End read3resok.
Definition xdr_read3resok : xdrproc read3resok.t := xdr_map
  (fun '(x1, x2, x3, x4) => read3resok.mk x1 x2 x3 x4)
  (fun r => (read3resok.file_attributes r, read3resok.count r, read3resok.eof r, read3resok.data
    r))
  (xdr_post_op_attr ⊗ xdr_uint32 ⊗ xdr_bool ⊗ (xdr_bytes no_limit)).

Definition xdr_read3res : xdrproc (nfsres read3resok.t (option fattr3.t)) := xdr_res xdr_read3resok xdr_post_op_attr.
Definition xdr_stable_how : xdrproc Z := xdr_enum.

Module write3args.
Record t := mk {
  file : bytes;
  offset : Z;
  count : Z;
  stable : Z;
  data : bytes;
}.
End write3args.
Definition xdr_write3args : xdrproc write3args.t := xdr_map
  (fun '(x1, x2, x3, x4, x5) => write3args.mk x1 x2 x3 x4 x5)
  (fun r => (write3args.file r, write3args.offset r, write3args.count r, write3args.stable r,
    write3args.data r))
  (xdr_nfs_fh3 ⊗ xdr_uint64 ⊗ xdr_uint32 ⊗ xdr_stable_how ⊗ (xdr_bytes no_limit)).

Module write3resok.
Record t := mk {
  file_wcc : wcc_data.t;
  count : Z;
  committed : Z;
  verf : bytes;
}.
End write3resok.
Definition xdr_write3resok : xdrproc write3resok.t := xdr_map
  (fun '(x1, x2, x3, x4) => write3resok.mk x1 x2 x3 x4)
  (fun r => (write3resok.file_wcc r, write3resok.count r, write3resok.committed r,
    write3resok.verf r))
  (xdr_wcc_data ⊗ xdr_uint32 ⊗ xdr_stable_how ⊗ xdr_writeverf3).

Definition xdr_write3res : xdrproc (nfsres write3resok.t wcc_data.t) := xdr_res xdr_write3resok xdr_wcc_data.
Definition xdr_createmode3 : xdrproc Z := xdr_enum.
(** How a file is created. *)
Inductive createhow3 :=
  | UNCHECKED (obj_attributes : sattr3.t)
  | GUARDED (obj_attributes : sattr3.t)
  | EXCLUSIVE (verf : bytes).
Definition xdr_createhow3 : xdrproc createhow3 := mkXdr
  (fun h => match h with
            | UNCHECKED a => m ← xdr_enc xdr_createmode3 0; b ← xdr_enc xdr_sattr3 a; Some (m ++ b)
            | GUARDED a => m ← xdr_enc xdr_createmode3 1; b ← xdr_enc xdr_sattr3 a; Some (m ++ b)
            | EXCLUSIVE v => m ← xdr_enc xdr_createmode3 2; b ← xdr_enc xdr_createverf3 v; Some (m ++ b)
            end)
  (fun b => r ← xdr_dec xdr_createmode3 b;
            if r.1 =? 0 then q ← xdr_dec xdr_sattr3 r.2; Some (UNCHECKED q.1, q.2) else
            if r.1 =? 1 then q ← xdr_dec xdr_sattr3 r.2; Some (GUARDED q.1, q.2) else
            if r.1 =? 2 then q ← xdr_dec xdr_createverf3 r.2; Some (EXCLUSIVE q.1, q.2) else None)
  (fun h => match h with
            | UNCHECKED a | GUARDED a => xdr_ok xdr_sattr3 a
            | EXCLUSIVE v => xdr_ok xdr_createverf3 v
            end).

Module create3args.
Record t := mk {
  where_ : diropargs3.t;
  how : createhow3;
}.
End create3args.
Definition xdr_create3args : xdrproc create3args.t := xdr_map
  (fun '(x1, x2) => create3args.mk x1 x2)
  (fun r => (create3args.where_ r, create3args.how r))
  (xdr_diropargs3 ⊗ xdr_createhow3).

Module mkdir3args.
Record t := mk {
  where_ : diropargs3.t;
  attributes : sattr3.t;
}.
End mkdir3args.
Definition xdr_mkdir3args : xdrproc mkdir3args.t := xdr_map
  (fun '(x1, x2) => mkdir3args.mk x1 x2)
  (fun r => (mkdir3args.where_ r, mkdir3args.attributes r))
  (xdr_diropargs3 ⊗ xdr_sattr3).

Module symlinkdata3.
Record t := mk {
  symlink_attributes : sattr3.t;
  symlink_data : bytes;
}.
End symlinkdata3.
Definition xdr_symlinkdata3 : xdrproc symlinkdata3.t := xdr_map
  (fun '(x1, x2) => symlinkdata3.mk x1 x2)
  (fun r => (symlinkdata3.symlink_attributes r, symlinkdata3.symlink_data r))
  (xdr_sattr3 ⊗ xdr_nfspath3).

Module symlink3args.
Record t := mk {
  where_ : diropargs3.t;
  symlink : symlinkdata3.t;
}.
End symlink3args.
Definition xdr_symlink3args : xdrproc symlink3args.t := xdr_map
  (fun '(x1, x2) => symlink3args.mk x1 x2)
  (fun r => (symlink3args.where_ r, symlink3args.symlink r))
  (xdr_diropargs3 ⊗ xdr_symlinkdata3).

Module devicedata3.
Record t := mk {
  dev_attributes : sattr3.t;
  spec : specdata3.t;
}.
End devicedata3.
Definition xdr_devicedata3 : xdrproc devicedata3.t := xdr_map
  (fun '(x1, x2) => devicedata3.mk x1 x2)
  (fun r => (devicedata3.dev_attributes r, devicedata3.spec r))
  (xdr_sattr3 ⊗ xdr_specdata3).

(** What kind of node is made; the kinds are the constants of [ftype3]. *)
Inductive mknoddata3 :=
  | MKNOD_DEVICE (type : Z) (device : devicedata3.t)
  | MKNOD_PIPE (type : Z) (pipe_attributes : sattr3.t)
  | MKNOD_OTHER (type : Z).
Definition is_device (type : Z) : bool := (type =? NF3CHR) || (type =? NF3BLK).
Definition is_pipe (type : Z) : bool := (type =? NF3SOCK) || (type =? NF3FIFO).
Definition xdr_mknoddata3 : xdrproc mknoddata3 := mkXdr
  (fun d => match d with
            | MKNOD_DEVICE t a => m ← xdr_enc xdr_ftype3 t; b ← xdr_enc xdr_devicedata3 a; Some (m ++ b)
            | MKNOD_PIPE t a => m ← xdr_enc xdr_ftype3 t; b ← xdr_enc xdr_sattr3 a; Some (m ++ b)
            | MKNOD_OTHER t => xdr_enc xdr_ftype3 t
            end)
  (fun b => r ← xdr_dec xdr_ftype3 b;
            if is_device r.1 then q ← xdr_dec xdr_devicedata3 r.2; Some (MKNOD_DEVICE r.1 q.1, q.2) else
            if is_pipe r.1 then q ← xdr_dec xdr_sattr3 r.2; Some (MKNOD_PIPE r.1 q.1, q.2) else
            Some (MKNOD_OTHER r.1, r.2))
  (fun d => match d with
            | MKNOD_DEVICE t a => xdr_ok xdr_ftype3 t && is_device t && xdr_ok xdr_devicedata3 a
            | MKNOD_PIPE t a => xdr_ok xdr_ftype3 t && is_pipe t && xdr_ok xdr_sattr3 a
            | MKNOD_OTHER t => xdr_ok xdr_ftype3 t && negb (is_device t) && negb (is_pipe t)
            end).

Module mknod3args.
Record t := mk {
  where_ : diropargs3.t;
  what : mknoddata3;
}.
End mknod3args.
Definition xdr_mknod3args : xdrproc mknod3args.t := xdr_map
  (fun '(x1, x2) => mknod3args.mk x1 x2)
  (fun r => (mknod3args.where_ r, mknod3args.what r))
  (xdr_diropargs3 ⊗ xdr_mknoddata3).

Module rename3args.
Record t := mk {
  from : diropargs3.t;
  to : diropargs3.t;
}.
End rename3args.
Definition xdr_rename3args : xdrproc rename3args.t := xdr_map
  (fun '(x1, x2) => rename3args.mk x1 x2)
  (fun r => (rename3args.from r, rename3args.to r))
  (xdr_diropargs3 ⊗ xdr_diropargs3).

Module rename3wcc.
Record t := mk {
  fromdir_wcc : wcc_data.t;
  todir_wcc : wcc_data.t;
}.
End rename3wcc.
Definition xdr_rename3wcc : xdrproc rename3wcc.t := xdr_map
  (fun '(x1, x2) => rename3wcc.mk x1 x2)
  (fun r => (rename3wcc.fromdir_wcc r, rename3wcc.todir_wcc r))
  (xdr_wcc_data ⊗ xdr_wcc_data).

Definition xdr_rename3res : xdrproc (Z * option rename3wcc.t) := xdr_stat xdr_rename3wcc.

Module link3args.
Record t := mk {
  file : bytes;
  link : diropargs3.t;
}.
End link3args.
Definition xdr_link3args : xdrproc link3args.t := xdr_map
  (fun '(x1, x2) => link3args.mk x1 x2)
  (fun r => (link3args.file r, link3args.link r))
  (xdr_nfs_fh3 ⊗ xdr_diropargs3).

Module link3wcc.
Record t := mk {
  file_attributes : option fattr3.t;
  linkdir_wcc : wcc_data.t;
}.
End link3wcc.
Definition xdr_link3wcc : xdrproc link3wcc.t := xdr_map
  (fun '(x1, x2) => link3wcc.mk x1 x2)
  (fun r => (link3wcc.file_attributes r, link3wcc.linkdir_wcc r))
  (xdr_post_op_attr ⊗ xdr_wcc_data).

Definition xdr_link3res : xdrproc (Z * option link3wcc.t) := xdr_stat xdr_link3wcc.

Module readdir3args.
Record t := mk {
  dir : bytes;
  cookie : Z;
  cookieverf : bytes;
  count : Z;
}.
End readdir3args.
Definition xdr_readdir3args : xdrproc readdir3args.t := xdr_map
  (fun '(x1, x2, x3, x4) => readdir3args.mk x1 x2 x3 x4)
  (fun r => (readdir3args.dir r, readdir3args.cookie r, readdir3args.cookieverf r,
    readdir3args.count r))
  (xdr_nfs_fh3 ⊗ xdr_uint64 ⊗ xdr_cookieverf3 ⊗ xdr_uint32).

Module entry3.
Record t := mk {
  fileid : Z;
  name : bytes;
  cookie : Z;
}.
End entry3.
Definition xdr_entry3 : xdrproc entry3.t := xdr_map
  (fun '(x1, x2, x3) => entry3.mk x1 x2 x3)
  (fun r => (entry3.fileid r, entry3.name r, entry3.cookie r))
  (xdr_uint64 ⊗ xdr_filename3 ⊗ xdr_uint64).

Module dirlist3.
Record t := mk {
  entries : list entry3.t;
  eof : bool;
}.
End dirlist3.
Definition xdr_dirlist3 : xdrproc dirlist3.t := xdr_map
  (fun '(x1, x2) => dirlist3.mk x1 x2)
  (fun r => (dirlist3.entries r, dirlist3.eof r))
  ((xdr_pointer xdr_entry3) ⊗ xdr_bool).

Module readdir3resok.
Record t := mk {
  dir_attributes : option fattr3.t;
  cookieverf : bytes;
  reply : dirlist3.t;
}.
End readdir3resok.
Definition xdr_readdir3resok : xdrproc readdir3resok.t := xdr_map
  (fun '(x1, x2, x3) => readdir3resok.mk x1 x2 x3)
  (fun r => (readdir3resok.dir_attributes r, readdir3resok.cookieverf r, readdir3resok.reply r))
  (xdr_post_op_attr ⊗ xdr_cookieverf3 ⊗ xdr_dirlist3).

Definition xdr_readdir3res : xdrproc (nfsres readdir3resok.t (option fattr3.t)) := xdr_res xdr_readdir3resok xdr_post_op_attr.

Module readdirplus3args.
Record t := mk {
  dir : bytes;
  cookie : Z;
  cookieverf : bytes;
  dircount : Z;
  maxcount : Z;
}.
End readdirplus3args.
Definition xdr_readdirplus3args : xdrproc readdirplus3args.t := xdr_map
  (fun '(x1, x2, x3, x4, x5) => readdirplus3args.mk x1 x2 x3 x4 x5)
  (fun r => (readdirplus3args.dir r, readdirplus3args.cookie r, readdirplus3args.cookieverf r,
    readdirplus3args.dircount r, readdirplus3args.maxcount r))
  (xdr_nfs_fh3 ⊗ xdr_uint64 ⊗ xdr_cookieverf3 ⊗ xdr_uint32 ⊗ xdr_uint32).

Module entryplus3.
Record t := mk {
  fileid : Z;
  name : bytes;
  cookie : Z;
  name_attributes : option fattr3.t;
  name_handle : option bytes;
}.
End entryplus3.
Definition xdr_entryplus3 : xdrproc entryplus3.t := xdr_map
  (fun '(x1, x2, x3, x4, x5) => entryplus3.mk x1 x2 x3 x4 x5)
  (fun r => (entryplus3.fileid r, entryplus3.name r, entryplus3.cookie r,
    entryplus3.name_attributes r, entryplus3.name_handle r))
  (xdr_uint64 ⊗ xdr_filename3 ⊗ xdr_uint64 ⊗ xdr_post_op_attr ⊗ xdr_post_op_fh3).

Module dirlistplus3.
Record t := mk {
  entries : list entryplus3.t;
  eof : bool;
}.
End dirlistplus3.
Definition xdr_dirlistplus3 : xdrproc dirlistplus3.t := xdr_map
  (fun '(x1, x2) => dirlistplus3.mk x1 x2)
  (fun r => (dirlistplus3.entries r, dirlistplus3.eof r))
  ((xdr_pointer xdr_entryplus3) ⊗ xdr_bool).

Module readdirplus3resok.
Record t := mk {
  dir_attributes : option fattr3.t;
  cookieverf : bytes;
  reply : dirlistplus3.t;
}.
End readdirplus3resok.
Definition xdr_readdirplus3resok : xdrproc readdirplus3resok.t := xdr_map
  (fun '(x1, x2, x3) => readdirplus3resok.mk x1 x2 x3)
  (fun r => (readdirplus3resok.dir_attributes r, readdirplus3resok.cookieverf r,
    readdirplus3resok.reply r))
  (xdr_post_op_attr ⊗ xdr_cookieverf3 ⊗ xdr_dirlistplus3).

Definition xdr_readdirplus3res : xdrproc (nfsres readdirplus3resok.t (option fattr3.t)) := xdr_res xdr_readdirplus3resok xdr_post_op_attr.

Module fsstat3resok.
Record t := mk {
  obj_attributes : option fattr3.t;
  tbytes : Z;
  fbytes : Z;
  abytes : Z;
  tfiles : Z;
  ffiles : Z;
  afiles : Z;
  invarsec : Z;
}.
End fsstat3resok.
Definition xdr_fsstat3resok : xdrproc fsstat3resok.t := xdr_map
  (fun '(x1, x2, x3, x4, x5, x6, x7, x8) => fsstat3resok.mk x1 x2 x3 x4 x5 x6 x7 x8)
  (fun r => (fsstat3resok.obj_attributes r, fsstat3resok.tbytes r, fsstat3resok.fbytes r,
    fsstat3resok.abytes r, fsstat3resok.tfiles r, fsstat3resok.ffiles r, fsstat3resok.afiles r,
    fsstat3resok.invarsec r))
  (xdr_post_op_attr ⊗ xdr_uint64 ⊗ xdr_uint64 ⊗ xdr_uint64 ⊗ xdr_uint64 ⊗ xdr_uint64 ⊗
    xdr_uint64 ⊗ xdr_uint32).

Definition xdr_fsstat3res : xdrproc (nfsres fsstat3resok.t (option fattr3.t)) := xdr_res xdr_fsstat3resok xdr_post_op_attr.

Module fsinfo3resok.
Record t := mk {
  obj_attributes : option fattr3.t;
  rtmax : Z;
  rtpref : Z;
  rtmult : Z;
  wtmax : Z;
  wtpref : Z;
  wtmult : Z;
  dtpref : Z;
  maxfilesize : Z;
  time_delta : nfstime3.t;
  properties : Z;
}.
End fsinfo3resok.
Definition xdr_fsinfo3resok : xdrproc fsinfo3resok.t := xdr_map
  (fun '(x1, x2, x3, x4, x5, x6, x7, x8, x9, x10, x11) => fsinfo3resok.mk x1 x2 x3 x4 x5 x6 x7
    x8 x9 x10 x11)
  (fun r => (fsinfo3resok.obj_attributes r, fsinfo3resok.rtmax r, fsinfo3resok.rtpref r,
    fsinfo3resok.rtmult r, fsinfo3resok.wtmax r, fsinfo3resok.wtpref r, fsinfo3resok.wtmult r,
    fsinfo3resok.dtpref r, fsinfo3resok.maxfilesize r, fsinfo3resok.time_delta r,
    fsinfo3resok.properties r))
  (xdr_post_op_attr ⊗ xdr_uint32 ⊗ xdr_uint32 ⊗ xdr_uint32 ⊗ xdr_uint32 ⊗ xdr_uint32 ⊗
    xdr_uint32 ⊗ xdr_uint32 ⊗ xdr_uint64 ⊗ xdr_nfstime3 ⊗ xdr_uint32).

Definition xdr_fsinfo3res : xdrproc (nfsres fsinfo3resok.t (option fattr3.t)) := xdr_res xdr_fsinfo3resok xdr_post_op_attr.

Module pathconf3resok.
Record t := mk {
  obj_attributes : option fattr3.t;
  linkmax : Z;
  name_max : Z;
  no_trunc : bool;
  chown_restricted : bool;
  case_insensitive : bool;
  case_preserving : bool;
}.
End pathconf3resok.
Definition xdr_pathconf3resok : xdrproc pathconf3resok.t := xdr_map
  (fun '(x1, x2, x3, x4, x5, x6, x7) => pathconf3resok.mk x1 x2 x3 x4 x5 x6 x7)
  (fun r => (pathconf3resok.obj_attributes r, pathconf3resok.linkmax r, pathconf3resok.name_max
    r, pathconf3resok.no_trunc r, pathconf3resok.chown_restricted r,
    pathconf3resok.case_insensitive r, pathconf3resok.case_preserving r))
  (xdr_post_op_attr ⊗ xdr_uint32 ⊗ xdr_uint32 ⊗ xdr_bool ⊗ xdr_bool ⊗ xdr_bool ⊗ xdr_bool).

Definition xdr_pathconf3res : xdrproc (nfsres pathconf3resok.t (option fattr3.t)) := xdr_res xdr_pathconf3resok xdr_post_op_attr.

Module commit3args.
Record t := mk {
  file : bytes;
  offset : Z;
  count : Z;
}.
End commit3args.
Definition xdr_commit3args : xdrproc commit3args.t := xdr_map
  (fun '(x1, x2, x3) => commit3args.mk x1 x2 x3)
  (fun r => (commit3args.file r, commit3args.offset r, commit3args.count r))
  (xdr_nfs_fh3 ⊗ xdr_uint64 ⊗ xdr_uint32).

Module commit3resok.
Record t := mk {
  file_wcc : wcc_data.t;
  verf : bytes;
}.
End commit3resok.
Definition xdr_commit3resok : xdrproc commit3resok.t := xdr_map
  (fun '(x1, x2) => commit3resok.mk x1 x2)
  (fun r => (commit3resok.file_wcc r, commit3resok.verf r))
  (xdr_wcc_data ⊗ xdr_writeverf3).

Definition xdr_commit3res : xdrproc (nfsres commit3resok.t wcc_data.t) := xdr_res xdr_commit3resok xdr_wcc_data.


(** ** The table of procedures (src/nfs3/rpc.c) *)

Inductive nfs_proc :=
  | NFSPROC3_NULL | NFSPROC3_GETATTR | NFSPROC3_SETATTR | NFSPROC3_LOOKUP | NFSPROC3_ACCESS
  | NFSPROC3_READLINK | NFSPROC3_READ | NFSPROC3_WRITE | NFSPROC3_CREATE | NFSPROC3_MKDIR
  | NFSPROC3_SYMLINK | NFSPROC3_MKNOD | NFSPROC3_REMOVE | NFSPROC3_RMDIR | NFSPROC3_RENAME
  | NFSPROC3_LINK | NFSPROC3_READDIR | NFSPROC3_READDIRPLUS | NFSPROC3_FSSTAT | NFSPROC3_FSINFO
  | NFSPROC3_PATHCONF | NFSPROC3_COMMIT.

Definition nfs_procs : list nfs_proc :=
  [NFSPROC3_NULL; NFSPROC3_GETATTR; NFSPROC3_SETATTR; NFSPROC3_LOOKUP; NFSPROC3_ACCESS;
   NFSPROC3_READLINK; NFSPROC3_READ; NFSPROC3_WRITE; NFSPROC3_CREATE; NFSPROC3_MKDIR;
   NFSPROC3_SYMLINK; NFSPROC3_MKNOD; NFSPROC3_REMOVE; NFSPROC3_RMDIR; NFSPROC3_RENAME;
   NFSPROC3_LINK; NFSPROC3_READDIR; NFSPROC3_READDIRPLUS; NFSPROC3_FSSTAT; NFSPROC3_FSINFO;
   NFSPROC3_PATHCONF; NFSPROC3_COMMIT].

(** The procedure with a number. *)
Definition nfs_proc_of (n : Z) : option nfs_proc := if n <? 0 then None else nfs_procs !! Z.to_nat n.

Definition argument (p : nfs_proc) : Type :=
  match p with
  | NFSPROC3_NULL => unit
  | NFSPROC3_GETATTR | NFSPROC3_READLINK | NFSPROC3_FSSTAT | NFSPROC3_FSINFO | NFSPROC3_PATHCONF => bytes
  | NFSPROC3_SETATTR => setattr3args.t
  | NFSPROC3_LOOKUP | NFSPROC3_REMOVE | NFSPROC3_RMDIR => diropargs3.t
  | NFSPROC3_ACCESS => access3args.t
  | NFSPROC3_READ => read3args.t
  | NFSPROC3_WRITE => write3args.t
  | NFSPROC3_CREATE => create3args.t
  | NFSPROC3_MKDIR => mkdir3args.t
  | NFSPROC3_SYMLINK => symlink3args.t
  | NFSPROC3_MKNOD => mknod3args.t
  | NFSPROC3_RENAME => rename3args.t
  | NFSPROC3_LINK => link3args.t
  | NFSPROC3_READDIR => readdir3args.t
  | NFSPROC3_READDIRPLUS => readdirplus3args.t
  | NFSPROC3_COMMIT => commit3args.t
  end.

Definition xdr_argument (p : nfs_proc) : xdrproc (argument p) :=
  match p with
  | NFSPROC3_NULL => xdr_void
  | NFSPROC3_GETATTR | NFSPROC3_READLINK | NFSPROC3_FSSTAT | NFSPROC3_FSINFO | NFSPROC3_PATHCONF =>
    xdr_nfs_fh3
  | NFSPROC3_SETATTR => xdr_setattr3args
  | NFSPROC3_LOOKUP | NFSPROC3_REMOVE | NFSPROC3_RMDIR => xdr_diropargs3
  | NFSPROC3_ACCESS => xdr_access3args
  | NFSPROC3_READ => xdr_read3args
  | NFSPROC3_WRITE => xdr_write3args
  | NFSPROC3_CREATE => xdr_create3args
  | NFSPROC3_MKDIR => xdr_mkdir3args
  | NFSPROC3_SYMLINK => xdr_symlink3args
  | NFSPROC3_MKNOD => xdr_mknod3args
  | NFSPROC3_RENAME => xdr_rename3args
  | NFSPROC3_LINK => xdr_link3args
  | NFSPROC3_READDIR => xdr_readdir3args
  | NFSPROC3_READDIRPLUS => xdr_readdirplus3args
  | NFSPROC3_COMMIT => xdr_commit3args
  end.

Definition result (p : nfs_proc) : Type :=
  match p with
  | NFSPROC3_NULL => unit
  | NFSPROC3_GETATTR => nfsres fattr3.t unit
  | NFSPROC3_SETATTR | NFSPROC3_REMOVE | NFSPROC3_RMDIR => Z * option wcc_data.t
  | NFSPROC3_LOOKUP => nfsres lookup3resok.t (option fattr3.t)
  | NFSPROC3_ACCESS => nfsres access3resok.t (option fattr3.t)
  | NFSPROC3_READLINK => nfsres readlink3resok.t (option fattr3.t)
  | NFSPROC3_READ => nfsres read3resok.t (option fattr3.t)
  | NFSPROC3_WRITE => nfsres write3resok.t wcc_data.t
  | NFSPROC3_CREATE | NFSPROC3_MKDIR | NFSPROC3_SYMLINK | NFSPROC3_MKNOD => nfsres diropres3ok.t wcc_data.t
  | NFSPROC3_RENAME => Z * option rename3wcc.t
  | NFSPROC3_LINK => Z * option link3wcc.t
  | NFSPROC3_READDIR => nfsres readdir3resok.t (option fattr3.t)
  | NFSPROC3_READDIRPLUS => nfsres readdirplus3resok.t (option fattr3.t)
  | NFSPROC3_FSSTAT => nfsres fsstat3resok.t (option fattr3.t)
  | NFSPROC3_FSINFO => nfsres fsinfo3resok.t (option fattr3.t)
  | NFSPROC3_PATHCONF => nfsres pathconf3resok.t (option fattr3.t)
  | NFSPROC3_COMMIT => nfsres commit3resok.t wcc_data.t
  end.

Definition xdr_result (p : nfs_proc) : xdrproc (result p) :=
  match p with
  | NFSPROC3_NULL => xdr_void
  | NFSPROC3_GETATTR => xdr_getattr3res
  | NFSPROC3_SETATTR | NFSPROC3_REMOVE | NFSPROC3_RMDIR => xdr_wccstat3
  | NFSPROC3_LOOKUP => xdr_lookup3res
  | NFSPROC3_ACCESS => xdr_access3res
  | NFSPROC3_READLINK => xdr_readlink3res
  | NFSPROC3_READ => xdr_read3res
  | NFSPROC3_WRITE => xdr_write3res
  | NFSPROC3_CREATE | NFSPROC3_MKDIR | NFSPROC3_SYMLINK | NFSPROC3_MKNOD => xdr_diropres3
  | NFSPROC3_RENAME => xdr_rename3res
  | NFSPROC3_LINK => xdr_link3res
  | NFSPROC3_READDIR => xdr_readdir3res
  | NFSPROC3_READDIRPLUS => xdr_readdirplus3res
  | NFSPROC3_FSSTAT => xdr_fsstat3res
  | NFSPROC3_FSINFO => xdr_fsinfo3res
  | NFSPROC3_PATHCONF => xdr_pathconf3res
  | NFSPROC3_COMMIT => xdr_commit3res
  end.

(** ** The laws *)

#[export] Instance lawful_when {A} tag (x : xdrproc A) : Lawful x -> Lawful (xdr_when tag x).
Proof.
  intros Hx. split; cbn [xdr_when xdr_enc xdr_dec xdr_ok].
  - intros [st o] H. cbn [fst snd] in *. apply andb_prop in H as [_ H].
    destruct (xdr_enum_total st) as [t ->]. cbn [mbind option_bind]. destruct (st =? tag); [|eauto].
    destruct o as [a|]; [|done]. simpl. destruct (xdr_total a H) as [e ->]. simpl. eauto.
  - intros [st o] e rest H. cbn [fst snd] in *. apply andb_prop in H as [Hs H].
    destruct (xdr_enc xdr_enum st) as [t|] eqn:Et; [|done]. cbn [mbind option_bind].
    destruct (st =? tag) eqn:E.
    + destruct o as [a|]; [|done]. cbn [mbind option_bind].
      destruct (xdr_enc x a) as [ea|] eqn:Ea; [|done]. cbn [mbind option_bind]. intros [= <-].
      rewrite <- app_assoc, (xdr_inverse st t _ Hs Et). cbn [mbind option_bind fst snd]. rewrite E.
      by rewrite (xdr_inverse a ea _ H Ea).
    + destruct o; [done|]. intros [= <-]. rewrite (xdr_inverse st t _ Hs Et). cbn [mbind option_bind fst snd].
      by rewrite E.
  - intros [st o] e. cbn [fst snd]. destruct (xdr_enc xdr_enum st) as [t|] eqn:Et; [|done]. cbn [mbind option_bind].
    destruct (st =? tag); [|intros [= <-]; solve_aligned]. destruct o as [a|]; [|done]. cbn [mbind option_bind].
    destruct (xdr_enc x a) as [ea|] eqn:Ea; [|done]. cbn [mbind option_bind]. intros [= <-]. solve_aligned.
Qed.

(** The unions. *)
Create HintDb lawful.

(** A structure is lawful if its fields are; a filter with a name is unfolded. *)
Ltac solve_lawful :=
  repeat first
    [ assumption | solve [auto with lawful nocore]
    | apply lawful_pair | apply lawful_optional | apply lawful_res | apply lawful_stat
    | apply lawful_when | apply lawful_pointer | apply lawful_opaque | apply lawful_enum
    | apply lawful_int | apply lawful_u_int | apply lawful_u_quad_t | apply lawful_bool | apply lawful_void
    | apply lawful_bytes; apply TCEq_eq; reflexivity | apply lawful_string; apply TCEq_eq; reflexivity
    | apply lawful_map; [by intros []|]
    | lazymatch goal with |- Lawful ?x => unfold x end ].

#[export] Instance lawful_sattr3 : Lawful xdr_sattr3.
Proof. unfold xdr_sattr3. solve_lawful. Qed.

(** A union over an enumeration: what follows the tag is lawful. *)
Lemma tagged_inverse {A} (x : xdrproc A) tag a e rest (Hx : Lawful x) :
  xdr_ok xdr_enum tag = true -> xdr_ok x a = true ->
  (m ← xdr_enc xdr_enum tag; b ← xdr_enc x a; Some (m ++ b)) = Some e ->
  exists mid, xdr_dec xdr_enum (e ++ rest) = Some (tag, mid) /\ xdr_dec x mid = Some (a, rest).
Proof.
  intros Ht Ha. destruct (xdr_enc xdr_enum tag) as [m|] eqn:Em; [|done]. cbn [mbind option_bind].
  destruct (xdr_enc x a) as [b|] eqn:Eb; [|done]. cbn [mbind option_bind]. intros [= <-].
  exists (b ++ rest). rewrite <- app_assoc. split; [by apply xdr_inverse|by apply xdr_inverse].
Qed.

Lemma tagged_total {A} (x : xdrproc A) tag a (Hx : Lawful x) :
  xdr_ok x a = true -> is_Some (m ← xdr_enc xdr_enum tag; b ← xdr_enc x a; Some (m ++ b)).
Proof.
  intros Ha. destruct (xdr_enum_total tag) as [m ->], (xdr_total a Ha) as [b ->]. simpl. eauto.
Qed.

Lemma tagged_aligned {A} (x : xdrproc A) tag a e (Hx : Lawful x) :
  (m ← xdr_enc xdr_enum tag; b ← xdr_enc x a; Some (m ++ b)) = Some e -> zlen e mod 4 = 0.
Proof.
  destruct (xdr_enc xdr_enum tag) as [m|] eqn:Em; [|done]. cbn [mbind option_bind].
  destruct (xdr_enc x a) as [b|] eqn:Eb; [|done]. cbn [mbind option_bind]. intros [= <-]. solve_aligned.
Qed.

#[export] Instance lawful_createhow3 : Lawful xdr_createhow3.
Proof.
  assert (Hv : Lawful xdr_createverf3) by (unfold xdr_createverf3; solve_lawful).
  split; cbn [xdr_createhow3 xdr_enc xdr_dec xdr_ok]; unfold xdr_createmode3.
  - intros [a|a|v]; apply tagged_total; apply _.
  - intros [a|a|v] e rest Ha He;
      (eapply tagged_inverse in He as (mid & -> & Hd); [|apply _|done|done]);
      cbn [mbind option_bind fst snd];
      repeat match goal with |- context [?m =? ?n] =>
        let c := eval vm_compute in (m =? n) in change (m =? n) with c end;
      cbv iota; by rewrite Hd.
  - intros [a|a|v] e; apply tagged_aligned; apply _.
Qed.

#[export] Instance lawful_mknoddata3 : Lawful xdr_mknoddata3.
Proof.
  assert (Hv : Lawful xdr_devicedata3) by (unfold xdr_devicedata3; solve_lawful).
  split; cbn [xdr_mknoddata3 xdr_enc xdr_dec xdr_ok]; unfold xdr_ftype3.
  - intros [t a|t a|t] H; repeat apply andb_prop in H as [H ?];
      [apply tagged_total; [apply _|done]..|apply xdr_enum_total].
  - intros [t a|t a|t] e rest H He; apply andb_prop in H as [H Ha]; apply andb_prop in H as [Ht Hd].
    + eapply tagged_inverse in He as (mid & -> & Hm); [|apply _|done|done].
      cbn [mbind option_bind fst snd]. rewrite Hd. by rewrite Hm.
    + eapply tagged_inverse in He as (mid & -> & Hm); [|apply _|done|done].
      cbn [mbind option_bind fst snd]. rewrite Hd.
      assert (is_device t = false) as -> by (unfold is_pipe, is_device, NF3SOCK, NF3FIFO, NF3CHR, NF3BLK in *; lia).
      by rewrite Hm.
    + rewrite (xdr_inverse t e rest Ht He). cbn [mbind option_bind fst snd].
      by destruct (is_device t), (is_pipe t).
  - intros [t a|t a|t] e; [apply tagged_aligned; apply _..|apply xdr_aligned].
Qed.

#[export] Hint Resolve lawful_createhow3 lawful_mknoddata3 : lawful.

#[export] Instance lawful_argument p : Lawful (xdr_argument p).
Proof. destruct p; cbn [xdr_argument argument]; solve_lawful. Qed.

#[export] Instance lawful_result p : Lawful (xdr_result p).
Proof. destruct p; cbn [xdr_result result]; solve_lawful. Qed.

