(* ===== verification/Rpc.v ===== *)
(** * Remote procedure calls (src/nfs3/rpc.c)

    Reading call messages from a stream that comes in pieces, checking and
    dispatching them, and sending replies.

    A message is sent as fragments, each with a header of four bytes that gives its
    length and tells whether it is the last.  The code collects header and body
    from whatever a read returns; the specification takes one byte at a time. *)

From S2P Require Import Prelude State Xdr NfsTypes.
From Stdlib Require Import ZArith Lia.
From stdpp Require Import base numbers option list.

Open Scope Z_scope.

Definition MAX_RPC_MSGSIZE : Z := 8 * 2 ^ 20.
Definition NFS_PROGRAM : Z := 100003.
Definition NFS_V3 : Z := 3.

(** [enum accept_stat] and [MSG_ACCEPTED] of the RPC library. *)
Definition PROG_UNAVAIL : Z := 1.
Definition PROC_UNAVAIL : Z := 3.
Definition GARBAGE_ARGS : Z := 4.
Definition SYSTEM_ERR : Z := 5.
Definition MSG_ACCEPTED : Z := 0.

(** What [g_io_channel_write_chars] returns: the number of bytes taken, or one of
    the other states.  A write for which nothing is given takes all. *)
Inductive io_write :=
  | Written (n : nat)
  | NotWritten.

(** A connection: the message collected so far (and behind it the part of a
    fragment header that has been read), and what is left of the fragment. *)
Module RPCConnection.
Record t := mk {
  msgbuf : bytes;
  frag_len : Z;
  frag_hdr_bytes : Z;
  udp_transport : bool;
  sendbuf : bytes;
  channel : bytes;            (* what has been written to the socket *)
  answers : list io_write;    (* what the next writes to it return *)
}.
End RPCConnection.
#[export] Instance RPCConnection_eta : Eta RPCConnection.t := fun x =>
  RPCConnection.mk (RPCConnection.msgbuf x) (RPCConnection.frag_len x) (RPCConnection.frag_hdr_bytes x)
    (RPCConnection.udp_transport x) (RPCConnection.sendbuf x) (RPCConnection.channel x)
    (RPCConnection.answers x).

Module RPCRequest.
Record t := mk {
  xid : Z;
  raw_args : bytes;
  raw_args_header_bytes : Z;
  req_proc : Z;
}.
End RPCRequest.

(** The server: one connection, the calls handed to the pool of threads and the
    number of calls not answered yet. *)
Record Server := mkServer {
  connection : RPCConnection.t;
  outstanding_rpcs : Z;
  rpc_thread_pool : list RPCRequest.t;
}.
#[export] Instance Server_eta : Eta Server := fun x =>
  mkServer (connection x) (outstanding_rpcs x) (rpc_thread_pool x).

(** ** Sending *)

(** The loop: what is written and the answers that are left. *)
Fixpoint write_loop (answers : list io_write) (buf : bytes) : bytes * list io_write :=
  match buf with
  | [] => ([], answers)
  | _ =>
    match answers with
    | [] => (buf, [])
    | NotWritten :: answers => ([], answers)
    | Written n :: answers =>
      let '(out, answers) := write_loop answers (drop n buf) in (take n buf ++ out, answers)
    end
  end.

Definition async_rpc_write (rpc : RPCConnection.t) (buf : bytes) : RPCConnection.t :=
  if RPCConnection.udp_transport rpc
  then rpc <| RPCConnection.sendbuf ::= fun b => b ++ buf |>
  else
    let '(out, answers) := write_loop (RPCConnection.answers rpc) buf in
    rpc <| RPCConnection.channel ::= fun b => b ++ out |> <| RPCConnection.answers := answers |>.

Definition async_rpc_flush (rpc : RPCConnection.t) : RPCConnection.t :=
  if RPCConnection.udp_transport rpc
  then rpc <| RPCConnection.channel ::= fun b => b ++ RPCConnection.sendbuf rpc |>
  else rpc.

(** [struct rpc_reply] and [struct rpc_fail_reply]. *)
Definition reply_header (xid accept_stat : Z) : bytes :=
  be_bytes 4 xid ++ be_bytes 4 1 ++ be_bytes 4 MSG_ACCEPTED ++ be_bytes 4 0 ++ be_bytes 4 0
    ++ be_bytes 4 accept_stat.

(** The header of a last fragment. *)
Definition last_fragment (len : Z) : bytes := be_bytes 4 (Z.lor len 0x80000000).

(** One message in one fragment. *)
Definition send_message (rpc : RPCConnection.t) (header body : bytes) : RPCConnection.t :=
  let rpc := if RPCConnection.udp_transport rpc then rpc
             else async_rpc_write rpc (last_fragment (zlen header + zlen body)) in
  async_rpc_flush (async_rpc_write (async_rpc_write rpc header) body).

Definition async_rpc_send_failure (s : Server) (req : RPCRequest.t) (stat : Z) : Server :=
  s <| outstanding_rpcs ::= Z.add (-1) |>
    <| connection ::= fun rpc => send_message rpc (reply_header (RPCRequest.xid req) stat) [] |>.

Definition async_rpc_send_reply (s : Server) (req : RPCRequest.t) (p : nfs_proc) (res : result p) : Server :=
  match xdr_enc (xdr_result p) res with
  | None => async_rpc_send_failure s req SYSTEM_ERR
  | Some str =>
    s <| outstanding_rpcs ::= Z.add (-1) |>
      <| connection ::= fun rpc => send_message rpc (reply_header (RPCRequest.xid req) 0) str |>
  end.

(** ** Dispatching *)

(** A word of the call header. *)
Definition word (msg : bytes) (i : Z) : option Z := be_val <$> slice msg (4 * i) 4.

(** Skips the two authentication headers. *)
Fixpoint skip_auth (n : nat) (msg : bytes) (pos : Z) : option (option Z) :=
  match n with
  | O => Some (if zlen msg <? pos then None else Some pos)
  | S n =>
    if zlen msg <? pos + 8 then Some None else
    len ← slice msg (pos + 4) 4;
    let authsize := be_val len + 8 in
    if MAX_RPC_MSGSIZE <? authsize then Some None else skip_auth n msg (pos + authsize)
  end.

(** What becomes of a message: the transport is closed, an error is returned to
    the client, or the call is carried out. *)
Inductive disposition :=
  | Close (counted : bool)
  | Reject (xid stat : Z)
  | Call (req : RPCRequest.t).

(** [None] if memory outside the message would be read.  [counted] tells whether
    the call had been counted as outstanding. *)
Definition classify (msg : bytes) : option disposition :=
  if zlen msg <? 24 then Some (Close false) else
  xid ← word msg 0;
  mtype ← word msg 1;
  if negb (mtype =? 0) then Some (Close false) else
  rpcvers ← word msg 2;
  if negb (rpcvers =? 2) then Some (Close false) else
  prog ← word msg 3;
  if negb (prog =? NFS_PROGRAM) then Some (Reject xid PROG_UNAVAIL) else
  vers ← word msg 4;
  if negb (vers =? NFS_V3) then Some (Reject xid PROG_UNAVAIL) else
  proc ← word msg 5;
  o ← skip_auth 2 msg 24;
  match o with
  | None => Some (Close true)
  | Some pos => Some (Call (RPCRequest.mk xid msg pos (s32 proc)))
  end.

(** The message is in the buffer of the connection; [false] if the transport is to
    be closed. *)
Definition async_rpc_dispatch (s : Server) : option (Server * bool) :=
  d ← classify (RPCConnection.msgbuf (connection s));
  let count n (s : Server) := s <| outstanding_rpcs ::= Z.add n |> in
  Some match d with
  | Close false => (s, false)
  | Close true => (count (-1) (count 1 s), false)
  | Reject xid stat => (async_rpc_send_failure (count 1 s) (RPCRequest.mk xid [] 0 0) stat, true)
  | Call req =>
    ((count 1 s) <| connection ::= fun rpc => rpc <| RPCConnection.msgbuf := [] |> |>
       <| rpc_thread_pool ::= fun l => l ++ [req] |>, true)
  end.

(** The call of a request, decoded: an error for the client or the procedure and
    its argument. *)
Definition nfs_program_3 (req : RPCRequest.t) : Z + { p : nfs_proc & argument p } :=
  match nfs_proc_of (RPCRequest.req_proc req) with
  | None => inl PROC_UNAVAIL
  | Some p =>
    match xdr_dec (xdr_argument p) (drop (Z.to_nat (RPCRequest.raw_args_header_bytes req)) (RPCRequest.raw_args req)) with
    | None => inl GARBAGE_ARGS
    | Some (a, _) => inr (existT p a)
    end
  end.

(** ** Reading *)

(** What [g_io_channel_read_chars] returns. *)
Inductive io_result :=
  | G_IO_STATUS_NORMAL (data : bytes)
  | G_IO_STATUS_AGAIN
  | G_IO_STATUS_EOF (data : bytes)
  | G_IO_STATUS_ERROR.

(** What a read leads to: more reads, the end of the connection, or a complete
    message in the buffer. *)
Inductive read_result :=
  | ReadMore (rpc : RPCConnection.t)
  | ReadClose
  | ReadMessage (rpc : RPCConnection.t).

Definition bytes_to_read (rpc : RPCConnection.t) : Z :=
  if RPCConnection.frag_len rpc =? 0 then 4 - RPCConnection.frag_hdr_bytes rpc
  else Z.land (RPCConnection.frag_len rpc) 0x7fffffff.

(** The bytes read are in the buffer. *)
Definition after_read (rpc : RPCConnection.t) (data : bytes) : read_result :=
  let rpc := rpc <| RPCConnection.msgbuf ::= fun b => b ++ data |> in
  if RPCConnection.frag_len rpc =? 0 then
    let hdr := RPCConnection.frag_hdr_bytes rpc + zlen data in
    if hdr =? 4 then
      let len := zlen (RPCConnection.msgbuf rpc) - 4 in
      ReadMore (rpc <| RPCConnection.frag_len := be_val (drop (Z.to_nat len) (RPCConnection.msgbuf rpc)) |>
                    <| RPCConnection.msgbuf ::= take (Z.to_nat len) |> <| RPCConnection.frag_hdr_bytes := 0 |>)
    else ReadMore (rpc <| RPCConnection.frag_hdr_bytes := hdr |>)
  else
    let rpc := rpc <| RPCConnection.frag_len ::= fun n => u32 (n - zlen data) |> in
    if RPCConnection.frag_len rpc =? 0x80000000 then ReadMessage rpc else ReadMore rpc.

(** [grown] is what the buffer holds when it has been made longer and nothing has
    been written to it. *)
Definition rpc_read (rpc : RPCConnection.t) (grown : Z -> bytes) (r : io_result) : read_result :=
  let n := bytes_to_read rpc in
  if (MAX_RPC_MSGSIZE <? n) || (MAX_RPC_MSGSIZE <? zlen (RPCConnection.msgbuf rpc) + n) then ReadClose else
  match r with
  | G_IO_STATUS_NORMAL data => after_read rpc data
  | G_IO_STATUS_AGAIN => ReadMore (rpc <| RPCConnection.msgbuf ::= fun b => b ++ grown n |>)
  | G_IO_STATUS_EOF data => if zlen data =? n then after_read rpc data else ReadClose
  | G_IO_STATUS_ERROR => ReadClose
  end.

(** A whole step of the connection; [false] if the transport is closed. *)
Definition async_rpc_do_read (s : Server) (grown : Z -> bytes) (r : io_result) : option (Server * bool) :=
  match rpc_read (connection s) grown r with
  | ReadMore rpc => Some (s <| connection := rpc |>, true)
  | ReadClose => Some (s, false)
  | ReadMessage rpc =>
    r ← async_rpc_dispatch (s <| connection := rpc |>);
    if (r.2 : bool) then
      Some (r.1 <| connection ::= fun rpc => rpc <| RPCConnection.frag_len := 0 |>
                                                 <| RPCConnection.msgbuf := [] |> |>, true)
    else Some (r.1, false)
  end.

(** A datagram is a whole message, with a connection of its own; [None] is an
    error of the socket. *)
Definition async_rpc_do_udp (s : Server) (r : option bytes) : option (Server * bool) :=
  match r with
  | None => Some (s, false)
  | Some msg =>
    if 65536 <=? zlen msg then None else
    r ← async_rpc_dispatch (s <| connection := RPCConnection.mk msg 0 0 true [] [] [] |>);
    Some (r.1, true)
  end.

(** A connection as [async_rpc_do_accept] makes it. *)
Definition async_rpc_do_accept (answers : list io_write) : RPCConnection.t :=
  RPCConnection.mk [] 0 0 false [] [] answers.

(** ** The stream as fragments *)

(** The fragments of a stream, each with its mark of the last one. *)
Definition fragment : Type := bool * bytes.

Definition fragment_header (f : fragment) : bytes :=
  be_bytes 4 (zlen f.2 + if f.1 then 2 ^ 31 else 0).

Fixpoint stream (fs : list fragment) : bytes :=
  match fs with
  | [] => []
  | f :: fs => fragment_header f ++ f.2 ++ stream fs
  end.

(** The messages they make, the first of which has begun with [acc]. *)
Fixpoint messages (acc : bytes) (fs : list fragment) : list bytes :=
  match fs with
  | [] => []
  | (true, b) :: fs => (acc ++ b) :: messages [] fs
  | (false, b) :: fs => messages (acc ++ b) fs
  end.

(** No message is too long, and no message ends in an empty fragment. *)
Fixpoint fragments_ok (acc : bytes) (fs : list fragment) : Prop :=
  match fs with
  | [] => True
  | (last, b) :: fs =>
    zlen acc + zlen b + 4 <= MAX_RPC_MSGSIZE /\ (last = true -> b <> []) /\
    fragments_ok (if last then [] else acc ++ b) fs
  end.

(** The buffer after a message. *)
Definition message_done (rpc : RPCConnection.t) : RPCConnection.t :=
  rpc <| RPCConnection.frag_len := 0 |> <| RPCConnection.msgbuf := [] |>.

(** A number of reads that return parts of the stream as they like: what they
    took off the stream and the messages they completed. *)
Inductive reads (grown : Z -> bytes) : RPCConnection.t -> bytes -> list bytes -> RPCConnection.t -> Prop :=
  | reads_none rpc : reads grown rpc [] [] rpc
  | reads_more rpc data rpc' s out rpc'' :
      data <> [] -> zlen data <= bytes_to_read rpc ->
      rpc_read rpc grown (G_IO_STATUS_NORMAL data) = ReadMore rpc' ->
      reads grown rpc' s out rpc'' -> reads grown rpc (data ++ s) out rpc''
  | reads_message rpc data rpc' s out rpc'' :
      data <> [] -> zlen data <= bytes_to_read rpc ->
      rpc_read rpc grown (G_IO_STATUS_NORMAL data) = ReadMessage rpc' ->
      reads grown (message_done rpc') s out rpc'' ->
      reads grown rpc (data ++ s) (RPCConnection.msgbuf rpc' :: out) rpc''.

(** What is left of the stream, and the messages it will complete: a fragment
    header has been read in part, or a fragment. *)
Inductive awaits (rpc : RPCConnection.t) (t : bytes) (out : list bytes) : Prop :=
  | awaits_header acc h fs :
      RPCConnection.frag_len rpc = 0 -> RPCConnection.frag_hdr_bytes rpc = zlen h -> zlen h < 4 ->
      RPCConnection.msgbuf rpc = acc ++ h -> h ++ t = stream fs ->
      fragments_ok acc fs -> out = messages acc fs -> awaits rpc t out
  | awaits_body last b fs :
      RPCConnection.frag_len rpc = zlen b + (if last : bool then 2 ^ 31 else 0) -> b <> [] ->
      RPCConnection.frag_hdr_bytes rpc = 0 -> t = b ++ stream fs ->
      fragments_ok (RPCConnection.msgbuf rpc) ((last, b) :: fs) ->
      out = messages (RPCConnection.msgbuf rpc) ((last, b) :: fs) -> awaits rpc t out.

Lemma body_to_read (last : bool) n : 0 < n < 2 ^ 31 ->
  Z.land (n + (if last then 2 ^ 31 else 0)) 0x7fffffff = n.
Proof.
  intros Hn. change 0x7fffffff with (Z.ones 31). rewrite Z.land_ones by lia.
  destruct last; [|rewrite Z.add_0_r; by apply Z.mod_small; lia].
  rewrite <- (Z.mul_1_l (2 ^ 31)) at 1. rewrite Z_mod_plus_full. apply Z.mod_small. lia.
Qed.

Lemma awaits_to_read rpc t out :
  awaits rpc t out -> t <> [] ->
  0 < bytes_to_read rpc /\ bytes_to_read rpc <= MAX_RPC_MSGSIZE /\
  zlen (RPCConnection.msgbuf rpc) + bytes_to_read rpc <= MAX_RPC_MSGSIZE.
Proof.
  intros [acc h fs Hl Hh Hlt Hm Hs Hok _|last b fs Hl Hb Hh Ht Hok _] Hne; unfold bytes_to_read.
  - rewrite Hl, Hh, Hm, length_app. change (0 =? 0) with true. cbv iota.
    destruct fs as [|[last b] fs].
    { apply app_eq_nil in Hs as [_ Hs]. done. }
    destruct Hok as (Hsz & _). lia.
  - destruct Hok as (Hsz & _). assert (0 < zlen b) by (destruct b; simpl; [done|lia]).
    rewrite Hl. unfold MAX_RPC_MSGSIZE in *. rewrite body_to_read by lia.
    destruct (_ =? 0) eqn:E; [|lia]. destruct last; lia.
Qed.

(** A read in a fragment. *)
Lemma read_body rpc data t out last b fs :
  RPCConnection.frag_len rpc = zlen b + (if last : bool then 2 ^ 31 else 0) -> 
  RPCConnection.frag_hdr_bytes rpc = 0 -> b = data ++ t -> data <> [] ->
  fragments_ok (RPCConnection.msgbuf rpc) ((last, b) :: fs) ->
  out = messages (RPCConnection.msgbuf rpc) ((last, b) :: fs) ->
  (exists rpc', after_read rpc data = ReadMore rpc' /\ awaits rpc' (t ++ stream fs) out) \/
  (exists rpc' out', after_read rpc data = ReadMessage rpc' /\ out = RPCConnection.msgbuf rpc' :: out' /\
    awaits (message_done rpc') (t ++ stream fs) out').
Proof.
  intros Hl Hh -> Hne (Hsz & Hlast & Hok) ->.
  assert (0 < zlen data) by (destruct data; simpl; [done|lia]).
  rewrite length_app in Hsz, Hl. unfold MAX_RPC_MSGSIZE in Hsz.
  assert (Hu : u32 (RPCConnection.frag_len rpc - zlen data) = zlen t + (if last then 2 ^ 31 else 0)).
  { rewrite Hl. rewrite u32_id by (destruct last; lia). lia. }
  unfold after_read. simpl. destruct (RPCConnection.frag_len rpc =? 0) eqn:E0; [destruct last; lia|].
  rewrite Hu. destruct last.
  - destruct (zlen t + 2 ^ 31 =? 2147483648) eqn:Et.
    + right. destruct t as [|x t]; [|exfalso; apply Z.eqb_eq in Et; rewrite length_cons in Et; lia]. rewrite app_nil_r. eexists _, _.
      split; [done|]. split; [done|].
      eapply (awaits_header _ _ _ [] [] fs); simpl; try done. 
    + left. eexists. split; [done|]. eapply (awaits_body _ _ _ true t fs); simpl; try done.
      * intros ->. done.
      * split_and!; [rewrite length_app; unfold MAX_RPC_MSGSIZE; lia|by intros _ ->|done].
      * by rewrite app_assoc.
  - destruct (zlen t + 0 =? 2147483648) eqn:Et; [lia|]. left. eexists. split; [done|].
    destruct (decide (t = [])) as [->|Ht].
    + eapply (awaits_header _ _ _ _ [] fs); simpl; try done; by rewrite ?app_nil_r.
    + eapply (awaits_body _ _ _ false t fs); simpl; try done.
      * split_and!; [rewrite length_app; unfold MAX_RPC_MSGSIZE; lia|done|by rewrite <- app_assoc].
      * by rewrite app_assoc.
Qed.

(** A read of a fragment header. *)
Lemma read_header rpc data t out acc h fs :
  RPCConnection.frag_len rpc = 0 -> RPCConnection.frag_hdr_bytes rpc = zlen h ->
  RPCConnection.msgbuf rpc = acc ++ h -> data <> [] -> zlen h + zlen data <= 4 ->
  h ++ data ++ t = stream fs -> fragments_ok acc fs -> out = messages acc fs ->
  exists rpc', after_read rpc data = ReadMore rpc' /\ awaits rpc' t out.
Proof.
  intros Hl Hh Hm Hne Hsz Hs Hok ->. unfold after_read. simpl. rewrite Hl, Hh, Hm, <- app_assoc.
  change (0 =? 0) with true. cbv iota.
  destruct (zlen h + zlen data =? 4) eqn:E4; (eexists; split; [done|]).
  2: { eapply (awaits_header _ _ _ acc (h ++ data) fs); simpl; try done; rewrite ?length_app; try lia.
       all: by rewrite ?Hm, <- ?app_assoc. }
  destruct fs as [|[last b] fs].
  { apply app_eq_nil in Hs as [_ Hs]. by apply app_eq_nil in Hs as [-> _]. }
  cbn [stream] in Hs. rewrite app_assoc in Hs. apply app_inj_1 in Hs as [Hhd ->].
  2: { unfold fragment_header. rewrite length_app, length_be_bytes. lia. }
  assert (Hn : Z.to_nat (zlen (acc ++ h ++ data) - 4) = length acc) by (rewrite !length_app; lia).
  destruct Hok as (Hfit & Hlast & Hok). unfold MAX_RPC_MSGSIZE in Hfit.
  assert (Hv : be_val (h ++ data) = zlen b + if last then 2 ^ 31 else 0).
  { rewrite Hhd. unfold fragment_header. rewrite be_val_be_bytes. apply Z.mod_small.
    simpl. destruct last; lia. }
  destruct (decide (b = [])) as [->|Hb].
  - destruct last; [by destruct Hlast|].
    eapply (awaits_header _ _ _ acc [] fs); simpl;
      rewrite ?Hm, <- ?app_assoc, ?Hn, ?drop_app_length, ?take_app_length, ?app_nil_r; try done.
    by rewrite app_nil_r in Hok.
  - eapply (awaits_body _ _ _ last b fs); simpl;
      rewrite ?Hm, <- ?app_assoc, ?Hn, ?drop_app_length, ?take_app_length; done.
Qed.

(** Any read of a part of the stream, however short, brings it nearer to its end. *)
Lemma awaits_read rpc grown data t out :
  awaits rpc (data ++ t) out -> data <> [] -> zlen data <= bytes_to_read rpc ->
  (exists rpc', rpc_read rpc grown (G_IO_STATUS_NORMAL data) = ReadMore rpc' /\ awaits rpc' t out) \/
  (exists rpc' out', rpc_read rpc grown (G_IO_STATUS_NORMAL data) = ReadMessage rpc' /\
    out = RPCConnection.msgbuf rpc' :: out' /\ awaits (message_done rpc') t out').
Proof.
  intros Ha Hne Hsz. assert (Htot : data ++ t <> []) by (by destruct data).
  destruct (awaits_to_read _ _ _ Ha Htot) as (_ & H1 & H2).
  unfold rpc_read. rewrite (proj2 (Z.ltb_ge _ _) H1), (proj2 (Z.ltb_ge _ _) H2). cbn [orb].
  destruct Ha as [acc h fs Hl Hh Hlt Hm Hs Hok Ho|last b fs Hl Hb Hh Ht Hok Ho].
  - left. eapply read_header; try done. unfold bytes_to_read in Hsz. rewrite Hl, Hh in Hsz.
    change (0 =? 0) with true in Hsz. cbv iota in Hsz. lia.
  - destruct Hok as (Hfit & Hr). unfold MAX_RPC_MSGSIZE in Hfit.
    assert (0 < zlen b) by (destruct b; simpl; [done|lia]).
    assert (Hle : zlen data <= zlen b).
    { unfold bytes_to_read in Hsz. rewrite Hl, body_to_read in Hsz by lia.
      destruct (_ =? 0) eqn:E in Hsz; destruct last; lia. }
    assert (exists b', b = data ++ b' /\ t = b' ++ stream fs) as (b' & -> & ->).
    { exists (drop (length data) b).
      assert (b = take (length data) b ++ drop (length data) b) as Hsplit by (by rewrite take_drop).
      rewrite Hsplit in Ht at 1. rewrite <- app_assoc in Ht. 
      apply app_inj_1 in Ht as [Hd ->]; [|rewrite length_take; lia].
      split; [|done]. by rewrite Hd at 1. }
    eapply (read_body rpc data b' out last _ fs); eauto.
    split; [unfold MAX_RPC_MSGSIZE; lia|done].
Qed.

Lemma reads_awaits grown rpc s out rpc' t outs :
  reads grown rpc s out rpc' -> awaits rpc (s ++ t) outs ->
  exists outs', outs = out ++ outs' /\ awaits rpc' t outs'.
Proof.
  intros Hr. revert outs. induction Hr as [rpc|rpc data rpc' s out rpc'' Hne Hsz Hrd _ IH|
    rpc data rpc' s out rpc'' Hne Hsz Hrd _ IH]; intros outs Ha; [by exists outs| |];
    rewrite <- app_assoc in Ha;
    (destruct (awaits_read rpc grown data (s ++ t) outs) as [(r & E & Ha')|(r & o & E & -> & Ha')];
      [done|done|done| |]); rewrite E in Hrd; try done; injection Hrd as ->.
  - by apply IH.
  - destruct (IH _ Ha') as (outs' & -> & ?). by exists outs'.
Qed.

Lemma awaits_end rpc outs :
  awaits rpc [] outs ->
  outs = [] /\ RPCConnection.frag_len rpc = 0 /\ RPCConnection.frag_hdr_bytes rpc = 0.
Proof.
  intros [acc h fs Hl Hh Hlt _ Hst _ ->|last b fs _ Hb _ Hst _ _].
  - destruct fs as [|f fs].
    { apply app_eq_nil in Hst as [-> _]. done. }
    exfalso. apply (f_equal length) in Hst. cbn [stream] in Hst.
    rewrite !length_app in Hst. unfold fragment_header in Hst. rewrite length_be_bytes in Hst.
    cbn [length] in Hst. lia.
  - symmetry in Hst. by apply app_eq_nil in Hst as [-> _].
Qed.



(** ** Calls *)

Lemma word_ok msg i : 0 <= i < 6 -> 24 <= zlen msg -> is_Some (word msg i).
Proof.
  intros Hi Hl. unfold word. apply fmap_is_Some. apply slice_is_Some; lia.
Qed.

Lemma skip_auth_ok n msg pos :
  Forall is_byte msg -> 0 <= pos ->
  exists o, skip_auth n msg pos = Some o /\ forall p, o = Some p -> pos <= p <= zlen msg.
Proof.
  intros Hb. revert pos. induction n as [|n IH]; intros pos Hp; simpl.
  { eexists. split; [done|]. intros p. destruct (zlen msg <? pos) eqn:E; [done|]. intros [= <-].
    apply Z.ltb_ge in E. lia. }
  destruct (zlen msg <? pos + 8) eqn:E; [by exists None|]. apply Z.ltb_ge in E.
  destruct (slice_is_Some msg (pos + 4) 4) as [x Hx]; [lia..|]. rewrite Hx. simpl.
  apply slice_Some in Hx as (_ & _ & _ & _ & p & q & -> & _).
  rewrite !Forall_app in Hb. destruct Hb as (_ & Hxb & _).
  assert (0 <= be_val x) by (unfold be_val; apply le_val_range; by apply Forall_rev).
  destruct (MAX_RPC_MSGSIZE <? be_val x + 8); [by exists None|].
  destruct (IH (pos + (be_val x + 8))) as (o & -> & Ho); [lia|].
  exists o. split; [done|]. intros p0 Hp0. specialize (Ho p0 Hp0). lia.
Qed.

#[local] Arguments skip_auth : simpl never.

(** A message is never read past its end, whatever it holds, and a call that is
    taken has its arguments inside the message. *)
Lemma classify_ok msg :
  Forall is_byte msg ->
  exists d, classify msg = Some d /\
    forall req, d = Call req ->
      RPCRequest.raw_args req = msg /\ 24 <= RPCRequest.raw_args_header_bytes req <= zlen msg.
Proof.
  intros Hb. unfold classify. destruct (zlen msg <? 24) eqn:E; [by eexists|]. apply Z.ltb_ge in E.
  destruct (word_ok msg 0) as [w0 ->]; [lia..|]. simpl.
  destruct (word_ok msg 1) as [w1 ->]; [lia..|]. simpl. destruct (negb (w1 =? 0)); [by eexists|].
  destruct (word_ok msg 2) as [w2 ->]; [lia..|]. simpl. destruct (negb (w2 =? 2)); [by eexists|].
  destruct (word_ok msg 3) as [w3 ->]; [lia..|]. simpl. destruct (negb (w3 =? _)); [by eexists|].
  destruct (word_ok msg 4) as [w4 ->]; [lia..|]. simpl. destruct (negb (w4 =? _)); [by eexists|].
  destruct (word_ok msg 5) as [w5 ->]; [lia..|]. cbn [mbind option_bind].
  destruct (skip_auth_ok 2 msg 24 Hb) as (o & -> & Ho); [lia|]. cbn [mbind option_bind].
  destruct o as [p|]; [|by eexists]. eexists. split; [done|]. intros req [= <-]. simpl.
  specialize (Ho p eq_refl). done.
Qed.

(** C31: No message can make the server read outside it or lose count.  For any
    bytes a client sends, dispatching reads only bytes of the message, and the
    number of calls counted as outstanding grows by exactly the number of calls
    handed to the threads, also when the message is answered with an error or the
    connection is closed; a call handed over has its arguments inside the
    message. *)
Theorem rpc_dispatch_safe (s : Server)
    (Hb : Forall is_byte (RPCConnection.msgbuf (connection s))) :
  exists s' ok calls, async_rpc_dispatch s = Some (s', ok) /\
    rpc_thread_pool s' = rpc_thread_pool s ++ calls /\
    outstanding_rpcs s' = outstanding_rpcs s + zlen calls /\
    Forall (fun req => RPCRequest.raw_args_header_bytes req <= zlen (RPCRequest.raw_args req)) calls /\
    (ok = false -> calls = []).
Proof.
  destruct (classify_ok _ Hb) as (d & Hd & Hreq). unfold async_rpc_dispatch. rewrite Hd.
  cbn [mbind option_bind].
  destruct d as [[]|xid stat|req]; eexists _, _.
  - exists []. rewrite app_nil_r. split_and!; [done..| |done|done]. simpl. lia.
  - exists []. rewrite app_nil_r. split_and!; [done..| |done|done]. simpl. lia.
  - exists []. rewrite app_nil_r. split_and!; [done..| |done|done]. simpl. lia.
  - exists [req]. destruct (Hreq req eq_refl) as (Ha & Hp).
    split_and!; [done..| | |done]; [simpl; lia|]. apply Forall_singleton. rewrite Ha. lia.
Qed.

Lemma rpc_dispatch_safe_witness :
  exists s' ok, async_rpc_dispatch (mkServer (RPCConnection.mk (replicate 23 0) 0 0 false [] [] []) 4 [])
    = Some (s', ok).
Proof.
  destruct (rpc_dispatch_safe (mkServer (RPCConnection.mk (replicate 23 0) 0 0 false [] [] []) 4 []))
    as (s' & ok & _ & H & _); [|by exists s', ok].
  apply Forall_replicate. unfold is_byte. lia.
Defined.

(** ** A call and its answer *)

(** An authenticator of a client: its flavour and a body filled up to a multiple
    of four bytes. *)
Definition authenticator (flavor : Z) (body : bytes) : bytes :=
  be_bytes 4 flavor ++ be_bytes 4 (zlen body) ++ body.

(** The message of a client that calls procedure [proc]. *)
Definition call_message (xid proc : Z) (cred verf args : bytes) : bytes :=
  (be_bytes 4 xid ++ be_bytes 4 0 ++ be_bytes 4 2 ++ be_bytes 4 NFS_PROGRAM ++ be_bytes 4 NFS_V3
    ++ be_bytes 4 proc) ++ cred ++ verf ++ args.

Lemma skip_auth_one n p flavor body q :
  zlen body <= MAX_RPC_MSGSIZE - 8 ->
  skip_auth (S n) (p ++ authenticator flavor body ++ q) (zlen p)
  = skip_auth n ((p ++ authenticator flavor body) ++ q) (zlen (p ++ authenticator flavor body)).
Proof.
  intros Hb. unfold MAX_RPC_MSGSIZE in Hb. rewrite <- (app_assoc p).
  assert (Hl : zlen (authenticator flavor body) = zlen body + 8).
  { unfold authenticator. rewrite !length_app, !length_be_bytes. lia. }
  unfold skip_auth; fold skip_auth. rewrite !length_app, !Nat2Z.inj_add, Hl.
  rewrite (proj2 (Z.ltb_ge _ _)) by lia.
  assert (slice (p ++ authenticator flavor body ++ q) (zlen p + 4) 4 = Some (be_bytes 4 (zlen body))) as ->.
  { unfold authenticator. rewrite <- !app_assoc.
    rewrite (app_assoc p). apply slice_mid; rewrite ?length_app, !length_be_bytes; lia. }
  cbn [mbind option_bind]. rewrite be_val_be_bytes, Z.mod_small by (simpl; lia).
  rewrite (proj2 (Z.ltb_ge _ _)) by (unfold MAX_RPC_MSGSIZE; lia). f_equal. 
Qed.

Lemma call_word xid proc cred verf args ws i :
  ws = [xid; 0; 2; NFS_PROGRAM; NFS_V3; proc] ->
  forall w, ws !! i = Some w -> word (call_message xid proc cred verf args) (Z.of_nat i) = Some (w mod 2 ^ 32).
Proof.
  intros -> w Hi. unfold word, call_message.
  set (rest := cred ++ verf ++ args). rewrite <- !app_assoc.
  assert (forall p x q, zlen p = 4 * Z.of_nat i ->
    be_val <$> slice (p ++ be_bytes 4 x ++ q) (4 * Z.of_nat i) 4 = Some (x mod 2 ^ 32)) as Hw.
  { intros p x q Hp. rewrite slice_mid; [|by rewrite Hp|by rewrite length_be_bytes].
    cbn [fmap option_fmap option_map]. by rewrite be_val_be_bytes. }
  destruct i as [|[|[|[|[|[|i]]]]]]; [injection Hi as <-..|done].
  - by apply (Hw []).
  - by apply (Hw (be_bytes 4 xid)).
  - rewrite (app_assoc _ (be_bytes 4 0)). by apply Hw.
  - rewrite (app_assoc _ (be_bytes 4 0)), (app_assoc _ (be_bytes 4 2)). by apply Hw.
  - rewrite (app_assoc _ (be_bytes 4 0)), (app_assoc _ (be_bytes 4 2)), (app_assoc _ (be_bytes 4 NFS_PROGRAM)).
    by apply Hw.
  - rewrite (app_assoc _ (be_bytes 4 0)), (app_assoc _ (be_bytes 4 2)), (app_assoc _ (be_bytes 4 NFS_PROGRAM)),
      (app_assoc _ (be_bytes 4 NFS_V3)). by apply Hw.
Qed.

Lemma classify_call xid proc fc c fv v args :
  0 <= xid < 2 ^ 32 -> 0 <= proc < 2 ^ 31 ->
  zlen c <= MAX_RPC_MSGSIZE - 8 -> zlen v <= MAX_RPC_MSGSIZE - 8 ->
  let msg := call_message xid proc (authenticator fc c) (authenticator fv v) args in
  exists pos, classify msg = Some (Call (RPCRequest.mk xid msg pos proc)) /\ drop (Z.to_nat pos) msg = args.
Proof.
  intros Hx Hp Hc Hv msg.
  assert (Hw := fun i => call_word xid proc (authenticator fc c) (authenticator fv v) args _ i eq_refl).
  fold msg in Hw. set (h := be_bytes 4 xid ++ be_bytes 4 0 ++ be_bytes 4 2 ++ be_bytes 4 NFS_PROGRAM
    ++ be_bytes 4 NFS_V3 ++ be_bytes 4 proc).
  assert (Hm : msg = h ++ authenticator fc c ++ authenticator fv v ++ args) by done.
  assert (Hh : zlen h = 24) by done.
  exists (zlen ((h ++ authenticator fc c) ++ authenticator fv v)). split.
  - unfold classify. rewrite (proj2 (Z.ltb_ge _ _)) by (rewrite Hm, length_app; lia).
    rewrite (Hw 0%nat xid eq_refl : word msg 0 = _). cbn [mbind option_bind].
    rewrite (Hw 1%nat 0 eq_refl : word msg 1 = _). cbn [mbind option_bind negb Z.eqb].
    rewrite (Hw 2%nat 2 eq_refl : word msg 2 = _). cbn [mbind option_bind].
    rewrite (Hw 3%nat NFS_PROGRAM eq_refl : word msg 3 = _). cbn [mbind option_bind].
    rewrite (Hw 4%nat NFS_V3 eq_refl : word msg 4 = _). cbn [mbind option_bind].
    rewrite (Hw 5%nat proc eq_refl : word msg 5 = _). cbn [mbind option_bind].
    change (negb (0 mod 2 ^ 32 =? 0)) with false. change (negb (2 mod 2 ^ 32 =? 2)) with false.
    change (negb (NFS_PROGRAM mod 2 ^ 32 =? NFS_PROGRAM)) with false.
    change (negb (NFS_V3 mod 2 ^ 32 =? NFS_V3)) with false. cbv iota.
    rewrite <- Hh at 1. rewrite Hm at 1. rewrite skip_auth_one, skip_auth_one by done.
    unfold skip_auth. rewrite (proj2 (Z.ltb_ge _ _)) by (rewrite (length_app _ args); lia).
    cbn [mbind option_bind]. rewrite !Z.mod_small, s32_id by lia. done.
  - rewrite Nat2Z.id, Hm, !app_assoc. apply drop_app_length.
Qed.

Lemma last_fragment_ok n : 0 <= n < 2 ^ 31 -> last_fragment n = be_bytes 4 (n + 2 ^ 31).
Proof.
  intros Hn. unfold last_fragment. f_equal. change 2147483648 with (2 ^ 31).
  rewrite <- Z.lxor_lor, Z.add_nocarry_lxor; [done| |];
    (apply Z.bits_inj'; intros i Hi; rewrite Z.land_spec, Z.bits_0, Z.pow2_bits_eqb by lia;
     destruct (31 =? i) eqn:E; [|by rewrite andb_false_r]; apply Z.eqb_eq in E as <-;
     rewrite Z.testbit_eqb, Z.div_small by lia; done).
Qed.

Lemma proc_of_range n p : nfs_proc_of n = Some p -> 0 <= n < 2 ^ 31.
Proof.
  unfold nfs_proc_of. destruct (n <? 0) eqn:E; [done|]. intros H. apply lookup_lt_Some in H.
  assert (length nfs_procs = 22)%nat as Hl by done. rewrite Hl in H. lia.
Qed.

Lemma write_loop_all b : write_loop [] b = (b, []).
Proof. by destruct b. Qed.

(** A message written to a socket that takes everything is one last fragment. *)
Lemma send_message_ok rpc header body :
  RPCConnection.udp_transport rpc = false -> RPCConnection.answers rpc = [] ->
  zlen header + zlen body < 2 ^ 31 ->
  RPCConnection.channel (send_message rpc header body)
  = RPCConnection.channel rpc ++ stream [(true, header ++ body)].
Proof.
  destruct rpc as [m fl fh u sb ch an]. cbn [RPCConnection.udp_transport RPCConnection.answers].
  intros -> -> Hsz. unfold send_message, async_rpc_write, async_rpc_flush.
  repeat (cbn -[stream last_fragment write_loop Z.add]; rewrite write_loop_all).
  cbn -[stream last_fragment Z.add]. cbn [stream]. unfold fragment_header. cbn [fst snd]. rewrite length_app, Nat2Z.inj_add, last_fragment_ok by lia.
  by rewrite app_nil_r, <- !app_assoc.
Qed.

(** A call of a client becomes one request. *)
Lemma dispatch_call (s : Server) n p xid fc fv c v args (a : argument p) :
  nfs_proc_of n = Some p -> 0 <= xid < 2 ^ 32 ->
  zlen c <= MAX_RPC_MSGSIZE - 8 -> zlen v <= MAX_RPC_MSGSIZE - 8 ->
  xdr_ok (xdr_argument p) a = true -> xdr_enc (xdr_argument p) a = Some args ->
  RPCConnection.msgbuf (connection s) = call_message xid n (authenticator fc c) (authenticator fv v) args ->
  exists s' req, async_rpc_dispatch s = Some (s', true) /\ rpc_thread_pool s' = rpc_thread_pool s ++ [req] /\
    RPCRequest.xid req = xid /\ nfs_program_3 req = inr (existT p a) /\
    connection s' = (connection s) <| RPCConnection.msgbuf := [] |> /\
    outstanding_rpcs s' = outstanding_rpcs s + 1.
Proof.
  intros Hn Hx Hc Hv Ha He Hm.
  destruct (classify_call xid n fc c fv v args) as (pos & Hcl & Hd); [done|by eapply proc_of_range|done..|].
  eexists _, _. unfold async_rpc_dispatch. rewrite Hm, Hcl. split; [done|]. split; [done|]. split; [done|].
  split; [|split; [done|simpl; lia]].
  unfold nfs_program_3. cbn [RPCRequest.req_proc RPCRequest.raw_args RPCRequest.raw_args_header_bytes].
  rewrite Hn, Hd. rewrite <- (app_nil_r args). by rewrite (xdr_inverse a args [] Ha He).
Qed.

(** Its answer becomes one message. *)
Lemma send_reply_ok (s : Server) p xid req (res : result p) b :
  RPCRequest.xid req = xid ->
  RPCConnection.udp_transport (connection s) = false -> RPCConnection.answers (connection s) = [] ->
  xdr_enc (xdr_result p) res = Some b -> zlen b < 2 ^ 30 ->
  RPCConnection.channel (connection (async_rpc_send_reply s req p res))
    = RPCConnection.channel (connection s) ++ stream [(true, reply_header xid 0 ++ b)] /\
  outstanding_rpcs (async_rpc_send_reply s req p res) = outstanding_rpcs s - 1.
Proof.
  intros <- Hu Hans Hb Hsz. unfold async_rpc_send_reply. rewrite Hb. split; [|simpl; lia].
  apply send_message_ok; [done|done|]. change (zlen (reply_header _ 0)) with 24. lia.
Qed.

(** C29: A call reaches its procedure and the answer reaches the client.  When
    the buffer holds the message of a client that calls a procedure of the
    protocol with an argument in range, exactly one request is handed to the
    threads; it carries the identifier of the call, and decoding it gives the
    procedure and the very argument that was sent.  The answer with a result in
    range goes to the stream as one message, the accepted-reply header with the
    identifier followed by bytes that decode to the result, and the call is no
    longer counted. *)
Theorem rpc_call_roundtrip (s : Server) (n : Z) (p : nfs_proc) (xid fc fv : Z) (c v args : bytes)
    (a : argument p)
    (Hn : nfs_proc_of n = Some p) (Hx : 0 <= xid < 2 ^ 32)
    (Hc : zlen c <= MAX_RPC_MSGSIZE - 8) (Hv : zlen v <= MAX_RPC_MSGSIZE - 8)
    (Ha : xdr_ok (xdr_argument p) a = true) (He : xdr_enc (xdr_argument p) a = Some args)
    (Hm : RPCConnection.msgbuf (connection s) = call_message xid n (authenticator fc c) (authenticator fv v) args) :
  exists s' req, async_rpc_dispatch s = Some (s', true) /\ rpc_thread_pool s' = rpc_thread_pool s ++ [req] /\
    RPCRequest.xid req = xid /\ nfs_program_3 req = inr (existT p a) /\
    forall (s2 : Server) (res : result p),
      RPCConnection.udp_transport (connection s2) = false -> RPCConnection.answers (connection s2) = [] ->
      xdr_ok (xdr_result p) res = true ->
      exists b, xdr_enc (xdr_result p) res = Some b /\ xdr_dec (xdr_result p) b = Some (res, []) /\
        (zlen b < 2 ^ 30 ->
         RPCConnection.channel (connection (async_rpc_send_reply s2 req p res))
         = RPCConnection.channel (connection s2) ++ stream [(true, reply_header xid 0 ++ b)] /\
         outstanding_rpcs (async_rpc_send_reply s2 req p res) = outstanding_rpcs s2 - 1).
Proof.
  destruct (dispatch_call s n p xid fc fv c v args a) as (s' & req & Hd & Hp & Hxid & Hreq & _); [done..|].
  exists s', req. split; [done|]. split; [done|]. split; [done|]. split; [done|].
  intros s2 res Hu Hans Hr. destruct (xdr_total res Hr) as [b Hb]. exists b. split; [done|]. split.
  - rewrite <- (app_nil_r b). by apply xdr_inverse.
  - by apply send_reply_ok.
Qed.

Lemma rpc_call_roundtrip_witness :
  exists s' req, async_rpc_dispatch
      (mkServer (RPCConnection.mk (call_message 77 1 (authenticator 1 [0; 0; 0; 0]) (authenticator 0 [])
                                     [0; 0; 0; 8; 0; 0; 0; 0; 0; 0; 0; 1]) 0 0 false [] [] []) 0 [])
    = Some (s', true) /\ nfs_program_3 req = inr (existT NFSPROC3_GETATTR [0; 0; 0; 0; 0; 0; 0; 1]).
Proof.
  destruct (rpc_call_roundtrip
      (mkServer (RPCConnection.mk (call_message 77 1 (authenticator 1 [0; 0; 0; 0]) (authenticator 0 [])
                                     [0; 0; 0; 8; 0; 0; 0; 0; 0; 0; 0; 1]) 0 0 false [] [] []) 0 [])
      1 NFSPROC3_GETATTR 77 1 0 [0; 0; 0; 0] [] [0; 0; 0; 8; 0; 0; 0; 0; 0; 0; 0; 1] [0; 0; 0; 0; 0; 0; 0; 1])
    as (s' & req & H1 & _ & _ & H2 & _); try reflexivity; [lia|vm_compute; congruence..|].
  by exists s', req.
Defined.

(** A read that returns nothing for the moment leaves the buffer longer: the bytes
    of the next read come after the gap, and the message is not the one sent. *)
Example read_again_leaves_gap :
  let rpc := (async_rpc_do_accept []) <| RPCConnection.frag_len := 0x80000002 |> in
  let grown n := replicate (Z.to_nat n) 0 in
  exists rpc1 rpc2, rpc_read rpc grown G_IO_STATUS_AGAIN = ReadMore rpc1 /\
    rpc_read rpc1 grown (G_IO_STATUS_NORMAL [7; 8]) = ReadMessage rpc2 /\
    RPCConnection.msgbuf rpc2 = [0; 0; 7; 8].
Proof. by do 2 eexists. Qed.

(** A message that ends in an empty fragment is dispatched only by a further read,
    which takes place when more input has come. *)
Example empty_last_fragment_waits :
  let rpc := (async_rpc_do_accept []) <| RPCConnection.msgbuf := [7] |> in
  exists rpc', rpc_read rpc (fun _ => []) (G_IO_STATUS_NORMAL [128; 0; 0; 0]) = ReadMore rpc' /\
    bytes_to_read rpc' = 0 /\ rpc_read rpc' (fun _ => []) (G_IO_STATUS_NORMAL []) = ReadMessage rpc'.
Proof. eexists. split; [vm_compute; reflexivity|done]. Qed.

(** When a write fails in the middle of a reply the rest of the reply is still
    written, without the part that was lost. *)
Example failed_write_leaves_rest :
  RPCConnection.channel (send_message (async_rpc_do_accept [NotWritten]) [1; 2] [3]) = [1; 2; 3].
Proof. done. Qed.
