(* ===== verification/Nfs.v ===== *)
(** * The procedures of NFS (src/nfs3/nfs3.c)

    What each procedure of the protocol does with the file system and what it
    answers.  References to inodes taken by a procedure are dropped when the answer
    has been sent.  The lock of an inode protects it against other requests; a
    procedure that takes a lock it already holds is [Blocked]. *)

From S2P Require Import Prelude Crc32c Glib Rangeset State Strings Ownership CloudLog Lru Inodes Fetch File Dir Imap Serialize Journal Crypto CacheFiles LogThread InodeSync Cache Xdr NfsTypes Rpc.
From Stdlib Require Import ZArith Lia.
From stdpp Require Import base numbers gmap option list.

Open Scope Z_scope.

Definition NFS_BLOCKSIZE : Z := 32768.
Definition NFS_MAXSIZE : Z := 2 ^ 20.
Definition MAX_READDIR_DIRENTS : nat := 64.
Definition FSF3_LINK : Z := 0x0001.
Definition FSF3_SYMLINK : Z := 0x0002.
Definition FSF3_HOMOGENEOUS : Z := 0x0008.
Definition FSF3_CANSETTIME : Z := 0x0010.

(** ** Encoding of attributes *)

Definition encode_time (t : Z) : nfstime3.t :=
  nfstime3.mk (u32 (Z.quot t 1000000)) (u32 (Z.rem t 1000000 * 1000)).

Definition decode_nfstime3 (time : nfstime3.t) : Z :=
  s64 (nfstime3.seconds time * 1000000 + nfstime3.nseconds time / 1000).

Definition encode_fattr3 (inode : ptr) : M State fattr3.t :=
  i ← load inodes (Some inode);
  size ← (if Inode.type i =? BLUESKY_SYMLINK
          then c ← assume NullPointer (Inode.symlink_contents i); mret (zlen c)
          else mret (Inode.size i));
  mret (fattr3.mk (Inode.type i) (Inode.mode i) (Inode.nlink i) (Inode.uid i) (Inode.gid i) size
          0 (specdata3.mk 0 0) 0 (Inode.inum i)
          (encode_time (Inode.atime i)) (encode_time (Inode.mtime i)) (encode_time (Inode.ctime i))).

Definition encode_pre_wcc (inode : ptr) : M State wcc_attr.t :=
  i ← load inodes (Some inode);
  mret (wcc_attr.mk (Inode.size i) (encode_time (Inode.mtime i)) (encode_time (Inode.ctime i))).

Definition no_wcc : wcc_data.t := wcc_data.mk None None.

(** The handle of a file: its number in network order. *)
Definition handle (inum : Z) : bytes := be_bytes 8 inum.

(** The end of a procedure: the answer is sent, then the references that were
    scheduled are dropped, the last one first. *)
Definition reply {A} (cleanup : list ptr) (result : A) : M State A :=
  for_each cleanup (fun inode => bluesky_inode_unref (Some inode));;
  mret result.

(** The lock of another inode is taken while that of [held] is held. *)
Definition lock_also (held inode : ptr) : M State unit := check Blocked (negb (bool_decide (held = inode))).

Section nfs.
Context `{GSequenceLib} `{Env} `{Gcrypt} `{DiskUsage} `{Fetch}.
Context (keys : CryptKeys.t).
(** [g_utf8_validate], and the cookie chosen when the server starts. *)
Context (g_utf8_validate : bytes -> bool) (nfsd_instance_verf_cookie : bytes).
(** Tries for an unused directory cookie and turns of the daemon under pressure. *)
Context (fuel : nat).

Definition validate_filename (filename : bytes) : bool :=
  if zlen filename =? 0 then false else
  if 255 <? zlen filename then false else
  if negb (g_utf8_validate filename) then false else
  negb (bool_decide (47 ∈ filename)).

(** The test for names of new and removed entries. *)
Definition valid_entry_name (name : bytes) : bool :=
  validate_filename name && negb (bool_decide (name = [46])) && negb (bool_decide (name = [46; 46])).

Definition lookup_fh (fh : bytes) : M State (option ptr) :=
  if zlen fh =? 8 then bluesky_get_inode (be_val fh) else mret None.

Definition set_time (how : Z * option nfstime3.t) (now old : Z) : Z :=
  if how.1 =? SET_TO_SERVER_TIME then now
  else if how.1 =? SET_TO_CLIENT_TIME then
    match how.2 with Some t => decode_nfstime3 t | None => old end
  else old.

Definition set_attributes (inode : ptr) (attributes : sattr3.t) : M State unit :=
  now ← bluesky_get_current_time;
  upd inodes (Some inode) (fun i => i
    <| Inode.mode ::= fun old => default old (sattr3.mode attributes) |>
    <| Inode.uid ::= fun old => default old (sattr3.uid attributes) |>
    <| Inode.gid ::= fun old => default old (sattr3.gid attributes) |>);;
  match sattr3.size attributes with
  | Some size =>
    i ← load inodes (Some inode);
    when (Inode.type i =? BLUESKY_REGULAR)
      (bluesky_file_truncate (Some inode) size;;
       upd inodes (Some inode) (fun i => i <| Inode.mtime := now |>))
  | None => mret tt
  end;;
  upd inodes (Some inode) (fun i => i
    <| Inode.atime ::= set_time (sattr3.atime attributes) now |>
    <| Inode.mtime ::= set_time (sattr3.mtime attributes) now |>);;
  bluesky_inode_update_ctime (Some inode) false.

(** ** Attributes and names *)

Definition nfsproc3_null (_ : unit) : M State unit := mret tt.

Definition nfsproc3_getattr (argp : bytes) : M State (nfsres fattr3.t unit) :=
  o ← lookup_fh argp;
  match o with
  | Some inode => a ← encode_fattr3 inode; reply [inode] (ResOk a)
  | None => reply [] (ResFail NFS3ERR_STALE tt)
  end.

Definition nfsproc3_setattr (argp : setattr3args.t) : M State (Z * option wcc_data.t) :=
  o ← lookup_fh (setattr3args.object argp);
  match o with
  | None => reply [] (NFS3ERR_STALE, Some no_wcc)
  | Some inode =>
    pre ← encode_pre_wcc inode;
    i ← load inodes (Some inode);
    if match setattr3args.guard argp with
       | Some t => negb (Inode.ctime i =? decode_nfstime3 t)
       | None => false
       end
    then
      a ← encode_fattr3 inode;
      reply [inode] (NFS3ERR_NOT_SYNC, Some (wcc_data.mk (Some pre) (Some a)))
    else
      set_attributes inode (setattr3args.new_attributes argp);;
      a ← encode_fattr3 inode;
      bluesky_inode_do_sync keys inode;;
      reply [inode] (NFS3_OK, Some (wcc_data.mk (Some pre) (Some a)))
  end.

Definition nfsproc3_lookup (argp : diropargs3.t) : M State (nfsres lookup3resok.t (option fattr3.t)) :=
  o ← lookup_fh (diropargs3.dir argp);
  match o with
  | None => reply [] (ResFail NFS3ERR_STALE None)
  | Some dir =>
    dir_attr ← encode_fattr3 dir;
    if negb (validate_filename (diropargs3.name argp)) then
      reply [dir] (ResFail (if 255 <? zlen (diropargs3.name argp) then NFS3ERR_NAMETOOLONG else NFS3ERR_NOENT)
                     (Some dir_attr))
    else
      inum ← bluesky_directory_lookup (Some dir) (diropargs3.name argp);
      if inum =? 0 then reply [dir] (ResFail NFS3ERR_NOENT (Some dir_attr)) else
      dir_attr ← encode_fattr3 dir;
      o ← bluesky_get_inode inum;
      match o with
      | None => reply [dir] (ResFail NFS3ERR_NOENT (Some dir_attr))
      | Some inode =>
        obj_attr ← encode_fattr3 inode;
        reply [inode; dir] (ResOk (lookup3resok.mk (handle inum) (Some obj_attr) (Some dir_attr)))
      end
  end.

Definition nfsproc3_access (argp : access3args.t) : M State (nfsres access3resok.t (option fattr3.t)) :=
  o ← lookup_fh (access3args.object argp);
  match o with
  | None => reply [] (ResFail NFS3ERR_STALE None)
  | Some inode =>
    a ← encode_fattr3 inode;
    reply [inode] (ResOk (access3resok.mk (Some a) (access3args.access argp)))
  end.

Definition nfsproc3_readlink (argp : bytes) : M State (nfsres readlink3resok.t (option fattr3.t)) :=
  o ← lookup_fh argp;
  match o with
  | None => reply [] (ResFail NFS3ERR_STALE None)
  | Some inode =>
    i ← load inodes (Some inode);
    a ← encode_fattr3 inode;
    if Inode.type i =? BLUESKY_SYMLINK then
      c ← assume NullPointer (Inode.symlink_contents i);
      reply [inode] (ResOk (readlink3resok.mk (Some a) c))
    else reply [inode] (ResFail NFS3ERR_INVAL (Some a))
  end.

(** ** Data *)

(** The number of bytes to read, an [int]: the second minimum is that of unsigned
    numbers of 64 bits. *)
Definition read_count (count size offset : Z) : Z :=
  let count := Z.min (s32 count) NFS_MAXSIZE in
  if u64 count <? size - offset then count else s32 (size - offset).

Definition nfsproc3_read (argp : read3args.t) : M State (nfsres read3resok.t (option fattr3.t)) :=
  bluesky_flushd_invoke_conditional keys fuel;;
  o ← lookup_fh (read3args.file argp);
  match o with
  | None => reply [] (ResFail NFS3ERR_STALE None)
  | Some inode =>
    i ← load inodes (Some inode);
    let offset := read3args.offset argp in
    '(count, eof, data) ←
      (if Inode.size i <=? offset then mret (0, true, [])
       else
         let count := read_count (read3args.count argp) (Inode.size i) offset in
         let eof := u64 (offset + count) =? Inode.size i in
         buf ← bluesky_file_read (Some inode) offset count;
         (* the buffer on the stack has [NFS_MAXSIZE] bytes *)
         check OutOfBounds (u32 count <=? NFS_MAXSIZE);;
         mret (u32 count, eof, default (uninitialized (Z.to_nat (u32 count))) buf));
    a ← encode_fattr3 inode;
    reply [inode] (ResOk (read3resok.mk (Some a) count eof data))
  end.

Definition nfsproc3_write (argp : write3args.t) : M State (nfsres write3resok.t wcc_data.t) :=
  bluesky_flushd_invoke_conditional keys fuel;;
  o ← lookup_fh (write3args.file argp);
  match o with
  | None => reply [] (ResFail NFS3ERR_STALE no_wcc)
  | Some inode =>
    pre ← encode_pre_wcc inode;
    i ← load inodes (Some inode);
    if negb (Inode.type i =? BLUESKY_REGULAR) then
      reply [inode] (ResFail NFS3ERR_INVAL (wcc_data.mk (Some pre) None))
    else
      let count := write3args.count argp in
      let lastbyte := u64 (write3args.offset argp + count) in
      when (Inode.size i <? lastbyte) (bluesky_file_truncate (Some inode) lastbyte);;
      when (count <=? zlen (write3args.data argp))
        (bluesky_file_write (Some inode) (write3args.offset argp) (take (Z.to_nat count) (write3args.data argp)));;
      a ← encode_fattr3 inode;
      let stable := negb (write3args.stable argp =? UNSTABLE) in
      when stable (bluesky_inode_do_sync keys inode);;
      reply [inode] (ResOk (write3resok.mk (wcc_data.mk (Some pre) (Some a)) count
                              (if stable then FILE_SYNC else UNSTABLE) nfsd_instance_verf_cookie))
  end.

(** ** New entries *)

(** The common body of the three procedures that make an inode: [init] is done
    before the inode is known to the file system and [attributes] after it has been
    entered in the directory. *)
Definition make_node (where_ : diropargs3.t) (type : Z) (init attributes : ptr -> M State unit)
    : M State (nfsres diropres3ok.t wcc_data.t) :=
  o ← lookup_fh (diropargs3.dir where_);
  match o with
  | None => reply [] (ResFail NFS3ERR_STALE no_wcc)
  | Some dir =>
    pre ← encode_pre_wcc dir;
    d ← load inodes (Some dir);
    if negb (Inode.type d =? BLUESKY_DIRECTORY) then
      reply [dir] (ResFail NFS3ERR_NOTDIR (wcc_data.mk (Some pre) None))
    else if negb (valid_entry_name (diropargs3.name where_)) then
      reply [dir] (ResFail NFS3ERR_EXIST (wcc_data.mk (Some pre) None))
    else
      inum ← bluesky_fs_alloc_inode;
      file ← bluesky_new_inode inum type;
      time ← bluesky_get_current_time;
      upd inodes (Some file) (fun i => i
        <| Inode.nlink := 1 |> <| Inode.mode := 0x1ed |> <| Inode.mtime := time |>
        <| Inode.ctime := time |> <| Inode.atime := time |> <| Inode.ntime := time |>);;
      init file;;
      bluesky_insert_inode (Some file);;
      bluesky_directory_insert fuel (Some dir) (diropargs3.name where_) inum;;
      attributes file;;
      bluesky_inode_update_ctime (Some dir) true;;
      bluesky_inode_update_ctime (Some file) false;;
      dir_attr ← encode_fattr3 dir;
      file_attr ← encode_fattr3 file;
      bluesky_inode_do_sync keys file;;
      bluesky_inode_do_sync keys dir;;
      reply [dir] (ResOk (diropres3ok.mk (Some (handle inum)) (Some file_attr)
                            (wcc_data.mk (Some pre) (Some dir_attr))))
  end.

Definition nfsproc3_create (argp : create3args.t) : M State (nfsres diropres3ok.t wcc_data.t) :=
  make_node (create3args.where_ argp) BLUESKY_REGULAR (fun _ => mret tt) (fun _ => mret tt).

Definition nfsproc3_mkdir (argp : mkdir3args.t) : M State (nfsres diropres3ok.t wcc_data.t) :=
  make_node (mkdir3args.where_ argp) BLUESKY_DIRECTORY (fun _ => mret tt)
    (fun file => set_attributes file (mkdir3args.attributes argp)).

Definition nfsproc3_symlink (argp : symlink3args.t) : M State (nfsres diropres3ok.t wcc_data.t) :=
  make_node (symlink3args.where_ argp) BLUESKY_SYMLINK
    (fun file => upd inodes (Some file) (fun i =>
       i <| Inode.symlink_contents := Some (symlinkdata3.symlink_data (symlink3args.symlink argp)) |>))
    (fun _ => mret tt).

Definition nfsproc3_mknod (argp : mknod3args.t) : M State (nfsres diropres3ok.t wcc_data.t) :=
  reply [] (ResFail NFS3ERR_NOTSUPP no_wcc).

(** ** Removing, renaming and linking *)

Definition nfsproc3_remove (argp : diropargs3.t) : M State (Z * option wcc_data.t) :=
  o ← lookup_fh (diropargs3.dir argp);
  match o with
  | None => reply [] (NFS3ERR_STALE, Some no_wcc)
  | Some dir =>
    pre ← encode_pre_wcc dir;
    if negb (valid_entry_name (diropargs3.name argp)) then
      reply [dir] (NFS3ERR_NOENT, Some (wcc_data.mk (Some pre) None))
    else
      bluesky_directory_remove (Some dir) (diropargs3.name argp);;
      a ← encode_fattr3 dir;
      bluesky_inode_do_sync keys dir;;
      reply [dir] (NFS3_OK, Some (wcc_data.mk (Some pre) (Some a)))
  end.

Definition nfsproc3_rmdir (argp : diropargs3.t) : M State (Z * option wcc_data.t) :=
  o ← lookup_fh (diropargs3.dir argp);
  match o with
  | None => reply [] (NFS3ERR_STALE, Some no_wcc)
  | Some dir =>
    pre ← encode_pre_wcc dir;
    let failed := Some (wcc_data.mk (Some pre) None) in
    if negb (valid_entry_name (diropargs3.name argp)) then reply [dir] (NFS3ERR_NOENT, failed) else
    inum ← bluesky_directory_lookup (Some dir) (diropargs3.name argp);
    o ← bluesky_get_inode inum;
    match o with
    | None => reply [dir] (NFS3ERR_NOENT, failed)
    | Some inode =>
      lock_also dir inode;;
      i ← load inodes (Some inode);
      if negb (Inode.type i =? BLUESKY_DIRECTORY) then reply [inode; dir] (NFS3ERR_NOTDIR, failed) else
      dirents ← dir_entries i;
      if 0 <? zlen dirents then reply [inode; dir] (NFS3ERR_NOTEMPTY, failed) else
      bluesky_directory_remove (Some dir) (diropargs3.name argp);;
      a ← encode_fattr3 dir;
      bluesky_inode_do_sync keys dir;;
      bluesky_inode_do_sync keys inode;;
      reply [inode; dir] (NFS3_OK, Some (wcc_data.mk (Some pre) (Some a)))
    end
  end.

(** Both answers hold what the first directory was before. *)
Definition nfsproc3_rename (argp : rename3args.t) : M State (Z * option rename3wcc.t) :=
  let stale := (NFS3ERR_STALE, Some (rename3wcc.mk no_wcc no_wcc)) in
  o1 ← lookup_fh (diropargs3.dir (rename3args.from argp));
  match o1 with
  | None => reply [] stale
  | Some dir1 =>
    o2 ← lookup_fh (diropargs3.dir (rename3args.to argp));
    match o2 with
    | None => reply [dir1] stale
    | Some dir2 =>
      pre1 ← encode_pre_wcc dir1;
      pre2 ← encode_pre_wcc dir1;
      status ← bluesky_rename fuel (Some dir1) (diropargs3.name (rename3args.from argp))
                 (Some dir2) (diropargs3.name (rename3args.to argp)) true true;
      a1 ← encode_fattr3 dir1;
      a2 ← encode_fattr3 dir2;
      bluesky_inode_do_sync keys dir2;;
      bluesky_inode_do_sync keys dir1;;
      reply [dir2; dir1] (if (status : bool) then NFS3_OK else NFS3ERR_PERM,
        Some (rename3wcc.mk (wcc_data.mk (Some pre1) (Some a1)) (wcc_data.mk (Some pre2) (Some a2))))
    end
  end.

Definition nfsproc3_link (argp : link3args.t) : M State (Z * option link3wcc.t) :=
  let failed status pre := (status, Some (link3wcc.mk None (wcc_data.mk pre None))) in
  let name := diropargs3.name (link3args.link argp) in
  o ← lookup_fh (link3args.file argp);
  match o with
  | None => reply [] (failed NFS3ERR_STALE None)
  | Some inode =>
    o ← lookup_fh (diropargs3.dir (link3args.link argp));
    match o with
    | None => reply [inode] (failed NFS3ERR_STALE None)
    | Some dir =>
      lock_also inode dir;;
      pre ← encode_pre_wcc dir;
      d ← load inodes (Some dir);
      if negb (Inode.type d =? BLUESKY_DIRECTORY) then reply [dir; inode] (failed NFS3ERR_NOTDIR (Some pre)) else
      old ← (if valid_entry_name name then bluesky_directory_lookup (Some dir) name else mret 0);
      if negb (valid_entry_name name) || negb (old =? 0) then
        reply [dir; inode] (failed NFS3ERR_EXIST (Some pre))
      else
        i ← load inodes (Some inode);
        inserted ← bluesky_directory_insert fuel (Some dir) name (Inode.inum i);
        if negb (inserted : bool) then reply [dir; inode] (failed NFS3ERR_EXIST (Some pre)) else
        upd inodes (Some inode) (fun i => i <| Inode.nlink ::= fun n => u32 (n + 1) |>);;
        bluesky_inode_update_ctime (Some inode) false;;
        bluesky_inode_update_ctime (Some dir) true;;
        dir_attr ← encode_fattr3 dir;
        file_attr ← encode_fattr3 inode;
        bluesky_inode_do_sync keys inode;;
        bluesky_inode_do_sync keys dir;;
        reply [dir; inode] (NFS3_OK, Some (link3wcc.mk (Some file_attr) (wcc_data.mk (Some pre) (Some dir_attr))))
    end
  end.

(** ** Listing *)

(** Up to [n] entries from position [i], and the position after them. *)
Fixpoint readdir_loop (n : nat) (dirents : list Dirent.t) (i : nat) : list entry3.t * nat :=
  match n with
  | O => ([], i)
  | S n =>
    match dirents !! i with
    | None => ([], i)
    | Some d =>
      let '(l, j) := readdir_loop n dirents (g_sequence_iter_next dirents i) in
      (entry3.mk (Dirent.inum d) (Dirent.name d) (Dirent.cookie d) :: l, j)
    end
  end.

(** The position after the entry with the cookie of the request, of which 32 bits
    are used. *)
Definition readdir_start (cookie : Z) (dirents : list Dirent.t) : nat :=
  dirent_search (Dirent.mk [] [] (u32 cookie) 0) dirents.

Definition nfsproc3_readdir (argp : readdir3args.t) : M State (nfsres readdir3resok.t (option fattr3.t)) :=
  o ← lookup_fh (readdir3args.dir argp);
  match o with
  | None => reply [] (ResFail NFS3ERR_STALE None)
  | Some dir =>
    a ← encode_fattr3 dir;
    d ← load inodes (Some dir);
    dirents ← dir_entries d;
    let '(entries, i) := readdir_loop MAX_READDIR_DIRENTS dirents (readdir_start (readdir3args.cookie argp) dirents) in
    reply [dir] (ResOk (readdir3resok.mk (Some a) (replicate 8 0)
                          (dirlist3.mk entries (g_sequence_iter_is_end dirents i))))
  end.

(** The sizes of the encoding. *)
Definition base_size : Z := 88 + 16.
Definition entry_size (d : Dirent.t) : Z := 24 + Z.land (zlen (Dirent.name d) + 3) (Z.lnot 3).
Definition attr_size : Z := 88 + 8 + 8.

(** The first pass starts fetching inodes; it ends at the end of the directory or
    when the sizes are used up. *)
Fixpoint prefetch_loop (rest : list Dirent.t) (dirlimit maxlimit dircount attrcount : Z) : M State unit :=
  match rest with
  | [] => mret tt
  | d :: rest =>
    when ((dircount <=? dirlimit) && (dircount + attrcount <=? maxlimit))
      (bluesky_inode_prefetch (Dirent.inum d);;
       prefetch_loop rest dirlimit maxlimit (dircount + entry_size d) (attrcount + attr_size))
  end.

(** The second pass; [n] entries may be added. *)
Fixpoint readdirplus_loop (dir : ptr) (n : nat) (dirents : list Dirent.t) (i : nat) (rest : list Dirent.t)
    (dirlimit maxlimit dircount attrcount : Z) : M State (list entryplus3.t * nat) :=
  match n, rest with
  | S n', d :: rest =>
    o ← bluesky_get_inode (Dirent.inum d);
    match o with
    | None =>
      readdirplus_loop dir n dirents (g_sequence_iter_next dirents i) rest dirlimit maxlimit dircount attrcount
    | Some inode =>
      lock_also dir inode;;
      let dircount := dircount + entry_size d in
      let attrcount := attrcount + attr_size in
      if (dirlimit <? dircount) || (maxlimit <? dircount + attrcount) then
        bluesky_inode_unref (Some inode);;
        mret ([], i)
      else
        a ← encode_fattr3 inode;
        bluesky_inode_unref (Some inode);;
        r ← readdirplus_loop dir n' dirents (g_sequence_iter_next dirents i) rest dirlimit maxlimit dircount attrcount;
        mret (entryplus3.mk (Dirent.inum d) (Dirent.name d) (Dirent.cookie d) (Some a) (Some (handle (Dirent.inum d)))
                :: r.1, r.2)
    end
  | _, _ => mret ([], i)
  end.

Definition nfsproc3_readdirplus (argp : readdirplus3args.t)
    : M State (nfsres readdirplus3resok.t (option fattr3.t)) :=
  o ← lookup_fh (readdirplus3args.dir argp);
  match o with
  | None => reply [] (ResFail NFS3ERR_STALE None)
  | Some dir =>
    a ← encode_fattr3 dir;
    d ← load inodes (Some dir);
    dirents ← dir_entries d;
    let i := readdir_start (readdirplus3args.cookie argp) dirents in
    prefetch_loop (drop i dirents) (readdirplus3args.dircount argp) (readdirplus3args.maxcount argp) base_size 0;;
    r ← readdirplus_loop dir MAX_READDIR_DIRENTS dirents i (drop i dirents)
          (readdirplus3args.dircount argp) (readdirplus3args.maxcount argp) base_size 0;
    reply [dir] (ResOk (readdirplus3resok.mk (Some a) (replicate 8 0)
                          (dirlistplus3.mk r.1 (g_sequence_iter_is_end dirents r.2))))
  end.

(** ** The file system *)

Definition nfsproc3_fsstat (argp : bytes) : M State (nfsres fsstat3resok.t (option fattr3.t)) :=
  o ← lookup_fh argp;
  match o with
  | None => reply [] (ResFail NFS3ERR_STALE None)
  | Some inode =>
    a ← encode_fattr3 inode;
    reply [inode] (ResOk (fsstat3resok.mk (Some a) (2 ^ 30) (2 ^ 30) (2 ^ 30) 0 0 0 0))
  end.

(** These two look at the root directory, which is taken to exist. *)
Definition nfsproc3_fsinfo (argp : bytes) : M State (nfsres fsinfo3resok.t (option fattr3.t)) :=
  o ← bluesky_get_inode 1;
  inode ← assume NullPointer o;
  a ← encode_fattr3 inode;
  bluesky_inode_unref (Some inode);;
  reply [] (ResOk (fsinfo3resok.mk (Some a) NFS_MAXSIZE NFS_MAXSIZE NFS_BLOCKSIZE NFS_MAXSIZE NFS_MAXSIZE
    NFS_BLOCKSIZE NFS_BLOCKSIZE 0x7fffffffffffffff (nfstime3.mk 0 1000)
    (Z.lor FSF3_LINK (Z.lor FSF3_SYMLINK (Z.lor FSF3_HOMOGENEOUS FSF3_CANSETTIME))))).

Definition nfsproc3_pathconf (argp : bytes) : M State (nfsres pathconf3resok.t (option fattr3.t)) :=
  o ← bluesky_get_inode 1;
  inode ← assume NullPointer o;
  a ← encode_fattr3 inode;
  bluesky_inode_unref (Some inode);;
  reply [] (ResOk (pathconf3resok.mk (Some a) 0xffffffff 255 true true false true)).

Definition nfsproc3_commit (argp : commit3args.t) : M State (nfsres commit3resok.t wcc_data.t) :=
  o ← lookup_fh (commit3args.file argp);
  match o with
  | None => reply [] (ResFail NFS3ERR_STALE no_wcc)
  | Some inode =>
    pre ← encode_pre_wcc inode;
    bluesky_inode_do_sync keys inode;;
    a ← encode_fattr3 inode;
    reply [inode] (ResOk (commit3resok.mk (wcc_data.mk (Some pre) (Some a)) nfsd_instance_verf_cookie))
  end.

(** ** A request from beginning to end *)

Definition nfs_local (p : nfs_proc) : argument p -> M State (result p) :=
  match p with
  | NFSPROC3_NULL => nfsproc3_null
  | NFSPROC3_GETATTR => nfsproc3_getattr
  | NFSPROC3_SETATTR => nfsproc3_setattr
  | NFSPROC3_LOOKUP => nfsproc3_lookup
  | NFSPROC3_ACCESS => nfsproc3_access
  | NFSPROC3_READLINK => nfsproc3_readlink
  | NFSPROC3_READ => nfsproc3_read
  | NFSPROC3_WRITE => nfsproc3_write
  | NFSPROC3_CREATE => nfsproc3_create
  | NFSPROC3_MKDIR => nfsproc3_mkdir
  | NFSPROC3_SYMLINK => nfsproc3_symlink
  | NFSPROC3_MKNOD => nfsproc3_mknod
  | NFSPROC3_REMOVE => nfsproc3_remove
  | NFSPROC3_RMDIR => nfsproc3_rmdir
  | NFSPROC3_RENAME => nfsproc3_rename
  | NFSPROC3_LINK => nfsproc3_link
  | NFSPROC3_READDIR => nfsproc3_readdir
  | NFSPROC3_READDIRPLUS => nfsproc3_readdirplus
  | NFSPROC3_FSSTAT => nfsproc3_fsstat
  | NFSPROC3_FSINFO => nfsproc3_fsinfo
  | NFSPROC3_PATHCONF => nfsproc3_pathconf
  | NFSPROC3_COMMIT => nfsproc3_commit
  end.

(** What a thread of the pool does with a request. *)
Definition async_rpc_task (srv : Server) (req : RPCRequest.t) : M State Server :=
  match nfs_program_3 req with
  | inl stat => mret (async_rpc_send_failure srv req stat)
  | inr (existT p a) => res ← nfs_local p a; mret (async_rpc_send_reply srv req p res)
  end.
End nfs.
