(* ===== verification/NfsOps.v ===== *)
(** * Correctness of the procedures of NFS

    What clients see: reading and writing act on the contents of files, looking up
    a name and listing a directory act on its entries, and nothing is lost or
    repeated when a listing is made page by page. *)

From S2P Require Import Prelude Crc32c Glib Rangeset State Strings Ownership CloudLog Lru Inodes Fetch File FileOps Dir Imap Serialize Journal Crypto CacheFiles LogThread InodeSync Cache Xdr NfsTypes Rpc Nfs.
From Stdlib Require Import ZArith Lia.
From stdpp Require Import base numbers gmap option list.

Open Scope Z_scope.

(** The steps that need no argument. *)
Ltac wp_steps :=
  repeat lazymatch goal with
  | |- wp (_ ≫= _) _ _ => apply wp_bind
  | |- wp (mret _) _ _ => apply wp_ret
  | |- wp (gets _) _ _ => apply wp_gets
  | |- wp get _ _ => apply (wp_gets (fun s => s))
  | |- wp (modify _) _ _ => apply wp_modify
  end.

(** ** The length of a message *)

(** The filter [x] writes [size a] bytes for [a]. *)
Definition Sized {A} (x : xdrproc A) (size : A -> Z) : Prop :=
  forall a b, xdr_enc x a = Some b -> zlen b = size a.

Lemma sized_u_int : Sized xdr_u_int (fun _ => 4).
Proof. by intros a b [= <-]. Qed.
Lemma sized_int : Sized xdr_int (fun _ => 4).
Proof. by intros a b [= <-]. Qed.
Lemma sized_bool : Sized xdr_bool (fun _ => 4).
Proof. by intros a b [= <-]. Qed.
Lemma sized_u_quad_t : Sized xdr_u_quad_t (fun _ => 8).
Proof. by intros a b [= <-]. Qed.

Lemma zlen_opaque n x b : xdr_enc (xdr_opaque n) x = Some b -> zlen b = zlen x + (- zlen x) mod 4.
Proof.
  intros [= <-]. unfold xdr_string_putbytes. rewrite length_app, length_replicate. unfold padding.
  rewrite Nat2Z.inj_add, Z2Nat.id by (apply Z.mod_pos_bound; lia). done.
Qed.
Lemma sized_opaque n : Sized (xdr_opaque n) (fun x => zlen x + (- zlen x) mod 4).
Proof. intros x b. apply zlen_opaque. Qed.
Lemma sized_bytes max : Sized (xdr_bytes max) (fun x => 4 + (zlen x + (- zlen x) mod 4)).
Proof.
  intros x b. unfold xdr_bytes. cbn [xdr_enc]. destruct (max <? zlen x); [done|].
  destruct (xdr_enc (xdr_opaque (length x)) x) as [e|] eqn:E; [|done]. cbn [mbind option_bind].
  intros Eb. apply (inj Some) in Eb as <-. rewrite length_app, Nat2Z.inj_add. by rewrite (zlen_opaque _ _ _ E).
Qed.
Lemma sized_string max : Sized (xdr_string max) (fun x => 4 + (zlen x + (- zlen x) mod 4)).
Proof. intros x b E. by apply (sized_bytes max). Qed.

Lemma sized_pair {A B} (x : xdrproc A) (y : xdrproc B) f g :
  Sized x f -> Sized y g -> Sized (xdr_pair x y) (fun p => f p.1 + g p.2).
Proof.
  intros Hx Hy p e. cbn [xdr_pair xdr_enc].
  destruct (xdr_enc x p.1) as [a|] eqn:Ea; [|done]. destruct (xdr_enc y p.2) as [b|] eqn:Eb; [|done].
  cbn [mbind option_bind]. intros Ee. apply (inj Some) in Ee as <-.
  rewrite length_app, Nat2Z.inj_add. by rewrite (Hx _ _ Ea), (Hy _ _ Eb).
Qed.
Lemma sized_map {A B} (f : A -> B) g (x : xdrproc A) h :
  Sized x h -> Sized (xdr_map f g x) (fun b => h (g b)).
Proof. intros Hx a b E. by apply Hx. Qed.
Lemma sized_optional {A} (x : xdrproc A) f :
  Sized x f -> Sized (xdr_optional x) (fun o => 4 + from_option f 0 o).
Proof.
  intros Hx [a|] e; cbn [xdr_optional xdr_enc].
  - destruct (xdr_enc x a) as [b|] eqn:E; [|done]. intros [= <-]. simpl.
    rewrite <- (Hx _ _ E). lia.
  - intros [= <-]. done.
Qed.
Lemma sized_res {A B} (x : xdrproc A) (y : xdrproc B) f g :
  Sized x f -> Sized y g ->
  Sized (xdr_res x y) (fun r => 4 + match r with ResOk a => f a | ResFail _ b => g b end).
Proof.
  intros Hx Hy [a|st b] e; cbn [xdr_res xdr_enc].
  - destruct (xdr_enc x a) as [c|] eqn:E; [|done]. intros [= <-]. simpl. rewrite <- (Hx _ _ E). lia.
  - destruct (xdr_enc y b) as [c|] eqn:E; [|done]. intros [= <-]. simpl. rewrite <- (Hy _ _ E). lia.
Qed.

Definition size_read3res (r : nfsres read3resok.t (option fattr3.t)) : Z :=
  4 + match r with
      | ResOk ok => 4 + from_option (fun _ => 84) 0 (read3resok.file_attributes ok) + 4 + 4
                    + (4 + (zlen (read3resok.data ok) + (- zlen (read3resok.data ok)) mod 4))
      | ResFail _ o => 4 + from_option (fun _ => 84) 0 o
      end.

(** Finds the size of a filter by its definition. *)
Ltac solve_sized :=
  lazymatch goal with
  | |- Sized xdr_u_int _ => apply sized_u_int
  | |- Sized xdr_int _ => apply sized_int
  | |- Sized xdr_bool _ => apply sized_bool
  | |- Sized xdr_u_quad_t _ => apply sized_u_quad_t
  | |- Sized (xdr_opaque _) _ => apply sized_opaque
  | |- Sized (xdr_bytes _) _ => apply sized_bytes
  | |- Sized (xdr_string _) _ => apply sized_string
  | |- Sized (xdr_pair _ _) _ => eapply sized_pair; solve_sized
  | |- Sized (xdr_map _ _ _) _ => eapply sized_map; solve_sized
  | |- Sized (xdr_optional _) _ => eapply sized_optional; solve_sized
  | |- Sized (xdr_res _ _) _ => eapply sized_res; solve_sized
  | |- Sized ?x _ => unfold x; solve_sized
  end.

Lemma sized_fattr3 : Sized xdr_fattr3 (fun _ => 84).
Proof.
  intros a b E. eassert (Hs : Sized xdr_fattr3 _) by solve_sized. exact (Hs a b E).
Qed.
Lemma sized_read3res : Sized xdr_read3res size_read3res.
Proof.
  intros a b E. eassert (Hs : Sized xdr_read3res _) by solve_sized. exact (Hs a b E).
Qed.

Section ops.
Context `{GSequenceLib} `{Env0 : Env} `{!EnvSpec Env0} `{Gcrypt} `{DiskUsage} `{Fetch}.
Context (keys : CryptKeys.t) (g_utf8_validate : bytes -> bool) (verf : bytes) (fuel : nat).

(** ** References to inodes *)

(** An inode in memory is found with a reference added. *)
Lemma get_inode_ok s inum p i :
  inum <> 0 -> FS.inodes (fs s) !! inum = Some p -> inodes s !! p = Some i ->
  wp (bluesky_get_inode inum) s (fun o s' => o = Some p /\ exists t,
    s' = set_inode p (i <| Inode.refcount ::= Z.add 1 |> <| Inode.access_time := t |>)
           (s <| ticks := S (ticks s) |>)).
Proof.
  intros Hn Hf Hp. unfold bluesky_get_inode, bluesky_get_current_time.
  rewrite (proj2 (Z.eqb_neq _ _)) by done. wp_steps. rewrite Hf. wp_steps. rewrite Hf. wp_steps.
  unfold bluesky_inode_ref. eapply wp_upd; [done|]. wp_steps.
  eapply wp_upd; [apply lookup_insert_eq|]. wp_steps. split; [done|]. eexists.
  apply State_ext; try done. simpl. by rewrite insert_insert_eq.
Qed.

Lemma inode_unref_ok s p i :
  inodes s !! p = Some i -> Inode.refcount i <> 1 ->
  wp (bluesky_inode_unref (Some p)) s (fun _ s' =>
    s' = set_inode p (i <| Inode.refcount ::= Z.add (-1) |>) s).
Proof.
  intros Hp Hr. unfold bluesky_inode_unref. wp_steps. eapply wp_upd; [done|]. wp_steps.
  eapply wp_load; [apply lookup_insert_eq|]. simpl.
  rewrite (proj2 (Z.eqb_neq _ _)) by lia. unfold when. by wp_steps.
Qed.

(** Without pressure the daemon is not waited for. *)
Lemma no_pressure s (Q : unit -> State -> Prop) :
  compute_pressure s <= 1 -> Q tt s -> wp (bluesky_flushd_invoke_conditional keys fuel) s Q.
Proof.
  intros Hp HQ. unfold bluesky_flushd_invoke_conditional. wp_steps.
  destruct fuel; simpl; rewrite (proj2 (Z.leb_le _ _)) by done; by wp_steps.
Qed.

Lemma lookup_fh_ok s inum p i :
  0 < inum < 2 ^ 64 -> FS.inodes (fs s) !! inum = Some p -> inodes s !! p = Some i ->
  wp (lookup_fh (handle inum)) s (fun o s' => o = Some p /\ exists t,
    s' = set_inode p (i <| Inode.refcount ::= Z.add 1 |> <| Inode.access_time := t |>)
           (s <| ticks := S (ticks s) |>)).
Proof.
  intros Hn Hf Hp. unfold lookup_fh, handle. rewrite length_be_bytes.
  change (Z.of_nat 8 =? 8) with true. cbv iota. rewrite be_val_be_bytes, Z.mod_small by (simpl; lia).
  apply get_inode_ok; [lia|done|done].
Qed.

(** Taking and dropping a reference changes no contents. *)
Lemma reference_step s p i c t n k :
  file_state p i c s ->
  let i' := i <| Inode.refcount ::= Z.add n |> <| Inode.access_time := t |> in
  let s' := set_inode p i' (s <| ticks := k |>) in
  file_state p i' c s' /\ file_frame p s s' /\ fs s' = fs s.
Proof.
  intros Hf i' s'. pose proof Hf as (Hok & Hst & Hp & Ho).
  assert (T : touches_inode p i' s s') by (split; try done; simpl; by destruct (fs s)).
  destruct (inode_refs_step s s' p i i' Hok Hst Hp T) as (Hok' & Hst' & Hp' & Hkp & Hff & _); [done..|].
  split; [|done]. split; [done|]. split; [done|]. split; [done|].
  destruct Ho as [Ht Hs Hm (bl & Hbl & Hnb & Hb)]. split; [done..|]. exists bl. split_and!; [done..|]. intros k' b Hk.
  eapply (block_ok_keeps nox nox nox nox s s' p i' bl); eauto; done.
Qed.

(** ** Reading *)

(** The attributes of a file or directory. *)
Definition fattr_of (i : Inode.t) : fattr3.t :=
  fattr3.mk (Inode.type i) (Inode.mode i) (Inode.nlink i) (Inode.uid i) (Inode.gid i) (Inode.size i)
    0 (specdata3.mk 0 0) 0 (Inode.inum i)
    (encode_time (Inode.atime i)) (encode_time (Inode.mtime i)) (encode_time (Inode.ctime i)).

Lemma encode_fattr3_ok s p i (Q : fattr3.t -> State -> Prop) :
  inodes s !! p = Some i -> Inode.type i <> BLUESKY_SYMLINK -> Q (fattr_of i) s ->
  wp (encode_fattr3 p) s Q.
Proof.
  intros Hp Ht HQ. unfold encode_fattr3. wp_steps. eapply wp_load; [done|].
  rewrite (proj2 (Z.eqb_neq _ _)) by done. by wp_steps.
Qed.

Lemma reply_one s p i {A} (r : A) (Q : A -> State -> Prop) :
  inodes s !! p = Some i -> Inode.refcount i <> 1 ->
  Q r (set_inode p (i <| Inode.refcount ::= Z.add (-1) |>) s) -> wp (reply [p] r) s Q.
Proof.
  intros Hp Hr HQ. unfold reply. simpl. wp_steps. eapply wp_mono; [by apply inode_unref_ok|].
  intros _ s' ->. by wp_steps.
Qed.

Lemma reply_file s p i c {A} (r : A) :
  file_state p i c s -> Inode.refcount i <> 1 ->
  wp (reply [p] r) s (fun r' s' => r' = r /\
    file_state p (i <| Inode.refcount ::= Z.add (-1) |>) c s' /\ file_frame p s s' /\ fs s' = fs s).
Proof.
  intros Hf Hr. pose proof Hf as (_ & _ & Hp & _). eapply reply_one; [done..|]. split; [done|].
  destruct (reference_step s p i c (Inode.access_time i) (-1) (ticks s) Hf) as (Hf' & Hff' & Hfs).
  assert (s <| ticks := ticks s |> = s) as Es by (by destruct s). rewrite Es in Hf', Hff', Hfs.
  assert (i <| Inode.refcount ::= Z.add (-1) |> <| Inode.access_time := Inode.access_time i |>
    = i <| Inode.refcount ::= Z.add (-1) |>) as Ei by done. by rewrite Ei in Hf', Hff', Hfs.
Qed.

(** The bytes a read returns: at most as many as were asked for, as fit the
    buffer, and as there are. *)
Definition read_length (c : bytes) (offset count : Z) : Z :=
  Z.max 0 (Z.min (Z.min count NFS_MAXSIZE) (zlen c - offset)).

Lemma read_count_ok c offset count :
  0 <= offset < zlen c -> 0 <= count < 2 ^ 31 ->
  read_count count (zlen c) offset = read_length c offset count /\
  0 <= read_length c offset count <= NFS_MAXSIZE /\ offset + read_length c offset count <= zlen c.
Proof.
  intros Ho Hc. unfold read_count, read_length, NFS_MAXSIZE. rewrite (s32_id count) by lia.
  rewrite u64_id by lia. split; [|lia].
  destruct (Z.ltb_spec (Z.min count (2 ^ 20)) (zlen c - offset)); [lia|]. rewrite s32_id; lia.
Qed.

Lemma nfs_read_ok s p i c inum offset count :
  file_state p i c s -> FS.inodes (fs s) !! inum = Some p -> 0 < inum < 2 ^ 64 ->
  1 <= Inode.refcount i -> compute_pressure s <= 1 ->
  0 <= offset < 2 ^ 64 -> 0 <= count < 2 ^ 31 ->
  wp (nfsproc3_read keys fuel (read3args.mk (handle inum) offset count)) s (fun r s' =>
    let n := read_length c offset count in
    r = ResOk (read3resok.mk (Some (fattr_of i)) n (zlen c <=? offset + n) (window c offset n)) /\
    exists i', file_state p i' c s' /\ file_frame p s s' /\
      attrs i' = attrs i /\ fattr_of i' = fattr_of i).
Proof.
  intros Hf Hin Hnum Hrc Hpr Ho Hc. pose proof Hf as (_ & _ & Hp & _).
  unfold nfsproc3_read. cbn [read3args.file read3args.offset read3args.count].
  wp_step. apply no_pressure; [done|]. wp_step. eapply wp_mono; [by apply lookup_fh_ok|].
  intros o s1 (-> & t & ->).
  destruct (reference_step s p i c t 1 (S (ticks s)) Hf) as (Hf1 & Hff1 & _).
  set (i1 := i <| Inode.refcount ::= _ |> <| Inode.access_time := t |>) in *. set (s1 := set_inode p i1 _) in *.
  pose proof Hf1 as (_ & _ & Hp1 & Ho1). wp_step. eapply wp_load; [done|]. rewrite (fo_size _ _ _ Ho1).
  wp_step. eapply (wp_mono _ _ (fun r s' =>
    r = (read_length c offset count, zlen c <=? offset + read_length c offset count,
         window c offset (read_length c offset count)) /\
    file_state p i1 c s' /\ file_frame p s1 s')).
  - destruct (Z.leb_spec (zlen c) offset) as [Hend|Hin'].
    + wp_step. assert (read_length c offset count = 0) as -> by (unfold read_length; lia).
      rewrite Z.add_0_r, (proj2 (Z.leb_le _ _)) by lia. done.
    + destruct (read_count_ok c offset count) as (-> & Hn & Hfit); [lia|done|].
      set (n := read_length c offset count) in *. unfold NFS_MAXSIZE in *.
      wp_step. eapply wp_mono; [apply (file_read_ok s1 p i1 c offset n Hf1); lia|].
      intros out s2. cbv beta. rewrite decide_True by lia. intros (-> & Hf2 & Hfr & _).
      wp_step. wp_step; [rewrite u32_id by lia; lia|]. wp_step. split; [|done]. simpl.
      rewrite u32_id by lia. f_equal. f_equal. rewrite u64_id by (pose proof (fo_max _ _ _ Ho1);
        unfold BLUESKY_MAX_FILE_SIZE, BLUESKY_BLOCK_SIZE in *; lia).
      destruct (Z.leb_spec (zlen c) (offset + n)); lia.
  - intros r s2 (-> & Hf2 & Hff2). pose proof Hf2 as (_ & _ & Hp2 & Ho2).
    wp_step. eapply encode_fattr3_ok; [done|rewrite (fo_type _ _ _ Ho2); done|].
    eapply wp_mono; [eapply (reply_file s2 p i1 c); [done|simpl; lia]|].
    intros ? s3 (-> & Hf3 & Hff3 & _). split; [done|]. exists (i1 <| Inode.refcount ::= Z.add (-1) |>).
    split; [done|].
    split; [by do 2 (etransitivity; [done|])|]. split; [|done].
    unfold attrs. simpl. replace (-1 + (1 + Inode.refcount i)) with (Inode.refcount i) by lia. done.
Qed.

(** ** Writing *)

Definition wcc_of (i : Inode.t) : wcc_attr.t :=
  wcc_attr.mk (Inode.size i) (encode_time (Inode.mtime i)) (encode_time (Inode.ctime i)).

(** The contents after a write: the file grows as needed, with zeros in a gap. *)
Definition written (c : bytes) (offset : Z) (data : bytes) : bytes :=
  write_at (resize_bytes c (Z.to_nat (Z.max (zlen c) (offset + zlen data)))) (Z.to_nat offset) data.

Lemma extend_ok s p i c size :
  file_state p i c s -> 0 <= size <= BLUESKY_MAX_FILE_SIZE ->
  wp (when (Inode.size i <? size) (bluesky_file_truncate (Some p) size)) s (fun _ s' =>
    exists i', file_step p i i' (resize_bytes c (Z.to_nat (Z.max (zlen c) size))) s s').
Proof.
  intros Hf Hsz. pose proof Hf as (_ & _ & _ & Ho). unfold when. rewrite (fo_size _ _ _ Ho).
  destruct (Z.ltb_spec (zlen c) size).
  - rewrite Z.max_r by lia. eapply wp_mono; [by apply file_truncate_ok; [|lia]|].
    intros r s'. cbv beta. rewrite decide_True by lia. done.
  - wp_step. exists i. rewrite Z.max_l, Nat2Z.id, resize_bytes_id by lia. split; [done|apply step_frame_refl].
Qed.

Lemma write_inside_ok s p i c offset data :
  file_state p i c s -> 0 <= offset -> offset + zlen data <= zlen c ->
  wp (bluesky_file_write (Some p) offset data) s (fun _ s' =>
    exists i', file_step p i i' (write_at c (Z.to_nat offset) data) s s').
Proof.
  intros Hf Ho Hfit. eapply wp_mono; [by apply file_write_ok|]. intros r s'. cbv beta.
  case_decide as Hd; [done|]. intros ->. exists i. destruct data as [|x data].
  - rewrite write_at_nil by (simpl in Hfit; lia). split; [done|apply step_frame_refl].
  - exfalso. apply Hd. rewrite length_cons in *. lia.
Qed.

Lemma nfs_write_ok s p i c inum offset count data :
  file_state p i c s -> FS.inodes (fs s) !! inum = Some p -> 0 < inum < 2 ^ 64 ->
  1 <= Inode.refcount i -> compute_pressure s <= 1 ->
  0 <= offset -> 0 <= count <= zlen data -> offset + count <= BLUESKY_MAX_FILE_SIZE ->
  wp (nfsproc3_write keys verf fuel (write3args.mk (handle inum) offset count UNSTABLE data)) s (fun r s' =>
    exists i', r = ResOk (write3resok.mk (wcc_data.mk (Some (wcc_of i)) (Some (fattr_of i'))) count UNSTABLE verf) /\
      file_state p i' (written c offset (take (Z.to_nat count) data)) s' /\ file_frame p s s' /\
      attrs i' = attrs i /\ Inode.inum i' = Inode.inum i).
Proof.
  intros Hf Hin Hnum Hrc Hpr Ho Hc Hmax. pose proof Hf as (_ & _ & Hp & _).
  assert (Hlen : zlen (take (Z.to_nat count) data) = count) by (rewrite length_take; lia).
  unfold nfsproc3_write. cbn [write3args.file write3args.offset write3args.count write3args.stable write3args.data].
  wp_step. apply no_pressure; [done|]. wp_step. eapply wp_mono; [by apply lookup_fh_ok|].
  intros o s1 (-> & t & ->).
  destruct (reference_step s p i c t 1 (S (ticks s)) Hf) as (Hf1 & Hff1 & _).
  set (i1 := i <| Inode.refcount ::= _ |> <| Inode.access_time := t |>) in *. set (s1 := set_inode p i1 _) in *.
  pose proof Hf1 as (_ & _ & Hp1 & Ho1). unfold encode_pre_wcc. wp_steps. eapply wp_load; [done|]. wp_steps.
  eapply wp_load; [done|]. rewrite (fo_type _ _ _ Ho1). simpl negb. cbv iota zeta.
  rewrite u64_id by (unfold BLUESKY_MAX_FILE_SIZE, BLUESKY_BLOCK_SIZE in *; lia).
  wp_step. eapply wp_mono; [apply extend_ok; [done|lia]|]. intros _ s2 (i2 & Hf2 & Hfr2).
  wp_step. rewrite (proj2 (Z.leb_le _ _)) by lia. unfold when at 1.
  eapply wp_mono; [apply write_inside_ok; [exact Hf2|lia|]|].
  { rewrite Hlen, length_resize_bytes. lia. }
  intros _ s3 (i3 & Hf3 & Hfr3). pose proof (step_frame_trans _ _ _ _ _ _ _ Hfr2 Hfr3) as (Hff & Et & Ea & _).
  pose proof Hf3 as (_ & _ & Hp3 & Ho3). injection Ea as En Er Em Eu Eg El.
  wp_step. eapply encode_fattr3_ok; [done|rewrite (fo_type _ _ _ Ho3); done|].
  change (negb (UNSTABLE =? UNSTABLE)) with false. unfold when. wp_steps.
  eapply wp_mono; [eapply (reply_file s3 p i3); [done|]|].
  { rewrite Er. simpl. lia. }
  intros ? s4 (-> & Hf4 & Hff4 & _). exists (i3 <| Inode.refcount ::= Z.add (-1) |>).
  split; [done|]. split. { unfold written. rewrite Hlen. done. }
  split; [by do 2 (etransitivity; [done|])|]. split; [|done].
  unfold attrs. simpl. rewrite Er, Em, Eu, Eg, El. simpl. repeat f_equal. lia.
Qed.

(** ** Directories *)

(** The directory with inode number [inum] is in memory and somebody refers to it. *)
Definition dir_here (inum : Z) (p : ptr) (l : list Dirent.t) (m : gmap bytes Z) (s : State) : Prop :=
  0 < inum < 2 ^ 64 /\ FS.inodes (fs s) !! inum = Some p /\ dir_state p l m s /\
  exists i, inodes s !! p = Some i /\ 1 <= Inode.refcount i.

Lemma dir_state_inode p l m s i :
  dir_state p l m s -> inodes s !! p = Some i -> exists h hf, dir_ok i l h hf /\ dir_map h = m.
Proof. intros (i0 & h & hf & Hp & Hd) Hi. assert (i0 = i) as -> by congruence. eauto. Qed.

Lemma dir_ok_refs i l h hf f t :
  dir_ok i l h hf -> dir_ok (i <| Inode.refcount ::= f |> <| Inode.access_time := t |>) l h hf.
Proof. intros []. by split. Qed.

Lemma dir_state_refs p l m s i f t k :
  dir_state p l m s -> inodes s !! p = Some i ->
  dir_state p l m (set_inode p (i <| Inode.refcount ::= f |> <| Inode.access_time := t |>) (s <| ticks := k |>)).
Proof.
  intros Hd Hi. destruct (dir_state_inode _ _ _ _ _ Hd Hi) as (h & hf & Ho & Hm).
  eexists _, h, hf. split; [apply lookup_insert_eq|]. split; [by apply dir_ok_refs|done].
Qed.

Lemma reply_two s p q i j {A} (r : A) (Q : A -> State -> Prop) :
  p <> q -> inodes s !! p = Some i -> inodes s !! q = Some j -> Inode.refcount i <> 1 -> Inode.refcount j <> 1 ->
  Q r (set_inode p (i <| Inode.refcount ::= Z.add (-1) |>)
        (set_inode q (j <| Inode.refcount ::= Z.add (-1) |>) s)) -> wp (reply [q; p] r) s Q.
Proof.
  intros Hne Hp Hq Hi Hj HQ. unfold reply. simpl. wp_steps. eapply wp_mono; [by apply inode_unref_ok|].
  intros _ s' ->. wp_steps. eapply wp_mono; [apply (inode_unref_ok _ p i); [|done]|].
  { simpl. by rewrite lookup_insert_ne by congruence. }
  intros _ s' ->. by wp_steps.
Qed.

Lemma ref_unref j t :
  j <| Inode.refcount ::= Z.add 1 |> <| Inode.access_time := t |> <| Inode.refcount ::= Z.add (-1) |>
  = j <| Inode.access_time := t |>.
Proof.
  destruct j as [r]. unfold setf. cbn. by replace (-1 + (1 + r)) with r by lia.
Qed.

(** The inode at [q], seen from outside, is as it was. *)
Definition same_inode (q : ptr) (s s' : State) : Prop :=
  forall j, inodes s !! q = Some j -> exists j', inodes s' !! q = Some j' /\
    attrs j' = attrs j /\ fattr_of j' = fattr_of j.

(** The reference taken with [lookup_fh] is dropped, after the same with another
    inode. *)
Definition seen (p : ptr) (s s' : State) : Prop :=
  s' = s \/ exists q j, q <> p /\ inodes s !! q = Some j /\ exists t k,
    s' = set_inode q (j <| Inode.access_time := t |>) (s <| ticks := k |>).

Lemma seen_other p q j s s' :
  seen p s s' -> inodes s !! q = Some j -> exists j', inodes s' !! q = Some j' /\
    attrs j' = attrs j /\ fattr_of j' = fattr_of j.
Proof.
  intros [->|(q' & j' & _ & Hj' & t & k & ->)] Hj; [eauto|]. simpl.
  destruct (decide (q' = q)) as [->|Hne]; [|rewrite lookup_insert_ne; eauto].
  assert (j' = j) as -> by congruence. rewrite lookup_insert_eq. eauto.
Qed.

Lemma dir_released s inum p i l m t k s2 :
  dir_here inum p l m s -> inodes s !! p = Some i ->
  let i1 := i <| Inode.refcount ::= Z.add 1 |> <| Inode.access_time := t |> in
  let s' := set_inode p (i1 <| Inode.refcount ::= Z.add (-1) |>) s2 in
  seen p (set_inode p i1 (s <| ticks := k |>)) s2 ->
  dir_here inum p l m s' /\ forall q, same_inode q s s'.
Proof.
  intros (Hn & Hin & Hd & i0 & Hi0 & Hr) Hi i1 s' Hs2. assert (i0 = i) as -> by congruence.
  assert (Efs : fs s2 = fs s) by (destruct Hs2 as [->|(? & ? & _ & _ & ? & ? & ->)]; done).
  split.
  - split; [done|]. split; [simpl; by rewrite Efs|]. destruct (dir_state_inode _ _ _ _ _ Hd Hi) as (h & hf & Ho & Hm).
    split.
    + eexists _, h, hf. split; [apply lookup_insert_eq|]. split; [by destruct Ho|done].
    + eexists. split; [apply lookup_insert_eq|]. simpl. lia.
  - intros q j Hj. destruct (decide (q = p)) as [->|Hne].
    + assert (j = i) as -> by congruence. eexists. split; [apply lookup_insert_eq|]. split; [|done].
      unfold attrs. simpl. replace (-1 + (1 + Inode.refcount i)) with (Inode.refcount i) by lia. done.
    + simpl. rewrite lookup_insert_ne by done. eapply seen_other; [done|]. simpl. by rewrite lookup_insert_ne.
Qed.

(** A name that is there leads to the handle and the attributes of its inode, any
    other name to an error. *)
Lemma nfs_lookup_ok s inum p i l m name :
  dir_here inum p l m s -> inodes s !! p = Some i -> validate_filename g_utf8_validate name = true ->
  (forall n, m !! name = Some n -> n <> 0 /\ exists q j, FS.inodes (fs s) !! n = Some q /\ q <> p /\
     inodes s !! q = Some j /\ 1 <= Inode.refcount j /\ Inode.type j <> BLUESKY_SYMLINK) ->
  wp (nfsproc3_lookup g_utf8_validate (diropargs3.mk (handle inum) name)) s (fun r s' =>
    match m !! name with
    | Some n => exists q j, FS.inodes (fs s) !! n = Some q /\ inodes s !! q = Some j /\
        r = ResOk (lookup3resok.mk (handle n) (Some (fattr_of j)) (Some (fattr_of i)))
    | None => r = ResFail NFS3ERR_NOENT (Some (fattr_of i))
    end /\ dir_here inum p l m s' /\ forall q, same_inode q s s').
Proof.
  intros (Hn & Hin & Hd & i0 & Hi0 & Hr) Hi Hv Hm. assert (i0 = i) as -> by congruence. clear Hi0.
  unfold nfsproc3_lookup. cbn [diropargs3.dir diropargs3.name]. wp_step. eapply wp_mono; [by apply lookup_fh_ok|].
  intros o s1 (-> & t & ->). pose proof (dir_state_refs p l m s i (Z.add 1) t (S (ticks s)) Hd Hi) as Hd1.
  set (i1 := i <| Inode.refcount ::= _ |> <| Inode.access_time := t |>) in *. set (s1 := set_inode p i1 _) in *.
  assert (Hi1 : inodes s1 !! p = Some i1) by apply lookup_insert_eq.
  destruct (dir_state_inode _ _ _ _ _ Hd1 Hi1) as (h & hf & Ho & _).
  assert (Hty : Inode.type i1 <> BLUESKY_SYMLINK) by (rewrite (do_type _ _ _ _ Ho); done).
  wp_step. eapply encode_fattr3_ok; [done|done|]. rewrite Hv. simpl negb. cbv iota. wp_step.
  eapply wp_mono; [by eapply directory_lookup_ok|]. intros ? ? [-> ->].
  assert (Hback := fun s2 => dir_released s inum p i l m t (S (ticks s)) s2
    (conj Hn (conj Hin (conj Hd (ex_intro _ i (conj Hi Hr))))) Hi). fold i1 s1 in Hback.
  destruct (m !! name) as [n|] eqn:Em; simpl default; cycle 1.
  { simpl. eapply reply_one; [done|simpl; lia|]. split; [done|]. apply Hback. by left. }
  destruct (Hm n eq_refl) as (Hn0 & q & j & Hqn & Hqp & Hj & Hrj & Htj).
  rewrite (proj2 (Z.eqb_neq _ _)) by done. wp_step. eapply encode_fattr3_ok; [done|done|].
  assert (Hj1 : inodes s1 !! q = Some j) by (simpl; by rewrite lookup_insert_ne).
  wp_step. eapply wp_mono; [by apply get_inode_ok|]. intros o s2 (-> & t2 & ->).
  wp_step. eapply encode_fattr3_ok; [apply lookup_insert_eq|done|].
  eapply (reply_two _ p q); [done|simpl; by rewrite lookup_insert_ne|apply lookup_insert_eq|simpl; lia..|].
  split; [eauto 10|].
  match goal with |- dir_here _ _ _ _ ?s' /\ _ => assert (s' = set_inode p (i1 <| Inode.refcount ::= Z.add (-1) |>)
    (set_inode q (j <| Inode.access_time := t2 |>) (s1 <| ticks := S (ticks s1) |>))) as -> end.
  { apply State_ext; try done. simpl. rewrite insert_insert_eq. do 2 f_equal. apply ref_unref. }
  apply Hback. right. exists q, j. eauto.
Qed.

(** What a page holds, and where it ends. *)
Definition entry_of (d : Dirent.t) : entry3.t :=
  entry3.mk (Dirent.inum d) (Dirent.name d) (Dirent.cookie d).

Lemma readdir_loop_ok n l1 l2 :
  readdir_loop n (l1 ++ l2) (length l1)
  = (entry_of <$> take n l2, (length l1 + Nat.min n (length l2))%nat).
Proof.
  revert l1 l2. induction n as [|n IH]; intros l1 l2; simpl; [by rewrite Nat.add_0_r|].
  destruct l2 as [|d l2].
  - rewrite app_nil_r, lookup_ge_None_2 by lia. simpl. f_equal. lia.
  - rewrite list_lookup_middle by done. unfold g_sequence_iter_next.
    rewrite (proj2 (Nat.ltb_lt _ _)) by (rewrite length_app; simpl; lia).
    specialize (IH (l1 ++ [d]) l2). rewrite <- app_assoc, length_app in IH. simpl in IH.
    replace (S (length l1)) with (length l1 + 1)%nat by lia. rewrite IH. f_equal. simpl. lia.
Qed.

Lemma split_start l1 l2 c :
  0 <= c < 2 ^ 32 -> Forall (fun e => Dirent.cookie e <= c) l1 -> Forall (fun e => c < Dirent.cookie e) l2 ->
  readdir_start c (l1 ++ l2) = length l1.
Proof.
  intros Hc H1' H2'. unfold readdir_start, dirent_search, bluesky_dirent_compare. rewrite u32_id by done.
  by rewrite (search_split Dirent.cookie).
Qed.

(** One page: the next 64 entries, and whether they are the last. *)
Lemma nfs_readdir_ok s inum p l l1 l2 m c v n :
  dir_here inum p l m s -> l = l1 ++ l2 -> 0 <= c < 2 ^ 32 ->
  Forall (fun e => Dirent.cookie e <= c) l1 -> Forall (fun e => c < Dirent.cookie e) l2 ->
  wp (nfsproc3_readdir (readdir3args.mk (handle inum) c v n)) s (fun r s' => (exists a,
    r = ResOk (readdir3resok.mk (Some a) (replicate 8 0)
          (dirlist3.mk (entry_of <$> take MAX_READDIR_DIRENTS l2) (length l2 <=? MAX_READDIR_DIRENTS)%nat))) /\
    dir_here inum p l m s').
Proof.
  intros (Hn & Hin & Hd & i & Hi & Hr) El Hc H1' H2'. unfold nfsproc3_readdir.
  cbn [readdir3args.dir readdir3args.cookie]. wp_step. eapply wp_mono; [by apply lookup_fh_ok|].
  intros o s1 (-> & t & ->). pose proof (dir_state_refs p l m s i (Z.add 1) t (S (ticks s)) Hd Hi) as Hd1.
  set (i1 := i <| Inode.refcount ::= _ |> <| Inode.access_time := t |>) in *. set (s1 := set_inode p i1 _) in *.
  assert (Hi1 : inodes s1 !! p = Some i1) by apply lookup_insert_eq.
  destruct (dir_state_inode _ _ _ _ _ Hd1 Hi1) as (h & hf & Ho & Hm).
  wp_step. eapply encode_fattr3_ok; [done|rewrite (do_type _ _ _ _ Ho); done|].
  wp_step. eapply wp_load; [done|]. unfold dir_entries. wp_step. rewrite (do_dirents _ _ _ _ Ho). wp_step; [done|].
  rewrite El, split_start, readdir_loop_ok by done.
  eapply reply_one; [done|simpl; lia|]. split.
  - eexists. repeat f_equal. unfold g_sequence_iter_is_end. rewrite length_app.
    destruct (Nat.leb_spec (length l2) MAX_READDIR_DIRENTS);
      [apply Nat.leb_le|apply Nat.leb_gt]; lia.
  - split; [done|]. split; [done|]. rewrite <- El. split.
    + pose proof (dir_state_refs p l m s1 i1 (Z.add (-1)) t (ticks s1) Hd1 Hi1) as Hd2. done.
    + eexists. split; [apply lookup_insert_eq|]. simpl. lia.
Qed.

(** The listing a client makes: each call passes the cookie of the last entry it
    was given, until the end is reported. *)
Fixpoint readdir_all (n : nat) (dir : bytes) (cookie count : Z) : M State (option (list entry3.t)) :=
  match n with
  | O => mret None
  | S n =>
    r ← nfsproc3_readdir (readdir3args.mk dir cookie (replicate 8 0) count);
    match r with
    | ResOk ok =>
      let page := dirlist3.entries (readdir3resok.reply ok) in
      if dirlist3.eof (readdir3resok.reply ok) then mret (Some page) else
      match last page with
      | None => mret None
      | Some e =>
        rest ← readdir_all n dir (entry3.cookie e) count;
        mret (app page <$> rest)
      end
    | ResFail _ _ => mret None
    end
  end.

Lemma readdir_all_ok k s inum p l l1 l2 m c n :
  dir_here inum p l m s -> l = l1 ++ l2 -> 0 <= c < 2 ^ 32 -> (length l2 <= k * MAX_READDIR_DIRENTS)%nat ->
  Forall (fun e => Dirent.cookie e <= c) l1 -> Forall (fun e => c < Dirent.cookie e) l2 ->
  wp (readdir_all (S k) (handle inum) c n) s (fun r s' =>
    r = Some (entry_of <$> l2) /\ dir_here inum p l m s').
Proof.
  revert s l1 l2 c. induction k as [|k IH]; intros s l1 l2 c Hd El Hc Hk H1' H2'.
  - destruct l2; [|simpl in Hk; lia]. cbn [readdir_all]. wp_step. eapply wp_mono; [by eapply nfs_readdir_ok|].
    intros r s' ((a & ->) & Hd'). cbn [readdir3resok.reply dirlist3.entries dirlist3.eof].
    rewrite (proj2 (Nat.leb_le _ _)) by (simpl; lia). wp_step. by rewrite take_nil.
  - cbn [readdir_all]. wp_step. eapply wp_mono; [by eapply nfs_readdir_ok|].
    intros r s' ((a & ->) & Hd'). cbn [readdir3resok.reply dirlist3.entries dirlist3.eof].
    destruct (Nat.leb_spec (length l2) MAX_READDIR_DIRENTS) as [Hl|Hl].
    { wp_step. by rewrite take_ge. }
    destruct (lookup_lt_is_Some_2 l2 63) as [d Hd63]; [unfold MAX_READDIR_DIRENTS in *; lia|].
    assert (Et : take MAX_READDIR_DIRENTS l2 = take 63 l2 ++ [d]) by (by apply take_S_r).
    assert (El2 : l2 = (take 63 l2 ++ [d]) ++ drop MAX_READDIR_DIRENTS l2) by (by rewrite <- Et, take_drop).
    rewrite fmap_last, Et, last_snoc. cbn [fmap option_fmap option_map entry_of entry3.cookie].
    assert (Hsort : sorted_lt Dirent.cookie l).
    { destruct Hd as (_ & _ & (i & h & hf & _ & Ho & _) & _). apply Ho. }
    assert (Hdl : d ∈ l) by (rewrite El; apply elem_of_app; right; by eapply list_elem_of_lookup_2).
    assert (Hcd : 4 <= Dirent.cookie d < 2 ^ 31).
    { destruct Hd as (_ & _ & (i & h & hf & _ & Ho & _) & _). by apply Ho. }
    set (l3 := drop MAX_READDIR_DIRENTS l2) in *. set (l0 := take 63 l2) in *.
    rewrite El, El2, <- app_assoc, app_assoc in Hsort. unfold sorted_lt in Hsort.
    apply StronglySorted_app in Hsort as (_ & Hs2 & Hs1). inversion_clear Hs2 as [|? ? _ Hs3].
    wp_step. eapply wp_mono; [apply (IH s' (l1 ++ l0 ++ [d]) l3)|].
    + done.
    + rewrite El, El2. by rewrite <- !app_assoc.
    + lia.
    + subst l3. rewrite length_drop. lia.
    + rewrite app_assoc. apply Forall_app. split; [|by constructor]. apply Forall_forall. intros x Hx.
      specialize (Hs1 x d Hx ltac:(by left)). simpl in Hs1. lia.
    + exact Hs3.
    + intros r s'' (-> & Hd''). wp_step. split; [|done]. simpl. rewrite <- fmap_app. by rewrite <- El2.
Qed.

(** ** The claims *)

(** C9: READ returns the bytes of the file.  For a file in memory whose contents
    are [c], any offset and any count below 2^31, the procedure succeeds with the
    [window] of [c] at the offset, cut at the end of the file and at the size of the
    buffer, with its length, whether it reaches the end, and the attributes of the
    file.  Contents, attributes, reference count and everything else stay. *)
Theorem nfs_read_refines s p i c inum offset count :
  file_state p i c s -> FS.inodes (fs s) !! inum = Some p -> 0 < inum < 2 ^ 64 ->
  1 <= Inode.refcount i -> compute_pressure s <= 1 ->
  0 <= offset < 2 ^ 64 -> 0 <= count < 2 ^ 31 ->
  wp (nfsproc3_read keys fuel (read3args.mk (handle inum) offset count)) s (fun r s' =>
    let n := read_length c offset count in
    r = ResOk (read3resok.mk (Some (fattr_of i)) n (zlen c <=? offset + n) (window c offset n)) /\
    exists i', file_state p i' c s' /\ file_frame p s s' /\
      attrs i' = attrs i /\ fattr_of i' = fattr_of i).
Proof. apply nfs_read_ok. Qed.



(** C24: A listing made page by page is complete.  The calls of READDIR a client makes,
    the first with cookie 0 and each next one with the cookie of the last entry
    before, end after at most one more call than there are pages of 64 entries, and
    the pages together hold every entry of the directory, each once, whatever size
    the client asks for. *)
Theorem nfs_readdir_complete s inum p l m count :
  dir_here inum p l m s ->
  wp (readdir_all (S (S (length l / MAX_READDIR_DIRENTS))) (handle inum) 0 count) s (fun r s' =>
    exists es, r = Some es /\ NoDup (entry3.name <$> es) /\
      list_to_map ((fun e => (entry3.name e, entry3.fileid e)) <$> es) = m /\ dir_here inum p l m s').
Proof.
  intros Hd. pose proof Hd as (_ & _ & (i & h & hf & Hi & Ho & Hm) & _).
  eapply wp_mono; [apply (readdir_all_ok (S (length l / MAX_READDIR_DIRENTS)) s inum p l [] l m 0); [done|done|lia| |done|]|].
  - unfold MAX_READDIR_DIRENTS. pose proof (Nat.div_mod_eq (length l) 64).
    pose proof (Nat.mod_upper_bound (length l) 64). lia.
  - apply Forall_forall. intros d Hin. pose proof (do_cookies _ _ _ _ Ho d Hin). lia.
  - intros r s' (-> & Hd'). eexists. split; [done|]. rewrite <- !list_fmap_compose.
    split; [exact (dir_ok_names _ _ _ _ Ho)|]. split; [|done].
    by rewrite <- Hm, <- (dir_ok_list _ _ _ _ Ho).
Qed.

Lemma read_result_ok s p i c offset count :
  file_state p i c s -> xdr_ok xdr_fattr3 (fattr_of i) = true -> 0 <= offset < 2 ^ 64 -> 0 <= count < 2 ^ 31 ->
  let n := read_length c offset count in
  let res := ResOk (read3resok.mk (Some (fattr_of i)) n (zlen c <=? offset + n) (window c offset n)) in
  xdr_ok xdr_read3res res = true /\ size_read3res res <= NFS_MAXSIZE + 111.
Proof.
  intros Hf Ha Ho Hc n res. assert (Hn : 0 <= n <= NFS_MAXSIZE) by (unfold n, read_length, NFS_MAXSIZE; lia).
  assert (Hw : zlen (window c offset n) <= NFS_MAXSIZE) by (unfold window; rewrite length_take; lia).
  unfold NFS_MAXSIZE in *. split.
  - unfold res. change (xdr_ok xdr_fattr3 (fattr_of i) && ((0 <=? n) && (n <? 2 ^ 32)) && true
      && (zlen (window c offset n) <=? no_limit) = true).
    rewrite Ha. unfold no_limit. repeat (apply andb_true_iff; split); try done; try lia.
  - unfold size_read3res, res. simpl from_option. cbn [read3resok.data].
    pose proof (Z.mod_pos_bound (- zlen (window c offset n)) 4). lia.
Qed.

End ops.

(** ** A file and a directory in memory *)

#[local] Existing Instance linear_gsequence.

Definition sample_nfs_state : State :=
  sample_state <| fs ::= fun f => f <| FS.inodes := {[2 := 1%positive]} |> |>.

Lemma sample_nfs_file : file_state 1 sample_inode [97; 98; 99] sample_nfs_state.
Proof.
  destruct sample_file_state as (Hok & Hst & Hp & Ho). split; [by destruct Hok|].
  split; [done|]. split; [done|]. destruct Ho. by split.
Qed.

Lemma nfs_read_refines_witness :
  wp (nfsproc3_read sample_keys 0 (read3args.mk (handle 2) 1 9)) sample_nfs_state (fun r _ =>
    r = ResOk (read3resok.mk (Some (fattr_of sample_inode)) 2 true [98; 99])).
Proof.
  refine (wp_mono _ _ _ _ (nfs_read_refines sample_keys 0 sample_nfs_state 1 sample_inode [97; 98; 99] 2 1 9
    sample_nfs_file eq_refl _ _ _ _ _) _); try lia; [vm_compute; congruence..|].
  intros r s' (-> & _). done.
Defined.


(** Number 9 is the directory; one of its entries is a file in memory. *)
Definition sample_nfs_dir_state : State :=
  sample_dir_state <| inodes := {[1%positive := sample_dir <| Inode.refcount := 1 |>; 2%positive := sample_inode]} |>
    <| fs ::= fun f => f <| FS.inodes := {[9 := 1%positive; 20 := 2%positive]} |> |>.

Lemma sample_dir_here : dir_here 9 1 [sample_dirent1; sample_dirent2]
  {[ [65] := 20; [66; 99] := 30 ]} sample_nfs_dir_state.
Proof.
  split; [lia|]. split; [done|]. split.
  - destruct sample_dir_ok as (i & h & hf & Hi & Ho & Hm). exists (i <| Inode.refcount := 1 |>), h, hf.
    simpl in Hi. rewrite lookup_singleton_eq in Hi. injection Hi as <-. split; [done|]. split; [by destruct Ho|done].
  - eexists. split; [done|]. simpl. lia.
Qed.


Lemma nfs_readdir_complete_witness :
  wp (readdir_all 2 (handle 9) 0 100) sample_nfs_dir_state (fun r _ => exists es, r = Some es /\
    list_to_map ((fun e => (entry3.name e, entry3.fileid e)) <$> es) = ({[ [65] := 20; [66; 99] := 30 ]} : gmap bytes Z)).
Proof.
  refine (wp_mono _ _ _ _ (nfs_readdir_complete sample_nfs_dir_state 9 1 _ _ 100 sample_dir_here) _).
  intros r s' (es & -> & _ & Hm & _). eauto.
Defined.

Definition sample_read_args : bytes := [0; 0; 0; 8] ++ handle 2 ++ be_bytes 8 1 ++ be_bytes 4 9.
Definition sample_server : Server :=
  mkServer (RPCConnection.mk (call_message 77 6 (authenticator 0 []) (authenticator 0 []) sample_read_args)
              0 0 false [] [] []) 0 [].


(** A count of 2^31 or more is negative as an [int]: it passes the first minimum and
    fails the second, and the rest of the file is read whatever the buffer holds. *)
Example large_count_overruns_buffer size offset :
  0 <= offset -> NFS_MAXSIZE < size - offset < 2 ^ 31 -> NFS_MAXSIZE < read_count (2 ^ 31) size offset.
Proof.
  intros Ho Hs. unfold read_count, NFS_MAXSIZE in *. change (s32 (2 ^ 31)) with (- 2 ^ 31).
  change (Z.min (- 2 ^ 31) (2 ^ 20)) with (- 2 ^ 31). change (u64 (- 2 ^ 31)) with (2 ^ 64 - 2 ^ 31).
  destruct (Z.ltb_spec (2 ^ 64 - 2 ^ 31) (size - offset)); [lia|]. rewrite s32_id; lia.
Qed.
