(* ===== verification/Mount.v ===== *)
(** * The MOUNT program (src/nfs3/mount.c, mount_prot.h, mount_prot_xdr.c, rpc.c)

    A client mounts the file system by a call of the MOUNT protocol, which gives it
    the handle of the root directory.  The calls come through the RPC library of the
    system: [svc_getargs] decodes the argument of a call with a filter, and
    [svc_sendreply] encodes an answer with one and sends it.  [svc_freeargs] gives the
    memory of an argument back, which does not fail for these filters. *)

From S2P Require Import Prelude Glib State Inodes Fetch InodeSync CacheFiles Crypto LogThread Cache Xdr NfsTypes Rpc Nfs.
From Stdlib Require Import ZArith Lia.
From stdpp Require Import base numbers gmap option list.

Open Scope Z_scope.

Definition MNTPATHLEN : Z := 1024.
Definition MNTNAMLEN : Z := 255.
Definition FHSIZE3 : Z := 64.
Definition MNT3_OK : Z := 0.
(** Of the RPC library. *)
Definition AUTH_UNIX : Z := 1.

(** ** The filters *)

(** [xdr_array] of the library, with no limit but that the [elsize] bytes of each
    element can be counted: the number of elements, then each of them. *)
Fixpoint xdr_elements_dec {A} (x : xdrproc A) (n : nat) (b : bytes) : option (list A * bytes) :=
  match n with
  | O => Some ([], b)
  | S n => r ← xdr_dec x b; l ← xdr_elements_dec x n r.2; Some (r.1 :: l.1, l.2)
  end.
Fixpoint xdr_elements_enc {A} (x : xdrproc A) (l : list A) : option bytes :=
  match l with
  | [] => Some []
  | a :: l => b ← xdr_enc x a; r ← xdr_elements_enc x l; Some (b ++ r)
  end.
Definition xdr_array {A} (elsize : Z) (x : xdrproc A) : xdrproc (list A) := mkXdr
  (fun l => if no_limit / elsize <? zlen l then None else
            c ← xdr_enc xdr_u_int (zlen l); b ← xdr_elements_enc x l; Some (c ++ b))
  (fun b => c ← xdr_dec xdr_u_int b;
            if no_limit / elsize <? c.1 then None else xdr_elements_dec x (Z.to_nat c.1) c.2)
  (fun l => (zlen l <=? no_limit / elsize) && forallb (xdr_ok x) l).

Definition xdr_fhandle3 : xdrproc bytes := xdr_bytes FHSIZE3.
Definition xdr_dirpath : xdrproc bytes := xdr_string MNTPATHLEN.
Definition xdr_name : xdrproc bytes := xdr_string MNTNAMLEN.
Definition xdr_mountstat3 : xdrproc Z := xdr_enum.

Module mountres3_ok.
Record t := mk {
  fhandle : bytes;
  auth_flavors : list Z;
}.
End mountres3_ok.
Definition xdr_mountres3_ok : xdrproc mountres3_ok.t := xdr_map
  (fun '(x1, x2) => mountres3_ok.mk x1 x2)
  (fun r => (mountres3_ok.fhandle r, mountres3_ok.auth_flavors r))
  (xdr_fhandle3 ⊗ xdr_array 4 xdr_int).

(** The status, and what follows it when it is [MNT3_OK]. *)
Definition mountres3 : Type := Z * option mountres3_ok.t.
Definition xdr_mountres3 : xdrproc mountres3 := xdr_when MNT3_OK xdr_mountres3_ok.

Module mountbody.
Record t := mk {
  ml_hostname : bytes;
  ml_directory : bytes;
}.
End mountbody.
Definition xdr_mountbody : xdrproc mountbody.t := xdr_map
  (fun '(x1, x2) => mountbody.mk x1 x2)
  (fun r => (mountbody.ml_hostname r, mountbody.ml_directory r))
  (xdr_name ⊗ xdr_dirpath).
Definition xdr_mountlist : xdrproc (list mountbody.t) := xdr_pointer xdr_mountbody.

Definition xdr_groupnode : xdrproc bytes := xdr_name.
Definition xdr_groups : xdrproc (list bytes) := xdr_pointer xdr_groupnode.

Module exportnode.
Record t := mk {
  ex_dir : bytes;
  ex_groups : list bytes;
}.
End exportnode.
Definition xdr_exportnode : xdrproc exportnode.t := xdr_map
  (fun '(x1, x2) => exportnode.mk x1 x2)
  (fun r => (exportnode.ex_dir r, exportnode.ex_groups r))
  (xdr_dirpath ⊗ xdr_groups).
Definition xdr_exports : xdrproc (list exportnode.t) := xdr_pointer xdr_exportnode.

(** ** The procedures *)

Inductive mount_proc :=
  | MOUNTPROC3_NULL
  | MOUNTPROC3_MNT
  | MOUNTPROC3_DUMP
  | MOUNTPROC3_UMNT
  | MOUNTPROC3_UMNTALL
  | MOUNTPROC3_EXPORT.

Definition mount_procs : list mount_proc :=
  [MOUNTPROC3_NULL; MOUNTPROC3_MNT; MOUNTPROC3_DUMP; MOUNTPROC3_UMNT; MOUNTPROC3_UMNTALL; MOUNTPROC3_EXPORT].

(** The procedure with a number. *)
Definition mount_proc_of (n : Z) : option mount_proc :=
  if n <? 0 then None else mount_procs !! Z.to_nat n.

Definition mount_argument (p : mount_proc) : Type :=
  match p with
  | MOUNTPROC3_MNT | MOUNTPROC3_UMNT => bytes
  | _ => unit
  end.
Definition mount_result (p : mount_proc) : Type :=
  match p with
  | MOUNTPROC3_MNT => mountres3
  | MOUNTPROC3_DUMP => list mountbody.t
  | MOUNTPROC3_EXPORT => list exportnode.t
  | _ => unit
  end.

Definition xdr_mount_argument (p : mount_proc) : xdrproc (mount_argument p) :=
  match p with
  | MOUNTPROC3_MNT | MOUNTPROC3_UMNT => xdr_dirpath
  | MOUNTPROC3_NULL | MOUNTPROC3_DUMP | MOUNTPROC3_UMNTALL | MOUNTPROC3_EXPORT => xdr_void
  end.
Definition xdr_mount_result (p : mount_proc) : xdrproc (mount_result p) :=
  match p with
  | MOUNTPROC3_MNT => xdr_mountres3
  | MOUNTPROC3_DUMP => xdr_mountlist
  | MOUNTPROC3_EXPORT => xdr_exports
  | MOUNTPROC3_NULL | MOUNTPROC3_UMNT | MOUNTPROC3_UMNTALL => xdr_void
  end.

(** The answer to [MNT]: the same for every path. *)
Definition mountproc3_mnt_3_svc (argp : bytes) : mountres3 :=
  (MNT3_OK, Some (mountres3_ok.mk [0; 0; 0; 0; 0; 0; 0; 1] [AUTH_UNIX])).

(** [null_result] is the address of an [int], which is zero.  Where a list is
    expected, a pointer is read from there: the eight bytes of the [int] and of what
    is [behind] it.  It is a list, and an empty one, when all of them are zero. *)
Definition null_list {A} (behind : bytes) : option (list A) :=
  if forallb (Z.eqb 0) ([0; 0; 0; 0] ++ behind) then Some [] else None.

Definition mountproc3_dump_3_svc (behind : bytes) : option (list mountbody.t) := null_list behind.
Definition mountproc3_export_3_svc (behind : bytes) : option (list exportnode.t) := null_list behind.

(** The answer of a procedure; none if it is not a valid object. *)
Definition mount_local (behind : bytes) (p : mount_proc) : mount_argument p -> option (mount_result p) :=
  match p with
  | MOUNTPROC3_MNT => fun argp => Some (mountproc3_mnt_3_svc argp)
  | MOUNTPROC3_DUMP => fun _ => mountproc3_dump_3_svc behind
  | MOUNTPROC3_EXPORT => fun _ => mountproc3_export_3_svc behind
  | MOUNTPROC3_NULL => fun _ => Some tt
  | MOUNTPROC3_UMNT => fun _ => Some tt
  | MOUNTPROC3_UMNTALL => fun _ => Some tt
  end.

(** ** Calls *)

Inductive mount_answer :=
  | SvcNoProc
  | SvcDecode
  | SvcSystemErr
  | SvcReply (body : bytes).

(** The handling of a call of procedure [n] with the argument [args].  [sent] tells
    whether the transport takes an answer; the result is what the client is told, or
    none when the server follows a pointer that is not one. *)
Definition mount_program_3 (behind : bytes) (sent : bytes -> bool) (n : Z) (args : bytes) : option mount_answer :=
  match mount_proc_of n with
  | None => Some SvcNoProc
  | Some p =>
    match xdr_dec (xdr_mount_argument p) args with
    | None => Some SvcDecode
    | Some (a, _) =>
      r ← mount_local behind p a;
      match xdr_enc (xdr_mount_result p) r with
      | Some b => Some (if sent b then SvcReply b else SvcSystemErr)
      | None => Some SvcSystemErr
      end
    end
  end.

(** ** The laws *)

Lemma xdr_elements_inverse {A} (x : xdrproc A) (Hx : Lawful x) l b rest :
  forallb (xdr_ok x) l = true -> xdr_elements_enc x l = Some b ->
  xdr_elements_dec x (length l) (b ++ rest) = Some (l, rest).
Proof.
  revert b. induction l as [|a l IH]; simpl; intros b Hl He; [by injection He as <-|].
  apply andb_prop in Hl as [Ha Hl]. destruct (xdr_enc x a) as [ea|] eqn:Ea; [|done]. simpl in He.
  destruct (xdr_elements_enc x l) as [el|]; [|done]. simpl in He. injection He as <-.
  rewrite <- app_assoc, (xdr_inverse a ea _ Ha Ea). simpl. by rewrite (IH el Hl eq_refl).
Qed.

Lemma xdr_elements_total {A} (x : xdrproc A) (Hx : Lawful x) l :
  forallb (xdr_ok x) l = true -> is_Some (xdr_elements_enc x l).
Proof.
  induction l as [|a l IH]; simpl; [eauto|]. intros Hl. apply andb_prop in Hl as [Ha Hl].
  destruct (xdr_total a Ha) as [ea ->], (IH Hl) as [el ->]. simpl. eauto.
Qed.

Lemma xdr_elements_aligned {A} (x : xdrproc A) (Hx : Lawful x) l b :
  xdr_elements_enc x l = Some b -> zlen b mod 4 = 0.
Proof.
  revert b. induction l as [|a l IH]; simpl; intros b He; [by injection He as <-|].
  destruct (xdr_enc x a) as [ea|] eqn:Ea; [|done]. simpl in He.
  destruct (xdr_elements_enc x l) as [el|]; [|done]. simpl in He. injection He as <-.
  apply aligned_app; [by eapply xdr_aligned|by apply IH].
Qed.

#[export] Instance lawful_array {A} elsize (x : xdrproc A) :
  TCEq (1 <=? elsize) true -> Lawful x -> Lawful (xdr_array elsize x).
Proof.
  rewrite TCEq_eq. intros Hs Hx.
  assert (Hm : no_limit / elsize <= no_limit).
  { apply Z.div_le_upper_bound; [lia|]. unfold no_limit. nia. }
  unfold xdr_array. split; cbn [xdr_enc xdr_dec xdr_ok].
  - intros l Hl. apply andb_prop in Hl as [Hn Hl]. destruct (Z.ltb_spec (no_limit / elsize) (zlen l)); [lia|].
    destruct (xdr_elements_total x Hx l Hl) as [b ->]. simpl. eauto.
  - intros l b rest Hl He. apply andb_prop in Hl as [Hn Hl]. revert He.
    destruct (Z.ltb_spec (no_limit / elsize) (zlen l)); [lia|].
    destruct (xdr_enc xdr_u_int (zlen l)) as [c|] eqn:Ec; [|done]. cbn [mbind option_bind].
    destruct (xdr_elements_enc x l) as [e|] eqn:Ee; [|done]. cbn [mbind option_bind]. intros [= <-].
    rewrite <- app_assoc, (xdr_inverse (x := xdr_u_int) (zlen l) c _); [|unfold no_limit in *; simpl; lia|done].
    cbn [mbind option_bind fst snd]. destruct (Z.ltb_spec (no_limit / elsize) (zlen l)); [lia|].
    rewrite Nat2Z.id. by apply xdr_elements_inverse.
  - intros l b. destruct (no_limit / elsize <? zlen l); [done|].
    destruct (xdr_enc xdr_u_int (zlen l)) as [c|] eqn:Ec; [|done]. cbn [mbind option_bind].
    destruct (xdr_elements_enc x l) as [e|] eqn:Ee; [|done]. cbn [mbind option_bind]. intros [= <-].
    apply aligned_app; [by eapply (xdr_aligned (x := xdr_u_int))|by eapply xdr_elements_aligned].
Qed.

#[local] Hint Extern 1 (Lawful (xdr_array _ _)) =>
  apply lawful_array; [apply TCEq_eq; reflexivity|apply lawful_int] : lawful.

#[export] Instance lawful_mount_argument p : Lawful (xdr_mount_argument p).
Proof. destruct p; cbn [xdr_mount_argument mount_argument]; solve_lawful. Qed.
#[export] Instance lawful_mount_result p : Lawful (xdr_mount_result p).
Proof. destruct p; cbn [xdr_mount_result mount_result]; solve_lawful. Qed.

(** What a procedure answers when zeros are behind [null_int]. *)
Lemma mount_local_ok behind p a :
  forallb (Z.eqb 0) behind = true ->
  exists r, mount_local behind p a = Some r /\ xdr_ok (xdr_mount_result p) r = true.
Proof.
  intros Hb. destruct p; simpl; unfold mountproc3_dump_3_svc, mountproc3_export_3_svc, null_list; simpl;
    rewrite ?Hb; eauto.
Qed.

Section root.
Context `{GSequenceLib} `{Env} `{Gcrypt} `{DiskUsage} `{Fetch}.

(** C26: Mounting works and leads to the root directory.  Every call of a procedure
    of the MOUNT protocol, with any argument that can be sent and anything behind
    it, is answered with the encoding of the procedure's answer, which the client
    decodes to the same value; and the handle in the answer to [MNT], for whatever
    path, is the one that the procedures of NFS resolve to the inode
    [BLUESKY_ROOT_INUM].  The bytes behind [null_int] in memory have to be zero: see
    [dump_follows_garbage]. *)
Theorem mount_leads_to_root (behind : bytes) (n : Z) (p : mount_proc) (a : mount_argument p) (args rest : bytes)
    (Hbehind : forallb (Z.eqb 0) behind = true)
    (Hproc : mount_proc_of n = Some p)
    (Hargs : xdr_enc (xdr_mount_argument p) a = Some args)
    (Ha : xdr_ok (xdr_mount_argument p) a = true) :
  exists r body,
    mount_local behind p a = Some r /\
    mount_program_3 behind (fun _ => true) n (args ++ rest) = Some (SvcReply body) /\
    (forall more, xdr_dec (xdr_mount_result p) (body ++ more) = Some (r, more)) /\
    (p = MOUNTPROC3_MNT -> exists fh flavors,
       (forall more, xdr_dec xdr_mountres3 (body ++ more) = Some ((MNT3_OK, Some (mountres3_ok.mk fh flavors)), more)) /\
       lookup_fh fh = bluesky_get_inode BLUESKY_ROOT_INUM).
Proof.
  destruct (mount_local_ok behind p a Hbehind) as (r & Hr & Hok).
  destruct (xdr_total r Hok) as [body Hbody].
  assert (Hdec : forall more, xdr_dec (xdr_mount_result p) (body ++ more) = Some (r, more))
    by (intros; by apply xdr_inverse).
  exists r, body. split_and!; [done| |done|].
  - unfold mount_program_3. rewrite Hproc, (xdr_inverse a args rest Ha Hargs), Hr. cbn [mbind option_bind].
    by rewrite Hbody.
  - intros ->. injection Hr as <-. exists [0; 0; 0; 0; 0; 0; 0; 1], [AUTH_UNIX]. split; [exact Hdec|done].
Qed.
End root.

#[local] Existing Instance linear_gsequence.

Lemma mount_leads_to_root_witness :
  exists body, mount_program_3 [0; 0; 0; 0] (fun _ => true) 1 [0; 0; 0; 2; 47; 97; 0; 0] = Some (SvcReply body).
Proof.
  destruct (mount_leads_to_root [0; 0; 0; 0] 1 MOUNTPROC3_MNT [47; 97] [0; 0; 0; 2; 47; 97; 0; 0] [])
    as (r & body & _ & H & _); try reflexivity. by exists body.
Defined.

(** Anything but zero behind the [int] is taken for half of a pointer. *)
Example dump_follows_garbage :
  mount_program_3 [1; 0; 0; 0] (fun _ => true) 2 [] = None /\
  mount_program_3 [1; 0; 0; 0] (fun _ => true) 5 [] = None.
Proof. done. Qed.
